(* ===== verification/_CoqProject ===== *)
-Q . S2P
Prelude.v
GoStrings.v
GoTime.v
Strings.v
StringsFacts.v
Codec.v
CodecFacts.v
Words.v
WordsFacts.v
Parser.v
ParserFacts.v
Tlds.v
Address.v
AddressFacts.v
AddrParser.v
AddrParserFacts.v
AddrListFacts.v
Fields.v
FieldsFacts.v
MIMEFacts.v
Header.v
HeaderFacts.v
ReadFacts.v
TextFacts.v
Store.v
Repair.v
RepairFacts.v
StoreFacts.v
Parts.v
PartsFacts.v
MessageFacts.v
MultipartFacts.v
NumberFacts.v
