(* ===== verification/Prelude.v ===== *)
(** * go-mail: a verification development

    go-mail parses, repairs and prints Internet mail messages.  Its layers are

    - [src/strings.go]: string helpers, the content-transfer encodings and the
      encoded words of RFC 2047;
    - [src/parser.go]: a cursor parser for the structured header fields;
    - [src/addresses.go], [src/tlds.go]: addresses and a parser for address
      lists that works backwards from the end of the field;
    - [src/fields.go]: the types of header fields, each with a parser and a
      printer;
    - [src/header.go], [src/parts.go], [src/message.go]: headers, body parts and
      messages, built on the layers above.

    ** Files

    Definitions are in [X.v], the theorems on them in [XFacts.v].

    - [Prelude] (this file): bytes and Go strings, the [outcome] of code that can
      panic, the state monad [state_m], indexing and slicing, generic lemmas,
      tactics and hint databases.
    - [GoStrings]: the functions of Go's packages strings, strconv and
      unicode/utf8 that the source calls.
    - [GoTime]: the part of Go's package time that the date layouts use.
    - [Strings], [StringsFacts]: the string helpers of [strings.go] ([quote],
      [unquote], [simplify], [headerCase], [section], [toCRLF], [containsWord],
      [wrap], ...).
    - [Codec], [CodecFacts]: base 64, quoted-printable and uuencode of
      [strings.go] ([e64], [de64], [eQP], [deQP], [needsQP], [deUue],
      [encodeCTE], [decodeCTE]).
    - [Words], [WordsFacts]: [decode], [de2047], [encodePhrase] and [encodeText].
    - [Parser], [ParserFacts]: the type [parser] of [parser.go], one definition
      per method.
    - [Tlds]: the table of [tlds.go].
    - [Address], [AddressFacts]: the type [Address], its printed forms and
      [Uniquify].
    - [AddrParser], [AddrParserFacts], [AddrListFacts]: [AddressParser]; the
      function [address] of the source is split into one definition per branch
      ([addr_empty], ..., [addr_spec]), which [addr_form] chooses between.
    - [Fields], [FieldsFacts], [MIMEFacts]: the field types of [fields.go].  The
      interface [Field] is the sum of the types that implement it; a method is a
      function from the field to the changed field.  [MIMEFacts] has the theorems
      on parameters and Content-Type.
    - [Header], [HeaderFacts], [ReadFacts], [TextFacts]: the type [Header] of [header.go]:
      lookup, [Add], the removals, [verify], [ReadHeader], [Simplify] (split into
      its blocks) and [AsText].  [HeaderFacts] has the invariant of headers and
      that the methods keep it, [ReadFacts] the theorems on reading, [TextFacts]
      those on headers of text fields.
    - [Store], [StoreFacts]: the objects a message is made of, [Part] of
      [parts.go] and [Message] of [message.go], in a store, and the invariant of
      the store.
    - [Repair], [RepairFacts]: [Repair] and [RepairWithBody] of [header.go], one
      definition per block of the source.
    - [Parts], [PartsFacts], [MessageFacts], [MultipartFacts], [NumberFacts]: the
      parsers [parseMultipart], [parseBodypart] and [Parse], which call each other,
      the printers, [guessTextCodec], [guessHtmlCodec] and [BodyPart].
      [PartsFacts] shows that parsers and printers end, [MessageFacts] what holds
      in every state a program can reach, [MultipartFacts] how a multipart is
      split, and [NumberFacts] that the parts are numbered and found by their
      numbers.

    ** How the code is represented

    A Go string is a list of bytes, [str]; an [int] is a [Z] (lengths of strings
    are far below the range of a 64-bit integer), a [byte] is [Byte.byte] with
    its arithmetic modulo 256 written out ([u8]).  Code that indexes or slices at
    a computed position is in the monad [outcome]: [Ret] is a normal return,
    [Panic] a run-time panic, [OutOfFuel] a loop that did not end within the
    rounds it was given.  A method on a pointer receiver is a [state_m] function
    over the record of the receiver's fields.  Error values are the
    constructors of an inductive type with the data of the message.

    Pointers are numbers where the code compares them or shares what they point
    to.  A field of a header is kept with its pointer, so that [Remove], the
    comparisons of fields and assignments through an alias are those of the
    source.  Parts, headers and messages are in a [Store], one list per type: two
    parts can have the same header, and a part is in the list of its parent and
    knows its parent.  A method of a header is an action on the [Header], which
    [on_header] runs in the store.

    A loop that walks a string from left to right is a structural recursion; the
    other loops take a number of rounds, computed from the length of the input
    where the loop is started.  That the number is large enough is not assumed:
    [OutOfFuel] is an outcome like any other, and the theorems exclude it
    ([eQP_roundtrip], [containsWord_spec], [parser_safe],
    [NewAddressParser_total]).  For [NewAddressParser], the nesting of quoted
    lists is bounded by the length of the input, since each list inside a quoted
    one is shorter, and so is the nesting of groups, since the position falls.
    The parsers of messages get [parse_fuel], three calls per byte and three: a
    part is shorter than the multipart around it, and a message inside a message
    shorter than the one around it, unless its header is empty, and then it has
    no type and nothing is nested in it ([parsers_ok]).  The printers get
    [print_fuel], one call per part, since parts are printed in the order in
    which they were made.

    These things are parameters, because they are not part of the source: the
    class [Charset] (in [Words]) stands for the package go-charset,
    [UnicodeCase] (in [GoStrings]) for the case mappings of non-ASCII
    characters, [Local] (in [GoTime]) for the time zone the program runs in,
    [Clock] (in [Store]) for what [time.Now] returns, and the argument [has_room]
    of [BodyPart] for whether [append] finds room in the array of a slice.  What
    a theorem needs of them is a class of laws ([CharsetLaws]: an empty text
    converts to an empty text; [AsciiCharset]: US-ASCII converts ASCII text to
    itself) or a hypothesis; [plain_charsets], [ascii_only_case], [utc_only] and
    [stopped_clock] are concrete instances.

    ** What the theorems show

    - Encodings: base 64 and quoted-printable decode to what was encoded, on
      every byte string ([de64_e64], [eQP_roundtrip], [decode_encodeCTE]), within
      the buffer and the line length; [deUue] inverts a reference encoder;
      [needsQP] recognises text that can be sent as it is; encoded words decode
      ([de2047_roundtrip], [encodedWord_base64]).
    - String helpers: [quote] and [unquote], [section] and [Join] are inverse;
      what [simplify], [toCRLF], [headerCase], [containsWord] and [wrap] return is
      stated for every argument, or, for [wrap], for texts with single spaces
      ([simplify_spec], [toCRLF_lines], [headerCase_canonical],
      [containsWord_spec], [wrap_lines]); where that is not what the comments of
      the code say, an example shows it ([simplify_keeps_tab], [simplify_utf8],
      [wrap_too_long], [eQP_keeps_lf]).
    - The cursor parser: every sequence of operations ends and moves forwards
      ([parser_safe]); [restore] undoes everything since [mark] except the
      remembered comment ([restore_mark]); strings, comments, dot-atoms and
      encoded words are read exactly.
    - Addresses: [Uniquify] keeps one address per key ([uniquify_spec]); the
      address parser ends on every input ([NewAddressParser_total]); it parses a
      list of plain addresses into exactly these, without the duplicates, and
      printing them gives the list back ([NewAddressParser_list]); [findBorder] stays within its
      arguments.
    - Fields: every field parser ends ([NewHeaderField_total]); a field has the Go
      type its name calls for ([NewHeaderField_typed]); the parameters of a MIME
      field are a map with unique names ([parameters_refine],
      [NewHeaderField_params]); Content-Type is parsed back from its folded
      printed form ([ContentType_roundtrip]).
    - Headers: [Valid] is the conditions on the fields ([Header_Valid_spec]); the
      loops that delete fields while they run over them are filters
      ([removal_filters]); a header block is read as its lines
      ([ReadHeader_block]), and a printed header is read back as the same fields
      if each field is ([ReadHeader_AsText]), which is shown of the fields that
      hold ASCII text, folded or not ([text_header_roundtrip]).
    - Messages: in every state a program can reach with the exported functions and
      methods, which read messages and headers, print them, look up and create
      parts, change and repair headers and parse into a message that exists
      ([call] in [MessageFacts]), each call ends
      ([calls_end]), the pointers and the fields are well-formed
      ([reachable_wf]), and the type assertions of the header methods succeed
      ([accessors_safe]).
    - Multiparts: a multipart is split into the parts it is made of
      ([parseMultipart_parts]); as long as no parts are made on demand and
      [Parse] is not called on a message that has parts, the children of every part
      are numbered in order ([parts_numbered]), and [BodyPart] is the look-up of a
      path of numbers ([BodyPart_path]); [Parse_twice] and [BodyPart_single] show
      what a second [Parse] does, and a path into a message without parts.
    - Errors: inputs on which the code panics or loses data ([simplify_panics],
      [Text_panics], [NewAddressParser_digits], [domain_literal_truncated],
      [encodedWord_underscore], [encodeText_drops_word], [encodePhrase_spec],
      [de2047_panics], [deUue_truncated], [eQP_from_moved], [e64_lines],
      [NewHeaderField_panics], [parameters_lost], [ReadHeader_no_colon], and the
      examples at the end of [MessageFacts]).

    ** Not modelled

    The texts of error messages are kept as data, not formatted.  [MarshalJSON]
    and [UnmarshalJSON] of [header.go], which hand [ToMap] to the package
    encoding/json, and the tests are not modelled. *)

From Stdlib Require Export ZArith Lia ZifyBool Bool.
From Stdlib Require Export Strings.Byte.
From Stdlib Require Import Strings.String Wf_nat.
From stdpp Require Export base list option numbers gmap.
Export String.StringSyntax.

(** ** Bytes and Go strings *)

(** A Go [string] is an immutable sequence of bytes. *)
Abbreviation str := (list byte).

#[global] Arguments Z.of_nat : simpl never.
#[global] Arguments Z.to_nat : simpl never.

Declare Scope go_scope.
Delimit Scope go_scope with go.

(** The value of a [byte] ([uint8]) as an integer, and the conversion back,
    which wraps around modulo 256 as Go's [uint8] arithmetic does. *)
Definition bz (c : byte) : Z := Z.of_N (Byte.to_N c).

Definition u8 (z : Z) : byte :=
  match Byte.of_N (Z.to_N (z mod 256)) with
  | Some c => c
  | None => x00
  end.

(** A string literal. *)
Definition lit (s : string) : str := list_byte_of_string s.
Notation "$ s" := (lit s%string) (at level 1, format "$ s") : go_scope.

Infix "=b" := Byte.eqb (at level 70, no associativity) : go_scope.
Open Scope go_scope.

(** Comparisons of bytes, written as the source writes them. *)
Definition ble (a c : byte) : bool := (bz a <=? bz c)%Z.
Definition blt (a c : byte) : bool := (bz a <? bz c)%Z.
Definition between (lo hi c : byte) : bool := ble lo c && ble c hi.

Definition is_lower (c : byte) : bool := between "a" "z" c.
Definition is_upper (c : byte) : bool := between "A" "Z" c.
Definition is_digit (c : byte) : bool := between "0" "9" c.
Definition is_alpha (c : byte) : bool := is_lower c || is_upper c.
Definition is_alnum (c : byte) : bool := is_lower c || is_upper c || is_digit c.

(** [c] is one of the bytes of [set] (a Go [switch] with a list of cases). *)
Definition one_of (set : str) (c : byte) : bool := existsb (Byte.eqb c) set.

#[global] Instance byte_eq_decision : EqDecision byte := Byte.byte_eq_dec.
#[global] Instance byte_inhabited : Inhabited byte := populate x00.
#[global] Program Instance byte_countable : Countable byte :=
  inj_countable Byte.to_N Byte.of_N Byte.of_to_N.

(** Equality of strings as a test ([a == b] in Go). *)
Definition str_eqb (a b : str) : bool := bool_decide (a = b).
Infix "==s" := str_eqb (at level 70, no associativity) : go_scope.

(** ** Outcomes

    A Go call returns, or panics (an index or slice out of range, a nil
    dereference, a failed type assertion).  A definition that recurses on fuel
    has a third outcome, which the termination theorems exclude. *)
Inductive outcome (A : Type) : Type :=
| Ret (a : A)
| Panic
| OutOfFuel.
Arguments Ret {A} a.
Arguments Panic {A}.
Arguments OutOfFuel {A}.

#[global] Instance outcome_ret : MRet outcome := λ A a, Ret a.
#[global] Instance outcome_bind : MBind outcome := λ A B f m,
  match m with
  | Ret a => f a
  | Panic => Panic
  | OutOfFuel => OutOfFuel
  end.
#[global] Instance outcome_fmap : FMap outcome := λ A B f m,
  match m with
  | Ret a => Ret (f a)
  | Panic => Panic
  | OutOfFuel => OutOfFuel
  end.

(** Operations that change the state of an object of type [S]. *)
Definition state_m (S A : Type) : Type := S → outcome (A * S).

#[global] Instance state_ret S : MRet (state_m S) := λ A a st, Ret (a, st).
#[global] Instance state_bind S : MBind (state_m S) := λ A B f m st,
  match m st with
  | Ret (a, st') => f a st'
  | Panic => Panic
  | OutOfFuel => OutOfFuel
  end.

Definition gets {S A} (f : S → A) : state_m S A := λ st, Ret (f st, st).
Definition modify {S} (f : S → S) : state_m S unit := λ st, Ret (tt, f st).
Definition lift {S A} (m : outcome A) : state_m S A := λ st, a ← m; Ret (a, st).
Definition out_of_fuel {S A} : state_m S A := λ st, OutOfFuel.

(** Go indexing [s[i]] and slicing [s[lo:hi]] with their run-time checks. *)
Definition at_ (s : str) (i : Z) : outcome byte :=
  if (i <? 0)%Z then Panic
  else match s !! Z.to_nat i with Some c => Ret c | None => Panic end.

Definition slice (s : str) (lo hi : Z) : outcome str :=
  if (0 <=? lo)%Z && (lo <=? hi)%Z && (hi <=? Z.of_nat (length s))%Z
  then Ret (take (Z.to_nat (hi - lo)) (drop (Z.to_nat lo) s))
  else Panic.

Definition from_ (s : str) (lo : Z) : outcome str :=
  slice s lo (Z.of_nat (length s)).

Definition upto (s : str) (hi : Z) : outcome str := slice s 0 hi.

(** [len(s)] as a Go [int]. *)
Abbreviation len s := (Z.of_nat (length s)).

Definition returns {A} (m : outcome A) : Prop := ∃ a, m = Ret a.

(** The call ends: it returns or it panics, it does not run out of fuel. *)
Definition ends {A} (m : outcome A) : Prop := m ≠ OutOfFuel.

(** Every value the call returns satisfies [Q]; a panic is allowed. *)
Definition post {A} (m : outcome A) (Q : A → Prop) : Prop :=
  match m with
  | Ret a => Q a
  | Panic => True
  | OutOfFuel => False
  end.

(** ** Automation *)

Create HintDb go discriminated.
Create Rewrite HintDb bytes.

(** Case analysis on the next undecided test of the goal. *)
Ltac case_if :=
  match goal with
  | |- context [if ?b then _ else _] => destruct b eqn:?
  end.

Ltac case_if_in H :=
  match type of H with
  | context [if ?b then _ else _] => destruct b eqn:?
  end.

(** ** Byte facts *)

Definition all_bytes : list byte :=
  omap (λ n, Byte.of_N (N.of_nat n)) (seq 0 256).

Lemma all_bytes_complete (c : byte) : In c all_bytes.
Proof.
  assert (existsb (Byte.eqb c) all_bytes = true) as H by (destruct c; reflexivity).
  apply existsb_exists in H as (d & Hd & ->%Byte.byte_dec_bl). done.
Qed.

(** A boolean property of one byte is checked on all 256 of them. *)
Lemma byte_forall (P : byte → bool) :
  forallb P all_bytes = true → ∀ c, P c = true.
Proof.
  intros H c. rewrite forallb_forall in H. apply H, all_bytes_complete.
Qed.

Lemma byte_forall2 (P : byte → byte → bool) :
  forallb (λ c, forallb (P c) all_bytes) all_bytes = true → ∀ c d, P c d = true.
Proof.
  intros H c. apply byte_forall.
  apply (byte_forall (λ c, forallb (P c) all_bytes) H).
Qed.

(** Solve [∀ c : byte, f c = g c] for boolean or otherwise decidable [f], [g]
    by enumeration. *)
Ltac byte_enum := intros []; vm_compute; first [reflexivity | discriminate | tauto].

Lemma bz_range (c : byte) : (0 <= bz c < 256)%Z.
Proof.
  assert ((0 <=? bz c) && (bz c <? 256) = true)%Z by (destruct c; reflexivity). lia.
Qed.

Lemma bz_inj (c d : byte) : bz c = bz d → c = d.
Proof.
  unfold bz. intros H%N2Z.inj.
  pose proof (Byte.of_to_N c) as Hc. rewrite H, Byte.of_to_N in Hc. congruence.
Qed.

Lemma bz_u8 (z : Z) : bz (u8 z) = (z mod 256)%Z.
Proof.
  unfold u8, bz. pose proof (Z.mod_pos_bound z 256 ltac:(lia)) as Hz.
  destruct (Byte.of_N (Z.to_N (z mod 256))) as [c|] eqn:E.
  - apply Byte.to_of_N in E. rewrite E, Z2N.id; lia.
  - apply Byte.of_N_None_iff in E. lia.
Qed.

Lemma u8_bz (c : byte) : u8 (bz c) = c.
Proof.
  apply bz_inj. rewrite bz_u8. pose proof (bz_range c).
  by rewrite Z.mod_small by lia.
Qed.

Lemma u8_small (z : Z) : (0 <= z < 256)%Z → bz (u8 z) = z.
Proof. intros. by rewrite bz_u8, Z.mod_small. Qed.

Lemma beq_true (c d : byte) : (c =b d) = true ↔ c = d.
Proof. split; [apply Byte.byte_dec_bl | apply Byte.byte_dec_lb]. Qed.

Lemma beq_refl (c : byte) : (c =b c) = true.
Proof. by apply beq_true. Qed.

Lemma beq_false (c d : byte) : (c =b d) = false ↔ c ≠ d.
Proof. rewrite <- not_true_iff_false, beq_true. done. Qed.

Lemma beq_spec (c d : byte) : reflect (c = d) (c =b d).
Proof. apply iff_reflect. symmetry. apply beq_true. Qed.

Lemma str_eqb_true (a b : str) : (a ==s b) = true ↔ a = b.
Proof. unfold str_eqb. by rewrite bool_decide_eq_true. Qed.

Lemma str_eqb_false (a b : str) : (a ==s b) = false ↔ a ≠ b.
Proof. unfold str_eqb. by rewrite bool_decide_eq_false. Qed.

Lemma str_eqb_refl (a : str) : (a ==s a) = true.
Proof. by apply str_eqb_true. Qed.

#[export] Hint Rewrite beq_refl str_eqb_refl bz_u8 u8_bz : bytes.
#[export] Hint Resolve bz_range : go.

Lemma one_of_In (set : str) (c : byte) : one_of set c = true ↔ In c set.
Proof.
  unfold one_of. rewrite existsb_exists. split.
  - by intros (d & Hd & ->%beq_true).
  - intros Hc. exists c. by rewrite beq_refl.
Qed.

(** Turn the byte tests of the context and the goal into equations. *)
Ltac breflect :=
  repeat match goal with
  | H : (_ =b _) = true |- _ => apply beq_true in H
  | H : (_ =b _) = false |- _ => apply beq_false in H
  | H : (_ ==s _) = true |- _ => apply str_eqb_true in H
  | H : (_ ==s _) = false |- _ => apply str_eqb_false in H
  | H : (_ && _) = true |- _ => apply andb_true_iff in H as [? ?]
  | H : (_ || _) = false |- _ => apply orb_false_iff in H as [? ?]
  | H : negb _ = true |- _ => apply negb_true_iff in H
  | H : negb _ = false |- _ => apply negb_false_iff in H
  | H : ble _ _ = _ |- _ => unfold ble in H
  | H : blt _ _ = _ |- _ => unfold blt in H
  end.

(** ** Outcome facts *)

Lemma bind_ret_inv {A B} (m : outcome A) (f : A → outcome B) (b : B) :
  (m ≫= f) = Ret b → ∃ a, m = Ret a ∧ f a = Ret b.
Proof. destruct m; simpl; naive_solver. Qed.

Lemma bind_ends {A B} (m : outcome A) (f : A → outcome B) :
  ends m → (∀ a, m = Ret a → ends (f a)) → ends (m ≫= f).
Proof. unfold ends. destruct m; simpl; naive_solver. Qed.

Lemma post_ret {A} (a : A) (Q : A → Prop) : Q a → post (Ret a) Q.
Proof. done. Qed.

Lemma post_bind {A B} (m : outcome A) (f : A → outcome B) (R : A → Prop)
    (Q : B → Prop) :
  post m R → (∀ a, R a → post (f a) Q) → post (m ≫= f) Q.
Proof. destruct m; simpl; naive_solver. Qed.

Lemma post_mono {A} (m : outcome A) (R Q : A → Prop) :
  post m R → (∀ a, R a → Q a) → post m Q.
Proof. destruct m; simpl; naive_solver. Qed.

Lemma post_ends {A} (m : outcome A) (Q : A → Prop) : post m Q → ends m.
Proof. destruct m; simpl; unfold ends; naive_solver. Qed.

Lemma pbind_ret {S A B} (m : state_m S A) (f : A → state_m S B) p a q :
  m p = Ret (a, q) → (m ≫= f) p = f a q.
Proof. intros H. unfold mbind, state_bind. by rewrite H. Qed.

Lemma pbind_panic {S A B} (m : state_m S A) (k : A → state_m S B) s :
  m s = Panic → (m ≫= k) s = Panic.
Proof. intros H. unfold mbind, state_bind. by rewrite H. Qed.

Lemma pbind_ext {S A B} (m m' : state_m S A) (f f' : A → state_m S B) st :
  m st = m' st → (∀ a q, f a q = f' a q) → (m ≫= f) st = (m' ≫= f') st.
Proof. intros Hm Hf. unfold mbind, state_bind. rewrite Hm. destruct (m' st) as [[a q]| |]; simpl; auto. Qed.

Lemma bind_inv {S A B} (m : state_m S A) (f : A → state_m S B) st b st' :
  (m ≫= f) st = Ret (b, st') → ∃ a q, m st = Ret (a, q) ∧ f a q = Ret (b, st').
Proof. unfold mbind, state_bind. destruct (m st) as [[a q]| |]; [eauto | done..]. Qed.

Lemma pbind_post {S A B} (m : state_m S A) (f : A → state_m S B) p (R : A * S → Prop) Q :
  post (m p) R → (∀ a q, R (a, q) → post (f a q) Q) → post ((m ≫= f) p) Q.
Proof. unfold mbind, state_bind. destruct (m p) as [[a q]| |]; simpl; auto. Qed.

Lemma post_at (s : str) (i : Z) (Q : byte → Prop) :
  (∀ c, (0 <= i < len s)%Z → s !! Z.to_nat i = Some c → Q c) → post (at_ s i) Q.
Proof.
  intros H. unfold at_. destruct (Z.ltb_spec i 0); [done|].
  destruct (s !! Z.to_nat i) as [c|] eqn:E; [|done].
  apply H; [|done]. apply lookup_lt_Some in E. lia.
Qed.

Lemma post_slice (s : str) (lo hi : Z) (Q : str → Prop) :
  ((0 <= lo <= hi)%Z → (hi <= len s)%Z →
   Q (take (Z.to_nat (hi - lo)) (drop (Z.to_nat lo) s))) →
  post (slice s lo hi) Q.
Proof. intros H. unfold slice. case_if; [|done]. simpl. apply H; lia. Qed.

Lemma at_ret (s : str) (i : Z) (c : byte) :
  (0 <= i)%Z → s !! Z.to_nat i = Some c → at_ s i = Ret c.
Proof. intros Hi Hc. unfold at_. destruct (Z.ltb_spec i 0); [lia|]. by rewrite Hc. Qed.

Lemma at_in_range (s : str) (i : Z) :
  (0 <= i < len s)%Z → ∃ c, at_ s i = Ret c ∧ s !! Z.to_nat i = Some c.
Proof.
  intros Hi. destruct (lookup_lt_is_Some_2 s (Z.to_nat i)) as [c Hc]; [lia|].
  exists c. split; [|done]. apply at_ret; [lia|done].
Qed.

Lemma slice_ret (s : str) (lo hi : Z) :
  (0 <= lo <= hi)%Z → (hi <= len s)%Z →
  slice s lo hi = Ret (take (Z.to_nat (hi - lo)) (drop (Z.to_nat lo) s)).
Proof. intros. unfold slice. case_if; [done | lia]. Qed.

(** Reading at a known split. *)
Lemma at_app (a b : str) (c : byte) (i : Z) : i = len a → at_ (a ++ c :: b) i = Ret c.
Proof.
  intros ->. apply at_ret; [lia|]. by rewrite Nat2Z.id, lookup_app_r, Nat.sub_diag by lia.
Qed.

Lemma slice_app (a b c : str) (lo hi : Z) :
  lo = len a → hi = (len a + len b)%Z → slice (a ++ b ++ c) lo hi = Ret b.
Proof.
  intros -> ->. rewrite slice_ret by (rewrite ?length_app; lia).
  by rewrite Nat2Z.id, drop_app_length, take_app_length' by lia.
Qed.

#[export] Hint Resolve post_ret : go.

(** ** Induction on the length of a string *)

Lemma str_length_ind (P : str → Prop) :
  (∀ s, (∀ t, (length t < length s)%nat → P t) → P s) → ∀ s, P s.
Proof. intros H. apply (induction_ltof1 _ (@length byte)). intros s IH. apply H, IH. Qed.

Lemma forallb_Forall {A} (p : A → bool) (l : list A) :
  forallb p l = true ↔ Forall (λ x, p x = true) l.
Proof.
  induction l as [|x l IH]; simpl; [done|].
  rewrite andb_true_iff, Forall_cons, IH. done.
Qed.

(** ** Scanning

    [take_while p s] is what the loop [for i < len(s) && p(s[i]) { i++ }]
    passes over, and [drop_while p s] what it leaves. *)
Fixpoint take_while (p : byte → bool) (s : str) : str :=
  match s with
  | c :: s' => if p c then c :: take_while p s' else []
  | [] => []
  end.

Fixpoint drop_while (p : byte → bool) (s : str) : str :=
  match s with
  | c :: s' => if p c then drop_while p s' else s
  | [] => []
  end.

Lemma take_drop_while p s : take_while p s ++ drop_while p s = s.
Proof. induction s as [|c s IH]; simpl; [done|]. case_if; simpl; congruence. Qed.

Lemma take_while_all p s : Forall (λ c, p c = true) (take_while p s).
Proof. induction s as [|c s IH]; simpl; [done|]. case_if; auto. Qed.

Lemma take_while_length p s : length (take_while p s) ≤ length s.
Proof. induction s as [|c s IH]; simpl; [done|]. case_if; simpl; lia. Qed.

Lemma drop_while_drop p s : drop_while p s = drop (length (take_while p s)) s.
Proof. induction s as [|c s IH]; simpl; [done|]. case_if; simpl; done. Qed.

Lemma take_while_app_stop p a s :
  Forall (λ c, p c = true) a →
  match s with c :: _ => p c = false | [] => True end →
  take_while p (a ++ s) = a.
Proof.
  induction 1 as [|c a Hc Ha IH]; simpl; intros Hs.
  - destruct s; simpl; [done|]. by rewrite Hs.
  - rewrite Hc. by rewrite IH.
Qed.

Lemma drop_while_head p s :
  match drop_while p s with c :: _ => p c = false | [] => True end.
Proof. induction s as [|c s IH]; simpl; [done|]. by case_if. Qed.

Lemma take_while_nil p s :
  match s with c :: _ => p c = false | [] => True end → take_while p s = [].
Proof. destruct s; simpl; [done|]. by intros ->. Qed.
