(* ===== verification/GoStrings.v ===== *)
(** * What the sources use of Go's [strings], [unicode/utf8] and [strconv]

    Strings are byte lists.  Runes are integers.  [strings.Index] and
    [strings.IndexByte] return -1 when there is no occurrence, as in Go.  The
    case tables of package [unicode] beyond ASCII are the class [UnicodeCase]:
    they are data generated from a version of the Unicode database, and no
    theorem here depends on their contents. *)

From S2P Require Import Prelude.
Open Scope Z_scope.

(** ** Search *)

Fixpoint HasPrefix (s p : str) {struct p} : bool :=
  match p, s with
  | [], _ => true
  | c :: p', d :: s' => (c =b d) && HasPrefix s' p'
  | _ :: _, [] => false
  end.

Definition HasSuffix (s p : str) : bool :=
  (Z.of_nat (length p) <=? Z.of_nat (length s))
  && (drop (length s - length p) s ==s p).

Fixpoint index_from (s sub : str) (i : Z) : Z :=
  if HasPrefix s sub then i
  else match s with
       | [] => -1
       | _ :: s' => index_from s' sub (i + 1)
       end.

Definition Index (s sub : str) : Z := index_from s sub 0.

Definition IndexByte (s : str) (c : byte) : Z := Index s [c].

Definition Contains (s sub : str) : bool := 0 <=? Index s sub.

Definition ContainsAny (s chars : str) : bool := existsb (one_of chars) s.

(** ** Split, Join, Trim *)

(** [strings.Split] for a non-empty separator: the pieces between the
    leftmost, non-overlapping occurrences.  [length s] rounds are enough, each
    passes over at least one byte. *)
Fixpoint split_fuel (n : nat) (s sep : str) : list str :=
  let i := Index s sep in
  match n with
  | O => [s]
  | S n' =>
      if i <? 0 then [s]
      else take (Z.to_nat i) s :: split_fuel n' (drop (Z.to_nat i + length sep) s) sep
  end.

Definition Split (s sep : str) : list str := split_fuel (length s) s sep.

Fixpoint Join (ws : list str) (sep : str) : str :=
  match ws with
  | [] => []
  | [w] => w
  | w :: ws' => w ++ sep ++ Join ws' sep
  end.

Definition TrimLeft (s cutset : str) : str := drop_while (one_of cutset) s.
Definition TrimRight (s cutset : str) : str :=
  reverse (drop_while (one_of cutset) (reverse s)).
Definition Trim (s cutset : str) : str := TrimRight (TrimLeft s cutset) cutset.

(** [strings.Replace(s, c, "", -1)] for a one-byte [c]. *)
Definition RemoveByte (s : str) (c : byte) : str :=
  List.filter (λ d, negb (d =b c)) s.

(** ** UTF-8 *)

Definition RuneError : Z := 65533.

Definition cont (c : byte) : bool := (128 <=? bz c) && (bz c <=? 191).

(** The second byte a leading byte of a three- or four-byte sequence accepts
    (the [acceptRanges] table of package [utf8]). *)
Definition accept (b0 b1 : byte) : bool :=
  let lo := if bz b0 =? 224 then 160 else if bz b0 =? 240 then 144 else 128 in
  let hi := if bz b0 =? 237 then 159 else if bz b0 =? 244 then 143 else 191 in
  (lo <=? bz b1) && (bz b1 <=? hi).

(** [for _, c := range s]: an invalid byte is one [RuneError]. *)
Fixpoint runes (s : str) : list Z :=
  match s with
  | [] => []
  | b0 :: s1 =>
      if bz b0 <? 128 then bz b0 :: runes s1
      else match s1 with
      | [] => [RuneError]
      | b1 :: s2 =>
          if (194 <=? bz b0) && (bz b0 <=? 223) && cont b1
          then (bz b0 - 192) * 64 + (bz b1 - 128) :: runes s2
          else match s2 with
          | [] => RuneError :: runes s1
          | b2 :: s3 =>
              if (224 <=? bz b0) && (bz b0 <=? 239) && accept b0 b1 && cont b2
              then (bz b0 - 224) * 4096 + (bz b1 - 128) * 64 + (bz b2 - 128) :: runes s3
              else match s3 with
              | [] => RuneError :: runes s1
              | b3 :: s4 =>
                  if (240 <=? bz b0) && (bz b0 <=? 244) && accept b0 b1 && cont b2 && cont b3
                  then (bz b0 - 240) * 262144 + (bz b1 - 128) * 4096
                       + (bz b2 - 128) * 64 + (bz b3 - 128) :: runes s4
                  else RuneError :: runes s1
              end
          end
      end
  end.

(** [utf8.AppendRune] / [Buffer.WriteRune]: surrogates and values out of range
    are written as [RuneError]. *)
Definition encode_rune (r : Z) : str :=
  if (0 <=? r) && (r <? 128) then [u8 r]
  else if (0 <=? r) && (r <? 2048) then [u8 (192 + r / 64); u8 (128 + r mod 64)]
  else if (r <? 0) || (1114111 <? r) || ((55296 <=? r) && (r <=? 57343))
  then [u8 239; u8 191; u8 189]
  else if r <? 65536
  then [u8 (224 + r / 4096); u8 (128 + r / 64 mod 64); u8 (128 + r mod 64)]
  else [u8 (240 + r / 262144); u8 (128 + r / 4096 mod 64);
        u8 (128 + r / 64 mod 64); u8 (128 + r mod 64)].

(** [string(rs)] for [rs : []rune]. *)
Definition encode_runes (rs : list Z) : str := flat_map encode_rune rs.

(** [strings.Map] for a mapping that drops no rune. *)
Definition str_map (f : Z → Z) (s : str) : str := encode_runes (map f (runes s)).

(** ** Case *)

Class UnicodeCase := {
  uc_lower : Z → Z;  (* unicode.ToLower on runes above 127 *)
  uc_title : Z → Z   (* unicode.ToTitle on runes above 127 *)
}.

(** A table for concrete evaluations: letters beyond ASCII have no case. *)
Definition ascii_only_case : UnicodeCase :=
  {| uc_lower := λ r, r; uc_title := λ r, r |}.

Definition lower_byte (c : byte) : byte := if is_upper c then u8 (bz c + 32) else c.
Definition upper_byte (c : byte) : byte := if is_lower c then u8 (bz c - 32) else c.

Section Case.
Context {U : UnicodeCase}.

Definition lower_rune (r : Z) : Z :=
  if r <? 128 then (if (65 <=? r) && (r <=? 90) then r + 32 else r) else uc_lower r.

Definition title_rune (r : Z) : Z :=
  if r <? 128 then (if (97 <=? r) && (r <=? 122) then r - 32 else r) else uc_title r.

Definition ToLower (s : str) : str := str_map lower_rune s.
Definition ToTitle (s : str) : str := str_map title_rune s.
End Case.

(** A string of bytes below 128. *)
Definition ascii_str (s : str) : bool := forallb (λ c, bz c <? 128) s.

(** ** strconv *)

Definition hex_val (c : byte) : option Z :=
  if is_digit c then Some (bz c - 48)
  else if between "a" "f" c then Some (bz c - 87)
  else if between "A" "F" c then Some (bz c - 55)
  else None.

(** [strconv.ParseUint(s, 16, 8)] for a string of two bytes; [None] is a
    syntax error. *)
Definition parse_hex2 (a b : byte) : option Z :=
  match hex_val a, hex_val b with
  | Some h, Some l => Some (16 * h + l)
  | _, _ => None
  end.

(** [strconv.Atoi]: an optional sign and decimal digits, within 64 bits. *)
Definition Atoi (s : str) : option Z :=
  let '(neg, ds) := match s with
                    | c :: s' => if (c =b "-") || (c =b "+") then (c =b "-", s') else (false, s)
                    | [] => (false, s)
                    end in
  if (ds ==s []) || negb (forallb is_digit ds) then None
  else
    let n := fold_left (λ n c, 10 * n + (bz c - 48)) ds 0 in
    let n := if (neg : bool) then - n else n in
    if (- 2 ^ 63 <=? n) && (n <? 2 ^ 63) then Some n else None.

(** ** Facts *)

Lemma HasPrefix_app (s p : str) : HasPrefix s p = true ↔ ∃ t, s = p ++ t.
Proof.
  revert s. induction p as [|c p IH]; intros s; simpl.
  - split; intros _; [by exists s | done].
  - destruct s as [|d s]; [by split; [|intros [? ?]]|].
    rewrite andb_true_iff, beq_true, IH. split.
    + intros (-> & t & ->). by exists t.
    + intros (t & [= -> ->]). split; [done | by exists t].
Qed.

Lemma HasPrefix_refl (p t : str) : HasPrefix (p ++ t) p = true.
Proof. apply HasPrefix_app. by exists t. Qed.

Lemma HasSuffix_app (s p : str) : HasSuffix s p = true ↔ ∃ t, s = t ++ p.
Proof.
  unfold HasSuffix. rewrite andb_true_iff, str_eqb_true. split.
  - intros [Hl Hd]. exists (take (length s - length p) s).
    rewrite <- (take_drop (length s - length p) s) at 1. by rewrite Hd.
  - intros [t ->]. rewrite length_app. split; [lia|].
    rewrite drop_app_length'; [done | lia].
Qed.

Lemma index_from_neg (s sub : str) (i : Z) :
  0 <= i → index_from s sub i < 0 → index_from s sub i = -1.
Proof.
  revert i. induction s as [|c s IH]; intros i Hi; simpl; case_if; try lia.
  intros. apply IH; lia.
Qed.

Lemma index_from_shift (s sub : str) (i : Z) :
  0 <= i →
  index_from s sub i = (if index_from s sub 0 <? 0 then -1 else i + index_from s sub 0).
Proof.
  revert i. induction s as [|c s IH]; intros i Hi; simpl.
  - case_if; [rewrite Z.ltb_irrefl; lia | done].
  - case_if; [rewrite Z.ltb_irrefl; lia|].
    rewrite (IH (i + 1)), (IH (0 + 1)) by lia.
    destruct (Z.ltb_spec (index_from s sub 0) 0); [done|].
    destruct (Z.ltb_spec (0 + 1 + index_from s sub 0) 0); lia.
Qed.

(** [Index s sub] is the position of the first occurrence. *)
Lemma Index_found (s sub : str) (i : Z) :
  Index s sub = i → 0 <= i →
  ∃ a b, s = a ++ sub ++ b ∧ i = len a ∧
         (∀ j, (j < length a)%nat → HasPrefix (drop j s) sub = false).
Proof.
  unfold Index. revert i. induction s as [|c s IH]; intros i H Hi; simpl in H.
  - case_if_in H; [|lia]. exists [], []. destruct sub; [|done].
    repeat split; [simpl; lia|]. simpl. lia.
  - case_if_in H.
    + apply HasPrefix_app in Heqb as [t Ht].
      exists [], t. repeat split; [done | simpl; lia | simpl; lia].
    + rewrite index_from_shift in H by lia.
      destruct (Z.ltb_spec (index_from s sub 0) 0); [lia|].
      destruct (IH (index_from s sub 0)) as (a & b & -> & Hl & Hno); [done|done|].
      exists (c :: a), b. repeat split; [simpl; lia|].
      intros [|j] Hj; simpl; [done|]. apply Hno. simpl in Hj. lia.
Qed.

Lemma Index_none (s sub : str) (j : nat) :
  Index s sub < 0 → HasPrefix (drop j s) sub = false.
Proof.
  unfold Index. revert j. induction s as [|c s IH]; intros j H; simpl in H.
  - rewrite drop_nil. case_if_in H; [lia|done].
  - case_if_in H; [lia|]. rewrite index_from_shift in H by lia.
    destruct (Z.ltb_spec (index_from s sub 0) 0); [|lia].
    destruct j; simpl; [done|]. by apply IH.
Qed.

Lemma Contains_app (a sub b : str) : Contains (a ++ sub ++ b) sub = true.
Proof.
  unfold Contains. apply Z.leb_le. destruct (decide (0 <= Index (a ++ sub ++ b) sub)) as [H|H]; [done|].
  pose proof (Index_none (a ++ sub ++ b) sub (length a) ltac:(lia)) as Hn. by rewrite drop_app_length, HasPrefix_refl in Hn.
Qed.

Lemma Index_range (s sub : str) : -1 <= Index s sub <= len s.
Proof.
  destruct (decide (0 <= Index s sub)) as [H|H].
  - destruct (Index_found s sub _ eq_refl H) as (a & b & Hs & -> & _).
    rewrite Hs, !length_app. lia.
  - unfold Index in *. rewrite (index_from_neg s sub 0) by lia. lia.
Qed.

(** ASCII bytes are one-byte runes, so case mapping is bytewise on them. *)
Lemma runes_ascii (s : str) : ascii_str s = true → runes s = map bz s.
Proof.
  unfold ascii_str. induction s as [|c s IH]; simpl; [done|].
  intros [Hc Hs]%andb_true_iff. rewrite Hc. by rewrite IH.
Qed.

Lemma encode_rune_ascii (c : byte) : bz c < 128 → encode_rune (bz c) = [c].
Proof.
  intros H. unfold encode_rune. pose proof (bz_range c).
  case_if; [by rewrite u8_bz | lia].
Qed.

Lemma encode_runes_ascii (s : str) : ascii_str s = true → encode_runes (map bz s) = s.
Proof.
  unfold ascii_str. induction s as [|c s IH]; simpl; [done|].
  intros [Hc Hs]%andb_true_iff. rewrite encode_rune_ascii by lia. simpl. by rewrite IH.
Qed.

Lemma lower_byte_ascii (c : byte) : bz c < 128 → bz (lower_byte c) < 128.
Proof. revert c. byte_enum. Qed.

Lemma upper_byte_ascii (c : byte) : bz c < 128 → bz (upper_byte c) < 128.
Proof. revert c. byte_enum. Qed.

Lemma str_map_bytewise (f : Z → Z) (g : byte → byte) (s : str) :
  (∀ c, bz c < 128 → f (bz c) = bz (g c) ∧ bz (g c) < 128) →
  ascii_str s = true → str_map f s = map g s.
Proof.
  intros Hfg Hs. unfold str_map. rewrite runes_ascii by done.
  unfold ascii_str in Hs. induction s as [|c s IH]; simpl in *; [done|].
  apply andb_true_iff in Hs as [Hc Hs]. destruct (Hfg c) as [-> Hg]; [lia|].
  rewrite encode_rune_ascii by done. simpl. by rewrite <- IH.
Qed.

Lemma ToLower_ascii `{UnicodeCase} (s : str) :
  ascii_str s = true → ToLower s = map lower_byte s.
Proof.
  apply str_map_bytewise. intros c Hc. split; [|by apply lower_byte_ascii].
  unfold lower_rune. case_if; [|lia]. revert c Hc Heqb. byte_enum.
Qed.

Lemma ToTitle_ascii `{UnicodeCase} (s : str) :
  ascii_str s = true → ToTitle s = map upper_byte s.
Proof.
  apply str_map_bytewise. intros c Hc. split; [|by apply upper_byte_ascii].
  unfold title_rune. case_if; [|lia]. revert c Hc Heqb. byte_enum.
Qed.
