(* ===== verification/GoTime.v ===== *)
(** * The part of Go's package time that the source uses

    [time.Parse] for the layouts of [src/fields.go], [Time.Format] and
    [Time.Before].  A layout is the list of the elements [time.Parse] splits it
    into.  Zone abbreviations are looked up in the local time zone, which is the
    class [Local]. *)

From S2P Require Import Prelude GoStrings.
Open Scope Z_scope.

(** ** Times *)

(** Seconds since 1970 in UTC, the nanoseconds, and the offset in seconds of the
    zone in which the time is shown. *)
Record Time := { t_unix : Z; t_nsec : Z; t_offset : Z }.

Definition Before (t u : Time) : bool :=
  (t_unix t <? t_unix u) || ((t_unix t =? t_unix u) && (t_nsec t <? t_nsec u)).

Class Local := {
  lookupName : str → Z → option Z   (* the offset of an abbreviation at a time *)
}.

Definition utc_only : Local := {| lookupName _ _ := None |}.

(** ** The calendar *)

Definition is_leap (y : Z) : bool := (y mod 4 =? 0) && (negb (y mod 100 =? 0) || (y mod 400 =? 0)).

Definition daysIn (m y : Z) : Z :=
  if m =? 2 then (if is_leap y then 29 else 28)
  else if (m =? 4) || (m =? 6) || (m =? 9) || (m =? 11) then 30 else 31.

(** Days since 1970-01-01 of a date, counting years from March. *)
Definition days_of_civil (y m d : Z) : Z :=
  let y' := if m <=? 2 then y - 1 else y in
  let mp := if m <=? 2 then m + 9 else m - 3 in
  let era := y' / 400 in
  let yoe := y' mod 400 in
  era * 146097 + (yoe * 365 + yoe / 4 - yoe / 100) + ((153 * mp + 2) / 5 + d - 1) - 719468.

(** The date of a number of days since 1970-01-01. *)
Definition civil_of_days (n : Z) : Z * Z * Z :=
  let z := n + 719468 in
  let era := z / 146097 in
  let doe := z mod 146097 in
  let yoe := (doe - doe / 1460 + doe / 36524 - doe / 146096) / 365 in
  let doy := doe - (365 * yoe + yoe / 4 - yoe / 100) in
  let mp := (5 * doy + 2) / 153 in
  let d := doy - (153 * mp + 2) / 5 + 1 in
  let m := if mp <? 10 then mp + 3 else mp - 9 in
  ((if m <=? 2 then yoe + era * 400 + 1 else yoe + era * 400), m, d).

Definition shortDayNames : list str :=
  [$"Sun"; $"Mon"; $"Tue"; $"Wed"; $"Thu"; $"Fri"; $"Sat"].

Definition shortMonthNames : list str :=
  [$"Jan"; $"Feb"; $"Mar"; $"Apr"; $"May"; $"Jun"; $"Jul"; $"Aug"; $"Sep"; $"Oct"; $"Nov"; $"Dec"].

(** ** Numbers *)

Definition digit_val (c : byte) : Z := bz c - 48.

(** The digits at the start of a string, and the rest. *)
Definition leadingInt (s : str) : Z * str :=
  (fold_left (λ n c, 10 * n + digit_val c) (take_while is_digit s) 0, drop_while is_digit s).

Definition time_atoi (s : str) : option Z :=
  let '(neg, s) := match s with
                   | c :: s' => if (c =b "-") || (c =b "+") then (c =b "-", s') else (false, s)
                   | [] => (false, s)
                   end in
  match leadingInt s with
  | (x, []) => Some (if (neg : bool) then - x else x)
  | _ => None
  end.

(** One or two digits; exactly two when [fixed]. *)
Definition getnum (s : str) (fixed : bool) : option (Z * str) :=
  match s with
  | a :: b :: s' =>
      if negb (is_digit a) then None
      else if is_digit b then Some (10 * digit_val a + digit_val b, s')
      else if fixed then None else Some (digit_val a, b :: s')
  | [a] => if is_digit a && negb fixed then Some (digit_val a, []) else None
  | [] => None
  end.

Definition getnum_below (hi : Z) (s : str) (fixed : bool) : option (Z * str) :=
  match getnum s fixed with
  | Some (n, s) => if n <? hi then Some (n, s) else None
  | None => None
  end.

(** [appendInt(x, 2)] and [appendInt(x, 4)] for numbers that fit the width. *)
Definition digit_char (n : Z) : byte := u8 (48 + n).
Definition two_digits (n : Z) : str := [digit_char (n / 10 mod 10); digit_char (n mod 10)].
Definition four_digits (n : Z) : str := two_digits (n / 100) ++ two_digits (n mod 100).

(** The digits of a number of any size, most significant first. *)
Fixpoint decimal (fuel : nat) (n : Z) : str :=
  match fuel with
  | O => []
  | S f => if n <? 10 then [digit_char n] else decimal f (n / 10) ++ [digit_char (n mod 10)]
  end.

Definition format_year (y : Z) : str :=
  if y <? 0 then
    "-"%byte :: (if y <=? -10000 then decimal (Z.to_nat (- y)) (- y) else four_digits (- y))
  else if 10000 <=? y then decimal (Z.to_nat y) y else four_digits y.

(** ** Names *)

Definition same_letter (a b : byte) : bool :=
  (a =b b) || ((Z.lor (bz a) 32 =? Z.lor (bz b) 32) && is_lower (u8 (Z.lor (bz a) 32))).

Fixpoint match_name (s name : str) : option str :=
  match name, s with
  | [], _ => Some s
  | b :: name', a :: s' => if same_letter a b then match_name s' name' else None
  | _ :: _, [] => None
  end.

Fixpoint lookup_name (tab : list str) (i : Z) (s : str) : option (Z * str) :=
  match tab with
  | [] => None
  | n :: tab' => match match_name s n with Some r => Some (i, r) | None => lookup_name tab' (i + 1) s end
  end.

(** ** Zones *)

(** How many bytes of [s] are a signed number of hours below 24. *)
Definition parseSignedOffset (s : str) : nat :=
  match s with
  | c :: s' =>
      if (c =b "-") || (c =b "+") then
        let '(x, rem) := leadingInt s' in
        if Nat.eqb (length rem) (length s') || (23 <? x) then O else (length s - length rem)%nat
      else O
  | [] => O
  end.

(** How many bytes of [s] are a zone abbreviation; [0] when there is none. *)
Definition parseTimeZone (s : str) : nat :=
  if Nat.ltb (length s) 3 then O
  else if HasPrefix s $"ChST" || HasPrefix s $"MeST" then 4%nat
  else if HasPrefix s $"GMT" then (3 + parseSignedOffset (drop 3 s))%nat
  else if HasPrefix s $"+" || HasPrefix s $"-" then parseSignedOffset s
  else
    match length (take_while is_upper s) with
    | 3%nat => 3%nat
    | 4%nat => if HasPrefix (drop 3 s) $"T" || HasPrefix s $"WITA" then 4%nat else O
    | 5%nat => if HasPrefix (drop 4 s) $"T" then 5%nat else O
    | _ => O
    end.

(** ** Layouts *)

Inductive element :=
| Literal (s : str)
| StdWeekDay | StdDay | StdZeroDay | StdMonth | StdLongYear | StdYear
| StdHour | StdZeroMinute | StdZeroSecond | StdNumTZ | StdTZ.

(** What has been parsed so far. *)
Record pieces := {
  pc_year : Z; pc_month : Z; pc_day : Z; pc_hour : Z; pc_min : Z; pc_sec : Z; pc_nsec : Z;
  pc_utc : bool; pc_offset : option Z; pc_zone : str
}.

Definition no_pieces : pieces :=
  {| pc_year := 0; pc_month := 1; pc_day := 1; pc_hour := 0; pc_min := 0; pc_sec := 0; pc_nsec := 0;
     pc_utc := false; pc_offset := None; pc_zone := [] |}.

Definition set_date (y m d : Z) (p : pieces) : pieces :=
  {| pc_year := y; pc_month := m; pc_day := d; pc_hour := pc_hour p; pc_min := pc_min p;
     pc_sec := pc_sec p; pc_nsec := pc_nsec p; pc_utc := pc_utc p; pc_offset := pc_offset p;
     pc_zone := pc_zone p |}.
Definition set_clock (h m s ns : Z) (p : pieces) : pieces :=
  {| pc_year := pc_year p; pc_month := pc_month p; pc_day := pc_day p; pc_hour := h; pc_min := m;
     pc_sec := s; pc_nsec := ns; pc_utc := pc_utc p; pc_offset := pc_offset p; pc_zone := pc_zone p |}.
Definition set_zone (utc : bool) (off : option Z) (zone : str) (p : pieces) : pieces :=
  {| pc_year := pc_year p; pc_month := pc_month p; pc_day := pc_day p; pc_hour := pc_hour p;
     pc_min := pc_min p; pc_sec := pc_sec p; pc_nsec := pc_nsec p; pc_utc := utc; pc_offset := off;
     pc_zone := zone |}.

(** Literal text: a space stands for any number of spaces. *)
Fixpoint skip (value prefix : str) {struct prefix} : option str :=
  match prefix with
  | [] => Some value
  | c :: prefix' =>
      if c =b " " then
        match value with
        | d :: _ => if d =b " " then skip (drop_while (Byte.eqb " ") value) prefix' else None
        | [] => skip value prefix'
        end
      else match value with
           | d :: value' => if d =b c then skip value' prefix' else None
           | [] => None
           end
  end.

(** Fractional seconds, which the value may have although the layout has none. *)
Definition fraction (s : str) : Z * str :=
  match s with
  | c :: ((d :: _) as t) =>
      if ((c =b ".") || (c =b ",")) && is_digit d then
        let ds := take 9 (take_while is_digit t) in
        (fst (leadingInt ds) * 10 ^ (9 - len ds), drop_while is_digit t)
      else (0, s)
  | _ => (0, s)
  end.

Definition num_tz (s : str) : option (Z * str) :=
  match s with
  | sign :: a :: b :: c :: d :: s' =>
      match getnum [a; b] true, getnum [c; d] true with
      | Some (hr, _), Some (mm, _) =>
          if (24 <? hr) || (60 <? mm) then None
          else if sign =b "+" then Some ((hr * 60 + mm) * 60, s')
          else if sign =b "-" then Some (- ((hr * 60 + mm) * 60), s')
          else None
      | _, _ => None
      end
  | _ => None
  end.

Definition parse_element (e : element) (s : str) (p : pieces) : option (str * pieces) :=
  match e with
  | Literal l => match skip s l with Some s => Some (s, p) | None => None end
  | StdWeekDay => match lookup_name shortDayNames 0 s with Some (_, s) => Some (s, p) | None => None end
  | StdDay | StdZeroDay =>
      match getnum s (match e with StdZeroDay => true | _ => false end) with
      | Some (d, s) => Some (s, set_date (pc_year p) (pc_month p) d p)
      | None => None
      end
  | StdMonth =>
      match lookup_name shortMonthNames 1 s with
      | Some (m, s) => Some (s, set_date (pc_year p) m (pc_day p) p)
      | None => None
      end
  | StdLongYear =>
      match s with
      | a :: b :: c :: d :: s' =>
          if is_digit a then
            match time_atoi [a; b; c; d] with
            | Some y => Some (s', set_date y (pc_month p) (pc_day p) p)
            | None => None
            end
          else None
      | _ => None
      end
  | StdYear =>
      match s with
      | a :: b :: s' =>
          match time_atoi [a; b] with
          | Some y => Some (s', set_date (if 69 <=? y then y + 1900 else y + 2000) (pc_month p) (pc_day p) p)
          | None => None
          end
      | _ => None
      end
  | StdHour =>
      match getnum_below 24 s false with
      | Some (h, s) => Some (s, set_clock h (pc_min p) (pc_sec p) (pc_nsec p) p)
      | None => None
      end
  | StdZeroMinute =>
      match getnum_below 60 s true with
      | Some (m, s) => Some (s, set_clock (pc_hour p) m (pc_sec p) (pc_nsec p) p)
      | None => None
      end
  | StdZeroSecond =>
      match getnum_below 60 s true with
      | Some (x, s) =>
          let '(ns, s) := fraction s in Some (s, set_clock (pc_hour p) (pc_min p) x ns p)
      | None => None
      end
  | StdNumTZ =>
      match num_tz s with
      | Some (off, s) => Some (s, set_zone (pc_utc p) (Some off) (pc_zone p) p)
      | None => None
      end
  | StdTZ =>
      if HasPrefix s $"UTC" then Some (drop 3 s, set_zone true (pc_offset p) (pc_zone p) p)
      else match parseTimeZone s with
           | O => None
           | n => Some (drop n s, set_zone (pc_utc p) (pc_offset p) (take n s) p)
           end
  end.

Fixpoint parse_elements (layout : list element) (s : str) (p : pieces) : option pieces :=
  match layout with
  | [] => match s with [] => Some p | _ => None end
  | e :: layout' =>
      match parse_element e s p with
      | Some (s, p) => parse_elements layout' s p
      | None => None
      end
  end.

Section Parse.
Context {L : Local}.

(** The time of the parsed pieces: in UTC when the zone is UTC, else with the
    numeric offset, else with the offset of the abbreviation, looked up in the
    local zone or made up. *)
Definition assemble (p : pieces) : Time :=
  let unix := days_of_civil (pc_year p) (pc_month p) (pc_day p) * 86400
              + pc_hour p * 3600 + pc_min p * 60 + pc_sec p in
  if pc_utc p then {| t_unix := unix; t_nsec := pc_nsec p; t_offset := 0 |}
  else match pc_offset p with
  | Some off => {| t_unix := unix - off; t_nsec := pc_nsec p; t_offset := off |}
  | None =>
      match lookupName (pc_zone p) unix with
      | Some off => {| t_unix := unix - off; t_nsec := pc_nsec p; t_offset := off |}
      | None =>
          let off := if HasPrefix (pc_zone p) $"GMT" && Nat.ltb 3 (length (pc_zone p))
                     then default 0 (time_atoi (drop 3 (pc_zone p))) * 3600 else 0 in
          {| t_unix := unix; t_nsec := pc_nsec p; t_offset := off |}
      end
  end.

Definition time_Parse (layout : list element) (s : str) : option Time :=
  match parse_elements layout s no_pieces with
  | Some p =>
      if (1 <=? pc_day p) && (pc_day p <=? daysIn (pc_month p) (pc_year p))
      then Some (assemble p) else None
  | None => None
  end.
End Parse.

(** ** Printing *)

Definition civil (t : Time) : Z * Z * Z := civil_of_days ((t_unix t + t_offset t) / 86400).

Definition format_offset (off : Z) : str :=
  let zone := Z.quot off 60 in
  (if zone <? 0 then "-"%byte else "+"%byte)
  :: two_digits (Z.abs zone / 60) ++ two_digits (Z.abs zone mod 60).

Definition clock (t : Time) : Z := (t_unix t + t_offset t) mod 86400.

(** [t.Format("Mon, 02 Jan 2006 15:04:05 -0700")] *)
Definition format_date (t : Time) : str :=
  let '(y, m, d) := civil t in
  let wday := ((t_unix t + t_offset t) / 86400 + 4) mod 7 in
  nth (Z.to_nat wday) shortDayNames [] ++ $", " ++ two_digits d ++ $" "
  ++ nth (Z.to_nat (m - 1)) shortMonthNames [] ++ $" " ++ format_year y ++ $" "
  ++ two_digits (clock t / 3600) ++ $":" ++ two_digits (clock t / 60 mod 60) ++ $":"
  ++ two_digits (clock t mod 60) ++ $" " ++ format_offset (t_offset t).

(** [t.Format(time.RFC822Z)], the layout "02 Jan 06 15:04 -0700". *)
Definition format_RFC822Z (t : Time) : str :=
  let '(y, m, d) := civil t in
  two_digits d ++ $" " ++ nth (Z.to_nat (m - 1)) shortMonthNames [] ++ $" "
  ++ two_digits (y mod 100) ++ $" " ++ two_digits (clock t / 3600) ++ $":"
  ++ two_digits (clock t / 60 mod 60) ++ $" " ++ format_offset (t_offset t).
