(* ===== verification/Strings.v ===== *)
(** * The string helpers of [src/strings.go]

    Quoting, white-space simplification, header-name capitalisation, line-ending
    conversion, word search and line wrapping.  A definition whose Go original
    indexes or slices a string at a computed position is in the [outcome] monad;
    one whose loop only walks the string from left to right is a structural
    recursion over the bytes. *)

From S2P Require Import Prelude GoStrings.
Open Scope Z_scope.

Definition CR : byte := x0d.
Definition LF : byte := x0a.
Definition HT : byte := x09.
Definition SP : byte := x20.
Definition DQUOTE : byte := x22.
Definition BACKSLASH : byte := x5c.
Definition SQUOTE : byte := x27.
Definition crlf : str := [CR; LF].

(** [c == 9 || c == 10 || c == 13 || c == 32] *)
Definition wsp (c : byte) : bool := (c =b HT) || (c =b LF) || (c =b CR) || (c =b SP).

Inductive BoringType := TotallyBoring | IMAPBoring | MIMEBoring.

(** ** Quoting *)

(** [s[i] == c], for an index known to be in range. *)
Definition is_at (s : str) (i : nat) (c : byte) : bool :=
  match s !! i with Some d => d =b c | None => false end.

(** [for i > 1 && str[i] == q && str[i-1] == q { i -= 2 }] *)
Fixpoint skip_double_escapes (s : str) (q : byte) (i : nat) : nat :=
  match i with
  | S (S i' as j) =>
      if is_at s i q && is_at s j q then skip_double_escapes s q i' else i
  | _ => i
  end.

Definition isQuoted (s : str) (c q : byte) : bool :=
  if (Nat.ltb (length s) 2) || negb (is_at s 0 c) || negb (is_at s (length s - 1) c)
  then false
  else
    let i := skip_double_escapes s q (length s - 2) in
    if Nat.eqb i 0 then true
    else if is_at s i q then false
    else true.

(** The loop of [unquote] on [str[i:]]: it runs while [i < len(str)-1], that is
    while two bytes are left. *)
Fixpoint unescape (q : byte) (s : str) : str :=
  match s with
  | a :: ((b :: t') as t) => if a =b q then b :: unescape q t' else a :: unescape q t
  | _ => []
  end.

Definition unquote (s : str) (c q : byte) : str :=
  if negb (isQuoted s c q) then s else unescape q (drop 1 s).

Fixpoint escape (c q : byte) (s : str) : str :=
  match s with
  | [] => []
  | a :: s' => if (a =b c) || (a =b q) then q :: a :: escape c q s' else a :: escape c q s'
  end.

Definition quote (s : str) (c q : byte) : str := c :: escape c q s ++ [c].

(** ** White space *)

(** The second loop of [simplify], from position [i]: the position of the last
    byte that is not white space, and whether every inner run of white space
    has length one. *)
Fixpoint scan_spaces (s : str) (i last spaces : Z) : Z * bool :=
  match s with
  | [] => (last, true)
  | c :: s' =>
      if wsp c then scan_spaces s' (i + 1) last (spaces + 1)
      else if 1 <? spaces then (i, false)
      else scan_spaces s' (i + 1) i 0
  end.

(** The third loop: one [rune] per byte that is not white space. *)
Fixpoint compress (s : str) (spaces : Z) (result : list Z) : list Z :=
  match s with
  | [] => result
  | c :: s' =>
      if wsp c then compress s' (spaces + 1) result
      else
        let result := if (0 <? spaces) && (0 <? len result) then result ++ [32] else result in
        compress s' 0 (result ++ [bz c])
  end.

Definition simplify (s : str) : outcome str :=
  if s ==s [] then Ret []
  else
    let first := length (take_while wsp s) in
    let '(last, identity) :=
      scan_spaces (drop (S first) s) (Z.of_nat first + 1) (Z.of_nat first) 0 in
    if identity then slice s (Z.of_nat first) (last + 1)
    else Ret (encode_runes (compress s 0 [])).

Definition trim (s : str) : str := Trim s [HT; CR; LF; SP].

Definition stripCRLF (s : str) : str :=
  let n := if HasSuffix s [CR; LF] then 2%nat
           else if HasSuffix s [LF] then 1%nat else 0%nat in
  take (length s - n) s.

(** ** Comments *)

Fixpoint strip_comments_loop (rs : list Z) (level : Z) (escape : bool) : str :=
  match rs with
  | [] => []
  | c :: rs' =>
      if escape then
        (if level =? 0 then encode_rune c else []) ++ strip_comments_loop rs' level false
      else if c =? 92 then strip_comments_loop rs' level true
      else if c =? 40 then strip_comments_loop rs' (level + 1) false
      else if c =? 41 then strip_comments_loop rs' (level - 1) false
      else (if level =? 0 then encode_rune c else []) ++ strip_comments_loop rs' level false
  end.

Definition stripcomments (s : str) : str := strip_comments_loop (runes s) 0 false.

(** ** Header names *)

Fixpoint header_case_loop (s : str) (u : bool) : str :=
  match s with
  | [] => []
  | c :: s' =>
      (if u && is_lower c then u8 (bz c - 32)
       else if negb u && is_upper c then u8 (bz c + 32)
       else c)
      :: header_case_loop s' (negb (is_alnum c))
  end.

Definition headerCase (s : str) : str :=
  let s := header_case_loop s true in
  let l := length s in
  let s := if (Nat.ltb 5 l) && (take 5 s ==s $"Mime-") then $"MIME-" ++ drop 5 s else s in
  if (Nat.ltb 3 l) && (drop (l - 3) s ==s $"-Id") then take (l - 3) s ++ $"-ID" else s.

(** ** Sections *)

Definition section (s sep : str) (n : Z) : outcome str :=
  if (sep ==s []) || (n =? 0) then Ret s
  else
    let parts := Split s sep in
    if n <=? len parts then
      if n - 1 <? 0 then Panic
      else match parts !! Z.to_nat (n - 1) with Some p => Ret p | None => Panic end
    else Ret [].

(** ** Character classes *)

Definition ascii_char (c : byte) : bool :=
  negb ((128 <=? bz c)
        || ((bz c <? 32) && negb (c =b HT) && negb (c =b LF) && negb (c =b CR))).

Definition isAscii (s : str) : bool := forallb ascii_char s.

Definition ascii (s : str) : str :=
  map (λ c, if ble " " c && (bz c <? 127) then c else "?"%byte) s.

Definition boring_char (b : BoringType) (c : byte) : bool :=
  is_upper c || is_lower c || is_digit c || one_of $"!#$&+-" c
  || ((c =b ".") && match b with MIMEBoring => true | _ => false end).

Definition isBoring (s : str) (b : BoringType) : bool :=
  if s ==s [] then false else forallb (boring_char b) s.

(** ** Line endings *)

(** The scan for a copyable prefix: the bytes passed over, what is left, and
    whether the whole string is already canonical. *)
Fixpoint crlf_scan (s : str) : str * str * bool :=
  match s with
  | [] => ([], [], true)
  | c :: s' =>
      if c =b CR then
        match s' with
        | d :: s'' =>
            if d =b LF then
              let '(pre, rest, ok) := crlf_scan s'' in (c :: d :: pre, rest, ok)
            else ([], s, false)
        | [] => ([], s, false)
        end
      else if c =b LF then ([], s, false)
      else let '(pre, rest, ok) := crlf_scan s' in (c :: pre, rest, ok)
  end.

(** The copying loop, with [lf] as the last round left it. *)
Fixpoint crlf_copy (s : str) (lf : bool) : str :=
  match s with
  | [] => if lf then [] else crlf
  | c :: s' =>
      if c =b LF then crlf ++ crlf_copy s' true
      else if c =b CR then
        match s' with
        | d :: s'' =>
            if d =b LF then crlf ++ crlf_copy s'' true
            else match s'' with
                 | e :: t =>
                     if (d =b CR) && (e =b LF) then crlf ++ crlf_copy t true
                     else crlf ++ crlf_copy s' true
                 | [] => crlf ++ crlf_copy s' true
                 end
        | [] => crlf ++ crlf_copy s' true
        end
      else c :: crlf_copy s' false
  end.

Definition toCRLF (s : str) : str :=
  let useCopy :=
    negb ((Nat.ltb (length s) 2) || negb (is_at s (length s - 1) LF)
          || negb (is_at s (length s - 2) CR)) in
  let '(pre, rest, ok) := if useCopy then crlf_scan s else ([], s, false) in
  if ok then s else pre ++ crlf_copy rest false.

(** ** Words *)

Definition not_letter (c : byte) : bool :=
  blt c "A" || (blt "Z" c && blt c "a") || blt "z" c.

Fixpoint contains_word_loop (n : nat) (s w : str) (i : Z) : outcome bool :=
  if i <? 0 then Ret false
  else match n with
  | O => OutOfFuel
  | S n' =>
      before ← (if i =? 0 then Ret true else c ← at_ s (i - 1); Ret (not_letter c));
      after ← (if i + len w =? len s then Ret true
               else c ← at_ s (i + len w); Ret (not_letter c));
      if before && after then Ret true
      else
        let offset := i + 1 in
        t ← from_ s offset;
        let i := Index t w in
        contains_word_loop n' s w (if 0 <=? i then i + offset else i)
  end.

(** [len(s) + 1] rounds are enough: each starts at a later position. *)
Definition containsWord (s w : str) : outcome bool :=
  contains_word_loop (S (length s)) s w (Index s w).

(** ** Wrapping *)

(** [for space > 0 && buf[space-1] == ' ' { space-- }] *)
Fixpoint back_spaces (buf : str) (space : nat) : nat :=
  match space with
  | S k => if is_at buf k SP then back_spaces buf k else space
  | O => O
  end.

(** [buf.Truncate(n)] *)
Definition truncate (buf : str) (n : nat) : outcome str :=
  if Nat.leb n (length buf) then Ret (take n buf) else Panic.

Section Wrap.
Variables (linelength : Z) (otherPrefix : str) (spaceAtEOL : bool).

(** The soft line break: the new buffer and the new [linestart] and [space]. *)
Definition soft_break (buf : str) (space : nat) : outcome (str * nat * nat) :=
  let space := back_spaces buf space in
  let linestart := S space in
  let linestart := (linestart + length (take_while (Byte.eqb SP) (drop linestart buf)))%nat in
  let move := if Nat.ltb linestart (length buf) then drop linestart buf else [] in
  buf ← truncate buf (if spaceAtEOL then S space else space);
  Ret (buf ++ crlf ++ otherPrefix ++ move, linestart, space).

Fixpoint wrap_loop (s buf : str) (linestart space : nat) : outcome str :=
  match s with
  | [] => Ret buf
  | c :: s' =>
      let space := if c =b SP then length buf else space in
      let linestart :=
        if c =b SP then linestart else if c =b LF then S (length buf) else linestart in
      let buf := buf ++ [c] in
      if (Z.of_nat linestart + linelength <? len buf) && (Nat.ltb linestart space) then
        '(buf, linestart, space) ← soft_break buf space;
        wrap_loop s' buf linestart space
      else wrap_loop s' buf linestart space
  end.
End Wrap.

Definition wrap (s : str) (linelength : Z) (firstPrefix otherPrefix : str)
    (spaceAtEOL : bool) : outcome str :=
  wrap_loop linelength otherPrefix spaceAtEOL s firstPrefix 0 0.
