(* ===== verification/StringsFacts.v ===== *)
(** * Properties of the string helpers *)

From S2P Require Import Prelude GoStrings Strings.
Open Scope Z_scope.

(** ** Quoting *)

Lemma unescape_escape (c q : byte) (s : str) : unescape q (escape c q s ++ [c]) = s.
Proof.
  induction s as [|a s IH]; simpl; [done|].
  destruct ((a =b c) || (a =b q)) eqn:E; simpl.
  - rewrite beq_refl. by rewrite IH.
  - breflect. destruct (escape c q s ++ [c]) as [|b t] eqn:Et.
    + by destruct (escape c q s).
    + destruct (beq_spec a q); [done|]. by rewrite IH.
Qed.

Lemma escape_app (c q : byte) (s t : str) :
  escape c q (s ++ t) = escape c q s ++ escape c q t.
Proof. induction s as [|a s IH]; simpl; [done|]. case_if; simpl; by rewrite IH. Qed.

Lemma is_at_app_r (a b : str) (i : nat) (c : byte) :
  is_at (a ++ b) (length a + i) c = is_at b i c.
Proof. unfold is_at. rewrite lookup_app_r by lia. by rewrite Nat.add_comm, Nat.add_sub. Qed.

(** Scanning back from the closing quote never stops on an escape character. *)
Lemma skip_double_escapes_quote (c q : byte) (s t : str) :
  let e := c :: escape c q s ++ t in
  let i := skip_double_escapes e q (length (escape c q s)) in
  i = O ∨ is_at e i q = false.
Proof.
  revert t. induction s as [|a s IH] using rev_ind; intros t; simpl; [by left|].
  rewrite escape_app, length_app. simpl.
  set (E := escape c q s). destruct ((a =b c) || (a =b q)) eqn:Ea; simpl.
  - rewrite (Nat.add_comm _ 2). simpl.
    replace (c :: (E ++ [q; a]) ++ t) with (c :: E ++ [q; a] ++ t) by (by rewrite <- app_assoc).
    assert (is_at (c :: E ++ [q; a] ++ t) (S (S (length E))) q = (a =b q)) as H1.
    { change (c :: E ++ [q; a] ++ t) with ((c :: E) ++ [q; a] ++ t).
      change (S (S (length E))) with (1 + length (c :: E))%nat.
      rewrite Nat.add_comm, is_at_app_r. done. }
    assert (is_at (c :: E ++ [q; a] ++ t) (S (length E)) q = true) as H2.
    { change (c :: E ++ [q; a] ++ t) with ((c :: E) ++ [q; a] ++ t).
      change (S (length E)) with (0 + length (c :: E))%nat.
      rewrite Nat.add_comm, is_at_app_r. apply beq_refl. }
    rewrite H1, H2, andb_true_r. destruct (beq_spec a q) as [->|Hq].
    + apply (IH ([q; q] ++ t)).
    + right. by rewrite H1.
  - breflect. rewrite (Nat.add_comm _ 1). simpl.
    replace (c :: (E ++ [a]) ++ t) with (c :: E ++ [a] ++ t) by (by rewrite <- app_assoc).
    assert (is_at (c :: E ++ [a] ++ t) (S (length E)) q = false) as H1.
    { change (c :: E ++ [a] ++ t) with ((c :: E) ++ [a] ++ t).
      change (S (length E)) with (0 + length (c :: E))%nat.
      rewrite Nat.add_comm, is_at_app_r. unfold is_at. simpl. by apply beq_false. }
    right. destruct (length E) eqn:El; [done|]. rewrite H1. done.
Qed.

Lemma isQuoted_quote (s : str) (c q : byte) : isQuoted (quote s c q) c q = true.
Proof.
  unfold isQuoted, quote.
  assert (length (c :: escape c q s ++ [c]) = S (S (length (escape c q s)))) as Hl.
  { simpl. rewrite length_app. simpl. lia. }
  rewrite Hl. simpl Nat.ltb. simpl is_at at 1.
  assert (is_at (c :: escape c q s ++ [c]) (S (length (escape c q s))) c = true) as Hlast.
  { change (c :: escape c q s ++ [c]) with ((c :: escape c q s) ++ [c]).
    change (S (length (escape c q s))) with (0 + length (c :: escape c q s))%nat.
    rewrite Nat.add_comm, is_at_app_r. apply beq_refl. }
  replace (S (S (length (escape c q s))) - 1)%nat with (S (length (escape c q s))) by lia.
  replace (S (S (length (escape c q s))) - 2)%nat with (length (escape c q s)) by lia.
  rewrite Hlast. unfold is_at at 1. simpl. rewrite beq_refl. simpl.
  destruct (skip_double_escapes_quote c q s [c]) as [->|H]; [done|].
  rewrite H. by case_if.
Qed.

(** C34: unquoting a quoted string gives the string back, whatever
    the quote and escape characters are (also when they are the same). *)
Theorem unquote_quote (s : str) (c q : byte) : unquote (quote s c q) c q = s.
Proof.
  unfold unquote. rewrite isQuoted_quote. simpl. apply unescape_escape.
Qed.

(** ** Header names *)

Lemma lower_lower (c : byte) : lower_byte (lower_byte c) = lower_byte c.
Proof. revert c. byte_enum. Qed.

Lemma is_alnum_lower (c : byte) : is_alnum (lower_byte c) = is_alnum c.
Proof. revert c. byte_enum. Qed.

(** The byte [headerCase] writes for [c]. *)
Definition cased (u : bool) (c : byte) : byte :=
  if u && is_lower c then u8 (bz c - 32)
  else if negb u && is_upper c then u8 (bz c + 32) else c.

Lemma cased_lower (u : bool) (c : byte) : cased u (lower_byte c) = cased u c.
Proof. destruct u; revert c; byte_enum. Qed.

Lemma lower_cased (u : bool) (c : byte) : lower_byte (cased u c) = lower_byte c.
Proof. destruct u; revert c; byte_enum. Qed.

Lemma header_case_loop_lower (s : str) (u : bool) :
  header_case_loop (map lower_byte s) u = header_case_loop s u.
Proof.
  revert u. induction s as [|c s IH]; intros u; simpl; [done|].
  fold (cased u (lower_byte c)) (cased u c).
  by rewrite cased_lower, is_alnum_lower, IH.
Qed.

Lemma lower_header_case_loop (s : str) (u : bool) :
  map lower_byte (header_case_loop s u) = map lower_byte s.
Proof.
  revert u. induction s as [|c s IH]; intros u; simpl; [done|].
  fold (cased u c). by rewrite lower_cased, IH.
Qed.

Lemma lower_headerCase (s : str) : map lower_byte (headerCase s) = map lower_byte s.
Proof.
  unfold headerCase. set (h := header_case_loop s true).
  set (h1 := if (Nat.ltb 5 (length h)) && (take 5 h ==s $"Mime-")
             then $"MIME-" ++ drop 5 h else h).
  assert (map lower_byte h1 = map lower_byte h) as H1.
  { unfold h1. case_if; [|done]. breflect.
    rewrite <- (take_drop 5 h) at 2. rewrite !map_app. by rewrite H0. }
  transitivity (map lower_byte h1); [|by rewrite H1; apply lower_header_case_loop].
  case_if; [|done]. breflect.
  rewrite <- (take_drop (length h - 3) h1) at 2. rewrite !map_app. by rewrite H0.
Qed.

(** C35: two field names get the same canonical spelling
    exactly when they are equal up to the case of their ASCII letters, and the
    canonical spelling is its own canonical spelling. *)
Theorem headerCase_canonical (a b : str) :
  (headerCase a = headerCase b ↔ map lower_byte a = map lower_byte b)
  ∧ headerCase (headerCase a) = headerCase a.
Proof.
  assert (∀ x y, map lower_byte x = map lower_byte y → headerCase x = headerCase y) as Hc.
  { intros x y H. unfold headerCase.
    by rewrite <- (header_case_loop_lower x), <- (header_case_loop_lower y), H. }
  split; [split|].
  - intros H. by rewrite <- (lower_headerCase a), <- (lower_headerCase b), H.
  - apply Hc.
  - apply Hc, lower_headerCase.
Qed.

(** ** Line endings *)

Definition no_eol (s : str) : Prop := Forall (λ c, c ≠ CR ∧ c ≠ LF) s.

Lemma no_eol_app s t : no_eol (s ++ t) ↔ no_eol s ∧ no_eol t.
Proof. apply Forall_app. Qed.

(** Every CR is followed by an LF and every LF preceded by a CR. *)
Fixpoint crlf_lines (s : str) : bool :=
  match s with
  | [] => true
  | c :: s' =>
      if c =b CR then match s' with d :: s'' => (d =b LF) && crlf_lines s'' | [] => false end
      else if c =b LF then false
      else crlf_lines s'
  end.

(** The bytes that are not line endings. *)
Definition payload (s : str) : str :=
  List.filter (λ c, negb ((c =b CR) || (c =b LF))) s.

Lemma payload_app a b : payload (a ++ b) = payload a ++ payload b.
Proof. apply List.filter_app. Qed.

(** A CR starts a line break that ends somewhere further on. *)
Lemma crlf_copy_CR (s : str) (lf : bool) :
  ∃ t, crlf_copy (CR :: s) lf = crlf ++ crlf_copy t true
       ∧ (length t ≤ length s)%nat ∧ payload t = payload s.
Proof.
  cbn [crlf_copy]. rewrite beq_refl, (proj2 (beq_false CR LF)) by done.
  destruct s as [|d s]; [by exists []|].
  destruct (beq_spec d LF) as [->|HdLF]; [exists s; simpl; eauto|].
  destruct s as [|e s]; [by exists [d]|].
  destruct ((d =b CR) && (e =b LF)) eqn:E; [|by exists (d :: e :: s)].
  breflect. subst. exists s. simpl. eauto.
Qed.

Lemma crlf_copy_spec (s : str) (lf : bool) :
  crlf_lines (crlf_copy s lf) = true
  ∧ payload (crlf_copy s lf) = payload s
  ∧ (lf = false ∨ s ≠ [] → HasSuffix (crlf_copy s lf) crlf = true).
Proof.
  revert lf. induction s as [s IH] using str_length_ind. intros lf.
  assert (∀ t, (length t < length s)%nat →
    crlf_lines (crlf ++ crlf_copy t true) = true
    ∧ payload (crlf ++ crlf_copy t true) = payload t
    ∧ HasSuffix (crlf ++ crlf_copy t true) crlf = true) as Hbreak.
  { intros t Ht. destruct (IH t Ht true) as (H1 & H2 & H3). simpl. split_and!; [done..|].
    destruct t as [|d t]; [done|].
    destruct (proj1 (HasSuffix_app _ _) (H3 ltac:(by right))) as [u ->].
    apply HasSuffix_app. by exists (CR :: LF :: u). }
  destruct s as [|c s].
  { destruct lf; split_and!; try done. intros [?|?]; done. }
  destruct (beq_spec c CR) as [->|HCR].
  { destruct (crlf_copy_CR s lf) as (t & -> & Hl & Hp).
    destruct (Hbreak t) as (? & Hp' & ?); [simpl; lia|]. by rewrite Hp', Hp. }
  cbn [crlf_copy]. rewrite (proj2 (beq_false c CR) HCR).
  destruct (beq_spec c LF) as [->|HLF].
  { destruct (Hbreak s) as (? & ? & ?); [simpl; lia|]. done. }
  destruct (IH s ltac:(simpl; lia) false) as (H1 & H2 & H3).
  simpl. rewrite (proj2 (beq_false c CR) HCR), (proj2 (beq_false c LF) HLF). simpl.
  split_and!; [done | by rewrite H2 |].
  intros _. destruct (proj1 (HasSuffix_app _ _) (H3 ltac:(by left))) as [u ->].
  apply HasSuffix_app. by exists (c :: u).
Qed.

Lemma crlf_lines_app (a b : str) :
  crlf_lines a = true → crlf_lines b = true → crlf_lines (a ++ b) = true.
Proof.
  induction a as [a IH] using str_length_ind. intros Ha Hb. revert Ha.
  destruct a as [|c a]; simpl; [done|].
  destruct (c =b CR).
  - destruct a as [|d a]; simpl; [done|].
    intros [-> Ha]%andb_true_iff. simpl. apply IH; [simpl; lia|done|done].
  - destruct (c =b LF); [done|]. intros Ha. apply IH; [simpl; lia|done|done].
Qed.

Lemma crlf_scan_spec (s : str) :
  let '(pre, rest, ok) := crlf_scan s in
  s = pre ++ rest ∧ crlf_lines pre = true ∧ (ok = true → rest = [])
  ∧ (crlf_lines s = true → ok = true).
Proof.
  induction s as [s IH] using str_length_ind.
  destruct s as [|c s]; simpl; [done|].
  destruct (beq_spec c CR) as [->|HCR]; simpl.
  - destruct s as [|d s]; [done|].
    destruct (beq_spec d LF) as [->|HLF]; simpl; [|done].
    pose proof (IH s ltac:(simpl; lia)) as H. destruct (crlf_scan s) as [[pre rest] ok].
    destruct H as (-> & H1 & H2 & H3). simpl. split_and!; done.
  - destruct (beq_spec c LF) as [->|HLF]; simpl; [done|].
    pose proof (IH s ltac:(simpl; lia)) as H. destruct (crlf_scan s) as [[pre rest] ok].
    destruct H as (Hs & H1 & H2 & H3). simpl.
    rewrite (proj2 (beq_false c CR) HCR), (proj2 (beq_false c LF) HLF).
    split_and!; [by rewrite Hs | done..].
Qed.

Lemma use_copy_suffix (s : str) :
  (Nat.ltb (length s) 2) || negb (is_at s (length s - 1) LF)
    || negb (is_at s (length s - 2) CR) = negb (HasSuffix s crlf).
Proof.
  destruct (HasSuffix s crlf) eqn:E.
  - apply HasSuffix_app in E as [t ->]. rewrite length_app. simpl.
    replace (length t + 2 - 1)%nat with (length t + 1)%nat by lia.
    replace (length t + 2 - 2)%nat with (length t + 0)%nat by lia.
    rewrite !is_at_app_r. simpl. rewrite !orb_false_r. apply Nat.ltb_ge. lia.
  - destruct (Nat.ltb_spec (length s) 2); [done|]. simpl.
    destruct (is_at s (length s - 1) LF) eqn:E1; [|done].
    destruct (is_at s (length s - 2) CR) eqn:E2; [|done]. exfalso.
    apply not_true_iff_false in E. apply E, HasSuffix_app.
    exists (take (length s - 2) s). unfold is_at in E1, E2.
    destruct (s !! (length s - 1)%nat) eqn:L1; [|done].
    destruct (s !! (length s - 2)%nat) eqn:L2; [|done]. breflect. subst.
    rewrite <- (take_drop (length s - 2) s) at 1. f_equal.
    rewrite (drop_S _ _ _ L2). replace (S (length s - 2)) with (length s - 1)%nat by lia.
    rewrite (drop_S _ _ _ L1). rewrite drop_ge by lia. done.
Qed.

Lemma toCRLF_canonical (s : str) :
  crlf_lines (toCRLF s) = true ∧ HasSuffix (toCRLF s) crlf = true
  ∧ payload (toCRLF s) = payload s
  ∧ (crlf_lines s = true → HasSuffix s crlf = true → toCRLF s = s).
Proof.
  unfold toCRLF. rewrite use_copy_suffix, negb_involutive.
  destruct (HasSuffix s crlf) eqn:Hsuf.
  - pose proof (crlf_scan_spec s) as H. destruct (crlf_scan s) as [[pre rest] ok].
    destruct H as (Hs & H1 & H2 & H3). destruct ok.
    + rewrite (H2 eq_refl), app_nil_r in Hs. subst. done.
    + destruct (crlf_copy_spec rest false) as (C1 & C2 & C3). split_and!.
      * by apply crlf_lines_app.
      * destruct (proj1 (HasSuffix_app _ _) (C3 ltac:(by left))) as [u ->].
        apply HasSuffix_app. exists (pre ++ u). by rewrite <- app_assoc.
      * by rewrite payload_app, C2, Hs, payload_app.
      * intros H. by apply H3 in H.
  - simpl. destruct (crlf_copy_spec s false) as (C1 & C2 & C3).
    split_and!; auto. done.
Qed.

(** Whether the last byte was an LF, or [lf] if there was none. *)
Fixpoint after_lf (s : str) (lf : bool) : bool :=
  match s with [] => lf | c :: s' => after_lf s' (c =b LF) end.

Lemma after_lf_snoc (s : str) (lf : bool) : after_lf (s ++ [LF]) lf = true.
Proof. revert lf. induction s as [|c s IH]; intros lf; simpl; auto. Qed.

(** The prefix that is passed over is the copy of itself. *)
Lemma crlf_scan_copy (s : str) (lf : bool) :
  let '(pre, rest, ok) := crlf_scan s in
  crlf_copy s lf = pre ++ crlf_copy rest (after_lf pre lf) ∧ (ok = false → rest ≠ []).
Proof.
  revert lf. induction s as [s IH] using str_length_ind. intros lf. destruct s as [|c s]; [done|].
  cbn [crlf_scan]. destruct (beq_spec c CR) as [->|HCR].
  - destruct s as [|d s]; [done|]. destruct (beq_spec d LF) as [->|HLF]; [|done].
    pose proof (IH s ltac:(simpl; lia) true) as H. destruct (crlf_scan s) as [[pre rest] ok].
    change (crlf_copy (CR :: LF :: s) lf) with (crlf ++ crlf_copy s true). destruct H as [-> H].
    done.
  - destruct (beq_spec c LF) as [->|HLF]; [done|].
    pose proof (IH s ltac:(simpl; lia) false) as H. destruct (crlf_scan s) as [[pre rest] ok].
    cbn [crlf_copy after_lf app]. rewrite (proj2 (beq_false c LF) HLF), (proj2 (beq_false c CR) HCR). by destruct H as [-> H].
Qed.

(** The two loops of [toCRLF] do what the second one does alone. *)
Lemma toCRLF_copy (s : str) : toCRLF s = crlf_copy s false.
Proof.
  unfold toCRLF. rewrite use_copy_suffix, negb_involutive. destruct (HasSuffix s crlf) eqn:Hsuf; [|done].
  pose proof (crlf_scan_copy s false) as H. pose proof (crlf_scan_spec s) as Hs.
  destruct (crlf_scan s) as [[pre rest] ok]. destruct Hs as (Hs & _ & Hok & _), H as [-> H]. destruct ok.
  - rewrite (Hok eq_refl), app_nil_r in *. subst pre. apply HasSuffix_app in Hsuf as [u ->].
    change crlf with ([CR] ++ [LF]). by rewrite app_assoc, after_lf_snoc, app_nil_r.
  - by destruct rest; [destruct H|].
Qed.

(** [w] is one line break before the text [t]: LF, CRLF, CR CR LF, or a CR that does
    not start one of these. *)
Definition line_break (w t : str) : Prop :=
  w = [LF] ∨ w = crlf ∨ w = CR :: crlf
  ∨ (w = [CR] ∧ HasPrefix t [LF] = false ∧ HasPrefix t crlf = false).

Lemma crlf_copy_line (a t : str) (lf : bool) :
  no_eol a → crlf_copy (a ++ t) lf = a ++ crlf_copy t (if a ==s [] then lf else false).
Proof.
  intros Ha. revert lf. induction Ha as [|c a [H1 H2] Ha IH]; intros lf; [done|]. cbn [app crlf_copy].
  rewrite (proj2 (beq_false c LF) H2), (proj2 (beq_false c CR) H1), IH. cbn. by destruct a.
Qed.

Lemma crlf_copy_break (w t : str) (lf : bool) : line_break w t → crlf_copy (w ++ t) lf = crlf ++ crlf_copy t true.
Proof.
  intros [-> | [-> | [-> | (-> & H1 & H2)]]]; [done..|]. destruct t as [|c t]; [done|].
  cbn [HasPrefix] in H1. cbn [app crlf_copy]. change (CR =b LF) with false. change (CR =b CR) with true. cbv iota.
  destruct (beq_spec c LF) as [->|Hc]; [done|]. destruct t as [|e t]; [done|]. 
  destruct ((c =b CR) && (e =b LF)) eqn:E; [|done]. breflect. by subst.
Qed.

(** Every text is a line, or starts with a line and a line break. *)
Lemma first_line (s : str) : no_eol s ∨ ∃ a w t, s = a ++ w ++ t ∧ no_eol a ∧ line_break w t.
Proof.
  induction s as [|c s IH]; [by left; constructor|]. destruct (beq_spec c LF) as [->|HLF].
  { right. exists [], [LF], s. split_and!; [done | constructor | by left]. }
  destruct (beq_spec c CR) as [->|HCR].
  - right. destruct (HasPrefix s [LF]) eqn:E1; [|destruct (HasPrefix s crlf) eqn:E2].
    + apply HasPrefix_app in E1 as [t ->]. exists [], crlf, t. split_and!; [done | constructor | by right; left].
    + apply HasPrefix_app in E2 as [t ->]. exists [], (CR :: crlf), t.
      split_and!; [done | constructor | by right; right; left].
    + exists [], [CR], s. split_and!; [done | constructor | by right; right; right].
  - destruct IH as [H | (a & w & t & -> & Ha & Hw)]; [left; by constructor|].
    right. exists (c :: a), w, t. split_and!; [done | by constructor | done].
Qed.

(** C30: [toCRLF] ends every line with CRLF and keeps the lines as they are.
    A line without line break gets one; a text that starts with a line and a line
    break, whichever it is (LF, CRLF, CR CR LF or a lone CR), becomes that line with
    CRLF, followed by what the rest becomes.  Every text has one of these two
    forms.  The result contains no other CR or LF, ends in CRLF, and is the text
    itself when that has this form already. *)
Theorem toCRLF_lines :
  (∀ a, no_eol a → toCRLF a = a ++ crlf)
  ∧ (∀ a w t, no_eol a → line_break w t →
       toCRLF (a ++ w ++ t) = a ++ crlf ++ (if t ==s [] then [] else toCRLF t))
  ∧ (∀ s, no_eol s ∨ ∃ a w t, s = a ++ w ++ t ∧ no_eol a ∧ line_break w t)
  ∧ (∀ s, crlf_lines (toCRLF s) = true ∧ HasSuffix (toCRLF s) crlf = true)
  ∧ (∀ s, crlf_lines s = true → HasSuffix s crlf = true → toCRLF s = s).
Proof.
  split_and!.
  - intros a Ha. rewrite toCRLF_copy, <- (app_nil_r a) at 1. rewrite crlf_copy_line by done. by case_if.
  - intros a w t Ha Hw. rewrite !toCRLF_copy, crlf_copy_line, crlf_copy_break by done. by destruct t.
  - apply first_line.
  - intros s. destruct (toCRLF_canonical s) as (? & ? & _). done.
  - intros s. apply (toCRLF_canonical s).
Qed.

(** ** White space *)

Definition all_wsp (s : str) : bool := forallb wsp s.

(** The maximal runs of bytes that are not white space. *)
Fixpoint words_from (cur s : str) : list str :=
  match s with
  | [] => if cur ==s [] then [] else [cur]
  | c :: s' =>
      if wsp c then (if cur ==s [] then words_from [] s' else cur :: words_from [] s')
      else words_from (cur ++ [c]) s'
  end.

Definition words (s : str) : list str := words_from [] s.

(** No two adjacent white-space bytes ([prev]: the byte before was one), and no
    white space at the end. *)
Fixpoint single_spaced (prev : bool) (s : str) : bool :=
  match s with
  | [] => negb prev
  | c :: s' => negb (prev && wsp c) && single_spaced (wsp c) s'
  end.

(** Starts and ends with a byte that is not white space, and has only single
    white-space bytes in between. *)
Definition compact (s : str) : bool := single_spaced true s.

Definition word (w : str) : Prop := w ≠ [] ∧ forallb (λ c, negb (wsp c)) w = true.

Lemma words_from_nonempty (cur s : str) : cur ≠ [] → words_from cur s ≠ [].
Proof.
  revert cur. induction s as [|c s IH]; intros cur Hcur; simpl.
  - by rewrite (proj2 (str_eqb_false _ _) Hcur).
  - case_if; [by rewrite (proj2 (str_eqb_false _ _) Hcur)|]. apply IH. by destruct cur.
Qed.

Lemma words_nil (s : str) : words s = [] → all_wsp s = true.
Proof.
  unfold words. induction s as [|c s IH]; simpl; [done|].
  destruct (wsp c); [apply IH|]. intros H. by apply words_from_nonempty in H.
Qed.

Lemma words_skip (a s : str) : all_wsp a = true → words (a ++ s) = words s.
Proof.
  unfold words, all_wsp. induction a as [|c a IH]; simpl; [done|].
  intros [-> Ha]%andb_true_iff. by apply IH.
Qed.

Lemma words_from_trail (cur s b : str) :
  all_wsp b = true → words_from cur (s ++ b) = words_from cur s.
Proof.
  intros Hb. revert cur. induction s as [|c s IH]; intros cur; simpl.
  - pose proof (words_skip b [] Hb) as Hw. rewrite app_nil_r in Hw.
    destruct b as [|c b]; [done|]. simpl in Hb. apply andb_true_iff in Hb as [Hc Hb].
    simpl. rewrite Hc.
    pose proof (words_skip b [] Hb) as Hw'. rewrite app_nil_r in Hw'.
    unfold words in Hw'. rewrite Hw'. by case_if.
  - rewrite !IH. done.
Qed.

Lemma words_from_word (cur w t : str) :
  forallb (λ c, negb (wsp c)) w = true → words_from cur (w ++ t) = words_from (cur ++ w) t.
Proof.
  revert cur. induction w as [|c w IH]; intros cur; simpl; [by rewrite app_nil_r|].
  intros [Hc Hw]%andb_true_iff. apply negb_true_iff in Hc. rewrite Hc.
  rewrite IH by done. by rewrite <- app_assoc.
Qed.

Lemma words_from_words (cur s : str) :
  forallb (λ c, negb (wsp c)) cur = true → Forall word (words_from cur s).
Proof.
  revert cur. induction s as [|c s IH]; intros cur Hcur; simpl.
  - case_if; [done|]. breflect. by repeat constructor.
  - destruct (wsp c) eqn:Hc.
    + case_if; [by apply IH|]. breflect. constructor; [done|]. by apply IH.
    + apply IH. rewrite forallb_app, Hcur. simpl. by rewrite Hc.
Qed.

Lemma single_spaced_word (w t : str) (prev : bool) :
  word w → single_spaced prev (w ++ t) = single_spaced false t.
Proof.
  intros [Hne Hw]. revert prev Hne. induction w as [|c w IH]; intros prev Hne; [done|].
  simpl in *. apply andb_true_iff in Hw as [Hc Hw]. apply negb_true_iff in Hc.
  rewrite Hc, andb_false_r. simpl. destruct w as [|d w]; [done|]. by apply IH.
Qed.

Lemma Join_cons (w : str) (ws : list str) (sep : str) :
  ws ≠ [] → Join (w :: ws) sep = w ++ sep ++ Join ws sep.
Proof. by destruct ws. Qed.

Lemma Join_length ws sep : Forall (λ w : str, w ≠ []) ws → (length ws <= length (Join ws sep))%nat.
Proof.
  induction 1 as [|w ws Hw Hws IH]; [simpl; lia|]. destruct ws as [|w' ws].
  - destruct w; [done | simpl; lia].
  - rewrite Join_cons by done. rewrite !length_app. destruct w; [done|]. cbn [length] in *. lia.
Qed.

Lemma words_Join (ws : list str) :
  Forall word ws → words (Join ws [SP]) = ws ∧ (ws ≠ [] → compact (Join ws [SP]) = true).
Proof.
  induction 1 as [|w ws Hw Hws [IHw IHc]]; [done|].
  destruct (decide (ws = [])) as [->|Hne].
  - cbn [Join]. unfold words. rewrite <- (app_nil_r w) at 1.
    rewrite words_from_word by apply Hw. simpl.
    rewrite (proj2 (str_eqb_false w [])) by apply Hw. split; [done|]. intros _.
    unfold compact. rewrite <- (app_nil_r w). by rewrite single_spaced_word.
  - rewrite Join_cons by done. unfold words. rewrite words_from_word by apply Hw. simpl.
    rewrite (proj2 (str_eqb_false w [])) by apply Hw. split; [by f_equal|]. intros _.
    unfold compact. rewrite single_spaced_word by done. simpl. by apply IHc.
Qed.

(** *** The two loops of [simplify] *)

Lemma scan_spaces_wsp (b : str) (i last sp : Z) :
  all_wsp b = true → scan_spaces b i last sp = (last, true).
Proof.
  revert i sp. induction b as [|c b IH]; intros i sp; simpl; [done|].
  intros [-> Hb]%andb_true_iff. by apply IH.
Qed.

Lemma scan_spaces_single (m b : str) (i last sp : Z) :
  0 <= sp <= 1 → m ≠ [] → single_spaced (0 <? sp) m = true → all_wsp b = true →
  scan_spaces (m ++ b) i last sp = (i + len m - 1, true).
Proof.
  intros Hsp Hne Hm Hb. revert i last sp Hsp Hne Hm.
  induction m as [|c m IH]; intros i last sp Hsp Hne Hm; [done|].
  simpl in *. apply andb_true_iff in Hm as [Hc Hm]. destruct (wsp c) eqn:Ec.
  - rewrite andb_true_r in Hc. destruct m as [|d m]; [done|].
    rewrite (IH (i + 1) last (sp + 1)); [f_equal; simpl; lia | lia | done |].
    replace (0 <? sp + 1) with true by lia. done.
  - replace (1 <? sp) with false by lia.
    destruct m as [|d m].
    + simpl. rewrite scan_spaces_wsp by done. f_equal. lia.
    + rewrite (IH (i + 1) i 0); [f_equal; simpl; lia | lia | done | done].
Qed.

Lemma scan_spaces_true (s : str) (i last sp l : Z) :
  0 <= sp → scan_spaces s i last sp = (l, true) → all_wsp s = false →
  sp <= 1 ∧ ∃ m b, s = m ++ b ∧ m ≠ [] ∧ all_wsp b = true
    ∧ single_spaced (0 <? sp) m = true.
Proof.
  revert i last sp. induction s as [|c s IH]; intros i last sp Hsp H Hall; [done|].
  simpl in *. destruct (wsp c) eqn:Ec; simpl in Hall.
  - destruct (IH (i + 1) last (sp + 1) ltac:(lia) H Hall) as (Hle & m & b & -> & Hne & Hb & Hm).
    split; [lia|]. exists (c :: m), b. split_and!; [done..|]. simpl. rewrite Ec.
    replace (0 <? sp + 1) with true in Hm by lia. replace (0 <? sp) with false by lia. done.
  - destruct (Z.ltb_spec 1 sp); [done|]. split; [lia|].
    destruct (all_wsp s) eqn:Es.
    + exists [c], s. split_and!; [done..|]. simpl. by rewrite Ec, andb_false_r.
    + destruct (IH (i + 1) i 0 ltac:(lia) H eq_refl) as (_ & m & b & -> & Hne & Hb & Hm).
      exists (c :: m), b. split_and!; [done..|]. simpl. by rewrite Ec, andb_false_r.
Qed.

(** The runes written for the words still to come, after [R]. *)
Lemma compress_inside (s : str) :
  (∀ P cur, cur ≠ [] →
     compress s 0 (P ++ map bz cur) = P ++ map bz (Join (words_from cur s) [SP]))
  ∧ (∀ R sp, R ≠ [] → 0 < sp →
     compress s sp R
     = R ++ (if bool_decide (words s = []) then [] else 32 :: map bz (Join (words s) [SP]))).
Proof.
  induction s as [|c s [IH1 IH2]]; simpl.
  - split; intros.
    + rewrite (proj2 (str_eqb_false cur [])) by done. done.
    + by rewrite app_nil_r.
  - split.
    + intros P cur Hcur. destruct (wsp c) eqn:Ec.
      * rewrite (proj2 (str_eqb_false cur [])) by done.
        rewrite IH2; [|by destruct P, cur | lia]. fold (words s).
        rewrite <- app_assoc. f_equal. case_bool_decide as Hw.
        { rewrite Hw. simpl. by rewrite app_nil_r. }
        rewrite Join_cons by done. rewrite !map_app. done.
      * rewrite <- IH1 by (by destruct cur). simpl.
        by rewrite map_app, app_assoc.
    + intros R sp HR Hsp. unfold words. simpl. destruct (wsp c) eqn:Ec.
      * rewrite IH2 by (done || lia). done.
      * replace (0 <? sp) with true by lia.
        replace (0 <? len R) with true by (destruct R; [done | simpl; lia]). simpl.
        pose proof (IH1 (R ++ [32]) [c] ltac:(done)) as H. simpl in H. rewrite H.
        rewrite bool_decide_eq_false_2 by (by apply words_from_nonempty).
        by rewrite <- app_assoc.
Qed.

Lemma compress_words (s : str) (sp : Z) :
  0 <= sp → compress s sp [] = map bz (Join (words s) [SP]).
Proof.
  revert sp. induction s as [|c s IH]; intros sp Hsp; simpl; [done|].
  unfold words. simpl. destruct (wsp c) eqn:Ec; [by apply IH; lia|].
  rewrite andb_false_r. simpl.
  pose proof (proj1 (compress_inside s) [] [c] ltac:(done)) as H. done.
Qed.

Lemma simplify_compact (a m b : str) :
  all_wsp a = true → compact m = true → all_wsp b = true → simplify (a ++ m ++ b) = Ret m.
Proof.
  intros Ha Hm Hb. unfold simplify.
  destruct m as [|c m]; [done|]. unfold compact in Hm. simpl in Hm.
  apply andb_true_iff in Hm as [Hc Hm]. apply negb_true_iff in Hc.
  rewrite (proj2 (str_eqb_false _ _)) by (by destruct a).
  assert (take_while wsp (a ++ (c :: m) ++ b) = a) as Htw.
  { apply take_while_app_stop; [|done]. by apply forallb_Forall. }
  rewrite Htw.
  assert (drop (S (length a)) (a ++ (c :: m) ++ b) = m ++ b) as ->.
  { replace (S (length a)) with (length a + 1)%nat by lia. by rewrite drop_app_add. }
  rewrite Hc in Hm.
  assert (scan_spaces (m ++ b) (len a + 1) (len a) 0 = (len a + len m, true)) as ->.
  { destruct m as [|d m]; [simpl; rewrite scan_spaces_wsp by done; f_equal; lia|].
    rewrite scan_spaces_single; [f_equal; lia | lia | done | done | done]. }
  rewrite slice_ret by (rewrite ?length_app; simpl; lia).
  f_equal. rewrite Nat2Z.id, drop_app_length.
  replace (Z.to_nat (len a + len m + 1 - len a)) with (length (c :: m)) by (simpl; lia).
  apply take_app_length.
Qed.

(** Every value [simplify] can take. *)
Lemma simplify_cases (s : str) :
  (s = [] ∧ simplify s = Ret [])
  ∨ (s ≠ [] ∧ all_wsp s = true ∧ simplify s = Panic)
  ∨ (∃ a m b, s = a ++ m ++ b ∧ all_wsp a = true ∧ compact m = true ∧ all_wsp b = true
              ∧ simplify s = Ret m)
  ∨ (all_wsp s = false ∧ simplify s = Ret (encode_runes (map bz (Join (words s) [SP])))).
Proof.
  destruct (decide (s = [])) as [->|Hne]; [by left|]. right.
  pose proof (take_drop_while wsp s) as Hsplit.
  assert (all_wsp (take_while wsp s) = true) as Ha.
  { apply forallb_Forall, take_while_all. }
  destruct (drop_while wsp s) as [|c r] eqn:Edw.
  { left. rewrite app_nil_r in Hsplit. rewrite Hsplit in Ha. split_and!; [done..|].
    unfold simplify. rewrite (proj2 (str_eqb_false _ _)) by done. rewrite Hsplit.
    rewrite drop_ge by lia. simpl. unfold slice. case_if; [lia|done]. }
  right. pose proof (drop_while_head wsp s) as Hc. rewrite Edw in Hc.
  set (a := take_while wsp s) in *.
  destruct (scan_spaces (drop (S (length a)) s) (len a + 1) (len a) 0) as [l ok] eqn:Escan.
  assert (drop (S (length a)) s = r) as Hr.
  { rewrite <- Hsplit. replace (S (length a)) with (length a + 1)%nat by lia.
    by rewrite drop_app_add. }
  destruct ok.
  - left. rewrite Hr in Escan.
    assert (∃ m b, r = m ++ b ∧ all_wsp b = true ∧ single_spaced false m = true)
      as (m & b & Hrm & Hb & Hm).
    { destruct (all_wsp r) eqn:Er; [by exists [], r|].
      destruct (scan_spaces_true r (len a + 1) (len a) 0 l ltac:(lia) Escan Er)
        as (_ & m & b & ? & ? & ? & ?). by exists m, b. }
    exists a, (c :: m), b.
    assert (compact (c :: m) = true) as Hcm by (unfold compact; simpl; by rewrite Hc).
    assert (s = a ++ (c :: m) ++ b) as Hs by (rewrite <- Hsplit, Hrm; done).
    split_and!; [done..|]. rewrite Hs. by apply simplify_compact.
  - right. split.
    { rewrite <- Hsplit. unfold all_wsp. rewrite forallb_app. simpl.
      by rewrite Hc, andb_false_r. }
    unfold simplify. rewrite (proj2 (str_eqb_false _ _)) by done. fold a.
    rewrite Escan. by rewrite compress_words.
Qed.

(** [simplify] panics exactly on the non-empty strings that
    consist of white space only; on every other string it returns. *)
Theorem simplify_panics (s : str) :
  (simplify s = Panic ↔ s ≠ [] ∧ all_wsp s = true)
  ∧ (s = [] ∨ all_wsp s = false → returns (simplify s)).
Proof.
  unfold returns.
  destruct (simplify_cases s) as [(-> & ->) | [(H1 & H2 & ->)
    | [(a & m & b & -> & Ha & Hm & Hb & ->) | (H1 & ->)]]].
  - split; [|eauto]. by split; [|intros [? ?]].
  - split; [done|]. intros [?|?]; congruence.
  - split; [|eauto]. split; [done|]. intros [_ H]. unfold all_wsp in H.
    rewrite !forallb_app in H. destruct m as [|c m]; [done|].
    unfold compact in Hm. simpl in *. destruct (wsp c); [done|]. by rewrite andb_false_r in H.
  - split; [|eauto]. split; [done|]. intros [_ H]. congruence.
Qed.

Lemma ascii_str_Join (s : str) (cur : str) :
  ascii_str cur = true → ascii_str s = true →
  ascii_str (Join (words_from cur s) [SP]) = true.
Proof.
  unfold ascii_str. revert cur. induction s as [|c s IH]; intros cur Hcur; simpl.
  - intros _. by case_if.
  - intros [Hc Hs]%andb_true_iff. case_if.
    + case_if; [by apply IH|].
      destruct (decide (words_from [] s = [])) as [->|Hne]; [done|].
      rewrite Join_cons by done. rewrite !forallb_app, Hcur, IH by done. done.
    + apply IH; [|done]. rewrite forallb_app, Hcur. simpl. by rewrite Hc.
Qed.

(** Starts and ends with a byte that is not white space. *)
Definition framed (m : str) : Prop :=
  from_option wsp true (head m) = false ∧ from_option wsp true (last m) = false.

Lemma single_spaced_last (m : str) (prev : bool) :
  m ≠ [] → single_spaced prev m = true → from_option wsp true (last m) = false.
Proof.
  revert prev. induction m as [|c m IH]; intros prev Hm H; [done|]. cbn [single_spaced] in H.
  apply andb_true_iff in H as [_ H]. destruct m as [|d m].
  - simpl in *. by destruct (wsp c).
  - rewrite last_cons_cons. by eapply IH.
Qed.

Lemma compact_framed (m : str) : compact m = true → framed m.
Proof.
  intros H. destruct m as [|c m]; [done|]. split; [|by eapply single_spaced_last].
  unfold compact in H. simpl in *. by destruct (wsp c).
Qed.

(** White space around a text can be taken off in one way only. *)
Lemma framed_prefix (a m b a' m' b' : str) :
  all_wsp a = true → all_wsp a' = true → framed m → framed m' →
  a ++ m ++ b = a' ++ m' ++ b' → m ++ b = m' ++ b'.
Proof.
  unfold all_wsp. rewrite !forallb_Forall. intros Ha Ha' [Hm _] [Hm' _] E.
  assert (a = a') as ->; [|by apply (inj (app a')) in E].
  rewrite <- (take_while_app_stop wsp a (m ++ b)), E; [|done | by destruct m].
  apply take_while_app_stop; [done | by destruct m'].
Qed.

Lemma framed_unique (a m b a' m' b' : str) :
  all_wsp a = true → all_wsp b = true → all_wsp a' = true → all_wsp b' = true → framed m → framed m' →
  a ++ m ++ b = a' ++ m' ++ b' → m = m'.
Proof.
  assert (∀ x : str, all_wsp x = true → all_wsp (reverse x) = true) as Hr.
  { intros x. unfold all_wsp. rewrite !forallb_Forall. apply Forall_reverse. }
  assert (∀ x : str, framed x → framed (reverse x)) as Hf.
  { intros x [H1 H2]. split; [by rewrite head_reverse | by rewrite last_reverse]. }
  intros Ha Hb Ha' Hb' Hm Hm' E. apply framed_prefix in E; [|done..]. apply (f_equal reverse) in E.
  rewrite !reverse_app, <- (app_nil_r (reverse m)), <- (app_nil_r (reverse m')) in E.
  apply framed_prefix in E; [|auto..]. rewrite !app_nil_r in E. by apply (inj reverse).
Qed.

(** C31: what [simplify] returns, for every string.  It takes off the white
    space at both ends.  If what is left has no two white-space bytes in a row, it is
    returned as it is, with the single tabs and line breaks it may have; otherwise
    the words are returned with a space between any two, and each byte of them is
    taken for a character and written in UTF-8, which leaves ASCII text alone and
    nothing else.  A non-empty string of white space makes it panic. *)
Theorem simplify_spec :
  simplify [] = Ret []
  ∧ (∀ s, s ≠ [] → all_wsp s = true → simplify s = Panic)
  ∧ (∀ a m b, all_wsp a = true → all_wsp b = true → framed m →
       simplify (a ++ m ++ b)
       = Ret (if compact m then m else encode_runes (map bz (Join (words m) [SP]))))
  ∧ (∀ m, ascii_str m = true → encode_runes (map bz (Join (words m) [SP])) = Join (words m) [SP]).
Proof.
  split_and!; [done | | |].
  - intros s Hs Hw. by apply simplify_panics.
  - intros a m b Ha Hb Hm. case_if; [by apply simplify_compact|].
    assert (all_wsp (a ++ m ++ b) = false) as Hnot.
    { destruct Hm as [Hm _]. destruct m as [|c m]; [done|]. cbn in Hm. unfold all_wsp. rewrite !forallb_app. cbn [forallb].
      rewrite Hm. by rewrite andb_false_r. }
    destruct (simplify_cases (a ++ m ++ b)) as [(E & _) | [(_ & H & _)
      | [(a' & m' & b' & E & Ha' & Hm' & Hb' & _) | (_ & ->)]]].
    + by rewrite E in Hnot.
    + congruence.
    + apply framed_unique in E; [congruence | done.. | by apply compact_framed].
    + rewrite words_skip by done. unfold words. by rewrite words_from_trail.
  - intros m Hm. by apply encode_runes_ascii, ascii_str_Join.
Qed.

(** A tab between words stays, and text that is not ASCII does not. *)
Lemma simplify_keeps_tab : simplify ($"a" ++ [HT] ++ $"b") = Ret ($"a" ++ [HT] ++ $"b").
Proof. reflexivity. Qed.

Lemma simplify_utf8 : simplify ([xc3; xa9] ++ $"  x") = Ret ([xc3; x83; xc2; xa9] ++ $" x").
Proof. reflexivity. Qed.

(** ** Word search *)

(** A neighbour of a word: the edge of the string, or not a letter. *)
Definition edge (o : option byte) : bool :=
  match o with Some c => not_letter c | None => true end.

(** [w] occurs in [s] at [k] as a whole word. *)
Definition word_at (s w : str) (k : nat) : bool :=
  HasPrefix (drop k s) w
  && edge (match k with O => None | S j => s !! j end)
  && edge (s !! (k + length w)%nat).

Lemma word_at_app (s w : str) (k : nat) :
  (k ≤ length s)%nat → word_at s w k = true ↔
  ∃ a b, s = a ++ w ++ b ∧ length a = k ∧ edge (last a) = true ∧ edge (head b) = true.
Proof.
  intros Hk. unfold word_at. rewrite !andb_true_iff, HasPrefix_app. split.
  - intros [[[b Hb] Hl] Hr]. exists (take k s), b.
    assert (length (take k s) = k) as Hlk by (rewrite length_take; lia).
    assert (s = take k s ++ w ++ b) as Hs by (by rewrite <- Hb, take_drop).
    split_and!; [done | done | |].
    + rewrite last_lookup, Hlk. destruct k as [|j]; [done|]. simpl.
      rewrite lookup_take_lt by lia. done.
    + rewrite Hs in Hr. rewrite lookup_app_r in Hr by lia.
      rewrite lookup_app_r in Hr by lia.
      replace (k + length w - length (take k s) - length w)%nat with O in Hr by lia.
      by destruct b.
  - intros (a & b & -> & <- & Hl & Hr). split_and!.
    + exists b. by rewrite drop_app_length.
    + destruct a as [|x a] using rev_ind; [done|]. rewrite last_snoc in Hl.
      rewrite length_app, Nat.add_comm. simpl. rewrite lookup_app_l
        by (rewrite length_app; simpl; lia).
      by rewrite lookup_app_r, Nat.sub_diag by lia.
    + rewrite lookup_app_r by lia. rewrite lookup_app_r by lia.
      replace (length a + length w - length a - length w)%nat with O by lia. by destruct b.
Qed.

(** One round of the loop at an occurrence [k]. *)
Lemma contains_word_round (s w : str) (k : nat) (n : nat) :
  w ≠ [] → HasPrefix (drop k s) w = true →
  contains_word_loop (S n) s w (Z.of_nat k)
  = if word_at s w k then Ret true
    else contains_word_loop n s w
           (let j := Index (drop (S k) s) w in if 0 <=? j then j + (Z.of_nat k + 1) else j).
Proof.
  intros Hw Hocc. cbn [contains_word_loop].
  pose proof (proj1 (HasPrefix_app _ _) Hocc) as [b Hb].
  assert (k + length w ≤ length s)%nat as Hlen.
  { assert (length (drop k s) = length (w ++ b)) as Hd by (by rewrite Hb).
    rewrite length_drop, length_app in Hd. destruct w; [done|]. simpl in *. lia. }
  assert (0 < length w)%nat by (destruct w; [done | simpl; lia]).
  replace (Z.of_nat k <? 0) with false by lia.
  assert ((if Z.of_nat k =? 0 then Ret true
           else c ← at_ s (Z.of_nat k - 1); Ret (not_letter c))
          = Ret (edge (match k with O => None | S j => s !! j end))) as ->.
  { destruct k as [|j]; [done|]. replace (Z.of_nat (S j) =? 0) with false by lia.
    destruct (at_in_range s (Z.of_nat (S j) - 1)) as (c & -> & Hc); [lia|]. simpl.
    replace (Z.to_nat (Z.of_nat (S j) - 1)) with j in Hc by lia. by rewrite Hc. }
  assert ((if Z.of_nat k + len w =? len s then Ret true
           else c ← at_ s (Z.of_nat k + len w); Ret (not_letter c))
          = Ret (edge (s !! (k + length w)%nat))) as ->.
  { destruct (Z.eqb_spec (Z.of_nat k + len w) (len s)) as [E|E].
    - rewrite lookup_ge_None_2 by lia. done.
    - destruct (at_in_range s (Z.of_nat k + len w)) as (c & -> & Hc); [lia|]. simpl.
      replace (Z.to_nat (Z.of_nat k + len w)) with (k + length w)%nat in Hc by lia.
      by rewrite Hc. }
  simpl. unfold word_at. rewrite Hocc. simpl.
  destruct (edge _ && edge _); [done|].
  unfold from_. rewrite slice_ret by lia. simpl.
  replace (Z.to_nat (Z.of_nat k + 1)) with (S k) by lia.
  rewrite take_ge; [done|]. rewrite length_drop. lia.
Qed.

Lemma contains_word_loop_spec (s w : str) (n start : nat) :
  w ≠ [] → (start ≤ length s)%nat → (length s - start < n)%nat →
  ∃ r, contains_word_loop n s w
         (let j := Index (drop start s) w in if 0 <=? j then j + Z.of_nat start else j) = Ret r
       ∧ (r = true ↔ ∃ k, (start ≤ k ≤ length s)%nat ∧ word_at s w k = true).
Proof.
  intros Hw. revert start. induction n as [|n IH]; intros start Hs Hn; [lia|]. cbv zeta.
  destruct (Z.leb_spec 0 (Index (drop start s) w)) as [Hi|Hi].
  - destruct (Index_found _ _ _ eq_refl Hi) as (a & b & Hd & Hia & Hno).
    rewrite Hia. replace (len a + Z.of_nat start) with (Z.of_nat (start + length a)) by lia.
    set (k := (start + length a)%nat).
    assert (drop k s = w ++ b) as Hk.
    { unfold k. rewrite <- drop_drop, Hd, drop_app_length. done. }
    assert (0 < length w)%nat by (destruct w; [done | simpl; lia]).
    assert (k < length s)%nat as Hks.
    { assert (length (drop k s) = length (w ++ b)) as Hl by (by rewrite Hk).
      rewrite length_drop, length_app in Hl. lia. }
    rewrite contains_word_round; [|done | rewrite Hk; apply HasPrefix_refl].
    destruct (word_at s w k) eqn:Ewk.
    + exists true. split; [done|]. split; [|done]. intros _. exists k. split; [lia|done].
    + destruct (IH (S k)) as (r & Hr & Hspec); [lia | lia |].
      replace (Z.of_nat (S k)) with (Z.of_nat k + 1) in Hr by lia.
      exists r. split; [exact Hr|]. rewrite Hspec. split.
      * intros (j & Hj & Hwj). exists j. split; [lia|done].
      * intros (j & Hj & Hwj). exists j. split; [|done]. split; [|lia].
        destruct (decide (S k ≤ j)%nat) as [|Hlt]; [done|]. exfalso.
        destruct (decide (j = k)) as [->|Hne]; [congruence|].
        assert (HasPrefix (drop j s) w = false) as Hf.
        { specialize (Hno (j - start)%nat). rewrite drop_drop in Hno.
          replace (start + (j - start))%nat with j in Hno by lia. apply Hno. lia. }
        unfold word_at in Hwj. by rewrite Hf in Hwj.
  - exists false. split.
    + cbn [contains_word_loop]. by replace (Index (drop start s) w <? 0) with true by lia.
    + split; [done|]. intros (k & Hk & Hwk). exfalso.
      pose proof (Index_none (drop start s) w (k - start) Hi) as Hf.
      rewrite drop_drop in Hf. replace (start + (k - start))%nat with k in Hf by lia.
      unfold word_at in Hwk. by rewrite Hf in Hwk.
Qed.

(** C32: for a non-empty word, [containsWord] returns, and it
    answers yes exactly when the string has an occurrence of the word with no
    letter right before and right after it. *)
Theorem containsWord_spec (s w : str) (Hw : w ≠ []) :
  ∃ r, containsWord s w = Ret r ∧
    (r = true ↔ ∃ a b, s = a ++ w ++ b ∧ edge (last a) = true ∧ edge (head b) = true).
Proof.
  destruct (contains_word_loop_spec s w (S (length s)) 0 Hw) as (r & Hr & Hspec); [lia..|].
  exists r. split.
  - unfold containsWord. rewrite drop_0 in Hr. rewrite <- Hr. f_equal.
    pose proof (Index_range s w). cbv zeta. case_if; lia.
  - rewrite Hspec. split.
    + intros (k & Hk & H). apply word_at_app in H as (a & b & ? & _ & ? & ?); [|lia].
      by exists a, b.
    + intros (a & b & -> & Ha & Hb). exists (length a). rewrite !length_app.
      split; [lia|]. apply word_at_app; [rewrite !length_app; lia|]. by exists a, b.
Qed.

Lemma containsWord_spec_witness :
  containsWord $"the cats, the cat" $"cat" = Ret true ∧ containsWord $"the cats" $"cat" = Ret false
  ∧ ∃ r, containsWord $"the cats, the cat" $"cat" = Ret r ∧
    (r = true ↔ ∃ a b, $"the cats, the cat" = a ++ $"cat" ++ b
                       ∧ edge (last a) = true ∧ edge (head b) = true).
Proof. split_and!; [reflexivity.. | apply containsWord_spec; discriminate]. Defined.

(** ** Wrapping *)

(** The bytes that are not white space, in order. *)
Definition visible (s : str) : str := List.filter (λ c, negb (wsp c)) s.

Lemma visible_app a b : visible (a ++ b) = visible a ++ visible b.
Proof. apply List.filter_app. Qed.

Lemma visible_wsp (s : str) : all_wsp s = true → visible s = [].
Proof.
  unfold visible, all_wsp. induction s as [|c s IH]; simpl; [done|].
  intros [-> Hs]%andb_true_iff. simpl. auto.
Qed.

Lemma is_at_lookup (s : str) (i : nat) (c : byte) : is_at s i c = true ↔ s !! i = Some c.
Proof.
  unfold is_at. destruct (s !! i) as [d|]; [|naive_solver].
  rewrite beq_true. naive_solver.
Qed.

Lemma back_spaces_spec (buf : str) (space : nat) :
  buf !! space = Some SP →
  (back_spaces buf space ≤ space)%nat ∧ buf !! back_spaces buf space = Some SP.
Proof.
  induction space as [|k IH]; simpl; [done|]. intros H.
  destruct (is_at buf k SP) eqn:E; [|done].
  apply is_at_lookup in E. destruct (IH E). split; [lia|done].
Qed.

Lemma soft_break_spec (otherPrefix buf : str) (eol : bool) (space : nat) :
  buf !! space = Some SP → visible otherPrefix = [] →
  ∃ buf' ls sp, soft_break otherPrefix eol buf space = Ret (buf', ls, sp)
    ∧ (sp < ls)%nat ∧ (sp ≤ length buf')%nat ∧ visible buf' = visible buf.
Proof.
  intros Hsp Hop. destruct (back_spaces_spec buf space Hsp) as [Hle Hb].
  unfold soft_break. set (k := back_spaces buf space) in *.
  set (run := take_while (Byte.eqb SP) (drop (S k) buf)).
  pose proof (lookup_lt_Some _ _ _ Hb) as Hlt.
  assert (truncate buf (if eol then S k else k) = Ret (take (if eol then S k else k) buf)) as ->.
  { unfold truncate. destruct (Nat.leb_spec (if eol then S k else k) (length buf)); [done|].
    destruct eol; lia. }
  cbn [mbind outcome_bind]. eexists _, _, _. split; [done|]. split; [lia|]. split.
  { rewrite !length_app, length_take. destruct eol; lia. }
  assert (visible (take (if eol then S k else k) buf) = visible (take k buf)) as Hv.
  { destruct eol; [|done]. rewrite (take_S_r _ _ _ Hb), visible_app. simpl.
    by rewrite app_nil_r. }
  assert (visible run = []) as Hrun.
  { apply visible_wsp. apply forallb_Forall.
    eapply Forall_impl; [apply take_while_all|]. by intros c <-%beq_true. }
  assert (drop (S k) buf = run ++ drop (S k + length run) buf) as Hd.
  { rewrite <- drop_drop. unfold run. rewrite <- drop_while_drop.
    by rewrite take_drop_while. }
  assert ((if Nat.ltb (S k + length run) (length buf)
           then drop (S k + length run) buf else []) = drop (S k + length run) buf) as ->.
  { destruct (Nat.ltb_spec (S k + length run) (length buf)); [done|].
    by rewrite drop_ge by lia. }
  rewrite <- (take_drop k buf) at 3. rewrite (drop_S _ _ _ Hb), Hd.
  change (SP :: run ++ drop (S k + length run) buf)
    with ([SP] ++ run ++ drop (S k + length run) buf).
  by rewrite !visible_app, Hv, Hop, Hrun.
Qed.

Lemma wrap_loop_spec (n : Z) (otherPrefix : str) (eol : bool) (s buf : str) (ls sp : nat) :
  visible otherPrefix = [] → (sp ≤ length buf)%nat →
  ((ls < sp)%nat → buf !! sp = Some SP) →
  ∃ r, wrap_loop n otherPrefix eol s buf ls sp = Ret r
       ∧ visible r = visible buf ++ visible s.
Proof.
  intros Hop. revert buf ls sp. induction s as [|c s IH]; intros buf ls sp Hsp Hls.
  { exists buf. split; [done|]. by rewrite app_nil_r. }
  cbn [wrap_loop]. set (sp' := if c =b SP then length buf else sp).
  set (ls' := if c =b SP then ls else if c =b LF then S (length buf) else ls).
  assert (visible (buf ++ [c]) ++ visible s = visible buf ++ visible (c :: s)) as Hvis.
  { rewrite visible_app, <- app_assoc. f_equal. by rewrite <- visible_app. }
  assert ((sp' ≤ length buf)%nat ∧ ((ls' < sp')%nat → (buf ++ [c]) !! sp' = Some SP))
    as [Hsp' Hls'].
  { unfold sp', ls'. destruct (beq_spec c SP) as [->|].
    - split; [done|]. intros _. by rewrite lookup_app_r, Nat.sub_diag by lia.
    - split; [done|]. destruct (c =b LF); intros H; [lia|].
      apply lookup_app_l_Some. auto. }
  assert (length (buf ++ [c]) = S (length buf)) as Hlen by (rewrite length_app; simpl; lia).
  destruct ((Z.of_nat ls' + n <? len (buf ++ [c])) && Nat.ltb ls' sp') eqn:Ebr.
  - apply andb_true_iff in Ebr as [_ Hlt%Nat.ltb_lt].
    destruct (soft_break_spec otherPrefix (buf ++ [c]) eol sp' (Hls' Hlt) Hop)
      as (buf' & ls2 & sp2 & -> & H1 & H2 & H3). simpl.
    destruct (IH buf' ls2 sp2) as (r & Hr & Hv); [done | lia |].
    exists r. split; [done|]. by rewrite Hv, H3, Hvis.
  - destruct (IH (buf ++ [c]) ls' sp') as (r & Hr & Hv); [lia | done |].
    exists r. split; [done|]. by rewrite Hv, Hvis.
Qed.

(** Wrapping never panics, and when the prefix of
    the further lines is white space, only white space is changed. *)
Theorem wrap_preserves (s : str) (n : Z) (firstPrefix otherPrefix : str) (eol : bool)
    (Hop : all_wsp otherPrefix = true) :
  ∃ r, wrap s n firstPrefix otherPrefix eol = Ret r
       ∧ visible r = visible firstPrefix ++ visible s.
Proof. apply wrap_loop_spec; [by apply visible_wsp | lia | lia]. Qed.

Lemma wrap_preserves_witness :
  ∃ r, wrap $"To: alice, bob, carol" 10 [] $"  " false = Ret r
       ∧ visible r = visible [] ++ visible $"To: alice, bob, carol".
Proof. apply wrap_preserves. reflexivity. Defined.

(** *** The lines *)

(** No space at the start ([prev]: the byte before was one) and no two in a row. *)
Fixpoint single_spaces (prev : bool) (s : str) : bool :=
  match s with
  | [] => true
  | c :: s' => negb (prev && (c =b SP)) && single_spaces (c =b SP) s'
  end.

Lemma single_spaces_at (u w : str) (prev : bool) :
  single_spaces prev (u ++ SP :: w) = true →
  from_option (Byte.eqb SP) prev (last u) = false ∧ single_spaces true w = true.
Proof.
  revert prev. induction u as [|c u IH]; intros prev H.
  - cbn [app single_spaces] in H. rewrite beq_refl, andb_true_r in H. apply andb_true_iff in H as [H%negb_true_iff ?].
    by split.
  - cbn [app single_spaces] in H. apply andb_true_iff in H as [_ H]. apply IH in H as [H ?]. split; [|done].
    rewrite last_cons. destruct (last u); [done|]. cbn [from_option] in *. apply beq_false. intros <-. by rewrite beq_refl in H.
Qed.

Lemma back_spaces_stop (b : str) (t : str) (k : nat) :
  k = length b → from_option (Byte.eqb SP) false (last b) = false → back_spaces (b ++ t) k = k.
Proof.
  intros -> Hb. destruct b as [|c b _] using rev_ind; [done|]. rewrite last_snoc in Hb. cbn [from_option] in Hb.
  rewrite length_app, Nat.add_1_r. cbn [back_spaces]. replace (is_at _ _ _) with false; [done|].
  unfold is_at. rewrite <- app_assoc, lookup_app_r, Nat.sub_diag by lia. cbn [lookup list_lookup app]. symmetry. apply beq_false.
  intros ->. by rewrite beq_refl in Hb.
Qed.

Section Lines.
Context (n : Z) (op : str) (eol : bool).

Definition line_end : str := (if eol then [SP] else []) ++ crlf.

(** A line fits, or it has no space where it could be broken. *)
Definition fits (pre t : str) : Prop := len (pre ++ t) <= n ∨ (SP ∉ t).

(** A soft break at the space between [b] and [v]. *)
Lemma soft_break_at (b v : str) :
  from_option (Byte.eqb SP) false (last b) = false → SP ∉ v →
  soft_break op eol (b ++ SP :: v) (length b) = Ret (b ++ line_end ++ op ++ v, S (length b), length b).
Proof.
  intros Hb Hv. unfold soft_break. rewrite back_spaces_stop by done.
  assert (drop (S (length b)) (b ++ SP :: v) = v) as Hd
    by (rewrite <- Nat.add_1_r, <- drop_drop, drop_app_length; done).
  rewrite Hd. replace (take_while (Byte.eqb SP) v) with ([] : str).
  2:{ destruct v as [|c v]; [done|]. cbn [take_while]. destruct (beq_spec SP c) as [<-|]; [|done].
      destruct Hv. by left. }
  cbn [length]. rewrite Nat.add_0_r, Hd.
  replace (if Nat.ltb _ _ then v else []) with v.
  2:{ case_if; [done|]. apply Nat.ltb_ge in Heqb0. rewrite length_app in Heqb0. simpl in Heqb0. destruct v; [done | simpl in *; lia]. }
  unfold truncate, line_end. rewrite length_app. destruct eol.
  - replace (Nat.leb _ _) with true by (symmetry; apply Nat.leb_le; simpl; lia). cbn [mbind outcome_bind].
    replace (b ++ SP :: v) with ((b ++ [SP]) ++ v) by by rewrite <- app_assoc.
    rewrite take_app_length' by (rewrite length_app; simpl; lia). by rewrite <- app_assoc.
  - replace (Nat.leb _ _) with true by (symmetry; apply Nat.leb_le; simpl; lia). cbn [mbind outcome_bind].
    by rewrite take_app_length.
Qed.

Lemma no_space_snoc (v : str) (c : byte) : SP ∉ v → c ≠ SP → SP ∉ v ++ [c].
Proof. intros Hv Hc [?|<-%list_elem_of_singleton]%elem_of_app; done. Qed.

(** The outcome [r] is the text [rest] after the lines [P] and the prefix [pre], cut
    at spaces into lines that fit. *)
Definition wrapped (P pre rest : str) (r : outcome str) : Prop :=
  ∃ t ts, r = Ret (P ++ pre ++ Join (t :: ts) (line_end ++ op)) ∧ rest = Join (t :: ts) [SP]
    ∧ fits pre t ∧ Forall (fits op) ts.

Lemma wrapped_break P pre u rest r :
  fits pre u → wrapped (P ++ pre ++ u ++ line_end) op rest r → wrapped P pre (u ++ SP :: rest) r.
Proof.
  intros Hu (t & ts & -> & -> & Ht & Hts). exists u, (t :: ts). rewrite !(Join_cons u (t :: ts)) by done. split_and!; [|done | done|].
  - by rewrite <- !app_assoc.
  - by constructor.
Qed.

(** The loop, with [P] the lines that are done, and [pre] and [t] the prefix and the
    text of the current line. *)
Lemma wrap_loop_lines (s : str) : ∀ P pre t ls sp,
  (ls <= length P)%nat → single_spaces true (t ++ s) = true → LF ∉ s →
  ((SP ∉ t) ∧ (sp <= ls)%nat
   ∨ ∃ u v, t = u ++ SP :: v ∧ (SP ∉ v) ∧ sp = length (P ++ pre ++ u) ∧ len (P ++ pre ++ t) <= Z.of_nat ls + n) →
  wrapped P pre (t ++ s) (wrap_loop n op eol s (P ++ pre ++ t) ls sp).
Proof.
  induction s as [|c s IH]; intros P pre t ls sp Hls Hss Hlf Hsp;
    assert (fits pre t) as Hfit by (destruct Hsp as [[? _] | (u & v & -> & _ & _ & Hb)];
      [by right | left; rewrite !length_app in *; lia]).
  { exists t, []. cbn [Join wrap_loop]. rewrite app_nil_r. by repeat split. }
  apply not_elem_of_cons in Hlf as [Hc Hlf].
  assert (∀ u v, fits pre u → SP ∉ v → single_spaces true (v ++ s) = true →
    wrapped P pre (u ++ SP :: v ++ s) (wrap_loop n op eol s (P ++ pre ++ u ++ line_end ++ op ++ v)
      (S (length (P ++ pre ++ u))) (length (P ++ pre ++ u)))) as Hbreak.
  { intros u v Hu Hv Hvs. apply wrapped_break; [done|]. specialize (IH (P ++ pre ++ u ++ line_end) op v).
    rewrite <- !app_assoc in IH. apply IH; [unfold line_end; rewrite !length_app; simpl; lia | done | done|].
    left. split; [done | lia]. }
  assert (∀ u w, t ++ c :: s = u ++ SP :: w → length u ≠ 0%nat ∧ single_spaces true w = true
    ∧ from_option (Byte.eqb SP) false (last (P ++ pre ++ u)) = false) as Hspace.
  { intros u w E. rewrite E in Hss. destruct (single_spaces_at u w true Hss) as [Hu Hw].
    rewrite (app_assoc P), last_app. split_and!; [by destruct u | done | by destruct (last u)]. }
  cbn [wrap_loop]. rewrite <- !app_assoc. destruct (beq_spec c SP) as [->|Hne].
  - destruct (Hspace t s eq_refl) as (Ht & Hs & Hl). case_if.
    + replace (P ++ pre ++ t ++ [SP]) with ((P ++ pre ++ t) ++ SP :: []) by by rewrite <- !app_assoc.
      rewrite soft_break_at by (done || apply not_elem_of_nil). cbn [mbind outcome_bind]. rewrite <- !app_assoc.
      by apply (Hbreak t []); [|apply not_elem_of_nil|].
    + specialize (IH P pre (t ++ [SP])). rewrite <- !app_assoc in IH. apply IH; [done.. | right; exists t, []].
      apply andb_false_iff in Heqb as [Heqb|Heqb]; [|apply Nat.ltb_ge in Heqb; rewrite !length_app in Heqb; lia].
      split_and!; [done | apply not_elem_of_nil | done | by apply Z.ltb_ge in Heqb].
  - rewrite (proj2 (beq_false c LF)) by done. case_if.
    + apply andb_true_iff in Heqb as [_ Hlt%Nat.ltb_lt].
      destruct Hsp as [[_ ?] | (u & v & -> & Hv & -> & Hb)]; [lia|].
      destruct (Hspace u (v ++ c :: s)) as (Hu & Hs & Hl); [by rewrite <- app_assoc|].
      replace (P ++ pre ++ (u ++ SP :: v) ++ [c]) with ((P ++ pre ++ u) ++ SP :: (v ++ [c])) by by rewrite <- !app_assoc.
      rewrite soft_break_at by (done || by apply no_space_snoc). cbn [mbind outcome_bind]. rewrite <- !app_assoc.
      specialize (Hbreak u (v ++ [c])). rewrite <- !app_assoc in Hbreak. apply Hbreak; [|by apply no_space_snoc | done].
      left. rewrite !length_app in *. simpl in *. lia.
    + specialize (IH P pre (t ++ [c]) ls sp). rewrite <- !app_assoc in IH. apply IH; [done.. |].
      destruct Hsp as [[Hsp Hle] | (u & v & -> & Hv & -> & Hb)]; [left; split; [by apply no_space_snoc|done]|right].
      destruct (Hspace u (v ++ c :: s)) as (Hu & _ & _); [by rewrite <- app_assoc|].
      exists u, (v ++ [c]). rewrite <- !app_assoc in *.
      apply andb_false_iff in Heqb as [Heqb|Heqb]; [|apply Nat.ltb_ge in Heqb; rewrite !length_app in Heqb; lia].
      split_and!; [done | by apply no_space_snoc | done | by apply Z.ltb_ge in Heqb].
Qed.

(** Text that fits is not broken. *)
Lemma wrap_loop_short (s buf : str) (sp : nat) :
  LF ∉ s → len (buf ++ s) <= n → wrap_loop n op eol s buf 0 sp = Ret (buf ++ s).
Proof.
  revert buf sp. induction s as [|c s IH]; intros buf sp Hlf Hn; [by rewrite app_nil_r|].
  apply not_elem_of_cons in Hlf as [Hc Hlf]. cbn [wrap_loop]. rewrite (proj2 (beq_false c LF)) by done.
  replace (if c =b SP then 0%nat else 0%nat) with 0%nat by by case_if.
  replace (Z.of_nat 0 + n <? len (buf ++ [c])) with false by (rewrite !length_app in *; simpl in *; lia). cbn [andb].
  rewrite IH; [by rewrite <- app_assoc | done | by rewrite <- app_assoc].
Qed.
End Lines.



(** Spaces that are taken out where a line is broken let the next line get longer. *)
Lemma wrap_too_long :
  wrap $"aaa     bbbbb ccccc d ee" 10 [] [] false = Ret ($"aaa" ++ crlf ++ $"bbbbb ccccc d" ++ crlf ++ $"ee").
Proof. reflexivity. Qed.

(** ** Sections *)

Lemma Index_byte_absent (w : str) (c : byte) :
  c ∉ w → Index w [c] < 0.
Proof.
  intros Hw. destruct (decide (Index w [c] < 0)) as [|Hn]; [done|]. exfalso.
  destruct (Index_found w [c] _ eq_refl ltac:(lia)) as (a & b & -> & _ & _).
  apply Hw. set_solver.
Qed.

Lemma Index_byte_first (w t : str) (c : byte) :
  c ∉ w → Index (w ++ c :: t) [c] = len w.
Proof.
  intros Hw. unfold Index. induction w as [|d w IH]; simpl.
  - by rewrite beq_refl.
  - destruct (beq_spec c d) as [->|]; [set_solver|]. simpl.
    rewrite index_from_shift by lia. rewrite IH by set_solver.
    case_if; lia.
Qed.

Lemma split_fuel_Join (ws : list str) (c : byte) (n : nat) :
  ws ≠ [] → Forall (λ w, c ∉ w) ws → (length (Join ws [c]) ≤ n)%nat →
  split_fuel n (Join ws [c]) [c] = ws.
Proof.
  intros Hne Hws. revert n Hne. induction Hws as [|w ws Hw Hws IH]; intros n Hne Hn; [done|].
  destruct (decide (ws = [])) as [->|Hne'].
  - simpl Join in *. pose proof (Index_byte_absent w c Hw).
    destruct n; simpl; [done|]. case_if; [done | lia].
  - rewrite Join_cons in * by done. rewrite !length_app in Hn. simpl in Hn.
    destruct n as [|n]; [lia|]. cbn [split_fuel].
    change ([c] ++ Join ws [c]) with (c :: Join ws [c]).
    rewrite Index_byte_first by done. case_if; [lia|].
    rewrite Nat2Z.id, take_app_length. f_equal.
    rewrite drop_app_add. simpl. apply IH; [done | lia].
Qed.

(** Section [n] of fields joined by a separator byte that none
    of them contains is field [n], counted from one, and the empty string after
    the last field. *)
Theorem section_Join (ws : list str) (c : byte) (n : nat)
    (Hne : ws ≠ []) (Hws : Forall (λ w, c ∉ w) ws) :
  section (Join ws [c]) [c] (Z.of_nat (S n)) = Ret (default [] (ws !! n)).
Proof.
  unfold section. replace (([c] ==s []) || (Z.of_nat (S n) =? 0)) with false
    by (unfold str_eqb; simpl; lia).
  unfold Split. rewrite split_fuel_Join by done.
  replace (Z.of_nat (S n) - 1 <? 0) with false by lia.
  replace (Z.to_nat (Z.of_nat (S n) - 1)) with n by lia.
  destruct (Z.leb_spec (Z.of_nat (S n)) (len ws)).
  - destruct (lookup_lt_is_Some_2 ws n) as [p Hp]; [lia|]. by rewrite Hp.
  - by rewrite lookup_ge_None_2 by lia.
Qed.

Lemma section_Join_witness :
  section (Join [$"a"; $"b"; $"c"] $";") $";" 2 = Ret $"b".
Proof.
  apply (section_Join [$"a"; $"b"; $"c"] ";"%byte 1); [discriminate|].
  repeat constructor; apply (bool_decide_unpack _); vm_compute; exact I.
Defined.
