(* ===== verification/Codec.v ===== *)
(** * The content-transfer encodings of [src/strings.go]

    Base 64 ([e64], [de64]), quoted-printable ([eQP], [deQP], [needsQP]) and
    uudecode ([deUue]), with the dispatchers [encodeCTE] and [decodeCTE].
    [uint8] arithmetic is written on [Z] and wrapped by [u8].  A position in
    the input is represented by the bytes from there on; the output buffer of
    [eQP] keeps the capacity the code allocates, and a write past it panics. *)

From S2P Require Import Prelude GoStrings Strings.
Open Scope Z_scope.

Inductive EncodingType := QPEncoding | Base64Encoding | UuencodeEncoding | BinaryEncoding.

#[global] Instance EncodingType_eq_dec : EqDecision EncodingType.
Proof. solve_decision. Defined.

(** ** Base 64 *)

Definition from64 : list Z := [
  64; 99; 99; 99; 99; 99; 99; 99;
  65; 99; 65; 99; 99; 65; 99; 99;
  99; 99; 99; 99; 99; 99; 99; 99;
  99; 99; 99; 99; 99; 99; 99; 99;
  (* 32 *)
  99; 99; 99; 99; 99; 99; 99; 99;
  99; 99; 99; 62; 99; 99; 99; 63;
  52; 53; 54; 55; 56; 57; 58; 59;
  60; 61; 99; 99; 99; 64; 99; 99;
  (* 64 *)
  99; 0; 1; 2; 3; 4; 5; 6;
  7; 8; 9; 10; 11; 12; 13; 14;
  15; 16; 17; 18; 19; 20; 21; 22;
  23; 24; 25; 99; 99; 99; 99; 99;
  (* 96 *)
  99; 26; 27; 28; 29; 30; 31; 32;
  33; 34; 35; 36; 37; 38; 39; 40;
  41; 42; 43; 44; 45; 46; 47; 48;
  49; 50; 51; 99; 99; 99; 99; 99].

(** [if c <= 'z' { c = from64[c] }]; the index is below the table's 128. *)
Definition class64 (c : byte) : Z :=
  if ble c "z" then nth (Z.to_nat (bz c)) from64 0 else bz c.

Fixpoint de64_loop (s : str) (decoded : byte) (m : Z) : str :=
  match s with
  | [] => []
  | p :: s' =>
      let c := class64 p in
      if c <? 64 then
        let m' := Z.land (m + 1) 3 in
        if m =? 0 then de64_loop s' (u8 (Z.shiftl c 2)) m'
        else if m =? 1 then
          u8 (bz decoded + Z.shiftr (Z.land c 240) 4)
          :: de64_loop s' (u8 (Z.shiftl (Z.land c 15) 4)) m'
        else if m =? 2 then
          u8 (bz decoded + Z.shiftr (Z.land c 252) 2)
          :: de64_loop s' (u8 (Z.shiftl (Z.land c 3) 6)) m'
        else
          u8 (bz decoded + c) :: de64_loop s' (u8 (bz decoded + c)) m'
      else if c =? 64 then []
      else de64_loop s' decoded m
  end.

Definition de64 (s : str) : str := de64_loop s x00 0.

Definition to64 : str :=
  $"ABCDEFGHIJKLMNOPQRSTUVWXYZabcdefghijklmnopqrstuvwxyz0123456789+/".

(** [to64[i]] for an index below 64. *)
Definition to64_at (i : Z) : byte := nth (Z.to_nat i) to64 x00.

(** [c << n] on [uint8]. *)
Definition shl8 (c : byte) (n : Z) : Z := bz (u8 (Z.shiftl (bz c) n)).
Definition shr8 (c : byte) (n : Z) : Z := Z.shiftr (bz c) n.

Definition sextet0 (a : byte) : Z := Z.land (shr8 a 2) 63.
Definition sextet1 (a b : byte) : Z := Z.land (shl8 a 4) 48 + Z.land (shr8 b 4) 15.
Definition sextet2 (b c : byte) : Z := Z.land (shl8 b 2) 60 + Z.land (shr8 c 6) 3.
Definition sextet3 (c : byte) : Z := Z.land (bz c) 63.

Fixpoint e64_loop (s : str) (lineLength c : Z) : str :=
  match s with
  | a :: b :: d :: s' =>
      [to64_at (sextet0 a); to64_at (sextet1 a b);
       to64_at (sextet2 b d); to64_at (sextet3 d)]
      ++ (let c := c + 4 in
          if (0 <? lineLength) && (lineLength <=? c)
          then crlf ++ e64_loop s' lineLength 0
          else e64_loop s' lineLength c)
  | [] => if (0 <? lineLength) && (0 <? c) then crlf else []
  | [a] =>
      [to64_at (sextet0 a); to64_at (sextet1 a x00); "="%byte; "="%byte]
      ++ (if (0 <? lineLength) && (0 <? c) then crlf else [])
  | [a; b] =>
      [to64_at (sextet0 a); to64_at (sextet1 a b); to64_at (sextet2 b x00); "="%byte]
      ++ (if (0 <? lineLength) && (0 <? c) then crlf else [])
  end.

Definition e64 (s : str) (lineLength : Z) : str := e64_loop s lineLength 0.

(** ** Quoted-printable *)

(** A soft line break at [s[j:]]: what follows it. *)
Definition soft_eol (s : str) : option str :=
  match s with
  | a :: t =>
      if a =b LF then Some t
      else match t with
           | b :: t' => if (a =b CR) && (b =b LF) then Some t' else None
           | [] => None
           end
  | [] => None
  end.

(** Each round passes over at least one byte, so [length s] rounds are enough. *)
Fixpoint deQP_fuel (n : nat) (s : str) (underscore : bool) : str :=
  match n, s with
  | S n', c :: s' =>
      if negb (c =b "=") then
        (if underscore && (c =b "_") then SP else c) :: deQP_fuel n' s' underscore
      else
        match soft_eol (drop_while (λ x, (x =b SP) || (x =b HT)) s') with
        | Some t => deQP_fuel n' t underscore
        | None =>
            match s' with
            | a :: b :: t =>
                match parse_hex2 a b with
                | Some v => u8 v :: deQP_fuel n' t underscore
                | None => c :: deQP_fuel n' s' underscore
                end
            | _ => (* too short for two digits: err stays nil and c is 0 *)
                x00 :: deQP_fuel n' (drop 2 s') underscore
            end
        end
  | _, _ => []
  end.

Definition deQP (s : str) (underscore : bool) : str := deQP_fuel (length s) s underscore.

Definition bchar (c : byte) : bool :=
  is_alnum c || one_of (SQUOTE :: $"()+_,-./:=? ") c.

(** [maybeBoundary(s, i)] on [s[i:]] *)
Fixpoint boundary_line (s : str) : bool :=
  match s with
  | [] => true
  | c :: s' => if ble " " c then (if bchar c then boundary_line s' else false) else true
  end.

Definition maybeBoundary (s : str) : bool :=
  match s with
  | a :: b :: _ =>
      if negb (a =b "-") || negb (b =b "-") then false else boundary_line s
  | _ => false
  end.

Definition qphexdigits : str := $"0123456789ABCDEF".

Definition hex_escape (c : byte) : str :=
  ["="%byte; nth (Z.to_nat (bz c / 16)) qphexdigits x00;
   nth (Z.to_nat (bz c mod 16)) qphexdigits x00].

(** [buf[l] = b; l++] for each byte [b] of [bs], in a buffer of [cap] bytes. *)
Definition put (cap : nat) (out bs : str) : outcome str :=
  if Nat.leb (length out + length bs) cap then Ret (out ++ bs) else Panic.

(** [for j < 10 && buf[l-j] != ' ' { j++ }] *)
Fixpoint find_space (n : nat) (out : str) (j : Z) : outcome Z :=
  match n with
  | O => Ret j
  | S n' => c ← at_ out (len out - j); if c =b SP then Ret j else find_space n' out (j + 1)
  end.

(** The soft line break: after the last space among the last nine bytes, or
    here when there is none. *)
Definition eQP_soft (cap : nat) (out : str) : outcome (str * Z) :=
  j ← find_space 9 out 1;
  let j := if 10 <=? j then 0 else j - 1 in
  let k := (length out - Z.to_nat j)%nat in
  _ ← put cap out ["="%byte; CR; LF];
  Ret (take k out ++ ["="%byte; CR; LF] ++ drop k out, j).

(** The bytes written for [s[i]] (the first byte of [s]) at column [c]. *)
Definition eQP_token (underscore from : bool) (a : byte) (s : str) (c : Z) : str :=
  if underscore && (a =b SP) then ["_"%byte]
  else if underscore && negb (is_digit a || is_lower a || is_upper a) then hex_escape a
  else if from && (c =? 0) && maybeBoundary s then hex_escape a
  else if from && (c =? 0) && HasPrefix s $"From " then hex_escape a
  else if (ble " " a && (bz a <? 127) && negb (a =b "=")) || (a =b HT) then [a]
  else hex_escape a.

(** A space at the end of a line is encoded when the line feed comes. *)
Definition eQP_trailing (cap : nat) (out : str) : outcome str :=
  if (0 <? len out) && is_at out (length out - 1) SP
  then put cap (take (length out - 1) out) $"=20"
  else Ret out.

Fixpoint eQP_loop (cap : nat) (underscore from : bool) (s out : str) (c : Z) : outcome str :=
  match s with
  | [] => Ret out
  | a :: s' =>
      if a =b LF then
        out ← eQP_trailing cap out;
        out ← put cap out [LF];
        eQP_loop cap underscore from s' out 0
      else if (a =b CR) && match s' with b :: _ => b =b LF | [] => false end then
        out ← eQP_trailing cap out;
        out ← put cap out [CR];
        out ← put cap out [LF];
        match s' with
        | _ :: s'' => eQP_loop cap underscore from s'' out 0
        | [] => Ret out
        end
      else
        '(out, c) ← (if 72 <? c then eQP_soft cap out else Ret (out, c));
        let t := eQP_token underscore from a s c in
        out ← put cap out t;
        eQP_loop cap underscore from s' out (c + len t)
  end.

Definition eQP (s : str) (underscore from : bool) : outcome str :=
  if s ==s [] then Ret s
  else eQP_loop (length s * 6) underscore from s [] 0.

Fixpoint needsQP_loop (s : str) (c : Z) : bool :=
  match s with
  | [] => false
  | a :: s' =>
      if (c =? 0) && maybeBoundary s then true
      else if (c =? 0) && HasPrefix s $"Fr" then true
      else if a =b LF then needsQP_loop s' 0
      else if 78 <? c then true
      else if (ble " " a && (bz a <? 127)) || (a =b HT)
              || ((a =b CR) && match s' with b :: _ => b =b LF | [] => false end)
      then needsQP_loop s' (c + 1)
      else true
  end.

Definition needsQP (s : str) : bool := needsQP_loop s 0.

(** ** Uuencode *)

Definition uu_val (c : byte) : Z := Z.land 63 (bz (u8 (bz c - 32))).

(** [buf.WriteByte] of the decoded bytes, while [linelength] lasts. *)
Definition uu_group (linelength c0 c1 c2 c3 : Z) : str :=
  take (Z.to_nat linelength)
    [u8 (Z.lor (Z.shiftl c0 2) (Z.shiftr c1 4));
     u8 (Z.lor (Z.shiftl c1 4) (Z.shiftr c2 2));
     u8 (Z.lor (Z.shiftl c2 6) c3)].

(** Step 3, on [s[i:]]: the decoded bytes and [s[i:]] after the line.  The three
    reads after the first are all guarded by [i+1 < len(s)]. *)
Fixpoint uu_line (n : nat) (linelength : Z) (s : str) : outcome (str * str) :=
  if (0 <? linelength) && (0 <? len s) then
    match n with
    | O => OutOfFuel
    | S n' =>
        a ← at_ s 0;
        let c0 := uu_val a in
        c1 ← (if 1 <? len s then b ← at_ s 1; Ret (uu_val b) else Ret 0);
        c2 ← (if 1 <? len s then b ← at_ s 2; Ret (uu_val b) else Ret 0);
        c3 ← (if 1 <? len s then b ← at_ s 3; Ret (uu_val b) else Ret 0);
        let out := uu_group linelength c0 c1 c2 c3 in
        '(out', rest) ← uu_line n' (linelength - len out) (drop 4 s);
        Ret (out ++ out', rest)
    end
  else Ret ([], s).

Definition eol_char (c : byte) : bool := (c =b CR) || (c =b LF).

(** The line [end], followed by white space or the end of the text. *)
Definition uu_end (s : str) : bool :=
  match s with
  | a :: b :: c :: t =>
      (a =b "e") && (b =b "n") && (c =b "d")
      && match t with d :: _ => wsp d | [] => true end
  | _ => false
  end.

Fixpoint uu_loop (n : nat) (orig s out : str) : outcome str :=
  match s with
  | [] => Ret out
  | _ =>
      match n with
      | O => OutOfFuel
      | S n' =>
          let s := drop_while (λ c, negb (eol_char c)) s in
          let s := drop_while wsp s in
          match s with
          | [] => uu_loop n' orig [] out
          | c :: s' =>
              if uu_end s then Ret out
              else if bz c <? 32 then Ret orig
              else
                let linelength := Z.land (bz c - 32) 63 in
                '(o, rest) ← uu_line (length s') linelength s';
                uu_loop n' orig rest (out ++ o)
          end
      end
  end.

Definition deUue (s : str) : outcome str :=
  if s ==s [] then Ret s
  else if HasPrefix s $"begin" then uu_loop (length s) s s []
  else
    let begin := Index s (LF :: $"begin") in
    let begin := if begin <? 0 then Index s (CR :: $"begin") else begin in
    if begin <? 0 then Ret s
    else uu_loop (length s) s (drop (Z.to_nat (begin + 1)) s) [].

(** ** Dispatch on the content-transfer-encoding *)

Definition encodeCTE (s : str) (e : EncodingType) (n : Z) : outcome str :=
  match e with
  | Base64Encoding => Ret (e64 s n)
  | QPEncoding => eQP s false (0 <? n)
  | _ => Ret s
  end.

Definition decodeCTE (s : str) (e : EncodingType) : outcome str :=
  match e with
  | Base64Encoding => Ret (de64 s)
  | QPEncoding => Ret (deQP s false)
  | UuencodeEncoding => deUue s
  | BinaryEncoding => Ret s
  end.
