(* ===== verification/CodecFacts.v ===== *)
(** * Properties of the content-transfer encodings *)

From S2P Require Import Prelude GoStrings Strings StringsFacts Codec.
Open Scope Z_scope.

(** ** Base 64 *)

Lemma class64_to64 (i : Z) : 0 <= i < 64 → class64 (to64_at i) = i.
Proof.
  intros Hi.
  assert (forallb (λ n, class64 (to64_at (Z.of_nat n)) =? Z.of_nat n) (seq 0 64) = true)
    as H by reflexivity.
  rewrite forallb_forall in H. specialize (H (Z.to_nat i)).
  rewrite Z2Nat.id in H by lia. apply Z.eqb_eq, H, in_seq. lia.
Qed.

Lemma de64_skip (p : byte) (s : str) (d : byte) (m : Z) :
  64 < class64 p → de64_loop (p :: s) d m = de64_loop s d m.
Proof. intros H. simpl. do 2 (case_if; [lia|]). done. Qed.

Lemma de64_state (s : str) (d d' : byte) : de64_loop s d 0 = de64_loop s d' 0.
Proof. induction s as [|p s IH]; simpl; [done|]. repeat case_if; auto. Qed.

Ltac divlia := Z.to_euclidean_division_equations; lia.

(** The sextets of a group as quotients and remainders. *)
Lemma sextet_parts (a : byte) :
  sextet0 a = bz a / 4 ∧ Z.land (shl8 a 4) 48 = bz a mod 4 * 16
  ∧ Z.land (shr8 a 4) 15 = bz a / 16 ∧ Z.land (shl8 a 2) 60 = bz a mod 16 * 4
  ∧ Z.land (shr8 a 6) 3 = bz a / 64 ∧ sextet3 a = bz a mod 64.
Proof.
  assert (∀ a, (sextet0 a =? bz a / 4) && (Z.land (shl8 a 4) 48 =? bz a mod 4 * 16)
    && (Z.land (shr8 a 4) 15 =? bz a / 16) && (Z.land (shl8 a 2) 60 =? bz a mod 16 * 4)
    && (Z.land (shr8 a 6) 3 =? bz a / 64) && (sextet3 a =? bz a mod 64) = true) as H
    by byte_enum.
  specialize (H a). lia.
Qed.

(** What the decoder does with the sextet [i] in each of its four states. *)
Lemma de64_read (i : Z) (s : str) (d : byte) :
  0 <= i < 64 →
  de64_loop (to64_at i :: s) d 0 = de64_loop s (u8 (i * 4)) 1
  ∧ de64_loop (to64_at i :: s) d 1
    = u8 (bz d + i / 16) :: de64_loop s (u8 (i mod 16 * 16)) 2
  ∧ de64_loop (to64_at i :: s) d 2
    = u8 (bz d + i / 4) :: de64_loop s (u8 (i mod 4 * 64)) 3
  ∧ de64_loop (to64_at i :: s) d 3 = u8 (bz d + i) :: de64_loop s (u8 (bz d + i)) 0.
Proof.
  intros Hi.
  assert (forallb (λ n, let i := Z.of_nat n in
    (Z.shiftl i 2 =? i * 4) && (Z.shiftr (Z.land i 240) 4 =? i / 16)
    && (Z.shiftl (Z.land i 15) 4 =? i mod 16 * 16) && (Z.shiftr (Z.land i 252) 2 =? i / 4)
    && (Z.shiftl (Z.land i 3) 6 =? i mod 4 * 64)) (seq 0 64) = true) as H by reflexivity.
  rewrite forallb_forall in H. specialize (H (Z.to_nat i)). cbv zeta in H.
  rewrite Z2Nat.id in H by lia. specialize (H ltac:(apply in_seq; lia)). breflect.
  cbn [de64_loop]. rewrite class64_to64 by done. replace (i <? 64) with true by lia.
  simpl. split_and!; repeat f_equal; lia.
Qed.

Definition de64_read0 i s d H := proj1 (de64_read i s d H).
Definition de64_read1 i s d H := proj1 (proj2 (de64_read i s d H)).
Definition de64_read2 i s d H := proj1 (proj2 (proj2 (de64_read i s d H))).
Definition de64_read3 i s d H := proj2 (proj2 (proj2 (de64_read i s d H))).

Lemma de64_pad (s : str) (d : byte) (m : Z) : de64_loop ("="%byte :: s) d m = [].
Proof. done. Qed.

Lemma de64_crlf (s : str) (d : byte) (m : Z) : de64_loop (crlf ++ s) d m = de64_loop s d m.
Proof. done. Qed.

Lemma u8_is (z : Z) (c : byte) : z = bz c → u8 z = c.
Proof. intros ->. apply u8_bz. Qed.

Lemma u8_mod (z : Z) (c : byte) : z mod 256 = bz c → u8 z = c.
Proof. intros H. apply bz_inj. by rewrite bz_u8. Qed.

Lemma de64_group01 (a b : byte) (t : str) (d : byte) :
  de64_loop (to64_at (sextet0 a) :: to64_at (sextet1 a b) :: t) d 0
  = a :: de64_loop t (u8 (bz b / 16 * 16)) 2.
Proof.
  pose proof (sextet_parts a) as Ha. pose proof (sextet_parts b) as Hb.
  pose proof (bz_range a). pose proof (bz_range b). unfold sextet1.
  rewrite de64_read0, de64_read1 by divlia.
  f_equal; [apply u8_is; rewrite u8_small; divlia | do 2 f_equal; divlia].
Qed.

Lemma de64_group2 (b c : byte) (t : str) :
  de64_loop (to64_at (sextet2 b c) :: t) (u8 (bz b / 16 * 16)) 2
  = b :: de64_loop t (u8 (bz c / 64 * 64)) 3.
Proof.
  pose proof (sextet_parts b) as Hb. pose proof (sextet_parts c) as Hc.
  pose proof (bz_range b). pose proof (bz_range c). unfold sextet2.
  rewrite de64_read2 by divlia.
  f_equal; [apply u8_is; rewrite u8_small; divlia | do 2 f_equal; divlia].
Qed.

Lemma de64_group3 (c : byte) (t : str) :
  de64_loop (to64_at (sextet3 c) :: t) (u8 (bz c / 64 * 64)) 3 = c :: de64_loop t c 0.
Proof.
  pose proof (sextet_parts c) as Hc. pose proof (bz_range c).
  rewrite de64_read3 by divlia.
  rewrite u8_small by divlia. replace (u8 (bz c / 64 * 64 + sextet3 c)) with c; [done|].
  symmetry. apply u8_is. divlia.
Qed.

Lemma de64_e64_loop (s : str) (n c : Z) (d : byte) : de64_loop (e64_loop s n c) d 0 = s.
Proof.
  revert c d. induction s as [s IH] using str_length_ind. intros c d.
  destruct s as [|a [|b [|e s]]]; cbn [e64_loop app].
  - by case_if.
  - by rewrite de64_group01, de64_pad.
  - by rewrite de64_group01, de64_group2, de64_pad.
  - rewrite de64_group01, de64_group2, de64_group3. do 3 f_equal.
    cbv zeta. case_if; [rewrite de64_crlf|]; apply IH; simpl; lia.
Qed.

(** C20: base-64 decoding gives back what was encoded, for every byte
    string and every line length. *)
Theorem de64_e64 (s : str) (lineLength : Z) : de64 (e64 s lineLength) = s.
Proof. apply de64_e64_loop. Qed.

(** ** Lines of bounded length *)

(** [text n s]: [s] is a sequence of lines of at most [n] bytes, each ended by
    LF or CRLF. *)
Inductive text (n : nat) : str → Prop :=
| text_nil : text n []
| text_line s l e :
    text n s → no_eol l → (length l ≤ n)%nat → e = [LF] ∨ e = crlf → text n (s ++ l ++ e).

(** [lines n s]: so is [s], but for a last line that may lack its end. *)
Definition lines (n : nat) (s : str) : Prop :=
  ∃ p l, s = p ++ l ∧ text n p ∧ no_eol l ∧ (length l ≤ n)%nat.

Lemma text_last n s : text n s → s = [] ∨ ∃ t, s = t ++ [LF].
Proof.
  destruct 1 as [|s l e ? ? ? [-> | ->]]; [by left | right..].
  - exists (s ++ l). by rewrite app_assoc.
  - exists (s ++ l ++ [CR]). by rewrite <- !app_assoc.
Qed.

Lemma text_lines n s : text n s → lines n s.
Proof. intros H. exists s, []. rewrite app_nil_r. split_and!; [done.. | by constructor | simpl; lia]. Qed.

Lemma to64_no_eol (i : Z) : to64_at i ≠ CR ∧ to64_at i ≠ LF.
Proof.
  assert (no_eol to64) as H by (repeat constructor; discriminate).
  unfold to64_at. destruct (nth_in_or_default (Z.to_nat i) to64 x00) as [Hi | ->]; [|done].
  by apply (proj1 (List.Forall_forall _ _) H).
Qed.

Ltac no_eol :=
  unfold no_eol; repeat (apply Forall_cons_2; [first [apply to64_no_eol | done]|]); apply Forall_nil_2.

(** What [e64] writes last. *)
Lemma lines_crlf (b : bool) (n : nat) (p l : str) :
  text n p → no_eol l → (length l ≤ n)%nat → lines n (p ++ l ++ if b then crlf else []).
Proof.
  intros. destruct b.
  - apply text_lines. constructor; auto.
  - rewrite app_nil_r. by exists p, l.
Qed.

Lemma e64_loop_lines (s : str) (n c q : Z) (p l : str) :
  0 < n → text (Z.to_nat (4 * ((n + 3) / 4))) p → no_eol l → len l = c → c < n → c = 4 * q →
  lines (Z.to_nat (4 * ((n + 3) / 4))) (p ++ l ++ e64_loop s n c).
Proof.
  revert c q p l. induction s as [s IH] using str_length_ind.
  intros c q p l Hn Hp Hl Hc Hcn Hq.
  assert (4 * q + 4 <= 4 * ((n + 3) / 4)) by divlia.
  assert (∀ g, no_eol g → length g = 4%nat →
    no_eol (l ++ g) ∧ (length (l ++ g) ≤ Z.to_nat (4 * ((n + 3) / 4)))%nat) as Hg.
  { intros g ? ?. rewrite no_eol_app, length_app. split; [done|lia]. }
  destruct s as [|a [|b [|e s]]]; cbn [e64_loop].
  1: by apply lines_crlf; [| | lia].
  1,2: rewrite app_assoc with (l := l); apply lines_crlf; [done | apply Hg; [no_eol | done] ..].
  cbv zeta. match goal with |- context [?g ++ if _ then _ else _] => set (grp := g) end.
  destruct (Hg grp) as [Hn' Hl']; [no_eol | done |].
  case_if.
  - replace (p ++ l ++ grp ++ crlf ++ e64_loop s n 0)
      with ((p ++ (l ++ grp) ++ crlf) ++ [] ++ e64_loop s n 0) by (by rewrite <- !app_assoc).
    apply (IH s) with (q := 0); [simpl; lia | done | constructor; auto | constructor | done | lia..].
  - rewrite app_assoc with (l := l).
    apply (IH s) with (q := q + 1); [simpl; lia | done.. | | lia | lia].
    rewrite length_app. change (length grp) with 4%nat. lia.
Qed.

(** With a line length, [e64] breaks its output into lines of at
    most that length rounded up to a whole group of four characters. *)
Theorem e64_lines (s : str) (lineLength : Z) :
  0 < lineLength → lines (Z.to_nat (4 * ((lineLength + 3) / 4))) (e64 s lineLength).
Proof.
  intros Hn. apply (e64_loop_lines s lineLength 0 0 [] []);
    [done | constructor | constructor | done | done | done].
Qed.

Lemma e64_lines_witness :
  0 < 6 ∧ lines 8 (e64 $"abcdefghij" 6) ∧ e64 $"abcdefghij" 6 = $"YWJjZGVm" ++ crlf ++ $"Z2hpag==" ++ crlf.
Proof. split_and!; [lia | apply (e64_lines $"abcdefghij" 6); lia | reflexivity]. Defined.

(** ** Quoted-printable *)

(** [qp u s d]: [s] is made of literal bytes, hexadecimal escapes and soft line
    breaks that stand for the bytes [d]. *)
Inductive qp (u : bool) : str → str → Prop :=
| qp_nil : qp u [] []
| qp_lit c s d :
    c ≠ "="%byte → qp u s d → qp u (c :: s) ((if u && (c =b "_") then SP else c) :: d)
| qp_hex c s d : qp u s d → qp u (hex_escape c ++ s) (c :: d)
| qp_soft s d : qp u s d → qp u (["="%byte; CR; LF] ++ s) d.

Lemma hex_escape_parse (c : byte) :
  match hex_escape c with
  | [e; a; b] => e = "="%byte ∧ parse_hex2 a b = Some (bz c)
      ∧ (a =b SP) || (a =b HT) || (a =b LF) || (a =b CR) = false
  | _ => False
  end.
Proof. destruct c; vm_compute; auto. Qed.

Lemma hex_escape_no_eol (c : byte) : no_eol (hex_escape c).
Proof. destruct c; repeat constructor; discriminate. Qed.

Lemma hex_escape_no_sp (c : byte) : Forall (λ x, x ≠ SP) (hex_escape c).
Proof. destruct c; repeat constructor; discriminate. Qed.

Lemma qp_deQP_fuel u s d n : qp u s d → (length s ≤ n)%nat → deQP_fuel n s u = d.
Proof.
  intros H. revert n. induction H as [|c s d Hc H IH|c s d H IH|s d H IH]; intros n Hn.
  - by destruct n.
  - destruct n as [|n]; [simpl in Hn; lia|]. cbn [deQP_fuel].
    apply beq_false in Hc. rewrite Hc. simpl. f_equal. apply IH. simpl in Hn. lia.
  - pose proof (hex_escape_parse c) as Hp. revert Hn Hp. unfold hex_escape.
    generalize (nth (Z.to_nat (bz c / 16)) qphexdigits x00) as a.
    generalize (nth (Z.to_nat (bz c mod 16)) qphexdigits x00) as b.
    intros b a Hn (_ & Hp & Ha). destruct n as [|n]; [simpl in Hn; lia|].
    cbn [app deQP_fuel]. rewrite beq_refl. cbn [negb drop_while].
    rewrite !orb_false_iff in Ha. destruct Ha as [[[-> ->] Hl] Hr].
    cbn [orb soft_eol]. rewrite Hl, Hr. cbn [andb]. rewrite Hp, u8_bz.
    f_equal. apply IH. simpl in Hn. lia.
  - destruct n as [|n]; [simpl in Hn; lia|]. apply IH. simpl in Hn. lia.
Qed.

Lemma qp_deQP u s d : qp u s d → deQP s u = d.
Proof. intros H. by apply qp_deQP_fuel. Qed.

Lemma qp_app u s d t e : qp u s d → qp u t e → qp u (s ++ t) (d ++ e).
Proof.
  intros H Ht. induction H as [|c s d Hc H IH|c s d H IH|s d H IH]; [done|..].
  - by constructor.
  - rewrite <- app_assoc. by constructor.
  - rewrite <- app_assoc. by constructor.
Qed.

Lemma qp_byte u c : c ≠ "="%byte → u && (c =b "_") = false → qp u [c] [c].
Proof. intros Hc Hu. pose proof (qp_lit u c [] [] Hc (qp_nil u)) as H. by rewrite Hu in H. Qed.

Lemma qp_escape u c : qp u (hex_escape c) [c].
Proof. rewrite <- (app_nil_r (hex_escape c)). repeat constructor. Qed.

(** A space of the encoded text is a token of its own. *)
Lemma qp_split_sp u p q d :
  qp u (p ++ SP :: q) d → ∃ d1 d2, d = d1 ++ SP :: d2 ∧ qp u p d1 ∧ qp u q d2.
Proof.
  intros H. remember (p ++ SP :: q) as s eqn:E. revert p E.
  induction H as [|c s d Hc H IH|c s d H IH|s d H IH]; intros p E.
  - by destruct p.
  - destruct p as [|a p]; simplify_eq/=.
    + exists [], d. rewrite andb_false_r. split_and!; [done | constructor | done].
    + destruct (IH p) as (d1 & d2 & -> & H1 & H2); [done|].
      exists ((if u && (a =b "_") then SP else a) :: d1), d2. by split_and!; [|constructor|].
  - assert (∃ p', p = hex_escape c ++ p' ∧ s = p' ++ SP :: q) as (p' & -> & E').
    { pose proof (hex_escape_no_sp c) as Hs. revert E Hs. unfold hex_escape.
      rewrite !Forall_cons. intros E (H1 & H2 & H3 & _).
      destruct p as [|? [|? [|? p]]]; simplify_eq/=; eauto. }
    destruct (IH p' E') as (d1 & d2 & -> & H1 & H2). exists (c :: d1), d2. by split_and!; [|constructor|].
  - destruct p as [|? [|? [|? p]]]; simplify_eq/=.
    destruct (IH p eq_refl) as (d1 & d2 & -> & H1 & H2). exists d1, d2.
    split_and!; [done | by apply qp_soft | done].
Qed.

(** The token for one byte. *)
Lemma eQP_token_spec u f a s c :
  a ≠ LF → let t := eQP_token u f a s c in
  qp u t [a] ∧ no_eol t ∧ (1 ≤ length t ≤ 3)%nat
  ∧ (length t = 1%nat ∨ Forall (λ x, x ≠ SP) t).
Proof.
  intros Ha t.
  assert (t = hex_escape a ∨ ∃ b, t = [b] ∧ b ≠ CR ∧ b ≠ LF ∧ qp u [b] [a]) as [-> | (b & -> & ? & ? & ?)].
  { subst t. unfold eQP_token.
    case_if; [breflect; subst; right; exists "_"%byte; split_and!; [done..|]|].
    { apply (qp_lit true "_"%byte [] []); [done | constructor]. }
    case_if; [by left|]. case_if; [by left|]. case_if; [by left|].
    case_if; [|by left]. right. exists a.
    assert (a ≠ "="%byte ∧ a ≠ CR ∧ u && (a =b "_") = false) as (? & ? & ?).
    { repeat match goal with H : _ && _ = false |- _ => revert H
        | H : _ || _ = true |- _ => revert H end.
      clear. destruct u; revert a; [|by intros []]. by intros []. }
    split_and!; [done..|]. by apply qp_byte. }
  - split_and!; [apply qp_escape | apply hex_escape_no_eol | simpl; lia.. |].
    right. apply hex_escape_no_sp.
  - split_and!; [done | by repeat constructor | simpl; lia.. | by left].
Qed.

(** There is an LF without a CR before it. *)
Fixpoint bare_lf (s : str) : bool :=
  match s with
  | [] => false
  | c :: s' =>
      if c =b LF then true
      else if (c =b CR) && match s' with d :: _ => d =b LF | [] => false end
      then match s' with _ :: s'' => bare_lf s'' | [] => false end
      else bare_lf s'
  end.

Lemma bare_lf_line (l t : str) : no_eol l → bare_lf (l ++ t) = bare_lf t.
Proof.
  induction 1 as [|c l [H1 H2] _ IH]; [done|]. cbn [app bare_lf].
  by rewrite (proj2 (beq_false c LF) H2), (proj2 (beq_false c CR) H1).
Qed.

Lemma bare_lf_text n (p t : str) : text n p → bare_lf (p ++ t) = bare_lf p || bare_lf t.
Proof.
  intros Hp. revert t. induction Hp as [|p l e Hp IH Hl Hn He]; intros t; [done|].
  rewrite <- !app_assoc, !IH, (bare_lf_line l e), (bare_lf_line l (e ++ t)) by done. destruct He as [-> | ->]; cbn; by destruct (bare_lf p).
Qed.

(** What holds before each round of [eQP]: the output so far stands for the
    bytes read, its lines are short enough, the column is that of the last
    line, and the buffer has room for six bytes per byte left. *)
Record eQP_inv (u : bool) (cap todo : nat) (p l d : str) : Prop := {
  inv_qp : qp u (p ++ l) d;
  inv_text : text 76 p;
  inv_eol : no_eol l;
  inv_col : len l <= 75;
  inv_sp : ∀ l', l = l' ++ [SP] → len l <= 73;
  inv_cap : (length (p ++ l) + 6 * todo ≤ cap)%nat }.

Lemma last_byte (s : str) (c : byte) :
  (0 <? len s) && is_at s (length s - 1) c = true → ∃ t, s = t ++ [c].
Proof.
  intros [Hs H]%andb_true_iff. unfold is_at in H.
  destruct s as [|x t _] using rev_ind; [done|]. exists t.
  rewrite length_app, lookup_app_r in H by (simpl; lia). simpl in H.
  replace (length t + 1 - 1 - length t)%nat with 0%nat in H by lia. simpl in H. by breflect; subst.
Qed.

Lemma eQP_trailing_spec u cap todo p l d :
  eQP_inv u cap (S todo) p l d →
  ∃ l', eQP_trailing cap (p ++ l) = Ret (p ++ l') ∧ qp u (p ++ l') d ∧ no_eol l'
    ∧ (length l' ≤ 76)%nat ∧ (length l' ≤ length l + 2)%nat.
Proof.
  intros [Hqp Ht Hl Hc Hsp Hcap]. unfold eQP_trailing.
  case_if; [|exists l; split_and!; try done; lia].
  assert (∃ l', l = l' ++ [SP]) as [l' ->].
  { apply last_byte in Heqb as [t Ht']. destruct l as [|x l' _] using rev_ind.
    - rewrite app_nil_r in Ht'. subst p. apply text_last in Ht as [[_ [=]]%app_nil | [? [_ [=]]%app_inj_tail]].
    - rewrite app_assoc in Ht'. apply app_inj_tail in Ht' as [_ ->]. by exists l'. }
  specialize (Hsp l' eq_refl). rewrite !length_app in *. simpl in *.
  replace (length p + (length l' + 1) - 1)%nat with (length (p ++ l')) by (rewrite length_app; lia).
  rewrite app_assoc, take_app_length. unfold put. rewrite length_app. simpl.
  case_if; [|lia]. exists (l' ++ $"=20"). rewrite app_assoc in Hqp.
  apply qp_split_sp in Hqp as (d1 & d2 & -> & H1 & H2). inversion H2; subst.
  rewrite app_assoc. split_and!; [done | | | rewrite length_app; simpl; lia..].
  - apply qp_app; [done|]. apply (qp_escape u SP).
  - apply no_eol_app in Hl as [? _]. apply no_eol_app. split; [done | no_eol].
Qed.

Lemma find_space_spec n out j :
  1 <= j → j + Z.of_nat n <= len out + 1 →
  ∃ k, find_space n out j = Ret k ∧ j <= k <= j + Z.of_nat n
    ∧ (k < j + Z.of_nat n → out !! Z.to_nat (len out - k) = Some SP).
Proof.
  revert j. induction n as [|n IH]; intros j Hj Hn; cbn [find_space].
  - exists j. split_and!; [done | lia..].
  - destruct (at_in_range out (len out - j)) as (c & Hc & Hl); [lia|]. rewrite Hc. simpl.
    case_if.
    + breflect; subst. exists j. split_and!; [done | lia.. | done].
    + destruct (IH (j + 1)) as (k & Hk & Hr & Hs); [lia..|].
      exists k. split_and!; [done | lia.. |]. intros. apply Hs. lia.
Qed.

(** Breaking the line [l] before its part [q]. *)
Lemma eQP_soft_spec u cap todo p l d :
  eQP_inv u cap (S todo) p l d → 72 < len l →
  ∃ l1 l2, l = l1 ++ l2 ∧ len l2 <= 8
    ∧ eQP_soft cap (p ++ l) = Ret ((p ++ l1 ++ ["="%byte; CR; LF]) ++ l2, len l2)
    ∧ qp u ((p ++ l1 ++ ["="%byte; CR; LF]) ++ l2) d.
Proof.
  intros [Hqp Ht Hl Hc Hsp Hcap] Hlen. unfold eQP_soft. rewrite length_app in *.
  destruct (find_space_spec 9 (p ++ l) 1) as (k & Hk & Hr & Hs); [lia | rewrite length_app; lia|].
  rewrite Hk. cbn [mbind outcome_bind]. set (j := if 10 <=? k then 0 else k - 1).
  unfold put. rewrite length_app. cbn [length].
  destruct (Nat.leb_spec (length p + length l + 3) cap); [|lia]. cbn [mbind outcome_bind].
  assert (0 <= j <= 8) as Hj by (subst j; case_if; lia).
  exists (take (length l - Z.to_nat j) l), (drop (length l - Z.to_nat j) l).
  assert (length (drop (length l - Z.to_nat j) l) = Z.to_nat j) as Hd by (rewrite length_drop; lia).
  split_and!; [by rewrite take_drop | lia | |].
  { rewrite take_app, drop_app, Hd, Z2Nat.id, take_ge, drop_ge by lia.
    replace (length p + length l - Z.to_nat j - length p)%nat with (length l - Z.to_nat j)%nat by lia.
    by rewrite <- !app_assoc. }
  subst j. destruct (Z.leb_spec 10 k).
  - rewrite Nat.sub_0_r in *. rewrite firstn_all, drop_ge, app_nil_r, app_assoc by lia.
    rewrite <- (app_nil_r d). apply qp_app; [done|]. apply (qp_soft u [] []). constructor.
  - set (m := (length l - Z.to_nat (k - 1))%nat) in *.
    assert (l !! (m - 1)%nat = Some SP) as HSP.
    { rewrite <- Hs by lia. rewrite lookup_app_r by (rewrite length_app; lia).
      f_equal. rewrite length_app. lia. }
    assert (take m l = take (m - 1) l ++ [SP]) as Htk.
    { replace m with (S (m - 1)) at 1 by lia. by apply take_S_r. }
    rewrite <- (take_drop m l), Htk, <- app_assoc, app_assoc in Hqp.
    apply qp_split_sp in Hqp as (d1 & d2 & -> & H1 & H2).
    rewrite Htk, <- !app_assoc, (app_assoc p).
    apply qp_app; [done|]. cbn [app].
    pose proof (qp_lit u SP _ _ ltac:(done) (qp_soft u _ _ H2)) as H3.
    by rewrite andb_false_r in H3.
Qed.

Lemma put_ret cap out bs :
  (length out + length bs ≤ cap)%nat → put cap out bs = Ret (out ++ bs).
Proof. intros H. unfold put. case_if; [done | lia]. Qed.

Lemma eQP_inv_newline u cap todo p l d l' e :
  eQP_inv u cap (S todo) p l d → qp u (p ++ l') d → no_eol l' →
  (length l' ≤ 76)%nat → (length l' ≤ length l + 2)%nat → e = [LF] ∨ e = crlf →
  eQP_inv u cap todo (p ++ l' ++ e) [] (d ++ e).
Proof.
  intros [Hqp Ht Hl Hc Hsp Hcap] Hq ? ? ? He. split.
  - rewrite app_nil_r, app_assoc. apply qp_app; [done|].
    destruct He as [-> | ->]; [apply qp_byte; [done | apply andb_false_r]|].
    apply (qp_app u [CR] [CR] [LF] [LF]); (apply qp_byte; [done | apply andb_false_r]).
  - by constructor.
  - constructor.
  - simpl. lia.
  - intros [] [=].
  - rewrite !length_app in *. destruct He as [-> | ->]; simpl; lia.
Qed.

(** Writing the token of [a] after a line short enough for it. *)
Lemma eQP_inv_token u f cap todo p l d a s :
  qp u (p ++ l) d → text 76 p → no_eol l → len l <= 72 → a ≠ LF →
  (length (p ++ l) + 6 * todo + 3 ≤ cap)%nat →
  let t := eQP_token u f a s (len l) in
  eQP_inv u cap todo p (l ++ t) (d ++ [a]) ∧ (length (p ++ l) + length t ≤ cap)%nat.
Proof.
  intros Hqp Ht Hl Hc Ha Hcap t.
  destruct (eQP_token_spec u f a s (len l) Ha) as (Hq & Hn & Hlen & Hsp). fold t in Hq, Hn, Hlen, Hsp.
  split; [|rewrite length_app in *; lia]. split.
  - rewrite app_assoc. by apply qp_app.
  - done.
  - by apply no_eol_app.
  - rewrite length_app. lia.
  - intros l' E. destruct Hsp as [H1 | HF]; [rewrite length_app; lia|].
    destruct t as [|x t' _] using rev_ind; [simpl in Hlen; lia|].
    rewrite app_assoc in E. apply app_inj_tail in E as [_ ->].
    apply Forall_app in HF as [_ HF]. by inversion HF.
  - rewrite !length_app in *. lia.
Qed.

(** The line is broken when it has no room for a token. *)
Lemma eQP_inv_room u cap todo p l d :
  eQP_inv u cap (S todo) p l d →
  ∃ p' l', (if 72 <? len l then eQP_soft cap (p ++ l) else Ret (p ++ l, len l))
      = Ret (p' ++ l', len l') ∧ len l' <= 72 ∧ qp u (p' ++ l') d ∧ text 76 p' ∧ no_eol l'
    ∧ (length (p' ++ l') <= length (p ++ l) + 3)%nat ∧ bare_lf p' = bare_lf p.
Proof.
  intros Hinv. destruct (Z.ltb_spec 72 (len l)).
  - destruct (eQP_soft_spec u cap todo p l d Hinv) as (l1 & l2 & -> & H2 & -> & Hq2); [done|].
    destruct Hinv as [_ Ht Hl Hc _ _]. rewrite no_eol_app in Hl.
    eexists _, l2. split_and!; [done | lia | done | | tauto | rewrite !length_app; simpl; lia |].
    2:{ rewrite (bare_lf_text 76), bare_lf_line by tauto. by rewrite orb_false_r. }
    rewrite length_app in *. change ["="%byte; CR; LF] with (["="%byte] ++ crlf).
    rewrite (app_assoc l1). constructor; [done | | rewrite length_app; simpl; lia | by right].
    apply no_eol_app. split; [tauto | no_eol].
  - destruct Hinv as [? ? ? ? ? ?]. exists p, l. split_and!; auto; lia.
Qed.

Lemma eQP_loop_spec u f cap s p l d :
  eQP_inv u cap (length s) p l d →
  ∃ out, eQP_loop cap u f s (p ++ l) (len l) = Ret out ∧ qp u out (d ++ s) ∧ lines 76 out
    ∧ bare_lf out = bare_lf p || bare_lf s.
Proof.
  revert p l d. induction s as [s IH] using str_length_ind. intros p l d Hinv.
  destruct s as [|a s]; cbn [eQP_loop].
  { destruct Hinv as [Hqp Ht Hl Hc Hsp Hcap]. exists (p ++ l). rewrite app_nil_r.
    split_and!; [done.. | |].
    - exists p, l. split_and!; [done.. | lia].
    - rewrite (bare_lf_text 76) by done. by rewrite <- (app_nil_r l), bare_lf_line. }
  assert (∀ x t, bare_lf (p ++ x ++ t) = bare_lf p || bare_lf (x ++ t)) as Hp
    by (intros; eapply bare_lf_text, Hinv). cbn [bare_lf].
  destruct (a =b LF) eqn:HLF; [|destruct (_ && _) eqn:HCR].
  - breflect; subst a. destruct (eQP_trailing_spec _ _ _ _ _ _ Hinv) as (l' & -> & ? & ? & ? & ?).
    cbn [mbind outcome_bind]. pose proof (inv_cap _ _ _ _ _ _ Hinv) as Hcap.
    rewrite put_ret by (rewrite !length_app in *; simpl in *; lia). cbn [mbind outcome_bind].
    rewrite <- app_assoc.
    destruct (IH s ltac:(simpl; lia) (p ++ l' ++ [LF]) [] (d ++ [LF])) as (out & Ho & Hq & Hls & Hb).
    { by eapply eQP_inv_newline; eauto. }
    rewrite app_nil_r in Ho. exists out. rewrite <- app_assoc in Hq. split_and!; [done.. |].
    rewrite Hb, Hp, bare_lf_line by done. cbn. by rewrite orb_true_r.
  - destruct s as [|b s]; breflect; [done|]. subst a b.
    destruct (eQP_trailing_spec _ _ _ _ _ _ Hinv) as (l' & -> & ? & ? & ? & ?).
    cbn [mbind outcome_bind]. pose proof (inv_cap _ _ _ _ _ _ Hinv) as Hcap.
    rewrite put_ret by (rewrite !length_app in *; simpl in *; lia). cbn [mbind outcome_bind].
    rewrite put_ret by (rewrite !length_app in *; simpl in *; lia). cbn [mbind outcome_bind].
    rewrite <- !app_assoc. cbn [app].
    destruct (IH s ltac:(simpl; lia) (p ++ l' ++ crlf) [] (d ++ crlf)) as (out & Ho & Hq & Hls & Hb).
    { destruct (eQP_inv_newline u cap (length (LF :: s)) p l d l' crlf); auto. split; auto.
      simpl in *. lia. }
    rewrite app_nil_r in Ho. exists out. rewrite <- app_assoc in Hq. split_and!; [done.. |].
    rewrite Hb, Hp, bare_lf_line by done. cbn. by rewrite orb_false_r.
  - breflect. cbv zeta.
    destruct (eQP_inv_room _ _ _ _ _ _ Hinv) as (p' & l' & -> & Hl' & Hq' & Ht' & Hn' & Hlen & Hb').
    cbn [mbind outcome_bind]. pose proof (inv_cap _ _ _ _ _ _ Hinv) as Hcap.
    destruct (eQP_inv_token u f cap (length s) p' l' d a (a :: s)) as [Hinv' Hput];
      [done.. | simpl in *; lia|].
    rewrite put_ret by done. cbn [mbind outcome_bind].
    destruct (IH s ltac:(simpl; lia) _ _ _ Hinv') as (out & Ho & Hq & Hls & Hb).
    rewrite app_assoc, length_app, Nat2Z.inj_add in Ho. exists out. rewrite <- app_assoc in Hq.
    split_and!; [done.. |]. by rewrite Hb, Hb'.
Qed.

Lemma eQP_decodes (s : str) (underscore from : bool) :
  ∃ out, eQP s underscore from = Ret out ∧ deQP out underscore = s ∧ lines 76 out ∧ bare_lf out = bare_lf s.
Proof.
  unfold eQP. destruct (str_eqb_true s []) as [H _]. destruct (s ==s []).
  { exists s. rewrite H by done. split_and!; [done.. | apply text_lines; constructor | done]. }
  destruct (eQP_loop_spec underscore from (length s * 6) s [] [] []) as (out & Ho & Hq & Hl & Hb).
  { split; [constructor.. | simpl; lia | by intros [] | simpl; lia]. }
  exists out. split_and!; [done | by apply qp_deQP | done | done].
Qed.

(** C19: quoted-printable encoding never runs past the buffer it
    allocates, in either variant; its output lines have at most 76 bytes; decoding
    the output gives back the input; and the line breaks of the text are written as
    they are: the output has an LF without a CR before it exactly when the text has
    one, so that "all line feeds are CRLF", as the comment of the function has it,
    holds only for texts whose own line feeds are CRLF. *)
Theorem eQP_roundtrip (s : str) (underscore from : bool) :
  ∃ out, eQP s underscore from = Ret out ∧ deQP out underscore = s ∧ lines 76 out ∧ bare_lf out = bare_lf s.
Proof. apply eQP_decodes. Qed.

(** A line feed that is not a CRLF does not become one. *)
Lemma eQP_keeps_lf : eQP ($"a" ++ [LF] ++ $"b") false false = Ret ($"a" ++ [LF] ++ $"b").
Proof. reflexivity. Qed.

(** The soft line break can carry "From " to the start of an
    output line, although [from] asks for no such line. *)
Theorem eQP_from_moved :
  ∃ s pre post, eQP s false true = Ret (pre ++ crlf ++ $"From " ++ post).
Proof.
  exists (repeat "x"%byte 68 ++ $" From y"), (repeat "x"%byte 68 ++ $" ="), $"y". reflexivity.
Qed.

(** ** When quoted-printable is needed *)

Lemma needsQP_loop_suffix p t c :
  needsQP_loop (p ++ t) c = false →
  ∃ c', needsQP_loop t c' = false ∧ (p = [] → c' = c) ∧ (∀ q, p = q ++ [LF] → c' = 0).
Proof.
  revert c. induction p as [|a p IH]; intros c H.
  { exists c. split_and!; [done.. |]. by intros []. }
  cbn [app needsQP_loop] in H.
  assert (∃ c1, needsQP_loop (p ++ t) c1 = false ∧ (a = LF → c1 = 0)) as (c1 & H1 & Ha).
  { repeat case_if_in H; try done; breflect; eauto. exists (c + 1). split; [done|]. by intros ->. }
  destruct (IH c1 H1) as (c' & H' & Hnil & Hq). exists c'. split_and!; [done | done|].
  intros q E. destruct p as [|b p]; [|destruct q; simplify_eq/=; by eapply Hq].
  rewrite Hnil by done. apply Ha. destruct q as [|? []]; by simplify_eq/=.
Qed.

Lemma needsQP_loop_lines s p l :
  needsQP_loop s (len l) = false → text 79 p → no_eol l → len l <= 79 →
  isAscii s = true ∧ lines 79 (p ++ l ++ s).
Proof.
  revert p l. induction s as [s IH] using str_length_ind. intros p l H Hp Hl Hlen.
  destruct s as [|a s]. { split; [done|]. rewrite app_nil_r. exists p, l. split_and!; [done.. | lia]. }
  cbn [needsQP_loop] in H.
  destruct (_ && maybeBoundary _); [done|]. destruct (_ && HasPrefix _ _); [done|].
  destruct (a =b LF) eqn:HLF; [|destruct (Z.ltb_spec 78 (len l)); [done|]; case_if_in H; [|done]].
  - breflect; subst a. destruct (IH s ltac:(simpl; lia) (p ++ l ++ [LF]) []) as [Ha Hn];
      [done | constructor; auto; lia | constructor | done |].
    split; [done|]. by rewrite <- !app_assoc in Hn.
  - destruct (a =b CR) eqn:HCR.
    + assert (∃ s', a = CR ∧ s = LF :: s') as (s' & -> & ->).
      { revert Heqb. clear -HCR. breflect. subst a. destruct s as [|b s]; [done|]. simpl.
        destruct (beq_spec b LF); [|done]. subst. eauto. }
      cbn [needsQP_loop] in H. rewrite beq_refl in H.
      repeat (case_if_in H; [done|]).
      destruct (IH s' ltac:(simpl; lia) (p ++ l ++ crlf) []) as [Ha Hn];
        [done | constructor; auto; lia | constructor | done |].
      split; [done|]. by rewrite <- !app_assoc in Hn.
    + destruct (IH s ltac:(simpl; lia) p (l ++ [a])) as [Ha Hn].
      * rewrite length_app, Nat2Z.inj_add. done.
      * done.
      * apply no_eol_app. split; [done|]. breflect. by repeat constructor.
      * rewrite length_app. simpl. lia.
      * rewrite <- !app_assoc in Hn. split; [|done]. cbn [isAscii forallb]. apply andb_true_iff.
        split; [|done]. revert Heqb. clear. revert a. intros []; simpl; auto.
Qed.

(** C29: text that needs no quoted-printable encoding is 7-bit
    text in lines of at most 79 bytes, and no line of it starts with "Fr" or
    looks like a MIME boundary. *)
Theorem needsQP_sound (s : str) (Hs : needsQP s = false) :
  isAscii s = true ∧ lines 79 s
  ∧ ∀ p t, s = p ++ t → p = [] ∨ (∃ q, p = q ++ [LF]) →
      HasPrefix t $"Fr" = false ∧ maybeBoundary t = false.
Proof.
  unfold needsQP in Hs.
  destruct (needsQP_loop_lines s [] [] Hs) as [Ha Hl]; [constructor | constructor | done |].
  split_and!; [done | done|]. intros p t -> Hp.
  destruct (needsQP_loop_suffix p t 0 Hs) as (c & Hc & H0 & Hq).
  assert (c = 0) as -> by (destruct Hp as [-> | [q ->]]; eauto).
  destruct t as [|a t]; [done|]. cbn [needsQP_loop] in Hc.
  split; [destruct (HasPrefix _ _) | destruct (maybeBoundary _)]; [|done| |done];
    rewrite ?andb_true_r in Hc; [|done]. by case_if_in Hc.
Qed.

Lemma needsQP_sound_witness :
  let s := $"plain text" ++ crlf ++ $"- second line" ++ crlf in
  needsQP s = false ∧ isAscii s = true ∧ lines 79 s
  ∧ ∀ p t, s = p ++ t → p = [] ∨ (∃ q, p = q ++ [LF]) →
      HasPrefix t $"Fr" = false ∧ maybeBoundary t = false.
Proof. split; [reflexivity|]. by apply needsQP_sound. Defined.

(** ** Uuencode

    A reference encoder: a length character, then each group of up to three
    bytes as four characters; zero is written as a grave accent. *)
Definition uu_char (v : Z) : byte := if v =? 0 then "`"%byte else u8 (v + 32).

Definition uu_quad (a b c : byte) : str :=
  map uu_char [bz a / 4; bz a mod 4 * 16 + bz b / 16; bz b mod 16 * 4 + bz c / 64; bz c mod 64].

Fixpoint uu_quads (s : str) : str :=
  match s with
  | [] => []
  | [a] => uu_quad a x00 x00
  | [a; b] => uu_quad a b x00
  | a :: b :: c :: s' => uu_quad a b c ++ uu_quads s'
  end.

Definition uu_encode_line (eol s : str) : str := uu_char (len s) :: uu_quads s ++ eol.

(** The file: [begin], a header, the lines, the empty line and [end]. *)
Definition uu_file (header eol : str) (chunks : list str) (tail : str) : str :=
  $"begin" ++ header ++ eol ++ concat (map (uu_encode_line eol) chunks)
  ++ "`"%byte :: eol ++ $"end" ++ tail.

Lemma uu_val_char (v : Z) : 0 <= v < 64 → uu_val (uu_char v) = v.
Proof.
  intros Hv. assert (forallb (λ n, uu_val (uu_char (Z.of_nat n)) =? Z.of_nat n) (seq 0 64) = true)
    as H by reflexivity.
  rewrite forallb_forall in H. specialize (H (Z.to_nat v) ltac:(apply in_seq; lia)).
  rewrite Z2Nat.id in H by lia. lia.
Qed.

(** The three bytes of a group, as sums. *)
Lemma uu_group_sum (n c0 c1 c2 c3 : Z) :
  0 <= c0 < 64 → 0 <= c1 < 64 → 0 <= c2 < 64 → 0 <= c3 < 64 →
  uu_group n c0 c1 c2 c3
  = take (Z.to_nat n) [u8 (c0 * 4 + c1 / 16); u8 (c1 * 16 + c2 / 4); u8 (c2 * 64 + c3)].
Proof.
  intros H0 H1 H2 H3.
  assert (forallb (λ n, forallb (λ m, let i := Z.of_nat n in let j := Z.of_nat m in
    (Z.lor (Z.shiftl i 2) (Z.shiftr j 4) =? i * 4 + j / 16)
    && (Z.lor (Z.shiftl i 4) (Z.shiftr j 2) =? i * 16 + j / 4)
    && (Z.lor (Z.shiftl i 6) j =? i * 64 + j)) (seq 0 64)) (seq 0 64) = true) as H by reflexivity.
  assert (∀ i j, 0 <= i < 64 → 0 <= j < 64 →
    Z.lor (Z.shiftl i 2) (Z.shiftr j 4) = i * 4 + j / 16
    ∧ Z.lor (Z.shiftl i 4) (Z.shiftr j 2) = i * 16 + j / 4
    ∧ Z.lor (Z.shiftl i 6) j = i * 64 + j) as E.
  { intros i j Hi Hj. rewrite forallb_forall in H. specialize (H (Z.to_nat i) ltac:(apply in_seq; lia)).
    rewrite forallb_forall in H. specialize (H (Z.to_nat j) ltac:(apply in_seq; lia)).
    cbv zeta in H. rewrite !Z2Nat.id in H by lia. lia. }
  unfold uu_group. f_equal. rewrite (proj1 (E c0 c1 H0 H1)), (proj1 (proj2 (E c1 c2 H1 H2))).
  by rewrite (proj2 (proj2 (E c2 c3 H2 H3))).
Qed.

Lemma uu_quad_group (n : Z) (a b c : byte) :
  match uu_quad a b c with
  | [q0; q1; q2; q3] => uu_group n (uu_val q0) (uu_val q1) (uu_val q2) (uu_val q3)
      = take (Z.to_nat n) [a; b; c]
  | _ => False
  end.
Proof.
  pose proof (bz_range a). pose proof (bz_range b). pose proof (bz_range c). cbn [uu_quad map].
  rewrite !uu_val_char by divlia. rewrite uu_group_sum by divlia.
  f_equal. repeat f_equal; apply u8_mod; divlia.
Qed.

(** One round of the data loop reads one group. *)
Lemma uu_line_quad (fuel : nat) (n : Z) (a b c : byte) (s : str) :
  0 < n →
  uu_line (S fuel) n (uu_quad a b c ++ s)
  = '(out, rest) ← uu_line fuel (n - len (take (Z.to_nat n) [a; b; c])) s;
    Ret (take (Z.to_nat n) [a; b; c] ++ out, rest).
Proof.
  intros Hn. pose proof (uu_quad_group n a b c) as H. unfold uu_quad in *. cbn [map] in *.
  revert H. generalize (uu_char (bz a / 4)) (uu_char (bz a mod 4 * 16 + bz b / 16))
    (uu_char (bz b mod 16 * 4 + bz c / 64)) (uu_char (bz c mod 64)). intros q0 q1 q2 q3 H.
  cbn [uu_line app]. replace (0 <? n) with true by lia.
  destruct (Z.ltb_spec 0 (len (q0 :: q1 :: q2 :: q3 :: s))); [|simpl in *; lia].
  replace (1 <? len (q0 :: q1 :: q2 :: q3 :: s)) with true by (simpl; lia).
  rewrite (at_ret _ 0 q0), (at_ret _ 1 q1), (at_ret _ 2 q2), (at_ret _ 3 q3) by done.
  cbn [mbind outcome_bind andb]. by rewrite H.
Qed.

Lemma uu_line_quads (fuel : nat) (d rest : str) :
  (length d ≤ fuel)%nat → uu_line fuel (len d) (uu_quads d ++ rest) = Ret (d, rest).
Proof.
  revert fuel. induction d as [d IH] using str_length_ind. intros fuel Hf.
  assert (∀ f, uu_line f 0 rest = Ret ([], rest)) as H0 by by intros [].
  destruct d as [|a [|b [|c d]]]; cbn [uu_quads]; [apply H0|..];
    (destruct fuel as [|fuel]; [simpl in Hf; lia|]).
  - rewrite uu_line_quad by done. simpl. by rewrite H0.
  - rewrite uu_line_quad by done. simpl. by rewrite H0.
  - rewrite <- app_assoc, uu_line_quad by (simpl; lia).
    rewrite take_ge by (simpl; lia).
    replace (len (a :: b :: c :: d) - len [a; b; c]) with (len d) by (simpl; lia).
    by rewrite IH by (simpl in *; lia).
Qed.

Lemma uu_skip (eol junk : str) (x : byte) (s : str) :
  eol = [LF] ∨ eol = crlf → no_eol junk → wsp x = false →
  drop_while wsp (drop_while (λ c, negb (eol_char c)) (junk ++ eol ++ x :: s)) = x :: s.
Proof.
  intros He Hj Hx. induction Hj as [|c junk [Hc Hl] Hj IH].
  - by destruct He as [-> | ->]; simpl; rewrite Hx.
  - cbn [app drop_while]. unfold eol_char at 1. apply beq_false in Hc, Hl. rewrite Hc, Hl. apply IH.
Qed.

(** One round of the outer loop, up to the length character [x]. *)
Lemma uu_loop_round (n : nat) (orig eol junk : str) (x : byte) (s out : str) :
  eol = [LF] ∨ eol = crlf → no_eol junk → wsp x = false → 32 <= bz x →
  uu_loop (S n) orig (junk ++ eol ++ x :: s) out
  = if uu_end (x :: s) then Ret out
    else '(o, rest) ← uu_line (length s) (Z.land (bz x - 32) 63) s; uu_loop n orig rest (out ++ o).
Proof.
  intros He Hj Hx Hb. cbn [uu_loop]. destruct (junk ++ eol ++ x :: s) eqn:E.
  { by destruct junk, He as [-> | ->]. }
  rewrite <- E, (uu_skip eol junk x s) by done. cbv zeta iota beta.
  replace (bz x <? 32) with false by lia. done.
Qed.

Lemma uu_char_length (n : Z) :
  0 < n < 64 → wsp (uu_char n) = false ∧ 32 <= bz (uu_char n) ∧ Z.land (bz (uu_char n) - 32) 63 = n
  ∧ uu_char n ≠ "e"%byte.
Proof.
  intros Hn. assert (forallb (λ k, let c := uu_char (Z.of_nat k) in
    negb (wsp c) && (32 <=? bz c) && (Z.land (bz c - 32) 63 =? Z.of_nat k) && negb (c =b "e"))
    (seq 1 63) = true) as H by reflexivity.
  rewrite forallb_forall in H. specialize (H (Z.to_nat n) ltac:(apply in_seq; lia)).
  cbv zeta in H. rewrite Z2Nat.id in H by lia. breflect. split_and!; [done | lia | lia | done].
Qed.

Lemma uu_end_other (x : byte) (s : str) : x ≠ "e"%byte → uu_end (x :: s) = false.
Proof. intros Hx%beq_false. destruct s as [|? []]; simpl; by rewrite ?Hx. Qed.

Lemma uu_quads_length (d : str) : (length d ≤ length (uu_quads d))%nat.
Proof.
  induction d as [d IH] using str_length_ind.
  destruct d as [|a [|b [|c d]]]; simpl; [lia..|]. specialize (IH d ltac:(simpl; lia)). lia.
Qed.

Lemma uu_loop_file (n : nat) (orig eol junk tail : str) (chunks : list str) (out : str) :
  eol = [LF] ∨ eol = crlf → no_eol junk →
  match tail with c :: _ => wsp c = true | [] => True end →
  Forall (λ d, (1 ≤ length d ≤ 63)%nat) chunks → (length chunks + 2 ≤ n)%nat →
  uu_loop n orig (junk ++ eol ++ concat (map (uu_encode_line eol) chunks)
    ++ "`"%byte :: eol ++ $"end" ++ tail) out = Ret (out ++ concat chunks).
Proof.
  intros He Hj Ht Hc. revert n junk out Hj.
  induction Hc as [|d chunks Hd Hc IH]; intros n junk out Hj Hn; simpl in Hn.
  - do 2 (destruct n as [|n]; [lia|]). cbn [map concat app].
    rewrite uu_loop_round, uu_end_other by done.
    change (Z.land (bz "`" - 32) 63) with 0.
    replace (uu_line _ 0 _) with (Ret (A:=str * str) ([], eol ++ $"end" ++ tail)) by by destruct He as [-> | ->].
    cbn [mbind outcome_bind]. rewrite app_nil_r.
    change (eol ++ $"end" ++ tail) with ([] ++ eol ++ "e"%byte :: ($"nd" ++ tail)).
    rewrite (uu_loop_round n orig eol []) by first [done | constructor].
    destruct tail as [|c tail]; cbn; [done|]. by rewrite Ht.
  - destruct n as [|n]; [lia|]. cbn [map concat]. unfold uu_encode_line at 1.
    destruct (uu_char_length (len d)) as (Hw & H32 & Hl & He'); [lia|].
    cbn [app]. rewrite uu_loop_round, uu_end_other by done.
    rewrite Hl, <- app_assoc, <- app_assoc, uu_line_quads.
    2:{ rewrite length_app. pose proof (uu_quads_length d). lia. }
    cbn [mbind outcome_bind]. rewrite (IH n []); [by rewrite <- app_assoc | constructor | lia].
Qed.

(** C28: [deUue] decodes a uuencoded file, with any header line,
    either line ending and any split of the contents into lines of 1 to 63
    bytes. *)
Theorem deUue_uuencode (header eol : str) (chunks : list str) (tail : str)
    (Hh : no_eol header) (He : eol = [LF] ∨ eol = crlf)
    (Hc : Forall (λ d, (1 ≤ length d ≤ 63)%nat) chunks)
    (Ht : match tail with c :: _ => wsp c = true | [] => True end) :
  deUue (uu_file header eol chunks tail) = Ret (concat chunks).
Proof.
  unfold deUue, uu_file. rewrite HasPrefix_refl.
  destruct (_ ==s _) eqn:E; [by apply str_eqb_true in E|].
  rewrite (app_assoc $"begin"). rewrite uu_loop_file; [done | done | | done | done |].
  - apply no_eol_app. split; [no_eol | done].
  - assert (length chunks ≤ length (concat (map (uu_encode_line eol) chunks)))%nat.
    { clear. induction chunks as [|d chunks IH]; simpl; [lia|]. rewrite length_app. lia. }
    rewrite !length_app. simpl. rewrite !length_app. simpl. lia.
Qed.

Lemma deUue_uuencode_witness :
  deUue (uu_file $" 644 x" crlf [$"hello "; $"world"] crlf) = Ret $"hello world".
Proof.
  apply (deUue_uuencode $" 644 x" crlf [$"hello "; $"world"] crlf);
    [no_eol | by right | repeat constructor | reflexivity].
Defined.

(** A data line that ends inside a group of four panics. *)
Theorem deUue_truncated : deUue ($"begin 644 x" ++ crlf ++ $"#86") = Panic.
Proof. reflexivity. Qed.

(** A body encoded with base 64 or quoted-printable, or left
    binary, decodes to itself. *)
Theorem decode_encodeCTE (s : str) (e : EncodingType) (n : Z) (He : e ≠ UuencodeEncoding) :
  (t ← encodeCTE s e n; decodeCTE t e) = Ret s.
Proof.
  destruct e; simpl; [| |done|done].
  - destruct (eQP_decodes s false (0 <? n)) as (out & -> & Hd & _). cbn. by rewrite Hd.
  - unfold de64, e64. by rewrite de64_e64_loop.
Qed.

Lemma decode_encodeCTE_witness :
  QPEncoding ≠ UuencodeEncoding
  ∧ (t ← encodeCTE $"a=b" QPEncoding 76; decodeCTE t QPEncoding) = Ret $"a=b".
Proof. split; [done|]. by apply decode_encodeCTE. Defined.
