(* ===== verification/Words.v ===== *)
(** * Encoded words: [decode] to [encodeWord] of [src/strings.go]

    RFC 2047 decoding of a whole encoded word ([de2047]) and the encoders for
    phrases and unstructured text.  Character sets are the work of the package
    github.com/paulrosania/go-charset, which is a parameter: the class
    [Charset] holds what the sources call of it. *)

From S2P Require Import Prelude GoStrings Strings Codec.
Open Scope Z_scope.

(** [cs_writer name] is what a writer made by [charset.NewWriter(name, buf)]
    appends to [buf] for one [Write], and whether the write succeeds; [None] is
    an error from [NewWriter].  [cs_reader name] is what [ioutil.ReadAll] gives
    on [charset.NewReader(name, r)]: the text, or [None] for a read error.
    [cs_info name] is the [Name] of [charset.Info(name)], or [None] for nil. *)
Class Charset := {
  cs_writer : str → option (str → str * bool);
  cs_reader : str → option (str → option str);
  cs_info : str → option str
}.

(** A concrete instance for evaluations: US-ASCII and UTF-8 pass bytes on,
    US-ASCII only those below 128. *)
Definition plain_charsets : Charset := {|
  cs_writer name :=
    if name ==s $"us-ascii" then Some (λ s, if ascii_str s then (s, true) else ([], false))
    else if name ==s $"utf-8" then Some (λ s, (s, true)) else None;
  cs_reader name :=
    if name ==s $"us-ascii" then Some (λ s, if ascii_str s then Some s else None)
    else if name ==s $"utf-8" then Some (λ s, Some s) else None;
  cs_info name := if (name ==s $"us-ascii") || (name ==s $"utf-8") then Some name else None
|}.

Section Words.
Context {CS : Charset}.

(** The text, and whether the returned error is nil. *)
Definition decode (s enc : str) : str * bool :=
  match cs_writer enc with
  | None => ([], false)
  | Some write => write s
  end.

(** The [switch s[es]] of [de2047]; [None] is the default case. *)
Definition de2047_text (c : byte) (encoded : str) : option str :=
  if (c =b "Q") || (c =b "q") then Some (deQP encoded true)
  else if (c =b "B") || (c =b "b") then Some (de64 encoded)
  else None.

Definition de2047 (s : str) : outcome str :=
  if negb (HasPrefix s $"=?") || negb (HasSuffix s $"?=") then Ret []
  else
    let cs := 2 in
    let ce := IndexByte (drop 2 s) "*" in
    let ce := if 0 <=? ce then ce + 2 else ce in
    let es := IndexByte (drop 2 s) "?" + 1 in
    let es := if 1 <=? es then es + 2 else es in
    if es <? cs then Ret []
    else
      let ce := if ce <? cs then es else ce in
      let ce := if es <=? ce then es - 1 else ce in
      q ← at_ s (es + 1);
      if negb (q =b "?") then Ret []
      else
        encoded ← slice s (es + 2) (len s - 2);
        c ← at_ s es;
        match de2047_text c encoded with
        | None => Ret []
        | Some decoded =>
            enc ← slice s cs ce;
            match cs_writer enc with
            | Some write => Ret (fst (write decoded))
            | None =>
                if negb (snd (decode decoded $"us-ascii")) then Ret []
                else match cs_writer $"us-ascii" with
                     | None => Panic
                     | Some write => Ret (fst (write decoded))
                     end
            end
        end.

Definition encodeWord (w : str) : str := if w ==s [] then [] else w.

(** [isAscii(w) && isBoring(ascii(w), TotallyBoring)] *)
Definition plain_word (w : str) : bool := isAscii w && isBoring (ascii w) TotallyBoring.

(** How many words the inner loop of [encodePhrase] passes over. *)
Fixpoint exciting_run (ws : list str) : nat :=
  match ws with
  | w :: ws' => if plain_word w then O else S (exciting_run ws')
  | [] => O
  end.

(** The loop of [encodePhrase] from word [i] on. *)
Fixpoint encode_phrase_loop (n : nat) (words : list str) (i : nat) (buf : str) : outcome str :=
  match words !! i with
  | None => Ret buf
  | Some w =>
      match n with
      | O => OutOfFuel
      | S n' =>
          let buf := if Nat.ltb 0 i then buf ++ [SP] else buf in
          if plain_word w then encode_phrase_loop n' words (S i) (buf ++ ascii w)
          else
            let i := (i + exciting_run (drop i words))%nat in
            match words !! i with
            | None => Panic
            | Some w => encode_phrase_loop n' words (S i) (buf ++ encodeWord w)
            end
      end
  end.

Definition encodePhrase (s : str) : outcome str :=
  s ← simplify s;
  let words := Split s [SP] in
  encode_phrase_loop (length words) words 0 [].

(** The longest prefix of words with [isAscii w = b], and the words after it. *)
Fixpoint ascii_run (b : bool) (ws : list str) : list str * list str :=
  match ws with
  | w :: ws' =>
      if Bool.eqb (isAscii w) b then let '(l, r) := ascii_run b ws' in (w :: l, r)
      else ([], ws)
  | [] => ([], [])
  end.

(** One round of the loop of [encodeText] takes a run of words that are not
    ASCII, a run of words that are, and steps past one more word. *)
Fixpoint encode_text_loop (n : nat) (ws r : list str) : outcome (list str) :=
  match ws with
  | [] => Ret r
  | _ :: _ =>
      match n with
      | O => OutOfFuel
      | S n' =>
          let '(l, ws) := ascii_run false ws in
          let r := match l with [] => r | _ => r ++ [encodeWord (Join l [SP])] end in
          let '(a, ws) := ascii_run true ws in
          encode_text_loop n' (drop 1 ws) (r ++ a)
      end
  end.

Definition encodeText (s : str) : outcome str :=
  let ws := Split s [SP] in
  r ← encode_text_loop (length ws) ws [];
  Ret (Join r [SP]).
End Words.
