(* ===== verification/WordsFacts.v ===== *)
(** * Theorems on encoded words: [Words]

    [de2047] against the RFC 2047 form of an encoded word, the round trips
    through both encodings, and what [encodePhrase] and [encodeText] keep. *)

From S2P Require Import Prelude GoStrings Strings StringsFacts Codec CodecFacts Words.
Open Scope Z_scope.

(** ** Decoding *)

Section De2047.
Context {CS : Charset}.

(** What [de2047] does with the decoded bytes. *)
Definition convert_text (enc decoded : str) : outcome str :=
  match cs_writer enc with
  | Some write => Ret (fst (write decoded))
  | None =>
      if negb (snd (decode decoded $"us-ascii")) then Ret []
      else match cs_writer $"us-ascii" with
           | None => Panic
           | Some write => Ret (fst (write decoded))
           end
  end.

(** An encoded word, with an optional RFC 2231 language. *)
Definition encoded_word (cs lang : str) (c : byte) (t : str) : str :=
  $"=?" ++ cs ++ lang ++ "?"%byte :: c :: "?"%byte :: t ++ $"?=".

Definition is_lang (l : str) : Prop := l = [] ∨ ∃ l', l = "*"%byte :: l'.

Lemma charset_end (cs lang rest : str) (k : Z) :
  "*"%byte ∉ cs → is_lang lang → k = len (cs ++ lang) →
  let i := IndexByte (cs ++ lang ++ "?"%byte :: rest) "*" in
  (if k + 3 <=? (if (if 0 <=? i then i + 2 else i) <? 2 then k + 3
                 else if 0 <=? i then i + 2 else i)
   then k + 3 - 1
   else if (if 0 <=? i then i + 2 else i) <? 2 then k + 3 else if 0 <=? i then i + 2 else i)
  = len cs + 2.
Proof.
  intros Hcs [-> | [l ->]] Hk i.
  - rewrite app_nil_r in Hk. cbn [app] in i.
    assert (i < 0 ∨ k < i) as Hi.
    { destruct (decide (i < 0)) as [|Hn]; [by left|right].
      destruct (Index_found _ _ i eq_refl ltac:(lia)) as (a & b & E & Ha & _).
      destruct (decide (len a <= k)) as [Hle|]; [|lia]. exfalso.
      assert ("*"%byte ∈ cs ++ ["?"%byte]) as [|[=]%list_elem_of_singleton]%elem_of_app; [|done].
      apply list_elem_of_lookup_2 with (length a).
      replace (cs ++ "?"%byte :: rest) with ((cs ++ ["?"%byte]) ++ rest) in E by by rewrite <- app_assoc.
      rewrite <- (lookup_app_l (cs ++ ["?"%byte]) rest) by (rewrite length_app; simpl; lia).
      rewrite E, lookup_app_r, Nat.sub_diag by lia. done. }
    repeat case_if; lia.
  - assert (i = len cs) as -> by (apply Index_byte_first; done).
    rewrite length_app in Hk. simpl in Hk. replace (0 <=? len cs) with true by lia.
    replace (len cs + 2 <? 2) with false by lia. case_if; lia.
Qed.

Lemma de2047_encoded_word (cs lang t : str) (c : byte) :
  "?"%byte ∉ cs ++ lang → "*"%byte ∉ cs → is_lang lang →
  de2047 (encoded_word cs lang c t)
  = match de2047_text c t with None => Ret [] | Some decoded => convert_text cs decoded end.
Proof.
  intros Hq Hcs Hl. unfold de2047.
  set (s := encoded_word cs lang c t). set (k := len (cs ++ lang)).
  assert (k = len cs + len lang) as Hk by (unfold k; rewrite length_app; lia).
  assert (HasPrefix s $"=?" = true) as -> by apply HasPrefix_refl.
  assert (HasSuffix s $"?=" = true) as ->.
  { apply HasSuffix_app. exists ($"=?" ++ cs ++ lang ++ "?"%byte :: c :: "?"%byte :: t).
    unfold s, encoded_word. by rewrite <- !app_assoc. }
  assert (drop 2 s = cs ++ lang ++ "?"%byte :: c :: "?"%byte :: t ++ $"?=") as Hd by done.
  assert (IndexByte (drop 2 s) "?" = k) as ->.
  { rewrite Hd, app_assoc. by apply Index_byte_first. }
  assert (len s = k + 7 + len t) as Hlen.
  { unfold s, encoded_word, k. rewrite !length_app. simpl. rewrite length_app. simpl. lia. }
  pose proof (charset_end cs lang (c :: "?"%byte :: t ++ $"?=") k Hcs Hl eq_refl) as Hce.
  cbv zeta in Hce. rewrite <- Hd in Hce.
  cbn [negb orb]. destruct (Z.leb_spec 1 (k + 1)); [|lia].
  replace (k + 1 + 2) with (k + 3) by lia. destruct (Z.ltb_spec (k + 3) 2); [lia|].
  rewrite Hce.
  assert (at_ s (k + 3 + 1) = Ret "?"%byte) as ->.
  { replace s with (($"=?" ++ (cs ++ lang) ++ ["?"%byte; c]) ++ "?"%byte :: (t ++ $"?="))
      by (unfold s, encoded_word; by rewrite <- !app_assoc).
    apply at_app. rewrite !length_app. simpl. lia. }
  assert (slice s (k + 3 + 2) (len s - 2) = Ret t) as ->.
  { replace s with (($"=?" ++ (cs ++ lang) ++ ["?"%byte; c; "?"%byte]) ++ t ++ $"?=")
      by (unfold s, encoded_word; by rewrite <- !app_assoc).
    apply slice_app; rewrite !length_app; simpl; lia. }
  assert (at_ s (k + 3) = Ret c) as ->.
  { replace s with (($"=?" ++ (cs ++ lang) ++ ["?"%byte]) ++ c :: ("?"%byte :: t ++ $"?="))
      by (unfold s, encoded_word; by rewrite <- !app_assoc).
    apply at_app. rewrite !length_app. simpl. lia. }
  assert (slice s 2 (len cs + 2) = Ret cs) as -> by (apply (slice_app $"=?"); simpl; lia).
  done.
Qed.

(** C24: an RFC 2047 encoded word whose text was made by [eQP]
    (its encoded-word variant) or by [e64] decodes to the original bytes,
    converted by the named character set; a language tag is ignored. *)
Theorem de2047_roundtrip (cs lang s : str) (write : str → str * bool)
    (Hq : "?"%byte ∉ cs ++ lang) (Hcs : "*"%byte ∉ cs) (Hl : is_lang lang)
    (Hw : cs_writer cs = Some write) :
  (t ← eQP s true false; de2047 (encoded_word cs lang "Q" t)) = Ret (fst (write s))
  ∧ de2047 (encoded_word cs lang "B" (e64 s 0)) = Ret (fst (write s)).
Proof.
  destruct (eQP_decodes s true false) as (t & -> & Ht & _). cbn [mbind outcome_bind].
  rewrite !de2047_encoded_word by done. unfold convert_text. simpl.
  rewrite Hw, Ht. unfold de64, e64. by rewrite de64_e64_loop.
Qed.
End De2047.

Lemma de2047_roundtrip_witness :
  de2047 (CS := plain_charsets) (encoded_word $"utf-8" $"*en" "B" (e64 $"caf" 0)) = Ret $"caf".
Proof.
  apply (de2047_roundtrip (CS := plain_charsets) $"utf-8" $"*en" $"caf" (λ s, (s, true)));
    [apply (bool_decide_unpack _); vm_compute; exact I .. | right; by eexists | reflexivity].
Defined.

(** A string that looks like an encoded word but has a single
    question mark inside makes [de2047] read past its end. *)
Theorem de2047_panics (CS : Charset) : de2047 $"=?x?=" = Panic.
Proof. reflexivity. Qed.

(** ** Splitting *)

Lemma split_fuel_nonempty n s sep : split_fuel n s sep ≠ [].
Proof. destruct n; simpl; [done|]. by case_if. Qed.

Lemma Join_Split (s sep : str) : Join (Split s sep) sep = s.
Proof.
  unfold Split. generalize (length s) as n. intros n. revert s.
  induction n as [|n IH]; intros s; cbn [split_fuel]; [done|].
  destruct (Z.ltb_spec (Index s sep) 0); [done|].
  rewrite Join_cons by apply split_fuel_nonempty. rewrite IH.
  destruct (Index_found s sep _ eq_refl ltac:(done)) as (a & b & -> & -> & _).
  rewrite Nat2Z.id, take_app_length, <- length_app, (app_assoc a sep b), drop_app_length.
  by rewrite <- app_assoc.
Qed.

Lemma Split_Forall (P : byte → bool) (s sep : str) :
  forallb P s = true → Forall (λ w, forallb P w = true) (Split s sep).
Proof.
  unfold Split. generalize (length s) as n. intros n. revert s.
  induction n as [|n IH]; intros s Hs; cbn [split_fuel]; [by repeat constructor|].
  case_if; [by repeat constructor|]. rewrite forallb_Forall in Hs. constructor.
  - apply forallb_Forall. by apply Forall_take.
  - apply IH, forallb_Forall. by apply Forall_drop.
Qed.

(** ** Unstructured text *)

Lemma ascii_run_length b ws : (length (snd (ascii_run b ws)) ≤ length ws)%nat.
Proof.
  induction ws as [|w ws IH]; simpl; [done|].
  case_if; [|done]. destruct (ascii_run b ws) as [l r]. simpl in *. lia.
Qed.

Lemma ascii_run_head b w ws :
  isAscii w = b → (length (snd (ascii_run b (w :: ws))) ≤ length ws)%nat.
Proof.
  intros Hw. pose proof (ascii_run_length b ws). simpl. rewrite Hw, eqb_reflx.
  by destruct (ascii_run b ws).
Qed.

Lemma encode_text_loop_returns n ws r :
  (length ws ≤ n)%nat → returns (encode_text_loop n ws r).
Proof.
  revert ws r. induction n as [|n IH]; intros ws r Hn; (destruct ws as [|w ws]; [by eexists|]).
  { simpl in Hn. lia. }
  cbn [encode_text_loop].
  assert (length (drop 1 (snd (ascii_run true (snd (ascii_run false (w :: ws)))))) ≤ length ws)%nat.
  { rewrite length_drop. destruct (isAscii w) eqn:Hw.
    - pose proof (ascii_run_head true w ws Hw).
      replace (ascii_run false (w :: ws)) with (@nil str, w :: ws) by (simpl; by rewrite Hw).
      simpl in *. lia.
    - pose proof (ascii_run_head false w ws Hw).
      pose proof (ascii_run_length true (snd (ascii_run false (w :: ws)))). lia. }
  destruct (ascii_run false (w :: ws)) as [l ws1]. simpl in H.
  destruct (ascii_run true ws1) as [a ws2]. simpl in H. apply IH. simpl in Hn. lia.
Qed.

Lemma ascii_run_all ws : Forall (λ w, isAscii w = true) ws → ascii_run true ws = (ws, []).
Proof. induction 1 as [|w ws Hw H IH]; simpl; [done|]. by rewrite Hw, IH. Qed.

(** [encodeText] always returns, and returns ASCII text
    unchanged. *)
Theorem encodeText_ascii (s : str) :
  returns (encodeText s) ∧ (isAscii s = true → encodeText s = Ret s).
Proof.
  unfold encodeText. split.
  - destruct (encode_text_loop_returns (length (Split s [SP])) (Split s [SP]) [] ltac:(done)) as [r ->].
    by eexists.
  - intros Hs. pose proof (Split_Forall _ s [SP] Hs) as Hw.
    assert (encode_text_loop (length (Split s [SP])) (Split s [SP]) [] = Ret (Split s [SP])) as ->.
    { pose proof (split_fuel_nonempty (length s) s [SP]) as Hne. fold (Split s [SP]) in Hne.
      destruct (Split s [SP]) as [|w ws] eqn:E; [done|]. cbn [length encode_text_loop].
      replace (ascii_run false (w :: ws)) with (@nil str, w :: ws).
      2:{ inversion Hw as [|? ? H1 H2]; subst. simpl. unfold isAscii at 1. by rewrite H1. }
      rewrite ascii_run_all by done. cbn [app drop]. by destruct (length ws). }
    cbn [mbind outcome_bind]. by rewrite Join_Split.
Qed.

(** The word after a run of ASCII words is lost when
    it is not ASCII. *)
Theorem encodeText_drops_word :
  encodeText ($"a " ++ [xc3; xa9] ++ $" b") = Ret $"a b".
Proof. reflexivity. Qed.

(** ** Phrases *)

Lemma plain_word_ascii w : plain_word w = true → ascii w = w.
Proof.
  unfold plain_word, isBoring. intros [_ H]%andb_true_iff.
  case_if_in H; [done|]. unfold ascii in *. clear Heqb.
  induction w as [|c w IH]; simpl in *; [done|]. apply andb_true_iff in H as [Hc Hw].
  rewrite IH by done. f_equal. revert Hc. clear. revert c. by intros [].
Qed.

Lemma exciting_run_spec ws :
  match ws !! exciting_run ws with
  | Some w => plain_word w = true
  | None => Forall (λ w, plain_word w = false) ws
  end.
Proof.
  induction ws as [|w ws IH]; simpl; [done|].
  destruct (plain_word w) eqn:Hw; simpl; [done|].
  destruct (ws !! exciting_run ws); [done|]. by constructor.
Qed.

Lemma encode_phrase_loop_last n words i buf x :
  last words = Some x → (i < length words)%nat → (length words - i ≤ n)%nat →
  if plain_word x then returns (encode_phrase_loop n words i buf)
  else encode_phrase_loop n words i buf = Panic.
Proof.
  intros Hx. revert i buf. induction n as [|n IH]; intros i buf Hi Hn; [lia|].
  assert (∀ j b, (j < length words)%nat → (i ≤ j)%nat →
    (∃ w, words !! j = Some w ∧ plain_word w = true) →
    if plain_word x then returns (encode_phrase_loop n words (S j) b)
    else encode_phrase_loop n words (S j) b = Panic) as Hstep.
  { intros j b Hj Hij (w & Hw & Hp). destruct (decide (S j < length words)%nat); [apply IH; lia|].
    rewrite last_lookup in Hx. replace (pred (length words)) with j in Hx by lia.
    replace x with w by congruence. rewrite Hp. exists b.
    by destruct n; simpl; rewrite lookup_ge_None_2 by lia. }
  cbn [encode_phrase_loop]. destruct (lookup_lt_is_Some_2 words i Hi) as [w Hw]. rewrite Hw.
  destruct (plain_word w) eqn:Hp; [apply Hstep; eauto|].
  pose proof (exciting_run_spec (drop i words)) as Hr. rewrite lookup_drop in Hr.
  destruct (words !! (i + exciting_run (drop i words))%nat) as [y|] eqn:Hy.
  - apply lookup_lt_Some in Hy as Hlt. apply Hstep; [done | lia | eauto].
  - rewrite last_lookup in Hx. rewrite Forall_lookup in Hr.
    rewrite (Hr (pred (length words) - i)%nat x); [done|].
    rewrite lookup_drop. by replace (i + _)%nat with (pred (length words)) by lia.
Qed.

Lemma encode_phrase_loop_ends n words i buf :
  (length words ≤ i + n)%nat → ends (encode_phrase_loop n words i buf).
Proof.
  revert i buf. induction n as [|n IH]; intros i buf Hn; cbn [encode_phrase_loop];
    (destruct (words !! i) eqn:E; [|done]); apply lookup_lt_Some in E; [lia|].
  case_if; [apply IH; lia|]. case_match; [apply IH; lia | done].
Qed.

Lemma exciting_run_split ws x :
  last ws = Some x → plain_word x = true →
  ∃ a y b, ws = a ++ y :: b ∧ length a = exciting_run ws ∧ List.filter plain_word a = [] ∧ plain_word y = true.
Proof.
  induction ws as [|w ws IH]; intros Hl Hx; [done|]. destruct (plain_word w) eqn:Hw.
  { exists [], w, ws. cbn [exciting_run]. by rewrite Hw. }
  destruct ws as [|v ws]; [simpl in Hl; congruence|].
  destruct (IH Hl Hx) as (a & y & b & E & Hr & Ha & Hy). exists (w :: a), y, b. rewrite E in *.
  split_and!; [done | | cbn [List.filter]; by rewrite Hw | done]. cbn [exciting_run length]. by rewrite Hw, Hr.
Qed.

Lemma filter_last_plain (suf : list str) x :
  last suf = Some x → plain_word x = true → List.filter plain_word suf ≠ [].
Proof.
  intros Hl Hx E. assert (x ∈ suf) as Hin by (apply list_elem_of_lookup; eexists; by rewrite <- last_lookup).
  assert (In x (List.filter plain_word suf)) as Hf by (apply filter_In; split; [by apply list_elem_of_In | done]).
  by rewrite E in Hf.
Qed.

(** The words that need no encoding are kept, the others are dropped. *)
Lemma encode_phrase_loop_keeps n pre suf buf x :
  last suf = Some x → plain_word x = true → (length suf ≤ n)%nat →
  encode_phrase_loop n (pre ++ suf) (length pre) buf
  = Ret (buf ++ (if Nat.ltb 0 (length pre) then [SP] else []) ++ Join (List.filter plain_word suf) [SP]).
Proof.
  revert pre suf buf. induction n as [|n IH]; intros pre suf buf Hl Hx Hn; (destruct suf as [|w suf]; [done|]);
    [simpl in Hn; lia|].
  cbn [encode_phrase_loop]. rewrite list_lookup_middle, drop_app_length by done.
  set (b := if Nat.ltb 0 (length pre) then buf ++ [SP] else buf).
  assert (∀ a y t, w :: suf = a ++ y :: t → List.filter plain_word a = [] → plain_word y = true →
    encode_phrase_loop n (pre ++ w :: suf) (S (length pre + length a)) (b ++ y)
    = Ret (b ++ Join (List.filter plain_word (w :: suf)) [SP])) as Hstep.
  { intros a y t E Ha Hy. rewrite E in *. clear E w suf. rewrite List.filter_app, Ha. cbn [app List.filter]. rewrite Hy.
    replace (pre ++ a ++ y :: t) with ((pre ++ a ++ [y]) ++ t) by by rewrite <- !app_assoc.
    replace (S (length pre + length a)) with (length (pre ++ a ++ [y])) by (rewrite !length_app; simpl; lia).
    destruct t as [|z t].
    - cbn [List.filter Join]. destruct n; cbn [encode_phrase_loop]; by rewrite app_nil_r, lookup_ge_None_2.
    - assert (last (z :: t) = Some x) as Hl'.
      { rewrite last_app, last_cons_cons in Hl. destruct (last (z :: t)) eqn:El; [done|]. by apply last_None in El. }
      rewrite IH; [|done | done | rewrite length_app in Hn; simpl in *; lia].
      rewrite Join_cons by (by eapply filter_last_plain).
      replace (Nat.ltb 0 _) with true by (symmetry; apply Nat.ltb_lt; rewrite !length_app; simpl; lia).
      by rewrite <- !app_assoc. }
  assert (buf ++ (if Nat.ltb 0 (length pre) then [SP] else []) = b) as Hb by (unfold b; case_if; by rewrite ?app_nil_r).
  rewrite (app_assoc buf), Hb. destruct (plain_word w) eqn:Hw.
  - rewrite plain_word_ascii by done. rewrite <- (Hstep [] w suf) by done. by rewrite Nat.add_0_r.
  - destruct (exciting_run_split _ _ Hl Hx) as (a & y & t & E & Hr & Ha & Hy). rewrite <- Hr.
    replace ((pre ++ w :: suf) !! (length pre + length a)%nat) with (Some y).
    2:{ rewrite E, lookup_app_r by lia. symmetry. apply list_lookup_middle. lia. }
    rewrite <- (Hstep a y t) by done. by destruct y.
Qed.

(** C36: what [encodePhrase] makes of a phrase that [simplify] turns into
    [r].  If the last word is an ASCII word of unremarkable characters, the result is
    all such words, joined by spaces, and every other word is dropped; if the last
    word is another one (the empty phrase included), it panics. *)
Theorem encodePhrase_spec (s r x : str)
    (Hs : simplify s = Ret r) (Hx : last (Split r [SP]) = Some x) :
  encodePhrase s
  = if plain_word x then Ret (Join (List.filter plain_word (Split r [SP])) [SP]) else Panic.
Proof.
  unfold encodePhrase. rewrite Hs. cbn [mbind outcome_bind]. destruct (plain_word x) eqn:Hp.
  - by apply (encode_phrase_loop_keeps _ [] _ [] x).
  - assert (0 < length (Split r [SP]))%nat by (destruct (Split r [SP]); simpl; [done | lia]).
    pose proof (encode_phrase_loop_last (length (Split r [SP])) _ 0 [] x Hx ltac:(lia) ltac:(lia)) as H1.
    by rewrite Hp in H1.
Qed.

Lemma encodePhrase_spec_witness :
  encodePhrase $"Joe Q. Public" = Ret $"Joe Public" ∧ encodePhrase $"Joe Q." = Panic.
Proof.
  split.
  - exact (encodePhrase_spec $"Joe Q. Public" $"Joe Q. Public" $"Public" eq_refl eq_refl).
  - exact (encodePhrase_spec $"Joe Q." $"Joe Q." $"Q." eq_refl eq_refl).
Defined.
