(* ===== verification/Parser.v ===== *)
(** * The RFC 822 token parser: [src/parser.go]

    The state of a [parser] is its input, its cursor and the stack of saved
    states [mark] makes.  The operations are actions of a state monad over
    [outcome]; a loop whose body is one test and one step is [scan], the others
    recurse on fuel, one more than the bytes of the input, since each round
    moves the cursor forward before the end of the input. *)

From S2P Require Import Prelude GoStrings Strings Codec Words.
Open Scope Z_scope.

Inductive EncodedTextType := EncodedText | EncodedComment | EncodedPhrase.

#[global] Instance EncodedTextType_eq_dec : EqDecision EncodedTextType.
Proof. solve_decision. Defined.

(** The errors the parser records; the source formats each as a message. *)
Inductive parse_error :=
| Expected (s got : str)
| TrailingDot
| UnknownEncoding (c : byte)
| UnknownCharset (cs : str)
| ReadError.

(** [parserState] without its links: position and error. *)
Record parserState := { st_at : nat; st_err : option parse_error }.

(** [p_state] is the current state and [p_next] the chain of its [next]
    pointers, so the [mark] of a state is the length of the chain from it. *)
Record parser := {
  p_str : str;
  p_state : parserState;
  p_next : list parserState;
  p_mime : bool;
  p_lc : str
}.

Definition newParser (s : str) : parser :=
  {| p_str := s; p_state := {| st_at := 0; st_err := None |}; p_next := [];
     p_mime := false; p_lc := [] |}.

(** ** The state monad *)

Abbreviation parse := (state_m parser).

Definition set_state (st : parserState) (p : parser) : parser :=
  {| p_str := p_str p; p_state := st; p_next := p_next p; p_mime := p_mime p; p_lc := p_lc p |}.
Definition set_lc (lc : str) (p : parser) : parser :=
  {| p_str := p_str p; p_state := p_state p; p_next := p_next p; p_mime := p_mime p; p_lc := lc |}.
Definition p_at (p : parser) : nat := st_at (p_state p).
Definition p_err (p : parser) : option parse_error := st_err (p_state p).

(** ** Cursor *)

(** [p.str[p.at:]], or nothing when the cursor is past the end. *)
Definition rest (p : parser) : str := drop (p_at p) (p_str p).

Definition Pos : parse nat := gets p_at.
Definition AtEnd : parse bool := gets (λ p, Nat.leb (length (p_str p)) (p_at p)).
Definition NextChar : parse byte :=
  gets (λ p, match p_str p !! p_at p with Some c => c | None => x00 end).
Definition step_by (n : nat) (p : parser) : parser :=
  set_state {| st_at := p_at p + n; st_err := p_err p |} p.
Definition Step (n : nat) : parse unit := modify (step_by n).
Definition Valid : parse bool := gets (λ p, match p_err p with None => true | Some _ => false end).
Definition set_err (e : parse_error) : parse unit :=
  modify (λ p, set_state {| st_at := p_at p; st_err := Some e |} p).

(** [for c := p.NextChar(); ok(c); c = p.NextChar() { out.WriteByte(c); p.Step(1) }]
    for a test [ok] that is false of 0, the value past the end. *)
Definition scan (ok : byte → bool) : parse str :=
  w ← gets (λ p, take_while ok (rest p));
  _ ← Step (length w);
  mret w.

(** ** Marks *)

Definition newParserState (p : parser) : parserState :=
  {| st_at := p_at p; st_err := None |}.

Definition mark : parse nat :=
  _ ← modify (λ p, {| p_str := p_str p; p_state := newParserState p;
                      p_next := p_state p :: p_next p; p_mime := p_mime p; p_lc := p_lc p |});
  gets (λ p, length (p_next p)).

(** The walk of [restore] along the chain [st :: next]. *)
Fixpoint find_mark (st : parserState) (next : list parserState) (m : nat) :
    option (parserState * list parserState) :=
  if Nat.eqb (S (length next)) m then Some (st, next)
  else match next with
       | st' :: next' => find_mark st' next' m
       | [] => None
       end.

Definition restore_to (m : nat) (p : parser) : parser :=
  match find_mark (p_state p) (p_next p) m with
  | Some (st, next) =>
      {| p_str := p_str p; p_state := st; p_next := next; p_mime := p_mime p; p_lc := p_lc p |}
  | None => p
  end.

Definition restore (m : nat) : parse unit := modify (restore_to m).

(** ** Tokens *)

Definition isAtext (c : byte) : bool :=
  if (bz c <? 32) || (127 <? bz c) then false
  else is_alnum c || one_of (SQUOTE :: $"!#$%&*+-/=?^_`{|}~") c.

(** The white space [Whitespace] skips: also 160, a no-break space. *)
Definition skip_char (c : byte) : bool :=
  (c =b SP) || (c =b HT) || (c =b LF) || (c =b CR) || (c =b xa0).

Definition Whitespace : parse str := scan skip_char.

Definition fuel : parse nat := gets (λ p, S (length (p_str p))).

Section Parser.
Context {U : UnicodeCase} {CS : Charset}.

Definition Present (s : str) : parse bool :=
  if s ==s [] then mret true
  else
    e ← gets (λ p, Nat.ltb (length (p_str p)) (p_at p + length s));
    if (e : bool) then mret false
    else
      l ← gets (λ p, ToLower (take (length s) (rest p)));
      if negb (l ==s ToLower s) then mret false
      else _ ← Step (length s); mret true.

Definition following : parse str :=
  e ← AtEnd;
  if (e : bool) then mret []
  else
    f ← gets rest;
    lift (simplify (if Nat.ltb 15 (length f) then take 15 f else f)).

Definition require (s : str) : parse unit :=
  b ← Present s;
  if (b : bool) then mret tt else f ← following; set_err (Expected s f).

(** The body of a comment from the cursor on, at nesting depth [level]: what
    goes into the buffer, and how far the cursor moves.  A backslash at the end
    of the input moves it past the end. *)
Fixpoint comment_body (s : str) (level : nat) : str * nat :=
  match level, s with
  | S l, c :: s' =>
      if c =b "(" then
        let '(b, n) := comment_body s' (S level) in (c :: b, S n)
      else if c =b ")" then
        let '(b, n) := comment_body s' l in (if Nat.eqb l 0 then b else c :: b, S n)
      else if c =b BACKSLASH then
        match s' with
        | d :: s'' => let '(b, n) := comment_body s'' level in (d :: b, S (S n))
        | [] => ([x00], 2%nat)
        end
      else let '(b, n) := comment_body s' level in (c :: b, S n)
  | _, _ => ([], 0%nat)
  end.

Fixpoint comment_loop (n : nat) (buf : str) : parse str :=
  b ← Present $"(";
  if (b : bool) then
    match n with
    | O => out_of_fuel
    | S n' =>
        '(buf, k) ← gets (λ p, comment_body (rest p) 1);
        _ ← Step k;
        _ ← Whitespace;
        _ ← modify (set_lc buf);
        comment_loop n' buf
    end
  else mret buf.

Definition Comment : parse str :=
  _ ← Whitespace;
  n ← fuel;
  comment_loop n [].

Definition Atom : parse str :=
  _ ← Comment;
  scan isAtext.

(** The loop of [String], after the opening quote. *)
Fixpoint string_loop (n : nat) (buf : str) : parse str :=
  e ← AtEnd;
  if (e : bool) then mret buf
  else match n with
  | O => out_of_fuel
  | S n' =>
      c ← NextChar;
      _ ← Step 1;
      if c =b DQUOTE then mret buf
      else if c =b BACKSLASH then
        d ← NextChar;
        _ ← Step 1;
        string_loop n' (buf ++ [d])
      else if wsp c then
        i ← Pos;
        _ ← Whitespace;
        j ← Pos;
        s ← gets p_str;
        t ← lift (slice s (Z.of_nat i - 1) (Z.of_nat j));
        string_loop n' (buf ++ if ContainsAny t [CR; LF] then [SP] else t)
      else string_loop n' (buf ++ [c])
  end.

Definition String : parse str :=
  _ ← Comment;
  c ← NextChar;
  if negb (c =b DQUOTE) then Atom
  else
    _ ← Step 1;
    n ← fuel;
    string_loop n [].

Fixpoint dot_atom_loop (n : nat) (result : str) : parse str :=
  match n with
  | O => out_of_fuel
  | S n' =>
      m ← mark;
      _ ← Comment;
      _ ← require $".";
      _ ← Comment;
      a ← Atom;
      _ ← (if a ==s [] then set_err TrailingDot else mret tt);
      v ← Valid;
      if (v : bool) then dot_atom_loop n' (result ++ $"." ++ a)
      else _ ← restore m; mret result
  end.

Definition DotAtom : parse str :=
  result ← Atom;
  if result ==s [] then mret []
  else n ← fuel; dot_atom_loop n result.

Definition token_char (c : byte) : bool :=
  (32 <? bz c) && (bz c <? 128) && negb (one_of (DQUOTE :: BACKSLASH :: $"()<>@,;:[]?=/") c).

Definition MIMEToken : parse str :=
  _ ← Comment;
  scan token_char.

Definition MIMEValue : parse str :=
  _ ← Comment;
  c ← NextChar;
  if c =b DQUOTE then String else MIMEToken.

(** ** Encoded words *)

Definition charset_char (c : byte) : bool := token_char c && negb (c =b ".").

Definition base64_char (c : byte) : bool :=
  is_digit c || is_lower c || is_upper c || (c =b "+") || (c =b "/") || (c =b "=").

Definition qp_char (t : EncodedTextType) (c : byte) : bool :=
  (32 <? bz c) && (bz c <? 128) && negb (c =b "?")
  && (negb (bool_decide (t = EncodedComment)) || negb (one_of (BACKSLASH :: $"()") c))
  && (negb (bool_decide (t = EncodedPhrase))
      || is_digit c || is_lower c || is_upper c || one_of (SQUOTE :: $"!*-/=_.") c).

(** The loop that interprets backspaces: [i] is where the next search starts. *)
Fixpoint backspaces (n : nat) (result : str) (i : Z) : outcome str :=
  if i <? 0 then Ret result
  else match n with
  | O => OutOfFuel
  | S n' =>
      t ← from_ result i;
      let i := IndexByte t x08 in
      if 0 <=? i then
        s ← from_ result (i + 1);
        if 1 <? i then
          r ← upto result (i - 1);
          backspaces n' (r ++ s) i
        else backspaces n' s i
      else backspaces n' result i
  end.

(** From the decoded text to the result of [encodedWord]. *)
Definition encoded_result (result : str) : outcome str :=
  result ← (if ContainsAny result [CR; LF] then simplify result else Ret result);
  if 0 <=? IndexByte result x08 then backspaces (S (S (length result))) result 0
  else Ret result.

(** The end of [encodedWord], once the word has been read. *)
Definition convert_word (m : nat) (cs text : str) : parse str :=
  match cs_reader cs with
  | None => _ ← set_err (UnknownCharset cs); _ ← restore m; mret []
  | Some read =>
      match read text with
      | None => _ ← set_err ReadError; _ ← restore m; mret []
      | Some result => lift (encoded_result result)
      end
  end.

Definition encodedWord (t : EncodedTextType) : parse str :=
  m ← mark;
  _ ← require $"=?";
  v ← Valid;
  if negb v then _ ← restore m; mret []
  else
    cs ← scan charset_char;
    cs ← lift (if Contains cs $"*" then section cs $"*" 1 else Ret cs);
    _ ← require $"?";
    q ← Present $"q";
    encoding ← (if (q : bool) then mret QPEncoding
                else
                  b ← Present $"b";
                  if (b : bool) then mret Base64Encoding
                  else c ← NextChar; _ ← set_err (UnknownEncoding c); mret QPEncoding);
    _ ← require $"?";
    text ← scan (if bool_decide (encoding = Base64Encoding) then base64_char else qp_char t);
    _ ← require $"?=";
    v ← Valid;
    if negb v then _ ← restore m; mret []
    else
      convert_word m cs
        (if bool_decide (encoding = QPEncoding) then deQP text false else de64 text).

Fixpoint encoded_words_loop (n : nat) (t : EncodedTextType) (out : str) : parse (str * nat) :=
  match n with
  | O => out_of_fuel
  | S n' =>
      m ← mark;
      _ ← Whitespace;
      i ← Pos;
      s ← encodedWord t;
      j ← Pos;
      if Nat.eqb i j then mret (out, m) else encoded_words_loop n' t (out ++ s)
  end.

Definition encodedWords (t : EncodedTextType) : parse str :=
  n ← fuel;
  '(out, m) ← encoded_words_loop n t [];
  _ ← restore m;
  mret (trim out).

(** ** Text and phrases *)

(** [!p.AtEnd() && c < 128 && c != ' ' && c != 9 && c != 10 && c != 13] *)
Definition text_char (c : byte) : bool := (bz c <? 128) && negb (wsp c).

(** One word of [Text] from the position [start]. *)
Definition text_word (start : nat) : parse str :=
  m ← mark;
  b ← Present $"=?";
  word ← (if (b : bool) then
            _ ← restore m;
            word ← encodedWords EncodedText;
            i ← Pos;
            mret (if Nat.eqb i start then None else Some word)
          else mret None);
  match word with
  | Some word => mret word
  | None => scan text_char
  end.

Fixpoint text_loop (n : nat) (space out : str) : parse str :=
  match n with
  | O => out_of_fuel
  | S n' =>
      start ← Pos;
      word ← text_word start;
      i ← Pos;
      if Nat.eqb i start then mret (out ++ space)
      else
        next ← Whitespace;
        text_loop n' (if ContainsAny next [CR; LF] then [SP] else next) (out ++ space ++ word)
  end.

Definition Text : parse str :=
  space ← Whitespace;
  n ← fuel;
  text_loop (S n) space [].

(** One word of [Phrase] from the position [start]: the text, whether
    something was read, and whether it was an encoded word. *)
Definition phrase_word (start : nat) : parse (str * bool * bool) :=
  m ← mark;
  b ← Present $"=?";
  '(t, h) ← (if (b : bool) then
               _ ← restore m;
               t ← encodedWords EncodedPhrase;
               i ← Pos;
               mret (t, Nat.ltb start i)
             else mret ([], false));
  if (h : bool) then mret (t, true, true)
  else
    q ← Present [DQUOTE];
    '(t, h) ← (if (q : bool) then
                 _ ← restore m;
                 s ← String;
                 i ← Pos;
                 mret (fst (decode s $"us-ascii"), Nat.ltb start i)
               else mret (t, false));
    if (h : bool) then mret (t, true, false)
    else
      s ← Atom;
      i ← Pos;
      mret (fst (decode s $"us-ascii"), Nat.ltb start i, false).

(** The spaces and comments after a word, as the space before the next one. *)
Definition phrase_spaces : parse str :=
  spaces ← Whitespace;
  start ← Pos;
  _ ← Comment;
  i ← Pos;
  let spaces := if (spaces ==s []) && Nat.ltb start i then spaces ++ [SP] else spaces in
  mret (if ContainsAny spaces [CR; LF] then [SP] else spaces).

Fixpoint phrase_loop (n : nat) (buf spaces : str) (wasEncoded : bool) : parse str :=
  e ← AtEnd;
  if (e : bool) then mret buf
  else match n with
  | O => out_of_fuel
  | S n' =>
      start ← Pos;
      '(t, h, encoded) ← phrase_word start;
      if h || negb (t ==s []) then
        let buf := if negb encoded || negb wasEncoded then buf ++ spaces else buf in
        spaces ← phrase_spaces;
        phrase_loop n' (buf ++ t) spaces encoded
      else mret buf
  end.

Definition Phrase : parse str :=
  _ ← Comment;
  n ← fuel;
  phrase_loop n [] [] false.
End Parser.
