(* ===== verification/ParserFacts.v ===== *)
(** * Theorems on the token parser: [Parser]

    Every operation ends, never moves the cursor backwards nor past the byte
    after the end, and leaves the marks made before it alone; [restore] brings
    the marked state back.  Then the tokens themselves: quoted strings,
    comments, dot-atoms and encoded words are read back as they were written. *)

From S2P Require Import Prelude GoStrings Strings StringsFacts Codec CodecFacts Words WordsFacts Parser.
Open Scope Z_scope.

(** ** Movement *)

(** [moves p q]: from [p] an operation may reach [q]. *)
Record moves (p q : parser) : Prop := {
  mv_str : p_str q = p_str p;
  mv_mime : p_mime q = p_mime p;
  mv_at : p_at q = p_at p
    ∨ (p_at p < p_at q ≤ S (length (p_str p)))%nat ∧ (p_at p < length (p_str p))%nat;
  mv_next : p_next p `suffix_of` p_next q }.

Lemma moves_refl p : moves p p.
Proof. split; auto. Qed.

Lemma moves_trans p q r : moves p q → moves q r → moves p r.
Proof.
  intros [Hs Hm Ha Hn] [Hs' Hm' Ha' Hn']. split; [congruence.. | | by trans (p_next q)].
  rewrite Hs in Ha'. lia.
Qed.

#[global] Instance moves_preorder : PreOrder moves.
Proof. split; [exact moves_refl | exact moves_trans]. Qed.

Definition move {A} (m : parse A) : Prop := ∀ p, post (m p) (λ '(_, q), moves p q).

(** The state right after [mark]. *)
Definition marked (p : parser) : parser :=
  {| p_str := p_str p; p_state := newParserState p; p_next := p_state p :: p_next p;
     p_mime := p_mime p; p_lc := p_lc p |}.

Lemma mark_eq p : mark p = Ret (S (length (p_next p)), marked p).
Proof. done. Qed.

Lemma moves_marked p : moves p (marked p).
Proof. split; [done.. | by left | by exists [p_state p]]. Qed.

Lemma moves_set_lc p lc : moves p (set_lc lc p).
Proof. split; auto. Qed.

Lemma find_mark_app st l st' next :
  find_mark st (l ++ st' :: next) (S (length next)) = Some (st', next).
Proof.
  assert (∀ st l, length l ≠ length next → find_mark st l (S (length next))
    = match l with st' :: l' => find_mark st' l' (S (length next)) | [] => None end) as E.
  { intros ? [|? l0] Hl; cbn [find_mark].
    - by destruct next.
    - by destruct (Nat.eqb_spec (S (length (p :: l0))) (S (length next))) as [[=]|]. }
  revert st. induction l as [|st1 l IH]; intros st; cbn [app].
  - rewrite E by (simpl; lia). by destruct next; simpl; rewrite ?Nat.eqb_refl.
  - rewrite E by (simpl; rewrite length_app; simpl; lia). apply IH.
Qed.

Lemma restore_marked p q :
  moves (marked p) q → restore_to (S (length (p_next p))) q = set_lc (p_lc q) p.
Proof.
  intros [Hs Hm _ [l Hl]]. unfold restore_to. simpl in Hl. rewrite Hl, find_mark_app.
  unfold set_lc. by rewrite Hs, Hm.
Qed.

(** ** Rules for actions *)

(** The rule the proofs below use: [p0] is where the operation started. *)
Lemma pbind_move {A B} (m : parse A) (f : A → parse B) p0 p Q :
  moves p0 p → move m → (∀ a q, moves p0 q → post (f a q) Q) → post ((m ≫= f) p) Q.
Proof.
  intros H Hm Hf. eapply pbind_post; [apply Hm|]. intros a q Hq. apply Hf. by trans p.
Qed.

Lemma move_bind {A B} (m : parse A) (f : A → parse B) :
  move m → (∀ a, move (f a)) → move (m ≫= f).
Proof.
  intros Hm Hf p. eapply (pbind_move m f p p); [done | done|]. intros a q Hq.
  eapply post_mono; [apply Hf|]. intros [b r] Hr. by trans q.
Qed.

Lemma move_ret {A} (a : A) : move (mret a).
Proof. intros p. apply moves_refl. Qed.

Lemma move_gets {A} (f : parser → A) : move (gets f).
Proof. intros p. apply moves_refl. Qed.

Lemma move_lift {A} (m : outcome A) : ends m → move (lift m).
Proof. intros Hm p. unfold lift. destruct m; simpl; [apply moves_refl | done | done]. Qed.

Lemma move_if {A} (b : bool) (m m' : parse A) : move m → move m' → move (if b then m else m').
Proof. by destruct b. Qed.

Lemma move_set_lc lc : move (modify (set_lc lc)).
Proof. intros p. apply moves_set_lc. Qed.

Lemma move_set_err e : move (set_err e).
Proof. intros p. split; [done.. | by left | done]. Qed.

Lemma moves_step p n : (n = 0 ∨ p_at p < length (p_str p) ∧ p_at p + n ≤ S (length (p_str p)))%nat →
  moves p (step_by n p).
Proof. intros Hn. split; [done.. | change (p_at (step_by n p)) with (p_at p + n)%nat; lia | done]. Qed.

Lemma length_rest p : length (rest p) = (length (p_str p) - p_at p)%nat.
Proof. apply length_drop. Qed.

Lemma moves_step_rest p n : (n ≤ length (rest p))%nat → moves p (step_by n p).
Proof. rewrite length_rest. intros Hn. apply moves_step. lia. Qed.

Create HintDb parser discriminated.
#[export] Hint Resolve move_bind move_ret move_gets move_if move_set_lc move_set_err moves_refl : parser.

Lemma move_reads : move NextChar ∧ move Pos ∧ move Valid ∧ move AtEnd.
Proof. split_and!; apply move_gets. Qed.
#[export] Hint Extern 0 (move NextChar) => apply move_reads : parser.
#[export] Hint Extern 0 (move Pos) => apply move_reads : parser.
#[export] Hint Extern 0 (move Valid) => apply move_reads : parser.
#[export] Hint Extern 0 (move AtEnd) => apply move_reads : parser.

(** The start of a later state, when the rest of an operation is known. *)
Lemma post_moves {A} (m : parse A) p0 p :
  moves p0 p → move m → post (m p) (λ '(_, q), moves p0 q).
Proof. intros H Hm. eapply post_mono; [apply Hm|]. intros [a q] Hq. by trans p. Qed.

(** ** Every operation moves *)

Lemma scan_eq ok p :
  scan ok p = Ret (take_while ok (rest p), step_by (length (take_while ok (rest p))) p).
Proof. done. Qed.

Lemma move_scan ok : move (scan ok).
Proof. intros p. rewrite scan_eq. apply moves_step_rest, take_while_length. Qed.
#[export] Hint Resolve move_scan : parser.

(** The loop [scan] stands for. *)
Lemma scan_unfold ok p :
  ok x00 = false →
  scan ok p = (c ← NextChar;
               if ok c then _ ← Step 1; w ← scan ok; mret (c :: w) else mret []) p.
Proof.
  intros H0. unfold NextChar, gets, mbind at 1, state_bind at 1. rewrite scan_eq. unfold rest.
  destruct (p_str p !! p_at p) as [c|] eqn:E.
  - rewrite (drop_S _ _ _ E). simpl. destruct (ok c) eqn:Hc.
    + unfold mbind, state_bind, Step, modify. rewrite scan_eq.
      unfold rest, step_by, p_at. simpl. rewrite Nat.add_1_r.
      unfold mret, state_ret, set_state, p_at, p_err. simpl. repeat f_equal. lia.
    + by destruct p as [? [] ? ? ?]; unfold step_by, set_state, p_at, p_err; simpl; rewrite Nat.add_0_r.
  - apply lookup_ge_None_1 in E. rewrite drop_ge by done. rewrite H0. simpl.
    by destruct p as [? [] ? ? ?]; unfold step_by, set_state, p_at, p_err; simpl; rewrite Nat.add_0_r.
Qed.

Lemma step_by_0 p : step_by 0 p = p.
Proof. destruct p as [? [] ? ? ?]. unfold step_by, set_state, p_at, p_err. simpl. by rewrite Nat.add_0_r. Qed.

Lemma step_by_add m n p : step_by n (step_by m p) = step_by (m + n) p.
Proof. unfold step_by, set_state, p_at, p_err. simpl. by rewrite Nat.add_assoc. Qed.

Lemma rest_step n p : rest (step_by n p) = drop n (rest p).
Proof. unfold rest. rewrite drop_drop. done. Qed.

Lemma moves_rest p q : moves p q → (length (rest q) ≤ length (rest p))%nat.
Proof. intros [Hs _ Ha _]. rewrite !length_rest, Hs. lia. Qed.

(** An operation that moved started before the end. *)
Lemma moves_progress p q :
  moves p q → p_at q ≠ p_at p → (length (rest q) < length (rest p))%nat.
Proof. intros [Hs _ Ha _] Hne. rewrite !length_rest, Hs. lia. Qed.

Lemma simplify_ends s : ends (simplify s).
Proof.
  unfold simplify, ends, slice. case_if; [done|].
  destruct (scan_spaces _ _ _ _) as [last identity]. by repeat case_if.
Qed.

Lemma section_ends s sep n : ends (section s sep n).
Proof. unfold section, ends. repeat case_if; try done. by case_match. Qed.

(** One action of an operation that started at [p0]. *)
Ltac pmove p0 a q H :=
  eapply (pbind_move _ _ p0); [auto with parser | solve [auto with parser] | intros a q H].

Section Moves.
Context {U : UnicodeCase} {CS : Charset}.

Lemma Present_cases s p :
  Present s p = Ret (false, p)
  ∨ Present s p = Ret (true, step_by (length s) p) ∧ (length s ≤ length (rest p))%nat.
Proof.
  unfold Present. destruct (s ==s []) eqn:Es.
  { apply str_eqb_true in Es. subst. right. rewrite step_by_0. split; [done | simpl; lia]. }
  unfold mbind, state_bind, gets. rewrite length_rest.
  destruct (Nat.ltb_spec (length (p_str p)) (p_at p + length s)); [by left|].
  case_if; [by left | right]. split; [done | lia].
Qed.

Lemma move_Present s : move (Present s).
Proof.
  intros p. destruct (Present_cases s p) as [-> | [-> H]]; simpl; [done|]. by apply moves_step_rest.
Qed.

Lemma move_following : move following.
Proof.
  unfold following, AtEnd. apply move_bind; [auto with parser|]. intros []; [auto with parser|].
  apply move_bind; [auto with parser|]. intros f. apply move_lift, simplify_ends.
Qed.

Lemma move_require s : move (require s).
Proof.
  apply move_bind; [apply move_Present|]. intros []; [auto with parser|].
  apply move_bind; [apply move_following | auto with parser].
Qed.
Hint Resolve move_Present move_require move_following : parser.

Lemma comment_body_length s level :
  (snd (comment_body s level) ≤ S (length s))%nat ∧ (s = [] → snd (comment_body s level) = 0%nat).
Proof.
  split; [|by intros ->; destruct level].
  revert level. induction s as [s IH] using str_length_ind. intros level.
  destruct s as [|c s]; [destruct level; simpl; lia|]. destruct level as [|l]; cbn [comment_body]; [simpl; lia|].
  assert (∀ l, (snd (comment_body s l) ≤ S (length s))%nat) as IHs by (intros; apply IH; simpl; lia).
  destruct (c =b "("); [specialize (IHs (S (S l))); destruct (comment_body s _); simpl in *; lia|].
  destruct (c =b ")"); [specialize (IHs l); destruct (comment_body s _); simpl in *; lia|].
  destruct (c =b BACKSLASH).
  - destruct s as [|d s]; [simpl; lia|].
    specialize (IH s ltac:(simpl; lia) (S l)). destruct (comment_body s _). simpl in *. lia.
  - specialize (IHs (S l)). destruct (comment_body s _). simpl in *. lia.
Qed.

Lemma moves_comment_body p level : moves p (step_by (snd (comment_body (rest p) level)) p).
Proof.
  pose proof (comment_body_length (rest p) level) as [H1 H2].
  destruct (decide (rest p = [])) as [E|E]; [rewrite H2, step_by_0 by done; auto with parser|].
  apply moves_step. assert (length (rest p) ≠ 0)%nat by by destruct (rest p).
  rewrite length_rest in *. lia.
Qed.

Lemma move_Whitespace : move Whitespace.
Proof. apply move_scan. Qed.
Hint Resolve move_Whitespace : parser.

(** After a successful [Present] of something there is less to read. *)
Lemma Present_post s p Q :
  s ≠ [] → post (Q false p) (λ '(_, q), moves p q) →
  (∀ q, moves p q → (length (rest q) < length (rest p))%nat → post (Q true q) (λ '(_, q), moves p q)) →
  post ((b ← Present s; Q b : parse str) p) (λ '(_, q), moves p q).
Proof.
  intros Hs Hf Ht. destruct (Present_cases s p) as [E | [E Hl]]; rewrite (pbind_ret _ _ _ _ _ E); [done|].
  apply Ht; [by apply moves_step_rest|]. rewrite rest_step, length_drop.
  assert (length s ≠ 0)%nat by by destruct s. lia.
Qed.

Lemma comment_loop_moves n buf p :
  (length (rest p) ≤ n)%nat → post (comment_loop n buf p) (λ '(_, q), moves p q).
Proof.
  revert buf p. induction n as [|n IH]; intros buf p Hn; cbn [comment_loop];
    (apply Present_post; [done | apply moves_refl | intros q Hq Hlt]); [lia|].
  unfold gets, mbind at 1, state_bind at 1.
  destruct (comment_body (rest q) 1) as [b k] eqn:E.
  assert (moves q (step_by k q)) as Hk.
  { pose proof (moves_comment_body q 1) as H. by rewrite E in H. }
  rewrite (pbind_ret (Step k) _ q tt (step_by k q)) by done.
  eapply (pbind_move _ _ q); [done | auto with parser|]. intros ? r Hr.
  rewrite (pbind_ret (modify (set_lc b)) _ r tt (set_lc b r)) by done.
  assert (moves q (set_lc b r)) as Hl by (trans r; [done | apply moves_set_lc]).
  eapply post_mono; [apply IH | intros [? ?] ?; trans q; [done | by trans (set_lc b r)]].
  apply moves_rest in Hl. lia.
Qed.

Lemma fuel_rest p : (length (rest p) ≤ S (length (p_str p)))%nat.
Proof. rewrite length_rest. lia. Qed.

(** A loop that starts with enough fuel. *)
Lemma move_fuel {A} (f : nat → parse A) :
  (∀ n p, (length (rest p) < n)%nat → post (f n p) (λ '(_, q), moves p q)) →
  move (n ← fuel; f n).
Proof. intros H p. apply H. rewrite length_rest. lia. Qed.

Lemma move_Comment : move Comment.
Proof.
  apply move_bind; [auto with parser|]. intros _. apply move_fuel.
  intros n p Hn. apply comment_loop_moves. lia.
Qed.
Hint Resolve move_Comment : parser.

Lemma move_Atom : move Atom.
Proof. apply move_bind; auto with parser. Qed.

Lemma move_MIMEToken : move MIMEToken.
Proof. apply move_bind; auto with parser. Qed.
Hint Resolve move_Atom move_MIMEToken : parser.

Lemma slice_ends s lo hi : ends (slice s lo hi).
Proof. unfold ends, slice. by case_if. Qed.

Lemma string_loop_moves n buf p :
  (length (rest p) ≤ n)%nat → post (string_loop n buf p) (λ '(_, q), moves p q).
Proof.
  revert buf p. induction n as [|n IH]; intros buf p Hn; cbn [string_loop];
    rewrite (pbind_ret AtEnd _ p _ p eq_refl);
    (destruct (Nat.leb_spec (length (p_str p)) (p_at p)); [apply moves_refl|]).
  { rewrite length_rest in Hn. lia. }
  unfold NextChar, gets, mbind at 1, state_bind at 1.
  rewrite (pbind_ret (Step 1) _ p tt (step_by 1 p)) by done.
  assert (∀ k, (k = 1 ∨ k = 2)%nat → moves p (step_by k p)) as Hk
    by (intros; apply moves_step; lia).
  assert (∀ b q, moves p q → p_at q ≠ p_at p →
    post (string_loop n b q) (λ '(_, r), moves p r)) as Hloop.
  { intros b q Hq Hne. eapply post_mono; [apply IH | intros [? ?] ?; by trans q].
    pose proof (moves_progress p q Hq Hne). lia. }
  assert (∀ k, (k = 1 ∨ k = 2)%nat → p_at (step_by k p) ≠ p_at p) as Hne
    by (intros k ?; change (p_at (step_by k p)) with (p_at p + k)%nat; lia).
  case_if; [apply Hk; lia|]. case_if.
  - unfold gets, mbind at 1, state_bind at 1.
    rewrite (pbind_ret (Step 1) _ (step_by 1 p) tt (step_by 2 p))
      by (unfold Step, modify; by rewrite step_by_add).
    apply Hloop; [apply Hk; lia | apply Hne; lia].
  - case_if; [|apply Hloop; [apply Hk; lia | apply Hne; lia]].
    rewrite (pbind_ret Pos _ _ _ _ eq_refl).
    eapply (pbind_move _ _ (step_by 1 p)); [auto with parser.. |]. intros ? q Hq.
    rewrite (pbind_ret Pos _ _ _ _ eq_refl), (pbind_ret (gets p_str) _ _ _ _ eq_refl).
    eapply (pbind_move _ _ (step_by 1 p)); [done | apply move_lift, slice_ends|]. intros ? r Hr.
    apply Hloop; [trans (step_by 1 p); [apply Hk; lia | done]|].
    specialize (Hne 1%nat ltac:(lia)). destruct Hr as [_ _ Ha _].
    change (p_at (step_by 1 p)) with (p_at p + 1)%nat in *. lia.
Qed.

Lemma move_String : move String.
Proof.
  apply move_bind; [auto with parser|]. intros _ p. unfold NextChar, gets, mbind at 1, state_bind at 1.
  case_if; [apply move_Atom|].
  assert (p_at p < length (p_str p))%nat.
  { destruct (p_str p !! p_at p) eqn:E; [by apply lookup_lt_Some in E | done]. }
  assert (moves p (step_by 1 p)) by (apply moves_step; lia).
  rewrite (pbind_ret (Step 1) _ p tt (step_by 1 p)) by done.
  eapply post_moves; [done|]. apply move_fuel. intros. apply string_loop_moves. lia.
Qed.
Hint Resolve move_String : parser.

Lemma move_MIMEValue : move MIMEValue.
Proof.
  apply move_bind; [auto with parser|]. intros _.
  apply move_bind; [auto with parser|]. intros c. auto with parser.
Qed.

(** [restore] undoes what happened since the mark. *)
Lemma restore_post p q : moves (marked p) q → post (restore (S (length (p_next p))) q) (λ '(_, r), r = set_lc (p_lc q) p).
Proof. intros H. simpl. by apply restore_marked. Qed.

Lemma moves_unmark p q : moves (marked p) q → moves p q.
Proof. intros H. trans (marked p); [apply moves_marked | done]. Qed.

Lemma post_restore {A} (a : A) p q :
  moves (marked p) q →
  post ((_ ← restore (S (length (p_next p))); mret a : parse A) q) (λ '(_, r), moves p r).
Proof.
  intros H. unfold restore, modify, mbind, state_bind. rewrite restore_marked by done.
  apply moves_set_lc.
Qed.

Lemma moves_strict p q r :
  moves p q → moves q r → p_at r ≠ p_at q → (length (rest r) < length (rest p))%nat.
Proof. intros Hq Hr Hne. pose proof (moves_progress q r Hr Hne). apply moves_rest in Hq. lia. Qed.

(** An atom that is not empty was read from the input. *)
Lemma Atom_post p :
  post (Atom p) (λ '(a, q), moves p q ∧ (a ≠ [] → (length (rest q) < length (rest p))%nat)).
Proof.
  eapply (pbind_move _ _ p); [auto with parser.. |]. intros ? q Hq. rewrite scan_eq. simpl.
  assert (moves q (step_by (length (take_while isAtext (rest q))) q)) as Hs
    by apply moves_step_rest, take_while_length.
  split; [by trans q|]. intros Ha. apply (moves_strict p q); [done..|].
  change (p_at q + length (take_while isAtext (rest q)) ≠ p_at q)%nat.
  assert (length (take_while isAtext (rest q)) ≠ 0)%nat by by destruct (take_while _ _). lia.
Qed.

Lemma dot_atom_loop_moves n result p :
  (length (rest p) < n)%nat → post (dot_atom_loop n result p) (λ '(_, q), moves p q).
Proof.
  revert result p. induction n as [|n IH]; intros result p Hn; [lia|]. cbn [dot_atom_loop].
  rewrite (pbind_ret mark _ p _ _ (mark_eq p)).
  pmove (marked p) c q Hq. pmove (marked p) w0 q0 H0. pmove (marked p) c' q1 H1.
  eapply pbind_post; [apply Atom_post|]. intros a r [Hr Ha].
  assert (moves (marked p) r) as Hmr by (by trans q1).
  assert (a ≠ [] → (length (rest r) < length (rest p))%nat) as Hlt.
  { intros Ha'. specialize (Ha Ha'). apply moves_rest in H1. change (rest (marked p)) with (rest p) in H1. lia. }
  destruct (a ==s []) eqn:Ea.
  - rewrite (pbind_ret (set_err TrailingDot) _ _ _ _ eq_refl), (pbind_ret Valid _ _ _ _ eq_refl).
    apply post_restore. trans r; [done|]. exact (move_set_err TrailingDot r).
  - rewrite (pbind_ret (mret tt) _ _ _ _ eq_refl), (pbind_ret Valid _ _ _ _ eq_refl).
    case_if; [|by apply post_restore]. apply str_eqb_false in Ea.
    eapply post_mono; [apply IH | intros [? ?] ?; trans r; [by apply moves_unmark | done]].
    specialize (Hlt Ea). lia.
Qed.

Lemma move_DotAtom : move DotAtom.
Proof.
  apply move_bind; [auto with parser|]. intros a. apply move_if; [auto with parser|].
  apply move_fuel. intros. by apply dot_atom_loop_moves.
Qed.

Lemma backspaces_ends n result i :
  i < 0 ∨ (length result < n)%nat → ends (backspaces n result i).
Proof.
  revert result i. induction n as [|n IH]; intros result i Hn; cbn [backspaces];
    (destruct (Z.ltb_spec i 0); [done|]); [lia|].
  apply bind_ends; [apply slice_ends|]. intros t Ht. case_if; [|apply IH; lia].
  apply bind_ends; [apply slice_ends|]. intros s Hs.
  assert (length s < length result)%nat.
  { unfold from_, slice in Hs. case_if_in Hs; [|done]. injection Hs as <-.
    rewrite length_take, length_drop. lia. }
  case_if; [|apply IH; lia].
  apply bind_ends; [apply slice_ends|]. intros r Hr. apply IH. right.
  unfold upto, from_, slice in Hr, Hs. case_if_in Hr; [|done]. case_if_in Hs; [|done].
  injection Hr as <-. injection Hs as <-. rewrite length_app, !length_take, !length_drop. lia.
Qed.

Lemma encoded_result_ends result : ends (encoded_result result).
Proof.
  unfold encoded_result. apply bind_ends; [case_if; [apply simplify_ends | done]|].
  intros r _. case_if; [apply backspaces_ends; lia | done].
Qed.

Lemma convert_word_moves p q cs text :
  moves (marked p) q →
  post (convert_word (S (length (p_next p))) cs text q) (λ '(_, r), moves p r).
Proof.
  intros H. unfold convert_word.
  assert (∀ e, moves (marked p) (set_state {| st_at := p_at q; st_err := Some e |} q)) as He
    by (intros e; trans q; [done | exact (move_set_err e q)]).
  destruct (cs_reader cs) as [read|].
  - destruct (read text) as [result|].
    + eapply post_moves; [by apply moves_unmark | apply move_lift, encoded_result_ends].
    + rewrite (pbind_ret (set_err ReadError) _ _ _ _ eq_refl). apply post_restore, He.
  - rewrite (pbind_ret (set_err (UnknownCharset cs)) _ _ _ _ eq_refl). apply post_restore, He.
Qed.

Lemma move_encodedWord t : move (encodedWord t).
Proof.
  intros p. unfold encodedWord. rewrite (pbind_ret mark _ p _ _ (mark_eq p)).
  pmove (marked p) w1 q1 H1. pmove (marked p) v q2 H2.
  case_if; [by apply post_restore|]. pmove (marked p) cs0 q3 H3.
  eapply (pbind_move _ _ (marked p)); [done | apply move_lift; case_if; [apply section_ends | done] |].
  intros cs q4 H4. pmove (marked p) w5 q5 H5. pmove (marked p) b q6 H6.
  eapply (pbind_move _ _ (marked p)); [done | |].
  { apply move_if; [auto with parser|]. apply move_bind; [auto with parser|]. intros b'.
    apply move_if; [auto with parser|]. apply move_bind; [auto with parser|]. intros c.
    apply move_bind; auto with parser. }
  intros encoding q7 H7. pmove (marked p) w8 q8 H8. pmove (marked p) txt q9 H9.
  pmove (marked p) w10 q10 H10. pmove (marked p) v' q11 H11.
  case_if; [by apply post_restore | by apply convert_word_moves].
Qed.
Hint Resolve move_encodedWord move_DotAtom : parser.

Lemma encoded_words_loop_moves n t out p :
  (length (rest p) < n)%nat →
  post (encoded_words_loop n t out p) (λ '(_, m, q),
    ∃ p0, m = S (length (p_next p0)) ∧ moves (marked p0) q
      ∧ (p0 = p ∨ moves p p0 ∧ p_at p0 ≠ p_at p)).
Proof.
  revert out p. induction n as [|n IH]; intros out p Hn; [lia|]. cbn [encoded_words_loop].
  rewrite (pbind_ret mark _ p _ _ (mark_eq p)). pmove (marked p) w q1 H1.
  rewrite (pbind_ret Pos _ _ _ _ eq_refl).
  eapply pbind_post; [apply move_encodedWord|]. intros s q2 H2. simpl in H2.
  rewrite (pbind_ret Pos _ _ _ _ eq_refl).
  destruct (Nat.eqb_spec (p_at q1) (p_at q2)) as [|Hne].
  { exists p. split_and!; [done | by trans q1 | by left]. }
  assert (length (rest q2) < length (rest p))%nat as Hlt by (apply (moves_strict (marked p) q1); auto).
  eapply post_mono; [apply (IH _ q2); lia|]. intros [[o m] q] (p0 & Hm & Hq & Hp0).
  assert (moves p q2) as Hpq by (apply moves_unmark; by trans q1).
  assert (p_at q2 ≠ p_at p) as Hat.
  { intros E. destruct Hpq as [Hs _ _ _]. rewrite !length_rest, Hs, E in Hlt. lia. }
  exists p0. split_and!; [done.. | right].
  destruct Hp0 as [-> | [Hp0 Hne']]; [done|]. split; [by trans q2|].
  destruct Hpq as [_ _ Ha _], Hp0 as [_ _ Ha' _]. lia.
Qed.

(** [encodedWords] either reads something or leaves the parser as it was, but
    for the last comment. *)
Lemma encodedWords_post t p :
  post (encodedWords t p) (λ '(_, q),
    moves p q ∧ (p_at q = p_at p → ∃ lc, q = set_lc lc p)).
Proof.
  unfold encodedWords. rewrite (pbind_ret fuel _ p _ _ eq_refl).
  eapply pbind_post; [apply encoded_words_loop_moves; rewrite length_rest; lia|].
  intros [out m] q (p0 & -> & Hq & Hp0). unfold restore, modify, mbind, state_bind.
  rewrite restore_marked by done. simpl. split.
  - trans p0; [by destruct Hp0 as [-> | [? ?]] | apply moves_set_lc].
  - destruct Hp0 as [-> | [_ Hne]]; [eauto|]. by intros ?%Hne.
Qed.

Lemma move_encodedWords t : move (encodedWords t).
Proof. intros p. eapply post_mono; [apply encodedWords_post|]. by intros [? ?] [? _]. Qed.
Hint Resolve move_encodedWords : parser.

Lemma text_word_moves p start : post (text_word start p) (λ '(_, q), moves p q).
Proof.
  unfold text_word. rewrite (pbind_ret mark _ p _ _ (mark_eq p)).
  eapply pbind_post; [apply move_Present|]. intros b q Hq.
  eapply (pbind_post _ _ q (λ '(_, q), moves p q)).
  - destruct b; [|simpl; by apply moves_unmark].
    unfold restore, modify, mbind at 1, state_bind at 1. rewrite restore_marked by done.
    eapply (pbind_move _ _ p); [apply moves_set_lc | auto with parser |]. intros word r Hr.
    rewrite (pbind_ret Pos _ _ _ _ eq_refl). done.
  - intros [word|] r Hr; [done|]. eapply post_moves; auto with parser.
Qed.

Lemma text_loop_moves n space out p :
  (length (rest p) < n)%nat → post (text_loop n space out p) (λ '(_, q), moves p q).
Proof.
  revert space out p. induction n as [|n IH]; intros space out p Hn; [lia|]. cbn [text_loop].
  rewrite (pbind_ret Pos _ _ _ _ eq_refl).
  eapply pbind_post; [apply text_word_moves|]. intros word q Hq. simpl in Hq.
  rewrite (pbind_ret Pos _ _ _ _ eq_refl).
  destruct (Nat.eqb_spec (p_at q) (p_at p)) as [|Hne]; [done|].
  pose proof (moves_progress p q Hq Hne) as Hlt. pmove q next r Hr.
  eapply post_mono; [apply IH; apply moves_rest in Hr; lia|].
  intros [? ?] ?. trans q; [done|]. by trans r.
Qed.

Lemma move_Text : move Text.
Proof.
  apply move_bind; [auto with parser|]. intros w.
  apply (move_fuel (λ n, text_loop (S n) w [])). intros. apply text_loop_moves. lia.
Qed.

(** Going back to the state the cursor is in changes nothing. *)
Lemma restore_same p q : p_next q = p_next p → restore_to (S (length (p_next p))) q = q.
Proof.
  intros E. unfold restore_to. rewrite E.
  assert (∀ st next, find_mark st next (S (length next)) = Some (st, next)) as ->
    by (intros ? []; simpl; by rewrite ?Nat.eqb_refl).
  destruct q. simpl in *. by subst.
Qed.
End Moves.

#[export] Hint Resolve move_Present move_following move_require move_Whitespace move_Comment
  move_Atom move_MIMEToken move_String move_MIMEValue move_DotAtom move_encodedWord
  move_encodedWords move_Text : parser.

(** What the parser relies on of the character-set package: writing nothing
    writes nothing. *)
Class CharsetLaws (CS : Charset) : Prop := {
  writer_nil name write : cs_writer name = Some write → fst (write []) = []
}.

#[global] Instance plain_charsets_laws : CharsetLaws plain_charsets.
Proof.
  split. intros name write. unfold cs_writer, plain_charsets.
  repeat case_if; intros [= <-]; done.
Qed.

Section PhraseMoves.
Context {U : UnicodeCase} {CS : Charset} {CL : CharsetLaws CS}.

Lemma decode_nil enc : fst (decode [] enc) = [].
Proof. unfold decode. destruct (cs_writer enc) eqn:E; [by eapply writer_nil | done]. Qed.

(** A quoted string starts at its quote, wherever [restore] puts the cursor. *)
Lemma phrase_quote_moves p q1 r :
  q1 = marked p ∨ (∃ lc, q1 = set_lc lc p) → moves q1 r → (p_next r = p_next q1) →
  moves p (restore_to (S (length (p_next p))) r).
Proof.
  intros [-> | [lc ->]] Hr Hn.
  - rewrite restore_marked by done. apply moves_set_lc.
  - rewrite restore_same by done. trans (set_lc lc p); [apply moves_set_lc | done].
Qed.

Lemma phrase_word_post p :
  post (phrase_word (p_at p) p) (λ '((t, h, _), q),
    moves p q ∧ (h = true → p_at q ≠ p_at p) ∧ (h = false → t = [])).
Proof.
  unfold phrase_word. rewrite (pbind_ret mark _ p _ _ (mark_eq p)).
  assert (∃ b q, Present $"=?" (marked p) = Ret (b, q) ∧ moves (marked p) q ∧ (b = false → q = marked p))
    as (b & q & E & Hq & Hb).
  { pose proof (move_Present $"=?" (marked p)) as H.
    destruct (Present_cases $"=?" (marked p)) as [E | [E _]]; rewrite E in H;
      eexists _, _; by split_and!. }
  rewrite (pbind_ret _ _ _ _ _ E).
  eapply (pbind_post _ _ q (λ '((_, h), q1), moves p q1 ∧ (h = true → p_at q1 ≠ p_at p)
    ∧ (h = false → q1 = marked p ∨ ∃ lc, q1 = set_lc lc p))).
  { destruct b; [|rewrite Hb by done; simpl; split_and!; [apply moves_marked | done | by left]].
    unfold restore, modify, mbind at 1, state_bind at 1. rewrite restore_marked by done.
    eapply pbind_post; [apply encodedWords_post|]. intros t r [Hr Heq].
    rewrite (pbind_ret Pos _ _ _ _ eq_refl). simpl.
    split_and!; [trans (set_lc (p_lc q) p); [apply moves_set_lc | done] | lia |].
    intros Hlt. right. destruct Heq as [lc ->]; [|by exists lc].
    destruct Hr as [_ _ Ha _]. change (p_at (set_lc (p_lc q) p)) with (p_at p) in *. lia. }
  intros [t h] q1 (Hq1 & Hh & Hn). destruct h; [by split_and!; auto|]. specialize (Hn eq_refl).
  eapply (pbind_post _ _ q1 (λ '(b, r), moves q1 r ∧ p_next r = p_next q1 ∧ (b = false → r = q1))).
  { destruct (Present_cases [DQUOTE] q1) as [-> | [-> Hl]]; simpl; [done|].
    split_and!; [by apply moves_step_rest | done | done]. }
  intros b' r (Hr & Hnx & Hb').
  eapply (pbind_post _ _ r (λ '((_, h), q2), moves p q2 ∧ (h = true → p_at q2 ≠ p_at p))).
  { destruct b'; [|simpl; split; [by trans q1 | done]].
    unfold restore, modify, mbind at 1, state_bind at 1.
    eapply (pbind_move _ _ p); [by eapply phrase_quote_moves | auto with parser|]. intros s q2 Hq2.
    rewrite (pbind_ret Pos _ _ _ _ eq_refl). simpl. split; [done | lia]. }
  intros [t' h'] q2 (Hq2 & Hh'). destruct h'; [by split_and!; auto|].
  eapply pbind_post; [apply Atom_post|]. intros s q3 [Hq3 Hs].
  rewrite (pbind_ret Pos _ _ _ _ eq_refl). simpl. assert (moves p q3) as Hpq by by trans q2.
  split_and!; [done | lia |]. intros Hlt. destruct (decide (s = [])) as [->|Hne]; [apply decode_nil|].
  exfalso. specialize (Hs Hne). destruct Hq2 as [Hs2 _ Ha2 _], Hq3 as [Hs3 _ Ha3 _].
  rewrite !length_rest, Hs3, Hs2 in *. lia.
Qed.

Lemma phrase_spaces_moves : move phrase_spaces.
Proof.
  apply move_bind; [auto with parser|]. intros w. apply move_bind; [auto with parser|]. intros i.
  apply move_bind; [auto with parser|]. intros c. apply move_bind; auto with parser.
Qed.

Lemma phrase_loop_moves n buf spaces was p :
  (length (rest p) < n)%nat → post (phrase_loop n buf spaces was p) (λ '(_, q), moves p q).
Proof.
  revert buf spaces was p. induction n as [|n IH]; intros buf spaces was p Hn; [lia|].
  cbn [phrase_loop]. rewrite (pbind_ret AtEnd _ _ _ _ eq_refl). case_if; [apply moves_refl|].
  rewrite (pbind_ret Pos _ _ _ _ eq_refl).
  eapply pbind_post; [apply phrase_word_post|]. intros [[t h] enc] q (Hq & Hh & Ht).
  destruct h; [|rewrite Ht by done; simpl; done]. cbn [orb].
  pose proof (moves_progress p q Hq (Hh eq_refl)) as Hlt.
  eapply (pbind_move _ _ q); [auto with parser | apply phrase_spaces_moves |]. intros sp r Hr.
  eapply post_mono; [apply IH; apply moves_rest in Hr; lia|].
  intros [? ?] ?. trans q; [done|]. by trans r.
Qed.

Lemma move_Phrase : move Phrase.
Proof.
  apply move_bind; [auto with parser|]. intros _. apply move_fuel. intros. by apply phrase_loop_moves.
Qed.
End PhraseMoves.

(** ** Sequences of operations *)

Inductive parser_op :=
| OpWhitespace | OpComment | OpString | OpAtom | OpDotAtom | OpMIMEToken | OpMIMEValue
| OpEncodedWord (t : EncodedTextType) | OpEncodedWords (t : EncodedTextType)
| OpText | OpPhrase | OpPresent (s : str) | OpRequire (s : str).

Section Operations.
Context {U : UnicodeCase} {CS : Charset}.

Definition run_op (op : parser_op) : parse unit :=
  match op with
  | OpWhitespace => _ ← Whitespace; mret tt
  | OpComment => _ ← Comment; mret tt
  | OpString => _ ← String; mret tt
  | OpAtom => _ ← Atom; mret tt
  | OpDotAtom => _ ← DotAtom; mret tt
  | OpMIMEToken => _ ← MIMEToken; mret tt
  | OpMIMEValue => _ ← MIMEValue; mret tt
  | OpEncodedWord t => _ ← encodedWord t; mret tt
  | OpEncodedWords t => _ ← encodedWords t; mret tt
  | OpText => _ ← Text; mret tt
  | OpPhrase => _ ← Phrase; mret tt
  | OpPresent s => _ ← Present s; mret tt
  | OpRequire s => require s
  end.

Fixpoint run_ops (ops : list parser_op) : parse unit :=
  match ops with
  | [] => mret tt
  | op :: ops' => _ ← run_op op; run_ops ops'
  end.

Lemma move_run_ops `{!CharsetLaws CS} ops : move (run_ops ops).
Proof.
  induction ops as [|op ops IH]; cbn [run_ops]; [apply move_ret|]. apply move_bind; [|done].
  destruct op; cbn [run_op]; try (apply move_bind; [|intros; apply move_ret]);
    auto using move_Phrase with parser.
Qed.

(** C14: any sequence of parser operations ends (it may panic, it does
    not loop), leaves the input and the marks made before it alone, and moves
    the cursor forwards or not at all, at most to one byte past the end. *)
Theorem parser_safe `{!CharsetLaws CS} (ops : list parser_op) (p : parser) :
  post (run_ops ops p) (λ '(_, q), moves p q).
Proof. apply move_run_ops. Qed.

(** C23: whatever operations run after [mark], [restore] of that
    mark brings the whole parser back, the remembered last comment apart. *)
Theorem restore_mark `{!CharsetLaws CS} (ops : list parser_op) (p : parser) :
  post ((m ← mark; _ ← run_ops ops; restore m) p) (λ '(_, q), q = set_lc (p_lc q) p).
Proof.
  rewrite (pbind_ret mark _ p _ _ (mark_eq p)).
  eapply pbind_post; [apply move_run_ops|]. intros [] q Hq. simpl.
  by rewrite restore_marked.
Qed.
End Operations.

Lemma parser_safe_witness :
  let p := newParser $"(x) =?utf-8?b?YWJj?= d e f.g" in
  @post (unit * parser) (run_ops (U := ascii_only_case) (CS := plain_charsets) [OpPhrase; OpText] p)
    (λ '(_, q), moves p q).
Proof. apply (parser_safe (U := ascii_only_case) (CS := plain_charsets)). Defined.

Lemma restore_mark_witness :
  let p := newParser $"(x) =?utf-8?b?YWJj?= y" in
  @post (unit * parser) ((m ← mark; _ ← run_ops (U := ascii_only_case) (CS := plain_charsets)
      [OpComment; OpPhrase]; restore m) p) (λ '(_, q), q = set_lc (p_lc q) p).
Proof. apply (restore_mark (U := ascii_only_case) (CS := plain_charsets)). Defined.

(** ** Reading what was written *)

(** The state after reading [n] bytes, up to the marks made meanwhile. *)
Section Tokens.
Context {U : UnicodeCase} {CS : Charset}.

Lemma scan_app ok p w t :
  rest p = w ++ t → Forall (λ c, ok c = true) w →
  match t with c :: _ => ok c = false | [] => True end →
  scan ok p = Ret (w, step_by (length w) p).
Proof. intros E Hw Ht. by rewrite scan_eq, E, take_while_app_stop. Qed.

Lemma rest_at p c t : rest p = c :: t → p_str p !! p_at p = Some c ∧ (p_at p < length (p_str p))%nat.
Proof.
  unfold rest. intros E. assert (p_str p !! p_at p = Some c) as H.
  { rewrite <- (take_drop (p_at p) (p_str p)), E, lookup_app_r.
    all: rewrite length_take; assert (length (drop (p_at p) (p_str p)) ≠ 0)%nat by (by rewrite E);
      rewrite length_drop in *.
    - by replace (p_at p - _)%nat with 0%nat by lia.
    - lia. }
  split; [done|]. by apply lookup_lt_Some in H.
Qed.

Lemma NextChar_rest p c t : rest p = c :: t → NextChar p = Ret (c, p).
Proof. intros [E _]%rest_at. unfold NextChar, gets. by rewrite E. Qed.

Lemma AtEnd_rest p c t : rest p = c :: t → AtEnd p = Ret (false, p).
Proof. intros [_ E]%rest_at. unfold AtEnd, gets. by destruct (Nat.leb_spec (length (p_str p)) (p_at p)); [lia|]. Qed.

(** [Present] of ASCII text in front of ASCII text. *)
Lemma Present_ascii s p w t :
  rest p = w ++ t → length w = length s → ascii_str s = true → ascii_str w = true →
  Present s p = Ret (if map lower_byte w ==s map lower_byte s then (true, step_by (length s) p) else (false, p)).
Proof.
  intros E Hl Hs Hw. unfold Present. destruct (s ==s []) eqn:Es.
  { apply str_eqb_true in Es. subst. destruct w; [|done]. by rewrite step_by_0. }
  unfold mbind, state_bind, gets.
  assert (length (rest p) = length w + length t)%nat as Hr by by rewrite E, length_app.
  rewrite length_rest in Hr.
  assert (length w ≠ 0)%nat by (rewrite Hl; by destruct s).
  destruct (Nat.ltb_spec (length (p_str p)) (p_at p + length s)); [lia|].
  rewrite E, <- Hl, take_app_length, !ToLower_ascii by done. by destruct (map lower_byte w ==s _).
Qed.

Lemma Present_at_end s p : rest p = [] → s ≠ [] → Present s p = Ret (false, p).
Proof.
  intros E Hs. destruct (Present_cases s p) as [|[_ Hl]]; [done|].
  rewrite E in Hl. by destruct s; [|simpl in Hl; lia].
Qed.

(** A byte that starts neither white space nor a comment. *)
Definition starts_token (c : byte) : Prop := skip_char c = false ∧ bz c < 128 ∧ c ≠ "("%byte.

Definition token_next (s : str) : Prop :=
  match s with c :: _ => starts_token c | [] => True end.

Lemma token_next_skip s : token_next s → take_while skip_char s = [].
Proof. intros H. apply take_while_nil. destruct s; [done | apply H]. Qed.

Lemma Present_paren p : token_next (rest p) → Present $"(" p = Ret (false, p).
Proof.
  intros H. destruct (rest p) as [|c t] eqn:Er; [by apply Present_at_end|]. destruct H as (_ & Hc & Hne).
  rewrite (Present_ascii _ p [c] t) by (try done; simpl; lia).
  destruct (_ ==s _) eqn:Ee; [|done]. apply str_eqb_true in Ee. exfalso. apply Hne.
  revert Ee Hc. clear. revert c. by intros [].
Qed.

Lemma comment_loop_none n buf p : token_next (rest p) → comment_loop n buf p = Ret (buf, p).
Proof. intros H. destruct n; cbn [comment_loop]; by rewrite (pbind_ret _ _ _ _ _ (Present_paren p H)). Qed.

Lemma Whitespace_none p : token_next (rest p) → Whitespace p = Ret ([], p).
Proof. intros H. unfold Whitespace. by rewrite scan_eq, token_next_skip, step_by_0. Qed.

Lemma Comment_none p : token_next (rest p) → Comment p = Ret ([], p).
Proof.
  intros H. unfold Comment. rewrite (pbind_ret _ _ _ _ _ (Whitespace_none p H)).
  rewrite (pbind_ret fuel _ _ _ _ eq_refl). by apply comment_loop_none.
Qed.

Abbreviation esc := (escape DQUOTE BACKSLASH).

Lemma esc_skip w s : Forall (λ c, skip_char c = true) w → esc (w ++ s) = w ++ esc s.
Proof.
  induction 1 as [|c w Hc Hw IH]; [done|]. cbn [app escape].
  destruct ((c =b DQUOTE) || (c =b BACKSLASH)) eqn:E; [|by rewrite IH].
  exfalso. revert Hc E. clear. revert c. by intros [].
Qed.

(** [p.str[i:j]] where the cursor was at [i] and has moved to [j]. *)
Lemma slice_rest p w t :
  rest p = w ++ t → w ≠ [] →
  slice (p_str p) (Z.of_nat (p_at p)) (Z.of_nat (p_at p + length w)) = Ret w.
Proof.
  intros E Hw. assert (length (rest p) = length w + length t)%nat as Hl by by rewrite E, length_app.
  rewrite length_rest in Hl. assert (length w ≠ 0)%nat by by destruct w.
  rewrite slice_ret by lia. fold (rest p). rewrite Nat2Z.id. fold (rest p). rewrite E.
  by rewrite take_app_length' by lia.
Qed.

Lemma no_eol_ContainsAny s : no_eol s → ContainsAny s [CR; LF] = false.
Proof.
  induction 1 as [|c s [H1 H2] Hs IH]; [done|]. cbn [ContainsAny existsb one_of].
  apply beq_false in H1, H2. unfold one_of. cbn [existsb]. rewrite H1, H2. apply IH.
Qed.

(** The white-space branch of [String]. *)
Lemma string_spaces {A} (k : str → parse A) p a w t :
  rest p = a :: w ++ t → Forall (λ c, skip_char c = true) w →
  match t with c :: _ => skip_char c = false | [] => True end →
  (i ← Pos; _ ← Whitespace; j ← Pos; s ← gets p_str;
   t ← lift (slice s (Z.of_nat i - 1) (Z.of_nat j)); k t) (step_by 1 p)
  = k (a :: w) (step_by (1 + length w) p).
Proof.
  intros E Hw Ht. rewrite (pbind_ret Pos _ _ _ _ eq_refl).
  assert (Whitespace (step_by 1 p) = Ret (w, step_by (1 + length w) p)) as HW.
  { unfold Whitespace. rewrite (scan_app _ _ w t); [by rewrite step_by_add | | done | done].
    by rewrite rest_step, E. }
  rewrite (pbind_ret _ _ _ _ _ HW), (pbind_ret Pos _ _ _ _ eq_refl), (pbind_ret (gets p_str) _ _ _ _ eq_refl).
  change (p_at (step_by 1 p)) with (p_at p + 1)%nat. change (p_str (step_by (1 + length w) p)) with (p_str p).
  change (p_at (step_by (1 + length w) p)) with (p_at p + length (a :: w))%nat.
  replace (Z.of_nat (p_at p + 1) - 1) with (Z.of_nat (p_at p)) by lia.
  by rewrite (slice_rest p (a :: w) t).
Qed.

(** White space with a line break in it becomes a space; [run] is the white space
    just read. *)
Definition unfold_run (run : str) : str := if ContainsAny run [CR; LF] then [SP] else run.

Fixpoint unfold_ws (run s : str) : str :=
  match s with
  | [] => unfold_run run
  | c :: s' =>
      if (if run ==s [] then wsp c else skip_char c) then unfold_ws (run ++ [c]) s'
      else unfold_run run ++ c :: unfold_ws [] s'
  end.

Lemma unfold_ws_other c s : wsp c = false → unfold_ws [] (c :: s) = c :: unfold_ws [] s.
Proof. intros Hc. cbn [unfold_ws]. by rewrite Hc. Qed.

Lemma wsp_skip c : wsp c = true → skip_char c = true.
Proof. revert c. by intros []. Qed.

Lemma unfold_ws_more run w s :
  run ≠ [] → Forall (λ c, skip_char c = true) w →
  match s with c :: _ => skip_char c = false | [] => True end →
  unfold_ws run (w ++ s) = unfold_run (run ++ w) ++ unfold_ws [] s.
Proof.
  intros Hr Hw Hs. revert run Hr. induction Hw as [|c w Hc Hw IH]; intros run Hr.
  - rewrite app_nil_r. cbn [app]. destruct s as [|d s]; [by rewrite app_nil_r|].
    cbn [unfold_ws]. rewrite (proj2 (str_eqb_false run []) Hr), Hs.
    destruct (wsp d) eqn:Hd; [apply wsp_skip in Hd; congruence | done].
  - cbn [app unfold_ws]. rewrite (proj2 (str_eqb_false run []) Hr), Hc, IH by by destruct run.
    by rewrite <- app_assoc.
Qed.

Lemma unfold_ws_run a w s :
  wsp a = true → Forall (λ c, skip_char c = true) w →
  match s with c :: _ => skip_char c = false | [] => True end →
  unfold_ws [] (a :: w ++ s) = unfold_run (a :: w) ++ unfold_ws [] s.
Proof. intros Ha Hw Hs. cbn [unfold_ws]. rewrite Ha. by apply (unfold_ws_more [a]). Qed.

Lemma unfold_ws_no_eol run s : no_eol run → no_eol s → unfold_ws run s = run ++ s.
Proof.
  intros Hr Hs. revert run Hr. induction Hs as [|c s Hc Hs IH]; intros run Hr; cbn [unfold_ws]; unfold unfold_run;
    rewrite ?(no_eol_ContainsAny run Hr); [by rewrite app_nil_r|].
  destruct (if _ ==s _ then _ else _).
  - rewrite IH by (apply no_eol_app; split; [done | by constructor]). by rewrite <- app_assoc.
  - by rewrite IH by constructor.
Qed.

Lemma string_loop_esc n s buf p t :
  rest p = esc s ++ DQUOTE :: t → (length (rest p) ≤ n)%nat →
  string_loop n buf p = Ret (buf ++ unfold_ws [] s, step_by (length (esc s) + 1) p).
Proof.
  revert n buf p. induction s as [s IH] using str_length_ind. intros n buf p E Hn.
  assert (∃ c u, rest p = c :: u) as (c & u & Ec) by (rewrite E; destruct (esc s); simpl; eauto).
  destruct n as [|n]; [rewrite Ec in Hn; simpl in Hn; lia|]. cbn [string_loop].
  rewrite (pbind_ret _ _ _ _ _ (AtEnd_rest _ _ _ Ec)), (pbind_ret _ _ _ _ _ (NextChar_rest _ _ _ Ec)).
  rewrite (pbind_ret (Step 1) _ p tt (step_by 1 p)) by done.
  assert (∀ k s' b, (length s' < length s)%nat → rest (step_by k p) = esc s' ++ DQUOTE :: t →
    (0 < k)%nat →
    string_loop n b (step_by k p) = Ret (b ++ unfold_ws [] s', step_by (k + (length (esc s') + 1)) p)) as Hrec.
  { intros k s' b Hlt Er Hk.
    rewrite (IH s' Hlt n b (step_by k p)); [by rewrite step_by_add | done|].
    rewrite rest_step, length_drop, Ec in *. simpl in *. lia. }
  destruct s as [|a s]; cbn [escape app] in E.
  { rewrite E in Ec. injection Ec as <- <-. rewrite beq_refl, app_nil_r. done. }
  rewrite E in Ec.
  cbn [escape]. destruct ((a =b DQUOTE) || (a =b BACKSLASH)) eqn:Eesc.
  - injection Ec as <- Eu. rewrite beq_refl. replace (BACKSLASH =b DQUOTE) with false by done.
    rewrite (pbind_ret NextChar _ (step_by 1 p) a (step_by 1 p)).
    2:{ apply NextChar_rest with (esc s ++ DQUOTE :: t). by rewrite rest_step, E. }
    rewrite (pbind_ret (Step 1) _ (step_by 1 p) tt (step_by 2 p)) by (unfold Step, modify; by rewrite step_by_add).
    rewrite (Hrec 2%nat s); [|simpl; lia | by rewrite rest_step, E | lia].
    rewrite unfold_ws_other, <- app_assoc; [done|]. by apply orb_true_iff in Eesc as [->%beq_true | ->%beq_true].
  - injection Ec as <- Eu. pose proof Eesc as [-> ->]%orb_false_iff. destruct (wsp a) eqn:Hw.
    2:{ rewrite (Hrec 1%nat s); [by rewrite unfold_ws_other, <- app_assoc | simpl; lia | by rewrite rest_step, E | lia]. }
    pose proof (take_drop_while skip_char s) as Hsw. pose proof (drop_while_head skip_char s) as Hh.
    set (w := take_while skip_char s) in *. set (s' := drop_while skip_char s) in *.
    assert (Forall (λ c, skip_char c = true) w) as Hwf by apply take_while_all.
    cbn [app] in E. rewrite <- Hsw, esc_skip, <- app_assoc in E by done.
    rewrite (string_spaces _ p a w _ E Hwf).
    2:{ destruct s' as [|b s'']; [done|]. cbn [escape app]. by case_if. }
    rewrite (Hrec (1 + length w)%nat s'); [| | | lia].
    + rewrite <- Hsw, esc_skip, unfold_ws_run, <- app_assoc by done. cbn [app length]. rewrite length_app. do 3 f_equal. lia.
    + rewrite <- Hsw. simpl. rewrite length_app. lia.
    + rewrite rest_step, E. simpl. by rewrite drop_app_length.
Qed.

(** C26: the parser's [String] reads a string that [quote] wrote with the quote
    and escape characters of RFC 822, and stops right after it.  It returns the
    string, except that a run of white space with a line break in it becomes a space;
    a string without line breaks is returned as it is. *)
Theorem String_quote (s t : str) (p : parser) (Hp : rest p = quote s DQUOTE BACKSLASH ++ t) :
  String p = Ret (unfold_ws [] s, step_by (length (quote s DQUOTE BACKSLASH)) p)
  ∧ (no_eol s → unfold_ws [] s = s).
Proof.
  split; [|apply unfold_ws_no_eol; constructor].
  unfold quote in *. cbn [app] in Hp. rewrite <- app_assoc in Hp. unfold String.
  rewrite (pbind_ret Comment _ p [] p) by (apply Comment_none; rewrite Hp; by repeat constructor).
  rewrite (pbind_ret _ _ _ _ _ (NextChar_rest _ _ _ Hp)), beq_refl. cbn [negb].
  rewrite (pbind_ret (Step 1) _ p tt (step_by 1 p)) by done.
  rewrite (pbind_ret fuel _ _ _ _ eq_refl).
  etransitivity; [apply (string_loop_esc _ s [] _ t); [by rewrite rest_step, Hp | apply fuel_rest]|].
  rewrite step_by_add. simpl. by rewrite length_app.
Qed.

(** ** Comments *)

(** Comment text with its parentheses and backslashes escaped. *)
Definition ctext (s : str) : str :=
  flat_map (λ c, if one_of (BACKSLASH :: $"()") c then [BACKSLASH; c] else [c]) s.

Lemma comment_body_ctext s u :
  comment_body (ctext s ++ ")"%byte :: u) 1 = (s, (length (ctext s) + 1)%nat).
Proof.
  induction s as [|c s IH]; [by destruct u|]. cbn [ctext flat_map]. fold (ctext s).
  rewrite length_app, <- app_assoc. destruct (one_of _ c) eqn:E; cbn [app length].
  - cbn [comment_body]. by rewrite beq_refl, IH.
  - unfold one_of in E. simpl in E. rewrite !orb_false_iff in E. destruct E as (E1 & E2 & E3 & _).
    cbn [comment_body]. by rewrite E1, E2, E3, IH.
Qed.

(** [Comment] returns the text of a comment whose parentheses
    and backslashes were escaped, remembers it as the last comment, and stops
    at the token after the comment. *)
Theorem Comment_ctext (s u : str) (p : parser)
    (Hp : rest p = $"(" ++ ctext s ++ $")" ++ u) (Hu : token_next u) :
  Comment p = Ret (s, set_lc s (step_by (length (ctext s) + 2) p)).
Proof.
  unfold Comment. assert (Whitespace p = Ret ([], p)) as HW.
  { unfold Whitespace. rewrite scan_eq, Hp. simpl. by rewrite step_by_0. }
  rewrite (pbind_ret _ _ _ _ _ HW), (pbind_ret fuel _ _ _ _ eq_refl). cbn [comment_loop].
  rewrite (pbind_ret (Present $"(") _ p true (step_by 1 p)) by (by rewrite (Present_ascii _ p $"(" _ Hp)).
  rewrite (pbind_ret (gets _) _ (step_by 1 p) (s, (length (ctext s) + 1)%nat) (step_by 1 p)).
  2:{ assert (rest (step_by 1 p) = ctext s ++ ")"%byte :: u) as Hr by (by rewrite rest_step, Hp).
      unfold gets. by rewrite Hr, comment_body_ctext. }
  rewrite (pbind_ret (Step (length (ctext s) + 1)) _ (step_by 1 p) tt (step_by (length (ctext s) + 2) p)).
  2:{ unfold Step, modify. rewrite step_by_add. do 3 f_equal. lia. }
  assert (rest (step_by (length (ctext s) + 2) p) = u) as Hr.
  { rewrite rest_step, Hp.
    replace ($"(" ++ ctext s ++ $")" ++ u) with (($"(" ++ ctext s ++ $")") ++ u) by by rewrite <- !app_assoc.
    apply drop_app_length'. rewrite !length_app. simpl. lia. }
  rewrite (pbind_ret Whitespace _ _ [] (step_by (length (ctext s) + 2) p)) by (apply Whitespace_none; by rewrite Hr).
  rewrite (pbind_ret (modify _) _ _ _ _ eq_refl). apply comment_loop_none. by rewrite <- Hr in Hu.
Qed.

(** ** Encoded words *)

Lemma require_ascii s p w t :
  rest p = w ++ t → length w = length s → ascii_str s = true → ascii_str w = true →
  map lower_byte w = map lower_byte s → require s p = Ret (tt, step_by (length s) p).
Proof.
  intros E Hl Hs Hw El. unfold require.
  assert (Present s p = Ret (true, step_by (length s) p)) as HP
    by (rewrite (Present_ascii s p w t) by done; by rewrite El, str_eqb_refl).
  by rewrite (pbind_ret _ _ _ _ _ HP).
Qed.

Lemma rest_step_app p w t : rest p = w ++ t → rest (step_by (length w) p) = t.
Proof. intros E. rewrite rest_step, E. apply drop_app_length. Qed.

Definition enc_char (b : bool) : byte := if b then "b" else "q".

Definition word_char (b : bool) (t : EncodedTextType) : byte → bool :=
  if b then base64_char else qp_char t.

Lemma encoded_result_id r : no_eol r → x08 ∉ r → encoded_result r = Ret r.
Proof.
  intros H1 H2. unfold encoded_result. rewrite no_eol_ContainsAny by done. cbn [mbind outcome_bind].
  pose proof (Index_byte_absent r x08 H2). unfold IndexByte. case_if; [lia | done].
Qed.

(** The choice of the encoding. *)
Lemma encoding_choice {A} (k : EncodingType → parse A) p b t :
  rest p = [enc_char b] ++ t →
  (q ← Present $"q"; encoding ← (if (q : bool) then mret QPEncoding else b ← Present $"b";
     if (b : bool) then mret Base64Encoding
     else c ← NextChar; _ ← set_err (UnknownEncoding c); mret QPEncoding); k encoding) p
  = k (if b then Base64Encoding else QPEncoding) (step_by 1 p).
Proof.
  intros E. pose proof (Present_ascii $"q" p [enc_char b] _ E) as Hq.
  pose proof (Present_ascii $"b" p [enc_char b] _ E) as Hb.
  destruct b; simpl in Hq, Hb; rewrite (pbind_ret _ _ _ _ _ (Hq eq_refl eq_refl eq_refl)); [|done].
  unfold mbind at 1, state_bind at 1. by rewrite (pbind_ret _ _ _ _ _ (Hb eq_refl eq_refl eq_refl)).
Qed.

(** The parser on an encoded word in encoding [b], at the start of [rest p]. *)
Lemma encodedWord_reads t p cs b txt u read r :
  rest p = $"=?" ++ cs ++ "?"%byte :: enc_char b :: "?"%byte :: txt ++ $"?=" ++ u →
  Forall (λ c, charset_char c = true) cs → "*"%byte ∉ cs →
  Forall (λ c, word_char b t c = true) txt →
  cs_reader cs = Some read → read (if b then de64 txt else deQP txt false) = Some r →
  no_eol r → x08 ∉ r →
  encodedWord t p = Ret (r, step_by (length cs + length txt + 7) (marked p)).
Proof.
  intros E Hcs Hstar Ht Hread Hr Hn H8. unfold encodedWord.
  rewrite (pbind_ret mark _ p _ _ (mark_eq p)).
  rewrite (pbind_ret (require $"=?") _ _ tt (step_by 2 (marked p))) by (by eapply require_ascii).
  rewrite (pbind_ret Valid _ _ true (step_by 2 (marked p))) by done. cbn [negb].
  set (q1 := step_by 2 (marked p)).
  assert (rest q1 = cs ++ "?"%byte :: enc_char b :: "?"%byte :: txt ++ $"?=" ++ u) as E1
    by (unfold q1; change (rest (step_by 2 (marked p))) with (rest (step_by 2 p)); by rewrite rest_step, E).
  rewrite (pbind_ret (scan charset_char) _ _ _ _ (scan_app _ q1 cs _ E1 Hcs eq_refl)).
  set (q2 := step_by (length cs) q1). pose proof (rest_step_app _ _ _ E1) as E2. fold q2 in E2.
  replace (Contains cs $"*") with false
    by (unfold Contains; pose proof (Index_byte_absent cs "*"%byte Hstar : Index cs $"*" < 0); lia).
  rewrite (pbind_ret (lift (Ret cs)) _ q2 cs q2) by done.
  rewrite (pbind_ret (require $"?") _ q2 tt (step_by 1 q2)) by (by apply (require_ascii $"?" q2 $"?" _ E2)).
  set (q3 := step_by 1 q2). pose proof (rest_step_app q2 $"?" _ E2) as E3. fold q3 in E3.
  set (q4 := step_by 1 q3). pose proof (rest_step_app q3 [enc_char b] _ E3) as E4. fold q4 in E4.
  rewrite (encoding_choice _ q3 b _ E3). fold q4.
  rewrite (pbind_ret (require $"?") _ q4 tt (step_by 1 q4)) by (by apply (require_ascii $"?" q4 $"?" _ E4)).
  set (q5 := step_by 1 q4). pose proof (rest_step_app q4 $"?" _ E4) as E5. fold q5 in E5.
  assert (scan (if bool_decide ((if b then Base64Encoding else QPEncoding) = Base64Encoding)
    then base64_char else qp_char t) q5 = Ret (txt, step_by (length txt) q5)) as Hscan.
  { destruct b; [exact (scan_app base64_char q5 txt _ E5 Ht eq_refl)|].
    refine (scan_app (qp_char t) q5 txt _ E5 Ht _). by destruct t. }
  rewrite (pbind_ret _ _ _ _ _ Hscan).
  set (q6 := step_by (length txt) q5). pose proof (rest_step_app _ _ _ E5) as E6. fold q6 in E6.
  rewrite (pbind_ret (require $"?=") _ q6 tt (step_by 2 q6)) by (by apply (require_ascii $"?=" q6 $"?=" _ E6)).
  rewrite (pbind_ret Valid _ _ true (step_by 2 q6)) by done. cbn [negb].
  unfold convert_word. rewrite Hread.
  replace (if bool_decide ((if b then Base64Encoding else QPEncoding) = QPEncoding)
    then deQP txt false else de64 txt) with (if b then de64 txt else deQP txt false) by by destruct b.
  rewrite Hr, encoded_result_id by done. unfold lift. cbn [mbind outcome_bind].
  do 2 f_equal. unfold q6, q5, q4, q3, q2, q1. rewrite !step_by_add. f_equal. lia.
Qed.

Lemma to64_base64 i : 0 <= i < 64 → base64_char (to64_at i) = true.
Proof.
  intros Hi. assert (forallb base64_char to64 = true) as H by reflexivity.
  rewrite forallb_forall in H. apply H, nth_In. change (length to64) with 64%nat. lia.
Qed.

Lemma e64_base64 s : Forall (λ c, base64_char c = true) (e64 s 0).
Proof.
  unfold e64. generalize 0 at 2 as c. induction s as [s IH] using str_length_ind. intros c.
  pose proof sextet_parts as H. pose proof bz_range as Hr.
  assert (∀ a b, 0 <= sextet0 a < 64 ∧ 0 <= sextet1 a b < 64 ∧ 0 <= sextet2 a b < 64 ∧ 0 <= sextet3 b < 64) as Hs.
  { intros a b. specialize (H a) as Ha. specialize (H b) as Hb. pose proof (Hr a). pose proof (Hr b).
    unfold sextet1, sextet2. divlia. }
  destruct s as [|a [|b [|d s]]]; cbn [e64_loop app]; [constructor|..];
    repeat (apply Forall_cons_2; [first [done | apply to64_base64, Hs; exact a | apply to64_base64; apply (Hs a) ] |]);
    [apply Forall_nil_2..|]. apply IH. simpl. lia.
Qed.

End Tokens.


Lemma Comment_ctext_witness :
  Comment (U := ascii_only_case) (newParser $"(a \(b\))x")
  = Ret ($"a (b)", set_lc $"a (b)" (step_by (length (ctext $"a (b)") + 2) (newParser $"(a \(b\))x"))).
Proof.
  apply (Comment_ctext (U := ascii_only_case) $"a (b)" $"x"); [reflexivity | by repeat split].
Defined.

(** The parser's quoted-printable encoded words keep
    their underscores, which RFC 2047 uses for spaces. *)
Theorem encodedWord_underscore (U : UnicodeCase) (CS : Charset)
    (Hcs : cs_reader $"utf-8" = Some Some) :
  ∃ q, encodedWord EncodedText (newParser $"=?utf-8?q?a_b?=") = Ret ($"a_b", q).
Proof.
  eexists. refine (encodedWord_reads EncodedText _ $"utf-8" false $"a_b" [] _ $"a_b" _ _ _ _ Hcs _ _ _);
    [reflexivity | repeat constructor | apply (bool_decide_unpack _); vm_compute; exact I
    | repeat constructor | reflexivity | no_eol | apply (bool_decide_unpack _); vm_compute; exact I].
Qed.

Lemma encodedWord_underscore_witness :
  ∃ q, encodedWord (U := ascii_only_case) (CS := plain_charsets) EncodedText
    (newParser $"=?utf-8?q?a_b?=") = Ret ($"a_b", q).
Proof. apply encodedWord_underscore. reflexivity. Defined.

(** An unfinished encoded word before a trailing space makes
    [Text] panic, in the error message [require] builds. *)
Theorem Text_panics (U : UnicodeCase) (CS : Charset) : Text (newParser $"=?x ") = Panic.
Proof. reflexivity. Qed.

(** ** Dot-atoms *)

Lemma simplify_returns s : all_wsp s = false → returns (simplify s).
Proof.
  intros H. unfold returns. destruct (simplify_cases s) as [(-> & ->) | [(_ & H2 & _)
    | [(a & m & b & -> & _ & _ & _ & ->) | (_ & ->)]]]; [eauto | congruence | eauto | eauto].
Qed.

Section DotAtoms.
Context {U : UnicodeCase}.

Definition atom_text (w : str) : Prop := w ≠ [] ∧ Forall (λ c, isAtext c = true) w.

(** What may follow a dot-atom: a token that is neither an atom nor a dot. *)
Definition atom_end (s : str) : Prop :=
  token_next s ∧ match s with c :: _ => isAtext c = false ∧ c ≠ "."%byte | [] => True end.

Lemma atext_token c : isAtext c = true → starts_token c ∧ c ≠ "."%byte ∧ wsp c = false.
Proof.
  intros H. split; [split_and!|split]; revert H; revert c; intros []; vm_compute; congruence.
Qed.

Lemma token_next_atom w t : atom_text w → token_next (w ++ t).
Proof. intros [Hne Hw]. destruct Hw as [|c w Hc Hw]; [done|]. by apply atext_token. Qed.

Lemma Atom_reads p w t :
  rest p = w ++ t → atom_text w → match t with c :: _ => isAtext c = false | [] => True end →
  Atom p = Ret (w, step_by (length w) p).
Proof.
  intros E Hw Ht. unfold Atom. rewrite (pbind_ret Comment _ p [] p).
  - apply (scan_app _ p w t E); [apply Hw | done].
  - apply Comment_none. rewrite E. by apply token_next_atom.
Qed.

Lemma following_token p : token_next (rest p) → ∃ f, following p = Ret (f, p).
Proof.
  intros H. unfold following, AtEnd, gets, mbind at 1, state_bind at 1.
  destruct (Nat.leb_spec (length (p_str p)) (p_at p)); [by eexists|].
  unfold mbind, state_bind, lift.
  destruct (simplify_returns (if Nat.ltb 15 (length (rest p)) then take 15 (rest p) else rest p)) as [f ->];
    [|by eexists].
  destruct (rest p) as [|c t] eqn:E.
  { assert (length (rest p) = 0)%nat as Hl by by rewrite E. rewrite length_rest in Hl. lia. }
  assert (wsp c = false) as Hc.
  { destruct H as [H _]. revert H. clear. revert c. by intros []. }
  case_if; simpl; by rewrite Hc.
Qed.

(** A parser at the end of a dot-atom finds no further part. *)
Lemma dot_atom_stop n result p :
  atom_end (rest p) → ∃ lc, dot_atom_loop (S n) result p = Ret (result, set_lc lc p).
Proof.
  intros [Ht Hd]. cbn [dot_atom_loop]. rewrite (pbind_ret mark _ p _ _ (mark_eq p)).
  rewrite (pbind_ret Comment _ _ [] (marked p)) by (by apply Comment_none).
  assert (∃ q, require $"." (marked p) = Ret (tt, q) ∧ rest q = rest p ∧ moves (marked p) q)
    as (q & Hq & Er & Hm).
  { pose proof (move_require $"." (marked p)) as Hm. revert Hm. unfold require.
    assert (Present $"." (marked p) = Ret (false, marked p)) as HP.
    { change (rest p) with (rest (marked p)) in Ht, Hd.
      destruct (rest (marked p)) as [|c t] eqn:E; [by apply Present_at_end|].
      rewrite (Present_ascii _ _ [c] t) by (try done; simpl; destruct Ht as (_ & ? & _); lia).
      destruct (_ ==s _) eqn:Ee; [|done]. apply str_eqb_true in Ee. exfalso.
      destruct Hd as [_ Hd]. apply Hd. revert Ee. clear. revert c. by intros []. }
    rewrite (pbind_ret _ _ _ _ _ HP). cbv iota. destruct (following_token (marked p) Ht) as [f Hf].
    rewrite (pbind_ret _ _ _ _ _ Hf). intros Hm. eexists. split_and!; [done | done | exact Hm]. }
  rewrite (pbind_ret _ _ _ _ _ Hq).
  rewrite (pbind_ret Comment _ _ [] q) by (apply Comment_none; by rewrite Er).
  assert (Atom q = Ret ([], q)) as Ha.
  { unfold Atom. rewrite (pbind_ret Comment _ _ [] q) by (apply Comment_none; by rewrite Er).
    rewrite scan_eq, Er. rewrite take_while_nil by (destruct (rest p); [done | apply Hd]). by rewrite step_by_0. }
  rewrite (pbind_ret _ _ _ _ _ Ha), str_eqb_refl.
  rewrite (pbind_ret (set_err TrailingDot) _ _ _ _ eq_refl), (pbind_ret Valid _ _ _ _ eq_refl). cbn [p_err set_state p_state st_err].
  unfold restore, modify, mbind, state_bind. rewrite restore_marked; [by eexists|].
  trans q; [done|]. exact (move_set_err TrailingDot q).
Qed.

Lemma dot_atom_loop_reads n ws u result p :
  Forall atom_text ws → atom_end u → rest p = flat_map (λ w, "."%byte :: w) ws ++ u →
  (length ws < n)%nat →
  ∃ q, dot_atom_loop n result p = Ret (result ++ flat_map (λ w, "."%byte :: w) ws, q) ∧ rest q = u.
Proof.
  intros Hws Hu. revert n result p. induction Hws as [|w ws Hw Hws IH]; intros n result p E Hn;
    (destruct n as [|n]; [simpl in Hn; lia|]).
  { destruct (dot_atom_stop n result p) as [lc H]; [by rewrite E|].
    exists (set_lc lc p). by rewrite app_nil_r. }
  cbn [flat_map] in *. rewrite <- app_assoc in E. cbn [dot_atom_loop app] in *.
  rewrite (pbind_ret mark _ p _ _ (mark_eq p)).
  rewrite (pbind_ret Comment _ _ [] (marked p)) by (apply Comment_none; change (token_next (rest p)); by rewrite E).
  rewrite (pbind_ret (require $".") _ _ tt (step_by 1 (marked p))) by (by apply (require_ascii $"." (marked p) $"." _ E)).
  pose proof (rest_step_app (marked p) $"." _ E) as E1. change (length $".") with 1%nat in E1.
  rewrite (pbind_ret Comment _ _ [] (step_by 1 (marked p)))
    by (apply Comment_none; rewrite E1; by apply token_next_atom).
  rewrite (pbind_ret Atom _ _ w (step_by (length w) (step_by 1 (marked p)))).
  2:{ apply (Atom_reads _ _ _ E1 Hw). destruct ws; simpl; [|done]. destruct u; [done | apply Hu]. }
  destruct (w ==s []) eqn:Ew; [by apply str_eqb_true in Ew; destruct Hw|].
  rewrite (pbind_ret (mret tt) _ _ _ _ eq_refl).
  rewrite (pbind_ret Valid _ _ true (step_by (length w) (step_by 1 (marked p)))) by done.
  destruct (IH n (result ++ $"." ++ w) _ (rest_step_app _ _ _ E1)) as (q & Hq & Er); [simpl in Hn; lia|].
  exists q. split; [|done]. rewrite Hq. by rewrite <- !app_assoc.
Qed.

(** C27: [DotAtom] reads atoms joined by dots as one dot-atom, up to
    the first byte that is neither. *)
Theorem DotAtom_reads (w : str) (ws : list str) (u : str) (p : parser)
    (Hws : Forall atom_text (w :: ws)) (Hu : atom_end u)
    (Hp : rest p = Join (w :: ws) $"." ++ u) :
  ∃ q, DotAtom p = Ret (Join (w :: ws) $".", q) ∧ rest q = u.
Proof.
  assert (Join (w :: ws) $"." = w ++ flat_map (λ w, "."%byte :: w) ws) as EJ.
  { clear. revert w. induction ws as [|v ws IH]; intros w; [by rewrite app_nil_r|].
    rewrite Join_cons, IH by done. done. }
  rewrite EJ in *. inversion Hws as [|? ? Hw Hws']; subst. rewrite <- app_assoc in Hp. unfold DotAtom.
  rewrite (pbind_ret Atom _ _ w (step_by (length w) p)).
  2:{ apply (Atom_reads _ _ _ Hp Hw). destruct ws; simpl; [|done]. destruct u; [done | apply Hu]. }
  destruct (w ==s []) eqn:Ew; [by apply str_eqb_true in Ew; destruct Hw|].
  rewrite (pbind_ret fuel _ _ _ _ eq_refl).
  apply (dot_atom_loop_reads _ ws u); [done | done | by apply rest_step_app|].
  assert (length ws ≤ length (flat_map (λ w, "."%byte :: w) ws))%nat.
  { clear. induction ws as [|v ws IH]; simpl; [lia|]. rewrite length_app. lia. }
  assert (length (rest p) = length w + (length (flat_map (λ w, "."%byte :: w) ws) + length u))%nat as Hl
    by by rewrite Hp, !length_app.
  rewrite length_rest in Hl. change (p_str (step_by (length w) p)) with (p_str p). lia.
Qed.
End DotAtoms.

Lemma DotAtom_reads_witness :
  ∃ q, DotAtom (U := ascii_only_case) (newParser $"mail.example.com>") = Ret ($"mail.example.com", q)
    ∧ rest q = $">".
Proof.
  apply (DotAtom_reads (U := ascii_only_case) $"mail" [$"example"; $"com"] $">");
    [by repeat constructor | by repeat split | reflexivity].
Defined.

Lemma String_quote_witness :
  ∃ q, String (U := ascii_only_case) (newParser (quote ($"a" ++ crlf ++ $" b") DQUOTE BACKSLASH ++ $" <x>"))
    = Ret ($"a b", q).
Proof.
  eexists. exact (proj1 (String_quote (U := ascii_only_case) ($"a" ++ crlf ++ $" b") $" <x>"
    (newParser (quote ($"a" ++ crlf ++ $" b") DQUOTE BACKSLASH ++ $" <x>")) eq_refl)).
Defined.
