(* ===== verification/Address.v ===== *)
(** * Addresses: the first part of [src/addresses.go]

    The [Address] value, how it is printed, and [Uniquify], which removes
    repeated addresses from a list. *)

From S2P Require Import Prelude GoStrings Strings Words.
Open Scope Z_scope.

Inductive AddressType :=
| NormalAddressType | BounceAddressType | EmptyGroupAddressType | LocalAddressType
| InvalidAddressType.

#[global] Instance AddressType_eq_dec : EqDecision AddressType.
Proof. solve_decision. Defined.

(** The errors of the address parser; the source formats each as a message. *)
Inductive addr_error :=
| LocalpartTooLong (n : Z) (localpart domain : str)
| ParseError (msg : addr_msg) (pos : Z) (nearby : str)
with addr_msg :=
| Msg (s : str)
| MsgOf (e : addr_error).

Record Address := {
  a_id : Z;
  a_name : str;
  Localpart : str;
  Domain : str;
  a_t : AddressType;
  a_err : option addr_error
}.

Abbreviation Addresses := (list Address).

Definition NewAddress (name localpart domain : str) : Address :=
  {| a_id := 0; a_name := name; Localpart := localpart; Domain := domain;
     a_t := if negb (domain ==s []) then NormalAddressType
            else if negb (localpart ==s []) then LocalAddressType
            else if negb (name ==s []) then EmptyGroupAddressType
            else if (name ==s []) && (localpart ==s []) && (domain ==s []) then BounceAddressType
            else InvalidAddressType;
     a_err := None |}.

(** ** Printing *)

Definition atom_special (c : byte) : bool := one_of (SQUOTE :: $"!#$%&*+-/=?^_`{|}~") c.

(** The loop of [Name]: whether the name is an atom, and whether it is ASCII. *)
Fixpoint name_scan (avoidUTF8 : bool) (s : str) (atom ascii : bool) : bool * bool :=
  match s with
  | [] => (atom, ascii)
  | c :: s' =>
      if is_lower c || is_upper c || is_digit c || atom_special c || (c =b SP)
      then name_scan avoidUTF8 s' atom ascii
      else if 128 <=? bz c
      then name_scan avoidUTF8 s' (if avoidUTF8 then false else atom) false
      else name_scan avoidUTF8 s' false ascii
  end.

Definition Name (a : Address) (avoidUTF8 : bool) : outcome str :=
  let '(atom, ascii) := name_scan avoidUTF8 (a_name a) true true in
  if atom || (a_name a ==s []) then Ret (a_name a)
  else if ascii || negb avoidUTF8 then Ret (quote (a_name a) DQUOTE BACKSLASH)
  else encodePhrase (a_name a).

(** The loop of [localpartIsSensible] on [a.Localpart[i:]]. *)
Fixpoint sensible_loop (s : str) : outcome bool :=
  match s with
  | [] => Ret true
  | c :: s' =>
      if c =b "." then
        match s' with
        | [] => Panic
        | d :: _ => if d =b "." then Ret false else sensible_loop s'
        end
      else if negb (is_lower c || is_upper c || is_digit c || atom_special c || (161 <=? bz c))
      then Ret false
      else sensible_loop s'
  end.

Definition localpartIsSensible (a : Address) : outcome bool :=
  if Localpart a ==s [] then Ret false else sensible_loop (Localpart a).

Definition needsUnicode (a : Address) : bool :=
  if isAscii (Localpart a) && isAscii (Domain a) then false else true.

(** [a.Localpart], quoted when it is not sensible. *)
Definition print_localpart (a : Address) : outcome str :=
  b ← localpartIsSensible a;
  Ret (if (b : bool) then Localpart a else quote (Localpart a) DQUOTE SQUOTE).

Definition unicode_marker : str := $"this-address@needs-unicode.invalid".

Definition toString (a : Address) (avoidUTF8 : bool) : outcome str :=
  match a_t a with
  | InvalidAddressType => Ret []
  | BounceAddressType => Ret $"<>"
  | EmptyGroupAddressType => n ← Name a true; Ret (n ++ $":;")
  | LocalAddressType =>
      if avoidUTF8 && needsUnicode a then Ret unicode_marker else print_localpart a
  | NormalAddressType =>
      if avoidUTF8 && needsUnicode a then Ret unicode_marker
      else
        '(prefix, postfix) ← (if negb (a_name a ==s [])
                              then n ← Name a avoidUTF8; Ret (n ++ $" <", $">")
                              else Ret ([], []));
        l ← print_localpart a;
        Ret (prefix ++ l ++ $"@" ++ Domain a ++ postfix)
  end.

Definition lpdomain (a : Address) : outcome str :=
  r ← (if bool_decide (a_t a = NormalAddressType) || bool_decide (a_t a = LocalAddressType)
       then print_localpart a else Ret []);
  let r := if bool_decide (a_t a = NormalAddressType) then r ++ $"@" ++ Domain a else r in
  if r ==s [] then toString a false else Ret r.

(** ** Removing duplicates *)

Section Uniquify.
Context {U : UnicodeCase}.

Definition key (a : Address) : str := ToTitle (Localpart a) ++ $"@" ++ ToTitle (Domain a).

Fixpoint uniquify_loop (l : Addresses) (dict : gmap str nat) (unique : Addresses) :
    outcome Addresses :=
  match l with
  | [] => Ret unique
  | a :: l' =>
      let k := key a in
      match dict !! k with
      | None => uniquify_loop l' (<[k := length unique]> dict) (unique ++ [a])
      | Some ix =>
          match unique !! ix with
          | None => Panic
          | Some u =>
              if (a_name u ==s []) && negb (a_name a ==s [])
              then uniquify_loop l' dict (<[ix := a]> unique)
              else uniquify_loop l' dict unique
          end
      end
  end.

Definition Uniquify (l : Addresses) : outcome Addresses :=
  match l with
  | [] => Ret l
  | _ => uniquify_loop l ∅ []
  end.
End Uniquify.
