(* ===== verification/AddressFacts.v ===== *)
(** * Theorems on addresses: [Address] *)

From S2P Require Import Prelude GoStrings Strings StringsFacts Words Address.
Open Scope Z_scope.

(** ** Uniquify *)

(** The list without the later occurrences of an element. *)
Fixpoint keep_first {A} `{EqDecision A} (l : list A) : list A :=
  match l with
  | [] => []
  | x :: l' => x :: base.filter (λ y, y ≠ x) (keep_first l')
  end.

Section KeepFirst.
Context {A : Type} `{EqDecision A}.
Implicit Types (x : A) (l : list A).

Lemma elem_of_keep_first x l : x ∈ keep_first l ↔ x ∈ l.
Proof.
  induction l as [|y l IH]; simpl; [done|].
  rewrite !elem_of_cons, list_elem_of_filter, IH. destruct (decide (x = y)); tauto.
Qed.

Lemma NoDup_keep_first l : NoDup (keep_first l).
Proof.
  induction l as [|y l IH]; simpl; constructor.
  - rewrite list_elem_of_filter. tauto.
  - by apply NoDup_filter.
Qed.

Lemma keep_first_snoc x l :
  keep_first (l ++ [x]) = if decide (x ∈ l) then keep_first l else keep_first l ++ [x].
Proof.
  induction l as [|y l IH]; cbn [app keep_first].
  { rewrite decide_False by apply not_elem_of_nil. done. }
  rewrite IH. destruct (decide (x ∈ l)) as [Hx|Hx].
  - by rewrite decide_True by (by right).
  - rewrite filter_app. destruct (decide (x = y)) as [->|Hne].
    + rewrite decide_True by left. rewrite filter_cons_False by tauto. by rewrite app_nil_r.
    + rewrite decide_False by (rewrite elem_of_cons; tauto). by rewrite filter_cons_True by done.
Qed.

Lemma keep_first_NoDup l : NoDup l → keep_first l = l.
Proof.
  induction 1 as [|x l Hx Hl IH]; simpl; [done|]. rewrite IH. f_equal.
  clear -Hx. induction l as [|y l IH]; [done|]. rewrite not_elem_of_cons in Hx.
  rewrite filter_cons_True by (intros ->; tauto). f_equal. tauto.
Qed.
End KeepFirst.

Section Uniquify.
Context {U : UnicodeCase}.

Definition has_name (a : Address) : bool := negb (a_name a ==s []).

(** The address that represents the key [k]: the first with a display name,
    or else the first. *)
Definition pick (l : Addresses) (k : str) : option Address :=
  match List.find (λ a, (key a ==s k) && has_name a) l with
  | Some a => Some a
  | None => List.find (λ a, key a ==s k) l
  end.

Lemma find_app {A} (f : A → bool) l a :
  List.find f (l ++ [a]) = match List.find f l with Some b => Some b | None => if f a then Some a else None end.
Proof. induction l as [|b l IH]; simpl; [by case_if|]. by case_if. Qed.

Lemma pick_mem l k a : pick l k = Some a → a ∈ l ∧ key a = k.
Proof.
  unfold pick. rewrite list_elem_of_In. destruct (List.find _ l) as [b|] eqn:E.
  - intros [= <-]. apply find_some in E as [? E]. by breflect.
  - intros H. apply find_some in H as [? H]. by breflect.
Qed.

Lemma pick_key l k a : pick l k = Some a → key a = k.
Proof. apply pick_mem. Qed.

(** How one more address changes the choice. *)
Lemma pick_snoc l a k :
  pick (l ++ [a]) k =
  if key a ==s k then
    match pick l k with
    | None => Some a
    | Some u => if (a_name u ==s []) && has_name a then Some a else Some u
    end
  else pick l k.
Proof.
  unfold pick. rewrite !find_app. destruct (key a ==s k) eqn:Ek; simpl.
  - destruct (List.find _ l) as [b|] eqn:E1.
    { apply find_some in E1 as [_ E1]. unfold has_name in E1. breflect.
      destruct (a_name b ==s []) eqn:Eb; [by breflect|]. done. }
    destruct (has_name a) eqn:Ea.
    + destruct (List.find (λ a0, key a0 ==s k) l) as [b|] eqn:E2; [|done].
      apply find_some in E2 as Hb. destruct Hb as [Hin Hb]. rewrite andb_true_r.
      pose proof (find_none _ _ E1 b Hin) as Hnb. simpl in Hnb. rewrite Hb in Hnb. unfold has_name in Hnb.
      destruct (a_name b ==s []); [done|]. done.
    + destruct (List.find (λ a0, key a0 ==s k) l); [|done]. by rewrite andb_false_r.
  - destruct (List.find (λ a0, (key a0 ==s k) && has_name a0) l); [done|]. by destruct (List.find (λ a0, key a0 ==s k) l).
Qed.

(** What holds after the addresses [done]: the dictionary maps each key to its
    place, and each place holds the chosen address. *)
Definition uniq_inv (done : Addresses) (dict : gmap str nat) (unique : Addresses) : Prop :=
  let ks := keep_first (map key done) in
  Forall2 (λ k a, pick done k = Some a) ks unique
  ∧ ∀ k i, dict !! k = Some i ↔ ks !! i = Some k.

Lemma uniquify_loop_spec l done dict unique :
  uniq_inv done dict unique →
  ∃ u, uniquify_loop l dict unique = Ret u
    ∧ Forall2 (λ k a, pick (done ++ l) k = Some a) (keep_first (map key (done ++ l))) u.
Proof.
  revert done dict unique. induction l as [|a l IH]; intros done dict unique [HF HD].
  { exists unique. by rewrite app_nil_r. }
  cbn [uniquify_loop]. replace (done ++ a :: l) with ((done ++ [a]) ++ l) by (by rewrite <- app_assoc).
  pose proof (Forall2_length _ _ _ HF) as Hlen.
  assert (keep_first (map key (done ++ [a])) = if decide (key a ∈ map key done) then
    keep_first (map key done) else keep_first (map key done) ++ [key a]) as Hks
    by (rewrite map_app; apply keep_first_snoc).
  destruct (dict !! key a) as [ix|] eqn:Ed.
  - apply HD in Ed as Hix. assert (key a ∈ map key done) as Hin
      by (apply elem_of_keep_first; by eapply list_elem_of_lookup_2).
    rewrite decide_True in Hks by done.
    destruct (Forall2_lookup_l _ _ _ _ _ HF Hix) as (u & Hu & Hpu). rewrite Hu.
    set (unique' := if (a_name u ==s []) && negb (a_name a ==s []) then <[ix:=a]> unique else unique).
    assert (uniq_inv (done ++ [a]) dict unique') as Hinv; [|by subst unique'; case_if; apply IH].
    split; rewrite Hks; [|done]. apply Forall2_same_length_lookup. split.
    { subst unique'. case_if; by rewrite ?length_insert. }
    intros i k b Hk Hb. rewrite pick_snoc. destruct (key a ==s k) eqn:Ek.
    + breflect. subst k. assert (i = ix) as ->
        by (by apply (NoDup_lookup (keep_first (map key done)) i ix (key a)); [apply NoDup_keep_first|..]).
      rewrite Hpu. unfold has_name. subst unique'. case_if; [|congruence].
      rewrite list_lookup_insert_eq in Hb by (by eapply lookup_lt_Some). congruence.
    + breflect. assert (i ≠ ix) as Hne by (intros ->; congruence).
      assert (unique !! i = Some b) as Hb'
        by (subst unique'; case_if_in Hb; [by rewrite list_lookup_insert_ne in Hb by done | done]).
      by apply (proj2 (proj1 (Forall2_same_length_lookup _ _ _) HF) i).
  - assert (key a ∉ map key done) as Hnin.
    { rewrite <- elem_of_keep_first, list_elem_of_lookup. intros [i Hi]. apply HD in Hi. congruence. }
    rewrite decide_False in Hks by done. apply IH. split; rewrite Hks.
    + apply Forall2_app.
      * apply Forall2_same_length_lookup. split; [done|]. intros i k b Hk Hb.
        rewrite pick_snoc. destruct (key a ==s k) eqn:Ek.
        { breflect. subst k. exfalso. apply Hnin, elem_of_keep_first. by eapply list_elem_of_lookup_2. }
        by apply (proj2 (proj1 (Forall2_same_length_lookup _ _ _) HF) i).
      * constructor; [|constructor]. rewrite pick_snoc, str_eqb_refl.
        destruct (pick done (key a)) as [b|] eqn:Ep; [|done].
        exfalso. apply Hnin. apply pick_mem in Ep as [Hb <-]. by apply list_elem_of_fmap_2.
    + intros k i. rewrite lookup_insert_Some, HD, <- Hlen, lookup_snoc_Some.
      split; [intros [[<- <-]|[Hne Hi]] | intros [[_ Hi]|[-> <-]]]; [by right | | | by left].
      * left. split; [by eapply lookup_lt_Some | done].
      * right. split; [|done]. intros <-. apply Hnin, elem_of_keep_first. by eapply list_elem_of_lookup_2.
Qed.

Lemma uniquify_total (l : Addresses) :
  ∃ u, Uniquify l = Ret u ∧ Forall2 (λ k a, pick l k = Some a) (keep_first (map key l)) u.
Proof.
  destruct l as [|a l]; [by exists []|].
  apply (uniquify_loop_spec (a :: l) [] ∅ []). split; [constructor|].
  intros k i. rewrite lookup_empty. by destruct i.
Qed.

Lemma map_key_pick l ks u : Forall2 (λ k a, pick l k = Some a) ks u → map key u = ks.
Proof. induction 1 as [|k a ks u H HF IH]; simpl; [done|]. by rewrite (pick_key _ _ _ H), IH. Qed.

Lemma pick_NoDup u a : NoDup (map key u) → a ∈ u → pick u (key a) = Some a.
Proof.
  intros Hn Ha. destruct (pick u (key a)) as [b|] eqn:E.
  - apply pick_mem in E as [Hb Hk]. f_equal.
    apply list_elem_of_lookup in Ha as [i Hi], Hb as [j Hj].
    assert (i = j) as ->; [|congruence].
    eapply NoDup_lookup; [exact Hn | by rewrite list_lookup_fmap, Hi | by rewrite list_lookup_fmap, Hj, <- Hk].
  - exfalso. unfold pick in E. destruct (List.find (λ a0, _ && _) u); [done|].
    apply list_elem_of_In, (find_none _ _ E) in Ha. simpl in Ha. by rewrite str_eqb_refl in Ha.
Qed.

Lemma uniquify_NoDup u : NoDup (map key u) → Uniquify u = Ret u.
Proof.
  intros Hn.
  destruct (uniquify_total u) as (v & -> & HF'). rewrite keep_first_NoDup in HF' by done.
  f_equal. apply list_eq_same_length with (length u); [done | |].
  { apply Forall2_length in HF'. by rewrite length_map in HF'. }
  intros i a b _ Ha Hb. assert (map key u !! i = Some (key b)) as Hk by (by rewrite list_lookup_fmap, Hb).
  pose proof (Forall2_lookup_lr _ _ _ _ _ _ HF' Hk Ha) as Hp. simpl in Hp.
  rewrite pick_NoDup in Hp; [congruence | done | by eapply list_elem_of_lookup_2].
Qed.

(** C21: [Uniquify] returns one address per key (local part and
    domain, case folded), in the order in which the keys first occur; each is
    the first address of that key that has a display name, or the first of that
    key when none has one.  Applied again it changes nothing. *)
Theorem uniquify_spec (l : Addresses) :
  ∃ u, Uniquify l = Ret u
    ∧ map key u = keep_first (map key l) ∧ NoDup (map key u)
    ∧ Forall2 (λ k a, pick l k = Some a) (keep_first (map key l)) u
    ∧ Uniquify u = Ret u.
Proof.
  destruct (uniquify_total l) as (u & Hu & HF). exists u.
  assert (NoDup (map key u)) as Hn by (rewrite (map_key_pick _ _ _ HF); apply NoDup_keep_first).
  split_and!; [done | by eapply map_key_pick | done | done|].
  by apply uniquify_NoDup.
Qed.
End Uniquify.
