(* ===== verification/AddrParser.v ===== *)
(** * The address parser: [AddressParser] of [src/addresses.go]

    The parser works backwards from the end of the string.  A position [i] is a
    [Z], which may go below zero; [sees] is a test of [s[i]] behind a guard that
    keeps [i] in range, while an unguarded [s[i]] is [char], which panics out of
    range.  The recursion of [comment] and [ccontent], the nesting of groups and
    the re-parsing of a quoted string are bounded by fuel. *)

From S2P Require Import Prelude GoStrings Strings Codec Words Parser Tlds Address.
Open Scope Z_scope.

Record AddressParser := {
  ap_s : str;
  firstError : option addr_error;
  recentError : option addr_error;
  ap_addresses : Addresses;
  lastComment : str
}.

Abbreviation ap := (state_m AddressParser).

Definition with_errors (f r : option addr_error) (p : AddressParser) : AddressParser :=
  {| ap_s := ap_s p; firstError := f; recentError := r; ap_addresses := ap_addresses p;
     lastComment := lastComment p |}.
Definition with_addresses (l : Addresses) (p : AddressParser) : AddressParser :=
  {| ap_s := ap_s p; firstError := firstError p; recentError := recentError p;
     ap_addresses := l; lastComment := lastComment p |}.
Definition with_comment (c : str) (p : AddressParser) : AddressParser :=
  {| ap_s := ap_s p; firstError := firstError p; recentError := recentError p;
     ap_addresses := ap_addresses p; lastComment := c |}.

(** ** Positions *)

Definition sees (s : str) (i : Z) (f : byte → bool) : bool :=
  (0 <=? i) && match s !! Z.to_nat i with Some c => f c | None => false end.

Definition char (i : Z) : ap byte := s ← gets ap_s; lift (at_ s i).
Definition part (lo hi : Z) : ap str := s ← gets ap_s; lift (slice s lo hi).

(** [for i >= lo && f(s[i]) { i-- }], for [lo >= 0]; it takes at most [i+1] rounds. *)
Fixpoint back_n (n : nat) (s : str) (f : byte → bool) (lo i : Z) : Z :=
  match n with
  | O => i
  | S n' => if (lo <=? i) && sees s i f then back_n n' s f lo (i - 1) else i
  end.

Definition back (s : str) (f : byte → bool) (lo i : Z) : Z :=
  back_n (Z.to_nat (i + 1)) s f lo i.

(** [for i <= hi && f(s[i]) { i++ }]; it takes at most [hi-i+1] rounds. *)
Fixpoint forth_n (n : nat) (s : str) (f : byte → bool) (hi i : Z) : Z :=
  match n with
  | O => i
  | S n' => if (i <=? hi) && sees s i f then forth_n n' s f hi (i + 1) else i
  end.

Definition forth (s : str) (f : byte → bool) (hi i : Z) : Z :=
  forth_n (Z.to_nat (hi - i + 1)) s f hi i.

Definition setError (msg : addr_msg) (i : Z) : ap unit :=
  let i := if i <? 0 then 0 else i in
  let start := if 8 <? i then i - 8 else 0 in
  s ← gets ap_s;
  let end_ := if len s <? 20 then len s else 20 in
  nearby ← lift (t ← slice s start end_; simplify t);
  let e := Some (ParseError msg i nearby) in
  modify (λ p, with_errors (match firstError p with None => e | f => f end) e p).

Definition space (i : Z) : ap Z := s ← gets ap_s; mret (back s wsp 0 i).

Section AddressParser.
Context {U : UnicodeCase} {CS : Charset}.

(** ** Comments *)

(** The loop of [comment] and the body of [ccontent].  A round of either moves
    to a smaller position, so [2 * len(s)] rounds are enough. *)
Fixpoint comment_rounds (n : nat) (i : Z) {struct n} : ap Z :=
  s ← gets ap_s;
  if (0 <? i) && sees s i (Byte.eqb ")") then
    match n with
    | O => out_of_fuel
    | S n' =>
        let j := i in
        i ← ccontent n' (i - 1);
        c ← char i;
        _ ← (if negb (c =b "(") then setError (Msg $"Unbalanced comment: ") i
             else
               t ← part i (j + 1);
               lc ← lift (fst <$> Comment (newParser t));
               modify (with_comment lc));
        i ← (if 0 <? i then space (i - 1) else mret i);
        comment_rounds n' i
    end
  else mret i
with ccontent (n : nat) (i : Z) {struct n} : ap Z :=
  match n with
  | O => out_of_fuel
  | S n' =>
      s ← gets ap_s;
      r ← (if (0 <? i) && sees s (i - 1) (Byte.eqb BACKSLASH) then mret (Some (i - 1))
           else
             c ← char i;
             if c =b ")" then
               i ← space i;
               i ← comment_rounds n' i;
               mret (Some i)
             else mret (if c =b "(" then None else Some i));
      match r with
      | None => mret i
      | Some i => if i =? 0 then mret i else ccontent n' (i - 1)
      end
  end.

Definition comment (i : Z) : ap Z :=
  i ← space i;
  s ← gets ap_s;
  comment_rounds (2 * length s + 2) i.

(** ** Domains and atoms *)

Fixpoint unqp_loop (s : str) (sp : bool) : outcome str :=
  match s with
  | [] => Ret []
  | c :: s' =>
      if wsp c then
        match s' with
        | [] => Panic (* the inner loop reads past the end *)
        | _ => unqp_loop s' true
        end
      else
        let pre := if sp then [SP] else [] in
        if c =b BACKSLASH then
          match s' with
          | [] => Panic
          | d :: s'' => r ← unqp_loop s'' false; Ret (pre ++ d :: r)
          end
        else r ← unqp_loop s' false; Ret (pre ++ c :: r)
  end.

Definition unqp (s : str) : outcome str := unqp_loop s false.

(** [net.ParseIP] and [IP.String] on a string of digits and dots: a dotted quad
    without leading zeroes prints as itself. *)
Definition octet (s : str) : bool :=
  match s with
  | [] => false
  | c :: s' =>
      forallb is_digit s && (len s <=? 3) && (negb (c =b "0") || (s' ==s []))
      && (fold_left (λ n d, n * 10 + (bz d - 48)) s 0 <=? 255)
  end.

Definition ParseIPv4 (s : str) : option str :=
  match Split s $"." with
  | [a; b; c; d] => if octet a && octet b && octet c && octet d then Some s else None
  | _ => None
  end.

(** [for isdigit(s[i]) || s[i] == '.' { i-- }] has no lower bound. *)
Definition digits_back (i : Z) : ap Z :=
  s ← gets ap_s;
  let i := back s (λ c, is_digit c || (c =b ".")) 0 i in
  if i <? 0 then lift Panic else mret i.

Definition atom_char (maybeEncodedWord : bool) (c : byte) : bool :=
  is_lower c || is_upper c || is_digit c || atom_special c
  || (maybeEncodedWord && (c =b ".")) || (128 <=? bz c).

Definition atom (i : Z) : ap (str * Z) :=
  i ← comment i;
  let j := i in
  maybeEncodedWord ← (if 0 <? j - 1 then t ← part (j - 1) (j + 1); mret (HasSuffix t $"?=")
                      else mret false);
  s ← gets ap_s;
  let i := back s (atom_char maybeEncodedWord) 0 i in
  r ← part (i + 1) (j + 1);
  i ← comment i;
  mret (r, i).

Fixpoint domain_dots (n : nat) (dom : str) (i : Z) : ap (str * Z) :=
  s ← gets ap_s;
  if sees s i (Byte.eqb ".") then
    match n with
    | O => out_of_fuel
    | S n' =>
        '(a, i) ← atom (i - 1);
        domain_dots n' (if a ==s [] then dom else a ++ $"." ++ dom) i
    end
  else mret (dom, i).

Definition domain (i : Z) : ap (str * Z) :=
  i ← comment i;
  if i <? 0 then mret ([], i)
  else
    c ← char i;
    ip ← (if is_digit c then
            let j := i in
            i ← digits_back i;
            t ← part (i + 1) (j + 1);
            mret (match ParseIPv4 t with Some ip => Some ($"[" ++ ip ++ $"]", i) | None => None end)
          else mret None);
    match ip with
    | Some r => mret r
    | None =>
        if c =b "]" then
          let j := i - 1 in
          s ← gets ap_s;
          let i := back s (λ c, negb (c =b "[")) 0 j in
          if 0 <? i then
            let i := i - 1 in
            t ← part (i + 1) j;
            dom ← lift (unqp t);
            mret (dom, i)
          else
            _ ← setError (Msg $"literal Domain missing [") i;
            mret ([], i)
        else
          '(dom, i) ← atom i;
          _ ← comment i;
          s ← gets ap_s;
          domain_dots (length s) dom i
    end.

(** ** Phrases *)

(** The backwards search for the quote that opens a quoted phrase. *)
Fixpoint quote_start (n : nat) (s : str) (i : Z) : Z :=
  match n with
  | O => i
  | S n' =>
      if (1 <? i) && sees s (i - 1) (Byte.eqb BACKSLASH) then quote_start n' s (i - 2)
      else if sees s i (λ c, negb (c =b DQUOTE)) then quote_start n' s (i - 1)
      else i
  end.

(** The encoded words inside a quoted phrase [w], from position [l]. *)
Fixpoint quoted_words (n : nat) (w : str) (l : Z) (word : str) (drop : bool) :
    outcome (str * bool) :=
  if (0 <=? l) && (l <? len w) && negb drop then
    match n with
    | O => OutOfFuel
    | S n' =>
        t ← from_ w l;
        let b := Index t $"=?" in
        if 0 <=? b then
          let b := b + l in
          let e := b + 2 in
          t ← from_ w e;
          let next := Index t $"?" in
          '(e, next) ← (if 0 <=? next then
                          let e := e + next + 1 in
                          t ← from_ w e; Ret (e, Index t $"?")
                        else Ret (e, next));
          '(e, next) ← (if 0 <=? next then
                          let e := e + next + 1 in
                          t ← from_ w e; Ret (e, Index t $"?=")
                        else Ret (e, next));
          if 0 <=? next then
            let e := e + next + 2 in
            t ← slice w b e;
            tmp ← de2047 t;
            t ← slice w l b;
            quoted_words n' w (e + 2) (word ++ t ++ tmp) (tmp ==s [])
          else quoted_words n' w l word true
        else Ret (word ++ t, drop)
    end
  else Ret (word, drop).

(** A word of a phrase: its text, whether it is an encoded word, where it
    starts, and whether the phrase must be dropped or has ended. *)
Record phrase_item := { w_text : str; w_enc : bool; w_at : Z; w_drop : bool; w_done : bool }.

Definition phrase_quoted (i : Z) (drop : bool) : ap phrase_item :=
  s ← gets ap_s;
  let j := i in
  let i := quote_start (length s) s (i - 1) in
  _ ← (if (i <? 0) || negb (sees s i (Byte.eqb DQUOTE))
       then setError (Msg ($"quoted phrase must begin with '" ++ [DQUOTE; SQUOTE])) i
       else mret tt);
  t ← part i (j + 1);
  let w := unquote t DQUOTE SQUOTE in
  '(word, drop) ← lift (quoted_words (S (length w)) w 0 [] drop);
  mret {| w_text := word; w_enc := false; w_at := i - 1; w_drop := drop; w_done := false |}.

(** [for l > 0 && i >= 0 && p.s[i] == '\\' ...] *)
Fixpoint atom_backslashes (n : nat) (l : Z) (a : str) (i : Z) : ap (str * Z) :=
  s ← gets ap_s;
  if (0 <? l) && sees s i (Byte.eqb BACKSLASH) then
    match n with
    | O => out_of_fuel
    | S n' => '(w, i) ← atom (i - 1); atom_backslashes n' (len w) (w ++ a) i
    end
  else mret (a, i).

Definition phrase_atom (i : Z) (drop : bool) : ap phrase_item :=
  '(a, i) ← atom i;
  s ← gets ap_s;
  '(a, i) ← atom_backslashes (length s) (len a) a i;
  if a ==s [] then
    mret {| w_text := []; w_enc := false; w_at := i; w_drop := drop; w_done := true |}
  else if HasPrefix a $"=?" then
    '(t, q) ← lift (Phrase (newParser a));
    tmp ← lift (simplify t);
    let drop := drop || HasPrefix tmp $"=?" || Contains tmp $"=?" in
    if Nat.leb (length (p_str q)) (p_at q) then
      mret {| w_text := tmp; w_enc := true; w_at := i; w_drop := drop; w_done := false |}
    else mret {| w_text := a; w_enc := false; w_at := i; w_drop := drop; w_done := false |}
  else mret {| w_text := a; w_enc := false; w_at := i; w_drop := drop; w_done := false |}.

(** How a word joins the phrase [r] that follows it. *)
Definition join_word (r word : str) (enc encw : bool) : str :=
  if r ==s [] then word
  else if match last word with Some c => c =b SP | None => false end then word ++ r
  else if negb (word ==s []) then
    (if negb enc || negb encw
        || ((len word + len r <? 50) && match r with c :: _ => ble c "Z" | [] => false end)
     then word ++ [SP] else word) ++ r
  else r.

Fixpoint addr_phrase_loop (n : nat) (r : str) (i : Z) (drop enc : bool) : ap (str * Z) :=
  if i <? 0 then r ← lift (simplify (if drop then [] else r)); mret (r, i)
  else match n with
  | O => out_of_fuel
  | S n' =>
      c ← char i;
      w ← (if (0 <? i) && (c =b DQUOTE) then phrase_quoted i drop
           else if c =b "." then
             '(a, i) ← atom (i - 1);
             mret {| w_text := a ++ $"."; w_enc := false; w_at := i; w_drop := drop; w_done := false |}
           else phrase_atom i drop);
      let r := join_word r (w_text w) enc (w_enc w) in
      i ← comment (w_at w);
      if w_done w then r ← lift (simplify (if w_drop w then [] else r)); mret (r, i)
      else addr_phrase_loop n' r i (w_drop w) (w_enc w)
  end.

Definition phrase (i : Z) : ap (str * Z) :=
  i ← comment i;
  s ← gets ap_s;
  addr_phrase_loop (S (length s)) [] i false false.

(** ** Local parts and routes *)

Fixpoint localpart_loop (n : nat) (r sep : str) (i : Z) (atomOnly : bool) : ap (str * Z * bool) :=
  match n with
  | O => out_of_fuel
  | S n' =>
      c ← char i;
      '(w, i) ← (if c =b DQUOTE then phrase i else atom i);
      let atomOnly := if c =b DQUOTE then false else atomOnly in
      let r := w ++ fst (decode sep $"us-ascii") ++ r in
      s ← gets ap_s;
      if sees s i (Byte.eqb ".") then
        sep ← part i (i + 1);
        localpart_loop n' r sep (i - 1) atomOnly
      else if HasPrefix w $"%" then localpart_loop n' r [] i atomOnly
      else mret (r, i, atomOnly)
  end.

Definition localpart (i : Z) : ap (str * Z) :=
  s ← gets ap_s;
  '(r, i, atomOnly) ← (if i <? 0 then mret ([], i, true)
                       else localpart_loop (S (length s)) [] [] i true);
  _ ← (if atomOnly && (r ==s []) then setError (Msg $"Empty Localpart") i else mret tt);
  mret (r, i).

Fixpoint route_loop (n : nat) (dom : str) (i : Z) : ap Z :=
  s ← gets ap_s;
  if negb (dom ==s []) && sees s i (λ c, (c =b ",") || (c =b "@")) then
    match n with
    | O => out_of_fuel
    | S n' =>
        let i := if sees s i (Byte.eqb "@") then i - 1 else i in
        let i := back s (Byte.eqb ",") 0 i in
        '(dom, i) ← domain i;
        route_loop n' dom i
    end
  else mret i.

Definition route (i : Z) : ap Z :=
  s ← gets ap_s;
  e ← gets firstError;
  if negb (sees s i (Byte.eqb ":")) || match e with Some _ => true | None => false end then mret i
  else
    '(dom, i) ← domain (i - 1);
    if dom ==s $"mailto" then mret i
    else
      i ← route_loop (length s) dom i;
      _ ← modify (with_errors None None);
      mret i.

(** ** Adding an address *)

Fixpoint outer_quotes (n : nat) (name : str) (i : Z) : Z :=
  match n with
  | O => i
  | S n' =>
      if (i <? len name - 1)
         && sees name i (λ c, sees name (len name - 1 - i) (Byte.eqb c)
                              && ((c =b SQUOTE) || (c =b DQUOTE)))
      then outer_quotes n' name (i + 1) else i
  end.

Definition add_name (name localpart domain : str) : outcome str :=
  let i := outer_quotes (length name) name 0 in
  name ← (if 0 <? i then slice name i (len name - i) else Ret name);
  name ← simplify name;
  name ← (if (1 <? len name) && sees name 0 (Byte.eqb "(")
             && sees name (len name - 1) (Byte.eqb ")")
          then t ← slice name 1 (len name - 1); simplify t else Ret name);
  let an := ToTitle name in
  if (len an =? len localpart + 1 + len domain)
     && (an ==s ToTitle localpart ++ $"@" ++ ToTitle domain)
  then Ret [] else Ret name.

Definition add (name localpart domain : str) : ap unit :=
  if 256 <? len localpart then
    modify (λ p,
      let e := Some (LocalpartTooLong (len localpart) localpart domain) in
      with_errors (match firstError p with None => e | f => f end) e p)
  else
    name ← lift (add_name name localpart domain);
    modify (λ p,
      let a := NewAddress name localpart domain in
      let a := {| a_id := a_id a; a_name := a_name a; Localpart := Localpart a;
                  Domain := Domain a; a_t := a_t a; a_err := recentError p |} in
      with_addresses (a :: ap_addresses p) p).

(** ** The forms of an address

    [Go i] continues with the comment before position [i], [Stop i] is an early
    return. *)
Inductive next := Go (i : Z) | Stop (i : Z).

(** [<>] *)
Definition addr_empty (i : Z) : ap next :=
  s ← gets ap_s;
  _ ← add [] [] [];
  let i := i - 2 in
  let i := if sees s i (Byte.eqb "<") then i - 1 else i in
  '(_, i) ← phrase i;
  mret (Go i).

(** [<Unknown-Recipient:;>] *)
Definition addr_unknown (i : Z) : ap next :=
  s ← gets ap_s;
  '(name, i) ← phrase (i - 3);
  _ ← add name [] [];
  mret (Go (if sees s i (Byte.eqb "<") then i - 1 else i)).

(** [<Unknown-Recipient:@x.y;>] *)
Definition addr_sendmail (x : Z) : ap next :=
  s ← gets ap_s;
  '(_, i) ← domain (x - 2);
  if (1 <? i) && sees s i (Byte.eqb "@") && sees s (i - 1) (Byte.eqb ":") then
    '(name, i) ← phrase (i - 2);
    _ ← add name [] [];
    mret (Go (if sees s i (Byte.eqb "<") then i - 1 else i))
  else mret (Go x).

(** [(Recipient list suppressed)@localhost]: letters, digits and hyphens of the
    comment; anything else is an error. *)
Fixpoint hyphenated (n : str) (i : Z) : ap str :=
  match n with
  | [] => mret []
  | c :: n' =>
      if is_lower c || is_upper c || is_digit c then b ← hyphenated n' i; mret (c :: b)
      else if (c =b SP) || (c =b "_") || (c =b "-") then b ← hyphenated n' i; mret ("-"%byte :: b)
      else _ ← setError (Msg $"Localpart contains parenthesis") i; hyphenated n' i
  end.

(** [unlisted-recipients:;]: the name before the colon, and where it starts. *)
Definition addr_unlisted (i : Z) : ap (option (str * Z)) :=
  s ← gets ap_s;
  let j := back s (Byte.eqb SP) 1 (i - 1) in
  c ← char j;
  if c =b ":" then
    '(n, j) ← phrase (j - 1);
    mret (if n ==s [] then None else Some (n, j))
  else mret None.

(** The local part [lp] with a space in it, back to the angle bracket. *)
Definition spaced_localpart (lp : str) (i : Z) : ap (str * Z) :=
  s ← gets ap_s;
  let j := back s (λ c, is_lower c || is_upper c || (c =b SP)) 0 i in
  if sees s j (Byte.eqb "<") then
    tmp ← part (j + 1) (i + 1);
    c ← char (i + 1);
    mret ((if c =b SP then tmp ++ [SP] else tmp) ++ lp, j)
  else mret (lp, i).

(** What stands before the [@] of a name-addr: local part, domain and name. *)
Definition name_addr_local (dom : str) (i : Z) : ap (str * str * str * Z) :=
  s ← gets ap_s;
  let i := back s (Byte.eqb "@") 1 (i - 1) in
  let aftercomment := i in
  i ← comment i;
  if (1 <=? i) && sees s i (Byte.eqb ";") then
    r ← addr_unlisted i;
    mret (match r with Some (n, j) => ([], [], n, j) | None => ([], dom, [], i) end)
  else if (i <? aftercomment) && (i <? 0) then
    lc ← gets lastComment;
    n ← lift (simplify lc);
    name ← hyphenated n i;
    mret ([], [], name, i)
  else
    '(lp, i) ← localpart i;
    c ← char i;
    '(lp, i) ← (if negb (c =b "<") then spaced_localpart lp i else mret (lp, i));
    mret (lp, dom, [], i).

(** [for i >= 0 && (s[i] == '@' || s[i] == '<')]: skip further phrases. *)
Fixpoint skip_names (n : nat) (name : str) (i : Z) : ap (str * Z) :=
  s ← gets ap_s;
  if sees s i (λ c, (c =b "@") || (c =b "<")) then
    match n with
    | O => out_of_fuel
    | S n' => '(_, i) ← phrase (i - 1); skip_names n' [] i
    end
  else mret (name, i).

Definition printable (c : byte) : bool := (32 <=? bz c) && (bz c <? 127).

(** [name <localpart@domain>] *)
Definition addr_name_addr (i : Z) : ap next :=
  s ← gets ap_s;
  '(dom, i) ← domain (i - 1);
  c ← char i;
  '(lp, dom, name, i) ←
    (if c =b "<" then mret (dom, [], [], i)
     else
       '(lp, dom, name, i) ← (if c =b "@" then name_addr_local dom i else mret ([], dom, [], i));
       i ← route i;
       mret (lp, dom, name, i));
  '(name, i) ←
    (if sees s i (Byte.eqb "<") then
       '(n, i) ← phrase (back s (Byte.eqb "<") 0 (i - 1));
       '(n, i) ← skip_names (length s) n i;
       mret (if n ==s [] then name else n, i)
     else mret (name, i));
  _ ← add (if forallb printable name then name else []) lp dom;
  mret (Go i).

(** [=?charset?q?text<a@b>?=] *)
Definition addr_encoded (i : Z) : ap next :=
  s ← gets ap_s;
  '(dom, i) ← domain (i - 3);
  c ← char i;
  if c =b "@" then
    '(lp, i) ← localpart (back s (Byte.eqb "@") 1 (i - 1));
    c ← char i;
    if c =b "<" then
      '(_, i) ← atom (i - 1);
      _ ← add [] lp dom;
      mret (Go i)
    else
      _ ← setError (Msg $"Expected '<' while in =?...?...<Localpart@Domain>?=") i;
      mret (Stop i)
  else
    _ ← setError (Msg $"Expected '@' while in =?...?...<Localpart@Domain>?=") i;
    mret (Stop i).

(** The members of a group, backwards from [i]: [inl (i, empty)] at the colon
    or at the start, [inr i] for an early return. *)
Fixpoint group_members (n : nat) (address : Z → ap Z) (i : Z) (empty : bool) : ap (Z * bool + Z) :=
  s ← gets ap_s;
  if (0 <? i) && negb (sees s i (Byte.eqb ":")) then
    match n with
    | O => out_of_fuel
    | S n' =>
        let j := i in
        i ← address i;
        if i =? j then
          _ ← setError (Msg $"Parsing stopped while in group parser") i; mret (inr i)
        else
          c ← char i;
          if c =b "," then group_members n' address (i - 1) false
          else if negb (c =b ":") then
            _ ← setError (Msg $"Expected : or ',' while parsing group") i; mret (inr i)
          else group_members n' address i false
    end
  else mret (inl (i, empty)).

(** [name: members;] *)
Definition addr_group (address : Z → ap Z) (i : Z) : ap next :=
  s ← gets ap_s;
  let i := i - 1 in
  _ ← comment i;
  r ← group_members (length s) address i true;
  match r with
  | inr i => mret (Stop i)
  | inl (i, empty) =>
      c ← char i;
      if c =b ":" then
        '(name, i) ← phrase (i - 1);
        _ ← (if (empty : bool) then add name [] [] else mret tt);
        mret (Go i)
      else mret (Go i)
  end.

(** A local part, a percent sign and a quoted address, as once used on VMS. *)
Definition addr_vms_quoted (i : Z) : ap next :=
  s ← gets ap_s;
  '(dom, x) ← domain (i - 1);
  if (0 <? x) && sees s x (Byte.eqb "@") then
    '(lp, x) ← localpart (x - 1);
    if (2 <? x) && sees s x (Byte.eqb DQUOTE) && sees s (x - 1) (Byte.eqb "%") then
      '(_, x) ← domain (x - 2);
      _ ← add [] lp dom;
      mret (Go x)
    else mret (Go i)
  else mret (Go i).

(** A node, two colons, a user and a quoted display name. *)
Definition addr_vms_node (i : Z) : ap next :=
  s ← gets ap_s;
  let b := back s (λ c, negb (c =b DQUOTE)) 1 (i - 1) in
  c ← char b;
  i ← (if c =b DQUOTE then _ ← part (b + 1) i; mret (b - 1) else mret i);
  '(lp, i) ← atom i;
  if (2 <? i) && sees s i (Byte.eqb ":") && sees s (i - 1) (Byte.eqb ":") then
    '(a, i) ← atom (i - 2);
    _ ← add [] (a ++ $"::" ++ lp) [];
    mret (Go i)
  else
    _ ← setError (Msg $"Expected NODE::USER while parsing VMS address") i;
    mret (Go i).

Definition date_char (c : byte) : bool :=
  is_lower c || is_upper c || is_digit c || one_of $" -:." c.

(** The scan of the date, on [date[dp:]]: it reads [date[dp]] before testing
    [dp < len(date)], so it can only stop at a byte. *)
Fixpoint date_scan (date : str) (dp : Z) : outcome Z :=
  match date with
  | [] => Panic
  | c :: date' => if date_char c then date_scan date' (dp + 1) else Ret dp
  end.

(** A node, two colons, a user, a quoted display name and a date. *)
Definition addr_date (i : Z) : ap next :=
  s ← gets ap_s;
  let x := back s (λ c, negb (c =b DQUOTE)) 1 i in
  t ← part (x + 1) i;
  date ← lift (simplify (ToLower t));
  dp ← lift (date_scan date 0);
  mret (Go (if (dp =? len date) && Contains date $"-19" then x else i)).

(** A whole address list between quotes. *)
Definition addr_wrapped (parse : str → outcome AddressParser) (i : Z) : ap next :=
  s ← gets ap_s;
  wrapped ← lift (parse (unquote s DQUOTE SQUOTE));
  match firstError wrapped with
  | None =>
      _ ← modify (λ p, with_addresses (ap_addresses p ++ ap_addresses wrapped) p);
      mret (Go (-1))
  | Some _ => _ ← setError (Msg $"Unexpected quote character") i; mret (Go i)
  end.

(** What stands before the [@] of an addr-spec. *)
Definition addr_spec_local (dom name : str) (i : Z) : ap (str * str * str * Z) :=
  s ← gets ap_s;
  let i := back s (Byte.eqb "@") 1 (i - 1) in
  let aftercomment := i in
  i ← comment i;
  if (1 <=? i) && sees s i (Byte.eqb ";") then
    r ← addr_unlisted i;
    mret (match r with Some (n, j) => ([], [], n, j) | None => ([], dom, name, i) end)
  else if (i <? aftercomment) && (i <? 0) then
    lc ← gets lastComment;
    n ← lift (simplify lc);
    _ ← hyphenated n i;
    mret ([], [], [], i)
  else
    '(lp, i) ← localpart i;
    mret (lp, dom, name, i).

(** [localpart@domain] or [localpart], with a comment as its name. *)
Definition addr_spec (i : Z) : ap next :=
  s ← gets ap_s;
  lc ← gets lastComment;
  let name := let '(t, ok) := decode lc $"us-ascii" in
              if negb ok || Contains lc $"=?" then [] else t in
  '(dom, i) ← domain i;
  '(lp, dom, name, i) ← (if sees s i (Byte.eqb "@") then addr_spec_local dom name i
                         else mret (dom, [], name, i));
  i ← route i;
  i ← comment i;
  _ ← (if negb (lp ==s []) || negb (dom ==s []) || negb (name ==s [])
       then add name lp dom else mret tt);
  mret (Go i).

(** [for i > 0 && s[i] == ',' { i--; i = p.comment(i) }] *)
Fixpoint skip_commas (n : nat) (i : Z) : ap Z :=
  s ← gets ap_s;
  if (0 <? i) && sees s i (Byte.eqb ",") then
    match n with
    | O => out_of_fuel
    | S n' => i ← comment (i - 1); skip_commas n' i
    end
  else mret i.

(** [for i > 1 && s[i] == '>' && s[i-1] == '>' { i-- }] *)
Fixpoint skip_angles (n : nat) (s : str) (i : Z) : Z :=
  match n with
  | O => i
  | S n' =>
      if (1 <? i) && sees s i (Byte.eqb ">") && sees s (i - 1) (Byte.eqb ">")
      then skip_angles n' s (i - 1) else i
  end.

(** The choice between the forms, for an address that ends at [i]. *)
Definition addr_form (parse : str → outcome AddressParser) (address : Z → ap Z) (s : str) (i : Z) :
    ap next :=
  let ends k c := sees s (i - k) (Byte.eqb c) in
  let before := take (Z.to_nat i) s in
  if i <? 0 then mret (Go i)
  else if (0 <? i) && ends 1 "<"%byte && ends 0 ">"%byte then addr_empty i
  else if (2 <? i) && ends 0 ">"%byte && ends 1 ";"%byte && ends 2 ":"%byte then addr_unknown i
  else if (2 <? i) && ends 0 ">"%byte && ends 1 ";"%byte && Contains before $":@" then addr_sendmail i
  else if ends 0 ">"%byte then addr_name_addr i
  else if (1 <? i) && ends 0 "="%byte && ends 1 "?"%byte && ends 2 ">"%byte then addr_encoded i
  else if ends 0 ";"%byte && Contains before $":" then addr_group address i
  else if ends 0 DQUOTE && Contains before ["%"%byte; DQUOTE] then addr_vms_quoted i
  else if ends 0 DQUOTE && Contains before $"::" then addr_vms_node i
  else if (10 <? i) && sees s i is_digit && ends 2 "."%byte
          && Contains s [DQUOTE] && Contains s $"-19" then addr_date i
  else if isQuoted s DQUOTE SQUOTE && Contains s $"@" then addr_wrapped parse i
  else addr_spec i.

Fixpoint address (parse : str → outcome AddressParser) (n : nat) (i : Z) : ap Z :=
  match n with
  | O => out_of_fuel
  | S n' =>
      _ ← modify (λ p, with_comment [] (with_errors (firstError p) None p));
      s ← gets ap_s;
      i ← comment i;
      i ← skip_commas (length s) i;
      let i := skip_angles (length s) s i in
      r ← addr_form parse (address parse n') s i;
      match r with
      | Go i => comment i
      | Stop i => mret i
      end
  end.

(** ** Borders *)

Definition domain_char (c : byte) : bool := is_lower c || is_upper c || is_digit c || (c =b "-").

(** The loop over [tlds]; the slice is [p.s[b:l]] as in the source. *)
Fixpoint find_tld (s : str) (ts : list str) (b right : Z) : outcome (option Z) :=
  match ts with
  | [] => Ret None
  | tld :: ts' =>
      let l := len tld in
      if b + l <=? right then
        c ← at_ s (b + l);
        if negb (is_lower c) && negb (is_upper c) && negb (is_digit c) then
          t ← slice s b l;
          if ToLower t ==s tld then Ret (Some (b + l)) else find_tld s ts' b right
        else find_tld s ts' b right
      else find_tld s ts' b right
  end.

(** The scan for the end of a domain: [inl r] is a border, [inr dot] the last
    dot seen when the whole area can be a domain. *)
Fixpoint border_scan (n : nat) (s : str) (left right b dot : Z) : outcome (Z + Z) :=
  if b <=? right then
    match n with
    | O => OutOfFuel
    | S n' =>
        let b0 := b in
        let b := forth s domain_char right b in
        if b =? b0 then
          Ret (inl (if (left <? b) && sees s (b - 1) (Byte.eqb ".") then b - 1 else b))
        else if b <=? right then
          if negb (sees s b (Byte.eqb ".")) then Ret (inl b)
          else
            let dot := b in
            let b := b + 1 in
            r ← find_tld s tlds b right;
            match r with
            | Some r => Ret (inl r)
            | None => border_scan n' s left right b dot
            end
        else border_scan n' s left right b dot
    end
  else Ret (inr dot).

(** [b := left + strings.IndexByte(p.s[left:], c); b >= left && b <= right] *)
Definition border_at (s : str) (left right : Z) (c : byte) : outcome (option Z) :=
  t ← from_ s left;
  let b := left + IndexByte t c in
  Ret (if (left <=? b) && (b <=? right) then Some b else None).

Definition findBorder (s : str) (left right : Z) : outcome Z :=
  if right <=? left then Ret left
  else
    comma ← border_at s left right ",";
    semicolon ← border_at s left right ";";
    lt ← border_at s left right "<";
    gt ← border_at s left right ">";
    match comma, semicolon, lt, gt with
    | Some b, _, _, _ | None, Some b, _, _ | None, None, Some b, _ | None, None, None, Some b => Ret b
    | None, None, None, None =>
        let b := forth s (λ c, negb (wsp c)) right left in
        if (left <=? b) && (b <=? right) then Ret b
        else
          r ← border_scan (S (length s)) s left right left left;
          match r with
          | inl b => Ret b
          | inr dot =>
              if (left <? dot) && (dot <? right) then Ret dot
              else if len s <=? right + 1 then Ret right
              else Ret left
          end
    end.

(** ** The whole list *)

(** [for i < j && i >= 0 && (s[i] == ',' || (!colon && s[i] == ';'))] *)
Fixpoint separators (n : nat) (s : str) (colon : bool) (j i : Z) : Z :=
  match n with
  | O => i
  | S n' =>
      if (i <? j) && sees s i (λ c, (c =b ",") || (negb colon && (c =b ";")))
      then separators n' s colon j (back s wsp 0 (i - 1)) else i
  end.

Fixpoint parse_loop (n : nat) (address : Z → ap Z) (colon : bool) (i j : Z) : ap Z :=
  if (0 <=? i) && (i <? j) then
    match n with
    | O => out_of_fuel
    | S n' =>
        let j := i in
        i ← address i;
        s ← gets ap_s;
        parse_loop n' address colon (separators (length s) s colon j i) j
    end
  else mret i.

Definition planB_char (c : byte) : bool :=
  is_lower c || is_upper c || is_digit c || (c =b ".") || (c =b "-").

(** One at-sign of plan B: the address around it, if there is one. *)
Definition around_atsign (s : str) (leftBorder rightBorder atsign : Z) : outcome (list Address) :=
  leftBorder ← (if 0 <? leftBorder then
                  c ← at_ s leftBorder;
                  Ret (if (c =b ".") || (c =b ">") then leftBorder + 1 else leftBorder)
                else Ret leftBorder);
  let end_ := forth s planB_char (rightBorder - 1)
                (forth s (Byte.eqb SP) (rightBorder - 1) (atsign + 1)) in
  let start := back s planB_char leftBorder (back s (Byte.eqb SP) leftBorder (atsign - 1)) + 1 in
  t ← slice s start atsign;
  lp ← simplify t;
  t ← slice s (atsign + 1) end_;
  dom ← simplify t;
  Ret (if negb (lp ==s []) && negb (dom ==s []) then [NewAddress [] lp dom] else []).

Fixpoint planB (n : nat) (s : str) (leftBorder atsign : Z) (acc : Addresses) : outcome Addresses :=
  if atsign <? 0 then Ret acc
  else match n with
  | O => OutOfFuel
  | S n' =>
      t ← from_ s (atsign + 1);
      let nextAtsign := IndexByte t "@" in
      '(rightBorder, nextAtsign) ←
        (if nextAtsign <? 0 then Ret (len s, nextAtsign)
         else
           let nextAtsign := nextAtsign + atsign + 1 in
           b ← findBorder s (atsign + 1) (nextAtsign - 1);
           Ret (b, nextAtsign));
      a ← around_atsign s leftBorder rightBorder atsign;
      planB n' s rightBorder nextAtsign (acc ++ a)
  end.

Definition planC_char (c : byte) : bool :=
  is_lower c || is_upper c || is_digit c || (c =b SP) || (c =b "_") || (c =b "-").

Definition planC (s : str) (p : AddressParser) : outcome AddressParser :=
  if Contains s $":;" && negb (Contains s $"@") then
    t ← upto s (Index s $":;");
    n ← simplify t;
    Ret (if forallb planC_char n
         then with_errors None None (with_addresses [NewAddress n [] []] p) else p)
  else Ret p.

Definition parse_addresses (address : Z → ap Z) (s : str) : outcome AddressParser :=
  let p := {| ap_s := s; firstError := None; recentError := None; ap_addresses := [];
              lastComment := [] |} in
  '(i, p) ← parse_loop (S (length s)) address (Contains s $":") (len s - 1) (len s) p;
  l ← Uniquify (ap_addresses p);
  let p := with_addresses l p in
  if (i <? 0) && match firstError p with None => true | Some _ => false end then Ret p
  else
    b ← planB (S (length s)) s 0 (IndexByte s "@") [];
    match b with
    | _ :: _ =>
        l ← Uniquify b;
        Ret (with_errors None None (with_addresses l p))
    | [] => planC s (with_addresses [] p)
    end.

(** [w] bounds the nesting of quoted lists, each two bytes shorter than the one
    around it; [length s] the nesting of groups. *)
Fixpoint NewAddressParser_fuel (w : nat) (s : str) : outcome AddressParser :=
  match w with
  | O => OutOfFuel
  | S w' => parse_addresses (address (NewAddressParser_fuel w') (S (length s))) s
  end.

Definition NewAddressParser (s : str) : outcome AddressParser :=
  NewAddressParser_fuel (S (length s)) s.

(** ** assertSingleAddress *)

Fixpoint assert_formats (l : Addresses) : outcome unit :=
  match l with
  | [] => Ret tt
  | a :: l' =>
      _ ← (if bool_decide (a_t a = NormalAddressType) then Ret [] else toString a false);
      assert_formats l'
  end.

Fixpoint assert_report (l : Addresses) : ap unit :=
  match l with
  | [] => mret tt
  | a :: l' =>
      _ ← (match a_err a with Some e => setError (MsgOf e) 0 | None => mret tt end);
      assert_report l'
  end.

(** The first loop of the source assigns to copies of the addresses, so what is
    left of it is the formatting of the messages. *)
Definition assertSingleAddress : ap unit :=
  l ← gets ap_addresses;
  _ ← lift (assert_formats l);
  _ ← assert_report l;
  match l with
  | [] => setError (Msg $"No address supplied") 0
  | _ => mret tt
  end.
End AddressParser.
