(* ===== verification/AddrParserFacts.v ===== *)
(** * Theorems on the address parser: [AddrParser]

    The parser ends on every input: every operation moves to a smaller
    position and leaves the input alone, so that the fuel of each loop is
    enough.  On a list of plain addresses it returns exactly those addresses. *)

From S2P Require Import Prelude GoStrings Strings StringsFacts Codec CodecFacts Words WordsFacts.
From S2P Require Import Parser ParserFacts Tlds Address AddressFacts AddrParser.
Open Scope Z_scope.

(** ** Rules

    [keeps s m Q]: on a parser of the input [s] the operation [m] ends, keeps
    the input, and what it returns satisfies [Q]. *)
Definition keeps {A} (s : str) (m : ap A) (Q : A → Prop) : Prop :=
  ∀ p, ap_s p = s → post (m p) (λ '(a, q), ap_s q = s ∧ Q a).

Section Rules.
Context (s : str).

Lemma keeps_bind {A B} (m : ap A) (f : A → ap B) R Q :
  keeps s m R → (∀ a, R a → keeps s (f a) Q) → keeps s (m ≫= f) Q.
Proof.
  intros Hm Hf p Hp. eapply pbind_post; [by apply Hm|]. intros a q [Hq Ha]. by apply Hf.
Qed.

Lemma keeps_ret {A} (a : A) (Q : A → Prop) : Q a → keeps s (mret a) Q.
Proof. intros Ha p Hp. done. Qed.

Lemma keeps_mono {A} (m : ap A) (R Q : A → Prop) :
  keeps s m R → (∀ a, R a → Q a) → keeps s m Q.
Proof. intros Hm H p Hp. eapply post_mono; [by apply Hm|]. intros [a q] [Hq Ha]. auto. Qed.

Lemma keeps_input {B} (f : str → ap B) Q : keeps s (f s) Q → keeps s (gets ap_s ≫= f) Q.
Proof. intros H p Hp. unfold mbind, state_bind, gets. rewrite Hp. by apply H. Qed.

Lemma keeps_gets {A} (f : AddressParser → A) : keeps s (gets f) (λ _, True).
Proof. intros p Hp. done. Qed.

Lemma keeps_modify (f : AddressParser → AddressParser) :
  (∀ p, ap_s (f p) = ap_s p) → keeps s (modify f) (λ _, True).
Proof. intros H p Hp. simpl. by rewrite H. Qed.

Lemma keeps_lift {A} (m : outcome A) (Q : A → Prop) : post m Q → keeps s (lift m) Q.
Proof. intros H p Hp. unfold lift. destruct m; simpl in *; auto. Qed.

Lemma ends_post {A} (m : outcome A) : ends m → post m (λ _, True).
Proof. unfold ends. by destruct m. Qed.

Lemma keeps_ends {A} (m : outcome A) : ends m → keeps s (lift m) (λ _, True).
Proof. intros H. by apply keeps_lift, ends_post. Qed.

Lemma keeps_char i : keeps s (char i) (λ c, 0 <= i < len s ∧ s !! Z.to_nat i = Some c).
Proof. apply keeps_input, keeps_lift, post_at. auto. Qed.

Lemma keeps_part lo hi :
  keeps s (part lo hi) (λ t, 0 <= lo <= hi ∧ hi <= len s ∧ t = take (Z.to_nat (hi - lo)) (drop (Z.to_nat lo) s)).
Proof. apply keeps_input, keeps_lift, post_slice. auto. Qed.

Lemma keeps_if {A} (b : bool) (m m' : ap A) Q :
  (b = true → keeps s m Q) → (b = false → keeps s m' Q) → keeps s (if b then m else m') Q.
Proof. destruct b; auto. Qed.

Lemma keeps_setError msg i : keeps s (setError msg i) (λ _, True).
Proof.
  unfold setError. apply keeps_input.
  eapply keeps_bind; [apply keeps_ends, bind_ends; [apply slice_ends | intros; apply simplify_ends]|].
  intros t _. by apply keeps_modify.
Qed.
End Rules.

(** ** Positions *)

Lemma sees_range s i f : sees s i f = true → 0 <= i < len s.
Proof.
  unfold sees. intros [Hi H]%andb_true_iff.
  destruct (s !! Z.to_nat i) eqn:E; [apply lookup_lt_Some in E; lia | done].
Qed.

Lemma back_n_le n s f lo i : back_n n s f lo i <= i.
Proof.
  revert i. induction n as [|n IH]; intros i; simpl; [lia|]. case_if; [|lia].
  specialize (IH (i - 1)). lia.
Qed.

Lemma back_le s f lo i : back s f lo i <= i.
Proof. apply back_n_le. Qed.

Lemma forth_n_ge n s f hi i : i <= forth_n n s f hi i <= Z.max i (hi + 1).
Proof.
  revert i. induction n as [|n IH]; intros i; simpl; [lia|]. case_if; [|lia].
  specialize (IH (i + 1)). lia.
Qed.

Lemma forth_ge s f hi i : i <= forth s f hi i <= Z.max i (hi + 1).
Proof. apply forth_n_ge. Qed.

Lemma keeps_space s i : keeps s (space i) (λ i', i' <= i).
Proof. apply keeps_input, keeps_ret, back_le. Qed.

(** Take one action of an operation on the input [s]. *)
Ltac kbind H := eapply keeps_bind; [apply H | cbn beta; intros].

Section Termination.
Context {U : UnicodeCase} {CS : Charset} {CL : CharsetLaws CS}.
Context (s : str).

Lemma Comment_ends t : ends (fst <$> Comment (newParser t)).
Proof.
  pose proof (move_Comment (newParser t)) as H. unfold ends.
  by destruct (Comment (newParser t)) as [[]| |].
Qed.

Lemma comment_keeps_fuel (n : nat) :
  (∀ i, i < len s → 2 * i + 1 <= Z.of_nat n → keeps s (comment_rounds n i) (λ i', i' <= i))
  ∧ (∀ i, i < len s → 2 * i + 2 <= Z.of_nat n → (1 <= n)%nat → keeps s (ccontent n i) (λ i', 0 <= i' <= i)).
Proof.
  induction n as [|n [IH1 IH2]]; (split; [intros i Hi Hn | intros i Hi Hn Hn1]);
    cbn [comment_rounds ccontent].
  - apply keeps_input. case_if; [lia | apply keeps_ret; lia].
  - lia.
  - apply keeps_input. apply keeps_if; [intros Hc | intros _; apply keeps_ret; lia].
    kbind (IH2 (i - 1)); [lia..|]. rename a into i1.
    kbind (keeps_char s i1).
    eapply (keeps_bind s _ _ (λ _, True)).
    { apply keeps_if; intros _; [apply keeps_setError|].
      kbind (keeps_part s i1 (i + 1)). kbind (keeps_ends s _ (Comment_ends a0)). by apply keeps_modify. }
    intros _ _. eapply (keeps_bind s _ _ (λ i2, i2 <= i1)).
    { apply keeps_if; intros; [|apply keeps_ret; lia].
      eapply keeps_mono; [apply keeps_space|]. simpl. lia. }
    intros i2 Hi2. eapply keeps_mono; [apply IH1; lia|]. simpl. lia.
  - apply keeps_input.
    eapply (keeps_bind s _ _ (λ r, match r with
      | None => 0 <= i | Some i1 => i1 <= i ∧ (0 <= i) end)).
    { apply keeps_if; intros Hc; [apply keeps_ret; lia|].
      kbind (keeps_char s i). destruct H as [H _].
      apply keeps_if; intros _; [|apply keeps_ret; case_if; lia].
      kbind (keeps_space s i). kbind (IH1 a0); [lia..|]. apply keeps_ret. lia. }
    intros [i1|] Hr; [|apply keeps_ret; lia].
    apply keeps_if; intros; [apply keeps_ret; lia|].
    eapply keeps_mono; [apply IH2; lia|]. simpl. lia.
Qed.

Lemma keeps_comment i : i < len s → keeps s (comment i) (λ i', i' <= i).
Proof.
  intros Hi. kbind (keeps_space s i). apply keeps_input.
  eapply keeps_mono; [apply comment_keeps_fuel; lia|]. simpl. lia.
Qed.

Lemma back_lt f lo i : lo <= i → sees s i f = true → back s f lo i < i.
Proof.
  intros Hlo Hs. apply sees_range in Hs as Hr. unfold back.
  replace (Z.to_nat (i + 1)) with (S (Z.to_nat i)) by lia. simpl. rewrite Hs.
  replace (lo <=? i) with true by lia. pose proof (back_n_le (Z.to_nat i) s f lo (i - 1)). simpl. lia.
Qed.

(** [m] returns a position that is at most [i], less than [i] when there is text. *)
Definition reads (i : Z) : str * Z → Prop := λ '(r, i'), i' <= i ∧ (r ≠ [] → i' < i).

Lemma keeps_atom i : i < len s → keeps s (atom i) (reads i).
Proof.
  intros Hi. kbind (keeps_comment i Hi). rename a into j.
  eapply (keeps_bind s _ _ (λ _, True)).
  { apply keeps_if; intros _; [|by apply keeps_ret]. kbind (keeps_part s (j - 1) (j + 1)). by apply keeps_ret. }
  intros b _. apply keeps_input. set (k := back s (atom_char b) 0 j).
  pose proof (back_le s (atom_char b) 0 j). kbind (keeps_part s (k + 1) (j + 1)). rename a into r.
  destruct H1 as (_ & _ & Hr). kbind (keeps_comment k); [unfold k; lia|].
  apply keeps_ret. split; [unfold k in *; lia|]. intros Hne.
  destruct (decide (k = j)) as [E|]; [|unfold k in *; lia]. exfalso. apply Hne.
  rewrite Hr. replace (Z.to_nat (j + 1 - (k + 1))) with 0%nat by lia. done.
Qed.

Lemma keeps_domain_dots n dom i :
  i < len s → i < Z.of_nat n → keeps s (domain_dots n dom i) (λ '(_, i'), i' <= i).
Proof.
  revert dom i. induction n as [|n IH]; intros dom i Hi Hn; cbn [domain_dots]; apply keeps_input;
    (destruct (sees s i (Byte.eqb ".")) eqn:E; [apply sees_range in E | apply keeps_ret; lia]); [lia|].
  kbind (keeps_atom (i - 1)); [lia|]. destruct a as [a i1]. destruct H as [H _].
  eapply keeps_mono; [apply IH; lia|]. intros [? ?]. lia.
Qed.

Lemma unqp_loop_ends t sp : ends (unqp_loop t sp).
Proof.
  revert sp. induction t as [t IH] using str_length_ind. intros sp.
  destruct t as [|c t]; cbn [unqp_loop]; [done|]. case_if.
  - destruct t; [done|]. apply IH. simpl. lia.
  - case_if.
    + destruct t as [|d t]; [done|]. apply bind_ends; [apply IH; simpl; lia | done].
    + apply bind_ends; [apply IH; simpl; lia | done].
Qed.

Lemma keeps_digits_back i : keeps s (digits_back i) (λ i', i' <= i).
Proof.
  apply keeps_input. cbv zeta. apply keeps_if; intros _; [apply keeps_lift; exact I|].
  apply keeps_ret, back_le.
Qed.

Lemma keeps_domain i : i < len s → keeps s (domain i) (λ '(_, i'), i' <= i).
Proof.
  intros Hi. kbind (keeps_comment i Hi). rename a into j.
  apply keeps_if; intros Hj; [by apply keeps_ret|].
  kbind (keeps_char s j). rename a into c.
  eapply (keeps_bind s _ _ (λ r, match r with Some (_, i') => i' <= i | None => True end)).
  { apply keeps_if; intros _; [|by apply keeps_ret]. cbv zeta. kbind (keeps_digits_back j).
    kbind (keeps_part s (a + 1) (j + 1)). apply keeps_ret. destruct (ParseIPv4 a0); [lia | done]. }
  intros [[d k]|] Hr; [by apply keeps_ret|].
  apply keeps_if; intros _.
  - cbv zeta. apply keeps_input. pose proof (back_le s (λ c, negb (c =b "[")) 0 (j - 1)).
    apply keeps_if; intros _.
    + kbind keeps_part. kbind (keeps_ends s _ (unqp_loop_ends a false)). apply keeps_ret. lia.
    + kbind (keeps_setError s). apply keeps_ret. lia.
  - kbind (keeps_atom j); [lia|]. destruct a as [a k]. destruct H1 as [H1 _].
    kbind (keeps_comment k); [lia|]. apply keeps_input.
    eapply keeps_mono; [apply keeps_domain_dots; lia|]. intros [? ?]. lia.
Qed.

Lemma at_ends t i : ends (at_ t i).
Proof. unfold at_, ends. case_if; [done|]. by case_match. Qed.

Lemma de2047_ends t : ends (de2047 t).
Proof.
  unfold de2047. case_if; [done|]. case_if; [done|].
  apply bind_ends; [apply at_ends | intros q _]. case_if; [done|].
  apply bind_ends; [apply slice_ends | intros e _]. apply bind_ends; [apply at_ends | intros c _].
  destruct (de2047_text c e); [|done]. apply bind_ends; [apply slice_ends | intros enc _].
  destruct (cs_writer enc); [done|]. case_if; [done|]. by destruct (cs_writer $"us-ascii").
Qed.

Lemma quoted_words_ends n w l word drop : len w - l < Z.of_nat n → ends (quoted_words n w l word drop).
Proof.
  revert l word drop. induction n as [|n IH]; intros l word drop Hn; cbn [quoted_words];
    (destruct ((0 <=? l) && (l <? len w) && negb drop) eqn:Hc; [|done]); [lia|].
  apply bind_ends; [apply slice_ends | intros t _].
  destruct (Z.leb_spec 0 (Index t $"=?")); [|done].
  set (b := Index t $"=?" + l). apply bind_ends; [apply slice_ends | intros t2 _].
  assert (∀ (e next : Z), b + 2 <= e → ∀ p : str,
    post (if 0 <=? next then t3 ← from_ w (e + next + 1); Ret (e + next + 1, Index t3 p) else Ret (e, next))
      (λ '(e', _), b + 2 <= e')) as Hstep.
  { intros e next He p. destruct (Z.leb_spec 0 next); [|done].
    eapply post_bind; [apply ends_post, slice_ends|]. intros ? _. simpl. lia. }
  eapply post_ends. eapply post_bind; [apply (Hstep (b + 2)); lia|]. intros [e1 n1] He1.
  eapply post_bind; [apply (Hstep e1); lia|]. intros [e2 n2] He2.
  destruct (Z.leb_spec 0 n2).
  - apply ends_post. apply bind_ends; [apply slice_ends | intros t4 _].
    apply bind_ends; [apply de2047_ends | intros tmp _]. apply bind_ends; [apply slice_ends | intros t5 _].
    apply IH. subst b. lia.
  - apply ends_post. destruct n; cbn [quoted_words]; by rewrite andb_false_r.
Qed.

Lemma quote_start_le n i : quote_start n s i <= i.
Proof.
  revert i. induction n as [|n IH]; intros i; simpl; [lia|].
  case_if; [specialize (IH (i - 2)); lia|]. case_if; [specialize (IH (i - 1)); lia | lia].
Qed.

Lemma keeps_phrase_quoted i drop : keeps s (phrase_quoted i drop) (λ w, w_at w < i ∧ w_done w = false).
Proof.
  unfold phrase_quoted. apply keeps_input. cbv zeta.
  pose proof (quote_start_le (length s) (i - 1)). set (k := quote_start (length s) s (i - 1)) in *.
  eapply (keeps_bind s _ _ (λ _, True)).
  { apply keeps_if; intros _; [apply keeps_setError | by apply keeps_ret]. }
  intros _ _. kbind keeps_part.
  kbind (keeps_ends s (quoted_words (S (length (unquote a DQUOTE SQUOTE))) (unquote a DQUOTE SQUOTE) 0 [] drop)).
  { apply quoted_words_ends. lia. }
  destruct a0 as [word d]. apply keeps_ret. simpl. split; [lia | done].
Qed.

Lemma keeps_atom_backslashes n l a i :
  i < len s → i < Z.of_nat n →
  keeps s (atom_backslashes n l a i) (λ '(a', i'), i' <= i ∧ (l <= 0 → a' = a)).
Proof.
  revert l a i. induction n as [|n IH]; intros l a i Hi Hn; cbn [atom_backslashes]; apply keeps_input;
    (apply keeps_if; [intros [Hl E]%andb_true_iff | intros; apply keeps_ret; split; [lia | done]]);
    apply sees_range in E; [lia|].
  kbind (keeps_atom (i - 1)); [lia|]. destruct a0 as [w i1]. destruct H as [H _].
  eapply keeps_mono; [apply IH; lia|]. intros [? ?] [? _]. split; lia.
Qed.

Lemma Phrase_ends t : ends (Phrase (newParser t)).
Proof. eapply post_ends, move_Phrase. Qed.

Lemma keeps_phrase_atom i drop :
  i < len s → keeps s (phrase_atom i drop)
    (λ w, w_at w <= i ∧ (w_done w = false → w_at w < i) ∧ (w_done w = true → w_text w = [])).
Proof.
  intros Hi. kbind (keeps_atom i Hi). destruct a as [a i1]. destruct H as [H1 H2]. apply keeps_input.
  kbind (keeps_atom_backslashes (length s) (len a) a i1); [lia..|]. destruct a0 as [a' i2]. destruct H as [H3 H4].
  assert (a' ≠ [] → i2 < i) as Hp.
  { intros Ha'. destruct (decide (a = [])) as [->|Ha]; [|specialize (H2 Ha); lia].
    rewrite H4 in Ha' by (simpl; lia). done. }
  destruct (a' ==s []) eqn:Ea; [apply keeps_ret; simpl; split_and!; [lia | done | done]|]. apply str_eqb_false in Ea.
  specialize (Hp Ea).
  apply keeps_if; intros _; [|apply keeps_ret; simpl; split_and!; [lia | lia | done]].
  kbind (keeps_ends s _ (Phrase_ends a')). destruct a0 as [t q]. kbind (keeps_ends s _ (simplify_ends t)).
  apply keeps_if; intros _; apply keeps_ret; simpl; split_and!; solve [lia | done].
Qed.

Lemma keeps_phrase_loop n r i drop enc :
  i < len s → i < Z.of_nat n →
  keeps s (addr_phrase_loop n r i drop enc) (λ '(r', i'), i' <= i ∧ (r = [] → r' ≠ [] → i' < i)).
Proof.
  assert (∀ (drop : bool) (r : str), post (simplify (if drop then [] else r)) (λ r', r = [] → r' = [])) as Hsimp.
  { intros d r0. destruct (decide (r0 = [])) as [->|]; [by destruct d|].
    eapply post_mono; [apply ends_post, simplify_ends | done]. }
  revert r i drop enc. induction n as [|n IH]; intros r i drop enc Hi Hn; cbn [addr_phrase_loop];
    (apply keeps_if; intros Hneg;
      [kbind (keeps_lift s _ _ (Hsimp drop r)); apply keeps_ret; split; [lia|]; intros Hr Hr'; by rewrite H in Hr'|]);
    [lia|].
  kbind (keeps_char s i). rename a into c.
  eapply (keeps_bind s _ _ (λ w, w_at w <= i ∧ (w_done w = false → w_at w < i) ∧ (w_done w = true → w_text w = []))).
  { apply keeps_if; intros Hq.
    - eapply keeps_mono; [apply keeps_phrase_quoted|]. intros w [Hw Hd].
      split_and!; [lia | lia | by rewrite Hd].
    - apply keeps_if; intros _; [|by apply keeps_phrase_atom].
      kbind (keeps_atom (i - 1)); [lia|]. destruct a as [a i1]. destruct H0 as [H0 _].
      apply keeps_ret. simpl. split_and!; [lia | lia | done]. }
  intros w (Hw & Hnd & Hd). cbv zeta. kbind (keeps_comment (w_at w)); [lia|]. rename a into i1.
  destruct (w_done w).
  - kbind (keeps_lift s _ _ (Hsimp (w_drop w) (join_word r (w_text w) enc (w_enc w)))).
    apply keeps_ret. split; [lia|]. intros -> Hr'. rewrite H1 in Hr'; [done|]. by rewrite Hd.
  - specialize (Hnd eq_refl). eapply keeps_mono; [apply IH; lia|]. intros [? ?] [? _]. split; lia.
Qed.

Lemma keeps_phrase i : i < len s → keeps s (phrase i) (reads i).
Proof.
  intros Hi. kbind (keeps_comment i Hi). apply keeps_input.
  eapply keeps_mono; [apply keeps_phrase_loop; lia|]. intros [r i'] [H1 H2].
  split; [lia|]. intros Hr. specialize (H2 eq_refl Hr). lia.
Qed.

Lemma HasPrefix_nonempty w p : p ≠ [] → HasPrefix w p = true → w ≠ [].
Proof. destruct p, w; done. Qed.

Lemma keeps_localpart_loop n r sep i atomOnly :
  i < len s → i + 2 <= Z.of_nat n → (1 <= n)%nat →
  keeps s (localpart_loop n r sep i atomOnly) (λ '(_, i', _), i' <= i).
Proof.
  revert r sep i atomOnly. induction n as [|n IH]; intros r sep i atomOnly Hi Hn H1; [lia|].
  cbn [localpart_loop]. kbind (keeps_char s i). destruct H as [H _].
  eapply (keeps_bind s _ _ (reads i)).
  { apply keeps_if; intros _; [by apply keeps_phrase | by apply keeps_atom]. }
  intros [w i1] [Hle Hlt]. cbv zeta. apply keeps_input.
  assert (∀ r sep i2 b, i2 < i → keeps s (localpart_loop n r sep i2 b) (λ '(_, i', _), i' <= i)) as Hrec.
  { intros. eapply keeps_mono; [apply IH; lia|]. intros [[? ?] ?]. lia. }
  apply keeps_if; intros _; [kbind keeps_part; apply Hrec; lia|].
  apply keeps_if; intros Hp; [|apply keeps_ret; lia].
  apply Hrec, Hlt. by apply (HasPrefix_nonempty w $"%").
Qed.

Lemma keeps_localpart i : i < len s → keeps s (localpart i) (λ '(_, i'), i' <= i).
Proof.
  intros Hi. apply keeps_input. eapply (keeps_bind s _ _ (λ '(_, i', _), i' <= i)).
  { apply keeps_if; intros; [apply keeps_ret; lia | apply keeps_localpart_loop; lia]. }
  intros [[r i1] b] H. eapply (keeps_bind s _ _ (λ _, True)).
  { apply keeps_if; intros _; [apply keeps_setError | by apply keeps_ret]. }
  intros _ _. by apply keeps_ret.
Qed.

Lemma keeps_route_loop n dom i :
  i < len s → i < Z.of_nat n → keeps s (route_loop n dom i) (λ i', i' <= i).
Proof.
  revert dom i. induction n as [|n IH]; intros dom i Hi Hn; cbn [route_loop]; apply keeps_input;
    (apply keeps_if; [intros [_ E]%andb_true_iff | intros; apply keeps_ret; lia]);
    apply sees_range in E as Hr; [lia|]. cbv zeta.
  set (i1 := if sees s i (Byte.eqb "@") then i - 1 else i). set (i2 := back s (Byte.eqb ",") 0 i1).
  assert (i2 < i) as Hlt.
  { subst i2 i1. destruct (sees s i (Byte.eqb "@")) eqn:Ea.
    - pose proof (back_le s (Byte.eqb ",") 0 (i - 1)). lia.
    - apply back_lt; [lia|]. unfold sees in *. destruct (0 <=? i); [|done]. simpl in *.
      destruct (s !! Z.to_nat i) as [c|]; [|done].
      rewrite orb_true_iff, !beq_true in E. destruct E as [-> | ->]; [by rewrite beq_refl|]. by rewrite beq_refl in Ea. }
  kbind (keeps_domain i2); [lia|]. destruct a as [d i3].
  eapply keeps_mono; [apply IH; lia|]. simpl. lia.
Qed.

Lemma keeps_route i : i < len s → keeps s (route i) (λ i', i' <= i).
Proof.
  intros Hi. apply keeps_input. kbind (keeps_gets s firstError). apply keeps_if; intros Hc; [apply keeps_ret; lia|].
  apply orb_false_iff in Hc as [Hc _]. apply negb_false_iff, sees_range in Hc.
  kbind (keeps_domain (i - 1)); [lia|]. destruct a0 as [dom i1].
  apply keeps_if; intros _; [apply keeps_ret; lia|].
  kbind (keeps_route_loop (length s) dom i1); [lia..|]. kbind keeps_modify; [done|]. apply keeps_ret. lia.
Qed.

Lemma add_name_ends name lp dom : ends (add_name name lp dom).
Proof.
  unfold add_name. apply bind_ends; [case_if; [apply slice_ends | done] | intros n1 _].
  apply bind_ends; [apply simplify_ends | intros n2 _].
  apply bind_ends; [case_if; [apply bind_ends; [apply slice_ends | intros; apply simplify_ends] | done] | intros n3 _].
  by case_if.
Qed.

Lemma keeps_add name lp dom : keeps s (add name lp dom) (λ _, True).
Proof.
  unfold add. apply keeps_if; intros _; [by apply keeps_modify|].
  kbind (keeps_ends s _ (add_name_ends name lp dom)). by apply keeps_modify.
Qed.

(** ** The forms of an address *)

Definition next_le (i : Z) (r : next) : Prop := match r with Go j | Stop j => j <= i end.

(** Step over the bracket before a display name. *)
Lemma bracket_le f i : (if sees s i f then i - 1 else i) <= i.
Proof. case_if; lia. Qed.

Lemma keeps_addr_empty i : i < len s → keeps s (addr_empty i) (next_le i).
Proof.
  intros Hi. apply keeps_input. kbind keeps_add. cbv zeta.
  pose proof (bracket_le (Byte.eqb "<") (i - 2)).
  kbind (keeps_phrase (if sees s (i - 2) (Byte.eqb "<") then i - 2 - 1 else i - 2)); [lia|].
  destruct a0 as [? ?]. destruct H1 as [H1 _]. apply keeps_ret. simpl. lia.
Qed.

Lemma keeps_addr_unknown i : i < len s → keeps s (addr_unknown i) (next_le i).
Proof.
  intros Hi. apply keeps_input. kbind (keeps_phrase (i - 3)); [lia|].
  destruct a as [name i1]. destruct H as [H _]. kbind keeps_add. apply keeps_ret.
  pose proof (bracket_le (Byte.eqb "<") i1). simpl. lia.
Qed.

Lemma keeps_addr_sendmail i : i < len s → keeps s (addr_sendmail i) (next_le i).
Proof.
  intros Hi. apply keeps_input. kbind (keeps_domain (i - 2)); [lia|]. destruct a as [? i1].
  apply keeps_if; intros _; [|apply keeps_ret; simpl; lia].
  kbind (keeps_phrase (i1 - 2)); [lia|]. destruct a as [name i2]. destruct H0 as [H0 _]. kbind keeps_add.
  apply keeps_ret. pose proof (bracket_le (Byte.eqb "<") i2). simpl. lia.
Qed.

Lemma keeps_hyphenated n i : keeps s (hyphenated n i) (λ _, True).
Proof.
  induction n as [|c n IH]; cbn [hyphenated]; [by apply keeps_ret|].
  repeat (apply keeps_if; intros _; [kbind IH; by apply keeps_ret|]). by kbind keeps_setError.
Qed.

Lemma keeps_addr_unlisted i :
  i < len s → keeps s (addr_unlisted i) (λ r, match r with Some (_, j) => j <= i | None => True end).
Proof.
  intros Hi. apply keeps_input. cbv zeta. pose proof (back_le s (Byte.eqb SP) 1 (i - 1)).
  kbind keeps_char. destruct H0 as [H0 _]. apply keeps_if; intros _; [|by apply keeps_ret].
  kbind (keeps_phrase (back s (Byte.eqb SP) 1 (i - 1) - 1)); [lia|]. destruct a0 as [n j]. destruct H1 as [H1 _].
  apply keeps_ret. case_if; [done | lia].
Qed.

Lemma keeps_spaced_localpart lp i : i < len s → keeps s (spaced_localpart lp i) (λ '(_, j), j <= i).
Proof.
  intros Hi. apply keeps_input. cbv zeta.
  pose proof (back_le s (λ c, is_lower c || is_upper c || (c =b SP)) 0 i).
  apply keeps_if; intros _; [|apply keeps_ret; lia].
  kbind keeps_part. kbind keeps_char. apply keeps_ret. lia.
Qed.

Lemma keeps_name_addr_local dom i :
  i < len s → keeps s (name_addr_local dom i) (λ '(_, _, _, j), j <= i).
Proof.
  intros Hi. apply keeps_input. cbv zeta. pose proof (back_le s (Byte.eqb "@") 1 (i - 1)).
  kbind (keeps_comment (back s (Byte.eqb "@") 1 (i - 1))); [lia|]. rename a into j.
  apply keeps_if; intros _; [|apply keeps_if; intros _].
  - kbind (keeps_addr_unlisted j); [lia|]. apply keeps_ret. destruct a as [[n j']|]; lia.
  - kbind (keeps_gets s lastComment). kbind (keeps_ends s _ (simplify_ends a)). kbind keeps_hyphenated.
    apply keeps_ret. lia.
  - kbind (keeps_localpart j); [lia|]. destruct a as [lp i1]. kbind keeps_char.
    eapply (keeps_bind s _ _ (λ '(_, i2), i2 <= i1)).
    { apply keeps_if; intros _; [apply keeps_spaced_localpart; lia | apply keeps_ret; lia]. }
    intros [lp' i2] Hl. apply keeps_ret. lia.
Qed.

Lemma keeps_skip_names n name i :
  i < len s → i < Z.of_nat n → keeps s (skip_names n name i) (λ '(_, j), j <= i).
Proof.
  revert name i. induction n as [|n IH]; intros name i Hi Hn; cbn [skip_names]; apply keeps_input;
    (apply keeps_if; [intros E%sees_range | intros; apply keeps_ret; lia]); [lia|].
  kbind (keeps_phrase (i - 1)); [lia|]. destruct a as [? i1]. destruct H as [H _].
  eapply keeps_mono; [apply IH; lia|]. intros [? ?]. lia.
Qed.

Lemma keeps_addr_name_addr i : i < len s → keeps s (addr_name_addr i) (next_le i).
Proof.
  intros Hi. apply keeps_input. kbind (keeps_domain (i - 1)); [lia|]. destruct a as [dom i1].
  kbind keeps_char. rename a into c. destruct H0 as [H0 _].
  eapply (keeps_bind s _ _ (λ '(_, _, _, j), j <= i)).
  { apply keeps_if; intros _; [apply keeps_ret; lia|].
    eapply (keeps_bind s _ _ (λ '(_, _, _, j), j <= i)).
    - apply keeps_if; intros _; [|apply keeps_ret; lia].
      eapply keeps_mono; [apply keeps_name_addr_local; lia|]. intros [[[? ?] ?] ?]. lia.
    - intros [[[lp d] name] j] Hj. kbind (keeps_route j); [lia|]. apply keeps_ret. lia. }
  intros [[[lp d] name] j] Hj. eapply (keeps_bind s _ _ (λ '(_, j), j <= i)).
  { apply keeps_if; intros _; [|by apply keeps_ret].
    pose proof (back_le s (Byte.eqb "<") 0 (j - 1)).
    kbind (keeps_phrase (back s (Byte.eqb "<") 0 (j - 1))); [lia|]. destruct a as [n k]. destruct H2 as [H2 _].
    kbind (keeps_skip_names (length s) n k); [lia..|]. destruct a as [n' k']. apply keeps_ret. lia. }
  intros [name' j'] Hj'. kbind keeps_add. apply keeps_ret. simpl. lia.
Qed.

Lemma keeps_addr_encoded i : i < len s → keeps s (addr_encoded i) (next_le i).
Proof.
  intros Hi. apply keeps_input. kbind (keeps_domain (i - 3)); [lia|]. destruct a as [dom i1].
  kbind keeps_char. apply keeps_if; intros _; [|kbind keeps_setError; apply keeps_ret; simpl; lia].
  pose proof (back_le s (Byte.eqb "@") 1 (i1 - 1)).
  kbind (keeps_localpart (back s (Byte.eqb "@") 1 (i1 - 1))); [lia|]. destruct a0 as [lp i2].
  kbind keeps_char. apply keeps_if; intros _; [|kbind keeps_setError; apply keeps_ret; simpl; lia].
  kbind (keeps_atom (i2 - 1)); [lia|]. destruct a1 as [? i3]. destruct H4 as [H4 _]. kbind keeps_add.
  apply keeps_ret. simpl. lia.
Qed.

Lemma keeps_group_members n (rec : Z → ap Z) i empty :
  (∀ j, j <= i → keeps s (rec j) (λ k, k <= j)) →
  i < len s → i < Z.of_nat n →
  keeps s (group_members n rec i empty) (λ r, match r with inl (j, _) | inr j => j <= i end).
Proof.
  intros Hrec. revert i empty Hrec. induction n as [|n IH]; intros i empty Hrec Hi Hn;
    cbn [group_members]; apply keeps_input;
    (apply keeps_if; [intros Hc | intros; apply keeps_ret; lia]); [lia|]. cbv zeta.
  kbind (Hrec i); [lia|]. rename a into k.
  apply keeps_if; intros Hk; [kbind keeps_setError; apply keeps_ret; lia|].
  kbind keeps_char.
  assert (∀ j, j <= k → keeps s (group_members n rec j false) (λ r, match r with inl (j, _) | inr j => j <= i end)) as Hnext.
  { intros j Hj. eapply keeps_mono; [apply IH; [intros; apply Hrec; lia | lia..]|]. intros [[? ?]|?]; lia. }
  apply keeps_if; intros _; [apply Hnext; lia|].
  apply keeps_if; intros _; [kbind keeps_setError; apply keeps_ret; lia | apply Hnext; lia].
Qed.

Lemma keeps_addr_group (rec : Z → ap Z) i :
  (∀ j, j < i → keeps s (rec j) (λ k, k <= j)) → i < len s → keeps s (addr_group rec i) (next_le i).
Proof.
  intros Hrec Hi. apply keeps_input. cbv zeta. kbind (keeps_comment (i - 1)); [lia|].
  kbind (keeps_group_members (length s) rec (i - 1) true); [intros; apply Hrec; lia | lia..|].
  destruct a0 as [[j e]|j]; [|apply keeps_ret; simpl; lia].
  kbind keeps_char. apply keeps_if; intros _; [|apply keeps_ret; simpl; lia].
  kbind (keeps_phrase (j - 1)); [lia|]. destruct a1 as [name k]. destruct H2 as [H2 _].
  eapply (keeps_bind s _ _ (λ _, True)); [apply keeps_if; intros _; [apply keeps_add | by apply keeps_ret]|].
  intros _ _. apply keeps_ret. simpl. lia.
Qed.

Lemma keeps_addr_vms_quoted i : i < len s → keeps s (addr_vms_quoted i) (next_le i).
Proof.
  intros Hi. apply keeps_input. kbind (keeps_domain (i - 1)); [lia|]. destruct a as [dom x].
  apply keeps_if; intros _; [|apply keeps_ret; simpl; lia].
  kbind (keeps_localpart (x - 1)); [lia|]. destruct a as [lp x1].
  apply keeps_if; intros _; [|apply keeps_ret; simpl; lia].
  kbind (keeps_domain (x1 - 2)); [lia|]. destruct a as [? x2]. kbind keeps_add. apply keeps_ret. simpl. lia.
Qed.

Lemma keeps_addr_vms_node i : i < len s → keeps s (addr_vms_node i) (next_le i).
Proof.
  intros Hi. apply keeps_input. cbv zeta. pose proof (back_le s (λ c, negb (c =b DQUOTE)) 1 (i - 1)).
  kbind keeps_char. eapply (keeps_bind s _ _ (λ j, j <= i)).
  { apply keeps_if; intros _; [kbind keeps_part|]; apply keeps_ret; lia. }
  intros j Hj. kbind (keeps_atom j); [lia|]. destruct a0 as [lp k]. destruct H1 as [H1 _].
  apply keeps_if; intros _; [|kbind keeps_setError; apply keeps_ret; simpl; lia].
  kbind (keeps_atom (k - 2)); [lia|]. destruct a0 as [b k']. destruct H2 as [H2 _]. kbind keeps_add.
  apply keeps_ret. simpl. lia.
Qed.

Lemma date_scan_ends t dp : ends (date_scan t dp).
Proof. revert dp. induction t as [|c t IH]; intros dp; simpl; [done|]. by case_if. Qed.

Lemma keeps_addr_date i : keeps s (addr_date i) (next_le i).
Proof.
  apply keeps_input. cbv zeta. pose proof (back_le s (λ c, negb (c =b DQUOTE)) 1 i).
  kbind keeps_part. kbind (keeps_ends s _ (simplify_ends (ToLower a))). kbind (keeps_ends s _ (date_scan_ends a0 0)).
  apply keeps_ret. simpl. case_if; lia.
Qed.

Lemma unescape_length q t : (length (unescape q t) ≤ length t)%nat.
Proof.
  induction t as [t IH] using str_length_ind. destruct t as [|a [|b t]]; simpl; [lia..|].
  case_if; simpl; [specialize (IH t ltac:(simpl; lia)) | specialize (IH (b :: t) ltac:(simpl; lia)); simpl in IH]; lia.
Qed.

(** Taking the quotes off makes a quoted string shorter. *)
Lemma unquote_length c q : isQuoted s c q = true → (length (unquote s c q) < length s)%nat.
Proof.
  intros H. unfold unquote. rewrite H. simpl. pose proof (unescape_length q (drop 1 s)) as Hl.
  rewrite length_drop in Hl. unfold isQuoted in H.
  destruct (Nat.ltb_spec (length s) 2); [done | lia].
Qed.

Lemma keeps_addr_wrapped (parse : str → outcome AddressParser) i :
  ends (parse (unquote s DQUOTE SQUOTE)) → 0 <= i → keeps s (addr_wrapped parse i) (next_le i).
Proof.
  intros Hp Hi. apply keeps_input. kbind (keeps_ends s _ Hp). destruct (firstError a).
  - kbind keeps_setError. apply keeps_ret. simpl. lia.
  - kbind keeps_modify; [done|]. apply keeps_ret. simpl. lia.
Qed.

Lemma keeps_addr_spec_local dom name i :
  i < len s → keeps s (addr_spec_local dom name i) (λ '(_, _, _, j), j <= i).
Proof.
  intros Hi. apply keeps_input. cbv zeta. pose proof (back_le s (Byte.eqb "@") 1 (i - 1)).
  kbind (keeps_comment (back s (Byte.eqb "@") 1 (i - 1))); [lia|]. rename a into j.
  apply keeps_if; intros _; [|apply keeps_if; intros _].
  - kbind (keeps_addr_unlisted j); [lia|]. apply keeps_ret. destruct a as [[n j']|]; lia.
  - kbind (keeps_gets s lastComment). kbind (keeps_ends s _ (simplify_ends a)). kbind keeps_hyphenated.
    apply keeps_ret. lia.
  - kbind (keeps_localpart j); [lia|]. destruct a as [lp i1]. apply keeps_ret. lia.
Qed.

Lemma keeps_addr_spec i : i < len s → keeps s (addr_spec i) (next_le i).
Proof.
  intros Hi. apply keeps_input. kbind (keeps_gets s lastComment). cbv zeta.
  kbind (keeps_domain i Hi). destruct a0 as [dom i1].
  eapply (keeps_bind s _ _ (λ '(_, _, _, j), j <= i)).
  { apply keeps_if; intros _; [|apply keeps_ret; lia].
    eapply keeps_mono; [apply keeps_addr_spec_local; lia|]. intros [[[? ?] ?] ?]. lia. }
  intros [[[lp d] name] j] Hj. kbind (keeps_route j); [lia|]. kbind (keeps_comment a0); [lia|].
  eapply (keeps_bind s _ _ (λ _, True)); [apply keeps_if; intros _; [apply keeps_add | by apply keeps_ret]|].
  intros _ _. apply keeps_ret. simpl. lia.
Qed.

Lemma keeps_skip_commas n i : i < len s → i < Z.of_nat n → keeps s (skip_commas n i) (λ j, j <= i).
Proof.
  revert i. induction n as [|n IH]; intros i Hi Hn; cbn [skip_commas]; apply keeps_input;
    (apply keeps_if; intros Hc; [|apply keeps_ret; lia]); [lia|].
  kbind (keeps_comment (i - 1)); [lia|]. eapply keeps_mono; [apply IH; lia|]. simpl. lia.
Qed.

Lemma skip_angles_le n i : skip_angles n s i <= i.
Proof.
  revert i. induction n as [|n IH]; intros i; simpl; [lia|]. case_if; [specialize (IH (i - 1)); lia | lia].
Qed.

Lemma keeps_addr_form (parse : str → outcome AddressParser) (rec : Z → ap Z) i :
  (∀ t, (length t < length s)%nat → ends (parse t)) →
  (0 <= i → ∀ j, j < i → keeps s (rec j) (λ k, k <= j)) → i < len s →
  keeps s (addr_form parse rec s i) (next_le i).
Proof.
  intros Hp Hrec Hi. unfold addr_form. cbv zeta.
  apply keeps_if; intros Hi0; [apply keeps_ret; simpl; lia|].
  apply keeps_if; intros _; [by apply keeps_addr_empty|].
  apply keeps_if; intros _; [by apply keeps_addr_unknown|].
  apply keeps_if; intros _; [by apply keeps_addr_sendmail|].
  apply keeps_if; intros _; [by apply keeps_addr_name_addr|].
  apply keeps_if; intros _; [by apply keeps_addr_encoded|].
  apply keeps_if; intros _; [apply keeps_addr_group; [apply Hrec; lia | done]|].
  apply keeps_if; intros _; [by apply keeps_addr_vms_quoted|].
  apply keeps_if; intros _; [by apply keeps_addr_vms_node|].
  apply keeps_if; intros _; [apply keeps_addr_date|].
  apply keeps_if; intros Hq; [|by apply keeps_addr_spec].
  apply andb_true_iff in Hq as [Hq _].
  apply keeps_addr_wrapped; [|lia]. by apply Hp, unquote_length.
Qed.

Lemma keeps_address (parse : str → outcome AddressParser) n i :
  (∀ t, (length t < length s)%nat → ends (parse t)) →
  i < len s → i + 2 <= Z.of_nat n → (1 <= n)%nat →
  keeps s (address parse n i) (λ j, j <= i).
Proof.
  intros Hp. revert i. induction n as [|n IH]; intros i Hi Hn H1; [lia|]. cbn [address].
  kbind keeps_modify; [done|]. apply keeps_input. kbind (keeps_comment i Hi). rename a0 into i1.
  kbind (keeps_skip_commas (length s) i1); [lia..|]. rename a0 into i2. cbv zeta.
  pose proof (skip_angles_le (length s) i2). set (i3 := skip_angles (length s) s i2) in *.
  kbind (keeps_addr_form parse (address parse n) i3 Hp); [|lia|].
  - intros Hi3 j Hj. apply IH; lia.
  - destruct a0 as [j|j]; simpl in H4.
    + eapply keeps_mono; [apply keeps_comment; lia|]. simpl. lia.
    + apply keeps_ret. lia.
Qed.
End Termination.

(** ** Borders and the other plans *)

Section Plans.
Context {U : UnicodeCase} {CS : Charset}.

Lemma find_tld_post s ts b right :
  post (find_tld s ts b right) (λ r, match r with Some e => b <= e <= right | None => True end).
Proof.
  induction ts as [|tld ts IH]; cbn [find_tld]; [done|]. cbv zeta.
  destruct (Z.leb_spec (b + len tld) right); [|done].
  eapply post_bind; [apply ends_post, at_ends|]. intros c _. case_if; [|done].
  eapply post_bind; [apply ends_post, slice_ends|]. intros t _. case_if; [simpl; lia | done].
Qed.

Lemma border_scan_post n s left right b dot :
  left <= b → right - b < Z.of_nat n →
  post (border_scan n s left right b dot) (λ r, match r with inl e => left <= e <= right | inr _ => True end).
Proof.
  revert b dot. induction n as [|n IH]; intros b dot Hb Hn; cbn [border_scan];
    (destruct (Z.leb_spec b right); [|done]); [lia|].
  cbv zeta. pose proof (forth_ge s domain_char right b) as Hf.
  set (b' := forth s domain_char right b) in *. destruct (Z.eqb_spec b' b) as [E|E].
  { simpl. case_if; lia. }
  destruct (Z.leb_spec b' right); [|apply IH; lia].
  case_if; [simpl; lia|]. eapply post_bind; [apply find_tld_post|]. intros [e|] He; [simpl; lia|].
  apply IH; lia.
Qed.

Lemma border_at_post s left right c :
  post (border_at s left right c) (λ r, match r with Some e => left <= e <= right | None => True end).
Proof.
  unfold border_at. eapply post_bind; [apply ends_post, slice_ends|]. intros t _. simpl. case_if; [lia | done].
Qed.

Lemma findBorder_post s left right :
  right < len s → 0 <= left →
  post (findBorder s left right) (λ b, left <= b <= Z.max left right).
Proof.
  intros Hr Hl. unfold findBorder. destruct (Z.leb_spec right left); [simpl; lia|].
  eapply post_bind; [apply border_at_post|]. intros o1 H1.
  eapply post_bind; [apply border_at_post|]. intros o2 H2.
  eapply post_bind; [apply border_at_post|]. intros o3 H3.
  eapply post_bind; [apply border_at_post|]. intros o4 H4.
  destruct o1; [simpl; lia|]. destruct o2; [simpl; lia|]. destruct o3; [simpl; lia|].
  destruct o4; [simpl; lia|]. cbv zeta. case_if; [simpl; lia|].
  eapply post_bind; [apply border_scan_post; lia|]. intros [e|dot] He; [simpl; lia|].
  case_if; [simpl; lia|]. case_if; simpl; lia.
Qed.

(** The border plan B finds between two at-signs lies
    between the positions it was given, whatever the text there is. *)
Theorem findBorder_range (s : str) (left right : Z) (Hr : right < len s) (Hl : 0 <= left) :
  post (findBorder s left right) (λ b, left <= b <= Z.max left right).
Proof. by apply findBorder_post. Qed.

Lemma around_atsign_ends s l r a : ends (around_atsign s l r a).
Proof.
  unfold around_atsign. apply bind_ends; [case_if; [apply bind_ends; [apply at_ends | done] | done] | intros lb _].
  apply bind_ends; [apply slice_ends | intros t _]. apply bind_ends; [apply simplify_ends | intros lp _].
  apply bind_ends; [apply slice_ends | intros t' _]. apply bind_ends; [apply simplify_ends | done].
Qed.

Lemma IndexByte_lt s c : 0 <= IndexByte s c → IndexByte s c < len s.
Proof.
  intros H. destruct (Index_found s [c] _ eq_refl H) as (a & b & E & Ha & _). unfold IndexByte.
  rewrite Ha, E, !length_app. simpl. lia.
Qed.

Lemma planB_ends n s lb atsign acc :
  atsign < len s → len s - atsign <= Z.of_nat n → ends (planB n s lb atsign acc).
Proof.
  revert lb atsign acc. induction n as [|n IH]; intros lb atsign acc Ha Hn; cbn [planB];
    (destruct (Z.ltb_spec atsign 0); [done|]); [lia|].
  eapply post_ends. eapply (post_bind _ _ (λ t, len t = len s - (atsign + 1)%Z)).
  { apply post_slice. intros. rewrite length_take, length_drop. lia. }
  intros t Ht. cbv zeta.
  eapply (post_bind _ _ (λ '(_, nx), nx < 0 ∨ atsign < nx < len s)).
  - destruct (Z.ltb_spec (IndexByte t "@") 0); [simpl; lia|].
    pose proof (IndexByte_lt t "@").
    eapply post_bind; [apply findBorder_post; lia|]. intros b _. simpl. lia.
  - intros [rb nx] Hnx. eapply post_bind; [apply ends_post, around_atsign_ends|]. intros a _.
    apply ends_post. destruct Hnx as [Hneg|Hnx]; [|apply IH; lia].
    destruct n; cbn [planB]; by replace (nx <? 0) with true by lia.
Qed.

Lemma planC_ends s p : ends (planC s p).
Proof.
  unfold planC. case_if; [|done]. apply bind_ends; [apply slice_ends | intros t _].
  apply bind_ends; [apply simplify_ends | done].
Qed.

Lemma Uniquify_ends l : ends (Uniquify l).
Proof. destruct (uniquify_total l) as (u & -> & _). done. Qed.

Lemma separators_le n s colon j i : separators n s colon j i <= i.
Proof.
  revert i. induction n as [|n IH]; intros i; simpl; [lia|]. case_if; [|lia].
  pose proof (back_le s wsp 0 (i - 1)). specialize (IH (back s wsp 0 (i - 1))). lia.
Qed.

Lemma keeps_parse_loop s (addr : Z → ap Z) n colon i j :
  (∀ i, i < len s → keeps s (addr i) (λ i', i' <= i)) → i < len s → i < Z.of_nat n →
  keeps s (parse_loop n addr colon i j) (λ _, True).
Proof.
  intros Ha. revert i j. induction n as [|n IH]; intros i j Hi Hn; cbn [parse_loop];
    (apply keeps_if; intros Hc; [|by apply keeps_ret]); [lia|]. cbv zeta.
  kbind (Ha i Hi). apply keeps_input. rename a into k.
  pose proof (separators_le (length s) s colon i k) as Hs.
  set (k' := separators (length s) s colon i k) in *.
  destruct (decide (k' < i)) as [Hlt|]; [apply IH; lia|].
  destruct n; cbn [parse_loop]; replace ((0 <=? k') && (k' <? i)) with false by lia; by apply keeps_ret.
Qed.
End Plans.

Section Total.
Context {U : UnicodeCase} {CS : Charset} {CL : CharsetLaws CS}.

Lemma parse_addresses_ends s (addr : Z → ap Z) :
  (∀ i, i < len s → keeps s (addr i) (λ i', i' <= i)) → ends (parse_addresses addr s).
Proof.
  intros Ha. unfold parse_addresses. cbv zeta. apply (post_ends _ (λ _, True)).
  eapply post_bind; [apply (keeps_parse_loop s addr (S (length s)) (Contains s $":") (len s - 1) (len s) Ha); [lia | lia | done]|]. intros [i p] _.
  eapply post_bind; [apply ends_post, Uniquify_ends|]. intros l _. case_if; [done|].
  eapply post_bind; [apply ends_post, planB_ends|intros b _; apply ends_post].
  - destruct (decide (0 <= IndexByte s "@")); [by apply IndexByte_lt | pose proof (Zle_0_nat (length s)); lia].
  - pose proof (Index_range s ["@"%byte]). unfold IndexByte. lia.
  - destruct b; [apply planC_ends|]. apply bind_ends; [apply Uniquify_ends | done].
Qed.

Lemma NewAddressParser_fuel_ends w t : (length t < w)%nat → ends (NewAddressParser_fuel w t).
Proof.
  revert t. induction w as [|w IH]; intros t Ht; [lia|]. cbn [NewAddressParser_fuel].
  apply parse_addresses_ends. intros i Hi. apply keeps_address; [|lia..].
  intros u Hu. apply IH. lia.
Qed.

(** C17: the address parser ends on every input string: it
    returns or panics, and none of its loops and recursions runs on for ever. *)
Theorem NewAddressParser_total (s : str) : ends (NewAddressParser s).
Proof. apply NewAddressParser_fuel_ends. lia. Qed.
End Total.

Lemma NewAddressParser_total_witness :
  ends (NewAddressParser (U := ascii_only_case) (CS := plain_charsets) $"a: (x) b@c, <d@e>;").
Proof. apply (NewAddressParser_total (U := ascii_only_case) (CS := plain_charsets)). Defined.

Lemma findBorder_range_witness :
  post (findBorder (U := ascii_only_case) $"a@b c@d" 2 4) (λ b, 2 <= b <= Z.max 2 4).
Proof. apply (findBorder_range (U := ascii_only_case)); [reflexivity | lia]. Defined.
