(* ===== verification/AddrListFacts.v ===== *)
(** * The address parser on lists of plain addresses

    A list of addresses [local.part@domain.name], separated by commas, is parsed
    into exactly those addresses: the parser's backwards walk is followed step
    by step.  Together with [toString] this is a round trip. *)

From S2P Require Import Prelude GoStrings Strings StringsFacts Codec CodecFacts Words WordsFacts.
From S2P Require Import Parser ParserFacts Tlds Address AddressFacts AddrParser AddrParserFacts.
Open Scope Z_scope.

(** ** Looking backwards *)

Lemma sees_mid a c b f i : i = len a → sees (a ++ c :: b) i f = f c.
Proof.
  intros ->. unfold sees. rewrite Nat2Z.id, lookup_app_r, Nat.sub_diag by lia.
  replace (0 <=? len a) with true by lia. done.
Qed.

Lemma sees_neg s i f : i < 0 → sees s i f = false.
Proof. intros Hi. unfold sees. by replace (0 <=? i) with false by lia. Qed.

Lemma back_stop s f lo i : sees s i f = false → back s f lo i = i.
Proof.
  intros H. unfold back. destruct (Z.to_nat (i + 1)); simpl; [done|]. by rewrite H, andb_false_r.
Qed.

Lemma back_step s f lo i : lo <= i → sees s i f = true → back s f lo i = back s f lo (i - 1).
Proof.
  intros Hlo H. apply sees_range in H as Hr. unfold back.
  replace (Z.to_nat (i + 1)) with (S (Z.to_nat (i - 1 + 1))) by lia. simpl. rewrite H.
  by replace (lo <=? i) with true by lia.
Qed.

(** The loop passes over a word of matching bytes. *)
Lemma back_word a w b f i :
  i = len a + len w - 1 → Forall (λ c, f c = true) w → sees (a ++ w ++ b) (len a - 1) f = false →
  back (a ++ w ++ b) f 0 i = len a - 1.
Proof.
  intros -> Hw Hs. revert b Hs. induction w as [|c w IH] using rev_ind; intros b Hs.
  { replace (len a + len [] - 1) with (len a - 1) by (simpl; lia). by apply back_stop. }
  apply Forall_app in Hw as [Hw Hc]. inversion Hc as [|? ? Hc' _]; subst.
  rewrite <- app_assoc in *.
  replace (len a + len (w ++ [c]) - 1) with (len a + len w) by (rewrite length_app; simpl; lia).
  rewrite back_step; [by apply IH | lia |].
  - rewrite app_assoc. cbn [app]. rewrite sees_mid; [done|]. rewrite length_app. lia.
Qed.

(** ** Plain addresses *)

Definition plain_char (c : byte) : bool := is_alnum c || one_of $"-_+" c.

Definition plain (w : str) : Prop := w ≠ [] ∧ Forall (λ c, plain_char c = true) w.

(** [w1.w2.] *)
Definition dots (ws : list str) : str := flat_map (λ w, w ++ $".") ws.

Lemma dots_snoc ws w : dots (ws ++ [w]) = dots ws ++ w ++ $".".
Proof. unfold dots. rewrite flat_map_app. simpl. by rewrite app_nil_r. Qed.

Lemma Join_dots ws w : Join (ws ++ [w]) $"." = dots ws ++ w.
Proof.
  induction ws as [|v ws IH]; [done|]. cbn [app].
  rewrite Join_cons by (by destruct ws). rewrite IH. cbn [dots flat_map]. by rewrite <- !app_assoc.
Qed.

(** What the tests of the parser say of a plain byte. *)
Lemma plain_tests c : plain_char c = true → wsp c = false ∧ atom_char false c = true.
Proof. split; revert H; revert c; intros []; vm_compute; congruence. Qed.

Lemma plain_not c d : plain_char c = true → plain_char d = false → (d =b c) = false.
Proof. intros Hc Hd. apply beq_false. congruence. Qed.

Lemma plain_is_not c d : plain_char c = true → plain_char d = false → (c =b d) = false.
Proof. intros Hc Hd. apply beq_false. congruence. Qed.

Section Steps.
Context {U : UnicodeCase} {CS : Charset}.

(** Where there is no comment, [comment] only skips white space. *)
Lemma comment_quiet s i k p :
  ap_s p = s → back s wsp 0 i = k → sees s k (Byte.eqb ")") = false → comment i p = Ret (k, p).
Proof.
  intros Hp Hk Hs. unfold comment, space, mbind, state_bind, gets, mret, state_ret. rewrite Hp, Hk.
  destruct (2 * length s + 2)%nat; cbn [comment_rounds]; unfold mbind, state_bind, gets;
    rewrite Hp, Hs, andb_false_r; done.
Qed.

Lemma comment_here s a c b p i :
  s = a ++ c :: b → i = len a → ap_s p = s → wsp c = false → (")" =b c)%byte = false →
  comment i p = Ret (i, p).
Proof.
  intros -> -> Hp Hw Hc. apply (comment_quiet (a ++ c :: b)); [done | | by rewrite sees_mid].
  apply back_stop. by rewrite sees_mid.
Qed.

Lemma part_app s a w b p lo hi :
  s = a ++ w ++ b → ap_s p = s → lo = len a → hi = len a + len w → part lo hi p = Ret (w, p).
Proof.
  intros -> Hp -> ->. unfold part, mbind, state_bind, gets, lift. rewrite Hp.
  by rewrite (slice_app a w b).
Qed.

Lemma char_mid s a c b p i :
  s = a ++ c :: b → ap_s p = s → i = len a → char i p = Ret (c, p).
Proof.
  intros -> Hp ->. unfold char, mbind, state_bind, gets, lift. rewrite Hp. by rewrite (at_app a b c).
Qed.

(** The test for an encoded word, at a byte that is not an equals sign. *)
Lemma encoded_test s a c b p (k : bool → ap (str * Z)) i :
  s = a ++ c :: b → ap_s p = s → i = len a → ("="%byte =b c) = false →
  (m ← (if 0 <? i - 1 then t ← part (i - 1) (i + 1); mret (HasSuffix t $"?=") else mret false); k m) p
  = k false p.
Proof.
  intros Hs Hp Hi Hc. destruct (Z.ltb_spec 0 (i - 1)); [|done].
  destruct a as [|x a' _] using rev_ind; [simpl in *; lia|]. rewrite length_app in Hi. simpl in Hi.
  unfold mbind at 1, state_bind at 1.
  assert (part (i - 1) (i + 1) p = Ret ([x; c], p)) as HP.
  { apply (part_app s a' [x; c] b); [by rewrite Hs, <- app_assoc | done | lia | simpl; lia]. }
  rewrite (pbind_ret _ _ _ _ _ HP). unfold mret, state_ret.
  destruct (HasSuffix [x; c] $"?=") eqn:E; [|done]. apply HasSuffix_app in E as [t Ht].
  apply (f_equal last) in Ht. rewrite last_app in Ht. by injection Ht as ->.
Qed.

Lemma plain_split w : plain w → ∃ w' c, w = w' ++ [c] ∧ plain_char c = true.
Proof.
  intros [Hne Hw]. destruct w as [|c w' _] using rev_ind; [done|]. exists w', c. split; [done|].
  apply Forall_app in Hw as [_ Hc]. by inversion Hc.
Qed.

Lemma atom_word s a w b p i k :
  s = a ++ w ++ b → plain w → ap_s p = s → i = len a + len w - 1 →
  sees s (len a - 1) (atom_char false) = false →
  back s wsp 0 (len a - 1) = k → sees s k (Byte.eqb ")") = false →
  atom i p = Ret ((w, k), p).
Proof.
  intros Hs Hw Hp Hi Hstop Hk Hk'. destruct (plain_split w Hw) as (w' & c & Ew & Hc).
  assert (s = (a ++ w') ++ c :: b) as Hs' by (rewrite Hs, Ew, <- !app_assoc; done).
  assert (i = len (a ++ w')) as Hi' by (rewrite Hi, Ew, !length_app; simpl; lia).
  destruct (plain_tests c Hc) as [Hwsp _]. unfold atom.
  rewrite (pbind_ret (comment i) _ p i p) by (eapply comment_here; eauto using plain_not).
  rewrite (encoded_test s (a ++ w') c b) by eauto using plain_not.
  rewrite (pbind_ret (gets ap_s) _ p s p) by (unfold gets; by rewrite Hp).
  assert (back s (atom_char false) 0 i = len a - 1) as ->.
  { rewrite Hs. apply back_word; [done | | by rewrite <- Hs].
    destruct Hw as [_ Hw]. eapply Forall_impl; [exact Hw|]. intros x Hx. apply plain_tests in Hx. tauto. }
  rewrite (pbind_ret (part (len a - 1 + 1) (i + 1)) _ p w p)
    by (apply (part_app s a w b); [done | done | lia | lia]).
  by rewrite (pbind_ret (comment (len a - 1)) _ p k p) by (by eapply comment_quiet).
Qed.

(** ** Dotted words, backwards *)

Lemma sees_last a b c i f : i = len a → sees ((a ++ [c]) ++ b) i f = f c.
Proof. intros Hi. rewrite <- app_assoc. by apply sees_mid. Qed.

(** The byte at [k] ends an atom and starts neither space nor a comment. *)
Definition stops (s : str) (k : Z) : Prop :=
  sees s k (atom_char false) = false ∧ sees s k wsp = false ∧ sees s k (Byte.eqb ")") = false.

Lemma stops_mid a c b k :
  k = len a → atom_char false c = false → wsp c = false → (")"%byte =b c) = false →
  stops (a ++ c :: b) k.
Proof. intros Hk H1 H2 H3. by split_and!; rewrite sees_mid. Qed.

Lemma dots_length ws w : len (dots (ws ++ [w])) = len (dots ws) + len w + 1.
Proof. rewrite dots_snoc, !length_app. change (length $".") with 1%nat. lia. Qed.

(** The byte before a word of a dotted name. *)
Lemma dots_stop s a ws b :
  s = a ++ dots ws ++ b → stops s (len a - 1) → stops s (len (a ++ dots ws) - 1).
Proof.
  intros Hs Ha. destruct ws as [|v ws _] using rev_ind; [by rewrite app_nil_r|].
  replace s with ((a ++ dots ws ++ v) ++ "."%byte :: b) by (rewrite Hs, dots_snoc, <- !app_assoc; done).
  apply stops_mid; [|done..]. rewrite !length_app, dots_snoc, !length_app. change (length $".") with 1%nat. lia.
Qed.

Lemma sees_dot s a ws w b f :
  s = a ++ dots (ws ++ [w]) ++ b → sees s (len (a ++ dots (ws ++ [w])) - 1) f = f "."%byte.
Proof.
  intros Hs. replace s with ((a ++ dots ws ++ w) ++ "."%byte :: b) by (rewrite Hs, dots_snoc, <- !app_assoc; done).
  apply sees_mid. rewrite !length_app, dots_snoc, !length_app. change (length $".") with 1%nat. lia.
Qed.

Lemma input_bind {A} s p (k : str → ap A) : ap_s p = s → (gets ap_s ≫= k) p = k s p.
Proof. intros Hp. unfold mbind, state_bind, gets. by rewrite Hp. Qed.

(** [domain_dots] from the dot after [dots ws] back to [a]. *)
Lemma domain_dots_plain n ws s a b p dom i :
  s = a ++ dots ws ++ b → Forall plain ws → ap_s p = s → i = len (a ++ dots ws) - 1 →
  (length ws ≤ n)%nat → stops s (len a - 1) → sees s (len a - 1) (Byte.eqb ".") = false →
  domain_dots n dom i p = Ret ((dots ws ++ dom, len a - 1), p).
Proof.
  intros Hs Hws Hp Hi Hn H1 H4. revert n b dom i Hs Hi Hn.
  induction ws as [|w ws IH] using rev_ind; intros n b dom i Hs Hi Hn.
  - replace i with (len a - 1) by (rewrite app_nil_r in Hi; lia).
    destruct n; cbn [domain_dots]; rewrite (input_bind s) by done; by rewrite H4.
  - rewrite length_app in Hn. simpl in Hn. destruct n as [|n]; [lia|].
    apply Forall_app in Hws as [Hws Hw]. rewrite Forall_singleton in Hw.
    cbn [domain_dots]. rewrite (input_bind s) by done. 
    assert (sees s i (Byte.eqb ".") = true) as -> by (rewrite Hi; by rewrite (sees_dot s a ws w b)).
    rewrite length_app, Nat2Z.inj_add, dots_length in Hi.
    rewrite dots_snoc, <- !app_assoc in Hs. pose proof (dots_stop s a ws _ Hs H1) as (K1 & K2 & K3).
    rewrite (pbind_ret (atom (i - 1)) _ p (w, len (a ++ dots ws) - 1) p).
    2:{ apply (atom_word s (a ++ dots ws) w ($"." ++ b)); try done; [by rewrite Hs, <- app_assoc | | by apply back_stop].
        rewrite length_app. lia. }
    destruct (w ==s []) eqn:Ew; [by apply str_eqb_true in Ew; destruct Hw|].
    rewrite (IH Hws n (w ++ $"." ++ b)); [by rewrite dots_snoc, <- !app_assoc | done | done | lia].
Qed.

(** A dotted domain after an at-sign, whose last byte is not a digit. *)
Definition plain_domain (ws : list str) (w : str) : Prop :=
  Forall plain ws ∧ plain w ∧ match last w with Some c => is_digit c = false | None => True end.

Lemma domain_plain s a ws w b p i :
  s = (a ++ $"@") ++ dots ws ++ w ++ b → plain_domain ws w → ap_s p = s →
  i = len (a ++ $"@" ++ dots ws ++ w) - 1 → (length ws ≤ length s)%nat →
  domain i p = Ret ((dots ws ++ w, len a), p).
Proof.
  intros Hs (Hws & Hw & Hd) Hp Hi Hn.
  assert (len (a ++ $"@") - 1 = len a) as Ha by (rewrite length_app; change (length $"@") with 1%nat; lia).
  assert (stops s (len (a ++ $"@") - 1)) as Hat.
  { rewrite Hs, <- app_assoc. apply stops_mid; [rewrite length_app; change (length $"@") with 1%nat; lia | done..]. }
  destruct (plain_split w Hw) as (w' & c & Ew & Hc).
  assert (s = (((a ++ $"@") ++ dots ws) ++ w') ++ c :: b) as Hs' by (rewrite Hs, Ew, <- !app_assoc; done).
  assert (i = len (((a ++ $"@") ++ dots ws) ++ w')) as Hi' by (rewrite Hi, Ew, <- !app_assoc, !length_app; simpl; lia).
  destruct (plain_tests c Hc) as [Hwsp _]. unfold domain.
  rewrite (pbind_ret (comment i) _ p i p) by (eapply comment_here; eauto using plain_not).
  destruct (Z.ltb_spec i 0); [lia|]. rewrite (pbind_ret (char i) _ p c p) by (by eapply char_mid).
  rewrite Ew, last_snoc in Hd. rewrite Hd, (pbind_ret (mret None) _ _ _ _ eq_refl).
  rewrite (plain_is_not c "]"%byte) by done.
  pose proof (dots_stop s (a ++ $"@") ws _ Hs Hat) as (K1 & K2 & K3).
  set (k := len ((a ++ $"@") ++ dots ws) - 1) in *.
  rewrite (pbind_ret (atom i) _ p (w, k) p).
  2:{ apply (atom_word s ((a ++ $"@") ++ dots ws) w b); try done; [by rewrite Hs, <- !app_assoc | | by apply back_stop].
      rewrite Hi', Ew, !length_app. simpl. lia. }
  rewrite (pbind_ret (comment k) _ p k p) by (apply (comment_quiet s); [done | by apply back_stop | done]).
  rewrite (input_bind s) by done. rewrite <- Ha. apply (domain_dots_plain _ ws s (a ++ $"@") (w ++ b)); try done.
  rewrite Ha, Hs, <- app_assoc. by apply sees_mid.
Qed.

(** ** What stands before an address of a list *)

(** Nothing, or a comma and a space; [k] is where the parser comes to rest. *)
Definition lead (a : str) (k : Z) : Prop :=
  a = [] ∧ k = -1 ∨ ∃ a', a = a' ++ $", " ∧ k = len a'.

Lemma lead_sees a k t f : lead a k → f ","%byte = false → sees (a ++ t) k f = false.
Proof.
  intros [[-> ->] | (a' & -> & ->)] Hf; [by apply sees_neg|].
  rewrite <- app_assoc. exact (eq_trans (sees_mid a' ","%byte (SP :: t) f _ eq_refl) Hf).
Qed.

Lemma lead_space a k t f :
  lead a k → f SP = false → sees (a ++ t) (len a - 1) f = false.
Proof.
  intros [[-> ->] | (a' & -> & ->)] Hf; [by apply sees_neg|].
  replace ((a' ++ $", ") ++ t) with ((a' ++ $",") ++ SP :: t) by (by rewrite <- !app_assoc).
  rewrite sees_mid; [done|]. rewrite !length_app. simpl. lia.
Qed.

Lemma lead_back a k t : lead a k → back (a ++ t) wsp 0 (len a - 1) = k.
Proof.
  intros H. pose proof (lead_sees a k t wsp H eq_refl) as Hk.
  destruct H as [[-> ->] | (a' & -> & ->)]; [by apply back_stop|].
  rewrite back_step.
  - replace (len (a' ++ $", ") - 1 - 1) with (len a') by (rewrite length_app; simpl; lia). by apply back_stop.
  - rewrite length_app. simpl. lia.
  - replace ((a' ++ $", ") ++ t) with ((a' ++ $",") ++ SP :: t) by (by rewrite <- !app_assoc).
    rewrite sees_mid; [done|]. rewrite !length_app. simpl. lia.
Qed.

Lemma comment_lead s a k t p : s = a ++ t → lead a k → ap_s p = s → comment k p = Ret (k, p).
Proof.
  intros -> Hl Hp. apply (comment_quiet (a ++ t)); [done | | by apply (lead_sees a)].
  apply back_stop. by apply (lead_sees a).
Qed.
End Steps.

(** What the address parser relies on of the character set US-ASCII. *)
Class AsciiCharset (CS : Charset) : Prop := {
  ascii_decode s : ascii_str s = true → decode s $"us-ascii" = (s, true)
}.

#[global] Instance plain_charsets_ascii : AsciiCharset plain_charsets.
Proof. split. intros s Hs. unfold decode, cs_writer, plain_charsets. simpl. by rewrite Hs. Qed.

Section List.
Context {U : UnicodeCase} {CS : Charset} {AC : AsciiCharset CS}.

Lemma plain_percent w : plain w → HasPrefix w $"%" = false.
Proof.
  intros [_ Hw]. destruct (HasPrefix w $"%") eqn:E; [|done].
  apply HasPrefix_app in E as [t E]. rewrite E in Hw. by inversion Hw.
Qed.

Lemma localpart_loop_plain n ws s a k w b p r sep i :
  s = a ++ dots ws ++ w ++ b → Forall plain ws → plain w → ap_s p = s → lead a k →
  i = len (a ++ dots ws ++ w) - 1 → (length ws < n)%nat → ascii_str sep = true →
  localpart_loop n r sep i true p = Ret ((dots ws ++ w ++ sep ++ r, k, true), p).
Proof.
  intros Hs Hws Hw Hp Hl. revert n w b r sep i Hs Hw.
  induction ws as [|v ws IH] using rev_ind; intros n w b r sep i Hs Hw Hi Hn Hsep;
    (destruct n as [|n]; [lia|]); cbn [localpart_loop];
    destruct (plain_split w Hw) as (w' & c & Ew & Hc).
  - assert (char i p = Ret (c, p)) as HC.
    { apply (char_mid s (a ++ w') c b); [by rewrite Hs, Ew, <- !app_assoc | done |].
      rewrite Hi, Ew, !length_app. simpl. lia. }
    rewrite (pbind_ret _ _ _ _ _ HC), (plain_is_not c DQUOTE) by done.
    rewrite (pbind_ret (atom i) _ p (w, k) p).
    2:{ apply (atom_word s a w b); [done | done | done | rewrite Hi; simpl; rewrite length_app; lia | | |];
          rewrite Hs; [by apply (lead_space a k) | by apply lead_back | by apply (lead_sees a)]. }
    rewrite (input_bind s) by done.
    assert (sees s k (Byte.eqb ".") = false) as -> by (rewrite Hs; by apply (lead_sees a)).
    rewrite ascii_decode, plain_percent by done. done.
  - apply Forall_app in Hws as [Hws Hv]. rewrite Forall_singleton in Hv.
    rewrite length_app in Hn. simpl in Hn.
    assert (char i p = Ret (c, p)) as HC.
    { apply (char_mid s (a ++ dots (ws ++ [v]) ++ w') c b); [by rewrite Hs, Ew, <- !app_assoc | done |].
      rewrite Hi, Ew, !length_app. simpl. lia. }
    rewrite (pbind_ret _ _ _ _ _ HC), (plain_is_not c DQUOTE) by done.
    set (d := len (a ++ dots (ws ++ [v])) - 1).
    assert (∀ f, sees s d f = f "."%byte) as Hd by (intros f; by eapply sees_dot).
    rewrite (pbind_ret (atom i) _ p (w, d) p).
    2:{ apply (atom_word s (a ++ dots (ws ++ [v])) w b); [by rewrite Hs, <- app_assoc | done | done | | | |].
        - rewrite Hi, !length_app. lia.
        - exact (Hd (atom_char false)).
        - apply back_stop. exact (Hd wsp).
        - exact (Hd (Byte.eqb ")")). }
    rewrite (input_bind s), Hd, beq_refl by done.
    assert (s = (a ++ dots ws ++ v) ++ $"." ++ w ++ b) as Hs2 by (rewrite Hs, dots_snoc, <- !app_assoc; done).
    assert (d = len (a ++ dots ws ++ v)) as Ed.
    { unfold d. rewrite !length_app, dots_snoc, !length_app. change (length $".") with 1%nat. lia. }
    rewrite (pbind_ret (part d (d + 1)) _ p $"." p)
      by (apply (part_app s (a ++ dots ws ++ v) $"." (w ++ b)); [done | done | done | simpl; lia]).
    rewrite ascii_decode by done.
    rewrite (IH Hws n v ($"." ++ w ++ b)); try done; [| by rewrite Hs2, <- !app_assoc | rewrite Ed; lia | lia].
    by rewrite dots_snoc, <- !app_assoc.
Qed.

Lemma localpart_plain s a k ws w b p i :
  s = a ++ dots ws ++ w ++ b → Forall plain ws → plain w → ap_s p = s → lead a k →
  i = len (a ++ dots ws ++ w) - 1 → (length ws ≤ length s)%nat →
  localpart i p = Ret ((dots ws ++ w, k), p).
Proof.
  intros Hs Hws Hw Hp Hl Hi Hn. unfold localpart. rewrite (input_bind s) by done.
  assert (0 < len w) by (destruct Hw as [Hw _]; destruct w; [done | simpl; lia]).
  destruct (Z.ltb_spec i 0); [rewrite !length_app in Hi; lia|].
  rewrite (pbind_ret (localpart_loop _ _ _ _ _) _ _ _ _ (localpart_loop_plain (S (length s)) ws s a k w b p [] [] i
    Hs Hws Hw Hp Hl Hi ltac:(lia) eq_refl)).
  rewrite !app_nil_r. destruct (dots ws ++ w ==s []) eqn:E; [|done].
  apply str_eqb_true, app_nil in E as [_ ->]. simpl in *. lia.
Qed.

(** ** One address *)

(** Atoms of letters, digits, hyphens, underscores and plus signs, joined by dots. *)
Definition dot_atoms (s : str) : Prop :=
  ∃ ws w, s = Join (ws ++ [w]) $"." ∧ Forall plain ws ∧ plain w.

Record plain_addr (lp dom : str) : Prop := {
  pa_local : dot_atoms lp;
  pa_domain : dot_atoms dom;
  pa_letter : match last dom with Some c => is_digit c = false | None => True end;
  pa_length : len lp <= 256 }.

Lemma dots_count ws : (length ws ≤ length (dots ws))%nat.
Proof.
  induction ws as [|w ws IH]; [done|]. unfold dots in *. simpl. rewrite !length_app.
  change (length $".") with 1%nat. lia.
Qed.

Lemma dot_atoms_last s : dot_atoms s → ∃ t c, s = t ++ [c] ∧ plain_char c = true.
Proof.
  intros (ws & w & -> & _ & Hw). destruct (plain_split w Hw) as (w' & c & -> & Hc).
  exists (dots ws ++ w'), c. by rewrite Join_dots, app_assoc.
Qed.

Lemma add_plain lp dom p :
  0 < len lp <= 256 → recentError p = None →
  add [] lp dom p = Ret (tt, with_addresses (NewAddress [] lp dom :: ap_addresses p) p).
Proof.
  intros Hl Hr. unfold add. destruct (Z.ltb_spec 256 (len lp)); [lia|].
  assert (add_name [] lp dom = Ret []) as HN.
  { unfold add_name. simpl. by destruct (_ && _). }
  rewrite (pbind_ret (lift (add_name [] lp dom)) _ p [] p) by (unfold lift; by rewrite HN).
  unfold modify. by rewrite Hr.
Qed.

Lemma route_quiet s i p : ap_s p = s → sees s i (Byte.eqb ":") = false → route i p = Ret (i, p).
Proof.
  intros Hp H. unfold route. rewrite (input_bind s) by done.
  unfold mbind, state_bind, gets. by rewrite H.
Qed.

Lemma addr_spec_plain s a k lp dom b p i :
  s = a ++ lp ++ $"@" ++ dom ++ b → plain_addr lp dom → lead a k → ap_s p = s →
  i = len (a ++ lp ++ $"@" ++ dom) - 1 → lastComment p = [] → recentError p = None →
  addr_spec i p = Ret (Go k, with_addresses (NewAddress [] lp dom :: ap_addresses p) p).
Proof.
  intros Hs [(ls & l & El & Hls & Hl) (ds & d & Ed & Hds & Hd) Hdig Hlen] Ha Hp Hi Hc Hr.
  rewrite Join_dots in El, Ed.
  assert (length ls ≤ length s ∧ length ds ≤ length s)%nat as [Hcl Hcd].
  { pose proof (dots_count ls). pose proof (dots_count ds). rewrite Hs, El, Ed, !length_app. lia. }
  assert (len l > 0 ∧ len d > 0) as [Hl0 Hd0]
    by (destruct Hl as [Hl _], Hd as [Hd _]; destruct l, d; try done; simpl; lia).
  unfold addr_spec. rewrite (input_bind s) by done. rewrite (pbind_ret (gets lastComment) _ p [] p) by (unfold gets; by rewrite Hc).
  rewrite ascii_decode by done. cbn [negb orb].
  replace (if Contains [] $"=?" then [] else []) with (@nil byte) by by destruct (Contains _ _).
  rewrite (pbind_ret (domain i) _ p (dom, len (a ++ lp)) p).
  2:{ rewrite Ed. apply (domain_plain s (a ++ lp) ds d b); [by rewrite Hs, Ed, <- !app_assoc | | done | | done].
      - split_and!; [done | done|]. rewrite Ed, last_app in Hdig. by destruct (last d).
      - by rewrite Hi, Ed, <- app_assoc. }
  assert (∀ f, sees s (len (a ++ lp)) f = f "@"%byte) as Hat.
  { intros f. rewrite Hs, app_assoc. by apply sees_mid. }
  rewrite Hat, beq_refl. unfold addr_spec_local.
  destruct (plain_split l Hl) as (l' & c & El' & Hpc).
  assert (s = (a ++ dots ls ++ l') ++ c :: ($"@" ++ dom ++ b)) as Hs2 by (rewrite Hs, El, El', <- !app_assoc; done).
  assert (len (a ++ lp) - 1 = len (a ++ dots ls ++ l')) as Hj by (rewrite El, El', !length_app; simpl; lia).
  set (j := len (a ++ lp) - 1) in *.
  assert (∀ f, sees s j f = f c) as Hsj by (intros f; rewrite Hs2; by apply sees_mid).
  rewrite (pbind_ret (gets ap_s ≫= _) _ p (lp, dom, [], k) p).
  2:{ rewrite (input_bind s) by done. cbv zeta. fold j.
      rewrite back_stop by (rewrite Hsj; by apply plain_not).
      rewrite (pbind_ret (comment j) _ p j p)
        by (destruct (plain_tests c Hpc); eapply comment_here; eauto using plain_not).
      rewrite Hsj, (plain_not c ";"%byte), andb_false_r, Z.ltb_irrefl by done. cbn [andb].
      rewrite (pbind_ret (localpart j) _ p (lp, k) p); [done|]. rewrite El.
      apply (localpart_plain s a k ls l ($"@" ++ dom ++ b)); try done; [by rewrite Hs, El, <- app_assoc|].
      unfold j. by rewrite El. }
  assert (s = a ++ (lp ++ $"@" ++ dom ++ b)) as Hs3 by done.
  rewrite (pbind_ret (route k) _ p k p) by (apply (route_quiet s); [done | rewrite Hs; by apply (lead_sees a)]).
  rewrite (pbind_ret (comment k) _ p k p) by (by eapply comment_lead).
  assert (negb (lp ==s []) = true) as ->.
  { apply negb_true_iff, str_eqb_false. rewrite El. intros [_ ->]%app_nil. simpl in Hl0. lia. }
  cbn [orb]. rewrite (pbind_ret _ _ _ _ _ (add_plain lp dom p ltac:(rewrite El, length_app in *; lia) Hr)). done.
Qed.

(** The parser between two addresses of a list without comments and errors. *)
Definition clean (s : str) (l : Addresses) : AddressParser :=
  {| ap_s := s; firstError := None; recentError := None; ap_addresses := l; lastComment := [] |}.

Lemma skip_commas_quiet n s i p :
  ap_s p = s → sees s i (Byte.eqb ",") = false → skip_commas n i p = Ret (i, p).
Proof.
  intros Hp H. destruct n; cbn [skip_commas]; rewrite (input_bind s) by done; by rewrite H, andb_false_r.
Qed.

Lemma addr_form_spec parse address s i c p :
  (∀ f, sees s i f = f c) → plain_char c = true →
  is_digit c = false ∨ sees s (i - 2) (Byte.eqb ".") = false → 0 <= i → is_at s 0 DQUOTE = false →
  addr_form parse address s i p = addr_spec i p.
Proof.
  intros Hs Hc Hd Hi Hq. unfold addr_form. rewrite Z.sub_0_r, !Hs.
  rewrite !(plain_not c) by done. rewrite !andb_false_r. cbn [andb].
  replace (isQuoted s DQUOTE SQUOTE) with false
    by (unfold isQuoted; by rewrite Hq, orb_true_r).
  assert ((10 <? i) && is_digit c && sees s (i - 2) (Byte.eqb ".") = false) as ->
    by (destruct Hd as [-> | ->]; by rewrite !andb_false_r).
  by destruct (Z.ltb_spec i 0); [lia|].
Qed.

(** An address that ends in a plain byte is an [addr_spec]. *)
Lemma address_spec parse n s l i c :
  (∀ f, sees s i f = f c) → plain_char c = true →
  is_digit c = false ∨ sees s (i - 2) (Byte.eqb ".") = false → 0 <= i → is_at s 0 DQUOTE = false →
  address parse (S n) i (clean s l)
  = (r ← addr_spec i; match r with Go i => comment i | Stop i => mret i end) (clean s l).
Proof.
  intros Hsee Hc Hd Hi Hq. cbn [address]. destruct (plain_tests c Hc) as [Hw _].
  rewrite (pbind_ret (modify _) _ (clean s l) tt (clean s l)), (input_bind s) by done.
  rewrite (pbind_ret (comment i) _ (clean s l) i (clean s l))
    by (apply (comment_quiet s); [done | by apply back_stop; rewrite Hsee | rewrite Hsee; by apply plain_not]).
  rewrite (pbind_ret (skip_commas _ _) _ (clean s l) i (clean s l))
    by (apply (skip_commas_quiet _ s); [done | rewrite Hsee; by apply plain_not]).
  assert (skip_angles (length s) s i = i) as ->.
  { destruct (length s); [done|]. cbn [skip_angles].
    by rewrite Hsee, (plain_not c ">"%byte), andb_false_r by done. }
  cbv zeta. unfold mbind, state_bind. by rewrite (addr_form_spec _ _ s i c) by done.
Qed.

Lemma address_plain parse n s a k lp dom b l i :
  s = a ++ lp ++ $"@" ++ dom ++ b → plain_addr lp dom → lead a k → is_at s 0 DQUOTE = false →
  i = len (a ++ lp ++ $"@" ++ dom) - 1 →
  address parse (S n) i (clean s l) = Ret (k, clean s (NewAddress [] lp dom :: l)).
Proof.
  intros Hs Hp Ha Hq Hi.
  destruct (dot_atoms_last dom (pa_domain _ _ Hp)) as (d & c & Ed & Hc).
  assert (s = (a ++ lp ++ $"@" ++ d) ++ c :: b) as Hs' by (rewrite Hs, Ed, <- !app_assoc; done).
  assert (i = len (a ++ lp ++ $"@" ++ d)) as Hi' by (rewrite Hi, Ed, !length_app; simpl; lia).
  pose proof (pa_letter _ _ Hp) as Hd. rewrite Ed, last_snoc in Hd.
  rewrite (address_spec _ _ _ _ _ c); [| intros f; rewrite Hs'; by apply sees_mid | done | by left | lia | done].
  rewrite (pbind_ret (addr_spec i) _ (clean s l) (Go k) (clean s (NewAddress [] lp dom :: l))).
  - by apply (comment_lead s a k (lp ++ $"@" ++ dom ++ b)).
  - by apply (addr_spec_plain s a k lp dom b).
Qed.

(** ** The list *)

Definition addr_text (x : str * str) : str := x.1 ++ $"@" ++ x.2.
Definition commas (xs : list (str * str)) : str := flat_map (λ x, addr_text x ++ $", ") xs.

Lemma Join_commas xs x : Join (map addr_text (xs ++ [x])) $", " = commas xs ++ addr_text x.
Proof.
  induction xs as [|y xs IH]; [done|]. cbn [app map].
  rewrite Join_cons by (by destruct xs). rewrite IH. cbn [commas flat_map]. by rewrite <- !app_assoc.
Qed.

Lemma commas_snoc xs x : commas (xs ++ [x]) = (commas xs ++ addr_text x) ++ $", ".
Proof. unfold commas. rewrite flat_map_app. simpl. by rewrite app_nil_r, app_assoc. Qed.

Lemma commas_count xs : (length xs ≤ length (commas xs))%nat.
Proof.
  induction xs as [|x xs IH]; [done|]. cbn [commas flat_map length]. rewrite !length_app.
  change (length $", ") with 2%nat. unfold commas in IH. lia.
Qed.

(** After an address, the comma before it and the space after the previous one
    are skipped. *)
Lemma separators_comma n s a c b colon j k :
  s = (a ++ [c]) ++ $", " ++ b → plain_char c = true → k = len (a ++ [c]) → k < j →
  separators (S n) s colon j k = k - 1.
Proof.
  intros Hs Hc Hk Hj. cbn [separators].
  assert (∀ f, sees s k f = f ","%byte) as H1 by (intros f; rewrite Hs; by apply sees_mid).
  assert (∀ f, sees s (k - 1) f = f c) as H2.
  { intros f. rewrite Hs. apply sees_last. rewrite Hk, length_app. simpl. lia. }
  rewrite H1, beq_refl. destruct (Z.ltb_spec k j); [|lia]. cbn [orb andb].
  destruct (plain_tests c Hc) as [Hw _]. rewrite back_stop by (by rewrite H2).
  destruct n; [done|]. cbn [separators].
  by rewrite H2, !(plain_is_not c), !andb_false_r by done.
Qed.

Lemma parse_loop_plain parse m n xs x s b l i j colon :
  s = commas xs ++ addr_text x ++ b → Forall (λ x, plain_addr x.1 x.2) (xs ++ [x]) →
  is_at s 0 DQUOTE = false → i = len (commas xs ++ addr_text x) - 1 → i < j → (length xs < n)%nat →
  parse_loop n (address parse (S m)) colon i j (clean s l)
  = Ret (-1, clean s (map (λ x, NewAddress [] x.1 x.2) (xs ++ [x]) ++ l)).
Proof.
  revert n x b l i j. induction xs as [|y xs IH] using rev_ind; intros n x b l i j Hs Hxs Hq Hi Hj Hn;
    (destruct n as [|n]; [lia|]); cbn [parse_loop]; apply Forall_app in Hxs as [Hxs Hx];
    rewrite Forall_singleton in Hx;
    (assert (0 <= i) as Hi0;
     [rewrite Hi; unfold addr_text; rewrite !length_app; change (length $"@") with 1%nat; lia|]);
    (destruct (Z.leb_spec 0 i), (Z.ltb_spec i j); try lia); cbn [andb].
  - rewrite (pbind_ret (address _ _ _) _ _ (-1) (clean s (NewAddress [] x.1 x.2 :: l)))
      by (apply (address_plain parse m s [] (-1) x.1 x.2 b); [by rewrite Hs; unfold addr_text; rewrite <- !app_assoc | done | by left | done | done]).
    rewrite (input_bind s) by done.
    destruct n, (length s); cbn [separators parse_loop]; rewrite ?sees_neg, ?andb_false_r by lia; done.
  - set (k := len (commas xs ++ addr_text y)).
    rewrite commas_snoc in Hs, Hi.
    rewrite (pbind_ret (address _ _ _) _ _ k (clean s (NewAddress [] x.1 x.2 :: l))).
    2:{ apply (address_plain parse m s (commas (xs ++ [y])) k x.1 x.2 b); rewrite ?commas_snoc; try done.
        - rewrite Hs. unfold addr_text. by rewrite <- !app_assoc.
        - right. by eexists. }
    rewrite (input_bind s) by done. apply Forall_app in Hxs as Hy. destruct Hy as [_ Hy].
    rewrite Forall_singleton in Hy. destruct (dot_atoms_last _ (pa_domain _ _ Hy)) as (d & c & Ed & Hc).
    assert (commas xs ++ addr_text y = (commas xs ++ y.1 ++ $"@" ++ d) ++ [c]) as Ey
      by (unfold addr_text; rewrite Ed, <- !app_assoc; done).
    assert (∃ f, length s = S f) as [f ->] by (destruct s; [|by eexists]; by destruct (commas xs ++ addr_text y)).
    rewrite (separators_comma f s (commas xs ++ y.1 ++ $"@" ++ d) c (addr_text x ++ b))
      by (done || (by rewrite Hs, Ey, <- !app_assoc) || (by unfold k; rewrite Ey) || (unfold k; rewrite Hi, !length_app; simpl; lia)).
    rewrite (IH n y ($", " ++ addr_text x ++ b)); try done.
    + rewrite (map_app _ (xs ++ [y])). by rewrite <- app_assoc.
    + by rewrite Hs, <- !app_assoc.
    + unfold k. rewrite Hi, !length_app. simpl. lia.
    + rewrite length_app in Hn. simpl in Hn. lia.
Qed.

Definition plain_address (x : str * str) : Address := NewAddress [] x.1 x.2.

Lemma plain_sensible c s : plain_char c = true → sensible_loop (c :: s) = sensible_loop s.
Proof.
  intros Hc. cbn [sensible_loop]. rewrite (plain_is_not c "."%byte) by done.
  assert (is_lower c || is_upper c || is_digit c || atom_special c || (161 <=? bz c) = true) as ->; [|done].
  revert Hc. by destruct c.
Qed.

Lemma sensible_plain w s :
  Forall (λ c, plain_char c = true) w → sensible_loop (w ++ s) = sensible_loop s.
Proof. induction 1 as [|c w Hc Hw IH]; [done|]. cbn [app]. by rewrite plain_sensible. Qed.

Lemma dots_first ws w : Forall plain ws → plain w → ∃ c t, dots ws ++ w = c :: t ∧ plain_char c = true.
Proof.
  intros Hws Hw. assert (∀ v, plain v → ∃ c t, v = c :: t ∧ plain_char c = true) as H.
  { intros [|c t] [Hv Hv']; [done|]. exists c, t. by inversion Hv'. }
  destruct Hws as [|v ws Hv _]; [by apply H|]. destruct (H v Hv) as (c & t & -> & Hc). by eexists _, _.
Qed.

Lemma sensible_dot_atoms s : dot_atoms s → sensible_loop s = Ret true.
Proof.
  intros (ws & w & -> & Hws & Hw). rewrite Join_dots. induction Hws as [|v ws Hv Hws IH].
  - simpl. rewrite <- (app_nil_r w). by rewrite sensible_plain by apply Hw.
  - change (dots (v :: ws)) with ((v ++ $".") ++ dots ws). rewrite <- !app_assoc, sensible_plain by apply Hv.
    destruct (dots_first ws w Hws Hw) as (c & t & E & Hc). rewrite E in *.
    transitivity (if c =b "." then Ret false else sensible_loop (c :: t)); [done|].
    by rewrite (plain_is_not c "."%byte).
Qed.

Lemma dot_atoms_ascii s : dot_atoms s → isAscii s = true.
Proof.
  intros (ws & w & -> & Hws & [_ Hw]). rewrite Join_dots. unfold isAscii. apply Is_true_true, forallb_True, Forall_app.
  assert (∀ c, plain_char c = true → ascii_char c = true) as HP by (intros []; by vm_compute).
  assert (∀ v, Forall (λ c, plain_char c = true) v → Forall (λ c, Is_true (ascii_char c)) v) as HF.
  { intros v Hv. eapply Forall_impl; [exact Hv|]. intros c Hc. simpl. by rewrite HP. }
  split; [|by apply HF]. induction Hws as [|v ws [_ Hv] Hws IH]; [constructor|].
  change (dots (v :: ws)) with ((v ++ $".") ++ dots ws). rewrite !Forall_app. split_and!; [by apply HF | | done].
  by repeat constructor.
Qed.

Lemma toString_plain x avoid :
  plain_addr x.1 x.2 → toString (plain_address x) avoid = Ret (addr_text x).
Proof.
  intros [Hl Hd _ _]. unfold toString, plain_address, NewAddress. cbn [a_t].
  assert (∀ s, dot_atoms s → (s ==s []) = false) as Hne.
  { intros s Hs. destruct (dot_atoms_last s Hs) as (t & c & -> & _). apply str_eqb_false. by destruct t. }
  rewrite (Hne x.2) by done. cbn [negb]. unfold needsUnicode. cbn [Localpart Domain].
  rewrite !dot_atoms_ascii, andb_false_r by done. cbn [a_name].
  unfold print_localpart, localpartIsSensible. cbn [Localpart]. rewrite (Hne x.1), sensible_dot_atoms by done.
  simpl. by rewrite app_nil_r.
Qed.

Lemma list_not_quoted xs b :
  Forall (λ x, plain_addr x.1 x.2) xs → xs ≠ [] → is_at (Join (map addr_text xs) $", " ++ b) 0 DQUOTE = false.
Proof.
  intros Hxs Hne. destruct Hxs as [|x xs [(ws & w & E & Hws & Hw) _ _ _] _]; [done|].
  rewrite Join_dots in E. destruct (dots_first ws w Hws Hw) as (c & t & E' & Hc). rewrite E' in E.
  assert (∃ u, Join (map addr_text (x :: xs)) $", " = c :: u) as [u ->].
  { destruct xs; simpl; unfold addr_text; rewrite E; by eexists. }
  simpl. unfold is_at. simpl. by apply plain_is_not.
Qed.

(** C2: a comma-separated list of plain addresses (atoms of
    letters, digits, hyphens, underscores and plus signs joined by dots, on both
    sides of the at-sign, the domain not ending in a digit) is parsed without
    error into [Uniquify] of exactly these addresses, in order.  When no two of
    them have the same case-folded form, the result is the list itself, and
    printing each of its addresses gives back the text that was parsed.  (The
    comment of the type [AddressParser] says that duplicates are kept; the code
    removes them.) *)
Theorem NewAddressParser_list (xs : list (str * str)) (avoid : bool) :
  Forall (λ x, plain_addr x.1 x.2) xs →
  let s := Join (map addr_text xs) $", " in
  ∃ u p, Uniquify (map plain_address xs) = Ret u
    ∧ NewAddressParser s = Ret p ∧ ap_addresses p = u ∧ firstError p = None
    ∧ (NoDup (map key (map plain_address xs)) →
       u = map plain_address xs ∧ mapM (λ a, toString a avoid) u = Ret (map addr_text xs)).
Proof.
  intros Hxs s. destruct (uniquify_total (map plain_address xs)) as (u & Hu & _).
  exists u, (clean s u). split_and!; [done | | done | done|].
  - unfold NewAddressParser. cbn [NewAddressParser_fuel]. unfold parse_addresses.
    assert (∀ parse, parse_loop (S (length s)) (address parse (S (length s))) (Contains s $":") (len s - 1) (len s)
      (clean s []) = Ret (-1, clean s (map plain_address xs))) as HL.
    { intros parse. destruct xs as [|x xs _] using rev_ind; [done|].
      pose proof (list_not_quoted _ [] Hxs ltac:(by destruct xs)) as Hq. rewrite app_nil_r in Hq.
      unfold s in *. rewrite Join_commas in *. rewrite <- (app_nil_r (map plain_address _)).
      apply (parse_loop_plain _ _ _ xs x _ []); try done; [by rewrite app_nil_r | lia |].
      rewrite length_app. pose proof (commas_count xs). lia. }
    unfold clean in HL. rewrite HL. simpl. by rewrite Hu.
  - intros Hn. rewrite (uniquify_NoDup _ Hn) in Hu. injection Hu as <-. split; [done|].
    clear s Hn. induction Hxs as [|x xs Hx Hxs IH]; [done|]. simpl. rewrite toString_plain by done. simpl. 
    by rewrite IH.
Qed.

(** ** Fields that crash the parser *)

Lemma sees_all s i f : Forall (λ c, f c = false) s → sees s i f = false.
Proof.
  intros H. unfold sees. destruct (s !! Z.to_nat i) as [c|] eqn:E; [|by rewrite andb_false_r].
  rewrite Forall_lookup in H. by rewrite (H _ _ E), andb_false_r.
Qed.

Lemma digits_back_all s i p :
  Forall (λ c, is_digit c = true) s → ap_s p = s → i = len s - 1 → digits_back i p = Panic.
Proof.
  intros Hs Hp Hi. unfold digits_back. rewrite (input_bind s) by done.
  assert (back s (λ c, is_digit c || (c =b ".")) 0 i = -1) as ->; [|done].
  rewrite <- (app_nil_r s). apply (back_word [] s []); [simpl; lia | | by apply sees_neg].
  eapply Forall_impl; [exact Hs|]. intros c Hc. simpl in *. by rewrite Hc.
Qed.

(** C37: a non-empty field of digits only makes the parser
    index its input at -1: the loop that looks for an IPv4 address at the end of
    the input has no lower bound. *)
Theorem NewAddressParser_digits (s : str) :
  s ≠ [] → Forall (λ c, is_digit c = true) s → NewAddressParser s = Panic.
Proof.
  intros Hne Hs. destruct s as [|c t _] using rev_ind; [done|]. set (s := t ++ [c]) in *.
  assert (is_digit c = true) as Hc by (apply Forall_app in Hs as [_ Hs]; by inversion Hs).
  assert (wsp c = false ∧ plain_char c = true) as [Hw Hpc] by (revert Hc; by destruct c).
  set (i := len s - 1). assert (i = len t) as Hi by (unfold i, s; rewrite length_app; simpl; lia).
  assert (∀ f, sees s i f = f c) as Hsee by (intros f; by apply sees_mid).
  assert (comment i (clean s []) = Ret (i, clean s [])) as HC
    by (apply (comment_here s t c []); try done; by apply plain_not).
  assert (addr_spec i (clean s []) = Panic) as HP.
  { unfold addr_spec. rewrite (input_bind s) by done. rewrite (pbind_ret (gets lastComment) _ (clean s []) [] (clean s []) eq_refl).
    rewrite ascii_decode by done. cbn [negb orb]. apply pbind_panic. unfold domain. rewrite (pbind_ret _ _ _ _ _ HC). destruct (Z.ltb_spec i 0); [lia|].
    rewrite (pbind_ret (char i) _ _ c (clean s [])) by (by apply (char_mid s t c [])).
    rewrite Hc. by apply pbind_panic, pbind_panic, (digits_back_all s). }
  assert (∀ parse n, address parse (S n) i (clean s []) = Panic) as HA.
  { intros parse n. rewrite (address_spec _ _ _ _ _ c Hsee Hpc); [by apply pbind_panic | | lia |].
    - right. apply sees_all. eapply Forall_impl; [exact Hs|]. intros d Hd. simpl in *. apply beq_false. intros <-. done.
    - destruct Hs as [|d s' Hd _]; [done|]. unfold is_at. simpl. apply beq_false. by intros ->. }
  unfold NewAddressParser. cbn [NewAddressParser_fuel]. unfold parse_addresses. cbn [parse_loop].
  fold i. destruct (Z.leb_spec 0 i), (Z.ltb_spec i (len s)); try lia. cbn [andb].
  fold (clean s []). by rewrite pbind_panic by apply HA.
Qed.
End List.

Lemma NewAddressParser_list_witness :
  let U := ascii_only_case in let CS := plain_charsets in
  let xs := [($"joe.doe", $"example.com"); ($"info", $"mail.example.org")] in
  ∃ u p, Uniquify (map plain_address xs) = Ret u
    ∧ NewAddressParser $"joe.doe@example.com, info@mail.example.org" = Ret p
    ∧ ap_addresses p = u ∧ firstError p = None
    ∧ (NoDup (map key (map plain_address xs)) →
       u = map plain_address xs ∧ mapM (λ a, toString a true) u = Ret (map addr_text xs)).
Proof.
  intros U CS xs. apply (@NewAddressParser_list U CS plain_charsets_ascii xs true).
  assert (plain $"joe" ∧ plain $"doe" ∧ plain $"info" ∧ plain $"example" ∧ plain $"com" ∧ plain $"mail"
    ∧ plain $"org") as (? & ? & ? & ? & ? & ? & ?) by (split_and!; (split; [done | by repeat constructor])).
  repeat constructor; try done; try (simpl; lia).
  - exists [$"joe"], $"doe". split_and!; [done | by repeat constructor | done].
  - exists [$"example"], $"com". split_and!; [done | by repeat constructor | done].
  - exists [], $"info". split_and!; [done | by repeat constructor | done].
  - exists [$"mail"; $"example"], $"org". split_and!; [done | by repeat constructor | done].
Defined.

Lemma NewAddressParser_digits_witness :
  @NewAddressParser ascii_only_case plain_charsets $"123" = Panic.
Proof.
  apply (@NewAddressParser_digits ascii_only_case plain_charsets plain_charsets_ascii); [done|].
  by repeat constructor.
Defined.

(** ** Domain literals *)

Definition literal_char (c : byte) : Prop := wsp c = false ∧ c ≠ BACKSLASH ∧ c ≠ "["%byte.

Lemma unqp_plain (t : str) : Forall (λ c, wsp c = false ∧ c ≠ BACKSLASH) t → unqp t = Ret t.
Proof.
  unfold unqp. induction 1 as [|c t [Hw Hb] _ IH]; [done|]. cbn [unqp_loop].
  by rewrite Hw, (proj2 (beq_false c BACKSLASH) Hb), IH.
Qed.



(** So does the address it is in. *)
Lemma NewAddressParser_literal :
  ∃ p, @NewAddressParser ascii_only_case plain_charsets $"a@[10.0.0.1]" = Ret p
    ∧ map (λ a, (Localpart a, Domain a)) (ap_addresses p) = [($"a", $"[10.0.0.")]
    ∧ firstError p = None.
Proof. eexists. split_and!; vm_compute; reflexivity. Qed.
