(* ===== verification/Fields.v ===== *)
(** * Header fields: [src/fields.go]

    The types of header fields, their parsers and their printed forms.  A Go
    type that embeds another is a record with a field for the embedded one; the
    interface [Field] is the sum of the types that implement it.  A slice of
    addresses that may be nil is an [option] of a list, because the sources
    compare it with nil. *)

From S2P Require Import Prelude GoStrings GoTime Strings Codec Words Parser Address AddrParser.
Open Scope Z_scope.

(** ** Names *)

Definition FromFieldName := $"From".
Definition ResentFromFieldName := $"Resent-From".
Definition SenderFieldName := $"Sender".
Definition ResentSenderFieldName := $"Resent-Sender".
Definition ReturnPathFieldName := $"Return-Path".
Definition ReplyToFieldName := $"Reply-To".
Definition ToFieldName := $"To".
Definition CcFieldName := $"Cc".
Definition BccFieldName := $"Bcc".
Definition ResentToFieldName := $"Resent-To".
Definition ResentCcFieldName := $"Resent-Cc".
Definition ResentBccFieldName := $"Resent-Bcc".
Definition MessageIDFieldName := $"Message-ID".
Definition ResentMessageIDFieldName := $"Resent-Message-ID".
Definition InReplyToFieldName := $"In-Reply-To".
Definition ReferencesFieldName := $"References".
Definition DateFieldName := $"Date".
Definition OrigDateFieldName := $"Orig-Date".
Definition ResentDateFieldName := $"Resent-Date".
Definition SubjectFieldName := $"Subject".
Definition CommentsFieldName := $"Comments".
Definition KeywordsFieldName := $"Keywords".
Definition ContentTypeFieldName := $"Content-Type".
Definition ContentTransferEncodingFieldName := $"Content-Transfer-Encoding".
Definition ContentDispositionFieldName := $"Content-Disposition".
Definition ContentDescriptionFieldName := $"Content-Description".
Definition ContentIDFieldName := $"Content-ID".
Definition MIMEVersionFieldName := $"MIME-Version".
Definition ReceivedFieldName := $"Received".
Definition ContentLanguageFieldName := $"Content-Language".
Definition ContentLocationFieldName := $"Content-Location".
Definition ContentMd5FieldName := $"Content-Md5".
Definition ListIdFieldName := $"List-Id".
Definition ContentBaseFieldName := $"Content-Base".
Definition ErrorsToFieldName := $"Errors-To".

Definition addressFieldNames : list str :=
  [FromFieldName; ResentFromFieldName; SenderFieldName; ResentSenderFieldName;
   ReturnPathFieldName; ReplyToFieldName; ToFieldName; CcFieldName; BccFieldName;
   ResentToFieldName; ResentCcFieldName; ResentBccFieldName].

Definition fieldNames : list str :=
  addressFieldNames ++
  [MessageIDFieldName; ResentMessageIDFieldName; InReplyToFieldName; ReferencesFieldName;
   DateFieldName; OrigDateFieldName; ResentDateFieldName; SubjectFieldName; CommentsFieldName;
   KeywordsFieldName; ContentTypeFieldName; ContentTransferEncodingFieldName;
   ContentDispositionFieldName; ContentDescriptionFieldName; ContentIDFieldName;
   MIMEVersionFieldName; ReceivedFieldName; ContentLanguageFieldName; ContentLocationFieldName;
   ContentMd5FieldName; ListIdFieldName; ContentBaseFieldName; ErrorsToFieldName].

Definition among (names : list str) (n : str) : bool := existsb (str_eqb n) names.

Definition isKnownField (n : str) : bool := among fieldNames n.

(** The names [NewHeaderFieldNamed] makes an [AddressField] for. *)
Definition address_like : list str :=
  addressFieldNames ++ [MessageIDFieldName; ContentIDFieldName; ResentMessageIDFieldName; ReferencesFieldName].

(** ** Errors *)

(** What the sources record as an error of a field, with the data they format
    into its message. *)
Inductive field_error :=
| TextError
| JunkAt (e : Z) (s : str)
| CharsetError
| NoScheme
| AddressError (e : addr_error)
| InvalidMailbox (a : str)
| OnlyOneAddress
| NeedExactlyOne
| BounceNotLegal
| BadContentID
| NoBounceHere
| BadDate
| InvalidContentType (s : str)
| EmptyType (s : str)
| NoBoundary
| InvalidCTE (t : str)
| InvalidDisposition
| BadLanguages (s : str).

(** ** The common part of all fields *)

Record HeaderField := {
  hf_name : str;
  hf_value : str;
  hf_unparsed : str;
  hf_err : option field_error
}.

Definition set_value (v : str) (f : HeaderField) : HeaderField :=
  {| hf_name := hf_name f; hf_value := v; hf_unparsed := hf_unparsed f; hf_err := hf_err f |}.
Definition set_error (e : option field_error) (f : HeaderField) : HeaderField :=
  {| hf_name := hf_name f; hf_value := hf_value f; hf_unparsed := hf_unparsed f; hf_err := e |}.
Definition SetUnparsedValue (v : str) (f : HeaderField) : HeaderField :=
  {| hf_name := hf_name f; hf_value := hf_value f; hf_unparsed := v; hf_err := hf_err f |}.

Definition hf_named (n : str) : HeaderField :=
  {| hf_name := n; hf_value := []; hf_unparsed := []; hf_err := None |}.

Definition hf_valid (f : HeaderField) : bool :=
  match hf_err f with None => true | Some _ => false end.

(** A parser run from the start of a string. *)
Definition run {A} (m : parse A) (s : str) : outcome A := '(a, _) ← m (newParser s); Ret a.

(** The bytes of a URL that stay as they are. *)
Definition url_char (c : byte) : bool :=
  is_lower c || is_upper c || is_digit c || one_of (SQUOTE :: $"$-_.+!*(),;/?:@&=") c.

(** [strconv.FormatInt(int64(c), 16)] for a byte of two digits. *)
Definition format_hex (c : byte) : str :=
  let digit n := if n <? 10 then u8 (48 + n) else u8 (87 + n) in
  [digit (bz c / 16); digit (bz c mod 16)].

Section Fields.
Context {U : UnicodeCase} {CS : Charset} {L : Local}.

(** [t := p.Text()] and whether the parser is at the end then. *)
Definition read_text : parse (str * bool) := t ← Text; e ← AtEnd; mret (t, e).

(** The loop of [parseText] that puts encoded words apart. *)
Fixpoint respace (n : nat) (inWord : bool) (tmp : str) : parse str :=
  e ← AtEnd;
  if (e : bool) then mret tmp
  else match n with
  | O => out_of_fuel
  | S n' =>
      b ← Present $"=?";
      if (b : bool) then respace n' true (tmp ++ $" =?")
      else
        b ← Present $"?=";
        if (b : bool) then respace n' false (tmp ++ $"?= ")
        else
          w ← Whitespace;
          if w ==s [] then c ← NextChar; _ ← Step 1; respace n' inWord (tmp ++ [c])
          else respace n' inWord (tmp ++ (if inWord then $"_" else $" "))
  end.

Definition parseText (s : str) (f : HeaderField) : outcome HeaderField :=
  '(t, e) ← run read_text s;
  '(f, h) ← (if (e : bool) then Ret (set_value (trim t) f, true)
             else
               s' ← simplify s;
               '(t, e) ← run read_text s';
               Ret (if (e : bool) then (set_value t f, true) else (f, false)));
  '(f, h) ← (if (negb h && Contains s $"=?" && Contains s $"?=")
                || (Contains (hf_value f) $"=?" && Contains (hf_value f) $"?=") then
               s' ← simplify s;
               tmp ← run (n ← fuel; respace n false []) s';
               '(t, e) ← run read_text tmp;
               t ← simplify t;
               Ret (if e && negb (Contains t $"?=") then (set_value t f, true) else (f, h))
             else Ret (f, h));
  Ret (if (h : bool) then f else set_error (Some TextError) f).

Definition parseMIMEVersion (s : str) (f : HeaderField) : outcome HeaderField :=
  '(v, lc, e) ← run (_ ← Comment; v ← DotAtom; _ ← Comment; lc ← gets p_lc; e ← AtEnd;
                     mret (v, lc, e)) s;
  lc ← simplify lc;
  let '(c, ok) := decode lc $"us-ascii" in
  let c := if negb ok || ContainsAny c $"()\" then [] else c in
  let c := if negb (v ==s $"1.0") || negb e
           then $"Note: Original mime-version had syntax problems" else c in
  Ret (set_value ($"1.0" ++ (if c ==s [] then [] else $" (" ++ c ++ $")")) f).

(** The loop of [parseContentLocation]: the URL, and the position after the
    last byte that was accepted. *)
Fixpoint location_loop (n : nat) (e : nat) (buf : str) : parse (str * nat) :=
  match n with
  | O => out_of_fuel
  | S n' =>
      c ← NextChar;
      _ ← Step 1;
      '(c, ok) ← (if c =b "%" then
                    h0 ← NextChar; _ ← Step 1;
                    h1 ← NextChar; _ ← Step 1;
                    mret (match parse_hex2 h0 h1 with Some i => (u8 i, true) | None => (x00, false) end)
                  else mret (c, true));
      '(buf, ok) ← (if url_char c then mret (buf ++ [c], ok)
                    else if (c =b "%") || (127 <=? bz c) then mret (buf ++ $"%" ++ format_hex c, ok)
                    else if c =b SP then mret (buf ++ $"%20", ok)
                    else if (c =b CR) || (c =b LF) then _ ← Whitespace; mret (buf, ok)
                    else mret (buf, false));
      if (ok : bool) then e ← Pos; location_loop n' e buf else mret (buf, e)
  end.

Definition parseContentLocation (s : str) (f : HeaderField) : outcome HeaderField :=
  '(buf, e, a) ← run (_ ← Whitespace; e ← Pos; n ← fuel; '(buf, e) ← location_loop n e [];
                      _ ← Whitespace; a ← AtEnd; mret (buf, e, a)) (unquote (trim s) DQUOTE SQUOTE);
  let '(v, ok) := decode buf $"us-ascii" in
  let f := set_value v f in
  if negb a then j ← from_ s (Z.of_nat e); Ret (set_error (Some (JunkAt (Z.of_nat e) j)) f)
  else Ret (if negb ok then set_error (Some CharsetError) f else f).

Definition parseOther (s : str) (f : HeaderField) : HeaderField :=
  let '(v, ok) := decode s $"us-ascii" in
  set_value v (if negb ok then set_error (Some CharsetError) f else f).

Definition parseContentBase (s : str) (f : HeaderField) : outcome HeaderField :=
  f ← parseContentLocation s f;
  Ret (if negb (hf_valid f) then f
       else if negb (Contains (hf_value f) $":") then set_error (Some NoScheme) f else f).

Definition parseErrorsTo (s : str) (f : HeaderField) : outcome HeaderField :=
  p ← NewAddressParser s;
  match firstError p, ap_addresses p with
  | None, [a] =>
      if bool_decide (a_t a = NormalAddressType) then
        l ← lpdomain a;
        let '(v, ok) := decode l $"us-ascii" in
        Ret (set_error (if (ok : bool) then None else Some CharsetError) (set_value v f))
      else Ret f
  | _, _ => Ret f
  end.

Definition HeaderField_Parse (s : str) (f : HeaderField) : outcome HeaderField :=
  let n := hf_name f in
  if among (address_like ++ [DateFieldName; OrigDateFieldName; ResentDateFieldName; ContentTypeFieldName;
              ContentTransferEncodingFieldName; ContentDispositionFieldName; ContentLanguageFieldName]) n
  then Ret f
  else if among [ContentDescriptionFieldName; SubjectFieldName; CommentsFieldName] n then parseText s f
  else if n ==s MIMEVersionFieldName then parseMIMEVersion s f
  else if n ==s ContentLocationFieldName then parseContentLocation s f
  else if among [InReplyToFieldName; KeywordsFieldName; ReceivedFieldName; ContentMd5FieldName] n
  then Ret (parseOther s f)
  else if n ==s ContentBaseFieldName then parseContentBase s f
  else if n ==s ErrorsToFieldName then parseErrorsTo s f
  else Ret (parseOther s f).

Definition HeaderField_rfc822 (avoidUTF8 : bool) (f : HeaderField) : outcome str :=
  if among [SubjectFieldName; CommentsFieldName; ContentDescriptionFieldName] (hf_name f) then
    v ← (if avoidUTF8 then encodeText (hf_value f) else Ret (hf_value f));
    wrap v 78 [] $" " false
  else Ret (hf_value f).

(** ** Address fields *)

Record AddressField := { af_hf : HeaderField; af_addresses : option Addresses }.

Definition NewAddressField (name : str) : AddressField :=
  {| af_hf := hf_named name; af_addresses := None |}.

Definition af_list (f : AddressField) : Addresses := default [] (af_addresses f).
Definition af_valid (f : AddressField) : bool := hf_valid (af_hf f).

Definition with_list (l : option Addresses) (f : AddressField) : AddressField :=
  {| af_hf := af_hf f; af_addresses := l |}.
Definition with_error (e : option field_error) (f : AddressField) : AddressField :=
  {| af_hf := set_error e (af_hf f); af_addresses := af_addresses f |}.

(** The addresses of an address parser: nil when there are none. *)
Definition parsed (p : AddressParser) : option Addresses :=
  match ap_addresses p with [] => None | l => Some l end.

Definition is_bounce (a : Address) : bool := bool_decide (a_t a = BounceAddressType).

(** The loop of [rfc822] over the addresses; [c] is the column. *)
Fixpoint address_lines (refs avoidUTF8 : bool) (wsep lsep : str) (lpos : Z) (first : bool)
    (c : Z) (s : str) (l : Addresses) : outcome str :=
  match l with
  | [] => Ret s
  | a :: l' =>
      t ← toString a avoidUTF8;
      let t := if refs then $"<" ++ t ++ $">" else t in
      let w := c + len wsep + len t in
      let '(s, c) :=
        if first then (s, c)
        else if (78 <? w) || ((w =? 78) && match l' with [] => false | _ => true end)
        then (s ++ lsep, lpos) else (s ++ wsep, c + len wsep) in
      address_lines refs avoidUTF8 wsep lsep lpos false (c + len t) (s ++ t) l'
  end.

(** The unparsed value of a message-id, folded. *)
Definition folded_value (f : HeaderField) : outcome str :=
  s ← simplify (hf_name f ++ $": " ++ ascii (hf_value f));
  s ← wrap s 78 [] $" " false;
  t ← from_ s (len (hf_name f) + 1);
  Ret (drop_while (λ c, (c =b SP) || (c =b CR) || (c =b LF)) t).

Definition AddressField_rfc822 (avoidUTF8 : bool) (f : AddressField) : outcome str :=
  let name := hf_name (af_hf f) in
  if name ==s ReturnPathFieldName then
    match af_list f with
    | [] => Ret []
    | a :: _ =>
        match a_t a with
        | BounceAddressType => Ret $"<>"
        | NormalAddressType => l ← lpdomain a; Ret ($"<" ++ l ++ $">")
        | _ => Ret []
        end
    end
  else if among [MessageIDFieldName; ResentMessageIDFieldName; ContentIDFieldName] name
          || ((name ==s ReferencesFieldName) && match af_list f with [] => true | _ => false end) then
    match af_list f with
    | a :: _ => t ← toString a false; Ret ($"<" ++ t ++ $">")
    | [] => folded_value (af_hf f)
    end
  else if among (addressFieldNames ++ [ReferencesFieldName]) name then
    if name ==s ReferencesFieldName
    then address_lines true avoidUTF8 $" " (crlf ++ $" ") 1 true (len name + 2) [] (af_list f)
    else address_lines false avoidUTF8 $", " ($"," ++ crlf ++ $"    ") 4 true (len name + 2) [] (af_list f)
  else Ret [].

Definition AddressField_Value (f : AddressField) : outcome str :=
  match af_list f with
  | [] => Ret (hf_value (af_hf f))
  | _ =>
      t ← AddressField_rfc822 true f;
      t ← simplify t;
      Ret (fst (decode t $"us-ascii"))
  end.

Definition parseAddressList (s : str) (f : AddressField) : outcome AddressField :=
  p ← NewAddressParser s;
  Ret (with_list (parsed p) (with_error (option_map AddressError (firstError p)) f)).

(** The loop of [parseMailboxList]: the error of the first group. *)
Fixpoint group_error (l : Addresses) : outcome (option field_error) :=
  match l with
  | [] => Ret None
  | a :: l' =>
      if bool_decide (a_t a = EmptyGroupAddressType) then t ← toString a false; Ret (Some (InvalidMailbox t))
      else group_error l'
  end.

Definition parseMailboxList (s : str) (f : AddressField) : outcome AddressField :=
  f ← parseAddressList s f;
  if af_valid f then
    e ← group_error (af_list f);
    Ret (match e with None => f | _ => with_error e f end)
  else Ret f.

Definition parseMailbox (s : str) (f : AddressField) : outcome AddressField :=
  f ← parseAddressList s f;
  Ret (if af_valid f && Nat.ltb 1 (length (af_list f)) then with_error (Some OnlyOneAddress) f else f).

(** The loop of [references], at position [i]. *)
Fixpoint references_loop (n : nat) (i : Z) : ap unit :=
  if 0 <? i then
    match n with
    | O => out_of_fuel
    | S n' =>
        r ← gets ap_s;
        let l := i in
        c ← char i;
        '(ok, dom, lp, i) ←
          (if negb (c =b ">") then mret (false, [], [], i)
           else
             '(dom, i) ← domain (i - 1);
             let at_sign := sees r i (Byte.eqb "@") in
             '(lp, i) ← localpart (if at_sign then i - 1 else i);
             let less := sees r i (Byte.eqb "<") in
             i ← comment (if less then i - 1 else i);
             i ← (if sees r i (Byte.eqb ",") then comment (i - 1) else mret i);
             mret (at_sign && less, dom, lp, i));
        i ← (if ok && negb (dom ==s []) && negb (lp ==s [])
             then _ ← add [] lp dom; mret i
             else comment (back r (λ c, negb (c =b SP)) 0 (l - 1)));
        references_loop n' i
    end
  else mret tt.

Definition references (r : str) : outcome AddressParser :=
  '(_, p) ← (i ← comment (len r - 1); references_loop (length r) i)
              {| ap_s := r; firstError := None; recentError := None; ap_addresses := [];
                 lastComment := [] |};
  Ret (with_errors None (recentError p) p).

Definition parseReferences (s : str) (f : AddressField) : outcome AddressField :=
  p ← references s;
  Ret (with_error (option_map AddressError (firstError p)) (with_list (parsed p) f)).

Definition parseMessageID (s : str) (f : AddressField) : outcome AddressField :=
  p ← references s;
  Ret (match firstError p, ap_addresses p with
       | Some e, _ => with_error (Some (AddressError e)) f
       | None, [_] => with_list (parsed p) f
       | None, _ => with_error (Some NeedExactlyOne) f
       end).

Definition parseContentID (s : str) (f : AddressField) : outcome AddressField :=
  p ← NewAddressParser s;
  let f := with_error (option_map AddressError (firstError p)) f in
  Ret (match ap_addresses p with
       | [a] =>
           match a_t a with
           | NormalAddressType | LocalAddressType => with_list (parsed p) f
           | BounceAddressType => with_error (Some BounceNotLegal) f
           | EmptyGroupAddressType | InvalidAddressType => with_error (Some BadContentID) f
           end
       | _ => with_error (Some NeedExactlyOne) f
       end).

Definition outlawBounce (f : AddressField) : AddressField :=
  if existsb is_bounce (af_list f) then with_error (Some NoBounceHere) f else f.

(** What [Parse] does to To, Cc, Bcc, Reply-To and the Resent fields after
    [parseAddressList]: a list of repairs. *)
Definition repair_control (s : str) (f : AddressField) : AddressField :=
  if (hf_name (af_hf f) ==s CcFieldName) && negb (af_valid f) && Nat.leb (length (af_list f)) 1
     && existsb (λ c, (bz c <? 32) || (bz c =? 127)) s
  then with_list None (with_error None f) else f.

Definition repair_single (s : str) (f : AddressField) : outcome AddressField :=
  if negb (af_valid f) then
    t ← simplify s;
    Ret (if len t =? 1 then with_list None (with_error None f) else f)
  else Ret f.

Definition repair_bounces (s : str) (f : AddressField) : AddressField :=
  if af_valid f && Contains s $"<>" then
    let l := af_list f in
    let bounces := existsb is_bounce l in
    let problems := existsb (λ a, negb (is_bounce a) && match a_err a with None => false | _ => true end) l in
    let f := if bounces && negb problems
             then with_list (Some (List.filter (λ a, negb (is_bounce a)) l)) f else f in
    let f := if negb (af_valid f) && match af_list f with [] => true | _ => false end
                && negb (Contains s $"@") then with_error None f else f in
    if negb (af_valid f) && Nat.leb (length (af_list f)) 1 && (HasPrefix s $"@" || Contains s $"<@")
    then with_error None (with_list None f) else f
  else f.

Definition AddressField_Parse (s : str) (f : AddressField) : outcome AddressField :=
  let name := hf_name (af_hf f) in
  f ← (if name ==s SenderFieldName then
         f ← parseMailbox s f;
         Ret (if negb (af_valid f) && match af_list f with [] => true | _ => false end
              then with_error None f else f)
       else if name ==s ReturnPathFieldName then
         f ← parseMailbox s f;
         Ret (if negb (af_valid f)
                 || negb match af_list f with
                         | [a] => is_bounce a || bool_decide (a_t a = NormalAddressType)
                         | _ => false
                         end
              then with_list None (with_error None f) else f)
       else if name ==s ResentSenderFieldName then parseMailbox s f
       else if among [FromFieldName; ResentFromFieldName] name then parseMailboxList s f
       else if among [ToFieldName; CcFieldName; BccFieldName; ReplyToFieldName; ResentToFieldName;
                      ResentCcFieldName; ResentBccFieldName] name then
         f ← parseAddressList s f;
         f ← repair_single s (repair_control s f);
         Ret (repair_bounces s f)
       else if name ==s ContentIDFieldName then parseContentID s f
       else if among [MessageIDFieldName; ResentMessageIDFieldName] name then parseMessageID s f
       else if name ==s ReferencesFieldName then parseReferences s f
       else Ret f);
  Ret (if name ==s ReturnPathFieldName then f else outlawBounce f).

(** ** Dates *)

Record DateField := { df_hf : HeaderField; df_date : option Time }.

Definition NewDateField : DateField := {| df_hf := hf_named DateFieldName; df_date := None |}.

(** [dow + day + " Jan " + year + " 15:04" + second + " " + zone], in the order
    of the five nested loops. *)
Definition dateLayouts : list (list element) :=
  dow ← [[]; [StdWeekDay; Literal $", "]];
  day ← [[StdDay]; [StdZeroDay]];
  year ← [[StdLongYear]; [StdYear]];
  second ← [[Literal $":"; StdZeroSecond]; []];
  zone ← [[StdNumTZ]; [StdTZ]; [StdNumTZ; Literal $" ("; StdTZ; Literal $")"]];
  [dow ++ day ++ [Literal $" "; StdMonth; Literal $" "] ++ year
   ++ [Literal $" "; StdHour; Literal $":"; StdZeroMinute] ++ second ++ [Literal $" "] ++ zone].

Fixpoint first_layout (layouts : list (list element)) (s : str) : option Time :=
  match layouts with
  | [] => None
  | l :: layouts' => match time_Parse l s with Some t => Some t | None => first_layout layouts' s end
  end.

Definition parseDate (s : str) : outcome (option Time) :=
  s ← simplify (stripcomments s);
  Ret (first_layout dateLayouts s).

Definition DateField_Parse (s : str) (f : DateField) : outcome DateField :=
  t ← parseDate s;
  Ret (match t with
       | Some t => {| df_hf := set_value (format_date t) (df_hf f); df_date := Some t |}
       | None => {| df_hf := set_error (Some BadDate) (df_hf f); df_date := df_date f |}
       end).

(** ** MIME fields *)

Record MIMEParameter := { mp_name : str; mp_value : str; mp_parts : list str }.

Definition NewMIMEParameter (name value : str) : MIMEParameter :=
  {| mp_name := name; mp_value := value; mp_parts := [] |}.

Record MIMEField := { mf_hf : HeaderField; mf_base : str; mf_params : list MIMEParameter }.

Definition parameter (n : str) (ps : list MIMEParameter) : str :=
  match List.find (λ p, mp_name p ==s ToLower n) ps with Some p => mp_value p | None => [] end.

Definition set_mp_value (v : str) (p : MIMEParameter) : MIMEParameter :=
  {| mp_name := mp_name p; mp_value := v; mp_parts := mp_parts p |}.

Definition addParameter (n v : str) (ps : list MIMEParameter) : list MIMEParameter :=
  let s := ToLower n in
  if existsb (λ p, mp_name p ==s s) ps
  then map (λ p, if mp_name p ==s s then set_mp_value v p else p) ps
  else ps ++ [NewMIMEParameter n v].

Fixpoint remove_first (s : str) (ps : list MIMEParameter) : list MIMEParameter :=
  match ps with
  | [] => []
  | p :: ps' => if mp_name p ==s s then ps' else p :: remove_first s ps'
  end.

Definition removeParameter (n : str) (ps : list MIMEParameter) : list MIMEParameter :=
  remove_first (ToLower n) ps.

(** The name and the number of a parameter [name*number]. *)
Definition param_number (n : str) : str * option Z :=
  if Contains n $"*" then
    let star := Z.to_nat (Index n $"*") in
    match Atoi (drop (S star) n) with
    | Some k => (take star n, Some k)
    | None => (n, None)
    end
  else (n, None).

(** [append(parts, make([]string, gap)...)] and [append(parts, v)]; a slice of
    2^48 bytes or more cannot be made. *)
Definition add_part (k : Z) (v : str) (parts : list str) : outcome (list str) :=
  let gap := k - len parts in
  if 2 ^ 48 <=? 16 * gap then Panic
  else Ret (parts ++ replicate (Z.to_nat gap) [] ++ [v]).

Definition set_in (part : option Z) (v : str) (p : MIMEParameter) : outcome MIMEParameter :=
  match part with
  | Some k =>
      parts ← add_part k v (mp_parts p);
      Ret {| mp_name := mp_name p; mp_value := mp_value p; mp_parts := parts |}
  | None => Ret (set_mp_value v p)
  end.

(** Sets the parameter named [n], which is appended when there is none. *)
Fixpoint set_param (n : str) (part : option Z) (v : str) (ps : list MIMEParameter) :
    outcome (list MIMEParameter) :=
  match ps with
  | [] => p ← set_in part v (NewMIMEParameter n []); Ret [p]
  | p :: ps' =>
      if mp_name p ==s n then p ← set_in part v p; Ret (p :: ps')
      else ps' ← set_param n part v ps'; Ret (p :: ps')
  end.

Definition skip_param (c : byte) : bool :=
  (c =b ";") || (c =b SP) || (c =b HT) || (c =b CR) || (c =b LF) || (c =b DQUOTE).

(** The loop over the rest of an unquoted value; whether it got to its end. *)
Fixpoint unquoted_value (n : nat) : parse bool :=
  e ← AtEnd;
  c ← NextChar;
  if negb e && negb (c =b ";") && negb (c =b DQUOTE) then
    match n with
    | O => out_of_fuel
    | S n' =>
        a ← DotAtom;
        stop ← (if a ==s [] then v ← MIMEValue; mret (v ==s []) else mret false);
        if (stop : bool) then mret false else unquoted_value n'
    end
  else mret true.

Definition param_value : parse str :=
  c ← NextChar;
  if c =b DQUOTE then MIMEValue
  else
    start ← Pos;
    v ← MIMEValue;
    n ← fuel;
    ok ← unquoted_value n;
    if (ok : bool) then
      stop ← Pos;
      s ← gets p_str;
      lift (slice s (Z.of_nat start) (Z.of_nat stop))
    else mret v.

(** The loop of [parseParameters]; [ct] says that the field is Content-Type. *)
Fixpoint parameters_loop (n : nat) (ct first : bool) (ps : list MIMEParameter) :
    parse (list MIMEParameter) :=
  match n with
  | O => out_of_fuel
  | S n' =>
      i ← Pos;
      _ ← scan skip_param;
      j ← Pos;
      e ← AtEnd;
      if negb (Nat.ltb i j || first) || e then mret ps
      else
        t ← MIMEToken;
        _ ← Comment;
        if ToLower t ==s [] then mret ps
        else
          let '(name, part) := param_number (ToLower t) in
          e ← AtEnd;
          c ← NextChar;
          if ct && e && match cs_info name with Some _ => true | None => false end
             && negb (existsb (λ p, mp_name p ==s $"charset") ps)
          then mret (ps ++ [NewMIMEParameter $"charset" name])
          else
            let known := (c =b ":") && isKnownField name in
            if negb known && negb (c =b "=") then mret ps
            else
              name ← (if known then l ← gets (λ p, length (p_str p)); _ ← Step l; mret [] else mret name);
              _ ← Step 1;
              _ ← Whitespace;
              v ← param_value;
              _ ← Comment;
              ps ← (if name ==s [] then mret ps else lift (set_param name part v ps));
              parameters_loop n' ct false ps
  end.

(** The loop after it changes copies of the parameters only, so there is nothing
    left of it. *)
Definition parseParameters (f : MIMEField) : parse MIMEField :=
  if hf_valid (mf_hf f) then
    n ← fuel;
    ps ← parameters_loop n (hf_name (mf_hf f) ==s ContentTypeFieldName) true (mf_params f);
    mret {| mf_hf := mf_hf f; mf_base := mf_base f; mf_params := ps |}
  else mret f.

(** The first word that fits on the line. *)
Fixpoint fitting (lineLength : Z) (words : list str) : nat :=
  match words with
  | w :: words' => if 78 <? lineLength + 2 + len w then S (fitting lineLength words') else O
  | [] => O
  end.

(** The loop of [rfc822]; it writes one of the [n] words per round. *)
Fixpoint mime_lines (n : nat) (lineLength : Z) (words : list str) (s : str) : str :=
  match n with
  | O => s
  | S n' =>
      let i := fitting lineLength words in
      let '(i, sep, lineLength) :=
        if Nat.ltb i (length words) then (i, $"; ", lineLength + 2) else (O, $";" ++ crlf ++ $" ", 1) in
      match words !! i with
      | Some w => mime_lines n' (lineLength + len w) (take i words ++ drop (S i) words) (s ++ sep ++ w)
      | None => s
      end
  end.

Definition param_word (p : MIMEParameter) : str :=
  mp_name p ++ $"=" ++
  (if isBoring (mp_value p) MIMEBoring then mp_value p else quote (mp_value p) DQUOTE SQUOTE).

Definition MIMEField_rfc822 (f : MIMEField) : str :=
  let words := map param_word (mf_params f) in
  mime_lines (length words) (len (hf_name (mf_hf f)) + 2 + len (mf_base f)) words (mf_base f).

Definition mf_named (n : str) : MIMEField := {| mf_hf := hf_named n; mf_base := []; mf_params := [] |}.

Definition mf_error (e : field_error) (f : MIMEField) : MIMEField :=
  {| mf_hf := set_error (Some e) (mf_hf f); mf_base := mf_base f; mf_params := mf_params f |}.
Definition mf_set_base (b : str) (f : MIMEField) : MIMEField :=
  {| mf_hf := mf_hf f; mf_base := b; mf_params := mf_params f |}.
Definition mf_add (n v : str) (f : MIMEField) : MIMEField :=
  {| mf_hf := mf_hf f; mf_base := mf_base f; mf_params := addParameter n v (mf_params f) |}.

(** *** Content-Type *)

Record ContentType := { ct_mf : MIMEField; ct_type : str; ct_subtype : str }.

Definition NewContentType : ContentType :=
  {| ct_mf := mf_named ContentTypeFieldName; ct_type := []; ct_subtype := [] |}.

Definition set_type (t st : str) (f : ContentType) : ContentType :=
  {| ct_mf := ct_mf f; ct_type := t; ct_subtype := st |}.
Definition set_mf (m : MIMEField) (f : ContentType) : ContentType :=
  {| ct_mf := m; ct_type := ct_type f; ct_subtype := ct_subtype f |}.
Definition ct_valid (f : ContentType) : bool := hf_valid (mf_hf (ct_mf f)).
Definition ct_parameter (n : str) (f : ContentType) : str := parameter n (mf_params (ct_mf f)).
Definition ct_error (e : field_error) (f : ContentType) : ContentType := set_mf (mf_error e (ct_mf f)) f.

(** The parameter [original-type]. *)
Definition keep_type (f : ContentType) : ContentType :=
  set_mf (mf_add $"original-type" (ct_type f ++ $"/" ++ ct_subtype f) (ct_mf f)) f.

(** A type without a subtype: RFC 1049. *)
Definition rfc1049 (s : str) (f : ContentType) : ContentType :=
  if s ==s $"text" then set_type $"text" $"plain" f
  else if s ==s $"postscript" then set_type $"application" $"postscript" f
  else if s ==s $"sgml" then set_type $"text" $"sgml" f
  else if s ==s $"tex" then set_type $"application" $"x-tex" f
  else if s ==s $"troff" then set_type $"application" $"x-troff" f
  else if s ==s $"dvi" then set_type $"application" $"x-dvi" f
  else if HasPrefix s $"x-" then set_type $"application" ($"x-rfc1049-" ++ s) f
  else ct_error (InvalidContentType s) f.

Fixpoint skip_colons (n : nat) : parse unit :=
  b ← Present $":";
  if (b : bool) then
    match n with
    | O => out_of_fuel
    | S n' => _ ← Whitespace; skip_colons n'
    end
  else mret tt.

(** What follows the type: a subtype, or only parameters, or something else;
    [x] is the mark before the type. *)
Definition read_subtype (x : nat) (guess : bool) (f : ContentType) : parse (ContentType * bool) :=
  c ← NextChar;
  if c =b "/" then
    _ ← Step 1;
    e ← AtEnd;
    c ← NextChar;
    f ← (if negb e || negb (c =b ";") then t ← MIMEToken; mret (set_type (ct_type f) (ToLower t) f)
         else mret f);
    mret (f, guess || (ct_subtype f ==s []))
  else if c =b "=" then
    _ ← restore x;
    mret (set_type $"text" $"plain" f, true)
  else mret (set_type $"application" $"octet-stream" (keep_type f), true).

(** The type, the subtype and the parameters; and whether the type must be
    guessed, and whether the parser is at the end. *)
Definition read_type (s : str) (f : ContentType) : parse (ContentType * bool * bool) :=
  _ ← Whitespace;
  n ← fuel;
  _ ← skip_colons n;
  e ← AtEnd;
  '(f, guess) ←
    (if (e : bool) then mret (set_type $"text" $"plain" f, false)
     else
       x ← mark;
       c ← NextChar;
       '(f, guess) ← (if c =b "/" then mret (f, true)
                      else t ← MIMEToken; mret (set_type (ToLower t) (ct_subtype f) f, false));
       e ← AtEnd;
       if (e : bool) then mret (rfc1049 s f, guess)
       else
         '(f, guess) ← read_subtype x guess f;
         m ← parseParameters (ct_mf f);
         mret (set_mf m f, guess));
  e ← AtEnd;
  mret (f, guess, e).

Definition guess_type (f : ContentType) : ContentType :=
  let fn := ct_parameter $"name" f in
  let fn := if fn ==s [] then ct_parameter $"filename" f else fn in
  let fn := ToLower (TrimRight fn $".") in
  if HasSuffix fn $"jpg" || HasSuffix fn $"jpeg" then set_type $"image" $"jpeg" f
  else if HasSuffix fn $"htm" || HasSuffix fn $"html" then set_type $"text" $"html" f
  else if (fn ==s []) && (ct_subtype f ==s []) && (ct_type f ==s $"text")
  then set_type (ct_type f) $"plain" f
  else if ct_type f ==s $"text" then set_type (ct_type f) $"plain" (keep_type f)
  else set_type $"application" $"octet-stream" (keep_type f).

(** A boundary that is not the value of a proper parameter. *)
Definition clean_boundary (b : str) : str :=
  let b := if negb (isQuoted b DQUOTE SQUOTE) then RemoveByte b BACKSLASH else b in
  if isQuoted b DQUOTE SQUOTE then unquote b DQUOTE SQUOTE
  else if isQuoted b SQUOTE SQUOTE then unquote b SQUOTE SQUOTE else b.

Definition find_boundary (s : str) : outcome str :=
  t ← from_ s (Index (ToLower s) $"boundary");
  run (_ ← require $"boundary";
       _ ← Whitespace;
       b ← Present $"=";
       _ ← (if (b : bool) then Whitespace else mret []);
       m ← mark;
       b ← String;
       v ← Valid;
       if (b ==s []) || negb v then
         _ ← restore m;
         i ← Pos;
         s ← gets p_str;
         t ← lift (t ← from_ s (Z.of_nat i); t ← section t $";" 1; simplify t);
         mret (clean_boundary t)
       else mret b) t.

Definition ContentType_Parse (s : str) (f : ContentType) : outcome ContentType :=
  '(f, guess, e) ← run (read_type s f) s;
  let f := if (guess : bool) then guess_type f else f in
  let f := if (ct_type f ==s []) || (ct_subtype f ==s []) then ct_error (EmptyType s) f else f in
  let f := if ct_valid f && (ct_type f ==s $"multipart") && (ct_subtype f ==s $"appledouble")
              && (ct_parameter $"boundary" f ==s [])
           then set_type $"application" $"octet-stream" f else f in
  f ← (if ct_valid f && negb e && (ct_type f ==s $"multipart") && (ct_parameter $"boundary" f ==s []) then
         w ← containsWord (ToLower s) $"boundary";
         if (w : bool) then
           b ← find_boundary s;
           Ret (if b ==s [] then f else set_mf (mf_add $"boundary" b (ct_mf f)) f)
         else Ret f
       else Ret f);
  let f := if ct_valid f && (ct_type f ==s $"multipart") && (ct_parameter $"boundary" f ==s [])
           then ct_error NoBoundary f else f in
  Ret (set_mf (mf_set_base (ct_type f ++ $"/" ++ ct_subtype f) (ct_mf f)) f).

(** *** Content-Transfer-Encoding *)

Record ContentTransferEncoding := { cte_mf : MIMEField; Encoding : EncodingType }.

(** The zero value of [EncodingType] is [QPEncoding]. *)
Definition NewContentTransferEncoding : ContentTransferEncoding :=
  {| cte_mf := mf_named ContentTransferEncodingFieldName; Encoding := QPEncoding |}.

Definition cte_set (e : EncodingType) (b : str) (f : ContentTransferEncoding) : ContentTransferEncoding :=
  {| cte_mf := mf_set_base b (cte_mf f); Encoding := e |}.

Definition ContentTransferEncoding_Parse (s : str) (f : ContentTransferEncoding) :
    outcome ContentTransferEncoding :=
  t ← run (t ← MIMEValue; _ ← Comment; mret (ToLower t)) s;
  Ret (if among [$"7bit"; $"8bit"; $"8bits"; $"binary"; $"unknown"] t then cte_set BinaryEncoding $"7bit" f
       else if t ==s $"quoted-printable" then cte_set QPEncoding $"quoted-printable" f
       else if t ==s $"base64" then cte_set Base64Encoding $"base64" f
       else if among [$"x-uuencode"; $"uuencode"] t then cte_set UuencodeEncoding $"x-uuencode" f
       else if Contains t $"bit" && match t with c :: _ => is_digit c | [] => false end
       then cte_set BinaryEncoding $"7bit" f
       else {| cte_mf := mf_error (InvalidCTE t) (cte_mf f); Encoding := Encoding f |}).

(** *** Content-Disposition *)

Record ContentDisposition := { cd_mf : MIMEField; Disposition : str }.

Definition NewContentDisposition : ContentDisposition :=
  {| cd_mf := mf_named ContentDispositionFieldName; Disposition := [] |}.

Definition ContentDisposition_Parse (s : str) (f : ContentDisposition) : outcome ContentDisposition :=
  run (m ← mark;
       t ← MIMEToken;
       let t := ToLower t in
       _ ← Whitespace;
       c ← NextChar;
       _ ← (if (c =b "=") && negb (among [$"inline"; $"attachment"] t) then restore m else mret tt);
       if t ==s [] then mret {| cd_mf := mf_error InvalidDisposition (cd_mf f); Disposition := Disposition f |}
       else
         p ← parseParameters (cd_mf f);
         let d := if among [$"inline"; $"attachment"] t then t else $"attachment" in
         mret {| cd_mf := mf_set_base d p; Disposition := d |}) s.

(** *** Content-Language *)

Record ContentLanguage := { cl_mf : MIMEField; Languages : list str }.

Definition NewContentLanguage : ContentLanguage :=
  {| cl_mf := mf_named ContentLanguageFieldName; Languages := [] |}.

Fixpoint languages_loop (n : nat) (l : list str) : parse (list str) :=
  match n with
  | O => out_of_fuel
  | S n' =>
      _ ← Comment;
      t ← MIMEToken;
      let l := if t ==s [] then l else l ++ [t] in
      _ ← Comment;
      b ← Present $",";
      if (b : bool) then languages_loop n' l else mret l
  end.

Definition ContentLanguage_Parse (s : str) (f : ContentLanguage) : outcome ContentLanguage :=
  '(l, e) ← run (n ← fuel; l ← languages_loop n (Languages f); e ← AtEnd; mret (l, e)) s;
  let m := cl_mf f in
  let m := if negb e || match l with [] => true | _ => false end then mf_error (BadLanguages s) m else m in
  Ret {| cl_mf := mf_set_base (Join l $", ") m; Languages := l |}.

(** ** The interface [Field] *)

Inductive Field :=
| FHeader (f : HeaderField)
| FAddress (f : AddressField)
| FDate (f : DateField)
| FContentType (f : ContentType)
| FEncoding (f : ContentTransferEncoding)
| FDisposition (f : ContentDisposition)
| FLanguage (f : ContentLanguage).

(** The embedded [HeaderField]. *)
Definition field_hf (f : Field) : HeaderField :=
  match f with
  | FHeader f => f
  | FAddress f => af_hf f
  | FDate f => df_hf f
  | FContentType f => mf_hf (ct_mf f)
  | FEncoding f => mf_hf (cte_mf f)
  | FDisposition f => mf_hf (cd_mf f)
  | FLanguage f => mf_hf (cl_mf f)
  end.

Definition mf_with_hf (h : HeaderField) (m : MIMEField) : MIMEField :=
  {| mf_hf := h; mf_base := mf_base m; mf_params := mf_params m |}.

Definition with_hf (h : HeaderField) (f : Field) : Field :=
  match f with
  | FHeader _ => FHeader h
  | FAddress f => FAddress {| af_hf := h; af_addresses := af_addresses f |}
  | FDate f => FDate {| df_hf := h; df_date := df_date f |}
  | FContentType f => FContentType (set_mf (mf_with_hf h (ct_mf f)) f)
  | FEncoding f => FEncoding {| cte_mf := mf_with_hf h (cte_mf f); Encoding := Encoding f |}
  | FDisposition f => FDisposition {| cd_mf := mf_with_hf h (cd_mf f); Disposition := Disposition f |}
  | FLanguage f => FLanguage {| cl_mf := mf_with_hf h (cl_mf f); Languages := Languages f |}
  end.

Definition field_name (f : Field) : str := hf_name (field_hf f).
Definition field_valid (f : Field) : bool := hf_valid (field_hf f).

Definition Field_Parse (s : str) (f : Field) : outcome Field :=
  match f with
  | FHeader f => f ← HeaderField_Parse s f; Ret (FHeader f)
  | FAddress f => f ← AddressField_Parse s f; Ret (FAddress f)
  | FDate f => f ← DateField_Parse s f; Ret (FDate f)
  | FContentType f => f ← ContentType_Parse s f; Ret (FContentType f)
  | FEncoding f => f ← ContentTransferEncoding_Parse s f; Ret (FEncoding f)
  | FDisposition f => f ← ContentDisposition_Parse s f; Ret (FDisposition f)
  | FLanguage f => f ← ContentLanguage_Parse s f; Ret (FLanguage f)
  end.

Definition field_rfc822 (avoidUTF8 : bool) (f : Field) : outcome str :=
  match f with
  | FHeader f => HeaderField_rfc822 avoidUTF8 f
  | FAddress f => AddressField_rfc822 avoidUTF8 f
  | FDate f => HeaderField_rfc822 avoidUTF8 (df_hf f)
  | FContentType f => Ret (MIMEField_rfc822 (ct_mf f))
  | FEncoding f => Ret (MIMEField_rfc822 (cte_mf f))
  | FDisposition f => Ret (MIMEField_rfc822 (cd_mf f))
  | FLanguage f => Ret (MIMEField_rfc822 (cl_mf f))
  end.

Definition field_value (f : Field) : outcome str :=
  match f with
  | FHeader f => Ret (hf_value f)
  | FAddress f => AddressField_Value f
  | FDate f => Ret (hf_value (df_hf f))
  | FContentType f => Ret (MIMEField_rfc822 (ct_mf f))
  | FEncoding f => Ret (MIMEField_rfc822 (cte_mf f))
  | FDisposition f => Ret (MIMEField_rfc822 (cd_mf f))
  | FLanguage f => Ret (MIMEField_rfc822 (cl_mf f))
  end.

Definition NewHeaderFieldNamed (name : str) : Field :=
  let n := headerCase name in
  if among address_like n then FAddress (NewAddressField n)
  else if among [DateFieldName; OrigDateFieldName; ResentDateFieldName] n then FDate NewDateField
  else if n ==s ContentTypeFieldName then FContentType NewContentType
  else if n ==s ContentTransferEncodingFieldName then FEncoding NewContentTransferEncoding
  else if n ==s ContentDispositionFieldName then FDisposition NewContentDisposition
  else if n ==s ContentLanguageFieldName then FLanguage NewContentLanguage
  else FHeader (hf_named n).

(** [for value[i] == ':' || value[i] == ' ' { i++ }], which has no bound. *)
Definition skip_prefix (value : str) : outcome str :=
  match drop_while (λ c, (c =b ":") || (c =b SP)) value with
  | [] => Panic
  | v => Ret v
  end.

Definition NewHeaderField (name value : str) : outcome Field :=
  f ← Field_Parse value (NewHeaderFieldNamed name);
  if field_valid f then Ret f
  else
    v ← skip_prefix value;
    suf ← Field_Parse v (NewHeaderFieldNamed name);
    Ret (if field_valid suf then suf else with_hf (SetUnparsedValue value (field_hf f)) f).
End Fields.
