(* ===== verification/FieldsFacts.v ===== *)
(** * Theorems on header fields: [Fields] *)

From S2P Require Import Prelude GoStrings GoTime Strings StringsFacts Codec CodecFacts Words WordsFacts.
From S2P Require Import Parser ParserFacts Address AddressFacts AddrParser AddrParserFacts Fields.
Open Scope Z_scope.

(** ** Every parser of a field ends *)

(** The parsers of fields may step past the end of the input; what is left of
    [moves] is that the cursor does not go back. *)
Definition ahead (p q : parser) : Prop := p_str q = p_str p ∧ (p_at p ≤ p_at q)%nat.

#[global] Instance ahead_preorder : PreOrder ahead.
Proof. split; [by intros p | intros p q r [H1 H2] [H3 H4]; split; [congruence | lia]]. Qed.

Lemma moves_ahead p q : moves p q → ahead p q.
Proof. intros [Hs _ Ha _]. split; [done | lia]. Qed.

Definition onward {A} (m : parse A) : Prop := ∀ p, post (m p) (λ '(_, q), ahead p q).

Lemma move_onward {A} (m : parse A) : move m → onward m.
Proof. intros H p. eapply post_mono; [apply H|]. intros [a q]. apply moves_ahead. Qed.

Lemma pbind_onward {A B} (m : parse A) (f : A → parse B) p0 p Q :
  ahead p0 p → onward m → (∀ a q, ahead p0 q → post (f a q) Q) → post ((m ≫= f) p) Q.
Proof.
  intros H Hm Hf. eapply pbind_post; [apply Hm|]. intros a q Hq. apply Hf. by trans p.
Qed.

Lemma onward_bind {A B} (m : parse A) (f : A → parse B) :
  onward m → (∀ a, onward (f a)) → onward (m ≫= f).
Proof.
  intros Hm Hf p. eapply (pbind_onward m f p p); [done | done|]. intros a q Hq.
  eapply post_mono; [apply Hf|]. intros [b r] Hr. by trans q.
Qed.

Lemma onward_if {A} (b : bool) (m m' : parse A) : onward m → onward m' → onward (if b then m else m').
Proof. by destruct b. Qed.

Lemma onward_step n : onward (Step n).
Proof. intros p. split; [done|]. change (p_at p ≤ p_at p + n)%nat. lia. Qed.

Lemma onward_lift {A} (m : outcome A) : ends m → onward (lift m).
Proof. intros H. by apply move_onward, move_lift. Qed.

Create HintDb onward discriminated.
#[export] Hint Resolve onward_bind onward_if onward_step : onward.
#[export] Hint Extern 5 (onward _) => (apply move_onward; solve [auto with parser]) : onward.

(** What is left to read goes down by what was read. *)
Lemma ahead_rest p q : ahead p q → (length (rest q) ≤ length (rest p))%nat.
Proof. intros [Hs Ha]. rewrite !length_rest, Hs. lia. Qed.

Lemma ahead_strict p q :
  ahead (step_by 1 p) q → (p_at p < length (p_str p))%nat → (length (rest q) < length (rest p))%nat.
Proof.
  intros [Hs Ha] Hp. change (p_at (step_by 1 p)) with (p_at p + 1)%nat in Ha. rewrite !length_rest, Hs.
  change (p_str (step_by 1 p)) with (p_str p). lia.
Qed.

(** A loop that is started with the fuel of the parser. *)
Lemma onward_fuel {A} (f : nat → parse A) :
  (∀ n p, (length (rest p) < n)%nat → post (f n p) (λ '(_, q), ahead p q)) → onward (n ← fuel; f n).
Proof. intros H p. apply H. rewrite length_rest. lia. Qed.

Lemma onward_loop {A B} (loop : nat → parse A) (k : A → parse B) :
  (∀ n p, (length (rest p) < n)%nat → post (loop n p) (λ '(_, q), ahead p q)) →
  (∀ a, onward (k a)) → onward (n ← fuel; a ← loop n; k a).
Proof.
  intros Hl Hk. apply onward_fuel. intros n p Hn. eapply pbind_post; [by apply Hl|].
  intros a q Hq. eapply post_mono; [apply Hk|]. intros [b r] Hr. by trans q.
Qed.

Lemma run_ends {A} (m : parse A) s : onward m → ends (run m s).
Proof.
  intros H. unfold run. apply bind_ends; [|by intros [a q] _]. eapply post_ends. apply H.
Qed.

(** One action of an operation that started at [p0]. *)
Ltac pahead p0 a q H :=
  eapply (pbind_onward _ _ p0); [try done | solve [auto with onward] | intros a q H].

Lemma AtEnd_cases p :
  (length (p_str p) ≤ p_at p)%nat ∧ AtEnd p = Ret (true, p)
  ∨ (p_at p < length (p_str p))%nat ∧ AtEnd p = Ret (false, p).
Proof.
  unfold AtEnd, gets. destruct (Nat.leb_spec (length (p_str p)) (p_at p)); [by left | by right].
Qed.

(** A byte other than 0 is in the input. *)
Lemma NextChar_cases p :
  ∃ c, NextChar p = Ret (c, p) ∧ (c = x00 ∨ (p_at p < length (p_str p))%nat).
Proof.
  unfold NextChar, gets. destruct (p_str p !! p_at p) as [c|] eqn:E; eexists; split; [done | | done | by left].
  right. by eapply lookup_lt_Some.
Qed.

Section Total.
Context {U : UnicodeCase} {CS : Charset} {L : Local} {CL : CharsetLaws CS}.

Lemma onward_read_text : onward read_text.
Proof. unfold read_text. auto with onward parser. Qed.

(** After a successful [Present] there is less to read, else nothing changed. *)
Lemma Present_ahead {A} s p (Q : bool → parse A) R :
  s ≠ [] → post (Q false p) R →
  (∀ q, ahead p q → (length (rest q) < length (rest p))%nat → post (Q true q) R) →
  post ((b ← Present s; Q b) p) R.
Proof.
  intros Hs Hf Ht. destruct (Present_cases s p) as [E | [E Hl]]; rewrite (pbind_ret _ _ _ _ _ E); [done|].
  apply Ht; [by apply moves_ahead, moves_step_rest|]. rewrite rest_step, length_drop.
  assert (length s ≠ 0)%nat by by destruct s. lia.
Qed.

Lemma respace_ahead n w tmp p :
  (length (rest p) < n)%nat → post (respace n w tmp p) (λ '(_, q), ahead p q).
Proof.
  revert w tmp p. induction n as [|n IH]; intros w tmp p Hn; [lia|]. cbn [respace].
  destruct (AtEnd_cases p) as [[Ha E] | [Ha E]]; rewrite (pbind_ret _ _ _ _ _ E); [done|].
  assert (∀ w t q, ahead p q → (length (rest q) < length (rest p))%nat →
    post (respace n w t q) (λ '(_, r), ahead p r)) as Hloop.
  { intros. eapply post_mono; [apply IH; lia|]. intros [? r] ?. by trans q. }
  apply Present_ahead; [done | | intros; by apply Hloop].
  apply Present_ahead; [done | | intros; by apply Hloop].
  unfold Whitespace. rewrite (pbind_ret _ _ _ _ _ (scan_eq skip_char p)).
  assert (∀ k, (0 < k)%nat → ahead p (step_by k p) ∧ (length (rest (step_by k p)) < length (rest p))%nat) as Hk.
  { intros k Hk. rewrite rest_step, length_drop, length_rest. split; [split; [done | change (p_at p ≤ p_at p + k)%nat; lia] | lia]. }
  destruct (take_while skip_char (rest p)) as [|c t] eqn:Ew; cbn [length].
  - rewrite str_eqb_refl, step_by_0. destruct (NextChar_cases p) as (c & Ec & _).
    rewrite (pbind_ret _ _ _ _ _ Ec), (pbind_ret (Step 1) _ _ tt (step_by 1 p)) by done.
    apply Hloop; apply Hk; lia.
  - destruct (c :: t ==s []) eqn:E0; [by apply str_eqb_true in E0|]. apply Hloop; apply Hk; lia.
Qed.

Lemma parseText_ends s f : ends (parseText s f).
Proof.
  unfold parseText. apply bind_ends; [apply run_ends, onward_read_text | intros [t e] _].
  apply bind_ends.
  { case_if; [done|]. apply bind_ends; [apply simplify_ends | intros s' _].
    apply bind_ends; [apply run_ends, onward_read_text | by intros [? ?] _]. }
  intros [f' h] _. apply bind_ends; [|by intros [? ?] _].
  case_if; [|done]. apply bind_ends; [apply simplify_ends | intros s' _].
  apply bind_ends; [apply run_ends, onward_fuel; intros; by apply respace_ahead | intros tmp _].
  apply bind_ends; [apply run_ends, onward_read_text | intros [t' e'] _].
  apply bind_ends; [apply simplify_ends | done].
Qed.

Lemma parseMIMEVersion_ends s f : ends (parseMIMEVersion s f).
Proof.
  unfold parseMIMEVersion. apply bind_ends; [apply run_ends; auto 10 with onward parser | intros [[v lc] e] _].
  apply bind_ends; [apply simplify_ends | intros lc' _]. by destruct (decode _ _).
Qed.

Lemma location_loop_ahead n e buf p :
  (length (rest p) < n)%nat → post (location_loop n e buf p) (λ '(_, q), ahead p q).
Proof.
  revert e buf p. induction n as [|n IH]; intros e buf p Hn; [lia|]. cbn [location_loop].
  destruct (NextChar_cases p) as (c & Ec & Hc). rewrite (pbind_ret _ _ _ _ _ Ec).
  rewrite (pbind_ret (Step 1) _ _ tt (step_by 1 p)) by done.
  assert (ahead p (step_by 1 p)) as H1 by (pose proof (onward_step 1 p) as H; exact H).
  eapply (pbind_post _ _ _ (λ '((c', ok), q), ahead (step_by 1 p) q ∧ (c = x00 → c' = x00))).
  { case_if.
    - pahead (step_by 1 p) x1 q1 H2. pahead (step_by 1 p) x2 q2 H3. pahead (step_by 1 p) x3 q3 H4. pahead (step_by 1 p) x4 q4 H5. simpl.
      destruct (parse_hex2 x1 x3); (split; [done | by intros ->]).
    - done. }
  intros [c' ok] q [Hq Hc0].
  eapply (pbind_post _ _ _ (λ '((_, ok'), r), ahead (step_by 1 p) r ∧ (c' = x00 → ok' = false))).
  { case_if; [split; [done | by intros ->]|]. case_if; [split; [done | by intros ->]|].
    case_if; [split; [done | by intros ->]|]. case_if; [|done].
    pahead (step_by 1 p) w r Hr. split; [done|]. by intros ->. }
  intros [buf' ok'] r [Hr Hok]. destruct ok'; [|simpl; by trans (step_by 1 p)].
  rewrite (pbind_ret Pos _ _ _ _ eq_refl).
  assert (p_at p < length (p_str p))%nat as Hlt by (destruct Hc as [->|]; [|done]; by specialize (Hok (Hc0 eq_refl))).
  eapply post_mono; [apply IH | intros [? r'] ?; trans (step_by 1 p); [done | by trans r]].
  pose proof (ahead_strict p r Hr Hlt). lia.
Qed.

Lemma from_ends s lo : ends (from_ s lo).
Proof. apply slice_ends. Qed.

Lemma parseContentLocation_ends s f : ends (parseContentLocation s f).
Proof.
  unfold parseContentLocation. apply bind_ends; [apply run_ends | intros [[buf e] a] _].
  - apply onward_bind; [auto with onward|]. intros _. apply onward_bind; [auto with onward|]. intros e.
    apply (onward_loop (λ n, location_loop n e [])); [intros; by apply location_loop_ahead|].
    intros [buf e']. auto with onward parser.
  - destruct (decode buf _). case_if; [|done]. apply bind_ends; [apply from_ends | done].
Qed.

Lemma Name_ends a avoid : ends (Name a avoid).
Proof.
  unfold Name. destruct (name_scan _ _ _ _). repeat case_if; try done.
  unfold encodePhrase. apply bind_ends; [apply simplify_ends | intros t _]. apply encode_phrase_loop_ends. lia.
Qed.

Lemma sensible_loop_ends s : ends (sensible_loop s).
Proof.
  induction s as [|c s IH]; [done|]. cbn [sensible_loop].
  destruct (c =b "."); [destruct s as [|d s]; [done|]; by destruct (d =b ".")|].
  by destruct (negb _).
Qed.

Lemma print_localpart_ends a : ends (print_localpart a).
Proof.
  unfold print_localpart, localpartIsSensible. apply bind_ends; [|done].
  case_if; [done | apply sensible_loop_ends].
Qed.

Lemma toString_ends a avoid : ends (toString a avoid).
Proof.
  unfold toString. destruct (a_t a); try done.
  - case_if; [done|]. apply bind_ends.
    + case_if; [apply bind_ends; [apply Name_ends | done] | done].
    + intros [pre post] _. apply bind_ends; [apply print_localpart_ends | done].
  - apply bind_ends; [apply Name_ends | done].
  - case_if; [done | apply print_localpart_ends].
Qed.

Lemma lpdomain_ends a : ends (lpdomain a).
Proof.
  unfold lpdomain. apply bind_ends; [case_if; [apply print_localpart_ends | done] | intros r _].
  case_if; [apply toString_ends | done].
Qed.

Lemma NewAddressParser_ends s : ends (NewAddressParser s).
Proof. apply NewAddressParser_fuel_ends. lia. Qed.

Lemma HeaderField_Parse_ends s f : ends (HeaderField_Parse s f).
Proof.
  unfold HeaderField_Parse. repeat case_if; try done; auto using parseText_ends, parseMIMEVersion_ends,
    parseContentLocation_ends.
  - apply bind_ends; [apply parseContentLocation_ends | done].
  - apply bind_ends; [apply NewAddressParser_ends | intros p _].
    destruct (firstError p); [done|]. destruct (ap_addresses p) as [|a [|]]; try done. case_if; [|done].
    apply bind_ends; [apply lpdomain_ends | intros l _]. by destruct (decode _ _).
Qed.

(** ** Address fields *)

Lemma keeps_references_loop s n i :
  i < len s → i <= Z.of_nat n → keeps s (references_loop n i) (λ _, True).
Proof.
  revert i. induction n as [|n IH]; intros i Hi Hn; cbn [references_loop];
    (apply keeps_if; intros Hc; [|by apply keeps_ret]); [lia|].
  apply keeps_input. kbind (keeps_char s i). rename a into c.
  eapply (keeps_bind s _ _ (λ '(ok, _, _, j), j <= i ∧ (ok = true → j < i))).
  { apply keeps_if; intros _; [by apply keeps_ret|]. kbind (keeps_domain s (i - 1)); [lia|].
    destruct a as [dom i1]. cbv zeta. set (j1 := if sees s i1 (Byte.eqb "@") then i1 - 1 else i1).
    assert (j1 <= i1) by (unfold j1; case_if; lia). kbind (keeps_localpart s j1); [lia|].
    destruct a as [lp i2]. set (j2 := if sees s i2 (Byte.eqb "<") then i2 - 1 else i2).
    assert (j2 <= i2) by (unfold j2; case_if; lia). kbind (keeps_comment s j2); [lia|]. rename a into i3.
    eapply (keeps_bind s _ _ (λ j, j <= i3)).
    - apply keeps_if; intros _; [|apply keeps_ret; lia]. eapply keeps_mono; [apply keeps_comment; lia|]. simpl. lia.
    - intros i4 Hi4. apply keeps_ret. lia. }
  intros [[[ok dom] lp] j] [Hj Hok]. eapply (keeps_bind s _ _ (λ k, k < i)).
  - apply keeps_if; intros Hif; [kbind keeps_add; apply keeps_ret; destruct ok; [by apply Hok | done]|].
    pose proof (back_le s (λ c, negb (c =b SP)) 0 (i - 1)).
    eapply keeps_mono; [apply keeps_comment|]; simpl; lia.
  - intros k Hk. apply IH; lia.
Qed.

Lemma references_ends r : ends (references r).
Proof.
  unfold references. apply bind_ends; [|by intros [? ?] _]. eapply post_ends.
  eapply (keeps_bind r _ _ (λ i, i <= len r - 1)); [apply keeps_comment; lia | | done].
  intros i Hi. apply keeps_references_loop; lia.
Qed.

Lemma parseAddressList_ends s f : ends (parseAddressList s f).
Proof. apply bind_ends; [apply NewAddressParser_ends | done]. Qed.

Lemma AddressField_Parse_ends s f : ends (AddressField_Parse s f).
Proof.
  unfold AddressField_Parse. cbv zeta. apply bind_ends; [|done].
  assert (∀ g, ends (parseMailbox s g)) as Hm by (intros; apply bind_ends; [apply parseAddressList_ends | done]).
  repeat case_if; try done.
  - by apply bind_ends.
  - by apply bind_ends.
  - apply bind_ends; [apply parseAddressList_ends | intros g _]. case_if; [|done].
    apply bind_ends; [|done]. induction (af_list g) as [|a l IH]; [done|]. cbn [group_error].
    case_if; [apply bind_ends; [apply toString_ends | done] | done].
  - apply bind_ends; [apply parseAddressList_ends | intros g _]. apply bind_ends; [|done].
    unfold repair_single. case_if; [apply bind_ends; [apply simplify_ends | done] | done].
  - apply bind_ends; [apply NewAddressParser_ends | done].
  - apply bind_ends; [apply references_ends | done].
  - apply bind_ends; [apply references_ends | done].
Qed.

(** ** MIME fields *)

Lemma DotAtom_post p :
  post (DotAtom p) (λ '(a, q), moves p q ∧ (a ≠ [] → (length (rest q) < length (rest p))%nat)).
Proof.
  unfold DotAtom. eapply pbind_post; [apply Atom_post|]. intros a q [Hq Ha].
  destruct (a ==s []) eqn:E; [apply str_eqb_true in E; by subst|]. apply str_eqb_false in E. specialize (Ha E).
  eapply post_mono; [apply (move_fuel (λ n, dot_atom_loop n a)); intros; by apply dot_atom_loop_moves|].
  intros [b r] Hr. split; [by trans q|]. intros _. apply moves_rest in Hr. lia.
Qed.

Lemma MIMEToken_post p :
  post (MIMEToken p) (λ '(a, q), moves p q ∧ (a ≠ [] → (length (rest q) < length (rest p))%nat)).
Proof.
  eapply (pbind_move _ _ p); [auto with parser.. |]. intros ? q Hq. rewrite scan_eq. simpl.
  assert (moves q (step_by (length (take_while token_char (rest q))) q)) as Hs
    by apply moves_step_rest, take_while_length.
  split; [by trans q|]. intros Ha. apply (moves_strict p q); [done..|].
  change (p_at q + length (take_while token_char (rest q)) ≠ p_at q)%nat.
  assert (length (take_while token_char (rest q)) ≠ 0)%nat by by destruct (take_while _ _). lia.
Qed.

Lemma String_post p :
  post (String p) (λ '(a, q), moves p q ∧ (a ≠ [] → (length (rest q) < length (rest p))%nat)).
Proof.
  eapply (pbind_move _ _ p); [auto with parser.. |]. intros ? q Hq.
  destruct (NextChar_cases q) as (c & Ec & Hc). rewrite (pbind_ret _ _ _ _ _ Ec).
  destruct (c =b DQUOTE) eqn:E; cbn [negb].
  - apply beq_true in E as ->. destruct Hc as [?|Hc]; [done|].
    rewrite (pbind_ret (Step 1) _ q tt (step_by 1 q)) by done.
    assert (moves q (step_by 1 q)) as H1 by (apply moves_step; lia).
    eapply post_mono; [apply (move_fuel (λ n, string_loop n [])); intros; apply string_loop_moves; lia|].
    intros [b r] Hr. split; [trans q; [done | by trans (step_by 1 q)]|]. intros _.
    pose proof (ahead_strict q r (moves_ahead _ _ Hr) Hc). apply moves_rest in Hq. lia.
  - eapply post_mono; [apply Atom_post|]. intros [b r] [Hr Ha]. split; [by trans q|].
    intros Hne. specialize (Ha Hne). apply moves_rest in Hq. lia.
Qed.

Lemma MIMEValue_post p :
  post (MIMEValue p) (λ '(a, q), moves p q ∧ (a ≠ [] → (length (rest q) < length (rest p))%nat)).
Proof.
  eapply (pbind_move _ _ p); [auto with parser.. |]. intros ? q Hq.
  destruct (NextChar_cases q) as (c & Ec & Hc). rewrite (pbind_ret _ _ _ _ _ Ec).
  assert (∀ m, post (m q) (λ '(a, r), moves q r ∧ (a ≠ @nil byte → (length (rest r) < length (rest q))%nat)) →
    post (m q) (λ '(a, r), moves p r ∧ (a ≠ [] → (length (rest r) < length (rest p))%nat))) as Hm.
  { intros m H. eapply post_mono; [exact H|]. intros [b r] [Hr Ha]. split; [by trans q|].
    intros Hne. specialize (Ha Hne). apply moves_rest in Hq. lia. }
  case_if; apply Hm; [apply String_post | apply MIMEToken_post].
Qed.

Lemma unquoted_value_moves n p :
  (length (rest p) < n)%nat → post (unquoted_value n p) (λ '(_, q), moves p q).
Proof.
  revert p. induction n as [|n IH]; intros p Hn; [lia|]. cbn [unquoted_value].
  rewrite (pbind_ret AtEnd _ p _ p eq_refl).
  destruct (NextChar_cases p) as (c & Ec & _). rewrite (pbind_ret _ _ _ _ _ Ec).
  case_if; [|apply moves_refl]. eapply pbind_post; [apply DotAtom_post|]. intros a q [Hq Ha].
  eapply (pbind_post _ _ q (λ '(b, r), moves p r ∧ (b = false → (length (rest r) < length (rest p))%nat))).
  - destruct (a ==s []) eqn:E; breflect; [|by split; [|intros _; apply Ha]].
    eapply pbind_post; [apply MIMEValue_post|]. intros v r [Hr Hv]. simpl. split; [by trans q|].
    intros E'. breflect. specialize (Hv E'). apply moves_rest in Hq. lia.
  - intros [] r [Hr Hb]; [done|]. specialize (Hb eq_refl).
    eapply post_mono; [apply IH; lia|]. intros [? ?] ?. by trans r.
Qed.

Lemma move_param_value : move param_value.
Proof.
  apply move_bind; [auto with parser|]. intros c. apply move_if; [auto with parser|].
  apply move_bind; [auto with parser|]. intros start. apply move_bind; [auto with parser|]. intros v p.
  rewrite (pbind_ret fuel _ p _ p eq_refl).
  eapply pbind_post; [apply unquoted_value_moves; rewrite length_rest; lia|]. intros ok q Hq.
  eapply post_moves; [done|]. apply move_if; [|auto with parser].
  apply move_bind; [auto with parser|]. intros stop. apply move_bind; [auto with parser|]. intros s.
  apply move_lift, slice_ends.
Qed.
Hint Resolve move_param_value : parser.

Lemma set_param_ends n part v ps : ends (set_param n part v ps).
Proof.
  assert (∀ p, ends (set_in part v p)) as Hin.
  { intros p. unfold set_in. destruct part as [k|]; [|done]. apply bind_ends; [|done].
    unfold add_part. cbv zeta. by case_if. }
  induction ps as [|p ps IH]; cbn [set_param]; [by apply bind_ends|]. case_if; by apply bind_ends.
Qed.

Lemma parameters_loop_ahead n ct first ps p :
  (length (rest p) < n)%nat → post (parameters_loop n ct first ps p) (λ '(_, q), ahead p q).
Proof.
  revert first ps p. induction n as [|n IH]; intros first ps p Hn; [lia|]. cbn [parameters_loop].
  rewrite (pbind_ret Pos _ _ _ _ eq_refl). pahead p w q1 H1. rewrite (pbind_ret Pos _ _ _ _ eq_refl).
  rewrite (pbind_ret AtEnd _ _ _ _ eq_refl). case_if; [done|].
  pahead p t q2 H2. pahead p co q3 H3. case_if; [done|].
  destruct (param_number (ToLower t)) as [name part]. rewrite (pbind_ret AtEnd _ _ _ _ eq_refl).
  destruct (NextChar_cases q3) as (c & Ec & Hc). rewrite (pbind_ret _ _ _ _ _ Ec).
  case_if; [done|]. cbv zeta. destruct (negb _ && negb _) eqn:Ek; [done|].
  assert (p_at q3 < length (p_str q3))%nat as Hlt.
  { destruct Hc as [->|]; [|done]. destruct (isKnownField name); done. }
  eapply (pbind_post _ _ q3 (λ '(_, r), ahead q3 r)).
  { case_if; [|done]. pahead q3 l r Hr. pahead q3 l' r' Hr'. done. }
  intros name' q4 H4. rewrite (pbind_ret (Step 1) _ q4 tt (step_by 1 q4)) by done.
  assert (ahead (step_by 1 q3) (step_by 1 q4)) as H5.
  { destruct H4 as [Hs Ha]. split; [done|]. change (p_at q3 + 1 ≤ p_at q4 + 1)%nat. lia. }
  pahead (step_by 1 q3) w6 q6 H6. pahead (step_by 1 q3) v q7 H7. pahead (step_by 1 q3) w8 q8 H8.
  eapply (pbind_onward _ _ (step_by 1 q3)); [done | |].
  { apply onward_if; [auto with onward parser | apply onward_lift, set_param_ends]. }
  intros ps' q9 H9. pose proof (ahead_strict q3 q9 H9 Hlt). pose proof (ahead_rest p q3 H3).
  eapply post_mono; [apply IH; lia|]. intros [? r] Hr. trans q3; [done|].
  trans (step_by 1 q3); [exact (onward_step 1 q3) | by trans q9].
Qed.

Lemma onward_parseParameters f : onward (parseParameters f).
Proof.
  unfold parseParameters. case_if; [|auto with onward parser].
  apply (onward_loop (λ n, parameters_loop n (hf_name (mf_hf f) ==s ContentTypeFieldName) true (mf_params f)));
    [intros; by apply parameters_loop_ahead | auto with onward parser].
Qed.
Hint Resolve onward_parseParameters : onward.

(** [p] is where the mark was made. *)
Lemma read_subtype_ahead p q g f :
  moves (marked p) q → post (read_subtype (S (length (p_next p))) g f q) (λ '(_, r), ahead p r).
Proof.
  intros Hq. assert (ahead p q) as Ha by (apply moves_ahead; by apply moves_unmark). unfold read_subtype.
  destruct (NextChar_cases q) as (c & Ec & _). rewrite (pbind_ret _ _ _ _ _ Ec). case_if.
  - pahead p w1 q1 H1. pahead p w2 q2 H2. pahead p w3 q3 H3. pahead p w4 q4 H4. done.
  - case_if; [|done]. unfold restore, modify, mbind, state_bind. rewrite restore_marked by done. done.
Qed.

Lemma skip_colons_ahead n p :
  (length (rest p) < n)%nat → post (skip_colons n p) (λ '(_, q), ahead p q).
Proof.
  revert p. induction n as [|n IH]; intros p Hn; [lia|]. cbn [skip_colons].
  apply Present_ahead; [done | done|]. intros q Hq Hlt. pahead q w r Hr.
  eapply post_mono; [apply IH; apply ahead_rest in Hr; lia|]. intros [? r'] ?. trans q; [done | by trans r].
Qed.

Lemma onward_read_type s f : onward (read_type s f).
Proof.
  apply onward_bind; [auto with onward|]. intros _.
  apply (onward_loop skip_colons); [apply skip_colons_ahead|]. intros _.
  apply onward_bind; [auto with onward parser|]. intros e.
  apply onward_bind; [|intros [f' g]; auto with onward parser].
  apply onward_if; [auto with onward parser|]. intros p. rewrite (pbind_ret mark _ p _ _ (mark_eq p)).
  pmove (marked p) c q1 H1.
  eapply (pbind_move _ _ (marked p)); [done | apply move_if; auto with parser|]. intros [f' g] q2 H2.
  pmove (marked p) e' q3 H3. assert (ahead p q3) as Ha by (apply moves_ahead; by apply moves_unmark).
  case_if; [done|]. eapply pbind_post; [by apply read_subtype_ahead|]. intros [f2 g2] q4 H4.
  pahead p m q5 H5. done.
Qed.

Lemma containsWord_ends s w : w ≠ [] → ends (containsWord s w).
Proof.
  intros Hw. destruct (contains_word_loop_spec s w (S (length s)) 0 Hw) as (r & Hr & _); [lia..|].
  unfold containsWord. rewrite drop_0 in Hr. replace (Index s w) with
    (if 0 <=? Index s w then Index s w + Z.of_nat 0 else Index s w) by (case_if; lia).
  cbv zeta in Hr. by rewrite Hr.
Qed.

Lemma onward_mark : onward mark.
Proof. intros p. rewrite mark_eq. done. Qed.

Lemma find_boundary_ends s : ends (find_boundary s).
Proof.
  unfold find_boundary. apply bind_ends; [apply from_ends | intros t _]. apply run_ends.
  apply onward_bind; [auto with onward|]. intros _. apply onward_bind; [auto with onward|]. intros _.
  apply onward_bind; [auto with onward|]. intros b. apply onward_bind; [destruct b; auto with onward parser|].
  intros _ p. rewrite (pbind_ret mark _ p _ _ (mark_eq p)). pmove (marked p) b' q1 H1. pmove (marked p) v q2 H2.
  case_if; [|apply moves_ahead; by apply moves_unmark].
  unfold restore, modify, mbind at 1, state_bind at 1. rewrite restore_marked by done.
  eapply post_mono; [apply (onward_bind Pos); [auto with onward parser | intros i]|].
  - apply onward_bind; [auto with onward parser | intros s'].
    apply onward_bind; [apply onward_lift | auto with onward parser].
    apply bind_ends; [apply from_ends | intros t' _]. apply bind_ends; [apply section_ends | intros; apply simplify_ends].
  - intros [? r] [Hs Ha]. done.
Qed.

Lemma ContentType_Parse_ends s f : ends (ContentType_Parse s f).
Proof.
  unfold ContentType_Parse. apply bind_ends; [apply run_ends, onward_read_type | intros [[f' g] e] _].
  cbv zeta. apply bind_ends; [|done]. case_if; [|done].
  apply bind_ends; [by apply containsWord_ends | intros w _]. case_if; [|done].
  apply bind_ends; [apply find_boundary_ends | done].
Qed.

Lemma ContentDisposition_Parse_ends s f : ends (ContentDisposition_Parse s f).
Proof.
  unfold ContentDisposition_Parse. apply run_ends. intros p. rewrite (pbind_ret mark _ p _ _ (mark_eq p)).
  pmove (marked p) t q1 H1. cbv zeta. pmove (marked p) w q2 H2. pmove (marked p) c q3 H3.
  eapply (pbind_post _ _ q3 (λ '(_, r), ahead p r)).
  - case_if; [|apply moves_ahead; by apply moves_unmark].
    unfold restore, modify. rewrite restore_marked by done. done.
  - intros [] q4 H4. case_if; [done|]. pahead p f' q5 H5. done.
Qed.

Lemma languages_loop_ahead n l p :
  (length (rest p) < n)%nat → post (languages_loop n l p) (λ '(_, q), ahead p q).
Proof.
  revert l p. induction n as [|n IH]; intros l p Hn; [lia|]. cbn [languages_loop].
  pahead p w q1 H1. pahead p t q2 H2. pahead p w3 q3 H3. apply Present_ahead; [done | done|].
  intros q4 H4 Hlt. eapply post_mono; [apply IH; apply ahead_rest in H3; lia|].
  intros [? r] ?. trans q3; [done | by trans q4].
Qed.

Lemma Field_Parse_ends s f : ends (Field_Parse s f).
Proof.
  destruct f; cbn [Field_Parse]; apply bind_ends; try done.
  - apply HeaderField_Parse_ends.
  - apply AddressField_Parse_ends.
  - unfold DateField_Parse, parseDate. apply bind_ends; [|done]. apply bind_ends; [apply simplify_ends | done].
  - apply ContentType_Parse_ends.
  - unfold ContentTransferEncoding_Parse. apply bind_ends; [|done]. apply run_ends. auto with onward parser.
  - apply ContentDisposition_Parse_ends.
  - unfold ContentLanguage_Parse. apply bind_ends; [|by intros [? ?] _]. apply run_ends.
    apply (onward_loop (λ n, languages_loop n (Languages f)));
      [intros; by apply languages_loop_ahead | auto with onward parser].
Qed.

Lemma NewHeaderField_ends name value : ends (NewHeaderField name value).
Proof.
  unfold NewHeaderField. apply bind_ends; [apply Field_Parse_ends | intros f _]. case_if; [done|].
  apply bind_ends; [|intros v _; apply bind_ends; [apply Field_Parse_ends | done]].
  unfold skip_prefix. by case_match.
Qed.

(** C10: the parser of every field ends on every value: it
    returns a field or panics. *)
Theorem NewHeaderField_total (name value : str) : ends (NewHeaderField name value).
Proof. apply NewHeaderField_ends. Qed.
End Total.

Lemma NewHeaderField_total_witness :
  ends (NewHeaderField (U := ascii_only_case) (CS := plain_charsets) (L := utc_only)
    $"Content-Type" $"text/plain; charset=utf-8").
Proof. apply (NewHeaderField_total (U := ascii_only_case) (CS := plain_charsets) (L := utc_only)). Defined.

(** ** Names and types *)

(** Whatever [m] returns satisfies [Q]. *)
Definition gives {A} (m : outcome A) (Q : A → Prop) : Prop := ∀ a, m = Ret a → Q a.

Lemma gives_ret {A} (a : A) (Q : A → Prop) : Q a → gives (Ret a) Q.
Proof. intros H b [= <-]. done. Qed.

Lemma gives_panic {A} (Q : A → Prop) : gives Panic Q.
Proof. by intros a. Qed.

Lemma gives_bind {A B} (m : outcome A) (f : A → outcome B) R Q :
  gives m R → (∀ a, R a → gives (f a) Q) → gives (m ≫= f) Q.
Proof. intros Hm Hf b (a & E & H)%bind_ret_inv. by apply (Hf a); [apply Hm|]. Qed.

Lemma gives_bind_any {A B} (m : outcome A) (f : A → outcome B) Q :
  (∀ a, gives (f a) Q) → gives (m ≫= f) Q.
Proof. intros Hf. apply (gives_bind _ _ (λ _, True)); auto. by intros. Qed.

(** Steps through a computation whose intermediate results do not matter. *)
Ltac gives := repeat
  match goal with
  | |- gives (Ret _) _ => apply gives_ret
  | |- gives Panic _ => apply gives_panic
  | |- gives (_ ≫= _) _ => apply gives_bind_any; intros
  | |- gives (match ?x with _ => _ end) _ => destruct x
  end.

(** The same for the actions of a parser. *)
Definition pgives {A} (m : parse A) (Q : A → Prop) : Prop := ∀ p a q, m p = Ret (a, q) → Q a.

Lemma pgives_ret {A} (a : A) (Q : A → Prop) : Q a → pgives (mret a) Q.
Proof. by intros H p b q [= <- _]. Qed.

Lemma pgives_bind {A B} (m : parse A) (f : A → parse B) R Q :
  pgives m R → (∀ a, R a → pgives (f a) Q) → pgives (m ≫= f) Q.
Proof.
  intros Hm Hf p b r. unfold mbind, state_bind. destruct (m p) as [[a q]| |] eqn:E; [|done..].
  intros H. by apply (Hf a (Hm _ _ _ E) _ _ _ H).
Qed.

Lemma pgives_bind_any {A B} (m : parse A) (f : A → parse B) Q :
  (∀ a, pgives (f a) Q) → pgives (m ≫= f) Q.
Proof. intros Hf. apply (pgives_bind _ _ (λ _, True)); auto. by intros. Qed.

Ltac pgives := repeat
  match goal with
  | |- pgives (mret _) _ => apply pgives_ret
  | |- pgives (_ ≫= _) _ => apply pgives_bind_any; intros
  | |- pgives (match ?x with _ => _ end) _ => destruct x
  end.

Lemma gives_run {A} (m : parse A) s Q : pgives m Q → gives (run m s) Q.
Proof.
  intros H a. unfold run. destruct (m (newParser s)) as [[b q]| |] eqn:E; [|done..]. simpl.
  intros [= <-]. by eapply H.
Qed.

(** The Go type of a field is decided by its name. *)
Definition typed (f : Field) : Prop :=
  let n := field_name f in
  match f with
  | FAddress _ => among address_like n = true
  | FDate _ => n = DateFieldName
  | FContentType _ => n = ContentTypeFieldName
  | FEncoding _ => n = ContentTransferEncodingFieldName
  | FDisposition _ => n = ContentDispositionFieldName
  | FLanguage _ => n = ContentLanguageFieldName
  | FHeader _ => among (address_like ++ [DateFieldName; OrigDateFieldName; ResentDateFieldName;
      ContentTypeFieldName; ContentTransferEncodingFieldName; ContentDispositionFieldName;
      ContentLanguageFieldName]) n = false
  end.

(** The constructor of a field. *)
Definition kind (f : Field) : nat :=
  match f with
  | FHeader _ => 0 | FAddress _ => 1 | FDate _ => 2 | FContentType _ => 3 | FEncoding _ => 4
  | FDisposition _ => 5 | FLanguage _ => 6
  end.

Section Names.
Context {U : UnicodeCase} {CS : Charset} {L : Local}.

Lemma parseContentLocation_name s f : gives (parseContentLocation s f) (λ g, hf_name g = hf_name f).
Proof. unfold parseContentLocation. gives; repeat case_if; done. Qed.

Lemma parseText_name s f : gives (parseText s f) (λ g, hf_name g = hf_name f).
Proof.
  unfold parseText. apply gives_bind_any. intros [t e]. 
  apply (gives_bind _ _ (λ '(g, _), hf_name g = hf_name f)); [gives; repeat case_if; done|]. intros [g h] Hg.
  apply (gives_bind _ _ (λ '(g, _), hf_name g = hf_name f)); [gives; repeat case_if; done|].
  intros [g' h'] Hg'. gives. by case_if.
Qed.

Lemma HeaderField_Parse_name s f : gives (HeaderField_Parse s f) (λ g, hf_name g = hf_name f).
Proof.
  unfold HeaderField_Parse. repeat case_if; try (gives; done).
  - apply parseText_name.
  - unfold parseMIMEVersion. gives. done.
  - apply parseContentLocation_name.
  - apply gives_ret. unfold parseOther. destruct (decode _ _). by case_if.
  - unfold parseContentBase. eapply gives_bind; [apply parseContentLocation_name|]. intros g Hg.
    gives. by repeat case_if.
  - unfold parseErrorsTo. gives; done.
  - apply gives_ret. unfold parseOther. destruct (decode _ _). by case_if.
Qed.

Lemma AddressField_Parse_name s f : gives (AddressField_Parse s f) (λ g, hf_name (af_hf g) = hf_name (af_hf f)).
Proof.
  unfold AddressField_Parse. cbv zeta.
  apply (gives_bind _ _ (λ g, hf_name (af_hf g) = hf_name (af_hf f))).
  - assert (∀ g, gives (parseAddressList s g) (λ h, hf_name (af_hf h) = hf_name (af_hf g))) as HL
      by (intros; unfold parseAddressList; gives; done).
    assert (∀ g, gives (parseMailbox s g) (λ h, hf_name (af_hf h) = hf_name (af_hf g))) as HM.
    { intros. unfold parseMailbox. eapply gives_bind; [apply HL|]. intros h Hh. gives. by case_if. }
    repeat case_if; try (gives; done).
    + eapply gives_bind; [apply HM|]. intros h Hh. gives. by case_if.
    + eapply gives_bind; [apply HM|]. intros h Hh. gives. by case_if.
    + unfold parseMailboxList. eapply gives_bind; [apply HL|]. intros h Hh. gives; [|done]. by case_match.
    + eapply gives_bind; [apply HL|]. intros h Hh.
      apply (gives_bind _ _ (λ g, hf_name (af_hf g) = hf_name (af_hf f))).
      * unfold repair_single, repair_control. gives; repeat case_if; done.
      * intros g Hg. gives. unfold repair_bounces. cbv zeta. repeat case_if; done.
    + unfold parseContentID. gives. repeat case_match; done.
    + unfold parseMessageID. gives. repeat case_match; done.
    + unfold parseReferences. gives. done.
  - intros g Hg. gives. unfold outlawBounce. repeat case_if; done.
Qed.

Lemma parseParameters_hf f : pgives (parseParameters f) (λ g, mf_hf g = mf_hf f ∧ mf_base g = mf_base f).
Proof. unfold parseParameters. pgives; done. Qed.

Abbreviation ct_name f := (hf_name (mf_hf (ct_mf f))).

Lemma read_type_name s f : pgives (read_type s f) (λ '(g, _, _), ct_name g = ct_name f).
Proof.
  unfold read_type. do 3 (apply pgives_bind_any; intros ?). apply pgives_bind_any. intros e.
  apply (pgives_bind _ _ (λ '(g, _), ct_name g = ct_name f)); [|intros [g b] Hg; pgives; done].
  case_if; [by pgives|]. apply pgives_bind_any; intros x. apply pgives_bind_any; intros c.
  apply (pgives_bind _ _ (λ '(g, _), ct_name g = ct_name f)); [pgives; done|]. intros [g b] Hg.
  apply pgives_bind_any; intros e'. case_if; [pgives; unfold rfc1049; repeat case_if; done|].
  apply (pgives_bind _ _ (λ '(g, _), ct_name g = ct_name f)).
  - unfold read_subtype. apply pgives_bind_any. intros c'. case_if; [|case_if; pgives; done].
    do 3 (apply pgives_bind_any; intros ?). apply (pgives_bind _ _ (λ g, ct_name g = ct_name f)); [pgives; done|].
    intros h Hh. by pgives.
  - intros [h b'] Hh. eapply pgives_bind; [apply parseParameters_hf|]. intros m [Hm _]. pgives.
    simpl. by rewrite Hm.
Qed.

Lemma ContentType_Parse_name s f : gives (ContentType_Parse s f) (λ g, ct_name g = ct_name f).
Proof.
  unfold ContentType_Parse. eapply gives_bind; [apply gives_run, read_type_name|]. intros [[g b] e] Hg. cbv zeta.
  apply (gives_bind _ _ (λ g, ct_name g = ct_name f)).
  - assert (ct_name (if b then guess_type g else g) = ct_name f) as H1.
    { destruct b; [|done]. unfold guess_type. cbv zeta. repeat case_if; done. }
    set (g1 := if b then guess_type g else g) in *. clearbody g1.
    gives; repeat case_if; done.
  - intros h Hh. gives. case_if; done.
Qed.

Lemma Field_Parse_kind s f : gives (Field_Parse s f) (λ g, field_name g = field_name f ∧ kind g = kind f).
Proof.
  destruct f; cbn [Field_Parse].
  - eapply gives_bind; [apply HeaderField_Parse_name|]. intros g Hg. by gives.
  - eapply gives_bind; [apply AddressField_Parse_name|]. intros g Hg. by gives.
  - apply (gives_bind _ _ (λ g, hf_name (df_hf g) = hf_name (df_hf f))); [|intros g Hg; by gives].
    unfold DateField_Parse. gives. case_match; done.
  - eapply gives_bind; [apply ContentType_Parse_name|]. intros g Hg. by gives.
  - apply (gives_bind _ _ (λ g, hf_name (mf_hf (cte_mf g)) = hf_name (mf_hf (cte_mf f)))); [|intros g Hg; by gives].
    unfold ContentTransferEncoding_Parse. gives. repeat case_if; done.
  - apply (gives_bind _ _ (λ g, hf_name (mf_hf (cd_mf g)) = hf_name (mf_hf (cd_mf f)))); [|intros g Hg; by gives].
    unfold ContentDisposition_Parse. apply gives_run. do 5 (apply pgives_bind_any; intros ?).
    case_if; [by pgives|]. eapply pgives_bind; [apply parseParameters_hf|]. intros m [Hm _]. pgives. simpl. by rewrite Hm.
  - apply (gives_bind _ _ (λ g, hf_name (mf_hf (cl_mf g)) = hf_name (mf_hf (cl_mf f)))); [|intros g Hg; by gives].
    unfold ContentLanguage_Parse. gives. simpl. case_if; done.
Qed.

Lemma typed_kind f g : field_name g = field_name f → kind g = kind f → typed f → typed g.
Proof. unfold typed. intros Hn. rewrite Hn. by destruct f, g. Qed.

Lemma among_app a b n : among (a ++ b) n = among a n || among b n.
Proof. apply existsb_app. Qed.

Lemma NewHeaderFieldNamed_typed name :
  typed (NewHeaderFieldNamed name)
  ∧ field_name (NewHeaderFieldNamed name)
    = if among [DateFieldName; OrigDateFieldName; ResentDateFieldName] (headerCase name)
      then DateFieldName else headerCase name.
Proof.
  unfold NewHeaderFieldNamed, typed. cbv zeta. set (n := headerCase name). clearbody n. clear name.
  destruct (among address_like n) eqn:E1.
  { split; [done|]. destruct (among [_; _; _] n) eqn:E2; [|done]. exfalso. revert E1.
    unfold among in E2. simpl in E2. rewrite orb_false_r in E2.
    destruct (n ==s DateFieldName) eqn:H1; breflect; [by subst|].
    destruct (n ==s OrigDateFieldName) eqn:H2; breflect; [by subst|].
    destruct (n ==s ResentDateFieldName) eqn:H3; breflect; by subst. }
  destruct (among [DateFieldName; OrigDateFieldName; ResentDateFieldName] n) eqn:E2; [done|].
  destruct (n ==s ContentTypeFieldName) eqn:E3; [breflect; by subst|].
  destruct (n ==s ContentTransferEncodingFieldName) eqn:E4; [breflect; by subst|].
  destruct (n ==s ContentDispositionFieldName) eqn:E5; [breflect; by subst|].
  destruct (n ==s ContentLanguageFieldName) eqn:E6; [breflect; by subst|].
  split; [|done]. change (field_name (FHeader (hf_named n))) with n.
  rewrite among_app, E1. unfold among in *. simpl in *. rewrite orb_false_r in E2.
  apply orb_false_iff in E2 as [-> [-> ->]%orb_false_iff]. by rewrite E3, E4, E5, E6.
Qed.

Lemma NewHeaderField_kind name value :
  gives (NewHeaderField name value) (λ f, typed f ∧ field_name f =
    if among [DateFieldName; OrigDateFieldName; ResentDateFieldName] (headerCase name)
    then DateFieldName else headerCase name).
Proof.
  destruct (NewHeaderFieldNamed_typed name) as [Ht Hn]. rewrite <- Hn. unfold NewHeaderField.
  eapply gives_bind; [apply Field_Parse_kind|]. intros f [Hf Hk].
  assert (typed f) by (by eapply typed_kind). case_if; [by gives|].
  apply gives_bind_any. intros v. eapply gives_bind; [apply Field_Parse_kind|]. intros g [Hg Hgk].
  assert (typed g) by (by eapply typed_kind). gives. case_if; [done|].
  assert (field_name (with_hf (SetUnparsedValue value (field_hf f)) f) = field_name f) as E by by destruct f.
  split; [|by rewrite E]. apply (typed_kind f); [done | by destruct f | done].
Qed.

(** C18: a field made from a name and a value has the Go type
    its name calls for, so that the type assertions on fields looked up by name
    succeed.  Its name is the canonical spelling of the given one, except that
    Orig-Date and Resent-Date come out as Date. *)
Theorem NewHeaderField_typed (name value : str) (f : Field) (Hf : NewHeaderField name value = Ret f) :
  typed f
  ∧ field_name f = if among [DateFieldName; OrigDateFieldName; ResentDateFieldName] (headerCase name)
                   then DateFieldName else headerCase name.
Proof. by apply (NewHeaderField_kind name value). Qed.
End Names.

Lemma NewHeaderField_typed_witness :
  ∃ f, NewHeaderField (U := ascii_only_case) (CS := plain_charsets) (L := utc_only)
         $"resent-date" $"Fri, 21 Nov 1997 09:55:06 -0600" = Ret f
    ∧ typed f ∧ field_name f = DateFieldName.
Proof.
  eexists. split; [vm_compute; reflexivity|].
  refine (@NewHeaderField_typed ascii_only_case plain_charsets utc_only
    $"resent-date" $"Fri, 21 Nov 1997 09:55:06 -0600" _ _). vm_compute. reflexivity.
Defined.
