(* ===== verification/MIMEFacts.v ===== *)
(** * MIME fields: printing and parsing parameters and Content-Type

    The laws of the parameter list, and that Content-Type fields are parsed back
    from their printed form. *)

From S2P Require Import Prelude GoStrings GoTime Strings StringsFacts Codec Words.
From S2P Require Import Parser ParserFacts Fields FieldsFacts.
From Stdlib Require Import Sorting.Permutation.
Open Scope Z_scope.

(** ** Tokens *)

(** A token in lower case: what [MIMEToken] and [ToLower] leave as it is. *)
Definition lower_token (w : str) : Prop :=
  w ≠ [] ∧ Forall (λ c, token_char c = true ∧ is_upper c = false) w.

Definition stops (ok : byte → bool) (u : str) : Prop :=
  match u with c :: _ => ok c = false | [] => True end.

Lemma token_char_ascii c : token_char c = true → (bz c <? 128) = true.
Proof. unfold token_char. rewrite !andb_true_iff. tauto. Qed.

Lemma token_char_starts c : token_char c = true → starts_token c.
Proof. destruct c; vm_compute; first [discriminate | by repeat split]. Qed.

Lemma lower_token_chars w : lower_token w → Forall (λ c, token_char c = true) w.
Proof. intros [_ H]. eapply Forall_impl; [exact H|]. by intros c [? _]. Qed.

Lemma lower_token_ToLower `{UnicodeCase} w : lower_token w → ToLower w = w.
Proof.
  intros [_ Hw]. rewrite ToLower_ascii.
  - induction Hw as [|c w [_ Hc] _ IH]; [done|]. simpl. unfold lower_byte at 1. by rewrite Hc, IH.
  - apply forallb_forall. intros c Hc%list_elem_of_In. rewrite Forall_forall in Hw.
    by apply token_char_ascii, Hw.
Qed.

Lemma token_next_token w u :
  w ≠ [] → Forall (λ c, token_char c = true) w → token_next (w ++ u).
Proof. intros Hw H. destruct H as [|c w Hc _]; [done|]. by apply token_char_starts. Qed.

Lemma AtEnd_nil p : rest p = [] → AtEnd p = Ret (true, p).
Proof.
  unfold rest. intros E%(f_equal length). rewrite length_drop in E. simpl in E.
  unfold AtEnd, gets. by destruct (Nat.leb_spec (length (p_str p)) (p_at p)); [|lia].
Qed.

(** ** Reading tokens and values *)

Section Reading.
Context {U : UnicodeCase} {CS : Charset} {L : Local}.

Lemma MIMEToken_reads p w u :
  rest p = w ++ u → w ≠ [] → Forall (λ c, token_char c = true) w → stops token_char u →
  MIMEToken p = Ret (w, step_by (length w) p).
Proof.
  intros E Hn Hw Hu. unfold MIMEToken. rewrite (pbind_ret Comment _ p [] p).
  - by apply (scan_app _ p w u E).
  - apply Comment_none. rewrite E. by apply token_next_token.
Qed.

(** What may follow a parameter: the end, or the next parameter. *)
Definition after_value (u : str) : Prop := match u with c :: _ => c = ";"%byte | [] => True end.

Lemma after_value_stops u : after_value u → stops token_char u ∧ token_next u.
Proof. destruct u as [|c u]; [done|]. intros ->. by repeat split. Qed.

Lemma unquoted_value_stop n p : after_value (rest p) → unquoted_value n p = Ret (true, p).
Proof.
  intros H. destruct (rest p) as [|c u] eqn:E; destruct n; cbn [unquoted_value].
  1, 2: rewrite (pbind_ret _ _ _ _ _ (AtEnd_nil p E)); done.
  all: simpl in H; subst c; rewrite (pbind_ret _ _ _ _ _ (AtEnd_rest _ _ _ E));
    rewrite (pbind_ret _ _ _ _ _ (NextChar_rest _ _ _ E)); done.
Qed.

Lemma token_char_not_quote c : token_char c = true → (c =b DQUOTE) = false.
Proof. revert c. byte_enum. Qed.

Lemma param_value_reads p v u :
  rest p = v ++ u → v ≠ [] → Forall (λ c, token_char c = true) v → after_value u →
  param_value p = Ret (v, step_by (length v) p).
Proof.
  intros E Hn Hv Hu. unfold param_value.
  assert (∃ c t, rest p = c :: t ∧ (c =b DQUOTE) = false) as (c & t & Ec & Hc).
  { rewrite E. destruct Hv as [|c v Hc _]; [done|]. exists c, (v ++ u). split; [done|].
    by apply token_char_not_quote. }
  rewrite (pbind_ret _ _ _ _ _ (NextChar_rest _ _ _ Ec)), Hc, (pbind_ret Pos _ _ _ _ eq_refl).
  assert (MIMEValue p = Ret (v, step_by (length v) p)) as HM.
  { unfold MIMEValue. rewrite (pbind_ret Comment _ p [] p).
    2:{ apply Comment_none. rewrite E. by apply token_next_token. }
    rewrite (pbind_ret _ _ _ _ _ (NextChar_rest _ _ _ Ec)), Hc.
    by apply (MIMEToken_reads p v u); [..|apply after_value_stops]. }
  rewrite (pbind_ret _ _ _ _ _ HM), (pbind_ret fuel _ _ _ _ eq_refl).
  set (q := step_by (length v) p). set (n := S (length (p_str q))).
  assert (rest q = u) as Eq by by apply rest_step_app.
  rewrite (pbind_ret (unquoted_value n) _ q true q) by (apply unquoted_value_stop; by rewrite Eq).
  rewrite (pbind_ret Pos _ _ _ _ eq_refl), (pbind_ret (gets p_str) _ _ _ _ eq_refl).
  change (p_str q) with (p_str p). change (p_at q) with (p_at p + length v)%nat.
  by rewrite (slice_rest p v u).
Qed.

(** ** Parameters *)

(** A parameter that prints without quotes, as a parsed one that is not split
    over several: a name in lower case, and a value of boring characters. *)
Definition plain_param (m : MIMEParameter) : Prop :=
  lower_token (mp_name m) ∧ ("*"%byte ∉ mp_name m)
  ∧ isBoring (mp_value m) MIMEBoring = true ∧ mp_parts m = [].

Lemma boring_token v :
  isBoring v MIMEBoring = true → v ≠ [] ∧ Forall (λ c, token_char c = true) v.
Proof.
  unfold isBoring. destruct v as [|c v]; [done|]. intros H. split; [done|].
  change (forallb (boring_char MIMEBoring) (c :: v) = true) in H. rewrite forallb_forall in H.
  apply Forall_forall. intros d Hd%list_elem_of_In%H. revert Hd. clear. revert d. byte_enum.
Qed.

Lemma param_number_plain n : "*"%byte ∉ n → param_number n = (n, None).
Proof.
  intros H. unfold param_number. replace (Contains n $"*") with false; [done|].
  unfold Contains. pose proof (Index_byte_absent n "*"%byte H : Index n $"*" < 0). lia.
Qed.

Lemma set_param_new n v ps :
  n ∉ map mp_name ps → set_param n None v ps = Ret (ps ++ [NewMIMEParameter n v]).
Proof.
  induction ps as [|m ps IH]; [done|]. cbn [map set_param]. intros [Hm H]%not_elem_of_cons.
  destruct (mp_name m ==s n) eqn:E; breflect; [congruence|]. by rewrite IH.
Qed.

(** The separators [rfc822] writes, and a list of parameters each after one. *)
Definition separator (w : str) : Prop := w = $"; " ∨ w = $";" ++ crlf ++ $" ".

Definition printed (l : list (str * MIMEParameter)) : str :=
  concat (map (λ '(w, m), w ++ param_word m) l).

Lemma printed_after l : Forall (λ x, separator x.1) l → after_value (printed l).
Proof. intros H. destruct H as [|[w m] l Hw _]; [done|]. simpl in Hw. by destruct Hw as [-> | ->]. Qed.

Lemma skip_separator p w t c u :
  separator w → rest p = w ++ t → t = c :: u → token_char c = true →
  scan skip_param p = Ret (w, step_by (length w) p).
Proof.
  intros Hw E -> Hc. apply (scan_app _ p w (c :: u)); [done | |].
  - by destruct Hw as [-> | ->]; repeat constructor.
  - revert Hc. clear. revert c. byte_enum.
Qed.

(** One round of the loop reads one parameter. *)
Lemma parameters_loop_round n ct first acc w m u p :
  rest p = w ++ param_word m ++ u → separator w → plain_param m → after_value u →
  mp_name m ∉ map mp_name acc →
  ∃ q, parameters_loop (S n) ct first acc p = parameters_loop n ct false (acc ++ [m]) q ∧ rest q = u.
Proof.
  intros E Hw (Ht & Hstar & Hv & Hparts) Hu Hd. unfold param_word in E. rewrite Hv, <- !app_assoc in E.
  destruct m as [nm v parts]. cbn [mp_name mp_value mp_parts] in *. subst parts.
  destruct (boring_token _ Hv) as [Hvn Hvt]. pose proof (lower_token_chars _ Ht) as Hnt.
  assert (∃ c t, nm ++ $"=" ++ v ++ u = c :: t ∧ token_char c = true) as (c & t & Ec & Hc).
  { destruct Hnt as [|c t Hc _]; [by destruct Ht|]. by exists c, (t ++ $"=" ++ v ++ u). }
  cbn [parameters_loop]. rewrite (pbind_ret Pos _ _ _ _ eq_refl).
  rewrite (pbind_ret (scan skip_param) _ p w (step_by (length w) p)) by by eapply skip_separator.
  apply rest_step_app in E. set (p1 := step_by (length w) p) in *. pose proof E as E'. rewrite Ec in E'.
  rewrite (pbind_ret Pos _ _ _ _ eq_refl), (pbind_ret _ _ _ _ _ (AtEnd_rest _ _ _ E')).
  replace (Nat.ltb (p_at p) (p_at p1)) with true.
  2:{ symmetry. apply Nat.ltb_lt. change (p_at p1) with (p_at p + length w)%nat.
      destruct Hw as [-> | ->]; simpl; lia. }
  cbn [orb negb].
  rewrite (pbind_ret MIMEToken _ p1 _ _ (MIMEToken_reads p1 nm _ E ltac:(apply Ht) Hnt eq_refl)).
  apply (rest_step_app p1 nm) in E. set (p2 := step_by (length nm) p1) in *.
  rewrite (pbind_ret Comment _ p2 [] p2) by (apply Comment_none; rewrite E; by repeat constructor).
  change (rest p2 = "="%byte :: v ++ u) in E.
  rewrite (lower_token_ToLower _ Ht). assert ((nm ==s []) = false) as Hn by by destruct nm; [destruct Ht|].
  rewrite Hn, param_number_plain by done.
  rewrite (pbind_ret _ _ _ _ _ (AtEnd_rest _ _ _ E)), (pbind_ret _ _ _ _ _ (NextChar_rest _ _ _ E)).
  rewrite andb_false_r. cbn [andb].
  replace ("=" =b ":")%byte with false by done. replace ("=" =b "=")%byte with true by done. cbn [andb negb].
  rewrite (pbind_ret (mret nm) _ p2 nm p2 eq_refl), (pbind_ret (Step 1) _ p2 tt (step_by 1 p2) eq_refl).
  apply (rest_step_app p2 $"=") in E. change (length $"=") with 1%nat in E. set (p3 := step_by 1 p2) in *.
  rewrite (pbind_ret Whitespace _ p3 [] p3) by (apply Whitespace_none; rewrite E; by apply token_next_token).
  rewrite (pbind_ret _ _ _ _ _ (param_value_reads p3 v u E Hvn Hvt Hu)).
  apply rest_step_app in E. set (p4 := step_by (length v) p3) in *.
  rewrite (pbind_ret Comment _ p4 [] p4) by (apply Comment_none; rewrite E; by apply after_value_stops).
  rewrite Hn, set_param_new by done. by exists p4.
Qed.

Lemma parameters_loop_reads n ct first acc l p :
  rest p = printed l → Forall (λ x, separator x.1 ∧ plain_param x.2) l →
  NoDup (map mp_name (acc ++ map snd l)) → (length l < n)%nat →
  ∃ q, parameters_loop n ct first acc p = Ret (acc ++ map snd l, q) ∧ rest q = [].
Proof.
  revert n first acc p. induction l as [|[w m] l IH]; intros n first acc p E Hl Hd Hn;
    (destruct n as [|n]; [simpl in Hn; lia|]).
  { cbn [parameters_loop]. rewrite (pbind_ret Pos _ _ _ _ eq_refl).
    rewrite (pbind_ret (scan skip_param) _ p [] p) by (by rewrite scan_eq, E, step_by_0).
    rewrite (pbind_ret Pos _ _ _ _ eq_refl), (pbind_ret _ _ _ _ _ (AtEnd_nil p E)), orb_true_r.
    exists p. by rewrite app_nil_r. }
  apply Forall_cons in Hl as [[Hw Hm] Hl]. cbn [printed map concat] in E. fold (printed l) in E.
  rewrite <- app_assoc in E. cbn [map snd] in Hd |- *. rewrite cons_middle, app_assoc in Hd |- *.
  destruct (parameters_loop_round n ct first acc w m _ p E Hw Hm) as (q & -> & Eq).
  - apply printed_after. eapply Forall_impl; [exact Hl|]. by intros x [? _].
  - rewrite !map_app in Hd. apply NoDup_app in Hd as [[_ [Hd _]]%NoDup_app _].
    intros Hin. apply (Hd _ Hin). by left.
  - apply IH; [done | done | done | simpl in Hn; lia].
Qed.

(** ** Printing *)

(** [rfc822] writes every word once, each after a separator. *)
Lemma mime_lines_words ll words s :
  ∃ l, mime_lines (length words) ll words s = s ++ concat (map (λ '(w, v), w ++ v) l)
    ∧ Forall (λ x : str * str, separator x.1) l ∧ Permutation (map snd l) words.
Proof.
  remember (length words) as n eqn:En. revert ll words s En.
  induction n as [|n IH]; intros ll words s En; [exists []; destruct words; [|done]; by rewrite app_nil_r|].
  cbn [mime_lines]. set (i := fitting ll words).
  set (step := if Nat.ltb i (length words) then _ else _).
  assert (∃ j sep ll', step = (j, sep, ll') ∧ (j < length words)%nat ∧ separator sep)
    as (j & sep & ll' & -> & Hj & Hsep).
  { unfold step. destruct (Nat.ltb_spec i (length words)); do 3 eexists.
    - split; [done|]. split; [done | by left].
    - split; [done|]. split; [lia | by right]. }
  destruct (lookup_lt_is_Some_2 words j Hj) as [w Hw]. rewrite Hw.
  destruct (IH (ll' + len w) (take j words ++ drop (S j) words) (s ++ sep ++ w)) as (l & -> & Hl & Hp).
  { rewrite length_app, length_take, length_drop. lia. }
  exists ((sep, w) :: l). split; [simpl; by rewrite <- !app_assoc|]. split; [by constructor|]. simpl. rewrite Hp.
  rewrite <- (take_drop_middle words j w Hw) at 3. by rewrite Permutation_middle.
Qed.

Lemma MIMEField_rfc822_printed f :
  ∃ l, MIMEField_rfc822 f = mf_base f ++ printed l
    ∧ Forall (λ x, separator x.1) l ∧ Permutation (map snd l) (mf_params f).
Proof.
  unfold MIMEField_rfc822. cbv zeta.
  destruct (mime_lines_words (len (hf_name (mf_hf f)) + 2 + len (mf_base f)) (map param_word (mf_params f))
    (mf_base f)) as (l & -> & Hl & (ps & Hps & Hp)%Permutation_map_inv).
  exists (zip (map fst l) ps). assert (length l = length ps) as Hlen.
  { apply (f_equal length) in Hps. by rewrite !length_map in Hps. }
  split; [|split].
  - f_equal. unfold printed. f_equal. clear Hp Hl. revert ps Hps Hlen.
    induction l as [|[w v] l IH]; intros [|m ps] Hps Hlen; try done.
    simpl in *. injection Hps as -> Hps. f_equal. apply IH; [done | lia].
  - clear Hp Hps. revert ps Hlen.
    induction Hl as [|[w v] l Hw _ IH]; intros [|m ps] Hlen; try done. constructor; [done|]. apply IH. simpl in Hlen. lia.
  - change (Permutation (zip (map fst l) ps).*2 (mf_params f)). by rewrite snd_zip by (rewrite length_map; lia).
Qed.

(** ** Content-Type *)

(** With unique names, the order of the parameters does not matter. *)
Lemma parameter_perm n ps ps' :
  Permutation ps ps' → NoDup (map mp_name ps) → parameter n ps = parameter n ps'.
Proof.
  unfold parameter. set (s := ToLower n). clearbody s. intros H.
  induction H as [|m ps ps' H IH|m m' ps|ps ps' ps'' H1 IH1 H2 IH2]; intros Hd; [done|..].
  - apply NoDup_cons in Hd as [_ Hd]. simpl. case_if; [done | by apply IH].
  - simpl. destruct (mp_name m' ==s s) eqn:E1; [|done]. destruct (mp_name m ==s s) eqn:E2; [|done].
    breflect. apply NoDup_cons in Hd as [Hd _]. exfalso. apply Hd. subst. rewrite E2. left.
  - rewrite IH1 by done. apply IH2. by rewrite <- H1.
Qed.

Definition content_type (t st : str) (ps : list MIMEParameter) : ContentType :=
  {| ct_mf := {| mf_hf := hf_named ContentTypeFieldName; mf_base := t ++ $"/" ++ st; mf_params := ps |};
     ct_type := t; ct_subtype := st |}.

Lemma skip_colons_none n p c u :
  rest p = c :: u → token_char c = true → skip_colons n p = Ret (tt, p).
Proof.
  intros E Hc. assert (Present $":" p = Ret (false, p)) as HP.
  { rewrite (Present_ascii $":" p [c] u) by (try done; simpl; by rewrite token_char_ascii).
    destruct (_ ==s _) eqn:Ee; [|done]. apply str_eqb_true in Ee. exfalso. revert Ee Hc. clear. by destruct c. }
  destruct n; cbn [skip_colons]; by rewrite (pbind_ret _ _ _ _ _ HP).
Qed.

Lemma read_subtype_reads x st u t p :
  rest p = $"/" ++ st ++ u → lower_token st → after_value u →
  ∃ q, read_subtype x false (set_type t [] NewContentType) p
       = Ret (set_type t st NewContentType, false, q) ∧ rest q = u ∧ p_str q = p_str p.
Proof.
  intros E Hst Hu. change (rest p = "/"%byte :: st ++ u) in E. unfold read_subtype.
  rewrite (pbind_ret _ _ _ _ _ (NextChar_rest _ _ _ E)). replace ("/" =b "/")%byte with true by done.
  rewrite (pbind_ret (Step 1) _ p tt (step_by 1 p) eq_refl).
  apply (rest_step_app p $"/") in E. change (length $"/") with 1%nat in E. set (q := step_by 1 p) in *.
  pose proof (lower_token_chars _ Hst) as Hc. destruct st as [|c st]; [by destruct Hst|].
  rewrite (pbind_ret _ _ _ _ _ (AtEnd_rest _ _ _ E)), (pbind_ret _ _ _ _ _ (NextChar_rest _ _ _ E)).
  cbn [negb orb]. erewrite pbind_ret.
  2:{ erewrite pbind_ret by (eapply (MIMEToken_reads q (c :: st)); [exact E | done | done | by apply after_value_stops]).
      reflexivity. }
  rewrite lower_token_ToLower by done. eexists. split; [reflexivity|]. split; [by apply rest_step_app | done].
Qed.

Lemma printed_length l : Forall (λ x, separator x.1) l → (length l ≤ length (printed l))%nat.
Proof.
  induction 1 as [|[w m] l Hw _ IH]; [done|]. cbn [printed map concat]. fold (printed l).
  rewrite !length_app. simpl in Hw. destruct Hw as [-> | ->]; simpl; lia.
Qed.

Lemma read_type_printed t st l :
  lower_token t → lower_token st → Forall (λ x, separator x.1 ∧ plain_param x.2) l →
  NoDup (map mp_name (map snd l)) →
  let s := t ++ $"/" ++ st ++ printed l in
  run (read_type s NewContentType) s
  = Ret (set_mf {| mf_hf := hf_named ContentTypeFieldName; mf_base := []; mf_params := map snd l |}
           (set_type t st NewContentType), false, true).
Proof.
  intros Ht Hst Hl Hd s. unfold run, read_type. set (p := newParser s).
  assert (rest p = s) as E by by apply drop_0. pose proof (lower_token_chars _ Ht) as Htc.
  rewrite (pbind_ret Whitespace _ p [] p)
    by (apply Whitespace_none; rewrite E; apply token_next_token; [apply Ht | done]).
  rewrite (pbind_ret fuel _ _ _ _ eq_refl).
  assert (∃ c u, s = c :: u ∧ token_char c = true) as (c & u & Ec & Hc).
  { unfold s. destruct Htc as [|c t' Hc _]; [by destruct Ht|]. by eexists c, _. }
  pose proof E as E'. rewrite Ec in E'.
  rewrite (pbind_ret _ _ _ _ _ (skip_colons_none _ _ _ _ E' Hc)), (pbind_ret _ _ _ _ _ (AtEnd_rest _ _ _ E')).
  match goal with |- (?m ≫= _) p ≫= _ = Ret (?f, _, _) =>
    assert (∃ q, m p = Ret (f, false, q) ∧ rest q = []) as (q & Hq & Eq) end.
  2:{ rewrite (pbind_ret _ _ _ _ _ Hq), (pbind_ret _ _ _ _ _ (AtEnd_nil q Eq)). done. }
  rewrite (pbind_ret _ _ _ _ _ (mark_eq p)). set (p1 := marked p).
  change (rest p1 = c :: u) in E'. change (rest p1 = s) in E.
  rewrite (pbind_ret _ _ _ _ _ (NextChar_rest _ _ _ E')).
  replace (c =b "/")%byte with false by (revert Hc; clear; by destruct c).
  erewrite pbind_ret by (erewrite pbind_ret by exact (MIMEToken_reads p1 t _ E (proj1 Ht) Htc eq_refl); reflexivity).
  cbv beta iota. apply (rest_step_app p1 t) in E. rewrite (pbind_ret _ _ _ _ _ (AtEnd_rest _ _ _ E)).
  rewrite lower_token_ToLower by done.
  destruct (read_subtype_reads (S (length (p_next p))) st (printed l) t _ E Hst) as (p2 & HS & E2 & Es).
  { apply printed_after. eapply Forall_impl; [exact Hl|]. by intros x [? _]. }
  rewrite (pbind_ret _ _ _ _ _ HS). cbv beta iota.
  destruct (parameters_loop_reads (S (length (p_str p2))) true true [] l p2 E2 Hl Hd) as (q & Hq & Eq).
  { rewrite Es. assert (length l ≤ length (printed l))%nat.
    { apply printed_length. eapply Forall_impl; [exact Hl|]. by intros x [? _]. }
    change (p_str (step_by (length t) p1)) with s. unfold s. rewrite !length_app. simpl. lia. }
  exists q. split; [|done]. erewrite pbind_ret; [reflexivity|].
  unfold parseParameters. cbn [set_type ct_mf NewContentType mf_named mf_hf hf_valid hf_named hf_err]. rewrite (pbind_ret fuel _ _ _ _ eq_refl).
  by rewrite (pbind_ret _ _ _ _ _ Hq).
Qed.

(** What [Parse] does with a well-formed value. *)
Lemma ContentType_Parse_plain s f0 f :
  run (read_type s f0) s = Ret (f, false, true) → ct_valid f = true →
  (ct_type f ==s []) = false → (ct_subtype f ==s []) = false →
  ((ct_type f ==s $"multipart") && (ct_parameter $"boundary" f ==s [])) = false →
  ContentType_Parse s f0 = Ret (set_mf (mf_set_base (ct_type f ++ $"/" ++ ct_subtype f) (ct_mf f)) f).
Proof.
  intros H Hv Ht Hst Hb. unfold ContentType_Parse. rewrite H. cbv beta iota zeta delta [mbind outcome_bind].
  rewrite Ht, Hst. cbn [orb]. rewrite Hv. cbn [andb].
  destruct (ct_type f ==s $"multipart") eqn:E1; cbn [andb] in *.
  - rewrite Hb, !andb_false_r. cbn [andb]. by rewrite Hv, E1, Hb.
  - rewrite !andb_false_r. cbn [andb]. by rewrite Hv, E1.
Qed.

Lemma plain_boundary ps m :
  Forall plain_param ps → m ∈ ps → mp_name m = $"boundary" → parameter $"boundary" ps ≠ [].
Proof.
  intros Hps Hm Hn. unfold parameter. replace (ToLower $"boundary") with ($"boundary") by done.
  destruct (List.find _ ps) as [m'|] eqn:E.
  - apply find_some in E as [Hin _]. rewrite Forall_forall in Hps.
    destruct (Hps m') as (_ & _ & Hv & _); [by apply list_elem_of_In|]. by apply boring_token in Hv as [? _].
  - apply list_elem_of_In in Hm. apply (find_none _ _ E) in Hm. rewrite Hn in Hm. done.
Qed.

(** C6: a Content-Type field whose type, subtype and
    parameters are plain is parsed back from its printed form, however the
    printer folded it: the same type and subtype and a reordering of the same
    parameters, so that each parameter has the same value. *)
Theorem ContentType_roundtrip (t st : str) (ps : list MIMEParameter)
    (Ht : lower_token t) (Hst : lower_token st) (Hps : Forall plain_param ps)
    (Hd : NoDup (map mp_name ps))
    (Hb : t = $"multipart" → ∃ m, m ∈ ps ∧ mp_name m = $"boundary") :
  ∃ ps', Permutation ps ps' ∧ (∀ n, parameter n ps = parameter n ps')
    ∧ NewHeaderField $"Content-Type" (MIMEField_rfc822 (ct_mf (content_type t st ps)))
      = Ret (FContentType (content_type t st ps')).
Proof.
  destruct (MIMEField_rfc822_printed (ct_mf (content_type t st ps))) as (l & -> & Hl & Hp).
  cbn [content_type ct_mf mf_base mf_params] in *. rewrite <- !app_assoc.
  exists (map snd l). split; [done|]. split; [by intros n; apply parameter_perm|].
  assert (Forall plain_param (map snd l)) as Hps' by by rewrite Hp.
  assert (Forall (λ x, separator x.1 ∧ plain_param x.2) l) as Hl'.
  { apply Forall_and. split; [done|]. exact (proj1 (Forall_fmap snd _ l) Hps'). }
  unfold NewHeaderField.
  change (NewHeaderFieldNamed $"Content-Type") with (FContentType NewContentType).
  cbn [Field_Parse]. assert (NoDup (map mp_name (map snd l))) as Hd' by by rewrite Hp.
  rewrite (ContentType_Parse_plain _ _ _ (read_type_printed t st l Ht Hst Hl' Hd')); [done | done |..].
  - cbn. by destruct Ht, t.
  - cbn. by destruct Hst, st.
  - change ((t ==s $"multipart") && (parameter $"boundary" (map snd l) ==s []) = false).
    destruct (t ==s $"multipart") eqn:E; [|done]. breflect. destruct (Hb E) as (m & Hm & Hn).
    rewrite <- Hp in Hm. pose proof (plain_boundary _ m Hps' Hm Hn).
    by destruct (parameter _ _).
Qed.
End Reading.

Lemma ContentType_roundtrip_witness :
  let ps := [NewMIMEParameter $"charset" $"utf-8"; NewMIMEParameter $"format" $"flowed"] in
  ∃ ps', Permutation ps ps'
    ∧ (∀ n, parameter (U := ascii_only_case) n ps = parameter (U := ascii_only_case) n ps')
    ∧ NewHeaderField (U := ascii_only_case) (CS := plain_charsets) (L := utc_only) $"Content-Type"
        $"text/plain; charset=utf-8; format=flowed"
      = Ret (FContentType (content_type $"text" $"plain" ps')).
Proof.
  refine (@ContentType_roundtrip ascii_only_case plain_charsets utc_only $"text" $"plain"
    [NewMIMEParameter $"charset" $"utf-8"; NewMIMEParameter $"format" $"flowed"] _ _ _ _ _).
  - by split; [|repeat constructor].
  - by split; [|repeat constructor].
  - repeat constructor; cbn; try done; by apply (bool_decide_unpack _); vm_compute.
  - apply (bool_decide_unpack _). by vm_compute.
  - done.
Defined.

(** ** The names of the parameters *)

Definition distinct (ps : list MIMEParameter) : Prop := NoDup (map mp_name ps).

(** The parameters of a field; only MIME fields have any. *)
Definition field_params (f : Field) : list MIMEParameter :=
  match f with
  | FContentType g => mf_params (ct_mf g)
  | FEncoding g => mf_params (cte_mf g)
  | FDisposition g => mf_params (cd_mf g)
  | FLanguage g => mf_params (cl_mf g)
  | _ => []
  end.

Lemma distinct_snoc ps m : distinct ps → mp_name m ∉ map mp_name ps → distinct (ps ++ [m]).
Proof.
  intros Hd Hm. unfold distinct. rewrite map_app. apply NoDup_app. split; [done|]. split; [|by apply NoDup_singleton].
  intros n Hn Hin%list_elem_of_singleton. simpl in Hin. congruence.
Qed.

Lemma absent_name n ps : existsb (λ m, mp_name m ==s n) ps = false → n ∉ map mp_name ps.
Proof.
  induction ps as [|m ps IH]; [intros _; by apply not_elem_of_nil|]. simpl. intros [H1 H2]%orb_false_iff.
  apply not_elem_of_cons. split; [|by apply IH]. breflect. congruence.
Qed.

Section Names.
Context {U : UnicodeCase} {CS : Charset} {L : Local}.

Lemma addParameter_names n v ps :
  map mp_name (addParameter n v ps)
  = if existsb (λ m, mp_name m ==s ToLower n) ps then map mp_name ps else map mp_name ps ++ [n].
Proof.
  unfold addParameter. cbv zeta. case_if; [|by rewrite map_app].
  rewrite map_map. apply map_ext. intros m. by case_if.
Qed.

Lemma addParameter_distinct n v ps : ToLower n = n → distinct ps → distinct (addParameter n v ps).
Proof.
  unfold distinct. rewrite addParameter_names. intros E Hd. rewrite E. case_if; [done|].
  apply (distinct_snoc ps (NewMIMEParameter n v)) in Hd; [|by apply absent_name].
  unfold distinct in Hd. by rewrite map_app in Hd.
Qed.

Lemma set_param_names n part v ps :
  gives (set_param n part v ps) (λ qs, map mp_name qs = map mp_name ps ∨ map mp_name qs = map mp_name ps ++ [n] ∧ n ∉ map mp_name ps).
Proof.
  assert (∀ m, gives (set_in part v m) (λ m', mp_name m' = mp_name m)) as Hin by (intros; unfold set_in; by gives).
  induction ps as [|m ps IH]; cbn [set_param map].
  - eapply gives_bind; [apply Hin|]. intros m Hm. gives. right. simpl in *. rewrite Hm. split; [done | by apply not_elem_of_nil].
  - destruct (mp_name m ==s n) eqn:E.
    + eapply gives_bind; [apply Hin|]. intros m' Hm. gives. left. simpl. by rewrite Hm.
    + eapply gives_bind; [apply IH|]. intros qs Hqs. gives. breflect. simpl.
      destruct Hqs as [-> | [-> Hn]]; [by left | right]. split; [done|]. apply not_elem_of_cons. split; [congruence | done].
Qed.

Lemma set_param_distinct n part v ps : distinct ps → gives (set_param n part v ps) distinct.
Proof.
  intros Hd qs Hqs. unfold distinct in *. destruct (set_param_names _ _ _ _ _ Hqs) as [-> | [-> Hn]]; [done|].
  apply (distinct_snoc ps (NewMIMEParameter n v)) in Hd; [|done]. unfold distinct in Hd. by rewrite map_app in Hd.
Qed.

Lemma parameters_loop_distinct n ct first ps : distinct ps → pgives (parameters_loop n ct first ps) distinct.
Proof.
  revert first ps. induction n as [|n IH]; intros first ps Hd; cbn [parameters_loop]; [done|].
  do 4 (apply pgives_bind_any; intros ?). case_if; [by pgives|]. apply pgives_bind_any; intros t.
  apply pgives_bind_any; intros _. case_if; [by pgives|]. destruct (param_number _) as [name part].
  do 2 (apply pgives_bind_any; intros ?). case_if.
  - pgives. apply distinct_snoc; [done|]. apply absent_name. simpl.
    match goal with H : _ && negb (existsb _ ps) = true |- _ => apply andb_true_iff in H as [_ H] end.
    by apply negb_true_iff.
  - cbv zeta. case_if; [by pgives|]. do 5 (apply pgives_bind_any; intros ?).
    apply (pgives_bind _ _ distinct); [|intros qs Hqs; by apply IH].
    case_if; [by pgives|]. intros p qs q. unfold lift. intros H.
    destruct (set_param _ _ _ ps) as [qs'| |] eqn:E; [|done..]. injection H as <- _.
    by eapply set_param_distinct.
Qed.

Lemma parseParameters_distinct f :
  distinct (mf_params f) → pgives (parseParameters f) (λ g, distinct (mf_params g)).
Proof.
  intros Hd. unfold parseParameters. case_if; [|by pgives]. apply pgives_bind_any; intros n.
  eapply pgives_bind; [by apply parameters_loop_distinct|]. intros ps Hps. by pgives.
Qed.

Definition ct_distinct (f : ContentType) : Prop := distinct (mf_params (ct_mf f)).

Lemma keep_type_distinct f : ct_distinct f → ct_distinct (keep_type f).
Proof. by apply addParameter_distinct. Qed.

Lemma read_type_distinct s f : ct_distinct f → pgives (read_type s f) (λ '(g, _, _), ct_distinct g).
Proof.
  intros Hf. unfold read_type. do 4 (apply pgives_bind_any; intros ?).
  apply (pgives_bind _ _ (λ '(g, _), ct_distinct g)); [|intros [g b] Hg; by pgives].
  case_if; [by pgives|]. do 2 (apply pgives_bind_any; intros ?).
  apply (pgives_bind _ _ (λ '(g, _), ct_distinct g)); [by pgives|]. intros [g b] Hg.
  apply pgives_bind_any; intros e. case_if; [pgives; unfold rfc1049; by repeat case_if|].
  apply (pgives_bind _ _ (λ '(g, _), ct_distinct g)).
  - unfold read_subtype. apply pgives_bind_any. intros c.
    case_if; [|case_if; pgives; [done | by apply keep_type_distinct]].
    do 3 (apply pgives_bind_any; intros ?). apply (pgives_bind _ _ ct_distinct); [by pgives|].
    intros h Hh. by pgives.
  - intros [h b'] Hh. eapply pgives_bind; [by apply parseParameters_distinct|]. intros m Hm. by pgives.
Qed.

Lemma guess_type_distinct f : ct_distinct f → ct_distinct (guess_type f).
Proof. intros Hf. unfold guess_type. cbv zeta. repeat case_if; try done; by apply (keep_type_distinct f). Qed.

Lemma ContentType_Parse_distinct s f : ct_distinct f → gives (ContentType_Parse s f) ct_distinct.
Proof.
  intros Hf. unfold ContentType_Parse. eapply gives_bind; [by apply gives_run, read_type_distinct|].
  intros [[g b] e] Hg. cbv zeta. pose proof (guess_type_distinct g Hg).
  match goal with |- gives (?m ≫= _) _ => apply (gives_bind m _ ct_distinct) end.
  - assert (ct_distinct (if b then guess_type g else g)) as H1 by by destruct b.
    set (g1 := if b then guess_type g else g) in *. clearbody g1.
    gives; repeat case_if; try done; by apply addParameter_distinct.
  - intros h Hh. gives. by case_if.
Qed.

Lemma Field_Parse_distinct s f :
  distinct (field_params f) → gives (Field_Parse s f) (λ g, distinct (field_params g)).
Proof.
  intros Hf. destruct f as [f|f|f|f|f|f|f]; cbn [Field_Parse].
  1-3: apply gives_bind_any; intros g; gives; constructor.
  - eapply gives_bind; [by apply ContentType_Parse_distinct|]. intros g Hg. by gives.
  - apply (gives_bind _ _ (λ g, distinct (mf_params (cte_mf g)))); [|intros g Hg; by gives].
    unfold ContentTransferEncoding_Parse. apply gives_bind_any. intros t. gives. by repeat case_if.
  - apply (gives_bind _ _ (λ g, distinct (mf_params (cd_mf g)))); [|intros g Hg; by gives].
    apply gives_run. do 2 (apply pgives_bind_any; intros ?). cbv zeta.
    do 3 (apply pgives_bind_any; intros ?). case_if; [by pgives|].
    eapply pgives_bind; [by apply parseParameters_distinct|]. intros m Hm. by pgives.
  - apply (gives_bind _ _ (λ g, distinct (mf_params (cl_mf g)))); [|intros g Hg; by gives].
    unfold ContentLanguage_Parse. apply gives_bind_any. intros [l e]. gives. by case_if.
Qed.

Lemma NewHeaderField_distinct name value :
  gives (NewHeaderField name value) (λ f, distinct (field_params f)).
Proof.
  assert (distinct (field_params (NewHeaderFieldNamed name))) as Hn.
  { unfold NewHeaderFieldNamed. cbv zeta. repeat case_if; constructor. }
  unfold NewHeaderField. eapply gives_bind; [by apply Field_Parse_distinct|]. intros f Hf. case_if; [by gives|].
  apply gives_bind_any. intros v. eapply gives_bind; [by apply Field_Parse_distinct|]. intros g Hg. gives.
  case_if; [done | by destruct f].
Qed.

(** C22: in a field made from a name and a value no two
    parameters have the same name, so that looking up, setting or removing the
    first one of a name is looking up, setting or removing the only one. *)
Theorem NewHeaderField_params (name value : str) (f : Field) (Hf : NewHeaderField name value = Ret f) :
  distinct (field_params f).
Proof. by apply (NewHeaderField_distinct name value). Qed.
End Names.

Lemma NewHeaderField_params_witness :
  ∃ f, NewHeaderField (U := ascii_only_case) (CS := plain_charsets) (L := utc_only)
         $"Content-Type" $"text/plain; format=a; Format=b" = Ret f
    ∧ field_params f = [NewMIMEParameter $"format" $"b"] ∧ distinct (field_params f).
Proof.
  eexists. split; [vm_compute; reflexivity|]. split; [reflexivity|].
  refine (@NewHeaderField_params ascii_only_case plain_charsets utc_only
    $"Content-Type" $"text/plain; format=a; Format=b" _ _). vm_compute. reflexivity.
Defined.

(** ** The parameters as a map *)

(** What a list of parameters means: a map from names in lower case to values. *)
Definition params_map (ps : list MIMEParameter) : gmap str str :=
  list_to_map (map (λ m, (mp_name m, mp_value m)) ps).

Lemma params_map_cons m ps : params_map (m :: ps) = <[mp_name m := mp_value m]> (params_map ps).
Proof. done. Qed.

Lemma params_map_absent n ps : n ∉ map mp_name ps → params_map ps !! n = None.
Proof.
  intros H. apply not_elem_of_list_to_map_1.
  change (n ∉ map fst (map (λ m, (mp_name m, mp_value m)) ps)). by rewrite map_map.
Qed.

Lemma params_map_None n ps :
  params_map ps !! n = None → existsb (λ m, mp_name m ==s n) ps = false.
Proof.
  induction ps as [|m ps IH]; [done|]. rewrite params_map_cons. intros [H Hn]%lookup_insert_None.
  simpl. rewrite IH by done. apply orb_false_iff. split; [|done]. by apply str_eqb_false.
Qed.

Section Map.
Context {U : UnicodeCase} {CS : Charset} {L : Local}.

Lemma parameter_map n ps : parameter n ps = default [] (params_map ps !! ToLower n).
Proof.
  unfold parameter. set (s := ToLower n). clearbody s. induction ps as [|m ps IH]; [done|].
  rewrite params_map_cons. cbn [List.find]. destruct (mp_name m ==s s) eqn:E; breflect.
  - subst. by rewrite lookup_insert_eq.
  - by rewrite lookup_insert_ne.
Qed.

Lemma addParameter_map n v ps :
  distinct ps → ToLower n = n → params_map (addParameter n v ps) = <[n := v]> (params_map ps).
Proof.
  intros Hd E. unfold addParameter. rewrite E. cbv zeta. destruct (existsb _ ps) eqn:Ex.
  - revert Ex. induction ps as [|m ps IH]; [done|]. apply NoDup_cons in Hd as [Hm Hd]. cbn [existsb map].
    rewrite !params_map_cons. destruct (mp_name m ==s n) eqn:En; breflect; intros Ex.
    + subst n. cbn [set_mp_value mp_name mp_value]. rewrite insert_insert_eq. f_equal. f_equal.
      transitivity (map id ps); [|apply map_id].
      apply map_ext_in. intros m' Hin. destruct (_ ==s _) eqn:E'; [|done]. breflect. exfalso. apply Hm.
      rewrite <- E'. apply list_elem_of_In. by apply in_map.
    + rewrite (IH Hd Ex). by apply insert_insert_ne.
  - apply absent_name in Ex. unfold params_map. rewrite map_app, list_to_map_app. fold (params_map ps).
    simpl. rewrite insert_empty. symmetry. by apply insert_union_singleton_r, params_map_absent.
Qed.

Lemma removeParameter_map n ps :
  distinct ps → params_map (removeParameter n ps) = delete (ToLower n) (params_map ps).
Proof.
  unfold removeParameter. set (s := ToLower n). clearbody s.
  induction ps as [|m ps IH]; intros Hd; [symmetry; apply delete_empty|].
  apply NoDup_cons in Hd as [Hm Hd]. cbn [remove_first]. rewrite (params_map_cons m ps).
  destruct (mp_name m ==s s) eqn:E; breflect.
  - subst. rewrite delete_insert_eq. symmetry. by apply delete_id, params_map_absent.
  - rewrite params_map_cons, IH by done. by rewrite delete_insert_ne.
Qed.

Lemma removeParameter_distinct n ps : distinct ps → distinct (removeParameter n ps).
Proof.
  unfold removeParameter. set (s := ToLower n). clearbody s. unfold distinct.
  assert (∀ qs, map mp_name (remove_first s qs) `sublist_of` map mp_name qs) as Hs.
  { induction qs as [|m qs IH]; cbn [remove_first map]; [done|]. case_if; [by constructor | by constructor]. }
  intros Hd. by eapply sublist_NoDup.
Qed.

(** C15: the list of parameters of a MIME field implements a map
    from names in lower case to values: looking up, setting and removing a
    parameter are looking up, inserting and deleting a key, and keep the names
    distinct.  A parameter set under a name with capitals, when there is none of
    that name, cannot be found again: [addParameter] compares the name in lower
    case but stores it as given. *)
Theorem parameters_refine (n v : str) (ps : list MIMEParameter) (Hd : distinct ps) :
  parameter n ps = default [] (params_map ps !! ToLower n)
  ∧ (distinct (removeParameter n ps)
     ∧ params_map (removeParameter n ps) = delete (ToLower n) (params_map ps))
  ∧ (ToLower n = n →
     distinct (addParameter n v ps) ∧ params_map (addParameter n v ps) = <[n := v]> (params_map ps))
  ∧ (ToLower n ≠ n → params_map ps !! ToLower n = None → parameter n (addParameter n v ps) = []).
Proof.
  split; [apply parameter_map|]. split; [by split; [apply removeParameter_distinct | apply removeParameter_map]|].
  split; [by intros; split; [apply addParameter_distinct | apply addParameter_map]|].
  intros Hn Hl%params_map_None. rewrite parameter_map. unfold addParameter. rewrite Hl. cbv zeta.
  rewrite params_map_absent; [done|]. rewrite map_app. apply not_elem_of_app.
  split; [by apply absent_name | by intros Hin%list_elem_of_singleton].
Qed.
End Map.

Lemma parameters_refine_witness :
  let ps := [NewMIMEParameter $"charset" $"utf-8"; NewMIMEParameter $"name" $"a"] in
  parameter (U := ascii_only_case) $"name" ps = $"a"
  ∧ params_map (addParameter (U := ascii_only_case) $"name" $"b" ps)
    = <[$"name" := $"b"]> (params_map ps)
  ∧ parameter (U := ascii_only_case) $"Format" (addParameter (U := ascii_only_case) $"Format" $"b" ps) = [].
Proof.
  assert (distinct [NewMIMEParameter $"charset" $"utf-8"; NewMIMEParameter $"name" $"a"]) as Hd
    by (apply (bool_decide_unpack _); by vm_compute).
  split; [done|]. split.
  - by apply (@parameters_refine ascii_only_case $"name" $"b" _ Hd).
  - by apply (@parameters_refine ascii_only_case $"Format" $"b" _ Hd).
Defined.

(** ** Field values that make the code panic or lose data *)

(** [NewHeaderField] panics on a value of a field the
    sender chooses: a MIME-Version whose comment is blank, a Date that is two
    comments, a parameter that ends in an escape inside a comment, and an empty
    Content-Disposition. *)
Theorem NewHeaderField_panics :
  Forall (λ '(n, v), NewHeaderField (U := ascii_only_case) (CS := plain_charsets) (L := utc_only) n v = Panic)
    [($"MIME-Version", $"1.0 ( )"); ($"Date", $"(a) (b)");
     ($"Content-Type", $"text/plain; x=(" ++ [BACKSLASH]); ($"Content-Disposition", [])].
Proof. repeat constructor. Qed.

(** A parameter split over several, as RFC 2231 allows, comes
    out empty; and the quotes [rfc822] puts around a value that contains a quote
    are not the ones [Parse] removes. *)
Theorem parameters_lost :
  NewHeaderField (U := ascii_only_case) (CS := plain_charsets) (L := utc_only)
    $"Content-Type" $"text/plain; name*0=a; name*1=b"
  = Ret (FContentType (content_type $"text" $"plain"
      [{| mp_name := $"name"; mp_value := []; mp_parts := [$"a"; $"b"] |}]))
  ∧ NewHeaderField (U := ascii_only_case) (CS := plain_charsets) (L := utc_only)
      $"Content-Type" (MIMEField_rfc822 (ct_mf (content_type $"text" $"plain"
        [NewMIMEParameter $"name" [DQUOTE]])))
    = Ret (FContentType (content_type $"text" $"plain" [NewMIMEParameter $"name" [SQUOTE]])).
Proof. by split; vm_compute. Qed.
