(* ===== verification/Header.v ===== *)
(** * Headers: [src/header.go] up to and including [Simplify], and [AsText]

    A [Header] is a sequence of pointers to fields.  The pointers are compared
    and the fields changed through them, so each field is kept with its pointer,
    a number that [alloc] makes.  The methods are actions of the state monad over
    [Header]. *)

From S2P Require Import Prelude GoStrings GoTime Strings Codec Words Address AddrParser Fields.
Open Scope Z_scope.

Inductive headerMode := RFC5322Header | MIMEHeader.

#[global] Instance headerMode_eq_dec : EqDecision headerMode.
Proof. solve_decision. Defined.

Inductive defaultContentType := TextPlainContentType | MessageRFC822ContentType.

#[global] Instance defaultContentType_eq_dec : EqDecision defaultContentType.
Proof. solve_decision. Defined.

(** The errors [verify] records, with the data it formats into the message. *)
Inductive header_error :=
| FieldError (name : str) (e : option field_error)
| TooMany (seen : Z) (name : str) (max : Z)
| TooFew (seen : Z) (name : str) (min : Z).

(** A pointer to a field, with the field it points to. *)
Abbreviation ref := (nat * Field)%type.

(** [h_next] is the next pointer [alloc] makes; the other fields are those of the
    source. *)
Record Header := {
  h_fields : list ref;
  h_next : nat;
  defaultType : defaultContentType;
  h_mode : headerMode;
  numBytes : Z;
  h_err : option header_error;
  verified : bool
}.

Definition new_header (m : headerMode) : Header :=
  {| h_fields := []; h_next := 0; defaultType := TextPlainContentType; h_mode := m;
     numBytes := 0; h_err := None; verified := false |}.

Abbreviation hm := (state_m Header).

Definition set_fields (fs : list ref) (h : Header) : Header :=
  {| h_fields := fs; h_next := h_next h; defaultType := defaultType h; h_mode := h_mode h;
     numBytes := numBytes h; h_err := h_err h; verified := verified h |}.
Definition set_default (d : defaultContentType) (h : Header) : Header :=
  {| h_fields := h_fields h; h_next := h_next h; defaultType := d; h_mode := h_mode h;
     numBytes := numBytes h; h_err := h_err h; verified := verified h |}.
Definition set_bytes (n : Z) (h : Header) : Header :=
  {| h_fields := h_fields h; h_next := h_next h; defaultType := defaultType h; h_mode := h_mode h;
     numBytes := n; h_err := h_err h; verified := verified h |}.
Definition set_verified (b : bool) (h : Header) : Header :=
  {| h_fields := h_fields h; h_next := h_next h; defaultType := defaultType h; h_mode := h_mode h;
     numBytes := numBytes h; h_err := h_err h; verified := b |}.
Definition set_err (e : option header_error) (h : Header) : Header :=
  {| h_fields := h_fields h; h_next := h_next h; defaultType := defaultType h; h_mode := h_mode h;
     numBytes := numBytes h; h_err := e; verified := verified h |}.

(** [&f] of a new field. *)
Definition alloc (f : Field) : hm ref := λ h,
  Ret ((h_next h, f),
       {| h_fields := h_fields h; h_next := S (h_next h); defaultType := defaultType h;
          h_mode := h_mode h; numBytes := numBytes h; h_err := h_err h; verified := verified h |}).

(** An assignment through the pointer [p]. *)
Definition put_field (p : nat) (f : Field) (fs : list ref) : list ref :=
  map (λ r, if Nat.eqb (fst r) p then (p, f) else r) fs.

Definition store (p : nat) (f : Field) : hm unit := modify (λ h, set_fields (put_field p f (h_fields h)) h).

(** ** Lookup *)

(** The [n]th field named [fn]. *)
Fixpoint find_field (fn : str) (n : nat) (fs : list ref) : option ref :=
  match fs with
  | [] => None
  | r :: fs' =>
      if field_name (snd r) ==s fn then
        match n with
        | S n' => find_field fn n' fs'
        | O => Some r
        end
      else find_field fn n fs'
  end.

Definition field (fn : str) (n : nat) (h : Header) : option ref := find_field fn n (h_fields h).

(** The failed type assertion gives a nil pointer here, not a panic. *)
Definition addressField (fn : str) (n : nat) (h : Header) : option (nat * AddressField) :=
  if among address_like fn then
    match field fn n h with
    | Some (p, FAddress f) => Some (p, f)
    | _ => None
    end
  else None.

Definition Header_Addresses (fn : str) (h : Header) : option Addresses :=
  match addressField fn 0 h with Some (_, f) => af_addresses f | None => None end.

(** [len] of a slice that can be nil. *)
Definition addresses_len (l : option Addresses) : Z := len (default [] l).

(** The type assertion on a nil [Field] panics, so a header without a Date field
    has no nil date. *)
Definition Header_Date (h : Header) : outcome (option Time) :=
  match field DateFieldName 0 h with
  | Some (_, FDate f) => Ret (df_date f)
  | _ => Panic
  end.

Definition Header_ContentType (h : Header) : outcome (option (nat * ContentType)) :=
  match field ContentTypeFieldName 0 h with
  | None => Ret None
  | Some (p, FContentType f) => Ret (Some (p, f))
  | Some _ => Panic
  end.

Definition Header_ContentTransferEncoding (h : Header) : outcome (option (nat * ContentTransferEncoding)) :=
  match field ContentTransferEncodingFieldName 0 h with
  | None => Ret None
  | Some (p, FEncoding f) => Ret (Some (p, f))
  | Some _ => Panic
  end.

Definition Header_ContentDisposition (h : Header) : outcome (option (nat * ContentDisposition)) :=
  match field ContentDispositionFieldName 0 h with
  | None => Ret None
  | Some (p, FDisposition f) => Ret (Some (p, f))
  | Some _ => Panic
  end.

Definition Header_ContentLanguage (h : Header) : outcome (option (nat * ContentLanguage)) :=
  match field ContentLanguageFieldName 0 h with
  | None => Ret None
  | Some (p, FLanguage f) => Ret (Some (p, f))
  | Some _ => Panic
  end.

Definition MessageID (h : Header) : str :=
  match Header_Addresses MessageIDFieldName h with
  | Some [id] => $"<" ++ Localpart id ++ $"@" ++ Domain id ++ $">"
  | _ => []
  end.

(** ** Removal *)

Definition RemoveAt (i : nat) : hm unit :=
  fs ← gets h_fields;
  if Nat.ltb i (length fs) then modify (set_fields (take i fs ++ drop (S i) fs))
  else lift Panic.

(** [for i < len(h.Fields) { if ... { h.RemoveAt(i) } else { i++ } }], whose body
    has the variables [st]; each round brings the end of the list closer. *)
Fixpoint sweep {S} (n : nat) (i : nat) (st : S) (body : S → ref → hm (bool * S)) : hm S :=
  fs ← gets h_fields;
  match fs !! i with
  | None => mret st
  | Some r =>
      match n with
      | O => out_of_fuel
      | Datatypes.S n' =>
          '(rm, st) ← body st r;
          if (rm : bool) then _ ← RemoveAt i; sweep n' i st body
          else sweep n' (Datatypes.S i) st body
      end
  end.

Definition sweep_all {S} (st : S) (body : S → ref → hm (bool * S)) : hm S :=
  n ← gets (λ h, length (h_fields h));
  sweep n 0 st body.

(** The same with a condition that has no variables. *)
Definition remove_where (cond : ref → bool) : hm unit := sweep_all tt (λ _ r, mret (cond r, tt)).

(** The loop of [Remove] ranges over the array of the slice it started with,
    [arr], in which [RemoveAt] moves the later elements down. *)
Fixpoint remove_range (n : nat) (i : nat) (p : nat) (arr : list ref) : hm unit :=
  match n with
  | O => mret tt
  | S n' =>
      match arr !! i with
      | None => mret tt
      | Some r =>
          if Nat.eqb (fst r) p then
            _ ← RemoveAt i;
            l ← gets (λ h, length (h_fields h));
            fs ← gets h_fields;
            remove_range n' (S i) p (fs ++ drop l arr)
          else remove_range n' (S i) p arr
      end
  end.

Definition Remove (r : ref) : hm unit :=
  fs ← gets h_fields;
  remove_range (length fs) 0 (fst r) fs.

(** ** Verification *)

Record HeaderFieldCondition := { c_name : str; c_min : Z; c_max : Z; c_m : headerMode }.

Definition condition (name : str) (min max : Z) (m : headerMode) : HeaderFieldCondition :=
  {| c_name := name; c_min := min; c_max := max; c_m := m |}.

Definition conditions : list HeaderFieldCondition := [
  condition SenderFieldName 0 1 RFC5322Header;
  condition ReplyToFieldName 0 1 RFC5322Header;
  condition ToFieldName 0 1 RFC5322Header;
  condition CcFieldName 0 1 RFC5322Header;
  condition BccFieldName 0 1 RFC5322Header;
  condition MessageIDFieldName 0 1 RFC5322Header;
  condition ReferencesFieldName 0 1 RFC5322Header;
  condition SubjectFieldName 0 1 RFC5322Header;
  condition FromFieldName 1 1 RFC5322Header;
  condition DateFieldName 1 1 RFC5322Header;
  condition MIMEVersionFieldName 0 1 RFC5322Header;
  condition MIMEVersionFieldName 0 1 MIMEHeader;
  condition ContentTypeFieldName 0 1 RFC5322Header;
  condition ContentTypeFieldName 0 1 MIMEHeader;
  condition ContentTransferEncodingFieldName 0 1 RFC5322Header;
  condition ContentTransferEncodingFieldName 0 1 MIMEHeader;
  condition ReturnPathFieldName 0 1 RFC5322Header ].

(** The map [occurrences], as a function. *)
Fixpoint occurrences (fs : list ref) (name : str) : Z :=
  match fs with
  | [] => 0
  | r :: fs' => (if field_name (snd r) ==s name then 1 else 0) + occurrences fs' name
  end.

Definition in_mode (c : HeaderFieldCondition) (m : headerMode) : bool := bool_decide (c_m c = m).

(** The error of the first condition that is violated.  The mode restricts the
    lower bound only: Go's [&&] binds more tightly than its [||]. *)
Fixpoint check_conditions (cs : list HeaderFieldCondition) (m : headerMode) (occ : str → Z) :
    option header_error :=
  match cs with
  | [] => None
  | c :: cs' =>
      let n := occ (c_name c) in
      if (in_mode c m && (n <? c_min c)) || (c_max c <? n)
      then Some (if c_max c <? n then TooMany n (c_name c) (c_max c) else TooFew n (c_name c) (c_min c))
      else check_conditions cs' m occ
  end.

Definition first_invalid (fs : list ref) : option ref := List.find (λ r, negb (field_valid (snd r))) fs.

Definition verify : hm unit :=
  v ← gets verified;
  if (v : bool) then mret tt
  else
    _ ← modify (λ h, set_err None (set_verified true h));
    fs ← gets h_fields;
    match first_invalid fs with
    | Some (_, f) => modify (set_err (Some (FieldError (field_name f) (hf_err (field_hf f)))))
    | None =>
        m ← gets h_mode;
        modify (set_err (check_conditions conditions m (occurrences fs)))
    end.

Definition Header_Valid : hm bool :=
  _ ← verify;
  gets (λ h, match h_err h with None => true | Some _ => false end).

(** ** Addition *)

Section Header.
Context {U : UnicodeCase} {CS : Charset} {L : Local}.

Definition merged_names : list str :=
  [ToFieldName; CcFieldName; BccFieldName; ReplyToFieldName; FromFieldName].

Definition append_addresses (l : Addresses) (f : AddressField) : AddressField :=
  match l with
  | [] => f
  | _ => with_list (Some (af_list f ++ l)) f
  end.

Definition push_field (r : ref) : hm unit :=
  modify (λ h, set_verified false (set_fields (h_fields h ++ [r]) h)).

Definition addField (r : ref) : hm unit :=
  let name := field_name (snd r) in
  if among merged_names name then
    first ← gets (addressField name 0);
    match snd r with
    | FAddress next =>
        match first with
        | Some (p, f) => store p (FAddress (append_addresses (af_list next) f))
        | None => push_field r
        end
    | _ => lift Panic
    end
  else push_field r.

Definition Add (key value : str) : hm unit :=
  f ← lift (NewHeaderField key value);
  r ← alloc f;
  addField r.

Definition RemoveAllNamed (name : str) : hm unit :=
  let name := ToLower name in
  remove_where (λ r, ToLower (field_name (snd r)) ==s name).

(** ** Values *)

Definition value_of (r : option ref) : outcome str :=
  match r with Some (_, f) => field_value f | None => Ret [] end.

Definition Get (key : str) (h : Header) : outcome str := value_of (field key 0 h).
Definition Subject (h : Header) : outcome str := value_of (field SubjectFieldName 0 h).

Definition ContentDescription (h : Header) : outcome str :=
  match field ContentDescriptionFieldName 0 h with
  | Some (_, f) => s ← field_rfc822 false f; simplify s
  | None => Ret []
  end.

Definition ContentLocation (h : Header) : outcome str :=
  match field ContentLocationFieldName 0 h with
  | Some (_, f) => field_rfc822 false f
  | None => Ret []
  end.

(** The loop of [ToMap]. *)
Fixpoint to_map (fs : list ref) (m : gmap str (list str)) : outcome (gmap str (list str)) :=
  match fs with
  | [] => Ret m
  | (_, f) :: fs' =>
      v ← field_value f;
      to_map fs' (<[field_name f := default [] (m !! field_name f) ++ [v]]> m)
  end.

Definition ToMap (h : Header) : outcome (gmap str (list str)) := to_map (h_fields h) ∅.

(** ** Reading *)

Definition name_char (c : byte) : bool := (33 <=? bz c) && (bz c <=? 127) && negb (c =b ":").

(** The position after the byte order mark at [i], if there is one. *)
Definition skip_bom (s : str) (i : Z) : Z :=
  match drop (Z.to_nat i) s with
  | a :: b :: c :: _ => if (a =b xef) && (b =b xbb) && (c =b xbf) then i + 3 else i
  | _ => i
  end.

(** The first position from [i] whose byte does not satisfy [ok], at most the
    end of the string. *)
Definition skip_while (ok : byte → bool) (s : str) (i : Z) : Z :=
  i + len (take_while ok (drop (Z.to_nat i) s)).

(** The same for a loop without a test for the end of the string. *)
Definition skip_unbounded (ok : byte → bool) (s : str) (i : Z) : outcome Z :=
  let i := skip_while ok s i in
  _ ← at_ s i;
  Ret i.

(** The length of a value that may be continued on lines that start with white
    space. *)
Fixpoint value_length (s : str) : nat :=
  match s with
  | [] => 0
  | c :: s' =>
      if negb (c =b LF) || match s' with d :: _ => (d =b SP) || (d =b HT) | [] => false end
      then S (value_length s') else 0
  end.

Definition lf_at (s : str) (i : Z) : bool := is_at s (Z.to_nat i) LF.
Definition cr_at (s : str) (i : Z) : bool := is_at s (Z.to_nat i) CR.

(** A line "From ..." that separates the messages of an mbox file. *)
Definition skip_mbox_line (s : str) (i : Z) : outcome Z :=
  let i := skip_while (λ c, negb ((c =b CR) || (c =b LF))) s i in
  i ← skip_unbounded (Byte.eqb CR) s i;
  Ret (if lf_at s i then i + 1 else i).

(** The field whose name is [s[i:j]]; the position after it. *)
Definition read_field (s : str) (i j : Z) : hm Z :=
  name ← lift (slice s i j);
  i ← lift (skip_unbounded (λ c, (c =b SP) || (c =b HT)) s (j + 1));
  let j := i + Z.of_nat (value_length (drop (Z.to_nat i) s)) in
  let j := if (0 <? j) && cr_at s (j - 1) then j - 1 else j in
  value ← lift (slice s i j);
  v ← lift (simplify value);
  _ ← (if negb (v ==s []) || HasPrefix (ToLower name) $"x-" then Add name value else mret tt);
  let i := if cr_at s j && lf_at s (j + 1) then j + 1 else j in
  mret (i + 1).

Fixpoint read_loop (n : nat) (s : str) (i : Z) : hm Z :=
  let done := len s <=? i in
  let i := skip_bom s i in
  let j := skip_while name_char s i in
  m ← gets h_mode;
  mbox ← (if (j =? i + 4) && bool_decide (m = RFC5322Header)
          then t ← lift (slice s i (j + 1)); mret (ToLower t ==s $"from ")
          else mret false);
  colon ← (if negb mbox && (i <? j) then c ← lift (at_ s j); mret (c =b ":") else mret false);
  if negb mbox && negb colon then mret i
  else
    i ← (if (mbox : bool) then lift (skip_mbox_line s i) else read_field s i j);
    if done then mret i
    else match n with O => out_of_fuel | S n' => read_loop n' s i end.

(** [ReadHeader] never returns an error.  Each round but the last moves past a
    byte of the input. *)
Definition ReadHeader (s : str) (m : headerMode) : outcome Header :=
  '(i, h) ← read_loop (S (length s)) s 0 (new_header m);
  let i := if cr_at s i && lf_at s (i + 1) then i + 2 else if lf_at s i then i + 1 else i in
  Ret (set_bytes i h).

(** ** Simplification *)

(** The key [sameAddresses] compares. *)
Definition address_key (a : Address) : str := Localpart a ++ $"@" ++ ToTitle (Domain a).

Definition sameAddresses (a b : option AddressField) : bool :=
  match a, b with
  | Some a, Some b =>
      match af_addresses a, af_addresses b with
      | Some l, Some m =>
          (len l =? len m)
          && (let lmap := map address_key l in
              let mmap := map address_key l in
              forallb (λ a, among mmap (address_key a)) l
              && forallb (λ a, among lmap (address_key a)) m)
      | _, _ => false
      end
  | _, _ => false
  end.

(** The loop over [addressFieldNames]. *)
Fixpoint uniquify_fields (names : list str) : hm unit :=
  match names with
  | [] => mret tt
  | fn :: names' =>
      af ← gets (addressField fn 0);
      _ ← match af with
          | Some (p, f) =>
              match af_list f with
              | [] => mret tt
              | l => l ← lift (Uniquify l); store p (FAddress (with_list (Some l) f))
              end
          | None => mret tt
          end;
      uniquify_fields names'
  end.

(** [f != nil && f.rfc822(false) == ""] *)
Definition prints_empty (r : option ref) : outcome bool :=
  match r with
  | Some (_, f) => s ← field_rfc822 false f; Ret (s ==s [])
  | None => Ret false
  end.

Definition absent {A} (x : option A) : bool := match x with None => true | Some _ => false end.
Definition present {A} (x : option A) : bool := negb (absent x).

(** [h.field(fn, n) == nil] *)
Definition no_field (fn : str) (h : Header) : bool := absent (field fn 0 h).

(** The Content-Description field; whether it is still there. *)
Definition simplify_description : hm bool :=
  cde ← gets (field ContentDescriptionFieldName 0);
  e ← lift (prints_empty cde);
  if (e : bool) then _ ← RemoveAllNamed ContentDescriptionFieldName; mret false
  else mret (present cde).

(** Whether there was a Content-Transfer-Encoding field; a binary one is removed,
    but the variable [cte] keeps its value. *)
Definition simplify_encoding : hm bool :=
  h ← gets id;
  cte ← lift (Header_ContentTransferEncoding h);
  _ ← match cte with
      | Some (_, f) =>
          match Encoding f with
          | BinaryEncoding => RemoveAllNamed ContentTransferEncodingFieldName
          | _ => mret tt
          end
      | None => mret tt
      end;
  mret (present cte).

Definition simplify_disposition : hm bool :=
  h ← gets id;
  cdi ← lift (Header_ContentDisposition h);
  match cdi with
  | None => mret false
  | Some (_, f) =>
      ct ← lift (Header_ContentType h);
      if bool_decide (h_mode h = RFC5322Header)
         && match ct with Some (_, ct) => ct_type ct ==s $"text" | None => true end
         && (Disposition f ==s $"inline")
         && match mf_params (cd_mf f) with [] => true | _ => false end
      then _ ← RemoveAllNamed ContentDispositionFieldName; mret false
      else mret true
  end.

(** The Content-Type field that is left. *)
Definition simplify_type (cde cte cdi : bool) : hm (option (nat * ContentType)) :=
  h ← gets id;
  ct ← lift (Header_ContentType h);
  match ct with
  | Some (_, f) =>
      if match mf_params (ct_mf f) with [] => true | _ => false end
         && negb cte && negb cdi && negb cde
         && bool_decide (defaultType h = TextPlainContentType)
         && (ct_type f ==s $"text") && (ct_subtype f ==s $"plain")
      then _ ← RemoveAllNamed ContentTypeFieldName; mret None
      else mret ct
  | None =>
      if bool_decide (defaultType h = MessageRFC822ContentType) then
        _ ← Add $"Content-Type" $"message/rfc822";
        h ← gets id;
        lift (Header_ContentType h)
      else mret None
  end.

Definition simplify_version (ct cte cde cdi : bool) : hm unit :=
  h ← gets id;
  if bool_decide (h_mode h = MIMEHeader) then RemoveAllNamed MIMEVersionFieldName
  else if negb ct && negb cte && negb cde && negb cdi
          && no_field ContentLocationFieldName h && no_field ContentBaseFieldName h
  then RemoveAllNamed MIMEVersionFieldName
  else if bool_decide (h_mode h = RFC5322Header) && no_field MIMEVersionFieldName h
  then Add $"MIME-Version" $"1.0"
  else mret tt.

Definition simplify_charset (ct : option (nat * ContentType)) : hm unit :=
  match ct with
  | Some (p, f) =>
      if among [$"multipart"; $"message"; $"image"; $"audio"; $"video"] (ct_type f) then
        let m := ct_mf f in
        store p (FContentType (set_mf
          {| mf_hf := mf_hf m; mf_base := mf_base m; mf_params := removeParameter $"charset" (mf_params m) |} f))
      else mret tt
  | None => mret tt
  end.

Definition simplify_errors_to : hm unit :=
  h ← gets id;
  match field ErrorsToFieldName 0 h with
  | None => mret tt
  | Some (_, f) =>
      v ← lift (field_value f);
      let et := ascii v in
      match Header_Addresses ReturnPathFieldName h with
      | Some [rp] =>
          l ← lift (lpdomain rp);
          if ToLower l ==s ToLower et then RemoveAllNamed ErrorsToFieldName else mret tt
      | _ => mret tt
      end
  end.

(** [if sameAddresses(h.addressField(From, 0), h.addressField(fn, 0)) { ... }] *)
Definition simplify_same (fn : str) : hm unit :=
  h ← gets id;
  if sameAddresses (option_map snd (addressField FromFieldName 0 h)) (option_map snd (addressField fn 0 h))
  then RemoveAllNamed fn else mret tt.

Fixpoint remove_empty (names : list str) : hm unit :=
  match names with
  | [] => mret tt
  | fn :: names' =>
      l ← gets (Header_Addresses fn);
      _ ← (if addresses_len l =? 0 then RemoveAllNamed fn else mret tt);
      remove_empty names'
  end.

Definition Simplify : hm unit :=
  v ← Header_Valid;
  if negb v then mret tt
  else
    _ ← uniquify_fields addressFieldNames;
    cde ← simplify_description;
    cte ← simplify_encoding;
    cdi ← simplify_disposition;
    ct ← simplify_type cde cte cdi;
    _ ← simplify_version (present ct) cte cde cdi;
    _ ← simplify_charset ct;
    _ ← simplify_errors_to;
    m ← gets (field MessageIDFieldName 0);
    e ← lift (prints_empty m);
    _ ← (if (e : bool) then RemoveAllNamed MessageIDFieldName else mret tt);
    _ ← simplify_same ReplyToFieldName;
    _ ← simplify_same SenderFieldName;
    remove_empty [SenderFieldName; ReturnPathFieldName; ToFieldName; CcFieldName; BccFieldName;
                  ReplyToFieldName].

(** ** Printing *)

Definition appendField (buf : str) (f : Field) (avoidUTF8 : bool) : outcome str :=
  s ← field_rfc822 avoidUTF8 f;
  Ret (buf ++ field_name f ++ $": " ++ s ++ crlf).

Fixpoint append_fields (buf : str) (fs : list ref) (avoidUTF8 : bool) : outcome str :=
  match fs with
  | [] => Ret buf
  | (_, f) :: fs' => buf ← appendField buf f avoidUTF8; append_fields buf fs' avoidUTF8
  end.

Definition Header_AsText (avoidUTF8 : bool) (h : Header) : outcome str :=
  append_fields [] (h_fields h) avoidUTF8.
End Header.
