(* ===== verification/HeaderFacts.v ===== *)
(** * Theorems on headers: [Header] *)

From S2P Require Import Prelude GoStrings GoTime Strings StringsFacts Codec Words WordsFacts.
From S2P Require Import Parser ParserFacts Address AddressFacts AddrParser AddrParserFacts.
From S2P Require Import Fields FieldsFacts MIMEFacts Header.
Open Scope Z_scope.

(** ** Actions that keep a property of the header

    [hkeeps P m Q]: on a header with [P] the action [m] ends, leaves a header
    with [P], and returns a value with [Q]. *)
Definition hkeeps {A} (P : Header → Prop) (m : hm A) (Q : A → Prop) : Prop :=
  ∀ h, P h → post (m h) (λ '(a, h'), P h' ∧ Q a).

Section Rules.
Context {P : Header → Prop}.

Lemma hk_ret {A} (a : A) (Q : A → Prop) : Q a → hkeeps P (mret a) Q.
Proof. intros H h Hh. by split. Qed.

Lemma hk_bind {A B} (m : hm A) (f : A → hm B) (R : A → Prop) Q :
  hkeeps P m R → (∀ a, R a → hkeeps P (f a) Q) → hkeeps P (m ≫= f) Q.
Proof. intros Hm Hf h Hh. eapply pbind_post; [by apply Hm|]. intros a h' [Hh' Ha]. by apply Hf. Qed.

Lemma hk_mono {A} (m : hm A) (R Q : A → Prop) :
  hkeeps P m R → (∀ a, R a → Q a) → hkeeps P m Q.
Proof. intros Hm HQ h Hh. eapply post_mono; [by apply Hm|]. intros [a h'] [? ?]. auto. Qed.

Lemma hk_any {A} (m : hm A) (R : A → Prop) : hkeeps P m R → hkeeps P m (λ _, True).
Proof. intros H. by eapply hk_mono. Qed.

Lemma hk_gets {A} (f : Header → A) (Q : A → Prop) : (∀ h, P h → Q (f h)) → hkeeps P (gets f) Q.
Proof. intros H h Hh. split; auto. Qed.

Lemma hk_modify (f : Header → Header) : (∀ h, P h → P (f h)) → hkeeps P (modify f) (λ _, True).
Proof. intros H h Hh. split; auto. Qed.

Lemma hk_lift {A} (m : outcome A) (Q : A → Prop) : post m Q → hkeeps P (lift m) Q.
Proof. intros H h Hh. unfold lift. destruct m; by simpl in *. Qed.

Lemma hk_ends {A} (m : outcome A) : ends m → hkeeps P (lift m) (λ _, True).
Proof. intros H. by apply hk_lift, ends_post. Qed.

Lemma hk_panic {A} (Q : A → Prop) : hkeeps P (lift Panic) Q.
Proof. by intros h Hh. Qed.

Lemma hk_run {A} (m : hm A) (Q : A → Prop) h a h' : hkeeps P m Q → P h → m h = Ret (a, h') → P h' ∧ Q a.
Proof. intros Hm Hh E. specialize (Hm h Hh). by rewrite E in Hm. Qed.
End Rules.

Lemma hk_gets_bind {P : Header → Prop} {A B} (f : Header → A) (k : A → hm B) Q :
  (∀ h, P h → hkeeps P (k (f h)) Q) → hkeeps P (gets f ≫= k) Q.
Proof.
  intros H. apply (hk_bind _ _ (λ a, ∃ h, P h ∧ a = f h)); [apply hk_gets; eauto|].
  intros a (h & Hh & ->). by apply H.
Qed.

Lemma hk_lift_bind {P : Header → Prop} {A B} (m : outcome A) (k : A → hm B) Q :
  ends m → (∀ a, m = Ret a → hkeeps P (k a) Q) → hkeeps P (lift m ≫= k) Q.
Proof.
  intros Hm H. apply (hk_bind _ _ (λ a, m = Ret a)); [|done]. apply hk_lift. by destruct m.
Qed.

Lemma hk_seq {P : Header → Prop} {A B} (m : hm A) (k : A → hm B) Q :
  hkeeps P m (λ _, True) → (∀ a, hkeeps P (k a) Q) → hkeeps P (m ≫= k) Q.
Proof. intros Hm H. by eapply hk_bind. Qed.

(** Takes an action apart; what is left are the calls with lemmas of their own
    and the conditions on values. *)
Ltac hstep :=
  lazymatch goal with
  | |- hkeeps _ (mret _) _ => apply hk_ret
  | |- hkeeps _ (lift Panic) _ => apply hk_panic
  | |- hkeeps _ (lift _) _ => apply hk_ends
  | |- hkeeps _ (gets _ ≫= _) _ => apply hk_gets_bind; intros ? ?
  | |- hkeeps _ (lift _ ≫= _) _ => apply hk_lift_bind; [|intros ? ?]
  | |- hkeeps _ (_ ≫= _) (λ _, True) => apply hk_seq; [|intros ?]
  | |- hkeeps _ (if ?b then _ else _) _ => destruct b eqn:?
  | |- hkeeps _ (match ?x with _ => _ end) _ => destruct x eqn:?
  end.

(** ** Removal *)

Lemma RemoveAt_eq i h :
  (i < length (h_fields h))%nat →
  RemoveAt i h = Ret (tt, set_fields (take i (h_fields h) ++ drop (S i) (h_fields h)) h).
Proof.
  intros Hi. unfold RemoveAt. rewrite (pbind_ret (gets h_fields) _ h _ h eq_refl).
  apply Nat.ltb_lt in Hi. by rewrite Hi.
Qed.

Lemma sweep_filter cond n i h :
  (length (h_fields h) ≤ i + n)%nat →
  sweep n i tt (λ _ r, mret (cond r, tt)) h
  = Ret (tt, set_fields (take i (h_fields h) ++ List.filter (λ r, negb (cond r)) (drop i (h_fields h))) h).
Proof.
  revert i h. induction n as [|n IH]; intros i h Hn; cbn [sweep];
    rewrite (pbind_ret (gets h_fields) _ h _ h eq_refl);
    destruct (h_fields h !! i) as [r|] eqn:E.
  - apply lookup_lt_Some in E. lia.
  - apply lookup_ge_None in E. rewrite take_ge, drop_ge, app_nil_r by lia. by destruct h.
  - pose proof (lookup_lt_Some _ _ _ E) as Hi. rewrite (pbind_ret (mret _) _ h (cond r, tt) h eq_refl).
    rewrite (drop_S _ _ _ E). cbn [List.filter]. destruct (cond r); cbn [negb].
    + rewrite (pbind_ret (RemoveAt i) _ h _ _ (RemoveAt_eq i h Hi)).
      rewrite IH by (cbn [set_fields h_fields]; rewrite length_app, length_take, length_drop; lia).
      cbn [set_fields h_fields]. rewrite take_app_length', drop_app_length' by (rewrite length_take; lia). done.
    + rewrite IH by lia. rewrite (take_S_r _ _ _ E), <- app_assoc. done.
  - apply lookup_ge_None in E. rewrite take_ge, drop_ge, app_nil_r by lia. by destruct h.
Qed.

Lemma remove_where_eq cond h :
  remove_where cond h = Ret (tt, set_fields (List.filter (λ r, negb (cond r)) (h_fields h)) h).
Proof.
  unfold remove_where, sweep_all. rewrite (pbind_ret (gets _) _ h _ h eq_refl).
  rewrite sweep_filter by lia. by rewrite take_0, drop_0.
Qed.

Definition has_ptr (p : nat) (r : ref) : bool := Nat.eqb (fst r) p.

Lemma filter_all {A} (f : A → bool) l : Forall (λ x, f x = true) l → List.filter f l = l.
Proof. induction 1 as [|x l Hx _ IH]; [done|]. simpl. by rewrite Hx, IH. Qed.

Lemma remove_range_none n i p arr h :
  Forall (λ r, has_ptr p r = false) (drop i arr) → remove_range n i p arr h = Ret (tt, h).
Proof.
  revert i. induction n as [|n IH]; intros i H; [done|]. cbn [remove_range].
  destruct (arr !! i) as [r|] eqn:E; [|done]. rewrite (drop_S _ _ _ E) in H.
  apply Forall_cons in H as [Hr H]. unfold has_ptr in Hr. rewrite Hr. by apply IH.
Qed.

(** The loop stops removing at the only field with the pointer [p]. *)
Lemma remove_range_found a b p f h :
  h_fields h = a ++ (p, f) :: b → Forall (λ r, has_ptr p r = false) b →
  remove_range (S (length b)) (length a) p (h_fields h) h = Ret (tt, set_fields (a ++ b) h).
Proof.
  intros E Hb. cbn [remove_range]. rewrite E, list_lookup_middle by done. cbn [fst]. rewrite Nat.eqb_refl.
  rewrite (pbind_ret (RemoveAt _) _ h tt (set_fields (a ++ b) h)).
  2:{ rewrite RemoveAt_eq by (rewrite E, length_app; simpl; lia).
      rewrite E, take_app_length, (cons_middle _ a b), app_assoc, drop_app_length' by (rewrite length_app; simpl; lia).
      done. }
  rewrite (pbind_ret (gets (λ h, length (h_fields h))) _ _ _ _ eq_refl), (pbind_ret (gets h_fields) _ _ _ _ eq_refl).
  cbn [set_fields h_fields]. apply remove_range_none.
  destruct b as [|r b] using rev_ind; [rewrite drop_ge; [done|]; rewrite !length_app, length_drop, !length_app; simpl; lia|].
  clear IHb. apply Forall_forall. intros x Hx. rewrite Forall_forall in Hb. apply Hb.
  rewrite drop_app_le in Hx by (rewrite !length_app; simpl; lia). apply elem_of_app in Hx as [Hx | Hx].
  - rewrite <- Nat.add_1_r, drop_app_add in Hx. destruct b; simpl in Hx; [by apply not_elem_of_nil in Hx | by right].
  - replace (length (a ++ b ++ [r])) with (length (a ++ (p, f) :: b)) in Hx by (rewrite !length_app; simpl; lia).
    rewrite (app_comm_cons b [r]), app_assoc, drop_app_length in Hx. apply elem_of_app. by right.
Qed.

Lemma not_ptr p (l : list ref) : p ∉ map fst l → Forall (λ r, has_ptr p r = false) l.
Proof.
  intros H. apply Forall_forall. intros r Hr. apply Nat.eqb_neq. intros <-. apply H.
  apply list_elem_of_In, in_map. by apply list_elem_of_In.
Qed.

Lemma Remove_eq r h :
  NoDup (map fst (h_fields h)) →
  Remove r h = Ret (tt, set_fields (List.filter (λ x, negb (has_ptr (fst r) x)) (h_fields h)) h).
Proof.
  intros Hd. unfold Remove. rewrite (pbind_ret (gets h_fields) _ h _ h eq_refl).
  destruct (decide (fst r ∈ map fst (h_fields h))) as [Hin | Hin].
  - apply list_elem_of_fmap in Hin as ([p f] & Hp & Hin). simpl in Hp. rewrite Hp.
    apply list_elem_of_split in Hin as (a & b & E). rewrite E in Hd. rewrite map_app in Hd. cbn [map fst] in Hd.
    apply NoDup_app in Hd as (_ & Ha & [Hb _]%NoDup_cons). apply not_ptr in Hb.
    assert (Forall (λ r, has_ptr p r = false) a) as Ha'.
    { apply not_ptr. intros Hin. apply (Ha p Hin). by left. }
    assert (∀ k, (k ≤ length a)%nat →
      remove_range (length a - k + S (length b)) k p (h_fields h) h = Ret (tt, set_fields (a ++ b) h)) as Hk.
    { intros k. remember (length a - k)%nat as d eqn:Ed. revert k Ed. induction d as [|d IH]; intros k Ed Hk.
      - replace k with (length a) by lia. by apply (remove_range_found a b p f).
      - cbn [Nat.add remove_range]. rewrite E, lookup_app_l by lia.
        destruct (lookup_lt_is_Some_2 a k) as [x Hx]; [lia|]. rewrite Hx.
        pose proof (proj1 (Forall_lookup _ _) Ha' k x Hx) as Hxp. unfold has_ptr in Hxp. rewrite Hxp, <- E.
        apply IH; lia. }
    specialize (Hk 0%nat ltac:(lia)). rewrite Nat.sub_0_r in Hk.
    replace (length (h_fields h)) with (length a + S (length b))%nat by (rewrite E, length_app; done).
    rewrite Hk, E, List.filter_app. cbn [List.filter]. unfold has_ptr at 2. cbn [fst]. rewrite Nat.eqb_refl. cbn [negb].
    rewrite !filter_all; [done | |].
    + eapply Forall_impl; [exact Hb|]. by intros x ->.
    + eapply Forall_impl; [exact Ha'|]. by intros x ->.
  - apply not_ptr in Hin. rewrite remove_range_none by (by rewrite drop_0).
    rewrite filter_all by (eapply Forall_impl; [exact Hin|]; by intros x ->). by destruct h.
Qed.

(** ** The invariant of headers *)

Definition good_field (f : Field) : Prop := typed f ∧ distinct (field_params f).

(** A field whose name satisfies [N]. *)
Definition ok_field (N : str → Prop) (f : Field) : Prop := good_field f ∧ N (field_name f).

(** The names the fields of a header can have, and its default types. *)
Record names := { allowed :> str → Prop; default_in : defaultContentType → Prop }.

Definition any_names : names := {| allowed _ := True; default_in _ := True |}.

(** No pointer occurs twice, every pointer was made by [alloc], every field has
    the Go type its name calls for and parameters with distinct names, and the
    names of the fields and the default type are among [N]. *)
Record inv (N : names) (h : Header) : Prop := {
  inv_ptrs : NoDup (map fst (h_fields h));
  inv_old : Forall (λ r, (fst r < h_next h)%nat) (h_fields h);
  inv_ok : Forall (λ r, ok_field N (snd r)) (h_fields h);
  inv_default : default_in N (defaultType h)
}.

Abbreviation wf_header := (inv any_names).

(** The headers [ReadHeader] makes. *)
Definition read_names : names := {| allowed _ := True; default_in d := d = TextPlainContentType |}.

Lemma inv_mono (N M : names) h :
  (∀ n, N n → M n) → (∀ d, default_in N d → default_in M d) → inv N h → inv M h.
Proof.
  intros Hn Hd [H1 H2 H3 H4]. split; [done | done | | auto]. eapply Forall_impl; [exact H3|].
  intros r [? ?]. split; auto.
Qed.

Lemma inv_wf N h : inv N h → wf_header h.
Proof. by apply inv_mono. Qed.

(** A property that holds of a header also after fields are removed, and that
    does not depend on what [verify] records. *)
Class shrinks (P : Header → Prop) : Prop := {
  shrink_fields h fs : fs `sublist_of` h_fields h → P h → P (set_fields fs h);
  shrink_verify h b e : P h → P (set_err e (set_verified b h))
}.

Lemma sublist_Forall {A} (Q : A → Prop) l k : l `sublist_of` k → Forall Q k → Forall Q l.
Proof. induction 1 as [|x l k _ IH|x l k _ IH]; rewrite ?Forall_cons; [done | tauto | tauto]. Qed.

#[global] Instance inv_shrinks N : shrinks (inv N).
Proof.
  split.
  - intros h fs Hs [H1 H2 H3 H4]. split; cbn [set_fields h_fields h_next].
    + eapply sublist_NoDup; [exact H1 | by apply (fmap_sublist fst)].
    + eapply sublist_Forall; [exact Hs | done].
    + eapply sublist_Forall; [exact Hs | done].
    + done.
  - intros h b e [H1 H2 H3 H4]. by split.
Qed.

Lemma filter_sublist {A} (f : A → bool) l : List.filter f l `sublist_of` l.
Proof. induction l as [|x l IH]; simpl; [done|]. case_if; by constructor. Qed.

Section Shrink.
Context {P : Header → Prop} {HP : shrinks P}.

Lemma hk_remove_where cond : hkeeps P (remove_where cond) (λ _, True).
Proof. intros h Hh. rewrite remove_where_eq. split; [|done]. apply shrink_fields; [apply filter_sublist | done]. Qed.

Lemma hk_RemoveAt i : hkeeps P (RemoveAt i) (λ _, True).
Proof.
  intros h Hh. destruct (decide (i < length (h_fields h))%nat) as [Hi|Hi].
  - rewrite RemoveAt_eq by done. split; [|done]. apply shrink_fields; [|done].
    rewrite <- (take_drop i (h_fields h)) at 3. apply sublist_app; [done|].
    rewrite <- (Nat.add_1_r i), <- drop_drop. apply sublist_drop.
  - unfold RemoveAt. rewrite (pbind_ret (gets h_fields) _ h _ h eq_refl).
    apply Nat.ltb_nlt in Hi. by rewrite Hi.
Qed.

Lemma hk_remove_range n i p arr : hkeeps P (remove_range n i p arr) (λ _, True).
Proof.
  revert i arr. induction n as [|n IH]; intros i arr; cbn [remove_range]; [by hstep|].
  repeat hstep; try done; [apply hk_RemoveAt | apply IH..].
Qed.

Lemma hk_Remove r : hkeeps P (Remove r) (λ _, True).
Proof. unfold Remove. hstep. apply hk_remove_range. Qed.

Lemma hk_verify : hkeeps P verify (λ _, True).
Proof.
  intros h Hh. unfold verify. rewrite (pbind_ret (gets verified) _ h _ h eq_refl).
  destruct (verified h); [done|]. rewrite (pbind_ret (modify _) _ h _ _ eq_refl).
  rewrite (pbind_ret (gets h_fields) _ _ _ _ eq_refl).
  assert (∀ e, P (set_err e (set_err None (set_verified true h)))) as He
    by (intros e; exact (shrink_verify h true e Hh)).
  destruct (first_invalid _) as [[p f]|]; [by split|].
  rewrite (pbind_ret (gets h_mode) _ _ _ _ eq_refl). by split.
Qed.

Lemma hk_Valid : hkeeps P Header_Valid (λ _, True).
Proof. apply hk_seq; [apply hk_verify | intros _]. by apply hk_gets. Qed.
End Shrink.

(** [verify] does not change the fields. *)
Lemma verify_fields h : post (verify h) (λ '(_, h'), h_fields h' = h_fields h ∧ h_next h' = h_next h
  ∧ h_mode h' = h_mode h ∧ numBytes h' = numBytes h ∧ defaultType h' = defaultType h ∧ verified h' = true).
Proof.
  unfold verify. rewrite (pbind_ret (gets verified) _ h _ h eq_refl).
  destruct (verified h) eqn:Ev; [done|]. rewrite (pbind_ret (modify _) _ h _ _ eq_refl).
  rewrite (pbind_ret (gets h_fields) _ _ _ _ eq_refl). by destruct (first_invalid _) as [[p f]|].
Qed.

(** A loop with a body that does not change the fields. *)
Lemma hk_sweep {S} {P : Header → Prop} {HP : shrinks P} n i (st : S) body :
  (∀ st r fs, hkeeps (λ h, P h ∧ h_fields h = fs) (body st r) (λ _, True)) →
  ∀ h, P h → (length (h_fields h) ≤ i + n)%nat → post (sweep n i st body h) (λ '(_, h'), P h').
Proof.
  intros Hb. revert i st. induction n as [|n IH]; intros i st h Hh Hn; cbn [sweep];
    rewrite (pbind_ret (gets h_fields) _ h _ h eq_refl);
    destruct (h_fields h !! i) as [r|] eqn:E; try done.
  { apply lookup_lt_Some in E. lia. }
  eapply pbind_post; [by apply (Hb st r (h_fields h))|]. intros [rm st'] h' [[Hh' Ef] _].
  apply lookup_lt_Some in E. destruct rm.
  - assert (i < length (h_fields h'))%nat as Hi by by rewrite Ef.
    rewrite (pbind_ret (RemoveAt i) _ h' _ _ (RemoveAt_eq i h' Hi)). apply IH; [|cbn [set_fields h_fields]; rewrite length_app, length_take, length_drop, Ef; lia].
    pose proof (hk_RemoveAt i h' Hh') as H. rewrite RemoveAt_eq in H by done. apply H.
  - apply IH; [done | rewrite Ef; lia].
Qed.

Lemma hk_sweep_all {S} {P : Header → Prop} {HP : shrinks P} (st : S) body :
  (∀ st r fs, hkeeps (λ h, P h ∧ h_fields h = fs) (body st r) (λ _, True)) →
  hkeeps P (sweep_all st body) (λ _, True).
Proof.
  intros Hb h Hh. unfold sweep_all. rewrite (pbind_ret (gets _) _ h _ h eq_refl).
  eapply post_mono; [apply (hk_sweep (P := P)); [done | done | lia]|]. by intros [a h'].
Qed.

(** ** Lookup *)

Lemma find_field_elem fn n fs r : find_field fn n fs = Some r → r ∈ fs ∧ field_name (snd r) = fn.
Proof.
  revert n. induction fs as [|x fs IH]; intros n; [done|]. cbn [find_field].
  destruct (field_name (snd x) ==s fn) eqn:E; [destruct n as [|n]|]; breflect.
  - intros [= ->]. split; [by left | done].
  - intros [H ?]%IH. split; [by right | done].
  - intros [H ?]%IH. split; [by right | done].
Qed.

Section Inv.
Context {N : names}.

Lemma ok_same f g :
  field_name g = field_name f → kind g = kind f → distinct (field_params g) → ok_field N f → ok_field N g.
Proof. intros Hn Hk Hd [[Ht _] HN]. split; [split; [by eapply typed_kind | done] | by rewrite Hn]. Qed.

Lemma inv_field h fn n r : inv N h → field fn n h = Some r → ok_field N (snd r) ∧ field_name (snd r) = fn.
Proof.
  intros [_ _ Hok _] [Hin Hn]%find_field_elem. split; [|done]. by apply (proj1 (Forall_forall _ _) Hok) in Hin.
Qed.

Lemma inv_addressField h fn n p f :
  inv N h → addressField fn n h = Some (p, f) → ok_field N (FAddress f) ∧ field_name (FAddress f) = fn.
Proof.
  intros Hh. unfold addressField. case_if; [|done].
  destruct (field fn n h) as [[q [g|g|g|g|g|g|g]]|] eqn:E; try done. intros [= -> ->].
  by apply (inv_field _ _ _ _ Hh) in E.
Qed.

(** An address field with other addresses or another error is as good. *)
Lemma ok_address f g :
  hf_name (af_hf g) = hf_name (af_hf f) → ok_field N (FAddress f) → ok_field N (FAddress g).
Proof. intros Hn. by apply ok_same; [..|constructor]. Qed.

Lemma put_field_ptrs p f fs : map fst (put_field p f fs) = map fst fs.
Proof.
  unfold put_field. rewrite map_map. apply map_ext. intros r. case_if; [|done]. by apply Nat.eqb_eq in Heqb.
Qed.

Lemma Forall_put (Q : ref → Prop) p f fs : Q (p, f) → Forall Q fs → Forall Q (put_field p f fs).
Proof. intros Hf. induction 1 as [|r fs Hr _ IH]; [done|]. simpl. constructor; [by case_if | done]. Qed.

Lemma hk_store p f : ok_field N f → hkeeps (inv N) (store p f) (λ _, True).
Proof.
  intros Hf. apply hk_modify. intros h [H1 H2 H3 H4]. split; cbn [set_fields h_fields h_next].
  - by rewrite put_field_ptrs.
  - rewrite Forall_forall in H2 |- *. intros r Hr. assert (fst r ∈ map fst (h_fields h)) as Hin.
    { rewrite <- (put_field_ptrs p f). apply list_elem_of_In, in_map. by apply list_elem_of_In. }
    apply list_elem_of_fmap in Hin as (x & -> & Hx). by apply H2.
  - by apply Forall_put.
  - done.
Qed.

Lemma append_addresses_hf l f : hf_name (af_hf (append_addresses l f)) = hf_name (af_hf f).
Proof. by destruct l. Qed.

(** A pointer that is not in the header. *)
Definition fresh_for (h : Header) (p : nat) : Prop := (p < h_next h)%nat ∧ p ∉ map fst (h_fields h).

Lemma inv_push h r :
  inv N h → fresh_for h (fst r) → ok_field N (snd r) → inv N (set_verified false (set_fields (h_fields h ++ [r]) h)).
Proof.
  intros [H1 H2 H3 H4] [Hlt Hin] Hr. split; cbn [set_verified set_fields h_fields h_next].
  - rewrite map_app. apply NoDup_app. split; [done|]. split; [|by apply NoDup_singleton].
    intros x Hx Hx'%list_elem_of_singleton. simpl in Hx'. congruence.
  - apply Forall_app. by split; [|constructor].
  - apply Forall_app. by split; [|constructor].
  - done.
Qed.

Lemma addField_post r h :
  inv N h → fresh_for h (fst r) → ok_field N (snd r) → post (addField r h) (λ '(_, h'), inv N h').
Proof.
  intros Hh Hf Hr. unfold addField. assert (inv N (set_verified false (set_fields (h_fields h ++ [r]) h))) as Hp
    by by apply inv_push.
  case_if; [|done]. rewrite (pbind_ret (gets _) _ h _ h eq_refl). destruct (snd r) as [?|next|?|?|?|?|?]; try done.
  destruct (addressField _ 0 h) as [[p f]|] eqn:E; [|done].
  eapply post_mono; [eapply hk_store; [|exact Hh]|by intros [a h'] [? _]].
  apply (ok_address f); [apply append_addresses_hf|]. exact (proj1 (inv_addressField _ _ _ _ _ Hh E)).
Qed.

(** A header with one more field. *)
Definition added (f : Field) (h : Header) : Header :=
  {| h_fields := h_fields h ++ [(h_next h, f)]; h_next := S (h_next h); defaultType := defaultType h;
     h_mode := h_mode h; numBytes := numBytes h; h_err := h_err h; verified := false |}.

Lemma Add_added `{U : UnicodeCase} `{CS : Charset} `{L : Local} key value f h :
  NewHeaderField key value = Ret f → among merged_names (field_name f) = false →
  Add key value h = Ret (tt, added f h).
Proof.
  intros E Hn. unfold Add. rewrite (pbind_ret (lift _) _ h f h) by (unfold lift; by rewrite E).
  rewrite (pbind_ret (alloc f) _ h _ _ eq_refl). unfold addField. cbn [snd]. by rewrite Hn.
Qed.

Lemma alloc_post f h :
  inv N h → ∃ h', alloc f h = Ret ((h_next h, f), h') ∧ inv N h' ∧ fresh_for h' (h_next h)
    ∧ h_fields h' = h_fields h.
Proof.
  intros [H1 H2 H3 H4]. eexists. split; [reflexivity|]. split; [split; cbn [h_fields h_next]; [done| |done|done]|].
  - eapply Forall_impl; [exact H2|]. intros r Hr. simpl in *. lia.
  - split; [|done]. split; cbn [h_fields h_next]; [lia|]. intros Hin.
    apply list_elem_of_fmap in Hin as (r & Hr & Hin). apply (proj1 (Forall_forall _ _) H2) in Hin. lia.
Qed.

Lemma hk_alloc_add_then {A} f (k : ref → hm A) Q :
  ok_field N f → (∀ p, hkeeps (inv N) (k (p, f)) Q) →
  hkeeps (inv N) (r ← alloc f; _ ← addField r; k r) Q.
Proof.
  intros Hf Hk h Hh. destruct (alloc_post f h Hh) as (h' & E & Hh' & Hfr & _).
  rewrite (pbind_ret _ _ _ _ _ E). eapply pbind_post; [by apply addField_post|]. intros u h'' Hh''. by apply Hk.
Qed.

Lemma hk_alloc_add f : ok_field N f → hkeeps (inv N) (r ← alloc f; addField r) (λ _, True).
Proof.
  intros Hf h Hh. destruct (alloc_post f h Hh) as (h' & E & Hh' & Hfr & _).
  rewrite (pbind_ret _ _ _ _ _ E). eapply post_mono; [by apply addField_post|]. by intros [a h''].
Qed.
End Inv.

(** ** Calls that end *)

Create HintDb ends discriminated.

(** Splits a call into the calls it is made of. *)
Ltac solve_ends :=
  repeat first
    [ done
    | solve [auto with ends]
    | match goal with
      | |- ends (_ ≫= _) => apply bind_ends; [|intros ? _]
      | |- ends (if ?b then _ else _) => destruct b eqn:?
      | |- ends (match ?x with _ => _ end) => destruct x eqn:?
      end ].

Lemma wrap_ends s n first other eol : ends (wrap s n first other eol).
Proof.
  unfold wrap. enough (∀ buf ls sp, ends (wrap_loop n other eol s buf ls sp)) by auto.
  induction s as [|c s IH]; intros buf ls sp; [done|]. cbn [wrap_loop]. case_if; [|apply IH].
  unfold soft_break, truncate. apply bind_ends; [solve_ends|]. intros [[b l] p] _. apply IH.
Qed.

Lemma encodeText_ends s : ends (encodeText s).
Proof.
  unfold encodeText. apply bind_ends; [|done].
  by destruct (encode_text_loop_returns (length (Split s [SP])) (Split s [SP]) [] ltac:(done)) as [r ->].
Qed.

#[export] Hint Resolve simplify_ends section_ends slice_ends from_ends at_ends wrap_ends encodeText_ends
  toString_ends lpdomain_ends print_localpart_ends Uniquify_ends : ends.

Lemma address_lines_ends refs avoid wsep lsep lpos first c s l :
  ends (address_lines refs avoid wsep lsep lpos first c s l).
Proof.
  revert first c s. induction l as [|a l IH]; intros first c s; [done|]. cbn [address_lines].
  apply bind_ends; [auto with ends | intros t _]. cbv zeta. by case_if; [|case_if]; apply IH.
Qed.

Lemma AddressField_rfc822_ends avoid f : ends (AddressField_rfc822 avoid f).
Proof. unfold AddressField_rfc822, folded_value. cbv zeta. solve_ends; apply address_lines_ends. Qed.
#[export] Hint Resolve AddressField_rfc822_ends : ends.

Lemma field_rfc822_ends avoid f : ends (field_rfc822 avoid f).
Proof. destruct f; cbn [field_rfc822]; unfold HeaderField_rfc822; solve_ends. Qed.
#[export] Hint Resolve field_rfc822_ends : ends.

Lemma field_value_ends `{Charset} f : ends (field_value f).
Proof. destruct f; cbn [field_value]; unfold AddressField_Value; solve_ends. Qed.
#[export] Hint Resolve field_value_ends : ends.

(** ** The methods keep the invariant *)

Create HintDb hkeeps discriminated.
#[export] Hint Resolve inv_shrinks hk_remove_where hk_Remove hk_RemoveAt hk_verify hk_Valid hk_store : hkeeps.

(** Runs through an action, with the lemmas on the methods it calls.  ([done]
    would run the action.) *)
Ltac hdone := lazymatch goal with |- hkeeps _ _ _ => assumption | |- ends _ => assumption | |- _ => done end.
Ltac hgo := repeat first [hdone | solve [auto with hkeeps] | hstep | lazymatch goal with |- ends _ => solve [solve_ends] end].

(** The name of the field [NewHeaderField] makes. *)
Definition new_name (key : str) : str :=
  if among [DateFieldName; OrigDateFieldName; ResentDateFieldName] (headerCase key)
  then DateFieldName else headerCase key.

Section Methods.
Context {U : UnicodeCase} {CS : Charset} {L : Local} {CL : CharsetLaws CS}.
Context {N : names}.

Lemma NewHeaderField_ok key value :
  N (new_name key) → post (NewHeaderField key value) (ok_field N).
Proof.
  intros HN. pose proof (NewHeaderField_ends key value) as He.
  destruct (NewHeaderField key value) as [f| |] eqn:E; [|done..]. simpl.
  pose proof (NewHeaderField_kind key value f E) as [Ht Hn]. pose proof (NewHeaderField_distinct key value f E).
  split; [by split|]. by rewrite Hn.
Qed.

Lemma hk_Add key value : N (new_name key) → hkeeps (inv N) (Add key value) (λ _, True).
Proof.
  intros HN. eapply hk_bind; [by apply hk_lift, NewHeaderField_ok|]. intros f Hf. by apply hk_alloc_add.
Qed.

(** The same for a name that is its own canonical form. *)
Lemma hk_Add_named key value n : new_name key = n → N n → hkeeps (inv N) (Add key value) (λ _, True).
Proof. intros <-. apply hk_Add. Qed.

Lemma hk_RemoveAllNamed {P : Header → Prop} {HP : shrinks P} name : hkeeps P (RemoveAllNamed name) (λ _, True).
Proof. apply hk_remove_where. Qed.

Lemma hk_uniquify_fields names : hkeeps (inv N) (uniquify_fields names) (λ _, True).
Proof.
  induction names as [|fn names IH]; cbn [uniquify_fields]; [by hstep|]. hstep. hstep; [|apply IH].
  destruct (addressField fn 0 h) as [[p f]|] eqn:E; [|by hstep].
  apply (inv_addressField _ _ _ _ _ H) in E as [Hf _]. repeat hstep; auto with ends.
  apply hk_store. by apply (ok_address f).
Qed.

(** *** The accessors

    They give the field with the Go type they assert, or nil. *)
Definition gives_ref {A} (con : A → Field) (m : outcome (option (nat * A))) : Prop :=
  ∃ r, m = Ret r ∧ ∀ p f, r = Some (p, f) → ok_field N (con f).

Lemma gives_ref_ends {A} con (m : outcome (option (nat * A))) : gives_ref con m → ends m.
Proof. by intros (r & -> & _). Qed.

Ltac accessor :=
  let E := fresh in let Hok := fresh in let Hn := fresh in let Ht := fresh in
  match goal with Hh : inv _ _ |- context [field ?fn 0 ?h] =>
    destruct (field fn 0 h) as [[p f]|] eqn:E; [|by eexists];
    apply (inv_field _ _ _ _ Hh) in E as [Hok Hn]; pose proof (proj1 (proj1 Hok)) as Ht;
    unfold typed in Ht; cbn [snd] in *;
    destruct f; try (rewrite Hn in Ht; discriminate); (eexists; split; [done|]; by intros ? ? [= <- <-])
  end.

Lemma Header_ContentType_gives h : inv N h → gives_ref FContentType (Header_ContentType h).
Proof. intros Hh. unfold Header_ContentType. accessor. Qed.

Lemma Header_ContentTransferEncoding_gives h :
  inv N h → gives_ref FEncoding (Header_ContentTransferEncoding h).
Proof. intros Hh. unfold Header_ContentTransferEncoding. accessor. Qed.

Lemma Header_ContentDisposition_gives h : inv N h → gives_ref FDisposition (Header_ContentDisposition h).
Proof. intros Hh. unfold Header_ContentDisposition. accessor. Qed.

Lemma Header_ContentLanguage_gives h : inv N h → gives_ref FLanguage (Header_ContentLanguage h).
Proof. intros Hh. unfold Header_ContentLanguage. accessor. Qed.

(** A type switch on an accessor's result. *)
Lemma hk_accessor {A B} (con : A → Field) (m : outcome (option (nat * A))) (k : _ → hm B) Q :
  gives_ref con m → (∀ p f, ok_field N (con f) → hkeeps (inv N) (k (Some (p, f))) Q) →
  hkeeps (inv N) (k None) Q → hkeeps (inv N) (lift m ≫= k) Q.
Proof.
  intros (r & -> & Hr) Hs Hn. apply hk_lift_bind; [done|]. intros a [= <-]. destruct r as [[p f]|]; eauto.
Qed.

End Methods.
#[export] Hint Resolve hk_RemoveAllNamed hk_uniquify_fields : hkeeps.

(** Steps into the result of an accessor. *)
Ltac haccess :=
  lazymatch goal with
  | |- hkeeps _ (lift (Header_ContentType _) ≫= _) _ =>
      eapply hk_accessor; [by apply Header_ContentType_gives | intros ? ? ? |]
  | |- hkeeps _ (lift (Header_ContentTransferEncoding _) ≫= _) _ =>
      eapply hk_accessor; [by apply Header_ContentTransferEncoding_gives | intros ? ? ? |]
  | |- hkeeps _ (lift (Header_ContentDisposition _) ≫= _) _ =>
      eapply hk_accessor; [by apply Header_ContentDisposition_gives | intros ? ? ? |]
  end.

(** *** [Simplify] *)

Section Simplify.
Context {U : UnicodeCase} {CS : Charset} {L : Local} {CL : CharsetLaws CS}.
Context {N : names}.

Lemma prints_empty_ends r : ends (prints_empty r).
Proof. unfold prints_empty. solve_ends. Qed.
Hint Resolve prints_empty_ends : ends.

Lemma hk_simplify_description : hkeeps (inv N) simplify_description (λ _, True).
Proof. unfold simplify_description. hgo. Qed.

Lemma hk_simplify_encoding : hkeeps (inv N) simplify_encoding (λ _, True).
Proof. unfold simplify_encoding. hstep. haccess; hgo. Qed.

Lemma hk_simplify_disposition : hkeeps (inv N) simplify_disposition (λ _, True).
Proof. unfold simplify_disposition. hstep. haccess; [haccess|]; hgo. Qed.

Definition ok_type (r : option (nat * ContentType)) : Prop := ∀ p f, r = Some (p, f) → ok_field N (FContentType f).

Lemma hk_simplify_type cde cte cdi :
  N ContentTypeFieldName → hkeeps (inv N) (simplify_type cde cte cdi) ok_type.
Proof.
  intros HN. unfold simplify_type. hstep. haccess.
  - hstep; [|hstep; by intros ? ? [= <- <-]]. eapply hk_bind; [apply hk_RemoveAllNamed|]. intros _ _. by hstep.
  - hstep; [|by hstep]. eapply hk_bind; [by apply (hk_Add_named _ _ ContentTypeFieldName)|]. intros _ _. hstep.
    apply hk_lift. unfold id. by destruct (Header_ContentType_gives h0 H0) as (r & -> & Hr).
Qed.

Lemma hk_simplify_version a b c d :
  N MIMEVersionFieldName → hkeeps (inv N) (simplify_version a b c d) (λ _, True).
Proof. intros HN. unfold simplify_version. hgo. by apply (hk_Add_named _ _ MIMEVersionFieldName). Qed.

Lemma hk_simplify_charset ct : ok_type ct → hkeeps (inv N) (simplify_charset ct) (λ _, True).
Proof.
  intros Hct. unfold simplify_charset. destruct ct as [[p f]|]; [|by hstep]. hstep; [|by hstep].
  specialize (Hct p f eq_refl). apply hk_store. apply (ok_same (FContentType f)); [done..| |done].
  apply removeParameter_distinct, Hct.
Qed.

Lemma hk_simplify_errors_to : hkeeps (inv N) simplify_errors_to (λ _, True).
Proof. unfold simplify_errors_to. hgo. Qed.

Lemma hk_simplify_same fn : hkeeps (inv N) (simplify_same fn) (λ _, True).
Proof. unfold simplify_same. hgo. Qed.

Lemma hk_remove_empty names : hkeeps (inv N) (remove_empty names) (λ _, True).
Proof. induction names as [|fn names IH]; cbn [remove_empty]; hgo. Qed.
Hint Resolve hk_simplify_description hk_simplify_encoding hk_simplify_disposition hk_simplify_version
  hk_simplify_charset hk_simplify_errors_to hk_simplify_same hk_remove_empty : hkeeps.

Lemma hk_Simplify :
  N ContentTypeFieldName → N MIMEVersionFieldName → hkeeps (inv N) Simplify (λ _, True).
Proof.
  intros H1 H2. unfold Simplify. do 6 (hstep; [by auto with hkeeps|]).
  eapply hk_bind; [by apply hk_simplify_type|]. intros ct Hct. hgo.
Qed.

End Simplify.

(** *** [ReadHeader] *)

Lemma skip_unbounded_ends ok s i : ends (skip_unbounded ok s i).
Proof. unfold skip_unbounded. solve_ends. Qed.

Lemma skip_mbox_line_ends s i : ends (skip_mbox_line s i).
Proof. unfold skip_mbox_line. apply bind_ends; [apply skip_unbounded_ends | done]. Qed.

Lemma skip_while_ge ok s i : i ≤ skip_while ok s i.
Proof. unfold skip_while. lia. Qed.

Lemma skip_unbounded_ge ok s i k : skip_unbounded ok s i = Ret k → i ≤ k.
Proof.
  unfold skip_unbounded. cbv zeta. destruct (at_ s _); simpl; [|done..]. intros [= <-]. apply skip_while_ge.
Qed.

Lemma skip_bom_ge s i : i ≤ skip_bom s i.
Proof. unfold skip_bom. destruct (drop _ s) as [|a [|b [|c l]]]; try lia. case_if; lia. Qed.

Lemma slice_le s i j v : slice s i j = Ret v → i ≤ j.
Proof. unfold slice. case_if; [|done]. intros _. breflect. lia. Qed.

Section Reading.
Context {U : UnicodeCase} {CS : Charset} {L : Local} {CL : CharsetLaws CS}.

Lemma hk_read_field s i j : hkeeps (inv read_names) (read_field s i j) (λ k, j < k).
Proof.
  unfold read_field. hstep; [auto with ends|]. hstep; [apply skip_unbounded_ends|].
  apply skip_unbounded_ge in H0. cbv zeta. do 2 (hstep; [auto with ends|]). apply slice_le in H1.
  eapply hk_bind; [hstep; [by apply hk_Add | by hstep]|]. intros _ _. hstep. case_if; lia.
Qed.

Lemma skip_mbox_line_gt s i k :
  i + 4 = skip_while name_char s i → skip_mbox_line s i = Ret k → i < k.
Proof.
  intros H4. unfold skip_mbox_line. destruct (skip_unbounded _ _ _) as [k'| |] eqn:E; simpl; [|done..].
  apply skip_unbounded_ge in E. intros [= <-]. assert (i < skip_while (λ c, negb ((c =b CR) || (c =b LF))) s i);
    [|case_if; lia].
  unfold skip_while in *. destruct (drop _ s) as [|c t]; cbn [take_while length] in *; [lia|].
  destruct (name_char c) eqn:Ec; [|simpl in H4; lia].
  assert (negb ((c =b CR) || (c =b LF)) = true) as -> by (clear - Ec; revert c Ec; byte_enum). simpl. lia.
Qed.

(** What one round of the loop tests. *)
Lemma mbox_test s i h :
  post ((if (skip_while name_char s i =? i + 4) && bool_decide (h_mode h = RFC5322Header)
         then t ← lift (slice s i (skip_while name_char s i + 1)); mret (ToLower t ==s $"from ")
         else mret false : hm bool) h)
    (λ '(b, h'), h' = h ∧ (b = true → i + 4 = skip_while name_char s i)).
Proof.
  destruct (_ && _) eqn:E; [|done]. apply andb_prop in E as [E%Z.eqb_eq _]. unfold lift. simpl.
  pose proof (slice_ends s i (skip_while name_char s i + 1)). destruct (slice _ _ _); simpl; [|done..].
  split; [done|]. lia.
Qed.

Lemma colon_test s i j mbox (h : Header) :
  post ((if negb mbox && (i <? j) then c ← lift (at_ s j); mret (c =b ":") else mret false : hm bool) h)
    (λ '(b, h'), h' = h).
Proof. case_if; [|done]. pose proof (at_ends s j). unfold lift. by destruct (at_ s j). Qed.

(** A line moves the position on. *)
Lemma hk_read_line s b (mbox : bool) :
  (mbox = true → b + 4 = skip_while name_char s b) →
  hkeeps (inv read_names) (if mbox then lift (skip_mbox_line s b) else read_field s b (skip_while name_char s b))
    (λ k, b < k).
Proof.
  intros Hmbox. destruct mbox.
  - apply hk_lift. pose proof (skip_mbox_line_ends s b). destruct (skip_mbox_line s b) eqn:E; [|done..].
    by apply (skip_mbox_line_gt s); [apply Hmbox|].
  - eapply hk_mono; [apply hk_read_field|]. intros k Hk. simpl in *. pose proof (skip_while_ge name_char s b). lia.
Qed.

(** The loop ends, at a position from the one it starts at on; where it does not
    move, no field was read. *)
Lemma read_loop_post n s i h :
  0 ≤ i → len s ≤ i + Z.of_nat n → inv read_names h →
  post (read_loop n s i h) (λ '(k, h'), inv read_names h' ∧ i ≤ k ∧ (k = i → h_fields h' = h_fields h)).
Proof.
  revert i h. induction n as [|n IH]; intros i h Hi Hn Hh; cbn [read_loop]; cbv zeta;
    pose proof (skip_bom_ge s i) as Hb; set (b := skip_bom s i) in *; clearbody b;
    rewrite (pbind_ret (gets h_mode) _ h _ h eq_refl);
    (eapply pbind_post; [apply mbox_test|]; intros mbox _ [-> Hmbox]);
    (eapply pbind_post; [apply colon_test|]; intros colon _ ->);
    (case_if; [by split_and!|]);
    (eapply pbind_post; [by apply hk_read_line|]; intros k h' [Hh' Hk]);
    (destruct (len s <=? i) eqn:Ed; breflect; [split_and!; [done | lia | lia]|]); [lia|].
  eapply post_mono; [apply IH; [lia | lia | done]|]. intros [k' h''] (H1 & H2 & _). split_and!; [done | lia | lia].
Qed.

Lemma ReadHeader_post s m :
  post (ReadHeader s m) (λ h, inv read_names h ∧ 0 ≤ numBytes h ∧ (numBytes h = 0 → h_fields h = [])).
Proof.
  unfold ReadHeader. assert (inv read_names (new_header m)) as Hw by (split; constructor).
  eapply post_bind; [apply (read_loop_post (S (length s)) s 0 _); [lia | lia | exact Hw]|].
  intros [i h] (Hh & Hi & H0). cbv zeta.
  assert (∀ k, i ≤ k → inv read_names (set_bytes k h) ∧ 0 ≤ numBytes (set_bytes k h)
    ∧ (numBytes (set_bytes k h) = 0 → h_fields (set_bytes k h) = [])) as Hk.
  { intros k Hk. split; [by destruct Hh|]. cbn [set_bytes numBytes h_fields]. split; [lia|].
    intros ->. apply H0. lia. }
  apply Hk. repeat case_if; lia.
Qed.
End Reading.

(** ** Validity *)

(** What [verify] asks of the number of fields of a name.  The mode matters for
    the lower bound only. *)
Definition satisfied (m : headerMode) (occ : str → Z) (c : HeaderFieldCondition) : Prop :=
  occ (c_name c) ≤ c_max c ∧ (c_m c = m → c_min c ≤ occ (c_name c)).

Lemma check_conditions_none cs m occ : check_conditions cs m occ = None ↔ Forall (satisfied m occ) cs.
Proof.
  induction cs as [|c cs IH]; [done|]. cbn [check_conditions]. rewrite Forall_cons, <- IH. unfold satisfied, in_mode.
  destruct (c_max c <? occ (c_name c)) eqn:E1; [rewrite orb_true_r; split; [done | lia]|]. rewrite orb_false_r.
  case_bool_decide as Em; cbn [andb].
  - destruct (occ (c_name c) <? c_min c) eqn:E2; [split; [done | intros [[_ H] _]; specialize (H Em); lia]|].
    split; [intros H; split; [|done]; split; lia | tauto].
  - split; [intros H; split; [|done]; split; [lia | done] | tauto].
Qed.

Lemma first_invalid_none fs : first_invalid fs = None ↔ Forall (λ r, field_valid (snd r) = true) fs.
Proof.
  unfold first_invalid. induction fs as [|r fs IH]; [done|]. cbn [List.find]. rewrite Forall_cons.
  destruct (field_valid (snd r)); cbn [negb]; [tauto | split; [done | by intros [? _]]].
Qed.

(** C12: a header that was not verified since its last change is
    valid if and only if every field is valid and every name occurs as often as
    the conditions allow.  The upper bounds hold for MIME headers too, also where
    the condition is about message headers. *)
Theorem Header_Valid_spec (h : Header) (Hv : verified h = false) :
  ∃ b h', Header_Valid h = Ret (b, h') ∧ h_fields h' = h_fields h ∧ verified h' = true
    ∧ (b = true ↔ Forall (λ r, field_valid (snd r) = true) (h_fields h)
                  ∧ Forall (satisfied (h_mode h) (occurrences (h_fields h))) conditions).
Proof.
  pose proof (first_invalid_none (h_fields h)) as H1.
  pose proof (check_conditions_none conditions (h_mode h) (occurrences (h_fields h))) as H2.
  unfold Header_Valid, verify, mbind, state_bind, gets, modify. rewrite Hv. cbn [set_err set_verified h_fields h_mode].
  destruct (first_invalid (h_fields h)) as [[p f]|]; (eexists _, _; split; [reflexivity|]);
    cbn [set_err set_verified h_fields h_err verified]; (split_and!; [done | done|]).
  - split; [done | by intros [?%H1 _]].
  - destruct (check_conditions conditions _ _); split; try done; [by intros [_ ?%H2] | by rewrite <- H1, <- H2].
Qed.

(** A MIME header with two To fields is not valid. *)
Lemma Header_Valid_spec_witness :
  let f := FAddress (NewAddressField ToFieldName) in
  let h := set_fields [(0%nat, f); (1%nat, f)] (new_header MIMEHeader) in
  ∃ b h', Header_Valid h = Ret (b, h') ∧ b = false.
Proof.
  intros f h. destruct (Header_Valid_spec h eq_refl) as (b & h' & E & _ & _ & Hb). exists b, h'. split; [exact E|].
  destruct b; [|reflexivity]. destruct (proj1 Hb eq_refl) as [_ H].
  apply (Forall_lookup_1 _ _ 2%nat (condition ToFieldName 0 1 RFC5322Header)) in H as [H _]; [|reflexivity].
  vm_compute in H. by destruct H.
Defined.

(** ** Removal *)

(** C16: the loops that delete fields from the slice they run over
    delete exactly the fields meant: [RemoveAllNamed] those of a name in any
    case, and in a well-formed header [Remove] the given field and no other. *)
Theorem removal_filters `{U : UnicodeCase} (h : Header) (name : str) (r : ref) (Hh : wf_header h) :
  RemoveAllNamed name h
    = Ret (tt, set_fields (List.filter (λ x, negb (ToLower (field_name (snd x)) ==s ToLower name)) (h_fields h)) h)
  ∧ Remove r h = Ret (tt, set_fields (List.filter (λ x, negb (Nat.eqb (fst x) (fst r))) (h_fields h)) h).
Proof. split; [apply remove_where_eq | apply Remove_eq, Hh]. Qed.

Lemma removal_filters_witness :
  let f := FHeader (hf_named SubjectFieldName) in
  let h := set_fields [(0%nat, f)] {| h_fields := []; h_next := 1; defaultType := TextPlainContentType;
             h_mode := RFC5322Header; numBytes := 0; h_err := None; verified := false |} in
  RemoveAllNamed (U := ascii_only_case) $"subject" h = Ret (tt, set_fields [] h).
Proof.
  intros f h. apply (removal_filters (U := ascii_only_case) h $"subject" (0%nat, f)). split.
  - apply NoDup_singleton.
  - by repeat constructor.
  - repeat constructor.
  - exact I.
Defined.
