(* ===== verification/ReadFacts.v ===== *)
(** * Theorems on reading headers: [ReadHeader] of [Header]

    A header block, a sequence of lines "name: value" followed by an empty line,
    is read as the sequence of its fields; and a header that is printed and read
    again has the same fields. *)

From S2P Require Import Prelude GoStrings GoTime Strings StringsFacts Codec Words WordsFacts.
From S2P Require Import Parser ParserFacts Address AddressFacts AddrParser AddrParserFacts AddrListFacts.
From S2P Require Import Fields FieldsFacts MIMEFacts Header HeaderFacts.
Open Scope Z_scope.

(** ** Positions *)

Lemma skip_while_at ok pre w t i :
  i = len pre → Forall (λ c, ok c = true) w → match t with c :: _ => ok c = false | [] => True end →
  skip_while ok (pre ++ w ++ t) i = i + len w.
Proof.
  intros -> Hw Ht. unfold skip_while. by rewrite Nat2Z.id, drop_app_length, take_while_app_stop.
Qed.

Lemma skip_unbounded_at ok pre w c t i :
  i = len pre → Forall (λ c, ok c = true) w → ok c = false →
  skip_unbounded ok (pre ++ w ++ c :: t) i = Ret (i + len w).
Proof.
  intros -> Hw Hc. unfold skip_unbounded. rewrite skip_while_at by done. cbv zeta.
  rewrite app_assoc, at_app; [done|]. rewrite length_app. lia.
Qed.

Lemma is_at_app pre c t i d : i = len pre → is_at (pre ++ c :: t) (Z.to_nat i) d = (c =b d).
Proof. intros ->. unfold is_at. by rewrite Nat2Z.id, list_lookup_middle. Qed.

(** ** Header blocks *)

Definition field_line (l : str * str) : str := fst l ++ $": " ++ snd l ++ crlf.

(** Every line break is followed by white space. *)
Fixpoint folded (v : str) : bool :=
  match v with
  | [] => true
  | c :: v' =>
      if c =b LF then match v' with d :: _ => ((d =b SP) || (d =b HT)) && folded v' | [] => false end
      else folded v'
  end.

(** A line that stands for the field [Add] makes of its name and value. *)
Record good_line (l : str * str) : Prop := {
  gl_name : fst l ≠ [];
  gl_chars : Forall (λ c, name_char c = true) (fst l);
  gl_start : match snd l with c :: _ => (c =b SP) || (c =b HT) = false | [] => True end;
  gl_folded : folded (snd l) = true;
  gl_value : ∃ t, simplify (snd l) = Ret t ∧ t ≠ []
}.

Definition no_fold (t : str) : Prop := match t with c :: _ => (c =b SP) || (c =b HT) = false | [] => True end.

Lemma value_length_line v rest :
  folded v = true → no_fold rest → value_length (v ++ crlf ++ rest) = S (length v).
Proof.
  intros Hv Hr. induction v as [|c v IH].
  - change (value_length (CR :: LF :: rest) = 1%nat). cbn [value_length].
    change (negb (CR =b LF)) with true. change (negb (LF =b LF)) with false. cbn [orb].
    destruct rest as [|d rest]; [done|]. cbn [no_fold] in Hr. by rewrite Hr.
  - cbn [folded] in Hv. change ((c :: v) ++ crlf ++ rest) with (c :: (v ++ crlf ++ rest)). cbn [value_length length].
    destruct (c =b LF); cbn [negb orb]; [|by rewrite IH].
    destruct v as [|d v]; [done|]. apply andb_prop in Hv as [Hd Hv].
    change ((d :: v) ++ crlf ++ rest) with (d :: (v ++ crlf ++ rest)) at 1. cbv iota beta. rewrite Hd. by rewrite IH.
Qed.

Section Reading.
Context {U : UnicodeCase} {CS : Charset} {L : Local}.

Lemma read_field_line pre l rest h :
  good_line l → no_fold rest →
  read_field (pre ++ field_line l ++ rest) (len pre) (len pre + len (fst l)) h
  = ('(_, h') ← Add (fst l) (snd l) h; Ret (len (pre ++ field_line l), h')).
Proof.
  destruct l as [n v]. intros [H1 H2 H3 H4 (t & Ht & Hne)] Hr. cbn [fst snd] in *. unfold read_field, field_line. cbn [fst snd].
  set (s := pre ++ (n ++ $": " ++ v ++ crlf) ++ rest).
  assert (s = pre ++ n ++ ($": " ++ v ++ crlf ++ rest)) as E1 by (unfold s; by rewrite <- !app_assoc).
  assert (s = (pre ++ n ++ $":") ++ [SP] ++ (v ++ crlf ++ rest)) as E2 by (unfold s; by rewrite <- !app_assoc).
  assert (s = (pre ++ n ++ $": ") ++ v ++ (crlf ++ rest)) as E3 by (unfold s; by rewrite <- !app_assoc).
  rewrite (pbind_ret (lift _) _ h n h) by (unfold lift; by rewrite E1, slice_app).
  set (k := len pre + len n + 2).
  assert (k = len (pre ++ n ++ $": ")) as Hk by (unfold k; rewrite !length_app; simpl; lia).
  rewrite (pbind_ret (lift _) _ h k h).
  2:{ unfold lift. rewrite E2. assert (∃ c u, v ++ crlf ++ rest = c :: u ∧ (c =b SP) || (c =b HT) = false) as (c & u & -> & Hc).
      { destruct v as [|c v]; [by eexists _, _ | by eexists c, _]. }
      rewrite skip_unbounded_at; [|rewrite !length_app; simpl; lia | by repeat constructor | done].
      by replace (len pre + len n + 1 + len [SP]) with k by (unfold k; simpl; lia). }
  cbv zeta. replace (value_length (drop (Z.to_nat k) s)) with (S (length v)).
  2:{ rewrite E3, Hk, Nat2Z.id, drop_app_length, value_length_line; done. }
  replace (k + Z.of_nat (S (length v)) - 1) with (k + len v) by lia.
  assert (s = (pre ++ n ++ $": " ++ v) ++ CR :: (LF :: rest)) as E4 by (unfold s; by rewrite <- !app_assoc).
  assert (s = (pre ++ n ++ $": " ++ v ++ [CR]) ++ LF :: rest) as E5 by (unfold s; by rewrite <- !app_assoc).
  assert (cr_at s (k + len v) = true) as Hcr by (unfold cr_at; rewrite E4, is_at_app; [done | rewrite !length_app in *; simpl in *; lia]).
  assert (lf_at s (k + len v + 1) = true) as Hlf by (unfold lf_at; rewrite E5, is_at_app; [done | rewrite !length_app in *; simpl in *; lia]).
  rewrite Hcr. replace (0 <? k + Z.of_nat (S (length v))) with true by lia. cbn [andb].
  rewrite (pbind_ret (lift _) _ h v h) by (unfold lift; by rewrite E3, slice_app by lia).
  rewrite (pbind_ret (lift _) _ h t h) by (unfold lift; by rewrite Ht).
  apply str_eqb_false in Hne. rewrite Hne, Hcr, Hlf. cbn [negb orb andb].
  replace (len (pre ++ n ++ $": " ++ v ++ crlf)) with (k + len v + 1 + 1) by (rewrite !length_app in *; simpl in *; lia).
  done.
Qed.

(** The fields of the lines, one after the other. *)
Fixpoint add_lines (ls : list (str * str)) : hm unit :=
  match ls with
  | [] => mret tt
  | (name, value) :: ls' => _ ← Add name value; add_lines ls'
  end.

Lemma add_lines_cons n v ls h : add_lines ((n, v) :: ls) h = ('(_, h') ← Add n v h; add_lines ls h').
Proof. cbn [add_lines]. unfold mbind at 1, state_bind. by destruct (Add n v h) as [[u h']| |]. Qed.

Definition header_block (ls : list (str * str)) : str := concat (map field_line ls).

Lemma not_mbox n : Forall (λ c, name_char c = true) n → (ToLower (n ++ $":") ==s $"from ") = false.
Proof.
  intros Hn. rewrite ToLower_ascii.
  - apply str_eqb_false. rewrite map_app. change (map lower_byte $":") with [":"%byte]. intros E.
    apply (f_equal last) in E. rewrite last_snoc in E. done.
  - unfold ascii_str. apply forallb_Forall, Forall_app. split; [|by repeat constructor].
    eapply Forall_impl; [exact Hn|]. intros c. clear. revert c. byte_enum.
Qed.

(** No byte order mark. *)
Lemma skip_bom_at pre c t i : i = len pre → (c =b xef) = false → skip_bom (pre ++ c :: t) i = i.
Proof.
  intros -> Hc. unfold skip_bom. rewrite Nat2Z.id, drop_app_length. destruct t as [|d [|e t]]; try done. by rewrite Hc.
Qed.

(** One round of the loop on a line. *)
Lemma read_loop_line k pre l rest h :
  good_line l → no_fold rest →
  read_loop (S k) (pre ++ field_line l ++ rest) (len pre) h
  = ('(_, h') ← Add (fst l) (snd l) h;
     read_loop k (pre ++ field_line l ++ rest) (len (pre ++ field_line l)) h').
Proof.
  intros Hl Hr. pose proof Hl as [H1 H2 _ _ _]. destruct l as [n v]. cbn [fst snd] in *.
  set (s := pre ++ field_line (n, v) ++ rest). cbn [read_loop]. cbv zeta.
  assert (s = pre ++ n ++ ($": " ++ v ++ crlf ++ rest)) as E1 by (unfold s, field_line; by rewrite <- !app_assoc).
  assert (s = pre ++ (n ++ $":") ++ ([SP] ++ v ++ crlf ++ rest)) as E2 by (unfold s, field_line; by rewrite <- !app_assoc).
  assert (s = (pre ++ n) ++ ":"%byte :: (SP :: v ++ crlf ++ rest)) as E3 by (unfold s, field_line; by rewrite <- !app_assoc).
  assert ((len s <=? len pre) = false) as -> by (rewrite E3, !length_app; destruct n; [done | simpl; lia]).
  replace (skip_bom s (len pre)) with (len pre).
  2:{ destruct n as [|c n]; [done|]. apply Forall_cons in H2 as [Hc _]. rewrite E1. symmetry. apply skip_bom_at; [done|].
      clear - Hc. revert c Hc. byte_enum. }
  replace (skip_while name_char s (len pre)) with (len pre + len n) by (rewrite E1; by rewrite skip_while_at).
  rewrite (pbind_ret (gets h_mode) _ h _ h eq_refl).
  rewrite (pbind_ret _ _ h false h).
  2:{ case_if; [|done]. rewrite (pbind_ret (lift _) _ h (n ++ $":") h).
      - by rewrite not_mbox.
      - unfold lift. rewrite E2, slice_app; [done | done|]. rewrite length_app. simpl. lia. }
  cbn [negb andb]. replace (len pre <? len pre + len n) with true by (destruct n; [done | simpl; lia]).
  rewrite (pbind_ret _ _ h true h).
  2:{ rewrite (pbind_ret (lift _) _ h ":"%byte h); [done|]. unfold lift. rewrite E3, at_app; [done|]. rewrite length_app. lia. }
  cbn [negb andb]. unfold mbind at 1, state_bind at 1.
  replace (read_field s (len pre) (len pre + len n) h) with
    ('(_, h') ← Add n v h; Ret (len (pre ++ field_line (n, v)), h')) by (symmetry; by apply (read_field_line pre (n, v) rest h)).
  destruct (Add n v h) as [[u h']| |]; done.
Qed.

Lemma no_fold_block ls body : Forall good_line ls → no_fold (header_block ls ++ crlf ++ body).
Proof.
  destruct 1 as [|[n v] ls [H1 H2 _ _ _] _]; [done|]. cbn [fst] in *. destruct n as [|c n]; [done|].
  apply Forall_cons in H2 as [Hc _]. unfold header_block, field_line. simpl. clear - Hc. revert c Hc. byte_enum.
Qed.

Lemma read_loop_end k pre body h :
  read_loop k (pre ++ crlf ++ body) (len pre) h = Ret (len pre, h).
Proof.
  assert (skip_bom (pre ++ crlf ++ body) (len pre) = len pre) as Hb by by apply (skip_bom_at pre CR (LF :: body)).
  assert (skip_while name_char (pre ++ crlf ++ body) (len pre) = len pre) as Hs.
  { change (crlf ++ body) with ([] ++ crlf ++ body). rewrite skip_while_at; [simpl; lia | done | constructor | done]. }
  destruct k; cbn [read_loop]; cbv zeta; rewrite Hb, Hs, (pbind_ret (gets h_mode) _ h _ h eq_refl);
    replace (len pre =? len pre + 4) with false by lia; rewrite Z.ltb_irrefl; done.
Qed.

Lemma read_loop_block ls k pre body h :
  Forall good_line ls → (length ls <= k)%nat →
  read_loop k (pre ++ header_block ls ++ crlf ++ body) (len pre) h
  = ('(_, h') ← add_lines ls h; Ret (len (pre ++ header_block ls), h')).
Proof.
  intros Hls. revert k pre h. induction Hls as [|[n v] ls Hl Hls IH]; intros k pre h Hk.
  - cbn [header_block map concat add_lines app]. rewrite read_loop_end. by rewrite app_nil_r.
  - cbn [length] in Hk. destruct k as [|k]; [lia|]. unfold header_block in *. cbn [map concat]. fold (header_block ls) in *.
    rewrite <- app_assoc, read_loop_line by (try done; by apply no_fold_block). rewrite add_lines_cons. cbn [fst snd].
    destruct (Add n v h) as [[u h1]| |]; [|done..]. cbn [mbind outcome_bind].
    rewrite app_assoc, IH by lia. by rewrite <- app_assoc.
Qed.

Lemma header_block_length ls : (length ls <= length (header_block ls))%nat.
Proof.
  induction ls as [|[n v] ls IH]; [done|]. unfold header_block in *. cbn [map concat]. rewrite length_app.
  unfold field_line at 1. rewrite !length_app. simpl. lia.
Qed.

(** A block is read as the fields of its lines. *)
Lemma ReadHeader_lines m ls body :
  Forall good_line ls →
  ReadHeader (header_block ls ++ crlf ++ body) m
  = ('(_, h) ← add_lines ls (new_header m); Ret (set_bytes (len (header_block ls ++ crlf)) h)).
Proof.
  intros Hls. unfold ReadHeader. pose proof (header_block_length ls).
  pose proof (read_loop_block ls (S (length (header_block ls ++ crlf ++ body))) [] body (new_header m) Hls) as Hb.
  cbn [app length] in Hb. change (Z.of_nat 0) with 0 in Hb. rewrite Hb by (rewrite length_app; lia).
  destruct (add_lines ls (new_header m)) as [[u h]| |]; [|done..]. cbn [mbind outcome_bind]. cbv zeta.
  unfold cr_at, lf_at. change (crlf ++ body) with (CR :: LF :: body). rewrite (is_at_app _ CR) by done.
  replace (header_block ls ++ CR :: LF :: body) with ((header_block ls ++ [CR]) ++ LF :: body) by by rewrite <- app_assoc.
  rewrite (is_at_app _ LF) by (rewrite length_app; simpl; lia).
  change ((CR =b CR) && (LF =b LF)) with true. cbv iota.
  by replace (len (header_block ls ++ crlf)) with (len (header_block ls) + 2) by (rewrite length_app; simpl; lia).
Qed.

(** ** Printing and reading *)

(** A field that is printed on a good line and made again from it. *)
Definition reads_back (avoidUTF8 : bool) (f : Field) : Prop :=
  ∃ v, field_rfc822 avoidUTF8 f = Ret v ∧ good_line (field_name f, v) ∧ NewHeaderField (field_name f) v = Ret f.

(** Fields with the names [Add] merges occur once. *)
Definition merged_once (l : list Field) : Prop := NoDup (List.filter (among merged_names) (map field_name l)).

Lemma among_elem l n : among l n = true ↔ n ∈ l.
Proof.
  unfold among. rewrite existsb_exists. split.
  - intros (x & Hx & ->%str_eqb_true). by apply list_elem_of_In.
  - intros H. exists n. split; [by apply list_elem_of_In | apply str_eqb_refl].
Qed.

Lemma merged_address f : typed f → among merged_names (field_name f) = true → ∃ g, f = FAddress g.
Proof.
  intros Ht Hm. assert (field_name f ∈ merged_names) as Hin by by apply among_elem.
  unfold typed in Ht. set (n := field_name f) in *. clearbody n. unfold merged_names in Hin.
  assert (among address_like n = true ∧ n ≠ DateFieldName ∧ n ≠ ContentTypeFieldName
    ∧ n ≠ ContentTransferEncodingFieldName ∧ n ≠ ContentDispositionFieldName ∧ n ≠ ContentLanguageFieldName) as Hn.
  { repeat (apply elem_of_cons in Hin as [-> | Hin]; [done|]). by apply not_elem_of_nil in Hin. }
  destruct Hn as (Ha & ? & ? & ? & ? & ?). destruct f; try done; [|by eexists].
  by rewrite among_app, Ha in Ht.
Qed.

Lemma find_field_none fn fs : fn ∉ map (λ r, field_name (snd r)) fs → find_field fn 0 fs = None.
Proof.
  induction fs as [|r fs IH]; [done|]. cbn [map find_field]. intros [H1 H2]%not_elem_of_cons.
  destruct (_ ==s fn) eqn:E; breflect; [by subst | by apply IH].
Qed.

Lemma Add_back key v f h :
  NewHeaderField key v = Ret f →
  (among merged_names (field_name f) = true → field_name f ∉ map (λ r, field_name (snd r)) (h_fields h)) →
  Add key v h = Ret (tt, added f h).
Proof.
  intros E Hm. destruct (among merged_names (field_name f)) eqn:Ea; [|by apply Add_added].
  destruct (merged_address f) as [g ->]; [|done|].
  { by apply (NewHeaderField_kind key v). }
  unfold Add. rewrite (pbind_ret (lift _) _ h _ h) by (unfold lift; by rewrite E).
  rewrite (pbind_ret (alloc _) _ h _ _ eq_refl). unfold addField. cbn [snd]. rewrite Ea.
  rewrite (pbind_ret (gets _) _ _ _ _ eq_refl). unfold addressField, field. cbn [h_fields].
  rewrite find_field_none by by apply Hm. by case_if.
Qed.

Definition fields_of (h : Header) : list Field := map snd (h_fields h).

Lemma AsText_lines avoid fs buf :
  Forall (reads_back avoid) (map snd fs) →
  ∃ ls, append_fields buf fs avoid = Ret (buf ++ header_block ls) ∧ Forall good_line ls
    ∧ Forall2 (λ f l, fst l = field_name f ∧ NewHeaderField (fst l) (snd l) = Ret f) (map snd fs) ls.
Proof.
  revert buf. induction fs as [|[p f] fs IH]; intros buf H.
  { exists []. cbn [append_fields header_block map concat]. by rewrite app_nil_r. }
  cbn [map snd] in H. apply Forall_cons in H as [(v & Ev & Hl & En) H]. cbn [append_fields]. unfold appendField.
  rewrite Ev. cbn [mbind outcome_bind]. destruct (IH (buf ++ field_name f ++ $": " ++ v ++ crlf) H) as (ls & E & Hls & H2).
  exists ((field_name f, v) :: ls). split_and!; [|by constructor|by constructor].
  rewrite E. unfold header_block. cbn [map concat]. by rewrite <- app_assoc.
Qed.

Lemma merged_once_fresh l f fs :
  merged_once (l ++ f :: fs) → among merged_names (field_name f) = true → field_name f ∉ map field_name l.
Proof.
  unfold merged_once. rewrite map_app, List.filter_app. cbn [map List.filter]. intros Hd Ha Hin. rewrite Ha in Hd.
  apply NoDup_app in Hd as (_ & Hd & _). apply (Hd (field_name f)); [|by left].
  apply list_elem_of_In, filter_In. by split; [apply list_elem_of_In|].
Qed.

Lemma add_lines_back ls fs h :
  Forall2 (λ f l, fst l = field_name f ∧ NewHeaderField (fst l) (snd l) = Ret f) fs ls →
  merged_once (fields_of h ++ fs) →
  ∃ h', add_lines ls h = Ret (tt, h') ∧ fields_of h' = fields_of h ++ fs ∧ h_mode h' = h_mode h.
Proof.
  intros H2. revert h. induction H2 as [|f [n v] fs ls [Hn Hf] _ IH]; intros h Hm.
  { exists h. by rewrite app_nil_r. }
  cbn [fst snd] in *. rewrite add_lines_cons, (Add_back n v f h); [|done|].
  2:{ intros Ha. rewrite <- map_map. by apply (merged_once_fresh (fields_of h) f fs). }
  cbn [mbind outcome_bind]. assert (fields_of (added f h) = fields_of h ++ [f]) as Ef
    by (unfold fields_of; cbn [added h_fields]; by rewrite map_app).
  destruct (IH (added f h)) as (h' & E & Hf' & Hmode); [by rewrite Ef, <- app_assoc|].
  exists h'. split_and!; [done | by rewrite Hf', Ef, <- app_assoc | done].
Qed.

Lemma AsText_read (h : Header) (avoidUTF8 : bool) (m : headerMode) (body : str) :
  Forall (reads_back avoidUTF8) (fields_of h) → merged_once (fields_of h) →
  ∃ text h', Header_AsText avoidUTF8 h = Ret text ∧ ReadHeader (text ++ crlf ++ body) m = Ret h'
    ∧ fields_of h' = fields_of h ∧ numBytes h' = len (text ++ crlf) ∧ h_mode h' = m.
Proof.
  intros Hback Honce.
  destruct (AsText_lines avoidUTF8 (h_fields h) [] Hback) as (ls & E & Hls & H2).
  destruct (add_lines_back ls (fields_of h) (new_header m) H2 Honce) as (h' & Eh & Hf & Hm).
  exists (header_block ls), (set_bytes (len (header_block ls ++ crlf)) h'). split_and!; [done | | | done | done].
  - by rewrite ReadHeader_lines, Eh.
  - done.
Qed.

(** C13: a block of lines "name: value", folded or not, followed
    by an empty line and the body, is read as exactly the fields of its lines in
    order, each added as [Add] adds it, and [numBytes] is where the body starts. *)
Theorem ReadHeader_block (m : headerMode) (ls : list (str * str)) (body : str) (Hls : Forall good_line ls) :
  ReadHeader (header_block ls ++ crlf ++ body) m
  = ('(_, h) ← add_lines ls (new_header m); Ret (set_bytes (len (header_block ls ++ crlf)) h)).
Proof. by apply ReadHeader_lines. Qed.


(** C39: a text that consists of characters of a field name,
    without colon or line break, makes [ReadHeader] panic: it looks at the byte
    after the name without a test for the end of the text. *)
Theorem ReadHeader_no_colon (s : str) (m : headerMode) (Hs : s ≠ []) (Hc : Forall (λ c, name_char c = true) s) :
  ReadHeader s m = Panic.
Proof.
  unfold ReadHeader. cbn [read_loop]. cbv zeta.
  assert (skip_bom s 0 = 0) as ->.
  { destruct s as [|c s]; [done|]. apply Forall_cons in Hc as [Hc _]. apply (skip_bom_at [] c s); [done|].
    clear - Hc. revert c Hc. byte_enum. }
  replace (skip_while name_char s 0) with (len s)
    by (pose proof (skip_while_at name_char [] s [] 0 eq_refl Hc I) as E; cbn [app] in E; by rewrite app_nil_r in E).
  assert (at_ s (len s) = Panic) as Ha by (unfold at_; case_if; [done|]; by rewrite Nat2Z.id, lookup_ge_None_2).
  assert (slice s 0 (len s + 1) = Panic) as Hsl by (unfold slice; case_if; [|done]; rewrite !andb_true_iff in *; lia).
  rewrite (pbind_ret (gets h_mode) _ _ _ _ eq_refl). destruct (_ && _).
  - rewrite pbind_panic; [done|]. rewrite pbind_panic; [done|]. unfold lift. by rewrite Hsl.
  - rewrite (pbind_ret (mret false) _ _ _ _ eq_refl). replace (0 <? len s) with true by (destruct s; [done | simpl; lia]).
    cbn [negb andb]. rewrite pbind_panic; [done|]. rewrite pbind_panic; [done|]. unfold lift. by rewrite Ha.
Qed.
End Reading.

(** ** Examples *)

#[local] Existing Instance ascii_only_case.
#[local] Existing Instance plain_charsets.
#[local] Existing Instance utc_only.

(** A From line, a folded Subject line and a repeated header. *)
Definition sample_lines : list (str * str) :=
  [($"From", $"Ann <a@example.com>"); ($"Subject", $"one" ++ crlf ++ $" two"); ($"Received", $"by x"); ($"Received", $"by y")].

Lemma sample_lines_good : Forall good_line sample_lines.
Proof.
  repeat constructor; try done; (eexists; split; [vm_compute; reflexivity | done]).
Qed.

Lemma ReadHeader_block_witness :
  ∃ h, ReadHeader (header_block sample_lines ++ crlf ++ $"body") RFC5322Header = Ret h
    ∧ length (h_fields h) = 4%nat ∧ numBytes h = 81.
Proof.
  eexists. split; [|split].
  - rewrite (ReadHeader_block RFC5322Header sample_lines $"body" sample_lines_good). vm_compute. reflexivity.
  - vm_compute. reflexivity.
  - vm_compute. reflexivity.
Defined.

Definition sample_header : Header :=
  match ReadHeader (header_block sample_lines ++ crlf) RFC5322Header with
  | Ret h => h
  | _ => new_header RFC5322Header
  end.

Lemma sample_reads_back : Forall (reads_back false) (fields_of sample_header).
Proof.
  let l := eval vm_compute in (fields_of sample_header) in
  assert (fields_of sample_header = l) as -> by (vm_compute; reflexivity).
  repeat apply Forall_cons_2; [..|apply Forall_nil_2]; (eexists; split; [vm_compute; reflexivity|]; split;
    [split; [done | by repeat constructor | done | reflexivity | eexists; split; [vm_compute; reflexivity | done]]
    | vm_compute; reflexivity]).
Qed.


Lemma ReadHeader_no_colon_witness : ReadHeader $"hello" MIMEHeader = Panic.
Proof. apply ReadHeader_no_colon; [done | by repeat constructor]. Defined.
