(* ===== verification/TextFacts.v ===== *)
(** * Theorems on headers of text fields: [Subject] and the like, and [ReadHeader]

    The fields that hold text are folded when they are printed, at 78 bytes, and
    unfolded when they are read: here it is shown that a header of such fields is
    read back as it was, whatever the length of its texts. *)

From S2P Require Import Prelude GoStrings GoTime Strings StringsFacts Codec Words WordsFacts.
From S2P Require Import Parser ParserFacts Address AddrParser AddrListFacts.
From S2P Require Import Fields FieldsFacts MIMEFacts Header HeaderFacts ReadFacts.
Open Scope Z_scope.

(** ** Texts *)

Definition graphic (c : byte) : bool := (33 <=? bz c) && (bz c <=? 126).

Definition graphic_word (w : str) : Prop := w ≠ [] ∧ Forall (λ c, graphic c = true) w.

(** Words of visible ASCII characters, with nothing that looks like the start of an
    encoded word. *)
Record text_words (ws : list str) : Prop := {
  tw_some : ws ≠ [];
  tw_words : Forall graphic_word ws;
  tw_plain : Contains (Join ws [SP]) $"=?" = false
}.

(** The words with a space between any two, which may be folded. *)
Inductive laid : list str → str → Prop :=
| laid_one w : laid [w] w
| laid_more w g ws s : g = [SP] ∨ g = crlf ++ [SP] → laid ws s → laid (w :: ws) (w ++ g ++ s).

Lemma laid_some ws s : laid ws s → ws ≠ [].
Proof. by destruct 1. Qed.

Lemma laid_Join ws : ws ≠ [] → laid ws (Join ws [SP]).
Proof.
  induction ws as [|w ws IH]; intros H; [done|]. destruct (decide (ws = [])) as [->|Hne]; [constructor|].
  rewrite Join_cons by done. constructor; [by left | by apply IH].
Qed.

Lemma text_words_tail w ws : text_words (w :: ws) → ws ≠ [] → text_words ws.
Proof.
  intros [_ [_ Hw]%Forall_cons Hp] Hne. split; [done..|]. rewrite Join_cons in Hp by done.
  destruct (Contains (Join ws [SP]) $"=?") eqn:E; [|done]. unfold Contains in E.
  destruct (Index_found (Join ws [SP]) $"=?" _ eq_refl) as (a & b & Ej & _); [lia|].
  rewrite Ej in Hp. rewrite !(app_assoc _ _ (_ ++ _)) in Hp. by rewrite Contains_app in Hp.
Qed.

Lemma text_words_head w ws : text_words (w :: ws) → HasPrefix w $"=?" = false.
Proof.
  intros [_ _ Hp]. destruct (HasPrefix w $"=?") eqn:E; [|done]. apply HasPrefix_app in E as [t ->].
  assert (∃ u, Join (($"=?" ++ t) :: ws) [SP] = [] ++ $"=?" ++ u) as [u Eu].
  { destruct ws; [by exists t|]. eexists. rewrite Join_cons by done. by rewrite <- app_assoc. }
  by rewrite Eu, Contains_app in Hp.
Qed.

Lemma graphic_facts c : graphic c = true →
  text_char c = true ∧ skip_char c = false ∧ wsp c = false ∧ (bz c <? 128) = true ∧ ascii_char c = true.
Proof. revert c. by intros []. Qed.

Lemma graphic_ascii w : Forall (λ c, graphic c = true) w → ascii_str w = true.
Proof. intros H. apply forallb_Forall. eapply Forall_impl; [done|]. intros c Hc. by apply graphic_facts. Qed.

(** ** Folding *)

Lemma split_at_space (a b a' b' : str) :
  SP ∉ a → SP ∉ a' → a ++ SP :: b = a' ++ SP :: b' → a = a' ∧ b = b'.
Proof.
  revert a'. induction a as [|c a IH]; intros [|c' a'] Ha Ha' E; cbn [app] in E.
  - by simplify_eq.
  - injection E as Ec _. destruct Ha'. rewrite <- Ec. by left.
  - injection E as Ec _. destruct Ha. rewrite Ec. by left.
  - injection E as -> E. apply not_elem_of_cons in Ha as [_ Ha], Ha' as [_ Ha']. by destruct (IH a' Ha Ha' E) as [-> ->].
Qed.

Lemma Join_app_head (a b : str) ts sep : Join ((a ++ b) :: ts) sep = a ++ Join (b :: ts) sep.
Proof. destruct ts; [done|]. rewrite !Join_cons by done. by rewrite <- !app_assoc. Qed.

Lemma graphic_no_space w : graphic_word w → SP ∉ w.
Proof. intros [_ H] Hin. by apply (proj1 (Forall_forall _ _) H) in Hin. Qed.

(** Text that is cut at some of its spaces is still laid out. *)
Lemma laid_cut ws : Forall graphic_word ws → ws ≠ [] → ∀ t ts,
  Join (t :: ts) [SP] = Join ws [SP] → laid ws (Join (t :: ts) (crlf ++ [SP])).
Proof.
  induction 1 as [|w ws Hw Hws IH]; intros Hne t ts E; [done|]. apply graphic_no_space in Hw.
  destruct (decide (ws = [])) as [->|Hne'].
  { destruct ts as [|t' ts]; [cbn [Join] in *; subst; constructor|]. exfalso. apply Hw.
    rewrite Join_cons in E by done. cbn [Join] in E. rewrite <- E. set_solver. }
  rewrite (Join_cons w) in E by done. destruct (decide (SP ∈ t)) as [Hin|Hnot].
  - apply list_elem_of_split_l in Hin as (t1 & t2 & -> & Ht1). rewrite Join_app_head in *.
    change (SP :: t2) with ([SP] ++ t2) in *. rewrite Join_app_head in *.
    apply split_at_space in E as [-> E]; [|done..]. constructor; [by left | by apply IH].
  - destruct ts as [|t' ts]; [exfalso; apply Hnot; cbn [Join] in E; rewrite E; set_solver|].
    rewrite Join_cons in E |- * by done. apply split_at_space in E as [-> E]; [|done..].
    constructor; [by right | by apply IH].
Qed.

Lemma single_spaces_word (w t : str) (prev : bool) :
  graphic_word w → single_spaces prev (w ++ t) = single_spaces false t.
Proof.
  intros [Hne Hw]. revert prev Hne. induction Hw as [|c w Hc Hw IH]; intros prev Hne; [done|].
  assert ((c =b SP) = false) as E by (revert Hc; clear; revert c; by intros []).
  cbn [app single_spaces]. rewrite E, andb_false_r. cbn [negb andb]. destruct w; [done | by apply IH].
Qed.

Lemma graphic_spaces ws : Forall graphic_word ws → single_spaces true (Join ws [SP]) = true ∧ LF ∉ Join ws [SP].
Proof.
  induction 1 as [|w ws Hw Hws [IH1 IH2]]; [split; [done | apply not_elem_of_nil]|].
  assert (LF ∉ w) as Hlf by (destruct Hw as [_ H]; intros Hin; by apply (proj1 (Forall_forall _ _) H) in Hin).
  destruct (decide (ws = [])) as [->|Hne].
  - cbn [Join]. split; [|done]. rewrite <- (app_nil_r w). by rewrite single_spaces_word.
  - rewrite Join_cons, single_spaces_word by done. split; [done|]. rewrite !elem_of_app. by intros [?|[?%list_elem_of_singleton|?]].
Qed.

Lemma wrap_laid ws n : Forall graphic_word ws → ws ≠ [] → ∃ s, wrap (Join ws [SP]) n [] [SP] false = Ret s ∧ laid ws s.
Proof.
  intros Hw Hne. destruct (graphic_spaces ws Hw) as [Hs Hlf].
  pose proof (wrap_loop_lines n [SP] false (Join ws [SP]) [] [] [] 0 0) as H.
  destruct H as (t & ts & E & Et & _); [lia | done | done | left; split; [apply not_elem_of_nil | lia]|].
  exists (Join (t :: ts) (crlf ++ [SP])). split; [exact E|]. by apply laid_cut.
Qed.

(** ** [Text] *)

Section Text.
Context {U : UnicodeCase} {CS : Charset} {AC : AsciiCharset CS} {L : Local}.

Lemma Present_mark p :
  ascii_str (rest p) = true → HasPrefix (rest p) $"=?" = false → Present $"=?" p = Ret (false, p).
Proof.
  intros Ha Hp. destruct (rest p) as [|c [|d t]] eqn:E.
  - by apply Present_at_end.
  - destruct (Present_cases $"=?" p) as [|[_ Hl]]; [done|]. rewrite E in Hl. simpl in Hl. lia.
  - rewrite (Present_ascii $"=?" p [c; d] t); [|done..|].
    + destruct (_ ==s _) eqn:Ee; [|done]. apply str_eqb_true in Ee. exfalso. revert Hp.
      injection Ee as H1 H2. enough (c = "="%byte ∧ d = "?"%byte) as [-> ->] by done.
      split; [revert H1; clear; revert c | revert H2; clear; revert d]; by intros [].
    + cbn [ascii_str forallb] in *. by destruct (bz c <? 128), (bz d <? 128).
Qed.

Lemma text_word_plain start p w t :
  rest p = w ++ t → ascii_str (rest p) = true → HasPrefix (rest p) $"=?" = false →
  Forall (λ c, text_char c = true) w → match t with c :: _ => text_char c = false | [] => True end →
  text_word start p = Ret (w, step_by (length w) (marked p)).
Proof.
  intros E Ha Hp Hw Ht. unfold text_word. rewrite (pbind_ret mark _ p _ _ (mark_eq p)).
  rewrite (pbind_ret _ _ _ _ _ (Present_mark (marked p) Ha Hp)).
  rewrite (pbind_ret (mret None) _ (marked p) None (marked p)) by done. by apply (scan_app _ _ w t).
Qed.

Lemma no_mark w ws t :
  text_words (w :: ws) → match t with c :: _ => skip_char c = true | [] => True end →
  HasPrefix (w ++ t) $"=?" = false.
Proof.
  intros H Ht. pose proof (text_words_head w ws H) as Hh. destruct H as [_ [[Hne Hw] _]%Forall_cons _].
  destruct w as [|c [|d w]]; [done | | exact Hh]. destruct t as [|d t]; [exact Hh|].
  cbn [app]. destruct (HasPrefix (c :: d :: t) $"=?") eqn:E; [|done]. apply HasPrefix_app in E as [u E].
  injection E as -> -> _. done.
Qed.

Lemma laid_ascii ws s : laid ws s → Forall graphic_word ws → ascii_str s = true.
Proof.
  induction 1 as [w|w g ws s Hg _ IH]; intros [[_ Hw] H]%Forall_cons; [by apply graphic_ascii|].
  unfold ascii_str in *. rewrite !forallb_app, IH by done. fold (ascii_str w). rewrite graphic_ascii by done.
  by destruct Hg as [-> | ->].
Qed.

Lemma text_loop_end n space out p : rest p = [] → text_loop (S n) space out p = Ret (out ++ space, marked p).
Proof.
  intros E. cbn [text_loop]. rewrite (pbind_ret Pos _ _ _ _ eq_refl).
  rewrite (pbind_ret _ _ p [] (marked p)).
  2:{ rewrite (text_word_plain _ p [] []) by (by rewrite ?E). by rewrite step_by_0. }
  rewrite (pbind_ret Pos _ _ _ _ eq_refl). change (p_at (marked p)) with (p_at p). by rewrite Nat.eqb_refl.
Qed.

Lemma text_loop_word n space out p w ws g t :
  text_words (w :: ws) → rest p = w ++ g ++ t → ascii_str (rest p) = true →
  Forall (λ c, skip_char c = true) g → match t with c :: _ => skip_char c = false | [] => True end →
  match g ++ t with c :: _ => wsp c = true | [] => True end →
  text_loop (S n) space out p
  = text_loop n (unfold_run g) (out ++ space ++ w) (step_by (length g) (step_by (length w) (marked p))).
Proof.
  intros Hw E Ha Hg Ht Hgt. cbn [text_loop]. rewrite (pbind_ret Pos _ _ _ _ eq_refl).
  pose proof (no_mark w ws (g ++ t) Hw) as Hm. destruct Hw as [_ [[Hne Hv] _]%Forall_cons _].
  rewrite (pbind_ret _ _ p w (step_by (length w) (marked p))).
  2:{ apply (text_word_plain _ p w (g ++ t)); [done | done | | |].
      - rewrite E. apply Hm. destruct (g ++ t); [done | by apply wsp_skip].
      - eapply Forall_impl; [done|]. intros c Hc. by apply graphic_facts.
      - destruct (g ++ t); [done|]. unfold text_char. rewrite Hgt. apply andb_false_r. }
  rewrite (pbind_ret Pos _ _ _ _ eq_refl).
  replace (Nat.eqb (p_at (step_by (length w) (marked p))) (p_at p)) with false.
  2:{ symmetry. apply Nat.eqb_neq. change (p_at p + length w ≠ p_at p)%nat. destruct w; [done | simpl; lia]. }
  rewrite (pbind_ret Whitespace _ _ g (step_by (length g) (step_by (length w) (marked p)))); [done|].
  apply (scan_app _ _ g t); [|done..]. by apply rest_step_app.
Qed.

Lemma text_loop_laid ws s : laid ws s → text_words ws → ∀ n space out p,
  rest p = s → (length ws < n)%nat →
  ∃ q, text_loop n space out p = Ret (out ++ space ++ Join ws [SP], q) ∧ rest q = [].
Proof.
  induction 1 as [w|w g ws s Hg Hl IH]; intros Hw n space out p E Hn;
    (destruct n as [|n]; [simpl in Hn; lia|]).
  - rewrite <- (app_nil_r w) in E. rewrite (text_loop_word n space out p w [] [] []); [|done | done | | by constructor | done | done].
    2:{ rewrite E, app_nil_r. destruct Hw as [_ [[_ Hv] _]%Forall_cons _]. by apply graphic_ascii. }
    destruct n as [|n]; [simpl in Hn; lia|]. cbn [length]. rewrite step_by_0.
    rewrite text_loop_end by by apply rest_step_app. eexists. split; [by rewrite app_nil_r|].
    by apply rest_step_app.
  - pose proof (laid_some _ _ Hl) as Hne. pose proof (text_words_tail w ws Hw Hne) as Hws.
    rewrite (text_loop_word n space out p w ws g s); [|done | done | | | |].
    + destruct (IH Hws n (unfold_run g) (out ++ space ++ w)
        (step_by (length g) (step_by (length w) (marked p)))) as (q & Eq & Hq);
        [apply rest_step_app; by apply rest_step_app | simpl in Hn; lia|].
      exists q. split; [|done]. rewrite Eq, Join_cons, <- !app_assoc by done.
      by replace (unfold_run g) with [SP] by by destruct Hg as [-> | ->].
    + rewrite E. apply (laid_ascii (w :: ws)); [by constructor | apply Hw].
    + destruct Hg as [-> | ->]; by repeat constructor.
    + destruct Hl as [w'|w' ? ? ?]; destruct Hws as [_ [[Hne' Hv] _]%Forall_cons _];
        (destruct w' as [|c w']; [done|]; apply Forall_cons in Hv as [Hc _]; by apply graphic_facts).
    + by destruct Hg as [-> | ->].
Qed.

Lemma laid_head w ws s : laid (w :: ws) s → graphic_word w →
  ∃ c t, s = c :: t ∧ graphic c = true.
Proof.
  intros Hl [Hne Hv]. destruct w as [|c w]; [done|]. apply Forall_cons in Hv as [Hc _].
  inversion Hl; subst; eauto.
Qed.

Lemma laid_length ws s : laid ws s → (length ws ≤ S (length s))%nat.
Proof.
  induction 1 as [w|w g ws s Hg _ IH]; [simpl; lia|]. rewrite !length_app. cbn [length].
  assert (1 <= length g)%nat by (destruct Hg as [-> | ->]; simpl; lia). lia.
Qed.

Lemma read_text_laid ws s : laid ws s → text_words ws → run read_text s = Ret (Join ws [SP], true).
Proof.
  intros Hl Hw. unfold run, read_text, Text.
  assert (Whitespace (newParser s) = Ret ([], newParser s)) as HW.
  { unfold Whitespace. rewrite scan_eq. change (rest (newParser s)) with s.
    destruct ws as [|w ws]; [by destruct (tw_some _ Hw)|].
    destruct (laid_head w ws s Hl) as (c & t & -> & Hc); [by destruct Hw as [_ [? _]%Forall_cons _]|].
    cbn [take_while]. by rewrite (proj1 (proj2 (graphic_facts c Hc))), step_by_0. }
  destruct (text_loop_laid ws s Hl Hw (S (S (length s))) [] [] (newParser s)) as (q & E & Hq); [done| |].
  { pose proof (laid_length ws s Hl). lia. }
  rewrite (pbind_ret _ _ (newParser s) (Join ws [SP]) q).
  - rewrite (pbind_ret AtEnd _ q true q); [done|]. unfold AtEnd, gets. apply (f_equal length) in Hq.
    rewrite length_rest in Hq. cbn [length] in Hq. by replace (Nat.leb _ _) with true by (symmetry; apply Nat.leb_le; lia).
  - rewrite (pbind_ret _ _ _ _ _ HW), (pbind_ret fuel _ _ _ _ eq_refl). exact E.
Qed.

(** ** Fields *)

Lemma graphic_is_word w : graphic_word w → word w.
Proof.
  intros [Hne Hw]. split; [done|]. apply forallb_Forall. eapply Forall_impl; [done|]. intros c Hc.
  by rewrite (proj1 (proj2 (proj2 (graphic_facts c Hc)))).
Qed.

Lemma trim_framed m : framed m → trim m = m.
Proof.
  assert (∀ c, one_of [HT; CR; LF; SP] c = wsp c) as Hw by by intros [].
  intros [Hh Hl]. unfold trim, Trim, TrimLeft, TrimRight.
  assert (∀ s : str, from_option wsp true (head s) = false → drop_while (one_of [HT; CR; LF; SP]) s = s) as Hd.
  { intros [|c s] H; [done|]. cbn [head from_option drop_while] in *. by rewrite Hw, H. }
  rewrite (Hd m Hh), Hd by by rewrite head_reverse. apply reverse_involutive.
Qed.

Lemma parseText_laid ws s n :
  laid ws s → text_words ws → parseText s (hf_named n) = Ret (set_value (Join ws [SP]) (hf_named n)).
Proof.
  intros Hl Hw. unfold parseText. rewrite (read_text_laid ws s Hl Hw). cbn [mbind outcome_bind].
  destruct Hw as [Hne Hv Hp]. rewrite trim_framed.
  2:{ apply compact_framed, words_Join; [|done]. eapply Forall_impl; [done | apply graphic_is_word]. }
  cbn [hf_value set_value negb andb orb]. by rewrite Hp.
Qed.

Lemma folded_word w t : Forall (λ c, graphic c = true) w → folded (w ++ t) = folded t.
Proof.
  induction 1 as [|c w Hc Hw IH]; [done|]. cbn [app folded].
  assert ((c =b LF) = false) as -> by (revert Hc; clear; revert c; by intros []). exact IH.
Qed.

Lemma laid_folded ws s : laid ws s → Forall graphic_word ws → folded s = true.
Proof.
  induction 1 as [w|w g ws s Hg _ IH]; intros [[_ Hw] H]%Forall_cons.
  - rewrite <- (app_nil_r w). by rewrite folded_word.
  - rewrite folded_word by done. destruct Hg as [-> | ->]; cbn; by rewrite IH.
Qed.

Lemma simplify_visible c t : ascii_str (c :: t) = true → graphic c = true → ∃ u, simplify (c :: t) = Ret u ∧ u ≠ [].
Proof.
  intros Ha Hc. apply graphic_facts in Hc as (_ & _ & Hc & _).
  destruct (simplify_cases (c :: t)) as [[? _] | [(_ & Hw & _) | [(a & m & b & _ & _ & Hm & _ & ->) | (_ & ->)]]].
  - done.
  - cbn in Hw. by rewrite Hc in Hw.
  - exists m. split; [done|]. by intros ->.
  - eexists. split; [done|]. rewrite encode_runes_ascii by (by apply ascii_str_Join).
    assert (words (c :: t) ≠ []) as Hne by (unfold words; cbn [words_from]; rewrite Hc; by apply words_from_nonempty).
    pose proof (Join_length (words (c :: t)) [SP]) as Hl. intros Ej. rewrite Ej in Hl.
    destruct (words (c :: t)) eqn:Ew; [done|]. cbn [length] in Hl. rewrite <- Ew in Hl.
    enough (S (length l0) ≤ 0)%nat by lia. apply Hl. eapply Forall_impl; [by apply words_from_words|]. by intros w [? _].
Qed.

(** A text, folded or not, makes a good header line. *)
Lemma laid_line ws s n :
  laid ws s → text_words ws → n ≠ [] → Forall (λ c, name_char c = true) n → good_line (n, s).
Proof.
  intros Hl Hw Hn Hc. destruct ws as [|w ws]; [by destruct (tw_some _ Hw)|].
  pose proof (tw_words _ Hw) as Hv. pose proof (laid_ascii _ _ Hl Hv) as Ha.
  pose proof (laid_folded _ _ Hl Hv) as Hf. apply Forall_cons in Hv as [Hv _].
  destruct (laid_head w ws s Hl Hv) as (c & t & -> & Hvc). split; cbn [fst snd]; [done | done | | done|].
  - revert Hvc. clear. revert c. by intros [].
  - by apply simplify_visible.
Qed.

(** The names of the fields that are not texts. *)
Definition structured_names : list str :=
  address_like ++ [DateFieldName; OrigDateFieldName; ResentDateFieldName; ContentTypeFieldName;
    ContentTransferEncodingFieldName; ContentDispositionFieldName; ContentLanguageFieldName;
    MIMEVersionFieldName; ContentLocationFieldName; ContentBaseFieldName; ErrorsToFieldName].

(** The name of a text field, written as [headerCase] writes it. *)
Record text_name (n : str) : Prop := {
  tn_some : n ≠ [];
  tn_chars : Forall (λ c, name_char c = true) n;
  tn_case : headerCase n = n;
  tn_text : n ∉ structured_names
}.

Definition text_field (n : str) (ws : list str) : Field := FHeader (set_value (Join ws [SP]) (hf_named n)).

Lemma text_name_among n l : text_name n → forallb (among structured_names) l = true → among l n = false.
Proof.
  intros Hn Hl. destruct (among l n) eqn:E; [|done]. destruct (tn_text n Hn). apply among_elem in E.
  apply among_elem. by apply (proj1 (forallb_forall _ _) Hl), list_elem_of_In.
Qed.

Lemma text_name_not n x : text_name n → among structured_names x = true → (n ==s x) = false.
Proof. intros Hn Hx. apply str_eqb_false. intros ->. by apply (tn_text x Hn), among_elem. Qed.

Lemma text_name_field n : text_name n → NewHeaderFieldNamed n = FHeader (hf_named n).
Proof.
  intros Hn. unfold NewHeaderFieldNamed. rewrite (tn_case n Hn).
  by rewrite !(text_name_among n), !(text_name_not n).
Qed.

(** The fields that are folded. *)
Definition folds (n : str) : bool := among [SubjectFieldName; CommentsFieldName; ContentDescriptionFieldName] n.

Lemma HeaderField_Parse_text n ws s :
  text_name n → text_words ws → (if folds n then laid ws s else s = Join ws [SP]) →
  HeaderField_Parse s (hf_named n) = Ret (set_value (Join ws [SP]) (hf_named n)).
Proof.
  intros Hn Hw Hs. unfold HeaderField_Parse. cbn [hf_name hf_named].
  rewrite (text_name_among n), !(text_name_not n) by done.
  replace (among [ContentDescriptionFieldName; SubjectFieldName; CommentsFieldName] n) with (folds n).
  2:{ unfold folds, among. cbn [existsb]. by destruct (n ==s _), (n ==s _), (n ==s _). }
  destruct (folds n); [by apply parseText_laid|]. subst s.
  assert (parseOther (Join ws [SP]) (hf_named n) = set_value (Join ws [SP]) (hf_named n)) as ->; [|by case_if].
  unfold parseOther. rewrite ascii_decode; [done|]. apply (laid_ascii ws); [apply laid_Join|]; apply Hw.
Qed.

Lemma text_ascii ws : Forall graphic_word ws → isAscii (Join ws [SP]) = true.
Proof.
  induction 1 as [|w ws [_ Hw] Hws IH]; [done|].
  assert (isAscii w = true) as Ha.
  { apply forallb_Forall. eapply Forall_impl; [done|]. intros c Hc. by apply graphic_facts. }
  destruct (decide (ws = [])) as [->|Hne]; [done|]. rewrite Join_cons by done. unfold isAscii in *.
  by rewrite !forallb_app, Ha, IH.
Qed.

Lemma text_field_printed avoid n ws : text_words ws →
  ∃ s, field_rfc822 avoid (text_field n ws) = Ret s ∧ laid ws s ∧ (folds n = false → s = Join ws [SP]).
Proof.
  intros [Hne Hv _]. cbn [field_rfc822 text_field]. unfold HeaderField_rfc822. cbn [hf_name hf_value set_value hf_named].
  fold (folds n). destruct (folds n); [|exists (Join ws [SP]); split_and!; [done | by apply laid_Join | done]].
  replace (if avoid then encodeText (Join ws [SP]) else Ret (Join ws [SP])) with (Ret (Join ws [SP])).
  2:{ destruct avoid; [|done]. symmetry. by apply encodeText_ascii, text_ascii. }
  cbn [mbind outcome_bind]. destruct (wrap_laid ws 78 Hv Hne) as (s & E & Hl). by exists s.
Qed.

Lemma text_field_reads_back avoid n ws : text_name n → text_words ws → reads_back avoid (text_field n ws).
Proof.
  intros Hn Hw. destruct (text_field_printed avoid n ws Hw) as (s & E & Hl & Hs). exists s. split; [done|].
  change (field_name (text_field n ws)) with n. split; [apply (laid_line ws); [done | done | apply Hn..]|].
  unfold NewHeaderField. rewrite text_name_field by done. cbn [Field_Parse].
  rewrite (HeaderField_Parse_text n ws) by (done || destruct (folds n); auto). done.
Qed.

(** A text field: words of visible ASCII characters. *)
Definition plain_field (f : Field) : Prop := ∃ n ws, f = text_field n ws ∧ text_name n ∧ text_words ws.

Lemma plain_fields avoid l : Forall plain_field l → Forall (reads_back avoid) l ∧ merged_once l.
Proof.
  induction 1 as [|f l (n & ws & -> & Hn & Hw) Hl [IH1 IH2]]; [split; constructor|].
  split; [constructor; [by apply text_field_reads_back | done]|].
  unfold merged_once. cbn [map List.filter]. change (field_name (text_field n ws)) with n.
  by rewrite (text_name_among n merged_names).
Qed.

(** C5: a header of text fields, whose values are words of
    visible ASCII characters with a space between any two, of any number and length,
    is printed with the long texts folded, and the printed text, followed by an empty
    line and any body, is read as a header with exactly the same fields, which starts
    the body where it should.  Nothing is assumed of the fields but what their names
    and values are: Subject, Comments and Content-Description are folded and
    unfolded, the other names, also unknown ones, are printed as they are. *)
Theorem text_header_roundtrip (h : Header) (avoidUTF8 : bool) (m : headerMode) (body : str)
    (Hplain : Forall plain_field (fields_of h)) :
  ∃ text h', Header_AsText avoidUTF8 h = Ret text ∧ ReadHeader (text ++ crlf ++ body) m = Ret h'
    ∧ fields_of h' = fields_of h ∧ numBytes h' = len (text ++ crlf) ∧ h_mode h' = m.
Proof. destruct (plain_fields avoidUTF8 _ Hplain). by apply AsText_read. Qed.
End Text.

(** ** Examples *)

#[local] Existing Instance ascii_only_case.
#[local] Existing Instance plain_charsets.
#[local] Existing Instance utc_only.

(** A text of more than 78 characters. *)
Definition long_subject : list str :=
  Split $"A subject of many words, which is longer than the seventy-eight characters a line may have" [SP].

Definition text_header : Header :=
  added (text_field $"X-Note" [$"2"; $"words"]) (added (text_field $"Subject" long_subject) (new_header RFC5322Header)).

Lemma text_header_plain : Forall plain_field (fields_of text_header).
Proof.
  change (fields_of text_header) with [text_field $"Subject" long_subject; text_field $"X-Note" [$"2"; $"words"]].
  assert (∀ n ws, ws ≠ [] → n ≠ [] → forallb (λ w, negb (w ==s []) && forallb graphic w) ws = true →
    Contains (Join ws [SP]) $"=?" = false → forallb name_char n = true → headerCase n = n →
    among structured_names n = false → plain_field (text_field n ws)) as H.
  { intros n ws Hws Hn Hw Hp Hc Hcase Ha. exists n, ws. split; [done|]. split; split; [done | | done | | done | | done].
    - by apply forallb_Forall.
    - rewrite <- among_elem. congruence.
    - apply forallb_Forall in Hw. eapply Forall_impl; [done|]. intros w [H1 H2]%andb_prop. split; [|by apply forallb_Forall].
      apply negb_true_iff in H1. by apply str_eqb_false. }
  constructor; [|constructor; [|constructor]]; apply H; vm_compute; congruence.
Qed.

Lemma text_header_roundtrip_witness :
  Header_AsText false text_header
  = Ret ($"Subject: A subject of many words, which is longer than the seventy-eight characters a" ++ crlf
         ++ $" line may have" ++ crlf ++ $"X-Note: 2 words" ++ crlf)
  ∧ ∃ text h', Header_AsText false text_header = Ret text ∧ ReadHeader (text ++ crlf ++ $"body") RFC5322Header = Ret h'
    ∧ fields_of h' = fields_of text_header ∧ numBytes h' = len (text ++ crlf) ∧ h_mode h' = RFC5322Header.
Proof.
  split; [vm_compute; reflexivity|].
  apply (text_header_roundtrip text_header false RFC5322Header $"body" text_header_plain).
Defined.
