(* ===== verification/Store.v ===== *)
(** * The objects of a message: [Part] of [src/parts.go], [Message] of [src/message.go]

    Parts, headers and messages refer to each other by pointers: a part to its
    parent and its children, several parts to one header, a part to the message
    it contains.  They live in a [Store]; a pointer is the index of an object in
    the list of the objects of its type, in the order they were made. *)

From S2P Require Import Prelude GoStrings GoTime Strings Words Fields Header.
Open Scope Z_scope.

(** The error of a part whose text could not be converted: the character set it
    was said to be in, and whether that is an unknown one. *)
Record part_error := { pe_from : option str; pe_unknown : bool }.

Record Part := {
  p_message : option nat;
  p_parent : option nat;
  p_header : option nat;
  p_parts : list nat;
  Number : Z;
  hasText : bool;
  p_text : str;
  p_data : str;
  p_numBytes : Z;
  numEncodedBytes : Z;
  numEncodedLines : Z;
  p_err : option part_error
}.

Definition new_part (parent header : option nat) : Part :=
  {| p_message := None; p_parent := parent; p_header := header; p_parts := []; Number := 0;
     hasText := false; p_text := []; p_data := []; p_numBytes := 0; numEncodedBytes := 0;
     numEncodedLines := 0; p_err := None |}.

(** The embedded [*Part] and the size. *)
Record Message := { m_part : nat; RFC822Size : Z }.

(** [ticks] counts the calls of [time.Now]. *)
Record Store := {
  st_parts : list Part;
  st_headers : list Header;
  st_messages : list Message;
  ticks : nat
}.

Definition empty_store : Store :=
  {| st_parts := []; st_headers := []; st_messages := []; ticks := 0 |}.

Abbreviation mm := (state_m Store).

(** What [time.Now] returns at each of its calls. *)
Class Clock := { now_at : nat → Time }.

Definition stopped_clock (t : Time) : Clock := {| now_at _ := t |}.

(** ** Assignments *)

Definition with_message (m : option nat) (p : Part) : Part :=
  {| p_message := m; p_parent := p_parent p; p_header := p_header p; p_parts := p_parts p;
     Number := Number p; hasText := hasText p; p_text := p_text p; p_data := p_data p;
     p_numBytes := p_numBytes p; numEncodedBytes := numEncodedBytes p;
     numEncodedLines := numEncodedLines p; p_err := p_err p |}.
Definition with_parent (q : option nat) (p : Part) : Part :=
  {| p_message := p_message p; p_parent := q; p_header := p_header p; p_parts := p_parts p;
     Number := Number p; hasText := hasText p; p_text := p_text p; p_data := p_data p;
     p_numBytes := p_numBytes p; numEncodedBytes := numEncodedBytes p;
     numEncodedLines := numEncodedLines p; p_err := p_err p |}.
Definition with_header (h : option nat) (p : Part) : Part :=
  {| p_message := p_message p; p_parent := p_parent p; p_header := h; p_parts := p_parts p;
     Number := Number p; hasText := hasText p; p_text := p_text p; p_data := p_data p;
     p_numBytes := p_numBytes p; numEncodedBytes := numEncodedBytes p;
     numEncodedLines := numEncodedLines p; p_err := p_err p |}.
Definition with_parts (l : list nat) (p : Part) : Part :=
  {| p_message := p_message p; p_parent := p_parent p; p_header := p_header p; p_parts := l;
     Number := Number p; hasText := hasText p; p_text := p_text p; p_data := p_data p;
     p_numBytes := p_numBytes p; numEncodedBytes := numEncodedBytes p;
     numEncodedLines := numEncodedLines p; p_err := p_err p |}.
Definition with_number (n : Z) (p : Part) : Part :=
  {| p_message := p_message p; p_parent := p_parent p; p_header := p_header p; p_parts := p_parts p;
     Number := n; hasText := hasText p; p_text := p_text p; p_data := p_data p;
     p_numBytes := p_numBytes p; numEncodedBytes := numEncodedBytes p;
     numEncodedLines := numEncodedLines p; p_err := p_err p |}.
Definition with_text (t : str) (e : option part_error) (p : Part) : Part :=
  {| p_message := p_message p; p_parent := p_parent p; p_header := p_header p; p_parts := p_parts p;
     Number := Number p; hasText := true; p_text := t; p_data := p_data p;
     p_numBytes := p_numBytes p; numEncodedBytes := numEncodedBytes p;
     numEncodedLines := numEncodedLines p; p_err := e |}.
Definition with_data (d : str) (p : Part) : Part :=
  {| p_message := p_message p; p_parent := p_parent p; p_header := p_header p; p_parts := p_parts p;
     Number := Number p; hasText := hasText p; p_text := p_text p; p_data := d;
     p_numBytes := p_numBytes p; numEncodedBytes := numEncodedBytes p;
     numEncodedLines := numEncodedLines p; p_err := p_err p |}.
Definition with_sizes (n e : Z) (l : Z) (p : Part) : Part :=
  {| p_message := p_message p; p_parent := p_parent p; p_header := p_header p; p_parts := p_parts p;
     Number := Number p; hasText := hasText p; p_text := p_text p; p_data := p_data p;
     p_numBytes := n; numEncodedBytes := e; numEncodedLines := l; p_err := p_err p |}.

Definition set_parts (l : list Part) (st : Store) : Store :=
  {| st_parts := l; st_headers := st_headers st; st_messages := st_messages st; ticks := ticks st |}.
Definition set_headers (l : list Header) (st : Store) : Store :=
  {| st_parts := st_parts st; st_headers := l; st_messages := st_messages st; ticks := ticks st |}.
Definition set_messages (l : list Message) (st : Store) : Store :=
  {| st_parts := st_parts st; st_headers := st_headers st; st_messages := l; ticks := ticks st |}.
Definition set_ticks (n : nat) (st : Store) : Store :=
  {| st_parts := st_parts st; st_headers := st_headers st; st_messages := st_messages st; ticks := n |}.

(** ** Pointers *)

Definition new_Part (p : Part) : mm nat := λ st,
  Ret (length (st_parts st), set_parts (st_parts st ++ [p]) st).
Definition new_Header (h : Header) : mm nat := λ st,
  Ret (length (st_headers st), set_headers (st_headers st ++ [h]) st).

Definition get_part (p : nat) : mm Part := λ st,
  match st_parts st !! p with Some x => Ret (x, st) | None => Panic end.
Definition get_header (h : nat) : mm Header := λ st,
  match st_headers st !! h with Some x => Ret (x, st) | None => Panic end.
Definition get_message (m : nat) : mm Message := λ st,
  match st_messages st !! m with Some x => Ret (x, st) | None => Panic end.

Definition on_part (p : nat) (f : Part → Part) : mm unit :=
  x ← get_part p;
  modify (λ st, set_parts (<[p := f x]> (st_parts st)) st).
Definition on_message (m : nat) (f : Message → Message) : mm unit :=
  x ← get_message m;
  modify (λ st, set_messages (<[m := f x]> (st_messages st)) st).

(** A method of the header [h]. *)
Definition on_header {A} (h : nat) (m : hm A) : mm A := λ st,
  match st_headers st !! h with
  | Some x => '(a, x) ← m x; Ret (a, set_headers (<[h := x]> (st_headers st)) st)
  | None => Panic
  end.

(** Dereferencing a pointer that can be nil. *)
Definition deref {A} (p : option A) : mm A :=
  match p with Some x => mret x | None => lift Panic end.

(** The header of a part, which has to have one. *)
Definition header_of (p : nat) : mm nat := x ← get_part p; deref (p_header x).

Section Now.
Context {C : Clock}.

Definition time_Now : mm Time := λ st, Ret (now_at (ticks st), set_ticks (S (ticks st)) st).
End Now.

Definition NewMessage : mm nat :=
  p ← new_Part (new_part None None);
  m ← gets (λ st, length (st_messages st));
  _ ← modify (λ st, set_messages (st_messages st ++ [{| m_part := p; RFC822Size := 0 |}]) st);
  mret m.
