(* ===== verification/Repair.v ===== *)
(** * Repairs of headers: [Repair] and [RepairWithBody] of [src/header.go]

    [Repair] works on the header alone.  [RepairWithBody] also looks at the body
    and at the parts the header's part is in, so it is an action on the store;
    it is a sequence of blocks, each of which repairs one kind of problem.  The
    number of fields of each name, [occ], is counted once at the start. *)

From S2P Require Import Prelude GoStrings GoTime Strings Codec Words Address AddrParser Fields Header Store.
Open Scope Z_scope.

Section Repair.
Context {U : UnicodeCase} {CS : Charset} {L : Local} {C : Clock}.

(** ** Repair *)

Definition named (fn : str) (r : ref) : bool := field_name (snd r) ==s fn.

(** Removes the later fields of the name [fn] that print like the first one,
    [hf]; the variable is the number of fields of that name so far. *)
Definition duplicate_of (fn : str) (hf : option ref) (n : Z) (r : ref) : hm (bool * Z) :=
  if named fn r then
    let n := n + 1 in
    if 1 <? n then
      match hf with
      | Some (_, f) =>
          a ← lift (field_rfc822 false f);
          b ← lift (field_rfc822 false (snd r));
          mret (a ==s b, n)
      | None => lift Panic
      end
    else mret (false, n)
  else mret (false, n).

Fixpoint remove_duplicates (cs : list HeaderFieldCondition) (occ : str → Z) : hm unit :=
  match cs with
  | [] => mret tt
  | c :: cs' =>
      m ← gets h_mode;
      _ ← (if in_mode c m && (c_max c <? occ (c_name c)) then
             hf ← gets (field (c_name c) 0);
             _ ← sweep_all 0 (duplicate_of (c_name c) hf);
             mret tt
           else mret tt);
      remove_duplicates cs' occ
  end.

(** The type assertion [tmp.( *ContentType)] on the [n]th Content-Type field, nil
    if there is none. *)
Definition nth_type (h : Header) (n : nat) : outcome (option (nat * ContentType)) :=
  match field ContentTypeFieldName n h with
  | None => Ret None
  | Some (p, FContentType f) => Ret (Some (p, f))
  | Some _ => Panic
  end.

(** Whether the Content-Type fields disagree, and the one with parameters. *)
Fixpoint agree_loop (k : nat) (h : Header) (n : nat) (ct : ContentType)
    (other : option (nat * ContentType)) (good : option nat) (bad : bool) : outcome (option nat * bool) :=
  match other with
  | Some (p, o) =>
      if bad then Ret (good, bad)
      else match k with
      | O => OutOfFuel
      | S k' =>
          let '(good, bad) :=
            if negb (ct_type o ==s ct_type ct) || negb (ct_subtype o ==s ct_subtype ct) then (good, true)
            else match mf_params (ct_mf o) with
                 | [] => (good, bad)
                 | _ => (Some p, present good)
                 end in
          other ← nth_type h (S n);
          agree_loop k' h (S n) ct other good bad
      end
  | None => Ret (good, bad)
  end.

Definition repair_types (occ : str → Z) : hm unit :=
  if 1 <? occ ContentTypeFieldName then
    h ← gets id;
    ct ← lift (Header_ContentType h);
    match ct with
    | None => mret tt
    | Some (p, f) =>
        '(good, bad) ← lift (agree_loop (S (length (h_fields h))) h 0 f ct None false);
        match good with
        | Some g =>
            if (bad : bool) then mret tt
            else remove_where (λ r, named ContentTypeFieldName r && negb (Nat.eqb (fst r) g))
        | None => mret tt
        end
    end
  else mret tt.

(** The loop over [fieldNames]: only the first valid field is kept. *)
Fixpoint repair_first_valid (names : list str) (occ : str → Z) : hm unit :=
  match names with
  | [] => mret tt
  | name :: names' =>
      _ ← (if (1 <? occ name)
              && among [DateFieldName; ReturnPathFieldName; MessageIDFieldName; ContentTypeFieldName;
                        ReferencesFieldName] name then
             fs ← gets h_fields;
             match List.find (λ r, named name r && field_valid (snd r)) fs with
             | Some v =>
                 let alsoValid := negb (name ==s ContentTypeFieldName) in
                 remove_where (λ r, named name r && negb (Nat.eqb (fst r) (fst v))
                                    && (alsoValid || negb (field_valid (snd r))))
             | None => mret tt
             end
           else mret tt);
      repair_first_valid names' occ
  end.

(** [%d] of a number that is not negative. *)
Definition Itoa (n : Z) : str := decimal (S (Z.to_nat n)) n.

Definition repair_version (occ : str → Z) : hm unit :=
  second ← gets (field MIMEVersionFieldName 1);
  match second with
  | None => mret tt
  | Some r =>
      _ ← Remove r;
      first ← gets (field MIMEVersionFieldName 0);
      match first with
      | Some (p, f) =>
          f ← lift (Field_Parse ($"1.0 (Note: original message contained "
                     ++ Itoa (occ MIMEVersionFieldName) ++ $" MIME-Version fields)") f);
          store p f
      | None => lift Panic
      end
  end.

(** [ct != nil && ct.Type == "multipart" || ct.Type == "message"], which panics
    when there is no Content-Type field. *)
Definition repair_encoding (occ : str → Z) : hm unit :=
  if 0 <? occ ContentTransferEncodingFieldName then
    h ← gets id;
    ct ← lift (Header_ContentType h);
    match ct with
    | Some (_, f) =>
        if (ct_type f ==s $"multipart") || (ct_type f ==s $"message")
        then RemoveAllNamed ContentTransferEncodingFieldName else mret tt
    | None => lift Panic
    end
  else mret tt.

(** [for i < len(sender) && difference { ... }] *)
Fixpoint differs (from sender : list str) (difference : bool) : bool :=
  match sender with
  | [] => difference
  | a :: sender' => if difference then differs from sender' (if among from a then difference else true) else difference
  end.

Fixpoint lower_lpdomains (l : Addresses) : outcome (list str) :=
  match l with
  | [] => Ret []
  | a :: l' => s ← lpdomain a; r ← lower_lpdomains l'; Ret (ToLower s :: r)
  end.

Definition repair_sender (occ : str → Z) : hm unit :=
  h ← gets id;
  if (0 <? occ SenderFieldName) && negb (addresses_len (Header_Addresses SenderFieldName h) =? 1) then
    from ← lift (lower_lpdomains (default [] (Header_Addresses FromFieldName h)));
    sender ← lift (lower_lpdomains (default [] (Header_Addresses FromFieldName h)));
    if negb (differs from sender false) then RemoveAllNamed SenderFieldName else mret tt
  else mret tt.

Definition Repair : hm unit :=
  v ← Header_Valid;
  if (v : bool) then mret tt
  else
    fs ← gets h_fields;
    let occ := occurrences fs in
    _ ← remove_duplicates conditions occ;
    _ ← repair_types occ;
    _ ← repair_first_valid fieldNames occ;
    _ ← repair_version occ;
    _ ← repair_encoding occ;
    repair_sender occ.

(** ** The date *)

(** The last semicolon the loop finds, 0 if there is none. *)
Fixpoint last_semicolon (n : nat) (v : str) (i : Z) : outcome Z :=
  t ← from_ v (i + 1);
  let k := Index t $";" in
  if 0 <? k then match n with O => OutOfFuel | S n' => last_semicolon n' v (i + 1 + k) end
  else Ret i.

(** The oldest date of the Received fields. *)
Fixpoint received_date (fs : list ref) (date : option Time) : outcome (option Time) :=
  match fs with
  | [] => Ret date
  | r :: fs' =>
      date ← (if named ReceivedFieldName r then
                v ← field_rfc822 false (snd r);
                i ← last_semicolon (S (length v)) v 0;
                t ← from_ v (i + 1);
                tmp ← parseDate t;
                Ret (match tmp, date with
                     | None, _ => date
                     | Some _, None => tmp
                     | Some t, Some d => if Before t d then tmp else date
                     end)
              else Ret date);
      received_date fs' date
  end.

(** The date of the closest enclosing part that has one. *)
Fixpoint parent_date (n : nat) (parent : option nat) : mm (option Time) :=
  match parent with
  | None => mret None
  | Some q =>
      x ← get_part q;
      hp ← deref (p_header x);
      h ← get_header hp;
      d ← lift (Header_Date h);
      match d with
      | Some _ => mret d
      | None => match n with O => out_of_fuel | S n' => parent_date n' (p_parent x) end
      end
  end.

Definition part_fuel : mm nat := gets (λ st, S (S (length (st_parts st)))).

(** [occurrences[Date] == 0 || !h.field(Date, 0).Valid() || h.Date() != nil] *)
Definition wants_date (occ : str → Z) (h : Header) : outcome bool :=
  if occ DateFieldName =? 0 then Ret true
  else match field DateFieldName 0 h with
       | None => Panic
       | Some (_, f) => if negb (field_valid f) then Ret true else d ← Header_Date h; Ret (present d)
       end.

Definition repair_date (occ : str → Z) (hp : nat) (p : option nat) : mm unit :=
  h ← get_header hp;
  w ← (if bool_decide (h_mode h = RFC5322Header) then lift (wants_date occ h) else mret false);
  if (w : bool) then
    date ← lift (received_date (h_fields h) None);
    date ← match date, p with
           | None, Some q => x ← get_part q; n ← part_fuel; parent_date n (p_parent x)
           | _, _ => mret date
           end;
    date ← (if absent date && (occ DateFieldName =? 0) then t ← time_Now; mret (Some t) else mret date);
    match date with
    | Some t => on_header hp (Add DateFieldName (format_RFC822Z t))
    | None => mret tt
    end
  else mret tt.

(** ** The author *)

(** [len(a) == 0 || a[0].t != NormalAddressType] *)
Definition no_author (a : Addresses) : bool :=
  match a with [] => true | x :: _ => negb (bool_decide (a_t x = NormalAddressType)) end.

(** From, Return-Path or Sender, the first with a normal address. *)
Definition author (h : Header) : Addresses :=
  let a := default [] (Header_Addresses FromFieldName h) in
  let a := if no_author a then default [] (Header_Addresses ReturnPathFieldName h) else a in
  let a := if no_author a then default [] (Header_Addresses SenderFieldName h) else a in
  if no_author a then [] else a.

(** The loop over the enclosing parts, which looks at [h] each time; [head] says
    that the variable [head] is not nil. *)
Fixpoint author_loop (n : nat) (h : Header) (head : bool) (parent : option nat) (a : Addresses) : mm Addresses :=
  if (head || present parent) && (len a =? 0) then
    match n with
    | O => out_of_fuel
    | S n' =>
        let a := if head then author h else a in
        parent ← match parent with Some q => x ← get_part q; mret (p_parent x) | None => mret None end;
        head ← match parent with Some q => x ← get_part q; mret (present (p_header x)) | None => mret false end;
        author_loop n' h head parent a
    end
  else mret a.

(** The addresses of the first word of a field, if the address parser and
    [assertSingleAddress] find no error. *)
Definition single_address (f : Field) : outcome (option Addresses) :=
  s ← field_rfc822 false f;
  t ← section s $" " 1;
  p ← NewAddressParser t;
  '(_, p) ← assertSingleAddress p;
  Ret (match firstError p with None => Some (ap_addresses p) | Some _ => None end).

Definition x_from_line (fs : list ref) : outcome Addresses :=
  match List.find (named $"X-From-Line") fs with
  | Some (_, f) => a ← single_address f; Ret (default [] a)
  | None => Ret []
  end.

Definition repair_from (occ : str → Z) (hp : nat) (p : option nat) : mm unit :=
  h ← get_header hp;
  if (occ FromFieldName =? 0) && bool_decide (h_mode h = RFC5322Header) then
    n ← part_fuel;
    a ← author_loop n h true p [];
    a ← (if len a =? 0 then lift (x_from_line (h_fields h)) else mret a);
    match a with
    | x :: _ => s ← lift (toString x false); on_header hp (Add FromFieldName s)
    | [] => mret tt
    end
  else mret tt.

(** The addresses receipts are sent to. *)
Fixpoint receipt_loop (fs : list ref) (a : Addresses) : outcome Addresses :=
  match fs with
  | [] => Ret a
  | r :: fs' =>
      a ← (if named $"Return-Receipt-To" r || named $"Disposition-Notification-To" r
           then b ← single_address (snd r); Ret (default a b) else Ret a);
      match a with [] => receipt_loop fs' a | _ => Ret a end
  end.

Definition repair_receipt : hm unit :=
  h ← gets id;
  if bool_decide (h_mode h = RFC5322Header)
     && match field FromFieldName 0 h with
        | None => true
        | Some (_, f) => negb (field_valid f) && (addresses_len (Header_Addresses FromFieldName h) =? 0)
        end
  then
    a ← lift (receipt_loop (h_fields h) []);
    match a with
    | x :: _ =>
        _ ← RemoveAllNamed FromFieldName;
        s ← lift (toString x false);
        Add FromFieldName s
    | [] => mret tt
    end
  else mret tt.

(** ** Fields that are dropped *)

(** The first Received field that is met while the header is invalid, and those
    after it. *)
Definition repair_received (occ : str → Z) : hm unit :=
  if 0 <? occ ReceivedFieldName then
    _ ← sweep_all false (λ bad r,
          if named ReceivedFieldName r then
            v ← Header_Valid;
            let bad := bad || negb v in
            mret (bad, bad)
          else mret (false, bad));
    mret tt
  else mret tt.

Definition repair_droppable (occ : str → Z) : hm unit :=
  if (0 <? occ ContentLocationFieldName) || (0 <? occ ContentDispositionFieldName)
     || (0 <? occ ContentIDFieldName) || (0 <? occ MessageIDFieldName)
  then remove_where (λ r, (named ContentLocationFieldName r || named ContentDispositionFieldName r
                           || named ContentIDFieldName r || named MessageIDFieldName r)
                          && negb (field_valid (snd r)))
  else mret tt.

(** The first valid Sender field that differs from From. *)
Fixpoint good_sender (fs : list ref) (from : option AddressField) : outcome (option nat) :=
  match fs with
  | [] => Ret None
  | r :: fs' =>
      if named SenderFieldName r && field_valid (snd r) then
        match snd r with
        | FAddress f => if negb (sameAddresses (Some f) from) then Ret (Some (fst r)) else good_sender fs' from
        | _ => Panic
        end
      else good_sender fs' from
  end.

Definition repair_senders (occ : str → Z) : hm unit :=
  if 1 <? occ SenderFieldName then
    h ← gets id;
    good ← lift (good_sender (h_fields h) (option_map snd (addressField FromFieldName 0 h)));
    match good with
    | Some g => remove_where (λ r, named SenderFieldName r && negb (Nat.eqb (fst r) g))
    | None => mret tt
    end
  else mret tt.

(** [strings.HasSuffix(w, ":") && isAscii(w) && isKnownField[w[:len(w)-1]]] *)
Definition field_word (w : str) : bool :=
  HasSuffix w $":" && isAscii w && isKnownField (take (length w - 1) w).

Definition bad_subject (v : str) : outcome bool :=
  if 300 <? len v then Ret true
  else if 80 <? len v then v ← simplify v; Ret (existsb field_word (Split v $" "))
  else Ret (existsb (λ c, 128 <=? bz c) v).

Fixpoint bad_subjects (fs : list ref) : outcome (list ref) :=
  match fs with
  | [] => Ret []
  | r :: fs' =>
      b ← (if named SubjectFieldName r then v ← field_value (snd r); bad_subject v else Ret false);
      l ← bad_subjects fs';
      Ret (if (b : bool) then r :: l else l)
  end.

Fixpoint remove_each (l : list ref) : hm unit :=
  match l with
  | [] => mret tt
  | r :: l' => _ ← Remove r; remove_each l'
  end.

(** The variable [seen] of the last loop is never set. *)
Definition repair_subjects (occ : str → Z) : hm unit :=
  if 1 <? occ SubjectFieldName then
    fs ← gets h_fields;
    bad ← lift (bad_subjects fs);
    if len bad <? occ SubjectFieldName then
      _ ← remove_each bad;
      let seen := false in
      remove_where (λ r, named SubjectFieldName r && seen)
    else mret tt
  else mret tt.

(** ** The boundary *)

Definition boundary_char (c : byte) : bool :=
  is_lower c || is_upper c || is_digit c || one_of (SQUOTE :: $"()+_,-./:=? ") c.

(** What the line at [cand] says about the boundary: the boundary, and whether
    the search is done and whether it is confused. *)
Definition boundary_candidate (body : str) (cand : Z) (boundary : str) : outcome (str * bool * bool) :=
  if is_at body (Z.to_nat cand) "-" && is_at body (Z.to_nat (cand + 1)) "-" then
    i ← skip_unbounded boundary_char body (cand + 2);
    if (cand + 2 <? i) && (cr_at body i || lf_at body i) then
      s ← slice body (cand + 2) i;
      Ret (if boundary ==s [] then (s, false, false)
           else if boundary ==s s then (boundary, false, false)
           else if (len s =? len boundary + 2) && HasPrefix s boundary && HasSuffix s $"--"
           then (boundary, true, false)
           else (boundary, false, len s <=? 70))
    else Ret (boundary, false, false)
  else Ret (boundary, false, false).

(** The boundary, and whether different ones were seen. *)
Fixpoint boundary_loop (n : nat) (body : str) (cand : Z) (boundary : str) (done confused : bool) :
    outcome (str * bool) :=
  if (0 <=? cand) && (cand <? len body) && negb done && negb confused then
    match n with
    | O => OutOfFuel
    | S n' =>
        '(boundary, done, confused) ← boundary_candidate body cand boundary;
        let prior := cand + 1 in
        t ← from_ body prior;
        let cand := Index t (LF :: $"--") in
        boundary_loop n' body (if 0 <=? cand then cand + prior + 1 else cand) boundary done confused
    end
  else Ret (boundary, confused).

Definition set_boundary (b : str) (f : ContentType) : ContentType :=
  let m := mf_add $"boundary" b (ct_mf f) in
  set_mf (mf_with_hf (set_error None (mf_hf m)) m) f.

Definition repair_boundary (occ : str → Z) (body : str) : hm unit :=
  if (0 <? occ ContentTypeFieldName) && negb (body ==s []) then
    h ← gets id;
    ct ← lift (Header_ContentType h);
    match ct with
    | None => lift Panic
    | Some (p, f) =>
        if negb (ct_valid f) && (ct_type f ==s $"multipart") && (ct_parameter $"boundary" f ==s []) then
          cand ← lift (skip_unbounded (Byte.eqb LF) body 0);
          '(boundary, confused) ← lift (boundary_loop (S (length body)) body cand [] false false);
          if negb (boundary ==s []) && negb confused
          then store p (FContentType (set_boundary boundary f)) else mret tt
        else mret tt
    end
  else mret tt.

(** ** An invalid From field *)

Fixpoint good_addresses (l : Addresses) : outcome Addresses :=
  match l with
  | [] => Ret []
  | a :: l' =>
      b ← (if absent (a_err a) && bool_decide (a_t a = NormalAddressType)
           then localpartIsSensible a else Ret false);
      r ← good_addresses l';
      Ret (if (b : bool) then a :: r else r)
  end.

(** [f.Addresses = l; f.err = nil] *)
Definition set_addresses (l : Addresses) (f : AddressField) : AddressField := with_list (Some l) (with_error None f).

(** Dereferencing the pointer [addressField] returns. *)
Definition the_address_field (fn : str) : hm (nat * AddressField) :=
  af ← gets (addressField fn 0);
  match af with Some x => mret x | None => lift Panic end.

Definition repair_from_addresses (occ : str → Z) : hm unit :=
  if occ FromFieldName =? 1 then
    '(p, from) ← the_address_field FromFieldName;
    if af_valid from then mret tt
    else
      good ← lift (good_addresses (af_list from));
      match good with
      | [] => mret tt
      | _ => store p (FAddress (set_addresses good from))
      end
  else mret tt.

(** Whether no Received field follows another field that follows a Received
    field. *)
Fixpoint unbroken_received (fs : list ref) (seenReceived seenOther : bool) : bool :=
  match fs with
  | [] => true
  | r :: fs' =>
      if named ReceivedFieldName r
      then if seenOther then false else unbroken_received fs' true seenOther
      else unbroken_received fs' seenReceived (seenOther || seenReceived)
  end.

(** The first address of a valid field, unless it is the bounce address. *)
Definition first_real (f : option (nat * AddressField)) : option Address :=
  match f with
  | Some (_, f) =>
      if af_valid f then
        match af_list f with
        | a :: _ => if is_bounce a then None else Some a
        | [] => None
        end
      else None
  | None => None
  end.

Definition repair_from_copy (occ : str → Z) : hm unit :=
  if (occ FromFieldName =? 1) && ((occ SenderFieldName =? 1) || (occ ReturnPathFieldName =? 1)) then
    '(p, from) ← the_address_field FromFieldName;
    h ← gets id;
    if negb (af_valid from) && unbroken_received (h_fields h) false false then
      let a := match first_real (addressField ReturnPathFieldName 0 h) with
               | Some a => Some a
               | None => first_real (addressField SenderFieldName 0 h)
               end in
      match a with
      | Some a => store p (FAddress (set_addresses [a] from))
      | None => mret tt
      end
    else mret tt
  else mret tt.

(** ** Several Content-Type fields *)

Definition is_type (t st : str) (f : ContentType) : bool := (ct_type f ==s t) && (ct_subtype f ==s st).

(** [h.field(ContentTypeFieldName, n).( *ContentType)], which panics when there is
    no such field. *)
Definition the_type (h : Header) (n : nat) : outcome (nat * ContentType) :=
  match field ContentTypeFieldName n h with
  | Some (p, FContentType f) => Ret (p, f)
  | _ => Panic
  end.

Definition repair_two_types (occ : str → Z) : hm unit :=
  if occ ContentTypeFieldName =? 2 then
    h ← gets id;
    a ← lift (the_type h 0);
    b ← lift (the_type h 1);
    let plain := existsb (is_type $"text" $"plain") [snd a; snd b] in
    let html := existsb (is_type $"text" $"html") [snd a; snd b] in
    let other f := negb (is_type $"text" $"plain" (snd f)) && negb (is_type $"text" $"html" (snd f)) in
    let keep := if other b then Some (fst b) else if other a then Some (fst a) else None in
    match keep with
    | Some k =>
        if plain && negb html
        then remove_where (λ r, named ContentTypeFieldName r && negb (Nat.eqb (fst r) k))
        else mret tt
    | None => mret tt
    end
  else mret tt.

Inductive verdict := Good | Bad | Neutral.

Definition judge_type (body : str) (f : ContentType) : outcome verdict :=
  if negb (ct_valid f) then Ret Bad
  else if is_type $"text" $"html" f then
    b ← simplify (take 2048 body);
    let b := ToLower b in
    Ret (if HasPrefix b $"<!doctype" || HasPrefix b $"<html" then Good else Bad)
  else if ct_type f ==s $"multipart" then
    let b := ct_parameter $"boundary" f in
    bad ← (if b ==s [] then Ret true else s ← simplify b; Ret (negb (b ==s s)));
    Ret (if (bad : bool) then Bad
         else if HasPrefix body (LF :: $"--" ++ b) || Contains body (LF :: $"--" ++ b) then Good else Bad)
  else Ret Neutral.

(** The Content-Type fields from the [i]th, those judged good and those judged
    neutral. *)
Fixpoint judge_loop (k : nat) (h : Header) (body : str) (i : nat) (good neutral : list ref) :
    outcome (list ref * list ref) :=
  match field ContentTypeFieldName i h with
  | None => Ret (good, neutral)
  | Some r =>
      match k with
      | O => OutOfFuel
      | S k' =>
          match snd r with
          | FContentType f =>
              v ← judge_type body f;
              judge_loop k' h body (S i)
                (match v with Good => good ++ [r] | _ => good end)
                (match v with Neutral => neutral ++ [r] | _ => neutral end)
          | _ => Panic
          end
      end
  end.

Definition replace_types (r : ref) : hm unit := _ ← RemoveAllNamed ContentTypeFieldName; addField r.

Definition repair_many_types (occ : str → Z) (body : str) : hm unit :=
  if 1 <? occ ContentTypeFieldName then
    h ← gets id;
    '(good, neutral) ← lift (judge_loop (S (length (h_fields h))) h body 0 [] []);
    match good, neutral with
    | g :: _, _ => replace_types g
    | [], [n] => replace_types n
    | _, _ => mret tt
    end
  else mret tt.

(** Whether the loop gets to the end of the Content-Type fields; a field of
    another Go type would end it too. *)
Fixpoint all_html (k : nat) (h : Header) (i : nat) (ct : option ContentType) : outcome bool :=
  match ct with
  | None => Ret true
  | Some f =>
      if ct_valid f && is_type $"text" $"html" f then
        match k with
        | O => OutOfFuel
        | S k' =>
            all_html k' h (S i)
              (match field ContentTypeFieldName i h with Some (_, FContentType f) => Some f | _ => None end)
        end
      else Ret false
  end.

Definition repair_html_types (occ : str → Z) : hm unit :=
  if 1 <? occ ContentTypeFieldName then
    h ← gets id;
    ct ← lift (Header_ContentType h);
    b ← lift (all_html (S (length (h_fields h))) h 1 (option_map snd ct));
    if (b : bool) then
      match ct with
      | Some (p, f) => replace_types (p, FContentType f)
      | None => _ ← RemoveAllNamed ContentTypeFieldName; lift Panic
      end
    else mret tt
  else mret tt.

(** ** Several senders in one field *)

(** The number of addresses before the first that does not satisfy [ok]. *)
Fixpoint same_run (ok : Address → bool) (l : Addresses) : nat :=
  match l with
  | a :: l' => if ok a then S (same_run ok l') else 0
  | [] => 0
  end.

Definition repair_sender_domains : hm unit :=
  h ← gets id;
  match addressField SenderFieldName 0 h with
  | Some (p, f) =>
      match af_list f with
      | a :: _ :: _ =>
          let l := af_list f in
          let same b := ToTitle (Domain b) ==s ToTitle (Domain a) in
          let n := same_run same l in
          if Nat.eqb n (length l - 1) then store p (FAddress (set_addresses (drop (length l - 1) l) f))
          else mret tt
      | _ => mret tt
      end
  | None => mret tt
  end.

(** ** Delivery reports *)

(** [strings.Contains(err.Error(), "No-bounce")] for the errors an address field
    can have.  The formats keep the data they print as it is, apart from escapes,
    and neither an escape nor the text around the data can be a part of the word. *)
Fixpoint addr_error_mentions (w : str) (e : addr_error) : bool :=
  match e with
  | LocalpartTooLong _ l d => Contains l w || Contains d w
  | ParseError m _ nearby => addr_msg_mentions w m || Contains nearby w
  end
with addr_msg_mentions (w : str) (m : addr_msg) : bool :=
  match m with
  | Msg s => Contains s w
  | MsgOf e => addr_error_mentions w e
  end.

Definition error_mentions (w : str) (e : field_error) : bool :=
  match e with
  | NoBounceHere => Contains $"No-bounce address not allowed in this field" w
  | AddressError e => addr_error_mentions w e
  | InvalidMailbox s => Contains s w
  | _ => false
  end.

(** The From field is missing, or its error is that it is a bounce address. *)
Definition bounce_or_missing (h : Header) : bool :=
  match field FromFieldName 0 h with
  | None => true
  | Some (_, f) =>
      match hf_err (field_hf f) with Some e => error_mentions $"No-bounce" e | None => false end
  end.

(** The first address of a list without error and with a domain. *)
Definition usable_address (l : Addresses) : option Address :=
  List.find (λ a, absent (a_err a) && negb (Domain a ==s [])) l.

(** The reporting MTA and the recipient a delivery report names. *)
Fixpoint report_loop (lines : list str) (mta : str) (address : option Address) :
    outcome (str * option Address) :=
  match lines with
  | [] => Ret (mta, address)
  | l :: lines' =>
      let line := ToLower l in
      f ← section line $":" 1;
      f ← simplify f;
      v ← section line $":" 2;
      d ← section v $";" 1;
      d ← simplify d;
      v ← section v $";" 2;
      v ← simplify v;
      if (f ==s $"reporting-mta") && (d ==s $"dns") && negb (v ==s []) then report_loop lines' v address
      else if among [$"final-recipient"; $"original-recipient"] f && (d ==s $"rfc822")
              && absent address && negb (v ==s []) then
        ap ← NewAddressParser v;
        report_loop lines' mta (usable_address (ap_addresses ap))
      else report_loop lines' mta address
  end.

(** The postmaster becomes the author of the header, which is that of the report:
    the variable [h] of the loop hides the one of the method. *)
Definition set_postmaster (postmaster : Address) : hm unit :=
  from ← gets (addressField FromFieldName 0);
  match from with
  | Some (p, f) => store p (FAddress (set_addresses [postmaster] f))
  | None =>
      r ← alloc (FAddress (NewAddressField FromFieldName));
      _ ← addField r;
      store (fst r) (FAddress (with_list (Some [postmaster]) (NewAddressField FromFieldName)))
  end.

Fixpoint report_parts (parts : list nat) : mm unit :=
  match parts with
  | [] => mret tt
  | q :: parts' =>
      x ← get_part q;
      ct ← match p_header x with
           | Some hp => h ← get_header hp; lift (Header_ContentType h)
           | None => mret None
           end;
      if match ct with Some (_, f) => is_type $"message" $"delivery-status" f | None => false end then
        '(mta, address) ← lift (report_loop (Split (p_data x) [LF]) [] None);
        match address with
        | Some a =>
            if negb (mta ==s []) then
              let name := fst (decode mta $"us-ascii") ++ $" postmaster" in
              hp ← deref (p_header x);
              on_header hp (set_postmaster (NewAddress name $"postmaster" (ToLower (Domain a))))
            else report_parts parts'
        | None => report_parts parts'
        end
      else report_parts parts'
  end.

(** [multipart] is [parseMultipart]: part, text, divider, digest. *)
Definition repair_report (multipart : nat → str → str → bool → mm unit) (hp : nat) (body : str) : mm unit :=
  h ← get_header hp;
  if bool_decide (h_mode h = RFC5322Header) && bounce_or_missing h then
    ct ← lift (Header_ContentType h);
    match ct with
    | Some (_, f) =>
        if is_type $"multipart" $"report" f && (ct_parameter $"report-type" f ==s $"delivery-status") then
          tmp ← new_Part (new_part None None);
          _ ← multipart tmp body (ct_parameter $"boundary" f) false;
          x ← get_part tmp;
          report_parts (p_parts x)
        else mret tt
    | None => mret tt
    end
  else mret tt.

(** ** A bounce address as author *)

(** Where the top-level domain of [victim] starts. *)
Definition find_victim_tld (victim : str) : outcome Z :=
  let n := len victim in
  c ← at_ victim (n - 3);
  tld ← (if c =b "." then Ret (n - 3)
         else c ← at_ victim (n - 4); Ret (if c =b "." then n - 4 else n));
  if tld <? n then
    c ← at_ victim (tld - 3);
    if c =b "." then Ret (tld - 3)
    else
      c ← at_ victim (tld - 4);
      if c =b "." then Ret (tld - 4)
      else if tld =? n - 2 then c ← at_ victim (tld - 5); Ret (if c =b "." then tld - 5 else tld)
      else Ret tld
  else Ret tld.

Definition repair_bounce (occ : str → Z) : hm unit :=
  if (occ FromFieldName =? 1) && (occ MessageIDFieldName =? 1) then
    '(p, from) ← the_address_field FromFieldName;
    match af_list from with
    | [b] =>
        if negb (af_valid from) && is_bounce b then
          al ← gets (Header_Addresses MessageIDFieldName);
          let domain := match default [] al with msgid :: _ => Domain msgid | [] => [] end in
          let me := $"localhost" in
          let victim := ToLower domain in
          tld ← lift (find_victim_tld victim);
          let dot := Index victim $"." in
          '(victim, tld) ← (if dot <? tld then v ← lift (from_ victim (dot + 1)); mret (v, tld - (dot + 1))
                            else mret (victim, tld));
          if negb (victim ==s []) && negb (victim ==s me) && negb (HasSuffix me ($"." ++ victim))
             && (tld <? len victim)
          then
            let replacement :=
              NewAddress ($"postmaster (on behalf of unnamed " ++ domain ++ $" user)") $"postmaster" victim in
            store p (FAddress (set_addresses [replacement] from))
          else mret tt
        else mret tt
    | _ => mret tt
    end
  else mret tt.

(** ** No author at all *)

(** [if strings.HasPrefix(raw, pre) { raw = simplify(raw[len(pre):]) }] *)
Definition strip_prefix (pre raw : str) : outcome str :=
  if HasPrefix raw pre then simplify (drop (length pre) raw) else Ret raw.

(** The display name in the unparsed From field. *)
Definition display_name (raw : str) : outcome str :=
  raw ← simplify raw;
  raw ← (if HasSuffix raw $"<>" then simplify (take (length raw - 2) raw) else Ret raw);
  raw ← strip_prefix [DQUOTE; DQUOTE] raw;
  raw ← strip_prefix [DQUOTE; SP; DQUOTE] raw;
  raw ← (if 3 <? Index raw $"<" then section raw $"<" 1 else Ret raw);
  raw ← (if HasPrefix raw [DQUOTE] && (2 <? Index (drop 1 raw) [DQUOTE] + 1)
         then section raw [DQUOTE] 2 else Ret raw);
  raw ← simplify (unquote (unquote raw DQUOTE BACKSLASH) SQUOTE BACKSLASH);
  let lt := Index raw $"<" in
  raw ← (if (0 <=? lt) && (2 + lt <? Index (drop (Z.to_nat (1 + lt)) raw) $">" + 1 + lt)
         then t ← section raw $"<" 2; t ← section t $">" 1; simplify t else Ret raw);
  raw ← (if HasPrefix raw $"<" && HasSuffix raw $">" then t ← slice raw 1 (len raw - 1); simplify t
         else Ret raw);
  Ret (if len raw <? 3 then [] else raw).

Definition odd_char (c : byte) : bool :=
  one_of $"@<>" c || (bz c <? 32) || ((128 <=? bz c) && (bz c <? 160)).

(** The loop that replaces the odd characters, and counts the others. *)
Fixpoint clean_loop (n : str) (buf : str) (fffd : bool) (known : Z) : str * Z :=
  match n with
  | [] => (buf, known)
  | c :: n' =>
      if odd_char c then clean_loop n' buf true known
      else
        let buf := if fffd && (0 <? len buf) then buf ++ encode_rune RuneError else buf in
        clean_loop n' (buf ++ [c]) false (known + 1)
  end.

Definition clean_name (n : str) : str :=
  if n ==s [] then []
  else let '(buf, known) := clean_loop n [] false 0 in if known <? 3 then [] else buf.

Definition repair_no_from : hm unit :=
  h ← gets id;
  if bool_decide (h_mode h = RFC5322Header)
     && (bounce_or_missing h
         || match field FromFieldName 0 h with
            | Some (_, f) => negb (field_valid f) && absent (Header_Addresses FromFieldName h)
            | None => false
            end)
  then
    let from := addressField FromFieldName 0 h in
    raw ← lift (match from with
                | Some (_, f) => display_name (hf_unparsed (af_hf f))
                | None => display_name []
                end);
    n ← lift (simplify (fst (decode raw $"us-ascii")));
    let a := NewAddress (clean_name n) $"invalid" $"invalid.invalid" in
    match from with
    | Some (p, f) => store p (FAddress (set_addresses [a] f))
    | None =>
        r ← alloc (FAddress (with_list (Some [a]) (NewAddressField FromFieldName)));
        addField r
    end
  else mret tt.

(** ** The remaining blocks *)

Definition repair_reply_to (occ : str → Z) : hm unit :=
  if (0 <? occ FromFieldName) && (0 <? occ ReplyToFieldName) then
    '(_, from) ← the_address_field FromFieldName;
    if af_valid from then
      '(_, rt) ← the_address_field ReplyToFieldName;
      if negb (af_valid rt) && (0 <? len (af_list from)) then RemoveAllNamed ReplyToFieldName else mret tt
    else mret tt
  else mret tt.

(** The shortest and the longest line and the number of line breaks. *)
Fixpoint line_lengths (body : str) (minl maxl l n : Z) : Z * Z * Z :=
  match body with
  | [] => (minl, maxl, n)
  | c :: body' =>
      if (c =b LF) || (c =b CR) then line_lengths body' (Z.min minl l) (Z.max maxl l) 0 (n + 1)
      else line_lengths body' minl maxl (l + 1) n
  end.

Definition repair_bad_encoding (occ : str → Z) (body : str) : hm unit :=
  if 0 <? occ ContentTransferEncodingFieldName then
    h ← gets id;
    cte ← lift (Header_ContentTransferEncoding h);
    match cte with
    | Some (_, f) =>
        if present (field ContentTransferEncodingFieldName 1 h) || negb (hf_valid (mf_hf (cte_mf f))) then
          let '(minl, maxl, n) := line_lengths body (2 ^ 31 - 2) 0 0 0 in
          _ ← RemoveAllNamed ContentTransferEncodingFieldName;
          if (5 <? n) && (maxl =? minl) && (50 <? minl)
          then Add ContentTransferEncodingFieldName $"base64" else mret tt
        else mret tt
    | None => mret tt
    end
  else mret tt.

Definition repair_misplaced (occ : str → Z) : hm unit :=
  if (occ ContentTransferEncodingFieldName =? 0) && (0 <? occ ContentTypeFieldName) then
    h ← gets id;
    ct ← lift (Header_ContentType h);
    match ct with
    | None => lift Panic
    | Some (_, f) =>
        if ct_valid f then mret tt
        else
          phaps ← lift (ContentTransferEncoding_Parse (hf_unparsed (mf_hf (ct_mf f))) NewContentTransferEncoding);
          if hf_valid (mf_hf (cte_mf phaps)) then
            _ ← RemoveAllNamed ContentTransferEncodingFieldName;
            _ ← RemoveAllNamed ContentTypeFieldName;
            r ← alloc (FEncoding phaps);
            _ ← addField r;
            Add $"Content-Type" $"application/octet-stream"
          else mret tt
    end
  else mret tt.

Definition repair_location : hm unit :=
  h ← gets id;
  if negb (no_field ContentBaseFieldName h) || negb (no_field ContentLocationFieldName h)
  then remove_where (λ r, negb (field_valid (snd r))
                          && (named ContentBaseFieldName r || named ContentLocationFieldName r))
  else mret tt.

(** The blocks between the two that look at the store. *)
Definition repair_middle (occ : str → Z) (body : str) : hm unit :=
  _ ← repair_receipt;
  _ ← repair_received occ;
  _ ← repair_droppable occ;
  _ ← repair_senders occ;
  _ ← repair_subjects occ;
  _ ← repair_boundary occ body;
  _ ← repair_from_addresses occ;
  _ ← repair_from_copy occ;
  _ ← repair_two_types occ;
  _ ← repair_many_types occ body;
  _ ← repair_html_types occ;
  repair_sender_domains.

Definition repair_last (occ : str → Z) (body : str) : hm unit :=
  _ ← repair_bounce occ;
  _ ← repair_no_from;
  _ ← repair_reply_to occ;
  _ ← repair_bad_encoding occ body;
  _ ← repair_misplaced occ;
  _ ← repair_location;
  modify (set_verified false).

Definition RepairWithBody (multipart : nat → str → str → bool → mm unit)
    (hp : nat) (p : option nat) (body : str) : mm unit :=
  v ← on_header hp Header_Valid;
  if (v : bool) then mret tt
  else
    h ← get_header hp;
    let occ := occurrences (h_fields h) in
    _ ← on_header hp (remove_duplicates conditions occ);
    _ ← repair_date occ hp p;
    _ ← repair_from occ hp p;
    _ ← on_header hp (repair_middle occ body);
    _ ← repair_report multipart hp body;
    on_header hp (repair_last occ body).
End Repair.
