(* ===== verification/RepairFacts.v ===== *)
(** * Theorems on the repairs of headers: [Repair]

    Every block of [Repair] and [RepairWithBody] ends and keeps the invariant of
    headers. *)

From S2P Require Import Prelude GoStrings GoTime Strings StringsFacts Codec Words WordsFacts.
From S2P Require Import Parser ParserFacts Address AddressFacts AddrParser AddrParserFacts.
From S2P Require Import Fields FieldsFacts MIMEFacts Header HeaderFacts Store Repair.
Open Scope Z_scope.

(** ** Lookup and fuel *)

Lemma find_field_lt fn n fs r : find_field fn n fs = Some r → (n < length fs)%nat.
Proof.
  revert n. induction fs as [|x fs IH]; intros n; [done|]. cbn [find_field length].
  case_if; [destruct n as [|n]; [lia|]|]; intros H%IH; lia.
Qed.

Lemma field_lt fn n h r : field fn n h = Some r → (n < length (h_fields h))%nat.
Proof. apply find_field_lt. Qed.

Lemma occurrences_nonneg fs n : 0 ≤ occurrences fs n.
Proof. induction fs; cbn [occurrences]; [lia|]. case_if; lia. Qed.

Lemma occurrences_none fs n : Forall (λ r, field_name (snd r) ≠ n) fs → occurrences fs n = 0.
Proof.
  induction 1 as [|r fs Hr _ IH]; [done|]. cbn [occurrences]. rewrite IH. case_if; breflect; [done | lia].
Qed.

#[export] Hint Resolve Field_Parse_ends NewHeaderField_ends NewAddressParser_ends skip_unbounded_ends : ends.

Section Repair.
Context {U : UnicodeCase} {CS : Charset} {L : Local} {C : Clock} {CL : CharsetLaws CS}.
Context {N : names}.

(** ** [Repair] *)

Lemma hk_remove_duplicates {P : Header → Prop} {HP : shrinks P} cs occ :
  hkeeps P (remove_duplicates cs occ) (λ _, True).
Proof.
  induction cs as [|c cs IH]; cbn [remove_duplicates]; hgo. apply hk_sweep_all. intros st r fs.
  unfold duplicate_of. cbv zeta. hgo.
Qed.

Lemma nth_type_ends h n : ends (nth_type h n).
Proof. unfold nth_type. solve_ends. Qed.

Lemma nth_type_lt h n r : nth_type h n = Ret (Some r) → (n < length (h_fields h))%nat.
Proof. unfold nth_type. destruct (field _ n h) as [[p f]|] eqn:E; [|done]. intros _. by apply field_lt in E. Qed.

Lemma agree_loop_ends k h n ct other good bad :
  (length (h_fields h) < n + k)%nat → (∀ r, other = Some r → (n < length (h_fields h))%nat) →
  ends (agree_loop k h n ct other good bad).
Proof.
  revert n other good bad. induction k as [|k IH]; intros n other good bad Hk Hn; cbn [agree_loop];
    (destruct other as [[p o]|]; [|done]); (destruct bad; [done|]); specialize (Hn _ eq_refl); [lia|].
  destruct (if negb (ct_type o ==s ct_type ct) || negb (ct_subtype o ==s ct_subtype ct) then _ else _) as [g b].
  apply bind_ends; [apply nth_type_ends|]. intros r Hr. apply IH; [lia|].
  intros x ->. by apply nth_type_lt in Hr.
Qed.

Lemma hk_repair_types occ : hkeeps (inv N) (repair_types occ) (λ _, True).
Proof.
  unfold repair_types. hstep; [|by hstep]. hstep. unfold id.
  destruct (Header_ContentType_gives h H) as (r & Hr & _). rewrite Hr. hstep; [done|]. injection H0 as <-.
  hstep; [|by hstep]. destruct p as [p f]. apply hk_lift_bind.
  { apply agree_loop_ends; [lia|]. intros _ _. subst. unfold Header_ContentType in Hr.
    destruct (field _ 0 h) as [x|] eqn:E; [by apply field_lt in E | done]. }
  intros [good bad] _. hgo.
Qed.

Lemma hk_repair_first_valid names occ : hkeeps (inv N) (repair_first_valid names occ) (λ _, True).
Proof. induction names as [|n names IH]; cbn [repair_first_valid]; hgo. Qed.

Lemma Field_Parse_ok s f : ok_field N f → post (Field_Parse s f) (ok_field N).
Proof.
  intros Hf. pose proof (Field_Parse_ends s f). destruct (Field_Parse s f) as [g| |] eqn:E; [|done..].
  destruct (Field_Parse_kind s f g E) as [Hn Hk]. apply (ok_same f); try done.
  apply (Field_Parse_distinct s f); [apply Hf | done].
Qed.

Lemma hk_repair_version occ : hkeeps (inv N) (repair_version occ) (λ _, True).
Proof.
  unfold repair_version. hstep. hstep; [|by hstep]. hstep; [auto with hkeeps|]. hstep.
  destruct (field _ 0 h0) as [[q f]|] eqn:E; [|by hstep].
  eapply hk_bind; [|by apply hk_store]. apply hk_lift, Field_Parse_ok.
  by apply (inv_field _ _ _ _ H0) in E as [? _].
Qed.

Lemma hk_repair_encoding occ : hkeeps (inv N) (repair_encoding occ) (λ _, True).
Proof. unfold repair_encoding. hstep; [|by hstep]. hstep. haccess; hgo. Qed.

Lemma lower_lpdomains_ends l : ends (lower_lpdomains l).
Proof. induction l as [|a l IH]; cbn [lower_lpdomains]; solve_ends. Qed.
Hint Resolve lower_lpdomains_ends : ends.

Lemma hk_repair_sender occ : hkeeps (inv N) (repair_sender occ) (λ _, True).
Proof. unfold repair_sender. hgo. Qed.
Hint Resolve hk_remove_duplicates hk_repair_types hk_repair_first_valid hk_repair_version
  hk_repair_encoding hk_repair_sender : hkeeps.

Lemma hk_Repair : hkeeps (inv N) Repair (λ _, True).
Proof. unfold Repair. cbv zeta. hgo. Qed.

(** ** The blocks of [RepairWithBody] that work on the header *)

Lemma keeps_assertSingleAddress s : keeps s assertSingleAddress (λ _, True).
Proof.
  unfold assertSingleAddress. eapply keeps_bind; [by apply keeps_gets|]. intros l _.
  eapply keeps_bind; [apply keeps_ends|intros _ _].
  { induction l as [|a l IH]; cbn [assert_formats]; solve_ends. }
  eapply (keeps_bind s _ _ (λ _, True)); [|intros _ _; destruct l; [apply keeps_setError | by apply keeps_ret]].
  induction l as [|a l IH]; cbn [assert_report]; [by apply keeps_ret|].
  eapply (keeps_bind s _ _ (λ _, True)); [|done]. destruct (a_err a); [apply keeps_setError | by apply keeps_ret].
Qed.

Lemma assertSingleAddress_ends p : ends (assertSingleAddress p).
Proof. eapply post_ends. by apply (keeps_assertSingleAddress (ap_s p)). Qed.
Hint Resolve assertSingleAddress_ends : ends.

Lemma single_address_ends f : ends (single_address f).
Proof. unfold single_address. solve_ends. Qed.
Hint Resolve single_address_ends : ends.

Lemma receipt_loop_ends fs a : ends (receipt_loop fs a).
Proof. revert a. induction fs as [|r fs IH]; intros a; cbn [receipt_loop]; solve_ends. Qed.
Hint Resolve receipt_loop_ends : ends.

Lemma hk_repair_receipt : N FromFieldName → hkeeps (inv N) repair_receipt (λ _, True).
Proof. intros HF. unfold repair_receipt. hgo. by apply (hk_Add_named _ _ FromFieldName). Qed.

Lemma hk_Valid_fields {P : Header → Prop} {HP : shrinks P} fs :
  hkeeps (λ h, P h ∧ h_fields h = fs) Header_Valid (λ _, True).
Proof.
  apply hk_seq; [|intros _; by apply hk_gets]. intros h [Hh <-].
  pose proof (hk_verify h Hh) as H. pose proof (verify_fields h) as Hv.
  destruct (verify h) as [[a h']| |]; [|done..]. by destruct H, Hv.
Qed.
Hint Resolve hk_Valid_fields : hkeeps.

Lemma hk_repair_received occ : hkeeps (inv N) (repair_received occ) (λ _, True).
Proof. unfold repair_received. hgo. apply hk_sweep_all. intros st r fs. hgo. Qed.

Lemma hk_repair_droppable occ : hkeeps (inv N) (repair_droppable occ) (λ _, True).
Proof. unfold repair_droppable. hgo. Qed.

Lemma good_sender_ends fs from : ends (good_sender fs from).
Proof. induction fs as [|r fs IH]; cbn [good_sender]; solve_ends. Qed.
Hint Resolve good_sender_ends : ends.

Lemma hk_repair_senders occ : hkeeps (inv N) (repair_senders occ) (λ _, True).
Proof. unfold repair_senders. hgo. Qed.

Lemma bad_subjects_ends fs : ends (bad_subjects fs).
Proof. induction fs as [|r fs IH]; cbn [bad_subjects]; unfold bad_subject; solve_ends. Qed.
Hint Resolve bad_subjects_ends : ends.

Lemma hk_remove_each l : hkeeps (inv N) (remove_each l) (λ _, True).
Proof. induction l as [|r l IH]; cbn [remove_each]; hgo. Qed.
Hint Resolve hk_remove_each : hkeeps.

Lemma hk_repair_subjects occ : hkeeps (inv N) (repair_subjects occ) (λ _, True).
Proof. unfold repair_subjects. hgo. Qed.

Lemma boundary_candidate_ends body cand b : ends (boundary_candidate body cand b).
Proof. unfold boundary_candidate. solve_ends. Qed.

Lemma boundary_loop_ends n body cand b done confused :
  len body < cand + Z.of_nat n → ends (boundary_loop n body cand b done confused).
Proof.
  revert cand b done confused. induction n as [|n IH]; intros cand b dn confused Hn; cbn [boundary_loop];
    (destruct (_ && negb confused) eqn:E; [|done]); rewrite !andb_true_iff in E; breflect; [lia|].
  apply bind_ends; [apply boundary_candidate_ends|]. intros [[b' d'] c'] _. cbv zeta.
  apply bind_ends; [auto with ends|]. intros t _. case_if; breflect.
  - apply IH. lia.
  - destruct n; cbn [boundary_loop]; (destruct (_ && negb c') eqn:E2; [|done]);
      rewrite !andb_true_iff in E2; breflect; lia.
Qed.

Lemma hk_repair_boundary occ body : hkeeps (inv N) (repair_boundary occ body) (λ _, True).
Proof.
  unfold repair_boundary. hstep; [|by hstep]. hstep. haccess; [|by hstep]. hstep; [|by hstep].
  hstep; [auto with ends|]. apply skip_unbounded_ge in H1. apply hk_lift_bind; [apply boundary_loop_ends; lia|].
  intros [b c] _. hstep; [|by hstep]. apply hk_store, (ok_same (FContentType f)); [done..| |done].
  apply addParameter_distinct; [done | apply H0].
Qed.

Lemma localpartIsSensible_ends a : ends (localpartIsSensible a).
Proof. unfold localpartIsSensible. solve_ends. apply sensible_loop_ends. Qed.
Hint Resolve localpartIsSensible_ends : ends.

Lemma good_addresses_ends l : ends (good_addresses l).
Proof. induction l as [|a l IH]; cbn [good_addresses]; solve_ends. Qed.
Hint Resolve good_addresses_ends : ends.

(** The result of [the_address_field]. *)
Lemma hk_the_address_field fn :
  hkeeps (inv N) (the_address_field fn) (λ '(_, f), ok_field N (FAddress f) ∧ hf_name (af_hf f) = fn).
Proof.
  unfold the_address_field. hstep. destruct (addressField fn 0 h) as [[p f]|] eqn:E; [|by hstep].
  hstep. by apply (inv_addressField _ _ _ _ _ H) in E.
Qed.

Lemma hk_set_addresses p f l : ok_field N (FAddress f) → hkeeps (inv N) (store p (FAddress (set_addresses l f))) (λ _, True).
Proof. intros Hf. by apply hk_store, (ok_address f). Qed.
Hint Resolve hk_set_addresses : hkeeps.

Lemma hk_repair_from_addresses occ : hkeeps (inv N) (repair_from_addresses occ) (λ _, True).
Proof.
  unfold repair_from_addresses. hstep; [|by hstep]. eapply hk_bind; [apply hk_the_address_field|].
  intros [p f] [Hf _]. hgo.
Qed.

Lemma hk_repair_from_copy occ : hkeeps (inv N) (repair_from_copy occ) (λ _, True).
Proof.
  unfold repair_from_copy. hstep; [|by hstep]. eapply hk_bind; [apply hk_the_address_field|].
  intros [p f] [Hf _]. hgo.
Qed.

Lemma the_type_ends h n : ends (the_type h n).
Proof. unfold the_type. solve_ends. Qed.
Hint Resolve the_type_ends : ends.

Lemma hk_repair_two_types occ : hkeeps (inv N) (repair_two_types occ) (λ _, True).
Proof. unfold repair_two_types. cbv zeta. hgo. Qed.

Lemma hk_repair_sender_domains : hkeeps (inv N) repair_sender_domains (λ _, True).
Proof.
  unfold repair_sender_domains. hstep. destruct (addressField _ 0 (id h)) as [[p f]|] eqn:E; [|by hstep].
  apply (inv_addressField _ _ _ _ _ H) in E as [Hf _]. cbv zeta. hgo.
Qed.

Lemma ptr_inj (fs : list ref) x y : NoDup (map fst fs) → x ∈ fs → y ∈ fs → fst x = fst y → x = y.
Proof.
  intros Hd Hx Hy E. apply list_elem_of_lookup in Hx as [i Hi], Hy as [j Hj].
  assert (i = j) as ->; [|congruence]. apply (NoDup_lookup (map fst fs) i j (fst x)); [done | |];
    change (map fst fs) with (fst <$> fs); rewrite list_lookup_fmap, ?Hi, ?Hj; simpl; congruence.
Qed.

(** A Content-Type field of the header takes the place of all of them. *)
Definition type_of (h : Header) (r : ref) : Prop := r ∈ h_fields h ∧ field_name (snd r) = ContentTypeFieldName.

Lemma type_of_field h n r : field ContentTypeFieldName n h = Some r → type_of h r.
Proof. apply find_field_elem. Qed.

Lemma replace_types_post r h : inv N h → type_of h r → post (replace_types r h) (λ '(_, h'), inv N h').
Proof.
  intros Hh [Hr Hn]. unfold replace_types, RemoveAllNamed. rewrite (pbind_ret _ _ _ _ _ (remove_where_eq _ h)).
  pose proof Hh as [H1 H2 H3 _]. set (fs := List.filter _ (h_fields h)).
  assert (fs `sublist_of` h_fields h) as Hs by apply filter_sublist. apply addField_post.
  - by apply shrink_fields.
  - split; [by apply (proj1 (Forall_forall _ _) H2)|]. cbn [set_fields h_fields].
    intros (x & Hx & Hin)%list_elem_of_fmap. apply list_elem_of_In, filter_In in Hin as [Hin Hc].
    apply list_elem_of_In in Hin.
    assert (x = r) as -> by by eapply ptr_inj. by rewrite Hn, str_eqb_refl in Hc.
  - by apply (proj1 (Forall_forall _ _) H3).
Qed.

Lemma post_lift_bind {A B} (m : outcome A) (k : A → hm B) h (Q : B * Header → Prop) (R : A → Prop) :
  post m R → (∀ a, R a → post (k a h) Q) → post ((lift m ≫= k) h) Q.
Proof. 
  intros Hm Hk. apply (pbind_post _ _ _ (λ '(a, h'), h' = h ∧ R a)).
  - unfold lift. by destruct m.
  - intros a h' [-> Ha]. by apply Hk.
Qed.

Lemma judge_type_ends body f : ends (judge_type body f).
Proof. unfold judge_type. cbv zeta. solve_ends. Qed.
Hint Resolve judge_type_ends : ends.

Lemma judge_loop_post k h body i good neutral :
  (length (h_fields h) < i + k)%nat → Forall (type_of h) good → Forall (type_of h) neutral →
  post (judge_loop k h body i good neutral) (λ '(g, n), Forall (type_of h) g ∧ Forall (type_of h) n).
Proof.
  revert i good neutral. induction k as [|k IH]; intros i good neutral Hk Hg Hn; cbn [judge_loop];
    (destruct (field _ i h) as [r|] eqn:E; [|done]); [apply field_lt in E; lia|].
  destruct (snd r); try done. eapply post_bind; [by apply ends_post, judge_type_ends|]. intros v _.
  apply type_of_field in E. apply IH; [lia|..]; destruct v; try done; by apply Forall_app; split; [|constructor].
Qed.

Lemma hk_repair_many_types occ body : hkeeps (inv N) (repair_many_types occ body) (λ _, True).
Proof.
  intros h Hh. unfold repair_many_types. case_if; [|done]. rewrite (pbind_ret (gets id) _ h _ h eq_refl).
  eapply post_lift_bind; [apply judge_loop_post; [unfold id; lia | done | done]|].
  intros [good neutral] [Hg Hn].
  assert (∀ r, type_of h r → post (replace_types r h) (λ '(_, h'), inv N h' ∧ True)) as Hr.
  { intros r Hr. eapply post_mono; [by apply replace_types_post|]. by intros [a h']. }
  destruct good as [|g good]; [destruct neutral as [|n [|]]; try done|].
  - apply Hr. by apply Forall_cons in Hn as [? _].
  - apply Hr. by apply Forall_cons in Hg as [? _].
Qed.

Lemma all_html_ends k h i ct :
  (length (h_fields h) < i + k)%nat → (∀ f, ct = Some f → (i <= length (h_fields h))%nat) →
  ends (all_html k h i ct).
Proof.
  revert i ct. induction k as [|k IH]; intros i ct Hk Hi; cbn [all_html]; (destruct ct as [f|]; [|done]);
    (case_if; [|done]); specialize (Hi f eq_refl); [lia|].
  apply IH; [lia|]. intros g Hg. destruct (field _ i h) as [[p x]|] eqn:E; [|done]. apply field_lt in E. lia.
Qed.

Lemma hk_repair_html_types occ : hkeeps (inv N) (repair_html_types occ) (λ _, True).
Proof.
  intros h Hh. unfold repair_html_types. case_if; [|done]. rewrite (pbind_ret (gets id) _ h _ h eq_refl).
  unfold id. eapply (post_lift_bind _ _ _ _ (λ ct, ∀ p f, ct = Some (p, f) → field ContentTypeFieldName 0 h = Some (p, FContentType f))).
  { unfold Header_ContentType. destruct (field _ 0 h) as [[p [f|f|f|f|f|f|f]]|] eqn:E; try done.
    intros ? ? [= <- <-]. done. }
  intros ct Hct. eapply (post_lift_bind _ _ _ _ (λ _, True)).
  { apply ends_post, all_html_ends; [lia|]. destruct ct as [[p f]|]; [|done]. intros _ _.
    specialize (Hct p f eq_refl). apply field_lt in Hct. lia. }
  intros b _. destruct b; [|done]. destruct ct as [[p f]|].
  - specialize (Hct p f eq_refl). eapply post_mono; [apply replace_types_post; [done | by apply type_of_field in Hct]|].
    by intros [a h'].
  - unfold RemoveAllNamed. by rewrite (pbind_ret _ _ _ _ _ (remove_where_eq _ h)).
Qed.

Hint Resolve hk_repair_receipt hk_repair_received hk_repair_droppable hk_repair_senders hk_repair_subjects
  hk_repair_boundary hk_repair_from_addresses hk_repair_from_copy hk_repair_two_types hk_repair_many_types
  hk_repair_html_types hk_repair_sender_domains : hkeeps.

Lemma hk_repair_middle occ body : N FromFieldName → hkeeps (inv N) (repair_middle occ body) (λ _, True).
Proof. intros HF. unfold repair_middle. hgo. Qed.

Lemma find_victim_tld_ends v : ends (find_victim_tld v).
Proof. unfold find_victim_tld. cbv zeta. solve_ends. Qed.
Hint Resolve find_victim_tld_ends : ends.

Lemma hk_repair_bounce occ : hkeeps (inv N) (repair_bounce occ) (λ _, True).
Proof.
  unfold repair_bounce. hstep; [|by hstep]. eapply hk_bind; [apply hk_the_address_field|].
  intros [p f] [Hf _]. destruct (af_list f) as [|b [|]]; [by hstep| |by hstep]. cbv zeta. hgo.
Qed.

Lemma display_name_ends raw : ends (display_name raw).
Proof. unfold display_name, strip_prefix. cbv zeta. solve_ends. Qed.
Hint Resolve display_name_ends : ends.

Lemma ok_new_from l : N FromFieldName → ok_field N (FAddress (with_list l (NewAddressField FromFieldName))).
Proof. intros HF. split; [split; [done | constructor] | done]. Qed.

Lemma hk_repair_no_from : N FromFieldName → hkeeps (inv N) repair_no_from (λ _, True).
Proof.
  intros HF. unfold repair_no_from. cbv zeta. hstep. hstep; [|by hstep]. hstep; [solve_ends|].
  hstep; [auto with ends|]. destruct (addressField _ 0 (id h)) as [[p f]|] eqn:E.
  - apply hk_set_addresses. by apply (inv_addressField _ _ _ _ _ H) in E as [? _].
  - by apply hk_alloc_add, ok_new_from.
Qed.

Lemma hk_repair_reply_to occ : hkeeps (inv N) (repair_reply_to occ) (λ _, True).
Proof.
  unfold repair_reply_to. hstep; [|by hstep]. eapply hk_bind; [apply hk_the_address_field|].
  intros [p f] [Hf _]. hstep; [|by hstep]. eapply hk_bind; [apply hk_the_address_field|]. intros [q g] _. hgo.
Qed.

Lemma hk_repair_bad_encoding occ body :
  N ContentTransferEncodingFieldName → hkeeps (inv N) (repair_bad_encoding occ body) (λ _, True).
Proof.
  intros HN. unfold repair_bad_encoding. hstep; [|by hstep]. hstep. haccess; [|by hstep]. hgo.
  by apply (hk_Add_named _ _ ContentTransferEncodingFieldName).
Qed.

Lemma CTE_Parse_ok s :
  N ContentTransferEncodingFieldName →
  post (ContentTransferEncoding_Parse s NewContentTransferEncoding) (λ g, ok_field N (FEncoding g)).
Proof.
  intros HE. pose proof (Field_Parse_ok s (FEncoding NewContentTransferEncoding)) as H. cbn [Field_Parse] in H.
  destruct (ContentTransferEncoding_Parse s NewContentTransferEncoding) as [g| |]; apply H;
    (split; [split; [done | constructor] | done]).
Qed.

(** The block adds a Content-Type field only where there was one. *)
Lemma hk_repair_misplaced occ :
  N ContentTransferEncodingFieldName → (occ ContentTypeFieldName = 0 ∨ N ContentTypeFieldName) →
  hkeeps (inv N) (repair_misplaced occ) (λ _, True).
Proof.
  intros HE HT. unfold repair_misplaced. hstep; [|by hstep].
  assert (N ContentTypeFieldName) as HN.
  { destruct HT as [E | ?]; [|done]. apply andb_prop in Heqb as [_ ?]. breflect. lia. }
  hstep. haccess; [|by hstep]. hstep; [by hstep|].
  eapply hk_bind; [apply hk_lift, CTE_Parse_ok, HE|]. intros g Hg. hstep; [|by hstep]. do 2 (hstep; [auto with hkeeps|]).
  apply hk_alloc_add_then; [done|]. intros q. by apply (hk_Add_named _ _ ContentTypeFieldName).
Qed.

Lemma hk_repair_location : hkeeps (inv N) repair_location (λ _, True).
Proof. unfold repair_location. hgo. Qed.
Hint Resolve hk_repair_bounce hk_repair_no_from hk_repair_reply_to hk_repair_bad_encoding hk_repair_misplaced
  hk_repair_location : hkeeps.

Lemma hk_repair_last occ body :
  N FromFieldName → N ContentTransferEncodingFieldName →
  (occ ContentTypeFieldName = 0 ∨ N ContentTypeFieldName) → hkeeps (inv N) (repair_last occ body) (λ _, True).
Proof. intros HF HE HT. unfold repair_last. hgo. apply hk_modify. by intros h []. Qed.

Lemma hk_set_postmaster a : N FromFieldName → hkeeps (inv N) (set_postmaster a) (λ _, True).
Proof.
  intros HF. unfold set_postmaster. hstep. destruct (addressField _ 0 h) as [[p f]|] eqn:E.
  - apply hk_set_addresses. by apply (inv_addressField _ _ _ _ _ H) in E as [? _].
  - apply hk_alloc_add_then; [by apply (ok_new_from None)|]. intros p. by apply hk_store, ok_new_from.
Qed.
End Repair.
