(* ===== verification/StoreFacts.v ===== *)
(** * Theorems on the store of a message: [Store]

    The invariant of the store, the actions that keep it, and the blocks of
    [RepairWithBody] that look at the parts around a header. *)

From S2P Require Import Prelude GoStrings GoTime Strings StringsFacts Codec Words WordsFacts.
From S2P Require Import Parser ParserFacts Address AddressFacts AddrParser AddrParserFacts.
From S2P Require Import Fields FieldsFacts MIMEFacts Header HeaderFacts Store Repair RepairFacts.
Open Scope nat_scope.

(** ** The invariant *)

Abbreviation parts_of st := (length (st_parts st)).
Abbreviation headers_of st := (length (st_headers st)).

(** The pointers of the part [i]: its parent was made before it, its children
    and the part of the message in it after it. *)
Record wf_part (st : Store) (i : nat) (x : Part) : Prop := {
  wp_parent : ∀ q, p_parent x = Some q → q < i;
  wp_header : ∀ h, p_header x = Some h → h < headers_of st;
  wp_parts : Forall (λ c, i < c < parts_of st) (p_parts x);
  wp_message : ∀ m, p_message x = Some m → ∃ msg, st_messages st !! m = Some msg ∧ i < m_part msg
}.

(** [K] says which names the fields of each header can have. *)
Record wf_store (K : nat → names) (st : Store) : Prop := {
  ws_headers : ∀ i h, st_headers st !! i = Some h → inv (K i) h;
  ws_parts : ∀ i x, st_parts st !! i = Some x → wf_part st i x;
  ws_messages : ∀ m msg, st_messages st !! m = Some msg → m_part msg < parts_of st
}.

(** Objects are added and none is taken away.  The parts of the messages in [B]
    are replaced by later parts only, those of other messages stay. *)
Record extends (B : nat → Prop) (st st' : Store) : Prop := {
  ext_parts : parts_of st ≤ parts_of st';
  ext_headers : headers_of st ≤ headers_of st';
  ext_messages : ∀ m msg, st_messages st !! m = Some msg →
    ∃ msg', st_messages st' !! m = Some msg' ∧ m_part msg ≤ m_part msg' ∧ (¬ B m → m_part msg' = m_part msg)
}.

Arguments ext_parts {_ _ _}.
Arguments ext_headers {_ _ _}.
Arguments ext_messages {_ _ _}.

Definition no_message (m : nat) : Prop := False.

#[global] Instance extends_refl B : Reflexive (extends B).
Proof. intros st. split; eauto. Qed.

#[global] Instance extends_trans B : Transitive (extends B).
Proof.
  intros a b c [H1 H2 H3] [H4 H5 H6]. split; [lia | lia|]. intros m msg Hm.
  destruct (H3 m msg Hm) as (msg' & Hm' & ? & E). destruct (H6 m msg' Hm') as (msg'' & ? & ? & E').
  exists msg''. split_and!; [done | lia|]. intros HB. by rewrite E', E.
Qed.

Lemma extends_same B st st' :
  parts_of st ≤ parts_of st' → headers_of st ≤ headers_of st' → st_messages st' = st_messages st → extends B st st'.
Proof. intros H1 H2 E. split; [done | done|]. rewrite E. eauto. Qed.

Lemma wf_part_extends B st st' i x : extends B st st' → wf_part st i x → wf_part st' i x.
Proof.
  intros [H1 H2 H3] [W1 W2 W3 W4]. split; [done | | |].
  - intros h Hh. specialize (W2 h Hh). lia.
  - eapply Forall_impl; [exact W3|]. simpl. lia.
  - intros m Hm. destruct (W4 m Hm) as (msg & E & ?). destruct (H3 m msg E) as (msg' & ? & ? & _).
    exists msg'. split; [done | lia].
Qed.

(** ** Actions that keep the invariant *)

(** On the store [st] the action [m] ends, keeps the invariant, extends the
    store, and returns a value with [Q]. *)
Definition mkeeps {A} (K : nat → names) (B : nat → Prop) (st : Store) (m : mm A) (Q : A → Store → Prop) : Prop :=
  wf_store K st → post (m st) (λ '(a, st'), wf_store K st' ∧ extends B st st' ∧ Q a st').

Section Rules.
Context {K : nat → names} {B : nat → Prop}.

Lemma mk_ret {A} st (a : A) (Q : A → Store → Prop) : Q a st → mkeeps K B st (mret a) Q.
Proof. intros H Hst. by split_and!. Qed.

Lemma mk_bind {A A'} st (m : mm A) (f : A → mm A') (R : A → Store → Prop) (Q : A' → Store → Prop) :
  mkeeps K B st m R → (∀ a st', wf_store K st' → extends B st st' → R a st' → mkeeps K B st' (f a) Q) →
  mkeeps K B st (m ≫= f) Q.
Proof.
  intros Hm Hf Hst. eapply pbind_post; [by apply Hm|]. intros a st' (Hst' & He & Ha).
  eapply post_mono; [by apply (Hf a st')|]. intros [b st''] (? & ? & ?). split_and!; [done | by trans st' | done].
Qed.

Lemma mk_mono {A} st (m : mm A) (R Q : A → Store → Prop) :
  mkeeps K B st m R → (∀ a st', wf_store K st' → extends B st st' → R a st' → Q a st') → mkeeps K B st m Q.
Proof.
  intros Hm HQ Hst. eapply post_mono; [by apply Hm|]. intros [a st'] (? & ? & ?). split_and!; auto.
Qed.

Lemma mk_wf {A} st (m : mm A) Q : (wf_store K st → mkeeps K B st m Q) → mkeeps K B st m Q.
Proof. intros Hm Hst. by apply Hm. Qed.

Lemma mk_seq {A A'} st (m : mm A) (f : A → mm A') (Q : A' → Store → Prop) :
  mkeeps K B st m (λ _ _, True) → (∀ a st', mkeeps K B st' (f a) Q) → mkeeps K B st (m ≫= f) Q.
Proof. intros Hm Hf. eapply mk_bind; [exact Hm | auto]. Qed.

Lemma mk_lift_bind {A A'} st (m : outcome A) (k : A → mm A') Q :
  ends m → (∀ a, m = Ret a → mkeeps K B st (k a) Q) → mkeeps K B st (lift m ≫= k) Q.
Proof.
  intros Hm Hk Hst. unfold lift. destruct m as [a| |]; [|done..]. simpl. by apply Hk.
Qed.

Lemma mk_lift {A} st (m : outcome A) : ends m → mkeeps K B st (lift m) (λ _ _, True).
Proof. intros Hm Hst. unfold lift. by destruct m. Qed.

Lemma mk_panic {A} st (Q : A → Store → Prop) : mkeeps K B st (lift Panic) Q.
Proof. done. Qed.

Lemma mk_gets_bind {A A'} st (f : Store → A) (k : A → mm A') Q :
  mkeeps K B st (k (f st)) Q → mkeeps K B st (gets f ≫= k) Q.
Proof. done. Qed.

Lemma mk_get_part_bind {A'} st p (k : Part → mm A') Q :
  (∀ x, st_parts st !! p = Some x → wf_part st p x → mkeeps K B st (k x) Q) → mkeeps K B st (get_part p ≫= k) Q.
Proof.
  intros Hk Hst. destruct (st_parts st !! p) as [x|] eqn:E.
  2:{ rewrite pbind_panic; [done|]. unfold get_part. by rewrite E. }
  rewrite (pbind_ret _ _ _ x st) by (unfold get_part; by rewrite E).
  apply Hk; [done | by apply (ws_parts K st) | done].
Qed.

Lemma mk_get_header_bind {A'} st p (k : Header → mm A') Q :
  (∀ x, st_headers st !! p = Some x → inv (K p) x → mkeeps K B st (k x) Q) →
  mkeeps K B st (get_header p ≫= k) Q.
Proof.
  intros Hk Hst. destruct (st_headers st !! p) as [x|] eqn:E.
  2:{ rewrite pbind_panic; [done|]. unfold get_header. by rewrite E. }
  rewrite (pbind_ret _ _ _ x st) by (unfold get_header; by rewrite E).
  apply Hk; [done | by apply (ws_headers K st) | done].
Qed.

Lemma mk_get_message_bind {A'} st p (k : Message → mm A') Q :
  (∀ x, st_messages st !! p = Some x → m_part x < parts_of st → mkeeps K B st (k x) Q) →
  mkeeps K B st (get_message p ≫= k) Q.
Proof.
  intros Hk Hst. destruct (st_messages st !! p) as [x|] eqn:E.
  2:{ rewrite pbind_panic; [done|]. unfold get_message. by rewrite E. }
  rewrite (pbind_ret _ _ _ x st) by (unfold get_message; by rewrite E).
  apply Hk; [done | by apply (ws_messages K st Hst p) | done].
Qed.

Lemma mk_deref_bind {A A'} st (p : option A) (k : A → mm A') Q :
  (∀ x, p = Some x → mkeeps K B st (k x) Q) → mkeeps K B st (deref p ≫= k) Q.
Proof. intros Hk. destruct p; [by apply Hk | done]. Qed.
End Rules.

Lemma mk_equiv {A} (K K' : nat → names) B st (m : mm A) Q :
  (∀ st, wf_store K st ↔ wf_store K' st) → mkeeps K' B st m Q → mkeeps K B st m Q.
Proof.
  intros HK Hm Hst%HK. eapply post_mono; [by apply Hm|]. intros [a st'] (?%HK & ? & ?). done.
Qed.

(** The messages an action can change: more of them, or only ones it makes. *)
Lemma mk_widen {A} (K : nat → names) (B B' : nat → Prop) st (m : mm A) (Q : A → Store → Prop) :
  (∀ k, B k → B' k) → mkeeps K B st m Q → mkeeps K B' st m (λ a st', Q a st' ∧ extends B st st').
Proof.
  intros HB Hm Hst. eapply post_mono; [by apply Hm|]. intros [a st'] (? & He & ?). split_and!; try done.
  destruct He as [H1 H2 H3]. split; [done | done|]. intros k msg Hk.
  destruct (H3 k msg Hk) as (msg' & ? & ? & Hn). exists msg'. split_and!; [done | done|]. auto.
Qed.

(** A step that keeps a stronger invariant and fewer messages. *)
Lemma mk_bind_via {A A'} (K K' : nat → names) (B B' : nat → Prop) st (m : mm A) (f : A → mm A')
    (R : A → Store → Prop) Q :
  (∀ st, wf_store K st → wf_store K' st) → (∀ k, B k → B' k) → wf_store K st → mkeeps K B st m R →
  (∀ a st', wf_store K st' → extends B st st' → R a st' → mkeeps K' B' st' (f a) Q) →
  mkeeps K' B' st (m ≫= f) Q.
Proof.
  intros HK HB Hst Hm Hf. apply (mk_bind _ _ _ (λ a st', wf_store K st' ∧ R a st' ∧ extends B st st')).
  - intros _. eapply post_mono; [by apply (mk_widen K B B')|]. intros [a st'] (? & ? & ? & ?). split_and!; auto.
  - intros a st' _ _ (? & ? & ?). by apply Hf.
Qed.

Lemma mk_narrow {A} (K : nat → names) (B B' : nat → Prop) st (m : mm A) Q :
  (∀ k, B k → length (st_messages st) ≤ k) → mkeeps K B st m Q → mkeeps K B' st m Q.
Proof.
  intros HB Hm Hst. eapply post_mono; [by apply Hm|]. intros [a st'] (? & He & ?). split_and!; try done.
  destruct He as [H1 H2 H3]. split; [done | done|]. intros k msg Hk.
  destruct (H3 k msg Hk) as (msg' & ? & ? & Hn). exists msg'. split_and!; [done | done|]. intros _. apply Hn.
  intros Hbk%HB. apply lookup_lt_Some in Hk. lia.
Qed.

(** Steps through an action on the store. *)
Ltac mstep :=
  lazymatch goal with
  | |- mkeeps _ _ _ (mret _) _ => apply mk_ret
  | |- mkeeps _ _ _ (lift Panic) _ => apply mk_panic
  | |- mkeeps _ _ _ (lift _) (λ _ _, True) => apply mk_lift
  | |- mkeeps _ _ _ (gets _ ≫= _) _ => apply mk_gets_bind
  | |- mkeeps _ _ _ (lift _ ≫= _) _ => apply mk_lift_bind; [|intros ? ?]
  | |- mkeeps _ _ _ (get_part _ ≫= _) _ => apply mk_get_part_bind; intros ? ? ?
  | |- mkeeps _ _ _ (get_header _ ≫= _) _ => apply mk_get_header_bind; intros ? ? ?
  | |- mkeeps _ _ _ (get_message _ ≫= _) _ => apply mk_get_message_bind; intros ? ? ?
  | |- mkeeps _ _ _ (deref _ ≫= _) _ => apply mk_deref_bind; intros ? ?
  | |- mkeeps _ _ _ (if ?b then _ else _) _ => destruct b eqn:?
  | |- mkeeps _ _ _ (match ?x with _ => _ end) _ => destruct x eqn:?
  end.

Section Objects.
Context {K : nat → names} {B : nat → Prop}.

Lemma mk_on_header {A} st h (m : hm A) (Q : A → Prop) :
  hkeeps (inv (K h)) m Q →
  mkeeps K B st (on_header h m) (λ a st', Q a ∧ st_parts st' = st_parts st ∧ st_messages st' = st_messages st
    ∧ ∃ x y, st_headers st !! h = Some x ∧ m x = Ret (a, y) ∧ st_headers st' !! h = Some y).
Proof.
  intros Hm [W1 W2 W3]. unfold on_header. destruct (st_headers st !! h) as [x|] eqn:E; [|done].
  pose proof (Hm x (W1 h x E)) as Hx. destruct (m x) as [[a y]| |] eqn:Ex; [|done..]. destruct Hx as [Hy Ha].
  change (Ret (a, y) ≫= _) with (Ret (a, set_headers (<[h:=y]> (st_headers st)) st)).
  assert (extends B st (set_headers (<[h:=y]> (st_headers st)) st)) as He
    by (split; cbn [set_headers st_parts st_headers st_messages]; [done | by rewrite length_insert | eauto]).
  split_and!; try done; [|exists x, y; split_and!; [done | done|]; by eapply list_lookup_insert_eq, lookup_lt_Some].
  split; [|intros i z Hz; eapply wf_part_extends; eauto | done].
  intros i z Hz. cbn [set_headers st_headers] in Hz.
  apply list_lookup_insert_Some in Hz as [(<- & <- & _) | [_ Hz]]; [done | by apply W1].
Qed.

Lemma mk_on_part st p (f : Part → Part) :
  (∀ x, st_parts st !! p = Some x → wf_part st p x → wf_part st p (f x)) →
  mkeeps K B st (on_part p f) (λ _ st', parts_of st' = parts_of st ∧ st_messages st' = st_messages st).
Proof.
  intros Hf. unfold on_part. mstep. intros [W1 W2 W3]. set (st' := set_parts (<[p:=f x]> (st_parts st)) st).
  assert (parts_of st' = parts_of st) as Hl by apply length_insert.
  assert (extends B st st') as He by (split; [lia | done | eauto]).
  change (modify _ st) with (Ret (tt, st')). split_and!; [|done..]. split; [done | |].
  - intros i z Hz. eapply wf_part_extends; [exact He|]. cbn [st' set_parts st_parts] in Hz.
    apply list_lookup_insert_Some in Hz as [(<- & <- & _) | [_ Hz]]; [by apply Hf; [|apply W2] | by apply W2].
  - intros m msg Hm. rewrite Hl. by apply (W3 m).
Qed.

Lemma mk_new_Part st x :
  wf_part st (parts_of st) x →
  mkeeps K B st (new_Part x) (λ i st', i = parts_of st ∧ parts_of st' = S (parts_of st)
    ∧ st_messages st' = st_messages st ∧ st_headers st' = st_headers st ∧ st_parts st' !! i = Some x).
Proof.
  intros Hx [W1 W2 W3]. set (st' := set_parts (st_parts st ++ [x]) st).
  assert (parts_of st' = S (parts_of st)) as Hl by (cbn [st' set_parts st_parts]; rewrite length_app; simpl; lia).
  assert (extends B st st') as He by (split; [lia | done | eauto]).
  change (new_Part x st) with (Ret (parts_of st, st')). split_and!; try done.
  - split; [done | |].
    + intros i z Hz. eapply wf_part_extends; [exact He|]. cbn [st' set_parts st_parts] in Hz.
      apply lookup_app_Some in Hz as [Hz | [Hi Hz]]; [by apply W2|].
      apply list_lookup_singleton_Some in Hz as [Hi' <-]. by replace i with (parts_of st) by lia.
    + intros m msg Hm. rewrite Hl. specialize (W3 m msg Hm). lia.
  - cbn [st' set_parts st_parts]. apply list_lookup_middle. done.
Qed.

Lemma mk_new_Header st h :
  inv (K (headers_of st)) h →
  mkeeps K B st (new_Header h) (λ i st', i = headers_of st ∧ headers_of st' = S (headers_of st)
    ∧ st_parts st' = st_parts st ∧ st_messages st' = st_messages st ∧ st_headers st' !! i = Some h).
Proof.
  intros Hx [W1 W2 W3]. set (st' := set_headers (st_headers st ++ [h]) st).
  assert (headers_of st' = S (headers_of st)) as Hl by (cbn [st' set_headers st_headers]; rewrite length_app; simpl; lia).
  assert (extends B st st') as He by (split; [done | lia | eauto]).
  change (new_Header h st) with (Ret (headers_of st, st')). split_and!; try done.
  - split; [|intros i z Hz; eapply wf_part_extends; [exact He | by apply W2] | done].
    intros i z Hz. cbn [st' set_headers st_headers] in Hz.
    apply lookup_app_Some in Hz as [Hz | [Hi Hz]]; [by apply W1|].
    apply list_lookup_singleton_Some in Hz as [Hi' <-]. by replace i with (headers_of st) by lia.
  - cbn [st' set_headers st_headers]. apply list_lookup_middle. done.
Qed.

Lemma mk_on_message st m (f : Message → Message) :
  (∀ x, st_messages st !! m = Some x →
     m_part x ≤ m_part (f x) < parts_of st ∧ (¬ B m → m_part (f x) = m_part x)) →
  mkeeps K B st (on_message m f) (λ _ _, True).
Proof.
  intros Hf. unfold on_message. mstep. intros [W1 W2 W3]. destruct (Hf x H) as [Hf1 Hf2].
  set (st' := set_messages (<[m:=f x]> (st_messages st)) st).
  assert (extends B st st') as He.
  { split; [done | done|]. intros k msg Hk. cbn [st' set_messages st_messages].
    destruct (decide (k = m)) as [-> | Hne].
    - rewrite list_lookup_insert_eq by (by eapply lookup_lt_Some). exists (f x).
      assert (msg = x) as -> by congruence. split_and!; [done | lia | done].
    - rewrite list_lookup_insert_ne by done. eauto. }
  change (modify _ st) with (Ret (tt, st')). split_and!; [|done..].
  split; [done | intros i z Hz; eapply wf_part_extends; [exact He | by apply W2]|].
  intros k msg Hk. cbn [st' set_messages st_messages] in Hk.
  apply list_lookup_insert_Some in Hk as [(<- & <- & _) | [_ Hk]]; [apply Hf1 | by apply (W3 k)].
Qed.

Lemma mk_NewMessage st :
  mkeeps K B st NewMessage (λ m st', m = length (st_messages st)
    ∧ ∃ msg, st_messages st' !! m = Some msg ∧ m_part msg = parts_of st).
Proof.
  unfold NewMessage. eapply mk_bind; [apply mk_new_Part; split; done|].
  intros p st' Hst' He (-> & Hl & Hm & _ & _). mstep.
  intros [W1 W2 W3]. set (msg := {| m_part := parts_of st; RFC822Size := 0 |}).
  set (st'' := set_messages (st_messages st' ++ [msg]) st').
  assert (extends B st' st'') as He'.
  { split; [done | done|]. intros k x Hk. exists x. split; [|done]. cbn [st'' set_messages st_messages].
    rewrite lookup_app_l; [done|]. by eapply lookup_lt_Some. }
  rewrite (pbind_ret (modify (λ st, set_messages (st_messages st ++ [msg]) st)) _ st' tt st'' eq_refl).
  split_and!; [|done| |].
  - split; [done | intros i z Hz; eapply wf_part_extends; [exact He' | by apply W2]|].
    intros k x Hk. cbn [st'' set_messages st_messages] in Hk. cbn [st'' set_messages st_parts].
    apply lookup_app_Some in Hk as [Hk | [_ Hk]]; [by apply (W3 k)|].
    apply list_lookup_singleton_Some in Hk as [_ <-]. simpl. lia.
  - by rewrite Hm.
  - exists msg. split; [|done]. cbn [st'' set_messages st_messages]. by apply list_lookup_middle.
Qed.
End Objects.

Lemma mk_header {K : nat → names} {B : nat → Prop} {A} st h (m : hm A) :
  hkeeps (inv (K h)) m (λ _, True) → mkeeps K B st (on_header h m) (λ _ _, True).
Proof. intros Hm. eapply mk_mono; [by apply mk_on_header | done]. Qed.

(** ** [RepairWithBody] *)

Section Repair.
Context {U : UnicodeCase} {CS : Charset} {L : Local} {C : Clock} {CL : CharsetLaws CS}.
Context {K : nat → names} {B : nat → Prop}.

Lemma parent_date_keeps st n parent :
  (∀ q, parent = Some q → q < n) → mkeeps K B st (parent_date n parent) (λ _ _, True).
Proof.
  revert parent. induction n as [|n IH]; intros parent Hn; cbn [parent_date]; (destruct parent as [q|]; [|by mstep]);
    specialize (Hn q eq_refl); [lia|].
  do 3 mstep. mstep; [unfold Header_Date; solve_ends|]. mstep; [by mstep|]. apply IH.
  intros q' Hq'. pose proof (wp_parent _ _ _ H0 q' Hq'). lia.
Qed.

Lemma last_semicolon_ends n v i : (len v < i + Z.of_nat n)%Z → ends (last_semicolon n v i).
Proof.
  revert i. induction n as [|n IH]; intros i Hn; cbn [last_semicolon]; unfold from_, slice.
  - case_if; [|done]. simpl. breflect. lia.
  - apply bind_ends; [by case_if|]. intros t _. cbv zeta. case_if; [|done]. breflect. apply IH. lia.
Qed.

Lemma received_date_ends fs d : ends (received_date fs d).
Proof.
  revert d. induction fs as [|r fs IH]; intros d; cbn [received_date]; [done|]. apply bind_ends; [|auto].
  case_if; [|done]. unfold parseDate. solve_ends. apply last_semicolon_ends. lia.
Qed.

Lemma wants_date_ends occ h : ends (wants_date occ h).
Proof. unfold wants_date, Header_Date. solve_ends. Qed.
Hint Resolve received_date_ends wants_date_ends : ends.

Lemma time_Now_keeps st : mkeeps K B st time_Now (λ _ _, True).
Proof.
  intros [W1 W2 W3]. assert (extends B st (set_ticks (S (ticks st)) st)) as He by (split; eauto).
  split_and!; [|done..]. split; [done | intros i x Hx; eapply wf_part_extends; [exact He | by apply W2] | done].
Qed.

Lemma repair_date_keeps st occ hp p :
  K hp DateFieldName → mkeeps K B st (repair_date occ hp p) (λ _ _, True).
Proof.
  intros HN. unfold repair_date, part_fuel. mstep. apply mk_seq; [mstep; [mstep; auto with ends | by mstep]|].
  intros w st1. mstep; [|by mstep]. mstep; [auto with ends|]. apply mk_seq.
  { destruct a; [by mstep|]. destruct p as [q|]; [|by mstep]. mstep. apply lookup_lt_Some in H2. mstep.
    apply parent_date_keeps. intros q' Hq'. pose proof (wp_parent _ _ _ H3 q' Hq'). lia. }
  intros date st2. apply mk_seq.
  { mstep; [|by mstep]. apply mk_seq; [apply time_Now_keeps|]. intros t st3. by mstep. }
  intros date' st3. destruct date'; [|by mstep]. by apply mk_header, (hk_Add_named _ _ DateFieldName).
Qed.

(** The number of rounds the author's loop needs. *)
Definition author_rounds (head : bool) (parent : option nat) : nat :=
  match parent with Some q => q + 2 | None => if head then 1 else 0 end.

Lemma author_loop_keeps st n h head parent a :
  author_rounds head parent ≤ n → mkeeps K B st (author_loop n h head parent a) (λ _ _, True).
Proof.
  revert st head parent a. induction n as [|n IH]; intros st head parent a Hn; cbn [author_loop].
  - unfold author_rounds in Hn. destruct parent; [lia|]. destruct head; [lia|]. by mstep.
  - mstep; [|by mstep].
    eapply (mk_bind _ _ _ (λ p' _, ∀ q', p' = Some q' → ∃ q, parent = Some q ∧ q' < q)).
    { destruct parent as [q|]; [|by mstep]. do 2 mstep. intros q' Hq'. exists q. split; [done|].
      by apply (wp_parent _ _ _ H0). }
    intros p' st1 _ _ Hp'. eapply (mk_bind _ _ _ (λ h' _, p' = None → h' = false)).
    { destruct p' as [q'|]; [by do 2 mstep | by mstep]. }
    intros h' st2 _ _ Hh'. apply IH. unfold author_rounds in *. destruct p' as [q'|].
    + destruct (Hp' q' eq_refl) as (q & -> & ?). lia.
    + rewrite Hh' by done. lia.
Qed.

Lemma x_from_line_ends fs : ends (x_from_line fs).
Proof. unfold x_from_line. solve_ends. apply single_address_ends. Qed.

Lemma repair_from_keeps st occ hp p :
  K hp FromFieldName → (∀ q, p = Some q → q < parts_of st) → mkeeps K B st (repair_from occ hp p) (λ _ _, True).
Proof.
  intros HN Hp. unfold repair_from, part_fuel. mstep. mstep; [|by mstep]. mstep. apply mk_seq.
  { apply author_loop_keeps. unfold author_rounds. destruct p as [q|]; [specialize (Hp q eq_refl)|]; lia. }
  intros a st1. apply mk_seq; [mstep; [mstep; apply x_from_line_ends | by mstep]|].
  intros b st2. destruct b; [by mstep|]. mstep; [auto with ends|].
  by apply mk_header, (hk_Add_named _ _ FromFieldName).
Qed.

(** [RepairWithBody] keeps the invariant if looking at a delivery report does. *)
Lemma RepairWithBody_keeps st multipart hp p body :
  (∀ n, n ≠ ContentTypeFieldName → K hp n) → (∀ q, p = Some q → q < parts_of st) →
  (K hp ContentTypeFieldName ∨ ¬ K hp ContentTypeFieldName) →
  (∀ st', extends B st st' → mkeeps K B st' (repair_report multipart hp body) (λ _ _, True)) →
  mkeeps K B st (RepairWithBody multipart hp p body) (λ _ _, True).
Proof.
  intros HN Hp HT HR. unfold RepairWithBody. eapply mk_bind; [by apply mk_header, hk_Valid|].
  intros v st1 _ E1 _. mstep; [by mstep|]. mstep.
  assert (occurrences (h_fields x) ContentTypeFieldName = 0%Z ∨ K hp ContentTypeFieldName) as Hocc.
  { destruct HT as [?|HT]; [by right|]. left. apply occurrences_none. destruct H0 as [_ _ H0 _].
    eapply Forall_impl; [exact H0|]. intros r [_ Hr] E. apply HT. by rewrite <- E. }
  eapply mk_bind; [apply mk_header, hk_remove_duplicates|]. intros _ st2 _ E2 _.
  eapply mk_bind; [by apply repair_date_keeps, HN|]. intros _ st3 _ E3 _.
  eapply mk_bind; [apply repair_from_keeps; [by apply HN|]|].
  { intros q Hq. specialize (Hp q Hq). pose proof (ext_parts E1). pose proof (ext_parts E2).
    pose proof (ext_parts E3). lia. }
  intros _ st4 _ E4 _. eapply mk_bind; [by apply mk_header, hk_repair_middle, HN|]. intros _ st5 _ E5 _.
  eapply mk_bind; [apply HR; by trans st1; [|trans st2; [|trans st3; [|trans st4]]]|]. intros _ st6 _ E6 _.
  apply mk_header, hk_repair_last; [by apply HN | by apply HN | done].
Qed.

(** A header without a Content-Type field is not that of a delivery report. *)
Lemma repair_report_no_type st multipart hp body :
  ¬ K hp ContentTypeFieldName → mkeeps K B st (repair_report multipart hp body) (λ _ _, True).
Proof.
  intros HT. unfold repair_report. mstep. mstep; [|by mstep]. unfold Header_ContentType.
  destruct (field _ 0 x) as [r|] eqn:E.
  2:{ apply mk_lift_bind; [done|]. intros ct [= <-]. by mstep. }
  exfalso. apply HT.
  apply (inv_field _ _ _ _ H0) in E as [[_ ?] <-]. done.
Qed.
End Repair.
