(* ===== verification/Parts.v ===== *)
(** * Body parts and messages: [src/parts.go] and [src/message.go]

    Printing first, since parsing a message inside a message prints it again,
    then the character-set guesses, and the three parsers that call each other:
    [parseMultipart], [parseBodypart] and [Parse].  They and the printers take a
    bound on the depth of the calls. *)

From S2P Require Import Prelude GoStrings GoTime Strings Codec Words Fields Header Store Repair.
Open Scope Z_scope.

Section Parts.
Context {U : UnicodeCase} {CS : Charset} {L : Local} {C : Clock}.

(** ** Printing *)

(** [p.Header.ContentType()] *)
Definition part_type (p : nat) : mm (option (nat * ContentType)) :=
  hp ← header_of p;
  h ← get_header hp;
  lift (Header_ContentType h).

(** The encoding of the part, binary by default. *)
Definition part_encoding (p : nat) : mm EncodingType :=
  hp ← header_of p;
  h ← get_header hp;
  cte ← lift (Header_ContentTransferEncoding h);
  mret (match cte with Some (_, f) => Encoding f | None => BinaryEncoding end).

Definition part_header_text (avoidUTF8 : bool) (p : nat) : mm str :=
  hp ← header_of p;
  h ← get_header hp;
  lift (Header_AsText avoidUTF8 h).

Definition appendTextPart (bp : nat) : mm str :=
  e ← part_encoding bp;
  x ← get_part bp;
  lift (encodeCTE (p_text x) e 72).

Section Append.
(** [bp.message.RFC822(avoidUTF8)] and [bp.appendMultipart(buf, avoidUTF8)]. *)
Variables (rfc822 : nat → mm str) (multipart : nat → mm str).

(** [ct] is the type of the part around [bp]. *)
Definition append_any (bp : nat) (ct : option ContentType) : mm str :=
  childct ← part_type bp;
  e ← part_encoding bp;
  let child := option_map snd childct in
  let is_message := match child with Some f => ct_type f ==s $"message" | None => false end in
  let in_digest :=
    match ct with Some f => is_type $"multipart" $"digest" f && absent child | None => false end in
  if is_message || in_digest then
    if match child with Some f => negb (ct_subtype f ==s $"rfc822") | None => false end
    then appendTextPart bp
    else x ← get_part bp; m ← deref (p_message x); rfc822 m
  else match child with
       | None => appendTextPart bp
       | Some f =>
           if ToLower (ct_type f) ==s $"text" then appendTextPart bp
           else if ct_type f ==s $"multipart" then multipart bp
           else x ← get_part bp; lift (encodeCTE (p_data x) e 72)
       end.

Fixpoint append_children (avoidUTF8 : bool) (delim : str) (ct : ContentType) (cs : list nat) : mm str :=
  match cs with
  | [] => mret []
  | c :: cs' =>
      t ← part_header_text avoidUTF8 c;
      b ← append_any c (Some ct);
      r ← append_children avoidUTF8 delim ct cs';
      mret (crlf ++ t ++ crlf ++ b ++ crlf ++ $"--" ++ delim ++ r)
  end.

Definition append_multipart (avoidUTF8 : bool) (p : nat) : mm str :=
  ct ← part_type p;
  '(_, f) ← deref ct;
  let delim := ct_parameter $"boundary" f in
  x ← get_part p;
  r ← append_children avoidUTF8 delim f (p_parts x);
  mret ($"--" ++ delim ++ r ++ $"--" ++ crlf).

(** [Body] gives the first part the header of the message. *)
Definition message_body (avoidUTF8 : bool) (m : nat) : mm str :=
  msg ← get_message m;
  let p := m_part msg in
  ct ← part_type p;
  if match ct with Some (_, f) => ct_type f ==s $"multipart" | None => false end
  then append_multipart avoidUTF8 p
  else
    x ← get_part p;
    match p_parts x with
    | [] => mret []
    | c :: _ =>
        _ ← on_part c (with_header (p_header x));
        append_any c (option_map snd ct)
    end.

Definition message_rfc822 (avoidUTF8 : bool) (m : nat) : mm str :=
  msg ← get_message m;
  t ← part_header_text avoidUTF8 (m_part msg);
  b ← message_body avoidUTF8 m;
  mret (t ++ crlf ++ b).
End Append.

Fixpoint RFC822 (n : nat) (avoidUTF8 : bool) (m : nat) : mm str :=
  match n with
  | O => out_of_fuel
  | S n' => message_rfc822 (RFC822 n' avoidUTF8) (appendMultipart n' avoidUTF8) avoidUTF8 m
  end
with appendMultipart (n : nat) (avoidUTF8 : bool) (p : nat) : mm str :=
  match n with
  | O => out_of_fuel
  | S n' => append_multipart (RFC822 n' avoidUTF8) (appendMultipart n' avoidUTF8) avoidUTF8 p
  end.

(** A part is printed before the parts made after it, so the depth of the calls
    is at most the number of parts. *)
Definition print_fuel : mm nat := gets (λ st, S (length (st_parts st))).

Definition Message_RFC822 (avoidUTF8 : bool) (m : nat) : mm str :=
  n ← print_fuel;
  RFC822 n avoidUTF8 m.

Definition Message_Body (avoidUTF8 : bool) (m : nat) : mm str :=
  n ← print_fuel;
  message_body (RFC822 n avoidUTF8) (appendMultipart n avoidUTF8) avoidUTF8 m.

Definition Part_AsText (avoidUTF8 : bool) (p : nat) : mm str :=
  ct ← part_type p;
  let named := match ct with
               | Some (_, f) => let cs := ct_parameter $"charset" f in if cs ==s [] then None else cs_info cs
               | None => None
               end in
  let c := match named with Some n => Some n | None => cs_info $"us-ascii" end in
  x ← get_part p;
  match p_parts x with
  | _ :: _ => n ← print_fuel; appendMultipart n avoidUTF8 p
  | [] =>
      if match ct with Some (_, f) => ct_type f ==s $"text" | None => true end
      then cn ← deref c; mret (fst (decode (p_text x) cn))
      else mret (e64 (p_data x) 72)
  end.

(** ** Guessing the character set *)

(** [err != nil] after [_, err := decode(s, enc)] *)
Definition decode_fails (s enc : str) : bool := negb (snd (decode s enc)).

(** An ISO-2022-JP escape sequence at the start. *)
Definition iso2022_start (body : str) : outcome bool :=
  a ← at_ body 0;
  if a =b x1b then
    b ← at_ body 1;
    if one_of $"($" b then c ← at_ body 2; Ret (one_of $"BJ@" c) else Ret false
  else Ret false.

Definition guessTextCodec (body : str) : outcome (option str) :=
  jp ← iso2022_start body;
  Ret (if jp && decode_fails body $"iso-2022-jp" then cs_info $"iso-2022-jp"
       else if decode_fails body $"us-ascii" then cs_info $"us-ascii"
       else if decode_fails body $"utf8" then cs_info $"utf8"
       else None).

Definition meta_tag : str :=
  $"<meta http-equiv=" ++ [DQUOTE] ++ $"content-type" ++ [DQUOTE] ++ $" content=" ++ [DQUOTE].

(** Whether the character set [meta] of a tag is believed more than the guess. *)
Definition prefer_meta (body b meta : str) (guess : option str) : bool :=
  let '(m, mok) := decode body meta in
  let '(g, gok) := match guess with Some n => decode body n | None => ([], true) end in
  let ub := fst (decode b meta) in
  ((negb (m ==s []) && (m ==s g))
   || (mok && (absent guess || negb gok))
   || (mok && absent guess)
   || (mok && match guess with Some n => n ==s $"iso-8859-1" | None => false end)
   || (mok && present guess && negb gok))
  && Contains (ascii ub) meta_tag.

(** The loop over the tags of [b]; it panics when the character set of a tag is
    missing or unknown. *)
Fixpoint meta_loop (n : nat) (body b : str) (i : Z) (guess : option str) : outcome (option str) :=
  t ← from_ b i;
  let next := Index t meta_tag in
  if next <? 0 then Ret guess
  else match n with
  | O => OutOfFuel
  | S n' =>
      let i := i + next + len meta_tag in
      let j := skip_while (λ c, negb (c =b DQUOTE)) b i in
      v ← slice b i j;
      hf ← NewHeaderField $"Content-Type" v;
      match hf with
      | FContentType f =>
          let cs := ct_parameter $"charset" f in
          match (if cs ==s [] then None else cs_info cs) with
          | Some meta => meta_loop n' body b i (if prefer_meta body b meta guess then Some meta else guess)
          | None => Panic
          end
      | _ => Panic
      end
  end.

Definition guessHtmlCodec (body : str) : outcome (option str) :=
  guess ← guessTextCodec body;
  let guess := match guess with
               | None => if decode_fails body $"iso-8859-1" then None else cs_info $"iso-8859-1"
               | _ => guess
               end in
  let guess := match guess with
               | None => if decode_fails body $"cp-1252" then None else cs_info $"cp-1252"
               | _ => guess
               end in
  b ← simplify (ToLower body);
  meta_loop (S (length b)) body b 0 guess.

(** ** One body part *)

(** Whether one of the Content-Transfer-Encoding fields is quoted-printable, and
    their number. *)
Fixpoint count_encodings (k : nat) (h : Header) (i : nat) (any : bool) : outcome (bool * nat) :=
  match field ContentTransferEncodingFieldName i h with
  | None => Ret (any, i)
  | Some (_, FEncoding f) =>
      match k with
      | O => OutOfFuel
      | S k' => count_encodings k' h (S i) (any || bool_decide (Encoding f = QPEncoding))
      end
  | Some _ => Panic
  end.

Definition drop_encodings (body : str) : hm unit :=
  if negb (Contains body $"=") then
    h ← gets id;
    '(any, i) ← lift (count_encodings (length (h_fields h)) h 0 false);
    if any && Nat.ltb 1 i then RemoveAllNamed ContentTransferEncodingFieldName else mret tt
  else mret tt.

(** The Content-Type field, which is added when there is none. *)
Definition ensure_type : hm (nat * ContentType) :=
  h ← gets id;
  ct ← lift (Header_ContentType h);
  match ct with
  | Some x => mret x
  | None =>
      _ ← match defaultType h with
          | TextPlainContentType => Add $"Content-Type" $"text/plain"
          | MessageRFC822ContentType => Add $"Content-Type" $"message/rfc822"
          end;
      h ← gets id;
      ct ← lift (Header_ContentType h);
      match ct with Some x => mret x | None => lift Panic end
  end.

Definition set_encoding (e : EncodingType) (f : ContentTransferEncoding) : ContentTransferEncoding :=
  {| cte_mf := cte_mf f; Encoding := e |}.

(** The character set of a text part: the specified one, whether it is specified
    and whether it is unknown. *)
Definition text_charset (body : str) (f : ContentType) : option str * bool * bool :=
  let csn := ct_parameter $"charset" f in
  let csn := if ToLower csn ==s $"default" then [] else csn in
  let specified := negb (csn ==s []) in
  let c := cs_info csn in
  let specified := match c with
                   | Some n => if (ToLower n ==s $"us-ascii") && decode_fails body n then false else specified
                   | None => specified
                   end in
  (match c with Some n => Some n | None => cs_info $"us-ascii" end, specified, absent c).

(** The loop that decodes invalid Subject fields; whether the last decoding
    failed, [err] if there was none. *)
Fixpoint bang_subjects (cn : str) (fs : list ref) (err : bool) : list ref * bool :=
  match fs with
  | [] => ([], err)
  | (p, f) :: fs' =>
      match f with
      | FHeader hf =>
          if negb (hf_valid hf) && (hf_name hf ==s SubjectFieldName) then
            let '(v, ok) := decode (hf_unparsed hf) cn in
            let '(fs', err) := bang_subjects cn fs' (negb ok) in
            ((p, FHeader (set_value v hf)) :: fs', err)
          else let '(fs', err) := bang_subjects cn fs' err in ((p, f) :: fs', err)
      | _ => let '(fs', err) := bang_subjects cn fs' err in ((p, f) :: fs', err)
      end
  end.

Definition lossy_charset (cn : str) : bool := among [$"GB2312"; $"ISO-2022-JP"; $"KS_C_5601-1987"] cn.

(** The text, the character set it is taken to be in, the body, and the error. *)
Definition guess_text (f : ContentType) (specified decodeErr : bool) (text cn body : str) :
    outcome (str * str) :=
  if (negb specified && (decodeErr || (ct_subtype f ==s $"html"))) || (specified && decodeErr) then
    g ← (if ct_subtype f ==s $"html" then guessHtmlCodec body else guessTextCodec body);
    Ret (match g with
         | None => (if negb specified && decodeErr then fst (decode (toCRLF body) $"unknown-8bit") else text, cn)
         | Some gn =>
             let '(guessed, gok) := decode (toCRLF body) gn in
             if gok && decodeErr then (guessed, gn) else (text, cn)
         end)
  else Ret (text, cn).

(** A part of type text: its text and error, the body as it will be encoded, and
    the Content-Transfer-Encoding field. *)
Definition text_part (body : str) (e : EncodingType) (ct : nat * ContentType)
    (cte : option (nat * ContentTransferEncoding)) :
    hm (str * option part_error * str * option (nat * ContentTransferEncoding)) :=
  let f := snd ct in
  let '(c, specified, unknown) := text_charset body f in
  match c with
  | None => lift Panic
  | Some cn =>
      let '(text, ok) := decode (toCRLF body) cn in
      '(body, decodeErr) ←
        (if lossy_charset cn then
           fs ← gets h_fields;
           let '(fs, err) := bang_subjects cn fs (negb ok) in
           _ ← modify (set_fields fs);
           mret (if negb ok then text else body, err)
         else mret (body, negb ok));
      '(text, cn) ← lift (guess_text f specified decodeErr text cn body);
      let '(text, body) :=
        if specified && decodeErr then (text, text)
        else if negb specified && decodeErr then (fst (decode body $"unknown-8bit"), body)
        else (text, body) in
      let text := if bool_decide (e = QPEncoding) && HasPrefix cn $"UTF-16"
                  then fst (decode (stripCRLF body) cn) else text in
      let cs := ct_parameter $"charset" f in
      let err := if decodeErr
                 then Some {| pe_from := if specified then Some (if cs ==s [] then cn else cs) else None;
                              pe_unknown := specified && unknown |}
                 else None in
      let m := ct_mf f in
      let ps := if negb (ToLower cn ==s $"us-ascii")
                then addParameter $"charset" (ToLower cn) (mf_params m)
                else removeParameter $"charset" (mf_params m) in
      _ ← store (fst ct) (FContentType (set_mf {| mf_hf := mf_hf m; mf_base := mf_base m; mf_params := ps |} f));
      let body := fst (decode text cn) in
      let qp := needsQP body in
      cte ← match cte with
            | Some (p, g) =>
                if negb qp then _ ← RemoveAllNamed ContentTransferEncodingFieldName; mret None
                else match Encoding g with
                     | QPEncoding => mret cte
                     | _ => let g := set_encoding QPEncoding g in _ ← store p (FEncoding g); mret (Some (p, g))
                     end
            | None =>
                if qp then
                  _ ← Add $"Content-Transfer-Encoding" $"quoted-printable";
                  h ← gets id;
                  lift (Header_ContentTransferEncoding h)
                else mret None
            end;
      mret (text, err, body, cte)
  end.

(** The Content-Transfer-Encoding field of a part that is not text. *)
Definition data_encoding (body : str) (f : ContentType) (cte : option (nat * ContentTransferEncoding)) :
    hm (option (nat * ContentTransferEncoding)) :=
  if (ct_type f ==s $"multipart") || (ct_type f ==s $"message") then mret cte
  else if (ct_type f ==s $"application")
          && ((HasPrefix (ct_subtype f) $"pgp-" && negb (needsQP body))
              || ((ct_subtype f ==s $"octet-stream") && Contains body $"BEGIN PGP MESSAGE"))
  then _ ← RemoveAllNamed ContentTransferEncodingFieldName; mret None
  else match cte with
       | Some (p, g) => let g := set_encoding Base64Encoding g in _ ← store p (FEncoding g); mret (Some (p, g))
       | None =>
           _ ← Add $"Content-Transfer-Encoding" $"base64";
           h ← gets id;
           lift (Header_ContentTransferEncoding h)
       end.

(** The number of lines. *)
Definition count_lines (s : str) : Z :=
  len (filter (λ c, c = LF) s)
  + match last s with Some c => if c =b LF then 0 else 1 | None => 0 end.

Fixpoint adopt (bp : nat) (ps : list nat) : mm unit :=
  match ps with
  | [] => mret tt
  | p :: ps' =>
      _ ← on_part bp (λ x, with_parts (p_parts x ++ [p]) x);
      _ ← on_part p (with_parent (Some bp));
      adopt bp ps'
  end.

(** Where the body starts: after a line break. *)
Definition body_start (s : str) : outcome Z :=
  c ← at_ s 0;
  let start := if c =b CR then 1 else 0 in
  c ← at_ s start;
  Ret (if c =b LF then start + 1 else start).

Section Parsers.
(** [p.parseMultipart(s, divider, digest)], [p.parseBodypart(s, h)] and
    [m.Parse(s)]. *)
Variables (multipart : nat → str → str → bool → mm unit)
          (bodypart : nat → str → nat → mm nat)
          (parse_message : nat → str → mm unit).

(** A message inside a message: what [body] becomes. *)
Definition inner_message (bp : nat) (s : str) (start : Z) : mm str :=
  start ← lift (skip_unbounded (λ c, (c =b CR) || (c =b LF)) s start);
  m ← NewMessage;
  msg ← get_message m;
  _ ← on_part (m_part msg) (with_parent (Some bp));
  t ← lift (from_ s start);
  _ ← parse_message m t;
  msg ← get_message m;
  x ← get_part (m_part msg);
  _ ← adopt bp (p_parts x);
  _ ← on_part bp (with_message (Some m));
  Message_RFC822 false m.

(** The part without its children: the decoded body, the type and the encoding. *)
Definition leaf_part (bp hp : nat) (s : str) (start : Z) :
    mm (str * ContentType * option (nat * ContentTransferEncoding)) :=
  let body := if start <? len s then s else [] in
  _ ← on_header hp (drop_encodings body);
  h ← get_header hp;
  cte ← lift (Header_ContentTransferEncoding h);
  let e := match cte with Some (_, f) => Encoding f | None => BinaryEncoding end in
  body ← lift (if body ==s [] then Ret []
               else match e with
                    | Base64Encoding | UuencodeEncoding => decodeCTE body e
                    | _ => decodeCTE (toCRLF body) e
                    end);
  ct ← on_header hp ensure_type;
  let f := snd ct in
  if ct_type f ==s $"text" then
    '(text, err, body, cte) ← on_header hp (text_part body e ct cte);
    _ ← on_part bp (with_text text err);
    mret (body, f, cte)
  else
    _ ← on_part bp (with_data body);
    cte ← on_header hp (data_encoding body f cte);
    mret (body, f, cte).

Definition bodypart_with (p : nat) (s : str) (hp : nat) : mm nat :=
  start ← lift (body_start s);
  bp ← new_Part (new_part (Some p) (Some hp));
  '(body, f, cte) ← leaf_part bp hp s start;
  body ← (if ct_type f ==s $"multipart" then
            t ← lift (from_ s start);
            _ ← multipart bp t (ct_parameter $"boundary" f) (ct_subtype f ==s $"digest");
            mret body
          else if is_type $"message" $"rfc822" f then inner_message bp s start
          else mret body);
  let n := len body in
  body ← match cte with Some (_, g) => lift (encodeCTE body (Encoding g) 72) | None => mret body end;
  x ← get_part bp;
  let lines := if hasText x || is_type $"message" $"rfc822" f then count_lines body else 0 in
  _ ← on_part bp (with_sizes n (len body) lines);
  _ ← on_header hp Simplify;
  mret bp.

(** ** Multiparts *)

(** Whether a line that starts with the divider is at [i]; 31 stands where the
    source means a carriage return. *)
Definition divider_at (s divider : str) (i : Z) : outcome bool :=
  a ← at_ s i;
  if a =b "-" then
    b ← at_ s (i + 1);
    if b =b "-" then
      prev ← (if i =? 0 then Ret true else c ← at_ s (i - 1); Ret ((c =b x1f) || (c =b LF)));
      if (prev : bool) then
        c ← at_ s (i + 2);
        d ← at_ divider 0;
        if c =b d then t ← slice s (i + 2) (i + 2 + len divider); Ret (t ==s divider) else Ret false
      else Ret false
    else Ret false
  else Ret false.

(** The end of the divider and whether it is the last one. *)
Definition divider_end (s divider : str) (i : Z) : outcome (Z * bool) :=
  if len s <=? i then Ret (i, true)
  else
    let j := i + 2 + len divider in
    a ← at_ s j;
    if a =b "-" then b ← at_ s (j + 1); Ret (if b =b "-" then (j + 2, true) else (j, false))
    else Ret (j, false).

(** The end of the text of a part before the divider at [i]: the line break
    belongs to the divider. *)
Definition strip_break (s : str) (i : Z) : outcome Z :=
  c ← at_ s (i - 1);
  if c =b LF then c ← at_ s (i - 2); Ret (if c =b CR then i - 2 else i - 1) else Ret i.

(** The part between two dividers, [s[start:i]]; the divider ends at [j]. *)
Definition read_part (p : nat) (s : str) (digest : bool) (start i j : Z) (pn : Z) : mm unit :=
  t ← lift (slice s start j);
  h ← lift (ReadHeader t MIMEHeader);
  let start := start + numBytes h in
  hp ← new_Header (if digest then set_default MessageRFC822ContentType h else h);
  _ ← on_header hp Repair;
  i ← lift (strip_break s i);
  t ← lift (slice s start i);
  bp ← bodypart p t hp;
  _ ← on_part bp (with_number pn);
  _ ← on_part p (λ x, with_parts (p_parts x ++ [bp]) x);
  RepairWithBody multipart hp (Some bp) [].

(** To the next line. *)
Definition next_line (s : str) (i : Z) : Z :=
  skip_while (λ c, (c =b CR) || (c =b LF)) s (skip_while (λ c, negb ((c =b CR) || (c =b LF))) s i).

Fixpoint multipart_loop (n : nat) (p : nat) (s divider : str) (digest : bool) (i start : Z) (last : bool)
    (pn : Z) : mm unit :=
  if negb last && (i <=? len s) then
    match n with
    | O => out_of_fuel
    | S n' =>
        d ← (if len s <=? i then mret true else lift (divider_at s divider i));
        if negb d then multipart_loop n' p s divider digest (next_line s i) start last pn
        else
          '(j, l) ← lift (divider_end s divider i);
          let j := skip_while (λ c, (c =b SP) || (c =b HT)) s j in
          if (len s <=? j) || cr_at s j || lf_at s j then
            let j := if cr_at s j then j + 1 else j in
            let j := if lf_at s j then j + 1 else j in
            if (0 <? start) && (start <? len s) then
              _ ← read_part p s digest start i j pn;
              multipart_loop n' p s divider digest (next_line s j) j l (pn + 1)
            else multipart_loop n' p s divider digest (next_line s j) j l pn
          else multipart_loop n' p s divider digest (next_line s i) start last pn
    end
  else mret tt.

Definition multipart_with (p : nat) (s divider : str) (digest : bool) : mm unit :=
  multipart_loop (S (S (length s))) p s divider digest 0 0 false 1.

(** ** Messages *)

Definition message_with (m : nat) (s : str) : mm unit :=
  h ← lift (ReadHeader s RFC5322Header);
  hp ← new_Header h;
  msg ← get_message m;
  let p := m_part msg in
  _ ← on_part p (with_header (Some hp));
  _ ← on_message m (λ x, {| m_part := m_part x; RFC822Size := len s |});
  _ ← on_header hp Repair;
  body ← lift (from_ s (numBytes h));
  _ ← RepairWithBody multipart hp (Some p) body;
  h ← get_header hp;
  ct ← lift (Header_ContentType h);
  _ ← match ct with
      | Some (_, f) =>
          if ct_type f ==s $"multipart"
          then multipart p s (ct_parameter $"boundary" f) (ct_subtype f ==s $"digest")
          else
            bp ← bodypart p body hp;
            on_message m (λ x, {| m_part := bp; RFC822Size := RFC822Size x |})
      | None =>
          bp ← bodypart p body hp;
          on_message m (λ x, {| m_part := bp; RFC822Size := RFC822Size x |})
      end;
  msg ← get_message m;
  hp ← header_of (m_part msg);
  on_header hp Simplify.
End Parsers.

Fixpoint parseMultipart (n : nat) (p : nat) (s divider : str) (digest : bool) : mm unit :=
  match n with
  | O => out_of_fuel
  | S n' => multipart_with (parseMultipart n') (parseBodypart n') p s divider digest
  end
with parseBodypart (n : nat) (p : nat) (s : str) (hp : nat) : mm nat :=
  match n with
  | O => out_of_fuel
  | S n' => bodypart_with (parseMultipart n') (Parse n') p s hp
  end
with Parse (n : nat) (m : nat) (s : str) : mm unit :=
  match n with
  | O => out_of_fuel
  | S n' => message_with (parseMultipart n') (parseBodypart n') m s
  end.

(** A part is shorter than the multipart it is in, and a message inside a part is
    shorter than the message around it. *)
Definition parse_fuel (s : str) : nat := (3 * length s + 3)%nat.

Definition Message_Parse (m : nat) (s : str) : mm unit := Parse (parse_fuel s) m s.

Definition ReadMessage (s : str) : mm nat :=
  m ← NewMessage;
  _ ← Message_Parse m s;
  mret m.

(** [h.RepairWithBody(p, body)], which splits the body of a delivery report. *)
Definition Header_RepairWithBody (hp : nat) (p : option nat) (body : str) : mm unit :=
  RepairWithBody (parseMultipart (parse_fuel body)) hp p body.

(** ** Part numbers *)

(** [for i, c = range cs { if c.Number >= n { break } }]: the index and the part
    the loop stops at, or the last ones. *)
Fixpoint find_child (n : Z) (i : nat) (cs : list nat) (found : option (nat * nat)) : mm (option (nat * nat)) :=
  match cs with
  | [] => mret found
  | c :: cs' =>
      x ← get_part c;
      if n <=? Number x then mret (Some (i, c)) else find_child n (S i) cs' (Some (i, c))
  end.

(** A first part without a header gets that of the message around it, or a new
    one; [bp] is the part around it. *)
Definition link_header (bp : option nat) (c : nat) : mm unit :=
  x ← get_part c;
  match p_header x with
  | Some _ => mret tt
  | None =>
      m ← match bp with Some q => y ← get_part q; mret (p_message y) | None => mret None end;
      hp ← match m with
           | Some m => msg ← get_message m; y ← get_part (m_part msg); mret (p_header y)
           | None => h ← new_Header (new_header RFC5322Header); mret (Some h)
           end;
      match hp with
      | Some k =>
          h ← get_header k;
          ct ← lift (Header_ContentType h);
          if match ct with Some (_, f) => negb (ct_type f ==s $"multipart") | None => true end
          then on_part c (with_header hp) else mret tt
      | None => mret tt
      end
  end.

Section Slices.
(** Whether a slice of length [n] made by appending one element at a time has
    room for another one; the language leaves it open. *)
Variable has_room : nat → bool.

(** What the slice [cs] shows after [append(append(cs[:i], child), cs[i:]...)]:
    the first [append] overwrites [cs[i]], and when there is room the second one
    moves the rest, which then starts with [child], up by one. *)
Definition insert_child (i child : nat) (cs : list nat) : list nat :=
  let cs := <[i := child]> cs in
  if has_room (length cs) then take (length cs) (take (S i) cs ++ drop i cs) else cs.

Fixpoint bodypart_loop (k : nat) (m : nat) (s : str) (create : bool) (b : Z) (bp : option nat) :
    mm (option nat) :=
  if b <? len s then
    match k with
    | O => out_of_fuel
    | S k' =>
        let e := skip_while is_digit s b in
        if (e <? len s) && negb (is_at s (Z.to_nat e) ".") then mret None
        else
          digits ← lift (slice s b e);
          match Atoi digits with
          | None => mret None
          | Some n =>
              if n =? 0 then mret None
              else
                msg ← get_message m;
                let owner := default (m_part msg) bp in
                x ← get_part owner;
                found ← find_child n 0 (p_parts x) None;
                y ← match found with Some (_, c) => z ← get_part c; mret (Number z) | None => mret 0 end;
                match found with
                | Some (i, c) =>
                    if y =? n then
                      _ ← (if n =? 1 then link_header bp c else mret tt);
                      bodypart_loop k' m s create (e + 1) (Some c)
                    else if create then
                      child ← new_Part (with_number n (new_part (Some owner) None));
                      _ ← on_part owner (λ x, with_parts (insert_child i child (p_parts x)) x);
                      bodypart_loop k' m s create (e + 1) (Some child)
                    else mret None
                | None =>
                    if create then
                      child ← new_Part (with_number n (new_part (Some owner) None));
                      bodypart_loop k' m s create (e + 1) (Some child)
                    else mret None
                end
          end
    end
  else mret bp.

Definition BodyPart (m : nat) (s : str) (create : bool) : mm (option nat) :=
  bodypart_loop (S (length s)) m s create 0 None.
End Slices.
End Parts.
