(* ===== verification/PartsFacts.v ===== *)
(** * Theorems on body parts and messages: [Parts]

    Printing and parsing end, and keep the invariant of the store. *)

From S2P Require Import Prelude GoStrings GoTime Strings StringsFacts Codec CodecFacts Words WordsFacts.
From S2P Require Import Parser ParserFacts Address AddressFacts AddrParser AddrParserFacts.
From S2P Require Import Fields FieldsFacts MIMEFacts Header HeaderFacts Store Repair RepairFacts.
From S2P Require Import StoreFacts Parts.
Open Scope nat_scope.

(** ** Encodings *)

Lemma encodeCTE_ends s e n : ends (encodeCTE s e n).
Proof.
  unfold encodeCTE. destruct e; try done. destruct (eQP_decodes s false (0 <? n)%Z) as (out & -> & _). done.
Qed.

Lemma uu_line_post n k s :
  (length s <= n)%nat → post (uu_line n k s) (λ '(_, r), (length r <= length s)%nat).
Proof.
  revert k s. induction n as [|n IH]; intros k s Hn; cbn [uu_line]; (case_if; [|simpl; lia]).
  - apply andb_prop in Heqb as [_ Heqb]. breflect. lia.
  - destruct s as [|c s]; [done|]. cbv zeta. cbn [length] in *.
    do 4 (eapply (post_bind _ _ (λ _, True)); [by apply ends_post; solve_ends|]; intros ? _).
    eapply post_bind; [apply IH; rewrite length_drop; simpl; lia|]. intros [o r] Hr.
    rewrite length_drop in Hr. simpl in *. lia.
Qed.

Lemma uu_loop_ends n orig s out : (length s <= n)%nat → ends (uu_loop n orig s out).
Proof.
  revert s out. induction n as [|n IH]; intros s out Hn; cbn [uu_loop]; (destruct s as [|c s]; [done|]); [simpl in Hn; lia|].
  cbv zeta. destruct (drop_while wsp _) as [|d t] eqn:E; [by apply IH; simpl; lia|].
  assert (length (d :: t) <= length (c :: s))%nat as Hl.
  { rewrite <- E. rewrite !drop_while_drop, !length_drop. lia. }
  repeat case_if; try done. pose proof (uu_line_post (length t) (Z.land (bz d - 32) 63) t ltac:(lia)) as Hp.
  destruct (uu_line _ _ _) as [[o r]| |]; [|done..]. simpl in *. apply IH. lia.
Qed.

Lemma deUue_ends s : ends (deUue s).
Proof.
  unfold deUue. cbv zeta. solve_ends; apply uu_loop_ends; rewrite ?length_drop; lia.
Qed.

Lemma decodeCTE_ends s e : ends (decodeCTE s e).
Proof. destruct e; try done. apply deUue_ends. Qed.
#[export] Hint Resolve encodeCTE_ends decodeCTE_ends : ends.

(** ** Printing *)

Section Printing.
Context {U : UnicodeCase} {CS : Charset} {L : Local} {C : Clock} {CL : CharsetLaws CS}.
Context {K : nat → names} {B : nat → Prop}.

Lemma append_fields_ends buf fs avoid : ends (append_fields buf fs avoid).
Proof.
  revert buf. induction fs as [|[p f] fs IH]; intros buf; cbn [append_fields]; [done|].
  unfold appendField. solve_ends.
Qed.
Hint Resolve append_fields_ends : ends.

(** An action that ends and does not change the store. *)
Abbreviation reads_only st m := (mkeeps K B st m (λ _ st', st' = st)).

Lemma reads_bind {A A'} st (m : mm A) (f : A → mm A') Q :
  reads_only st m → (∀ a, mkeeps K B st (f a) Q) → mkeeps K B st (m ≫= f) Q.
Proof. intros Hm Hf. eapply mk_bind; [exact Hm|]. intros a st' _ _ ->. apply Hf. Qed.

Lemma reads_lift {A} st (m : outcome A) : ends m → reads_only st (lift m).
Proof. intros Hm Hst. unfold lift. by destruct m. Qed.

Lemma reads_header_of st p : reads_only st (header_of p).
Proof. unfold header_of. mstep. destruct (p_header x); cbn [deref]; by mstep. Qed.

Lemma reads_part_type st p : reads_only st (part_type p).
Proof.
  unfold part_type. apply reads_bind; [apply reads_header_of | intros hp]. mstep. apply reads_lift.
  by eapply gives_ref_ends, Header_ContentType_gives.
Qed.

Lemma reads_part_encoding st p : reads_only st (part_encoding p).
Proof.
  unfold part_encoding. apply reads_bind; [apply reads_header_of | intros hp]. mstep. mstep.
  - by eapply gives_ref_ends, Header_ContentTransferEncoding_gives.
  - by mstep.
Qed.

Lemma reads_header_text st avoid p : reads_only st (part_header_text avoid p).
Proof.
  unfold part_header_text. apply reads_bind; [apply reads_header_of | intros hp]. mstep. apply reads_lift.
  unfold Header_AsText. auto with ends.
Qed.

Lemma reads_text_part st p : reads_only st (appendTextPart p).
Proof.
  unfold appendTextPart. apply reads_bind; [apply reads_part_encoding | intros e]. mstep. apply reads_lift. auto with ends.
Qed.

(** The number of parts and the messages stay the same. *)
Definition same_parts (st st' : Store) : Prop := parts_of st' = parts_of st ∧ st_messages st' = st_messages st.

Abbreviation prints st m := (mkeeps K B st m (λ _, same_parts st)).

Lemma prints_bind {A A'} st (m : mm A) (f : A → mm A') :
  prints st m → (∀ a st', same_parts st st' → prints st' (f a)) → prints st (m ≫= f).
Proof.
  intros Hm Hf. eapply mk_bind; [exact Hm|]. intros a st' _ _ [Hp Hg].
  eapply mk_mono; [by apply Hf|]. intros b st'' _ _ [Hp' Hg']. split; congruence.
Qed.

Lemma prints_reads {A} st (m : mm A) : reads_only st m → prints st m.
Proof. intros H. eapply mk_mono; [exact H|]. by intros a st' _ _ ->. Qed.

(** The bound [n] on the depth of the calls is enough for the part [p], or for
    the message [m]. *)
Definition enough_part (st : Store) (n p : nat) : Prop := p < parts_of st ≤ p + n.
Definition enough_message (st : Store) (n m : nat) : Prop :=
  ∃ msg, st_messages st !! m = Some msg ∧ enough_part st n (m_part msg).

Section Append.
Context (rfc822 multipart : nat → mm str) (n : nat).
Context (Hmessage : ∀ st m, enough_message st n m → prints st (rfc822 m)).
Context (Hmultipart : ∀ st p, enough_part st n p → prints st (multipart p)).

Lemma append_any_prints st bp ct : enough_part st n bp → prints st (append_any rfc822 multipart bp ct).
Proof.
  intros Hn. unfold append_any. apply reads_bind; [apply reads_part_type | intros child].
  apply reads_bind; [apply reads_part_encoding | intros e]. cbv zeta.
  pose proof (prints_reads _ _ (reads_text_part st bp)) as Ht.
  mstep; [mstep; [done|]|].
  - apply mk_wf. intros Hst. mstep. mstep. apply Hmessage. destruct (wp_message _ _ _ H0 _ H1) as (msg & E & ?).
    exists msg. split; [done|]. pose proof (ws_messages _ _ Hst _ _ E). unfold enough_part in *. lia.
  - destruct (option_map snd child); [|done]. mstep; [done|]. mstep; [by apply Hmultipart|].
    mstep. by apply prints_reads, reads_lift, encodeCTE_ends.
Qed.

Lemma append_children_prints st avoid delim ct cs :
  Forall (enough_part st n) cs → prints st (append_children rfc822 multipart avoid delim ct cs).
Proof.
  revert st. induction cs as [|c cs IH]; intros st Hcs; cbn [append_children]; [by apply mk_ret|].
  apply Forall_cons in Hcs as [Hc Hcs]. apply reads_bind; [apply reads_header_text | intros t].
  apply prints_bind; [by apply append_any_prints|]. intros b st' [Hl Hm].
  apply prints_bind; [|intros r st'' _; by apply mk_ret]. apply IH.
  eapply Forall_impl; [exact Hcs|]. unfold enough_part. by rewrite Hl.
Qed.

(** The children of a part need one call less. *)
Lemma enough_children st x p :
  enough_part st (S n) p → wf_part st p x → Forall (enough_part st n) (p_parts x).
Proof.
  intros [? ?] Hx. eapply Forall_impl; [exact (wp_parts _ _ _ Hx)|]. unfold enough_part. simpl. lia.
Qed.

Lemma append_multipart_prints st avoid p :
  enough_part st (S n) p → prints st (append_multipart rfc822 multipart avoid p).
Proof.
  intros Hn. unfold append_multipart. apply reads_bind; [apply reads_part_type | intros ct].
  mstep. destruct x as [q f]. mstep. apply prints_bind; [|intros r st' _; by apply mk_ret].
  apply append_children_prints. by eapply enough_children.
Qed.

Lemma message_body_prints st avoid m :
  enough_message st (S n) m → prints st (message_body rfc822 multipart avoid m).
Proof.
  intros (msg & Em & Hn). unfold message_body. mstep. assert (x = msg) as -> by congruence.
  apply reads_bind; [apply reads_part_type | intros ct]. mstep; [by apply append_multipart_prints|].
  mstep. pose proof (enough_children _ _ _ Hn H2) as Hcs. destruct (p_parts x) as [|c cs] eqn:Ec; [by apply mk_ret|].
  apply Forall_cons in Hcs as [Hc _]. eapply mk_bind; [apply mk_on_part|].
  - intros y _ [Y1 Y2 Y3 Y4]. split; try done. exact (wp_header _ _ _ H2).
  - intros _ st' _ _ [Hl Hm]. eapply mk_mono; [apply append_any_prints; unfold enough_part in *; lia|].
    intros a st'' _ _ [? ?]. split; congruence.
Qed.

Lemma message_rfc822_prints st avoid m :
  enough_message st (S n) m → prints st (message_rfc822 rfc822 multipart avoid m).
Proof.
  intros Hn. unfold message_rfc822. mstep. apply reads_bind; [apply reads_header_text | intros t].
  apply prints_bind; [by apply message_body_prints|]. intros b st' _. by apply mk_ret.
Qed.
End Append.

Lemma printers_print n avoid :
  (∀ st m, enough_message st n m → prints st (RFC822 n avoid m))
  ∧ (∀ st p, enough_part st n p → prints st (appendMultipart n avoid p)).
Proof.
  induction n as [|n [IH1 IH2]].
  { split; [intros st m (msg & _ & Hp) | intros st p Hp]; unfold enough_part in Hp; lia. }
  split; intros st q Hq; [by apply (message_rfc822_prints _ _ n) | by apply (append_multipart_prints _ _ n)].
Qed.

Lemma Message_RFC822_prints st avoid m : prints st (Message_RFC822 avoid m).
Proof.
  apply mk_wf. intros Hst. unfold Message_RFC822, print_fuel. mstep. cbn [RFC822]. 
  destruct (st_messages st !! m) as [msg|] eqn:E.
  - apply (printers_print (S (parts_of st))). exists msg. split; [done|].
    pose proof (ws_messages _ _ Hst _ _ E). unfold enough_part. lia.
  - unfold message_rfc822. mstep. congruence.
Qed.
End Printing.

(** ** The fields of a body part *)

Open Scope Z_scope.

Section Leaf.
Context {U : UnicodeCase} {CS : Charset} {L : Local} {C : Clock} {CL : CharsetLaws CS}.
Context {N : names}.

Lemma guessTextCodec_ends body : ends (guessTextCodec body).
Proof. unfold guessTextCodec, iso2022_start. solve_ends. Qed.

Lemma meta_loop_ends n body b i guess : len b < i + Z.of_nat n → 0 ≤ i → ends (meta_loop n body b i guess).
Proof.
  revert i guess. induction n as [|n IH]; intros i guess Hn Hi; cbn [meta_loop].
  - apply bind_ends; [auto with ends|]. intros t Ht%slice_le. lia.
  - apply bind_ends; [auto with ends|]. intros t _. cbv zeta. destruct (Index t meta_tag <? 0) eqn:E; [done|]. breflect.
    solve_ends; apply IH; change (len meta_tag) with 41; lia.
Qed.

Lemma guessHtmlCodec_ends body : ends (guessHtmlCodec body).
Proof.
  unfold guessHtmlCodec. cbv zeta. apply bind_ends; [apply guessTextCodec_ends|]. intros g _.
  apply bind_ends; [auto with ends|]. intros b _. apply meta_loop_ends; lia.
Qed.
Hint Resolve guessTextCodec_ends guessHtmlCodec_ends : ends.

Lemma guess_text_ends f sp de text cn body : ends (guess_text f sp de text cn body).
Proof. unfold guess_text. solve_ends. Qed.
Hint Resolve guess_text_ends : ends.

Lemma count_encodings_ends k h i any :
  (length (h_fields h) ≤ i + k)%nat → ends (count_encodings k h i any).
Proof.
  revert i any. induction k as [|k IH]; intros i any Hk; cbn [count_encodings];
    (destruct (field _ i h) as [[p [f|f|f|f|f|f|f]]|] eqn:E; try done).
  - apply field_lt in E. lia.
  - apply IH. lia.
Qed.

Lemma hk_drop_encodings body : hkeeps (inv N) (drop_encodings body) (λ _, True).
Proof.
  unfold drop_encodings. hstep; [|by hstep]. hstep. apply hk_lift_bind; [apply count_encodings_ends; unfold id; lia|].
  intros [any i] _. hgo.
Qed.

(** The result of [ensure_type]. *)
Lemma hk_ensure_type :
  N ContentTypeFieldName → hkeeps (inv N) ensure_type (λ '(_, f), ok_field N (FContentType f)).
Proof.
  intros HN. unfold ensure_type. hstep. haccess; [by hstep|].
  eapply (hk_bind _ _ (λ _, True)); [by destruct (defaultType (id h)); apply (hk_Add_named _ _ ContentTypeFieldName)|].
  intros _ _. hstep. haccess; by hstep.
Qed.

Lemma bang_subjects_ptrs cn fs err : map fst (fst (bang_subjects cn fs err)) = map fst fs.
Proof.
  revert err. induction fs as [|[p f] fs IH]; intros err; [done|]. cbn [bang_subjects].
  assert (∀ err g, map fst (fst (let '(fs', e) := bang_subjects cn fs err in ((p, g) :: fs', e))) = p :: map fst fs) as H.
  { intros e g. specialize (IH e). destruct (bang_subjects cn fs e). simpl in *. by rewrite IH. }
  destruct f; try apply H. case_if; [|apply H]. destruct (decode _ _) as [v ok]. apply H.
Qed.

Lemma bang_subjects_ok cn fs err :
  Forall (λ r, ok_field N (snd r)) fs → Forall (λ r, ok_field N (snd r)) (fst (bang_subjects cn fs err)).
Proof.
  revert err. induction fs as [|[p f] fs IH]; intros err Hfs; [done|]. cbn [bang_subjects].
  apply Forall_cons in Hfs as [Hf Hfs].
  assert (∀ err g, ok_field N g →
    Forall (λ r, ok_field N (snd r)) (fst (let '(fs', e) := bang_subjects cn fs err in ((p, g) :: fs', e)))) as H.
  { intros e g Hg. specialize (IH e Hfs). destruct (bang_subjects cn fs e). by constructor. }
  destruct f; try by apply H. case_if; [|by apply H]. destruct (decode _ _) as [v ok]. apply H.
  apply (ok_same (FHeader f)); [done | done | constructor | done].
Qed.

Lemma hk_bang {A} cn e (k : bool → A) :
  hkeeps (inv N) (fs ← gets h_fields;
                  let '(fs, err) := bang_subjects cn fs e in _ ← modify (set_fields fs); mret (k err)) (λ _, True).
Proof.
  intros h [H1 H2 H3 H4]. rewrite (pbind_ret (gets h_fields) _ h _ h eq_refl).
  pose proof (bang_subjects_ptrs cn (h_fields h) e) as Hp. pose proof (bang_subjects_ok cn (h_fields h) e H3) as Hk.
  destruct (bang_subjects cn (h_fields h) e) as [fs err]. rewrite (pbind_ret (modify _) _ h _ _ eq_refl).
  split; [|done]. cbn [fst] in *. split; cbn [set_fields h_fields h_next]; [by rewrite Hp | | done | done].
  apply Forall_forall. intros r Hr. assert (fst r ∈ map fst (h_fields h)) as Hin.
  { rewrite <- Hp. apply list_elem_of_In, in_map. by apply list_elem_of_In. }
  apply list_elem_of_fmap in Hin as (x & -> & Hx). by apply (proj1 (Forall_forall _ _) H2).
Qed.

Definition ok_encoding (cte : option (nat * ContentTransferEncoding)) : Prop :=
  ∀ p g, cte = Some (p, g) → ok_field N (FEncoding g).

Lemma ok_set_encoding e g : ok_field N (FEncoding g) → ok_field N (FEncoding (set_encoding e g)).
Proof. intros H. apply (ok_same (FEncoding g)); [done | done | apply H | done]. Qed.

Lemma ok_encoding_some p g : ok_field N (FEncoding g) → ok_encoding (Some (p, g)).
Proof. by intros H ? ? [= <- <-]. Qed.

Lemma hk_set_encoding p g e :
  ok_field N (FEncoding g) →
  hkeeps (inv N) (_ ← store p (FEncoding (set_encoding e g)); mret (Some (p, set_encoding e g))) ok_encoding.
Proof.
  intros Hg. apply (ok_set_encoding e) in Hg. eapply hk_bind; [by apply hk_store|]. intros _ _. hstep.
  by apply ok_encoding_some.
Qed.

Lemma hk_remove_encoding :
  hkeeps (inv N) (_ ← RemoveAllNamed ContentTransferEncodingFieldName; mret None) ok_encoding.
Proof. eapply hk_bind; [apply hk_RemoveAllNamed|]. intros _ _. by hstep. Qed.

(** Adding a Content-Transfer-Encoding field. *)
Lemma hk_add_encoding v :
  N ContentTransferEncodingFieldName →
  hkeeps (inv N) (_ ← Add $"Content-Transfer-Encoding" v; h ← gets id; lift (Header_ContentTransferEncoding h))
    ok_encoding.
Proof.
  intros HN. eapply hk_bind; [by apply (hk_Add_named _ _ ContentTransferEncodingFieldName)|]. intros _ _. hstep.
  apply hk_lift. unfold id. by destruct (Header_ContentTransferEncoding_gives h H) as (r & -> & Hr).
Qed.

Lemma hk_text_part body e ct cte :
  N ContentTransferEncodingFieldName → ok_field N (FContentType (snd ct)) → ok_encoding cte →
  hkeeps (inv N) (text_part body e ct cte) (λ '(_, _, _, cte), ok_encoding cte).
Proof.
  intros HN Hct Hcte. unfold text_part. cbv zeta.
  destruct (text_charset body (snd ct)) as [[c specified] unknown]. destruct c as [cn|]; [|by hstep].
  destruct (decode (toCRLF body) cn) as [text ok]. eapply (hk_bind _ _ (λ _, True)).
  { hstep; [|by hstep]. apply (hk_bang cn (negb ok) (λ err, (if negb ok then text else body, err))). }
  intros [body1 err] _. apply hk_lift_bind; [auto with ends|]. intros [text1 cn1] _.
  destruct (if specified && err then _ else _) as [text2 body2].
  eapply (hk_bind _ _ (λ _, True)).
  { apply hk_store, (ok_same (FContentType (snd ct))); [done | done | | done]. case_if.
    - by apply addParameter_distinct; [|apply Hct].
    - apply removeParameter_distinct, Hct. }
  intros _ _. eapply hk_bind; [|intros cte' Hcte'; by hstep]. destruct cte as [[p g]|].
  - specialize (Hcte p g eq_refl). hstep; [apply hk_remove_encoding|].
    destruct (Encoding g); first [by apply hk_set_encoding | hstep; by apply ok_encoding_some].
  - hstep; [by apply hk_add_encoding | by hstep].
Qed.

Lemma hk_data_encoding body f cte :
  N ContentTransferEncodingFieldName → ok_encoding cte → hkeeps (inv N) (data_encoding body f cte) ok_encoding.
Proof.
  intros HN Hcte. unfold data_encoding. hstep; [by hstep|]. hstep; [apply hk_remove_encoding|].
  destruct cte as [[p g]|]; [by apply hk_set_encoding, (Hcte p g) | by apply hk_add_encoding].
Qed.
End Leaf.

(** A header without Content-Type fields whose default type is text/plain. *)
Definition untyped_names : names :=
  {| allowed n := n ≠ ContentTypeFieldName; default_in d := d = TextPlainContentType |}.

Lemma find_field_app_none fn fs r :
  Forall (λ r, field_name (snd r) ≠ fn) fs → field_name (snd r) = fn → find_field fn 0 (fs ++ [r]) = Some r.
Proof.
  intros Hfs Hr. induction Hfs as [|x fs Hx _ IH]; cbn [app find_field].
  - by rewrite Hr, str_eqb_refl.
  - destruct (_ ==s fn) eqn:E; [|done]. breflect. done.
Qed.

Lemma untyped_field h : inv untyped_names h → Forall (λ r, field_name (snd r) ≠ ContentTypeFieldName) (h_fields h).
Proof. intros [_ _ H _]. eapply Forall_impl; [exact H|]. by intros r [_ ?]. Qed.

Lemma untyped_type h : inv untyped_names h → Header_ContentType h = Ret None.
Proof.
  intros Hh. unfold Header_ContentType. destruct (field _ 0 h) as [r|] eqn:E; [|done].
  apply (inv_field _ _ _ _ Hh) in E as [[_ Hn] Hr]. by destruct Hn.
Qed.

Lemma untyped_ensure `{U : UnicodeCase} `{CS : Charset} `{L : Local} h :
  inv untyped_names h → post (ensure_type h) (λ '((_, f), _), ct_type f = $"text").
Proof.
  intros Hh. unfold ensure_type. rewrite (pbind_ret (gets id) _ h h h eq_refl).
  rewrite (pbind_ret (lift _) _ h None h) by (unfold lift; by rewrite untyped_type).
  rewrite (inv_default _ _ Hh).
  set (f := match NewHeaderField $"Content-Type" $"text/plain" with Ret f => f | _ => FHeader (hf_named []) end).
  rewrite (pbind_ret (Add _ _) _ h tt (added f h)) by (apply Add_added; by vm_compute).
  rewrite (pbind_ret (gets id) _ _ _ _ eq_refl). unfold Header_ContentType, field, id. cbn [added h_fields].
  rewrite find_field_app_none; [|by apply untyped_field | by vm_compute]. unfold f. vm_compute. done.
Qed.

(** ** The parsers *)

Open Scope nat_scope.

Abbreviation K_any := (λ _ : nat, any_names).

Section Parsing.
Context {U : UnicodeCase} {CS : Charset} {L : Local} {C : Clock} {CL : CharsetLaws CS}.

Abbreviation keeps_store st m := (mkeeps K_any no_message st m (λ _ _, True)).

(** The header [hp] has no type yet. *)
Definition untyped_at (st : Store) (hp : nat) : Prop := ∃ h, st_headers st !! hp = Some h ∧ inv untyped_names h.

Lemma leaf_part_keeps st bp hp s start :
  mkeeps K_any no_message st (leaf_part bp hp s start) (λ '(_, f, _) _, untyped_at st hp → ct_type f = $"text").
Proof.
  unfold leaf_part. eapply mk_bind; [by apply mk_on_header, hk_drop_encodings|].
  intros u st1 _ _ (_ & _ & _ & h0 & h1 & E0 & Ed & E1). mstep. assert (x = h1) as -> by congruence.
  assert (untyped_at st hp → inv untyped_names h1) as Hu.
  { intros (h & Eh & Hh). assert (h = h0) as -> by congruence.
    by apply (hk_run _ _ _ _ _ (hk_drop_encodings _) Hh) in Ed as [? _]. }
  destruct (Header_ContentTransferEncoding_gives h1 H0) as (cte & Ec & Hcte). rewrite Ec.
  apply mk_lift_bind; [done|]. intros ? [= <-]. cbv zeta. apply mk_lift_bind; [solve_ends|]. intros body _.
  eapply mk_bind; [by apply mk_on_header, hk_ensure_type|].
  intros [q f] st2 _ _ (Hf & _ & _ & h1' & h2 & E1' & Ef & E2). assert (h1' = h1) as -> by congruence. cbn [snd].
  assert (untyped_at st hp → ct_type f = $"text") as Ht.
  { intros Hh. pose proof (untyped_ensure h1 (Hu Hh)) as Hp. by rewrite Ef in Hp. }
  mstep.
  - eapply mk_bind; [apply mk_on_header, (hk_text_part (N := any_names)); [done | done | exact Hcte]|].
    intros [[[text err] body'] cte'] st3 _ _ _. eapply mk_bind; [by apply mk_on_part; intros x _ []|].
    intros _ st4 _ _ _. by mstep.
  - eapply mk_bind; [by apply mk_on_part; intros x _ []|]. intros _ st3 _ _ _.
    eapply mk_bind; [by apply mk_on_header, hk_data_encoding|]. intros cte' st4 _ _ _. by mstep.
Qed.

(** What the parsers promise each other, for texts of at most [k] bytes. *)
Definition multipart_ok (k : nat) (mp : nat → str → str → bool → mm unit) : Prop :=
  ∀ st p s d digest, p < parts_of st → length s ≤ k → keeps_store st (mp p s d digest).
Definition bodypart_ok (k : nat) (bp : nat → str → nat → mm nat) : Prop :=
  ∀ st p s hp, p < parts_of st → hp < headers_of st → length s ≤ k →
    mkeeps K_any no_message st (bp p s hp) (λ r st', p < r < parts_of st').
Definition parse_ok (k : nat) (pm : nat → str → mm unit) : Prop :=
  ∀ st m s, length s ≤ k → mkeeps K_any (eq m) st (pm m s) (λ _ _, True).

(** A part without type does not call the other parsers. *)
Definition untyped_ok (bp : nat → str → nat → mm nat) : Prop :=
  ∀ st p s hp, p < parts_of st → hp < headers_of st → untyped_at st hp →
    mkeeps K_any no_message st (bp p s hp) (λ r st', p < r < parts_of st').

Lemma from_length s i t : from_ s i = Ret t → length t ≤ length s.
Proof.
  unfold from_, slice. case_if; [|done]. intros [= <-]. rewrite length_take, length_drop. lia.
Qed.

Lemma adopt_keeps st bp ps :
  bp < parts_of st → Forall (λ c, bp < c < parts_of st) ps → keeps_store st (adopt bp ps).
Proof.
  revert st. induction ps as [|p ps IH]; intros st Hb Hps; cbn [adopt]; [by mstep|].
  apply Forall_cons in Hps as [Hp Hps]. eapply mk_bind; [apply mk_on_part|].
  { intros x _ [W1 W2 W3 W4]. split; try done. cbn [with_parts p_parts]. apply Forall_app. by split; [|constructor]. }
  intros _ st1 _ _ [Hl1 _]. eapply mk_bind; [apply mk_on_part|].
  { intros x _ [W1 W2 W3 W4]. split; try done. intros q [= <-]. lia. }
  intros _ st2 _ _ [Hl2 _]. rewrite <- Hl1, <- Hl2 in *. by apply IH.
Qed.

Lemma inner_message_keeps st parse bp s start :
  parse_ok (length s) parse → bp < parts_of st → keeps_store st (inner_message parse bp s start).
Proof.
  intros Hparse Hb. apply (mk_narrow _ (eq (length (st_messages st)))); [lia|]. unfold inner_message.
  mstep; [auto with ends|]. eapply mk_bind; [apply mk_NewMessage|]. intros m st1 _ E1 (-> & msg & Em & Hp).
  mstep. assert (x = msg) as -> by congruence. eapply mk_bind; [apply mk_on_part|].
  { intros x _ [W1 W2 W3 W4]. split; try done. intros q [= <-]. lia. }
  intros _ st2 _ E2 [Hl2 Hm2]. mstep; [auto with ends|]. apply from_length in H2.
  eapply mk_bind; [by apply Hparse|]. intros _ st3 _ E3 _.
  mstep. rewrite <- Hm2 in Em. destruct (ext_messages E3 _ _ Em) as (msg3 & Em3 & Hle & _).
  assert (x = msg3) as -> by congruence. mstep. eapply (mk_bind _ _ _ (λ _ _, True)).
  { eapply mk_mono; [apply (mk_widen _ no_message); [done|]; apply adopt_keeps; [lia|] | done].
    eapply Forall_impl; [exact (wp_parts _ _ _ H6)|]. simpl. lia. }
  intros _ st4 _ E4 _. eapply mk_bind; [apply mk_on_part|].
  { intros y _ [W1 W2 W3 W4]. split; try done. intros k [= <-].
    destruct (ext_messages E4 _ _ Em3) as (msg4 & Em4 & ? & _). exists msg4. split; [done | lia]. }
  intros _ st5 _ _ _. eapply mk_mono; [apply Message_RFC822_prints | done].
Qed.

Lemma body_start_ends s : ends (body_start s).
Proof. unfold body_start. cbv zeta. solve_ends. Qed.

(** The part is made before its children, whose parsers are only called when the
    part has a type. *)
Lemma bodypart_with_keeps st multipart parse p s hp :
  p < parts_of st → hp < headers_of st →
  (untyped_at st hp ∨ multipart_ok (length s) multipart ∧ parse_ok (length s) parse) →
  mkeeps K_any no_message st (bodypart_with multipart parse p s hp) (λ r st', p < r < parts_of st').
Proof.
  intros Hp Hh Hrec. unfold bodypart_with. mstep; [apply body_start_ends|].
  eapply mk_bind; [apply mk_new_Part; split; cbn; [by intros q [= <-] | by intros k [= <-] | done | done]|].
  intros bp st1 _ E1 (-> & Hl1 & _ & Hh1 & _). set (bp := parts_of st) in *.
  eapply mk_bind; [apply leaf_part_keeps|]. intros [[body f] cte] st2 _ E2 Hf.
  apply ext_parts in E1, E2 as E2'. eapply (mk_bind _ _ _ (λ _ _, True)).
  { destruct Hrec as [Hu | [Hm Hpm]].
    - unfold is_type. rewrite Hf by (unfold untyped_at in *; by rewrite Hh1). by mstep.
    - mstep.
      + mstep; [auto with ends|]. eapply mk_bind; [apply Hm; [lia|]; by eapply from_length|]. intros _ st3 _ _ _. by mstep.
      + mstep; [|by mstep]. apply inner_message_keeps; [done | lia]. }
  intros body' st3 _ E3 _. apply ext_parts in E3. cbv zeta.
  eapply (mk_bind _ _ _ (λ _ st', st' = st3)).
  { destruct cte as [[q g]|]; [|by mstep]. apply reads_lift. auto with ends. }
  intros body'' st4 _ _ ->. mstep. eapply mk_bind; [by apply mk_on_part; intros y _ []|]. intros _ st5 _ E5 _.
  apply ext_parts in E5. eapply mk_bind; [by apply mk_header, hk_Simplify|]. intros _ st6 _ E6 _.
  apply ext_parts in E6. mstep. lia.
Qed.

(** *** Delivery reports *)

Lemma report_loop_ends lines mta a : ends (report_loop lines mta a).
Proof.
  revert mta a. induction lines as [|l lines IH]; intros mta a; cbn [report_loop]; [done|]. cbv zeta. solve_ends.
Qed.

Lemma report_parts_keeps st parts : keeps_store st (report_parts parts).
Proof.
  revert st. induction parts as [|q parts IH]; intros st; cbn [report_parts]; [by mstep|]. mstep.
  apply mk_seq.
  { destruct (p_header x) as [hp|]; [|by mstep]. mstep. mstep. by eapply gives_ref_ends, Header_ContentType_gives. }
  intros ct st1. mstep; [|apply IH]. apply mk_lift_bind; [apply report_loop_ends|]. intros [mta address] _.
  destruct address; [|apply IH]. mstep; [|apply IH]. mstep. by apply mk_header, hk_set_postmaster.
Qed.

Lemma repair_report_keeps st multipart hp body :
  multipart_ok (length body) multipart → keeps_store st (repair_report multipart hp body).
Proof.
  intros Hm. unfold repair_report. mstep. mstep; [|by mstep]. mstep; [by eapply gives_ref_ends, Header_ContentType_gives|].
  destruct a as [[q f]|]; [|by mstep]. mstep; [|by mstep]. eapply mk_bind; [by apply mk_new_Part; split|].
  intros tmp st1 _ _ (-> & Hl & _). eapply mk_bind; [apply Hm; lia|]. intros _ st2 _ _ _. mstep.
  apply report_parts_keeps.
Qed.

Lemma RepairWithBody_store st multipart hp p body :
  multipart_ok (length body) multipart → p < parts_of st →
  keeps_store st (RepairWithBody multipart hp (Some p) body).
Proof.
  intros Hm Hp. apply RepairWithBody_keeps; [done | by intros q [= <-] | by left|].
  intros st' _. by apply repair_report_keeps.
Qed.

(** *** Multiparts *)

Lemma slice_length s i j t : (0 < i)%Z → slice s i j = Ret t → length t < length s.
Proof.
  intros Hi. unfold slice. case_if; [|done]. intros [= <-]. rewrite !andb_true_iff in Heqb. breflect.
  rewrite length_take, length_drop. lia.
Qed.

Lemma strip_break_ends s i : ends (strip_break s i).
Proof. unfold strip_break. solve_ends. Qed.

Lemma divider_at_ends s d i : ends (divider_at s d i).
Proof. unfold divider_at. solve_ends. Qed.

Lemma divider_end_post s d i : post (divider_end s d i) (λ '(j, l), (i ≤ j)%Z ∧ (i < len s → i < j)%Z ∧ (len s ≤ i → l = true)%Z).
Proof.
  unfold divider_end. destruct (len s <=? i)%Z eqn:E; breflect; [simpl; lia|]. cbv zeta.
  eapply post_bind; [apply ends_post, at_ends|]. intros a _. case_if; [|simpl; lia].
  eapply post_bind; [apply ends_post, at_ends|]. intros b _. case_if; simpl; lia.
Qed.

Lemma next_line_gt s i : (0 ≤ i < len s)%Z → (i < next_line s i)%Z.
Proof.
  intros Hi. unfold next_line. pose proof (skip_while_ge (λ c, negb ((c =b CR) || (c =b LF))) s i) as H1.
  set (k := skip_while _ s i) in *. pose proof (skip_while_ge (λ c, (c =b CR) || (c =b LF)) s k) as H2.
  destruct (decide (k = i)) as [E|]; [|lia]. rewrite E in *.
  destruct (lookup_lt_is_Some_2 s (Z.to_nat i)) as [c Hc]; [lia|].
  unfold k, skip_while in E |- *. rewrite (drop_S _ _ _ Hc) in *. cbn [take_while] in *.
  destruct ((c =b CR) || (c =b LF)); simpl in *; lia.
Qed.

Lemma next_line_ge s i : (i ≤ next_line s i)%Z.
Proof.
  unfold next_line. set (k := skip_while _ s i). pose proof (skip_while_ge (λ c, (c =b CR) || (c =b LF)) s k).
  pose proof (skip_while_ge (λ c, negb ((c =b CR) || (c =b LF))) s i). unfold k in *. lia.
Qed.

Lemma read_part_keeps st k multipart bodypart p s digest start i j pn :
  bodypart_ok k bodypart → multipart_ok 0 multipart → length s ≤ S k → p < parts_of st → (0 < start)%Z →
  keeps_store st (read_part multipart bodypart p s digest start i j pn).
Proof.
  intros Hb Hm Hs Hp Hstart. unfold read_part. mstep; [auto with ends|].
  pose proof (ReadHeader_post a MIMEHeader) as Hr. mstep; [by destruct (ReadHeader a MIMEHeader)|].
  rewrite H0 in Hr. destruct Hr as (Hw & Hn & _). apply inv_wf in Hw. cbv zeta.
  eapply mk_bind; [apply mk_new_Header; destruct digest; [by destruct Hw | done]|].
  intros hp st1 _ E1 (-> & Hl1 & _ & _ & _). eapply mk_bind; [apply mk_header, hk_Repair|]. intros _ st2 _ E2 _.
  mstep; [apply strip_break_ends|]. mstep; [auto with ends|]. apply slice_length in H2; [|lia].
  destruct E1 as [? ? _], E2 as [? ? _]. eapply mk_bind; [apply Hb; lia|]. intros bp st3 _ [? ? _] Hbp.
  eapply mk_bind; [by apply mk_on_part; intros y _ []|]. intros _ st4 _ [? ? _] _. eapply mk_bind; [apply mk_on_part|].
  { intros y _ [W1 W2 W3 W4]. split; try done. cbn [with_parts p_parts]. apply Forall_app. split; [done|].
    constructor; [lia | done]. }
  intros _ st5 _ [? ? _] _. apply RepairWithBody_store; [done | lia].
Qed.

Lemma multipart_loop_last n multipart bodypart p s d digest i start pn :
  multipart_loop multipart bodypart n p s d digest i start true pn = mret tt.
Proof. by destruct n. Qed.

(** Each round moves to a later line; the one at the end of the text is the last. *)
Lemma multipart_loop_keeps st n multipart bodypart p s d digest i start last pn :
  (∀ st start i j pn, (0 < start)%Z → (start < len s)%Z → p < parts_of st →
    keeps_store st (read_part multipart bodypart p s digest start i j pn)) →
  p < parts_of st → (0 ≤ i)%Z → (len s < i + Z.of_nat n)%Z →
  keeps_store st (multipart_loop multipart bodypart n p s d digest i start last pn).
Proof.
  intros Hread. revert st i start last pn.
  induction n as [|n IH]; intros st i start last pn Hp Hi Hn; cbn [multipart_loop];
    (destruct (negb last && (i <=? len s)%Z) eqn:Ec; [|by mstep]); apply andb_prop in Ec as [_ Hle]; breflect; [lia|].
  eapply (mk_bind _ _ _ (λ d st', st' = st ∧ ((len s ≤ i)%Z → d = true))).
  { destruct (len s <=? i)%Z eqn:E; breflect; [by mstep|]. eapply mk_mono; [apply reads_lift, divider_at_ends|].
    intros a st' _ _ ->. split; [done | lia]. }
  intros dv st1 _ _ [-> Hd]. mstep.
  { assert (i < len s)%Z by (destruct dv; [done|]; destruct (Z.lt_ge_cases i (len s)); [done|]; by rewrite Hd in *).
    pose proof (next_line_gt s i). apply IH; [done | lia | lia]. }
  pose proof (divider_end_post s d i) as Hde. destruct (divider_end s d i) as [[j l]| |]; [|done..].
  destruct Hde as (Hij & Hij' & Hl). apply mk_lift_bind; [done|]. intros ? [= <-]. cbv beta iota.
  assert (∀ st' j' start' pn', p < parts_of st' → (j ≤ j')%Z →
    keeps_store st' (multipart_loop multipart bodypart n p s d digest (next_line s j') start' l pn')) as Hnext.
  { intros st' j' start' pn' Hp' Hj'. destruct l; [rewrite multipart_loop_last; by mstep|].
    destruct (Z.lt_ge_cases i (len s)); [|by specialize (Hl ltac:(lia))].
    pose proof (next_line_ge s j'). apply IH; [done | lia | lia]. }
  pose proof (skip_while_ge (λ c, (c =b SP) || (c =b HT)) s j) as Hj1. set (j1 := skip_while _ s j) in *.
  destruct (_ || lf_at s j1) eqn:Eeol.
  - set (j2 := if cr_at s j1 then (j1 + 1)%Z else j1). assert (j1 ≤ j2)%Z by (unfold j2; case_if; lia).
    set (j3 := if lf_at s j2 then (j2 + 1)%Z else j2). assert (j2 ≤ j3)%Z by (unfold j3; case_if; lia).
    destruct ((0 <? start)%Z && (start <? len s)%Z) eqn:Est; [|apply Hnext; [done | lia]].
    apply andb_prop in Est as [?%Z.ltb_lt ?%Z.ltb_lt]. eapply mk_bind; [by apply Hread|]. intros _ st' _ [? _ _] _.
    apply Hnext; lia.
  - assert (i < len s)%Z.
    { destruct (Z.lt_ge_cases i (len s)); [done|]. rewrite !orb_false_iff in Eeol. destruct Eeol as [[? _] _]. breflect. lia. }
    pose proof (next_line_gt s i). apply IH; [done | lia | lia].
Qed.

Lemma multipart_with_ok k multipart bodypart :
  bodypart_ok k bodypart → multipart_ok 0 multipart → multipart_ok (S k) (multipart_with multipart bodypart).
Proof.
  intros Hb Hm st p s d digest Hp Hs. apply multipart_loop_keeps; [|done | lia | lia].
  intros st' start i j pn Hstart _ Hp'. by eapply read_part_keeps.
Qed.

(** An empty text has no parts. *)
Lemma multipart_with_empty multipart bodypart : multipart_ok 0 (multipart_with multipart bodypart).
Proof.
  intros st p s d digest Hp Hs. apply multipart_loop_keeps; [|done | lia | lia]. intros. lia.
Qed.

Lemma bodypart_with_ok k multipart parse :
  multipart_ok k multipart → parse_ok k parse → bodypart_ok k (bodypart_with multipart parse).
Proof.
  intros Hm Hp st p s hp Hlt Hh Hs. apply bodypart_with_keeps; [done | done|]. right. split.
  - intros st' q t d dg Hq Ht. apply Hm; [done | lia].
  - intros st' m t Ht. apply Hp. lia.
Qed.

Lemma bodypart_with_untyped multipart parse : untyped_ok (bodypart_with multipart parse).
Proof. intros st p s hp Hp Hh Hu. apply bodypart_with_keeps; auto. Qed.


(** *** Messages *)

(** The names for the header [hp]. *)
Definition K_at (hp : nat) (N : names) : nat → names := λ i, if decide (i = hp) then N else any_names.

Lemma K_at_any hp N st : wf_store (K_at hp N) st → wf_store K_any st.
Proof. intros [W1 W2 W3]. split; [|done|done]. intros i h Hh. apply (inv_wf (K_at hp N i)). by apply W1. Qed.

Lemma any_K_at hp N st : headers_of st ≤ hp → wf_store K_any st → wf_store (K_at hp N) st.
Proof.
  intros Hlt [W1 W2 W3]. split; [|done|done]. intros i h Hh. unfold K_at.
  pose proof (lookup_lt_Some _ _ _ Hh). rewrite decide_False by lia. by apply (W1 i).
Qed.

Lemma K_at_eq hp N : K_at hp N hp = N.
Proof. unfold K_at. by rewrite decide_True. Qed.

Lemma K_at_any_names hp st : wf_store (K_at hp any_names) st ↔ wf_store K_any st.
Proof.
  split; [apply K_at_any|]. intros [W1 W2 W3]. split; [|done|done]. intros i h Hh. unfold K_at. case_decide; by apply (W1 i).
Qed.

Lemma repair_message_keeps st N multipart hp p body :
  N = any_names ∧ multipart_ok (length body) multipart ∨ N = untyped_names → p < parts_of st →
  mkeeps (K_at hp N) no_message st (RepairWithBody multipart hp (Some p) body) (λ _ _, True).
Proof.
  intros [[-> Hm] | ->] Hp.
  - eapply mk_equiv; [apply K_at_any_names|]. by apply RepairWithBody_store.
  - apply RepairWithBody_keeps; rewrite ?K_at_eq; [done | by intros q [= <-] | right; by intros []|].
    intros st' _. apply repair_report_no_type. rewrite K_at_eq. by intros [].
Qed.

(** The part of a message is replaced by the one [parseBodypart] makes. *)
Lemma replace_part_keeps st m x (bp : mm nat) :
  st_messages st !! m = Some x →
  mkeeps K_any no_message st bp (λ r st', m_part x < r < parts_of st') →
  mkeeps K_any (eq m) st (r ← bp; on_message m (λ x, {| m_part := r; RFC822Size := RFC822Size x |})) (λ _ _, True).
Proof.
  intros Ex Hb. apply mk_wf. intros Hst.
  eapply (mk_bind_via K_any _ no_message); [done | by intros ? [] | done | exact Hb|].
  intros r st' _ E Hr. apply mk_on_message. intros y Hy. split; [|done]. simpl.
  destruct (ext_messages E _ _ Ex) as (y' & Ey & _ & Hpart). assert (y = y') as -> by congruence.
  rewrite Hpart by (by intros []). simpl in Hr. lia.
Qed.

(** The message is parsed with a header that keeps the names [N]. *)
Lemma message_with_keeps st N multipart bodypart m s h :
  ReadHeader s RFC5322Header = Ret h → inv N h →
  N = any_names ∨ N = untyped_names → multipart_ok (length s) multipart →
  (∀ body st' p, from_ s (numBytes h) = Ret body → p < parts_of st' → headers_of st < headers_of st' → wf_store (K_at (headers_of st) N) st' →
     mkeeps K_any no_message st' (bodypart p body (headers_of st)) (λ r st'', p < r < parts_of st'')) →
  mkeeps K_any (eq m) st (message_with multipart bodypart m s) (λ _ _, True).
Proof.
  intros Eh Hh HN Hm Hb. apply mk_wf. intros Hst. unfold message_with. rewrite Eh.
  apply mk_lift_bind; [done|]. intros ? [= <-]. set (hp := headers_of st) in *.
  eapply (mk_bind_via (K_at hp N) _ no_message); [apply K_at_any | by intros ? [] | by apply any_K_at | apply mk_new_Header; by rewrite K_at_eq|].
  intros ? st1 W1 _ (-> & Hl1 & _). fold hp in Hl1. fold hp. mstep. set (p := m_part x) in *.
  eapply (mk_bind_via (K_at hp N) _ no_message); [apply K_at_any | by intros ? [] | done | apply mk_on_part|].
  { intros y _ [Y1 Y2 Y3 Y4]. split; try done. intros k [= <-]. lia. }
  intros _ st2 W2 E2 [Hl2 Hm2].
  eapply (mk_bind_via (K_at hp N) _ no_message); [apply K_at_any | by intros ? [] | done | apply mk_on_message|].
  { intros y Hy. rewrite Hm2, H in Hy. injection Hy as <-. simpl. fold p. lia. }
  intros _ st3 W3 E3 _.
  eapply (mk_bind_via (K_at hp N) _ no_message); [apply K_at_any | by intros ? [] | done | apply mk_header, hk_Repair|].
  intros _ st4 W4 E4 _. apply mk_lift_bind; [auto with ends|]. intros body Eb.
  assert (extends no_message st1 st4) as E14 by (by trans st2; [|trans st3]).
  eapply (mk_bind_via (K_at hp N) _ no_message); [apply K_at_any | by intros ? [] | done | apply repair_message_keeps|].
  { destruct HN as [-> | ->]; [left | by right]. split; [done|]. intros st' q t d dg Hq Ht. apply Hm; [done|].
    apply from_length in Eb. lia. }
  { pose proof (ext_parts E14). lia. }
  intros _ st5 W5 E5 _. assert (extends no_message st1 st5) as E15 by by trans st4.
  pose proof (ext_parts E15). pose proof (ext_headers E15).
  destruct (ext_messages E15 _ _ H) as (y & Hy & _ & Hpart). specialize (Hpart ltac:(by intros [])).
  assert (mkeeps K_any (eq m) st5 (r ← bodypart p body hp;
    on_message m (λ x, {| m_part := r; RFC822Size := RFC822Size x |})) (λ _ _, True)) as Hbody.
  { apply (replace_part_keeps _ _ y); [done|]. rewrite Hpart. apply Hb; [done | lia | lia | done]. }
  mstep. mstep; [by eapply gives_ref_ends, Header_ContentType_gives|]. eapply (mk_bind _ _ _ (λ _ _, True)).
  { destruct a as [[q f]|]; [|done]. mstep; [|done].
    eapply mk_mono; [apply (mk_widen _ no_message); [by intros ? []|]; apply Hm; lia | done]. }
  intros _ st6 _ _ _. mstep. apply reads_bind; [apply reads_header_of|]. intros hp'. by apply mk_header, hk_Simplify.
Qed.

(** *** All parsers together *)

Lemma message_with_ok k multipart bodypart :
  multipart_ok k multipart → (∀ k', k = S k' → bodypart_ok k' bodypart) → untyped_ok bodypart →
  parse_ok k (message_with multipart bodypart).
Proof.
  intros Hm Hb Hu st m s Hs. pose proof (ReadHeader_post s RFC5322Header) as Hr.
  assert (multipart_ok (length s) multipart) as Hm' by (intros st' q t d dg Hq Ht; apply Hm; [done | lia]).
  destruct (ReadHeader s RFC5322Header) as [h| |] eqn:Eh; [| by unfold message_with; rewrite Eh | done].
  destruct Hr as (Hw & Hn & H0). destruct (decide (numBytes h = 0%Z)) as [Ez | Ez].
  - apply (message_with_keeps st untyped_names _ _ _ _ h); [done | | by right | done|].
    { specialize (H0 Ez). destruct Hw as [_ _ _ Hd]. split; rewrite ?H0; by try constructor. }
    intros body st' p _ Hp Hh Hst. apply Hu; [done | done|].
    destruct (lookup_lt_is_Some_2 _ _ Hh) as [h' Hh']. exists h'. split; [done|].
    pose proof (ws_headers _ _ Hst _ _ Hh') as Hi. by rewrite K_at_eq in Hi.
  - apply (message_with_keeps st any_names _ _ _ _ h); [done | by eapply inv_wf | by left | done|].
    intros body st' p Eb Hp Hh _. apply slice_length in Eb; [|lia]. destruct k as [|k]; [lia|].
    apply (Hb k); [done | done | done | lia].
Qed.

(** One more call of each parser. *)
Lemma parseMultipart_step k n :
  bodypart_ok k (parseBodypart n) → multipart_ok 0 (parseMultipart n) → multipart_ok (S k) (parseMultipart (S n)).
Proof. apply multipart_with_ok. Qed.

Lemma parseMultipart_empty n : multipart_ok 0 (parseMultipart (S n)).
Proof. apply multipart_with_empty. Qed.

Lemma parseBodypart_step k n :
  multipart_ok k (parseMultipart n) → parse_ok k (Parse n) → bodypart_ok k (parseBodypart (S n)).
Proof. apply bodypart_with_ok. Qed.

Lemma parseBodypart_untyped n : untyped_ok (parseBodypart (S n)).
Proof. apply bodypart_with_untyped. Qed.

Lemma Parse_step k n :
  multipart_ok k (parseMultipart n) → (∀ k', k = S k' → bodypart_ok k' (parseBodypart n)) →
  untyped_ok (parseBodypart n) → parse_ok k (Parse (S n)).
Proof. apply message_with_ok. Qed.

Lemma parsers_ok k n :
  (3 * k + 1 ≤ n → multipart_ok k (parseMultipart n))
  ∧ (3 * k + 2 ≤ n → parse_ok k (Parse n))
  ∧ (3 * k + 3 ≤ n → bodypart_ok k (parseBodypart n)).
Proof.
  revert n. induction k as [|k IH]; intros n.
  - assert (∀ n, 1 ≤ n → multipart_ok 0 (parseMultipart n)) as Hm
      by (intros [|i] Hi; [lia | apply parseMultipart_empty]).
    assert (∀ n, 2 ≤ n → parse_ok 0 (Parse n)) as Hp.
    { intros [|[|i]] Hi; [lia | lia|]. apply Parse_step; [apply Hm; lia | done | apply parseBodypart_untyped]. }
    split_and!; [auto | auto|]. destruct n as [|n]; [lia|]. intros Hn.
    apply parseBodypart_step; [apply Hm; lia | apply Hp; lia].
  - assert (∀ n, 3 * S k + 1 ≤ n → multipart_ok (S k) (parseMultipart n)) as Hm.
    { intros [|[|i]] Hi; [lia | lia|]. apply parseMultipart_step; [apply IH; lia | apply parseMultipart_empty]. }
    assert (∀ n, 3 * S k + 2 ≤ n → parse_ok (S k) (Parse n)) as Hp.
    { intros [|[|i]] Hi; [lia | lia|]. apply Parse_step; [apply Hm; lia | | apply parseBodypart_untyped].
      intros k' [= <-]. apply IH. lia. }
    split_and!; [auto | auto|]. destruct n as [|n]; [lia|]. intros Hn.
    apply parseBodypart_step; [apply Hm; lia | apply Hp; lia].
Qed.

Lemma Message_Parse_keeps st m s : mkeeps K_any (eq m) st (Message_Parse m s) (λ _ _, True).
Proof. apply (parsers_ok (length s) (parse_fuel s)); [unfold parse_fuel; lia | done]. Qed.

Lemma Header_RepairWithBody_keeps st hp p body :
  (∀ q, p = Some q → q < parts_of st) → keeps_store st (Header_RepairWithBody hp p body).
Proof.
  intros Hp. apply RepairWithBody_keeps; [done | done | by left|]. intros st' _. apply repair_report_keeps.
  apply parsers_ok. unfold parse_fuel. lia.
Qed.

Lemma ReadMessage_keeps st s :
  mkeeps K_any no_message st (ReadMessage s) (λ m st', is_Some (st_messages st' !! m)).
Proof.
  apply (mk_narrow _ (eq (length (st_messages st)))); [lia|]. unfold ReadMessage.
  eapply mk_bind; [apply mk_NewMessage|]. intros m st1 _ _ (-> & msg & Em & _).
  eapply mk_bind; [apply Message_Parse_keeps|].
  intros _ st2 _ E2 _. mstep. destruct (ext_messages E2 _ _ Em) as (msg2 & ? & _). by eexists.
Qed.
End Parsing.
