(* ===== verification/MessageFacts.v ===== *)
(** * Theorems on messages: [Parts] and [Store]

    The states a program can reach by reading messages, changing their headers,
    looking up parts and printing, and what holds in all of them. *)

From S2P Require Import Prelude GoStrings GoTime Strings StringsFacts Codec CodecFacts Words WordsFacts.
From S2P Require Import Parser ParserFacts Address AddressFacts AddrParser AddrParserFacts.
From S2P Require Import Fields FieldsFacts MIMEFacts Header HeaderFacts Store Repair RepairFacts.
From S2P Require Import StoreFacts Parts PartsFacts.
Open Scope nat_scope.

Section Messages.
Context {U : UnicodeCase} {CS : Charset} {L : Local} {C : Clock} {CL : CharsetLaws CS}.
Context (has_room : nat → bool).

Abbreviation keeps_store st m := (mkeeps K_any no_message st m (λ _ _, True)).

(** ** Part numbers *)

Lemma reads_find_child st n i cs found : mkeeps K_any no_message st (find_child n i cs found) (λ _ st', st' = st).
Proof.
  revert i found. induction cs as [|c cs IH]; intros i found; cbn [find_child]; [by mstep|].
  mstep. mstep; [by mstep | apply IH].
Qed.

Lemma link_header_keeps st bp c : keeps_store st (link_header bp c).
Proof.
  unfold link_header. mstep. mstep; [by mstep|]. eapply (mk_bind _ _ _ (λ _ _, True)).
  { destruct bp; [by do 2 mstep | by mstep]. }
  intros m st1 _ _ _. eapply (mk_bind _ _ _ (λ hp st', ∀ h, hp = Some h → h < headers_of st')).
  { destruct m as [m|].
    - do 3 mstep. intros h Hh. by eapply wp_header.
    - eapply mk_bind; [apply mk_new_Header; split; constructor|]. intros h st2 _ _ (-> & Hl & _). mstep.
      intros h [= <-]. lia. }
  intros hp st2 _ _ Hhp. destruct hp as [k|]; [|by mstep]. mstep.
  mstep; [by eapply gives_ref_ends, Header_ContentType_gives|]. mstep; [|by mstep].
  eapply mk_mono; [apply mk_on_part|done]. intros y _ [W1 W2 W3 W4]. by split.
Qed.

Lemma Forall_insert_child (P : nat → Prop) i child cs :
  P child → Forall P cs → Forall P (insert_child has_room i child cs).
Proof.
  intros Hc Hcs. unfold insert_child. cbv zeta. assert (Forall P (<[i:=child]> cs)) as Hi by by apply Forall_insert.
  case_if; [|done]. apply Forall_take, Forall_app. split; [by apply Forall_take | by apply Forall_drop].
Qed.

(** A new part below the part [owner]. *)
Lemma new_child_keeps st owner n :
  owner < parts_of st →
  mkeeps K_any no_message st (new_Part (with_number n (new_part (Some owner) None)))
    (λ c st', owner < c < parts_of st').
Proof.
  intros Ho. eapply mk_mono; [apply mk_new_Part|].
  - split; [by intros q [= <-] | done | by constructor | done].
  - intros c st' _ _ (-> & Hl & _). lia.
Qed.

Lemma bodypart_loop_keeps st k m s create b bp :
  (len s < b + Z.of_nat k)%Z → keeps_store st (bodypart_loop has_room k m s create b bp).
Proof.
  revert st b bp. induction k as [|k IH]; intros st b bp Hk; cbn [bodypart_loop];
    (destruct (b <? len s)%Z eqn:Eb; [|by mstep]); [lia|]. cbv zeta.
  pose proof (skip_while_ge is_digit s b) as He. set (e := skip_while is_digit s b) in *. mstep; [by mstep|].
  mstep; [auto with ends|]. destruct (Atoi a) as [n|]; [|by mstep]. mstep; [by mstep|]. mstep.
  set (owner := default (m_part x) bp). mstep. apply lookup_lt_Some in H2 as Ho.
  apply reads_bind; [apply reads_find_child | intros found]. eapply (mk_bind _ _ _ (λ _ st', st' = st)).
  { destruct found as [[i c]|]; [by do 2 mstep | by mstep]. }
  intros y st1 _ _ ->. destruct found as [[i c]|].
  - mstep.
    + apply mk_seq; [mstep; [apply link_header_keeps | by mstep]|]. intros _ st2. apply IH. lia.
    + mstep; [|by mstep]. eapply mk_bind; [by apply new_child_keeps|]. intros c' st2 _ _ Hc'.
      eapply mk_bind; [apply mk_on_part|].
      { intros z _ [W1 W2 W3 W4]. split; try done. by apply Forall_insert_child. }
      intros _ st3 _ _ _. apply IH. lia.
  - mstep; [|by mstep]. eapply mk_bind; [by apply new_child_keeps|]. intros c' st2 _ _ _. apply IH. lia.
Qed.

Lemma BodyPart_keeps st m s create : keeps_store st (BodyPart has_room m s create).
Proof. apply bodypart_loop_keeps. lia. Qed.

(** ** Printing *)

Lemma Message_Body_keeps st avoid m : keeps_store st (Message_Body avoid m).
Proof.
  apply mk_wf. intros Hst. unfold Message_Body, print_fuel. mstep.
  destruct (st_messages st !! m) as [msg|] eqn:E.
  - eapply mk_mono; [apply (message_body_prints _ _ (S (parts_of st))); [apply printers_print.. |]|done].
    exists msg. split; [done|]. pose proof (ws_messages _ _ Hst _ _ E). unfold enough_part. lia.
  - unfold message_body. mstep. congruence.
Qed.

Lemma Part_AsText_keeps st avoid p : keeps_store st (Part_AsText avoid p).
Proof.
  unfold Part_AsText. apply reads_bind; [apply reads_part_type | intros ct]. cbv zeta. mstep.
  apply lookup_lt_Some in H as Hp. destruct (p_parts x).
  - mstep; [|by mstep]. mstep. by mstep.
  - unfold print_fuel. mstep. eapply mk_mono; [apply printers_print | done]. unfold enough_part. lia.
Qed.

Lemma Message_RFC822_keeps st avoid m : keeps_store st (Message_RFC822 avoid m).
Proof. eapply mk_mono; [apply Message_RFC822_prints | done]. Qed.

(** ** Reachable states *)

(** The methods that change a header and look at nothing else. *)
Inductive header_method :=
| MAdd (key value : str)
| MRemoveAt (i : nat)
| MRemove (r : ref)
| MRemoveAllNamed (name : str)
| MValid
| MSimplify
| MRepair.

Definition run_method (c : header_method) : hm unit :=
  match c with
  | MAdd key value => Add key value
  | MRemoveAt i => RemoveAt i
  | MRemove r => Remove r
  | MRemoveAllNamed name => RemoveAllNamed name
  | MValid => _ ← Header_Valid; mret tt
  | MSimplify => Simplify
  | MRepair => Repair
  end.

Lemma run_method_keeps c : hkeeps wf_header (run_method c) (λ _, True).
Proof.
  destruct c; cbn [run_method].
  - by apply hk_Add.
  - apply hk_RemoveAt.
  - apply hk_Remove.
  - apply hk_RemoveAllNamed.
  - apply hk_seq; [apply hk_Valid | intros b; by hstep].
  - by apply hk_Simplify.
  - apply hk_Repair.
Qed.

(** What a program can do with messages: the exported functions and methods that
    make or change a message, a part or a header. *)
Inductive call :=
| CReadMessage (s : str)
| CNewMessage
| CParse (m : nat) (s : str)
| CReadHeader (s : str) (mode : headerMode)
| CRepairWithBody (hp : nat) (p : option nat) (body : str)
| CRFC822 (avoidUTF8 : bool) (m : nat)
| CBody (avoidUTF8 : bool) (m : nat)
| CAsText (avoidUTF8 : bool) (p : nat)
| CBodyPart (m : nat) (s : str) (create : bool)
| CHeader (hp : nat) (c : header_method).

(** A pointer to a part, if not nil, points to one. *)
Definition the_part (p : option nat) : mm unit :=
  match p with Some q => _ ← get_part q; mret tt | None => mret tt end.

Definition run_call (c : call) : mm unit :=
  match c with
  | CReadMessage s => _ ← ReadMessage s; mret tt
  | CNewMessage => _ ← NewMessage; mret tt
  | CParse m s => Message_Parse m s
  | CReadHeader s mode => h ← lift (ReadHeader s mode); _ ← new_Header h; mret tt
  | CRepairWithBody hp p body => _ ← the_part p; Header_RepairWithBody hp p body
  | CRFC822 avoid m => _ ← Message_RFC822 avoid m; mret tt
  | CBody avoid m => _ ← Message_Body avoid m; mret tt
  | CAsText avoid p => _ ← Part_AsText avoid p; mret tt
  | CBodyPart m s create => _ ← BodyPart has_room m s create; mret tt
  | CHeader hp c => on_header hp (run_method c)
  end.

(** The states after calls that return. *)
Inductive reachable : Store → Prop :=
| reach_start : reachable empty_store
| reach_call st c st' : reachable st → run_call c st = Ret (tt, st') → reachable st'.

Lemma the_part_keeps st p : mkeeps K_any no_message st (the_part p) (λ _ st', ∀ q, p = Some q → q < parts_of st').
Proof.
  unfold the_part. mstep; [|by mstep]. mstep. mstep. intros q [= <-]. by eapply lookup_lt_Some.
Qed.

Lemma run_call_keeps st c : mkeeps K_any (λ _, True) st (run_call c) (λ _ _, True).
Proof.
  assert (∀ A B (m : mm A) Q, mkeeps K_any B st m Q → mkeeps K_any (λ _, True) st m (λ _ _, True)) as Hwide.
  { intros A B m Q Hm. eapply mk_mono; [by eapply mk_widen|]. done. }
  assert (∀ A (m : mm A) Q, mkeeps K_any no_message st m Q →
    mkeeps K_any (λ _, True) st (_ ← m; mret tt) (λ _ _, True)) as Hany.
  { intros A m Q Hm. apply (Hwide _ no_message _ (λ _ _, True)). eapply mk_bind; [exact Hm|]. intros a st' _ _ _. by mstep. }
  destruct c; cbn [run_call].
  - eapply Hany, ReadMessage_keeps.
  - eapply Hany, mk_NewMessage.
  - eapply Hwide, Message_Parse_keeps.
  - pose proof (ReadHeader_post s mode) as Hr. apply mk_lift_bind; [by eapply post_ends|]. intros h Eh.
    rewrite Eh in Hr. eapply Hany, mk_new_Header, inv_wf, Hr.
  - apply (Hwide _ no_message _ (λ _ _, True)). eapply mk_bind; [apply the_part_keeps|]. intros u st' Hw He Hp.
    by apply Header_RepairWithBody_keeps.
  - eapply Hany, Message_RFC822_keeps.
  - eapply Hany, Message_Body_keeps.
  - eapply Hany, Part_AsText_keeps.
  - eapply Hany, BodyPart_keeps.
  - apply mk_header, run_method_keeps.
Qed.

Lemma reachable_wf_store st : reachable st → wf_store K_any st.
Proof.
  induction 1 as [|st c st' _ IH E]; [by split|].
  pose proof (run_call_keeps st c IH) as H. by rewrite E in H; destruct H.
Qed.

(** C1: in every state a program can reach with the exported functions and
    methods that make or change messages, parts and headers ([call]: [ReadMessage],
    [NewMessage], [Parse], [ReadHeader], [RepairWithBody], the printers,
    [BodyPart], [Add], the removals, [Valid], [Simplify] and [Repair]), every such
    call ends: it returns or panics.  Nested multiparts and messages inside
    messages do not make the parsers or the printers call each other forever. *)
Theorem calls_end (st : Store) (c : call) (Hst : reachable st) : ends (run_call c st).
Proof. eapply post_ends, run_call_keeps. by apply reachable_wf_store. Qed.

(** C7: in every state a program can reach, no pointer between parts,
    headers and messages dangles, parents were made before their children (so
    following parents ends), and every header is well-formed: no field occurs
    twice, each has the Go type its name calls for, and no two parameters of a
    field have the same name. *)
Theorem reachable_wf (st : Store) (Hst : reachable st) : wf_store K_any st.
Proof. by apply reachable_wf_store. Qed.

(** C11: in every state a program can reach, the methods that assert
    the Go type of a field do not panic, except that [Date] panics exactly for
    the headers without a Date field, where it is meant to return nil. *)
Theorem accessors_safe (st : Store) (hp : nat) (h : Header) (Hst : reachable st)
    (Hh : st_headers st !! hp = Some h) :
  returns (Header_ContentType h) ∧ returns (Header_ContentTransferEncoding h)
  ∧ returns (Header_ContentDisposition h) ∧ returns (Header_ContentLanguage h)
  ∧ (Header_Date h = Panic ↔ field DateFieldName 0 h = None).
Proof.
  pose proof (ws_headers _ _ (reachable_wf_store st Hst) _ _ Hh) as Hi.
  assert (∀ A con (m : outcome (option (nat * A))), gives_ref (N := any_names) con m → returns m) as Hr
    by (intros A con m (r & -> & _); by eexists).
  split_and!.
  - by eapply Hr, Header_ContentType_gives.
  - by eapply Hr, Header_ContentTransferEncoding_gives.
  - by eapply Hr, Header_ContentDisposition_gives.
  - by eapply Hr, Header_ContentLanguage_gives.
  - unfold Header_Date. destruct (field _ 0 h) as [[p f]|] eqn:E; [|done].
    apply (inv_field _ _ _ _ Hi) in E as [[[Ht _] _] Hn]. unfold typed in Ht. cbn [snd] in *.
    destruct f; try (rewrite Hn in Ht; discriminate); done.
Qed.
End Messages.

(** A small message, and the state after reading it. *)
Definition sample_message : str :=
  $"From: a@example.com" ++ crlf ++ $"Content-Type: text/plain; charset=utf-8" ++ crlf ++ crlf ++ $"text" ++ crlf.

Definition epoch_clock : Clock := stopped_clock {| t_unix := 0; t_nsec := 0; t_offset := 0 |}.

#[local] Existing Instance ascii_only_case.
#[local] Existing Instance plain_charsets.
#[local] Existing Instance utc_only.
#[local] Existing Instance epoch_clock.

Definition sample_store : Store :=
  match ReadMessage sample_message empty_store with
  | Ret (_, st) => st
  | _ => empty_store
  end.

Lemma sample_reachable : reachable (λ _, true) sample_store.
Proof.
  apply (reach_call _ empty_store (CReadMessage sample_message)); [constructor|]. vm_compute. reflexivity.
Defined.

Lemma calls_end_witness :
  ends (run_call (λ _, true) (CRFC822 false 0) sample_store).
Proof. apply (calls_end (λ _, true)). apply sample_reachable. Defined.

Lemma reachable_wf_witness :
  length (st_parts sample_store) = 2 ∧ wf_store K_any sample_store.
Proof. split; [reflexivity|]. apply (reachable_wf (λ _, true)), sample_reachable. Defined.

Lemma accessors_safe_witness :
  ∃ h, st_headers sample_store !! 0 = Some h ∧ length (h_fields h) = 4 ∧ returns (Header_ContentType h).
Proof.
  eexists. split; [vm_compute; reflexivity|]. split; [vm_compute; reflexivity|].
  refine (proj1 (accessors_safe (λ _, true) sample_store 0 _ sample_reachable _)). vm_compute. reflexivity.
Defined.

(** ** Examples of what the code does wrong *)

Definition text_lines (l : list str) : str := concat (map (λ x, x ++ crlf) l).

(** The text of a message that is not a multipart is not printed. *)
Lemma Message_Body_drops_text :
  match ReadMessage sample_message empty_store with
  | Ret (m, st) => ∃ st', Message_Body false m st = Ret ([], st')
  | _ => False
  end.
Proof. vm_compute. eexists. reflexivity. Qed.

(** A Content-Transfer-Encoding field without Content-Type field in a header
    without Date field. *)
Lemma Repair_panics :
  ReadMessage (text_lines [$"From: a@b.c"; $"Content-Transfer-Encoding: base64"; []; $"x"]) empty_store = Panic.
Proof. vm_compute. reflexivity. Qed.

(** A message without body. *)
Lemma ReadMessage_empty_body : ReadMessage (text_lines [$"From: a@b.c"; []]) empty_store = Panic.
Proof. vm_compute. reflexivity. Qed.

(** A text that ends in the middle of a field. *)
Lemma ReadMessage_no_newline : ReadMessage $"Subject: x" empty_store = Panic.
Proof. vm_compute. reflexivity. Qed.

(** The repairs give a message with a valid Date field another one. *)
Lemma repair_second_date :
  match ReadMessage (text_lines [$"From: a@b.c"; $"Subject: a"; $"Subject: b";
          $"Date: Fri, 21 Nov 1997 09:55:06 -0600"; $"Received: by x; Fri, 21 Nov 1997 09:55:06 -0600"; []; $"x"])
          empty_store with
  | Ret (_, st) => map (λ h, occurrences (h_fields h) DateFieldName) (st_headers st) = [2%Z]
  | _ => False
  end.
Proof. vm_compute. reflexivity. Qed.

(** A multipart with one part. *)
Definition sample_multipart : str :=
  text_lines [$"From: a@b.c"; $"Content-Type: multipart/mixed; boundary=b"; []; $"--b"; $"Content-Type: text/html"; [];
              $"<p>"; $"--b--"].

(** Asked to create part 2 after part 1, [BodyPart] puts the new part in the place
    of part 1 instead. *)
Lemma BodyPart_overwrites :
  match ReadMessage sample_multipart empty_store with
  | Ret (m, st) =>
      match BodyPart (λ _, false) m $"2" true st with
      | Ret (Some c, st') =>
          match st_messages st' !! m with
          | Some msg => p_parts <$> (st_parts st' !! m_part msg) = Some [c]
          | None => False
          end
      | _ => False
      end
  | _ => False
  end.
Proof. vm_compute. reflexivity. Qed.
