(* ===== verification/MultipartFacts.v ===== *)
(** * Theorems on multiparts: [parseMultipart] of [Parts]

    A multipart whose parts do not contain the divider is split into exactly
    these parts, each of which becomes the next child of the multipart. *)

From S2P Require Import Prelude GoStrings GoTime Strings StringsFacts Codec Words WordsFacts.
From S2P Require Import Parser ParserFacts Address AddressFacts AddrParser AddrParserFacts.
From S2P Require Import Fields FieldsFacts MIMEFacts Header HeaderFacts ReadFacts Store Repair RepairFacts.
From S2P Require Import StoreFacts Parts PartsFacts MessageFacts.
Open Scope Z_scope.

(** ** Multiparts as texts *)

Definition sep (d : str) : str := $"--" ++ d.

(** The fields and the body of a part. *)
Abbreviation part_source := (list (str * str) * str)%type.

Definition part_text (x : part_source) : str := header_block (fst x) ++ crlf ++ snd x.

(** The text from a divider on; after the last part comes the closing divider and
    an epilogue. *)
Fixpoint multipart_rest (d epilogue : str) (parts : list part_source) : str :=
  match parts with
  | [] => sep d ++ $"--" ++ crlf ++ epilogue
  | x :: parts' => sep d ++ crlf ++ part_text x ++ crlf ++ multipart_rest d epilogue parts'
  end.

Definition occurs (u t : str) : Prop := ∃ a b, t = a ++ u ++ b.

Definition no_eol (d : str) : Prop := (CR ∉ d) ∧ (LF ∉ d).

(** A part that can stand between dividers. *)
Record good_part (d : str) (x : part_source) : Prop := {
  gp_lines : Forall good_line (fst x);
  gp_divider : ¬ occurs (sep d) (part_text x)
}.

(** The start of a text or of a line. *)
Definition line_start (a : str) : Prop := a = [] ∨ ∃ a', a = a' ++ [LF].

(** ** Dividers *)

Lemma divider_at_cases s d k :
  d ≠ [] → 0 ≤ k → k + 2 + len d ≤ len s →
  ∃ b, divider_at s d k = Ret b ∧ (b = true → ∃ v, drop (Z.to_nat k) s = sep d ++ v).
Proof.
  intros Hd Hk Hl. unfold divider_at.
  destruct (at_in_range s k) as (a & -> & Ha); [destruct d; [done | simpl in *; lia]|].
  cbn [mbind outcome_bind]. destruct (a =b "-") eqn:Ea; [|by exists false].
  destruct (at_in_range s (k + 1)) as (b & -> & Hb); [lia|].
  cbn [mbind outcome_bind]. destruct (b =b "-") eqn:Eb; [|by exists false].
  assert (∃ prev, (if k =? 0 then Ret true else c ← at_ s (k - 1); Ret ((c =b x1f) || (c =b LF))) = Ret prev) as (prev & ->).
  { destruct (k =? 0) eqn:E0; [by eexists|]. destruct (at_in_range s (k - 1)) as (c & -> & _); [lia|]. by eexists. }
  cbn [mbind outcome_bind]. destruct prev; [|by exists false].
  destruct (at_in_range s (k + 2)) as (c & -> & Hc); [destruct d; [done | simpl in *; lia]|]. cbn [mbind outcome_bind].
  destruct (at_in_range d 0) as (e & -> & _); [destruct d; [done | simpl in *; lia]|]. cbn [mbind outcome_bind].
  destruct (c =b e); [|by exists false].
  rewrite slice_ret by lia. cbn [mbind outcome_bind]. eexists. split; [reflexivity|]. intros Et. breflect. subst a b.
  exists (drop (Z.to_nat (k + 2 + len d)) s).
  replace (Z.to_nat (k + 1)) with (S (Z.to_nat k)) in Hb by lia.
  replace (Z.to_nat (k + 2)) with (S (S (Z.to_nat k))) in Et by lia.
  replace (Z.to_nat (k + 2 + len d - (k + 2))) with (length d) in Et by lia.
  rewrite (drop_S _ _ _ Ha), (drop_S _ _ _ Hb).
  replace (Z.to_nat (k + 2 + len d)) with (S (S (Z.to_nat k)) + length d)%nat by lia.
  change (sep d ++ ?v) with ("-"%byte :: "-"%byte :: (d ++ v)). do 2 f_equal.
  by rewrite <- Et at 1; rewrite <- drop_drop, take_drop.
Qed.

(** A divider at the start of a line is found. *)
Lemma divider_at_true a d v : d ≠ [] → line_start a → divider_at (a ++ sep d ++ v) d (len a) = Ret true.
Proof.
  intros Hd Ha. set (s := a ++ sep d ++ v). unfold divider_at.
  assert (s = a ++ "-"%byte :: ("-"%byte :: d ++ v)) as E1 by done.
  assert (s = (a ++ $"-") ++ "-"%byte :: (d ++ v)) as E2 by (unfold s; by rewrite <- app_assoc).
  rewrite E1 at 1. rewrite at_app by done. cbn [mbind outcome_bind]. change ("-" =b "-") with true. cbv iota.
  rewrite E2 at 1. rewrite at_app by (rewrite length_app; simpl; lia). cbn [mbind outcome_bind].
  change ("-" =b "-") with true. cbv iota.
  replace (if len a =? 0 then Ret true else c ← at_ s (len a - 1); Ret ((c =b x1f) || (c =b LF))) with (Ret true).
  2:{ destruct Ha as [-> | (a' & ->)]; [done|]. rewrite length_app. simpl. case_if; [done|].
      assert (s = a' ++ LF :: (sep d ++ v)) as -> by (unfold s; by rewrite <- app_assoc).
      rewrite at_app by lia. done. }
  cbn [mbind outcome_bind]. destruct d as [|c d]; [done|].
  assert (s = (a ++ $"--") ++ c :: (d ++ v)) as E3 by (unfold s; by rewrite <- app_assoc).
  assert (s = (a ++ $"--") ++ (c :: d) ++ v) as E4 by (unfold s; by rewrite <- app_assoc).
  rewrite E3 at 1. rewrite at_app by (rewrite length_app; simpl; lia). cbn [mbind outcome_bind].
  change (at_ (c :: d) 0) with (Ret c : outcome byte). cbn [mbind outcome_bind]. rewrite beq_refl.
  rewrite E4, slice_app by (rewrite ?length_app; simpl; lia). cbn [mbind outcome_bind]. by rewrite str_eqb_refl.
Qed.

Lemma sep_no_eol d : no_eol d → no_eol (sep d).
Proof.
  intros [H1 H2]. split; intros [H|H]%elem_of_app; try done; apply list_elem_of_In in H; simpl in H;
    by destruct H as [|[|[]]].
Qed.

(** No divider starts in a part or in the line break after it. *)
Lemma divider_at_false a t d v k :
  d ≠ [] → no_eol d → ¬ occurs (sep d) t → len a ≤ k < len a + len t + 2 →
  divider_at (a ++ t ++ crlf ++ sep d ++ v) d k = Ret false.
Proof.
  intros Hd He Ho Hk. set (s := a ++ t ++ crlf ++ sep d ++ v).
  destruct (divider_at_cases s d k Hd) as (b & E & Hb); [lia | |].
  { unfold s, sep. rewrite !length_app. simpl. lia. }
  rewrite E. destruct b; [|done]. exfalso. destruct (Hb eq_refl) as (w & Hw). clear E Hb.
  apply sep_no_eol in He as [Hcr Hlf]. set (q := (Z.to_nat k - length a)%nat).
  assert (drop q (t ++ crlf ++ sep d ++ v) = sep d ++ w) as Hq.
  { rewrite <- Hw. unfold s. rewrite (drop_app_ge a) by lia. done. }
  destruct (decide (q + length (sep d) ≤ length t)%nat) as [Hin | Hout].
  - apply Ho. exists (take q t), (drop (q + length (sep d)) t).
    rewrite <- (take_drop q t) at 1. f_equal. rewrite drop_app_le in Hq by lia.
    apply (f_equal (take (length (sep d)))) in Hq. rewrite take_app_le, take_app_length in Hq by (rewrite length_drop; lia).
    rewrite <- Hq at 1. by rewrite <- drop_drop, take_drop.
  - destruct (decide (q ≤ length t)%nat) as [Hle | Hgt].
    + apply Hcr. apply (list_elem_of_lookup_2 _ (length t - q)). 
      rewrite <- (lookup_app_l (sep d) w) by lia. rewrite <- Hq, lookup_drop.
      replace (q + (length t - q))%nat with (length t + 0)%nat by lia. by rewrite lookup_app_r, Nat.add_sub' by lia.
    + assert (q = S (length t)) as Hq' by (unfold q in *; lia). rewrite Hq' in Hq.
      rewrite drop_app_ge in Hq by lia. replace (S (length t) - length t)%nat with 1%nat in Hq by lia. done.
Qed.

(** ** Lines *)

Lemma take_while_le ok (l : str) n c : l !! n = Some c → ok c = false → (length (take_while ok l) <= n)%nat.
Proof.
  revert n. induction l as [|x l IH]; intros n Hn Hc; [done|]. cbn [take_while]. destruct n as [|n].
  - injection Hn as ->. by rewrite Hc.
  - case_if; [|simpl; lia]. simpl in *. specialize (IH n Hn Hc). lia.
Qed.

Lemma skip_while_le ok s k m c :
  0 ≤ k ≤ m → s !! Z.to_nat m = Some c → ok c = false → skip_while ok s k ≤ m.
Proof.
  intros Hk Hm Hc. unfold skip_while. pose proof (take_while_le ok (drop (Z.to_nat k) s) (Z.to_nat m - Z.to_nat k) c) as H.
  rewrite lookup_drop in H. replace (Z.to_nat k + (Z.to_nat m - Z.to_nat k))%nat with (Z.to_nat m) in H by lia.
  specialize (H Hm Hc). lia.
Qed.

(** The next line is at most at the divider. *)
Lemma next_line_le a t c v k :
  (c =b CR) || (c =b LF) = false → len a ≤ k < len a + len t + 2 →
  next_line (a ++ t ++ crlf ++ c :: v) k ≤ len a + len t + 2.
Proof.
  intros Hc Hk. set (s := a ++ t ++ crlf ++ c :: v).
  assert (s = (a ++ t ++ [CR]) ++ LF :: (c :: v)) as E1 by (unfold s; by rewrite <- !app_assoc).
  assert (s = (a ++ t ++ crlf) ++ c :: v) as E2 by (unfold s; by rewrite <- !app_assoc).
  assert (s !! Z.to_nat (len a + len t + 1) = Some LF) as L1.
  { rewrite E1. apply list_lookup_middle. rewrite !length_app. simpl. lia. }
  assert (s !! Z.to_nat (len a + len t + 2) = Some c) as L2.
  { rewrite E2. apply list_lookup_middle. rewrite !length_app. simpl. lia. }
  unfold next_line. pose proof (skip_while_ge (λ c, negb ((c =b CR) || (c =b LF))) s k) as Hge.
  eapply skip_while_le; [|exact L2 | done]. split; [lia|].
  pose proof (skip_while_le (λ c, negb ((c =b CR) || (c =b LF))) s k (len a + len t + 1) LF ltac:(lia) L1 eq_refl). lia.
Qed.

Section Splitting.
Context {U : UnicodeCase} {CS : Charset} {L : Local} {C : Clock}.
Context (multipart : nat → str → str → bool → mm unit) (bodypart : nat → str → nat → mm nat).
Context (p : nat) (d : str) (digest : bool) (Hd : d ≠ []) (He : no_eol d).

Abbreviation loop := (λ n s i start last pn, multipart_loop multipart bodypart n p s d digest i start last pn).

(** From inside a part the loop gets to the divider after it. *)
Lemma loop_to_divider n a t v k start pn :
  let s := a ++ t ++ crlf ++ sep d ++ v in
  ¬ occurs (sep d) t → len a ≤ k ≤ len a + len t + 2 → len s < k + Z.of_nat n →
  ∃ n', len s < len a + len t + 2 + Z.of_nat n'
    ∧ ∀ st, loop n s k start false pn st = loop n' s (len a + len t + 2) start false pn st.
Proof.
  intros s Ho. revert k. induction n as [|n IH]; intros k Hk Hn.
  { unfold s in Hn. rewrite !length_app in Hn. simpl in *. lia. }
  destruct (decide (k = len a + len t + 2)) as [-> | Hne]; [by exists (S n)|].
  assert (len a + len t + 2 < len s) as Hls by (unfold s, sep; rewrite !length_app; simpl; lia).
  pose proof (next_line_gt s k ltac:(lia)) as Hgt.
  pose proof (next_line_le a t "-" ("-"%byte :: d ++ v) k eq_refl ltac:(lia)) as Hle.
  destruct (IH (next_line s k)) as (n' & Hn' & E); [|lia|].
  { split; [lia | exact Hle]. }
  exists n'. split; [done|]. intros st. rewrite <- E. cbn [multipart_loop].
  replace (negb false && (k <=? len s)) with true by (simpl; lia).
  replace (len s <=? k) with false by lia.
  rewrite (pbind_ret (lift _) _ st false st); [done|]. unfold lift, s. by rewrite divider_at_false by (done || lia).
Qed.

(** The hyphens after the closing divider. *)
Definition closing (close : bool) : str := if close then $"--" else [].

Lemma divider_end_at a close v :
  divider_end (a ++ sep d ++ closing close ++ crlf ++ v) d (len a) = Ret (len (a ++ sep d ++ closing close), close).
Proof.
  set (s := a ++ sep d ++ closing close ++ crlf ++ v). unfold divider_end.
  assert (len (sep d) = 2 + len d) as Hs by (unfold sep; rewrite length_app; simpl; lia).
  replace (len s <=? len a) with false by (unfold s; rewrite !length_app; simpl; lia). cbv zeta.
  destruct close; cbn [closing] in *.
  - assert (s = (a ++ sep d) ++ "-"%byte :: ("-"%byte :: crlf ++ v)) as E1 by (unfold s; by rewrite <- !app_assoc).
    assert (s = (a ++ sep d ++ $"-") ++ "-"%byte :: (crlf ++ v)) as E2 by (unfold s; by rewrite <- !app_assoc).
    rewrite E1 at 1. rewrite at_app by (rewrite length_app; lia). cbn [mbind outcome_bind].
    change ("-" =b "-") with true. cbv iota.
    rewrite E2 at 1. rewrite at_app by (rewrite !length_app; simpl; lia). cbn [mbind outcome_bind].
    change ("-" =b "-") with true. cbv iota. do 2 f_equal. rewrite !length_app. simpl. lia.
  - assert (s = (a ++ sep d) ++ CR :: (LF :: v)) as E1 by (unfold s; by rewrite <- !app_assoc).
    rewrite E1 at 1. rewrite at_app by (rewrite length_app; lia). cbn [mbind outcome_bind].
    change (CR =b "-") with false. cbv iota. do 2 f_equal. rewrite app_nil_r, !length_app. lia.
Qed.

(** The round at a divider. *)
Lemma loop_divider n a close v start pn st :
  let s := a ++ sep d ++ closing close ++ crlf ++ v in
  let j := len (a ++ sep d ++ closing close ++ crlf) in
  line_start a →
  loop (S n) s (len a) start false pn st
  = (if (0 <? start) && (start <? len s)
     then (_ ← read_part multipart bodypart p s digest start (len a) j pn;
           loop n s (next_line s j) j close (pn + 1)) st
     else loop n s (next_line s j) j close pn st).
Proof.
  intros s j Ha. cbn [multipart_loop].
  replace (negb false && (len a <=? len s)) with true by (unfold s; rewrite length_app; simpl; lia).
  replace (len s <=? len a) with false by (unfold s, sep; rewrite !length_app; simpl; lia).
  rewrite (pbind_ret (lift _) _ st true st) by (unfold lift, s; by rewrite divider_at_true). cbn [negb].
  rewrite (pbind_ret (lift _) _ st (len (a ++ sep d ++ closing close), close) st)
    by (unfold lift, s; by rewrite divider_end_at).
  set (j0 := len (a ++ sep d ++ closing close)). cbv beta iota zeta.
  assert (s = (a ++ sep d ++ closing close) ++ [] ++ CR :: (LF :: v)) as E1 by (unfold s; by rewrite <- !app_assoc).
  assert (s = (a ++ sep d ++ closing close ++ [CR]) ++ LF :: v) as E2 by (unfold s; by rewrite <- !app_assoc).
  replace (skip_while (λ c, (c =b SP) || (c =b HT)) s j0) with j0.
  2:{ rewrite E1, skip_while_at; [simpl; lia | done | constructor | done]. }
  assert (cr_at s j0 = true) as Hcr by (unfold cr_at; rewrite E1; cbn [app]; by rewrite is_at_app).
  assert (lf_at s (j0 + 1) = true) as Hlf.
  { unfold lf_at. rewrite E2, is_at_app; [done|]. unfold j0. rewrite !length_app. simpl. lia. }
  rewrite Hcr, orb_true_r, Hlf. cbn [orb].
  replace (j0 + 1 + 1) with j by (unfold j, j0; rewrite !length_app; simpl; lia). by case_if.
Qed.

(** What is done with one part: its header is made of its lines and repaired, its
    body becomes a body part, which is numbered and appended to the parts. *)
Definition add_part (x : part_source) (pn : Z) : mm unit :=
  h ← lift ('(_, h) ← add_lines (fst x) (new_header MIMEHeader);
            Ret (set_bytes (len (header_block (fst x) ++ crlf)) h));
  hp ← new_Header (if digest then set_default MessageRFC822ContentType h else h);
  _ ← on_header hp Repair;
  bp ← bodypart p (snd x) hp;
  _ ← on_part bp (with_number pn);
  _ ← on_part p (λ y, with_parts (p_parts y ++ [bp]) y);
  RepairWithBody multipart hp (Some bp) [].

Fixpoint add_parts (parts : list part_source) (pn : Z) : mm unit :=
  match parts with
  | [] => mret tt
  | x :: parts' => _ ← add_part x pn; add_parts parts' (pn + 1)
  end.

Lemma strip_break_crlf a v : strip_break (a ++ crlf ++ v) (len a + 2) = Ret (len a).
Proof.
  unfold strip_break. set (s := a ++ crlf ++ v).
  assert (s = (a ++ [CR]) ++ LF :: v) as E1 by (unfold s; by rewrite <- app_assoc).
  rewrite E1 at 1. rewrite at_app by (rewrite length_app; simpl; lia). cbn [mbind outcome_bind].
  change (LF =b LF) with true. cbv iota. change s with (a ++ CR :: (LF :: v)).
  rewrite at_app by lia. cbn [mbind outcome_bind]. change (CR =b CR) with true. cbv iota. f_equal. lia.
Qed.

(** The text between two dividers is read as its part. *)
Lemma read_part_good a x u v pn st :
  let s := a ++ part_text x ++ crlf ++ u ++ v in
  Forall good_line (fst x) →
  read_part multipart bodypart p s digest (len a) (len (a ++ part_text x ++ crlf))
    (len (a ++ part_text x ++ crlf ++ u)) pn st
  = add_part x pn st.
Proof.
  intros s Hx. unfold read_part, add_part.
  assert (slice s (len a) (len (a ++ part_text x ++ crlf ++ u)) = Ret (part_text x ++ crlf ++ u)) as E1.
  { replace s with (a ++ (part_text x ++ crlf ++ u) ++ v) by (unfold s; by rewrite <- !app_assoc).
    apply slice_app; [done|]. rewrite !length_app. lia. }
  rewrite (pbind_ret (lift _) _ st (part_text x ++ crlf ++ u) st) by (unfold lift; by rewrite E1).
  pose proof (ReadHeader_lines MIMEHeader (fst x) (snd x ++ crlf ++ u) Hx) as E2.
  replace (header_block (fst x) ++ crlf ++ snd x ++ crlf ++ u) with (part_text x ++ crlf ++ u) in E2
    by (unfold part_text; by rewrite <- !app_assoc).
  rewrite E2. clear E1 E2.
  destruct (add_lines (fst x) (new_header MIMEHeader)) as [[w h]| |]; [|done..]. cbn [mbind outcome_bind].
  rewrite !(pbind_ret (lift (Ret _)) _ st _ st eq_refl). cbv zeta. cbn [numBytes set_bytes].
  apply pbind_ext; [done|]. intros hp st1. apply pbind_ext; [done|]. intros [] st2.
  rewrite (pbind_ret (lift _) _ st2 (len (a ++ part_text x)) st2).
  2:{ unfold lift, s. replace (len (a ++ part_text x ++ crlf)) with (len (a ++ part_text x) + 2)
        by (rewrite !length_app; simpl; lia).
      rewrite (app_assoc a). by rewrite strip_break_crlf. }
  rewrite (pbind_ret (lift _) _ st2 (snd x) st2); [done|]. unfold lift.
  replace s with ((a ++ header_block (fst x) ++ crlf) ++ snd x ++ (crlf ++ u ++ v))
    by (unfold s, part_text; by rewrite <- !app_assoc).
  rewrite slice_app; [done | | ]; unfold part_text; rewrite !length_app; simpl; lia.
Qed.

Lemma line_start_crlf a : line_start (a ++ crlf).
Proof. right. exists (a ++ [CR]). by rewrite <- app_assoc. Qed.

Lemma loop_closed n s i start pn st : loop n s i start true pn st = Ret (tt, st).
Proof. by destruct n. Qed.

(** The round at the divider that ends a part. *)
Lemma loop_part n a x close v pn st :
  let s := a ++ part_text x ++ crlf ++ sep d ++ closing close ++ crlf ++ v in
  let j := len (a ++ part_text x ++ crlf ++ sep d ++ closing close ++ crlf) in
  a ≠ [] → good_part d x → len s < len a + 1 + Z.of_nat n →
  ∃ n', len s < j + 1 + Z.of_nat n'
    ∧ loop n s (next_line s (len a)) (len a) false pn st
      = (_ ← add_part x pn; loop n' s (next_line s j) j close (pn + 1)) st.
Proof.
  intros s j Ha [Hl Ho] Hn.
  assert (len a + len (part_text x) + 2 < len s) as Hs by (unfold s; rewrite !length_app; simpl; lia).
  assert (0 < len a) as Ha' by (destruct a; [done | simpl; lia]).
  pose proof (next_line_gt s (len a) ltac:(lia)) as Hgt.
  pose proof (next_line_le a (part_text x) "-" ("-"%byte :: d ++ closing close ++ crlf ++ v) (len a) eq_refl ltac:(lia)) as Hle.
  destruct (loop_to_divider n a (part_text x) (closing close ++ crlf ++ v) (next_line s (len a)) (len a) pn Ho)
    as (n' & Hn' & E); [split; [lia | exact Hle] | unfold s in *; lia |].
  fold s in Hn', E. destruct n' as [|n']; [lia|]. exists n'. rewrite E. split.
  { unfold j. rewrite !length_app. simpl. lia. }
  pose proof (loop_divider n' (a ++ part_text x ++ crlf) close v (len a) pn st) as Hr. cbv zeta in Hr.
  rewrite <- !app_assoc in Hr. fold s j in Hr.
  replace (len (a ++ part_text x ++ crlf)) with (len a + len (part_text x) + 2) in Hr by (rewrite !length_app; simpl; lia).
  rewrite Hr by (rewrite app_assoc; apply line_start_crlf).
  replace ((0 <? len a) && (len a <? len s)) with true by lia. apply pbind_ext; [|done].
  pose proof (read_part_good a x (sep d ++ closing close ++ crlf) v pn st Hl) as Hp. cbv zeta in Hp.
  rewrite <- !app_assoc in Hp. fold s j in Hp. rewrite <- Hp. f_equal. rewrite !length_app. simpl. lia.
Qed.

(** From the start of a part the loop adds it and the parts after it. *)
Lemma loop_parts parts epilogue : ∀ x n a pn st,
  let s := a ++ part_text x ++ crlf ++ multipart_rest d epilogue parts in
  a ≠ [] → Forall (good_part d) (x :: parts) → len s < len a + 1 + Z.of_nat n →
  loop n s (next_line s (len a)) (len a) false pn st = add_parts (x :: parts) pn st.
Proof.
  induction parts as [|y parts IH]; intros x n a pn st s Ha [Hx Hp]%Forall_cons Hn; unfold s in *;
    cbn [multipart_rest add_parts] in *.
  - destruct (loop_part n a x true epilogue pn st Ha Hx Hn) as (n' & _ & E). cbn [closing] in E. rewrite E.
    apply pbind_ext; [done|]. intros [] q. apply loop_closed.
  - destruct (loop_part n a x false (part_text y ++ crlf ++ multipart_rest d epilogue parts) pn st Ha Hx Hn)
      as (n' & Hn' & E). cbn [closing app] in E, Hn'. rewrite E.
    apply pbind_ext; [done|]. intros [] q.
    pose proof (IH y n' (a ++ part_text x ++ crlf ++ sep d ++ crlf) (pn + 1) q) as H. cbv zeta in H.
    rewrite <- !app_assoc in H. apply H; [by destruct a | done | exact Hn'].
Qed.
End Splitting.

(** The text before the first divider. *)
Definition good_preamble (d pre : str) : Prop := pre = [] ∨ ∃ t, pre = t ++ crlf ∧ ¬ occurs (sep d) t.

Section Multiparts.
Context {U : UnicodeCase} {CS : Charset} {L : Local} {C : Clock}.

(** The loop gets past the first divider. *)
Lemma loop_preamble multipart bodypart p d digest pre close v st :
  let s := pre ++ sep d ++ closing close ++ crlf ++ v in
  let j := len (pre ++ sep d ++ closing close ++ crlf) in
  d ≠ [] → no_eol d → good_preamble d pre →
  ∃ n, len s < j + 1 + Z.of_nat n
    ∧ multipart_with multipart bodypart p s d digest st
      = multipart_loop multipart bodypart n p s d digest (next_line s j) j close 1 st.
Proof.
  intros s j Hd He Hpre. unfold multipart_with.
  assert (len pre < len s) as Hs by (unfold s; rewrite !length_app; simpl; lia).
  assert (∃ n, len s < len pre + 1 + Z.of_nat n ∧ line_start pre
    ∧ multipart_loop multipart bodypart (S (S (length s))) p s d digest 0 0 false 1 st
      = multipart_loop multipart bodypart (S n) p s d digest (len pre) 0 false 1 st) as (n & Hn & Hl & ->).
  { destruct Hpre as [Ep | (t & Ep & Ho)].
    - exists (S (length s)). rewrite Ep. split; [simpl; lia|]. split; [by left | done].
    - destruct (loop_to_divider multipart bodypart p d digest Hd He (S (S (length s))) [] t
        (closing close ++ crlf ++ v) 0 0 1 Ho) as (n' & Hn' & E).
      + simpl. lia.
      + replace ([] ++ t ++ crlf ++ sep d ++ closing close ++ crlf ++ v) with s
          by (unfold s; rewrite Ep; by rewrite <- app_assoc). lia.
      + replace ([] ++ t ++ crlf ++ sep d ++ closing close ++ crlf ++ v) with s in E, Hn'
          by (unfold s; rewrite Ep; by rewrite <- app_assoc).
        replace (len [] + len t + 2) with (len pre) in E, Hn' by (rewrite Ep, length_app; simpl; lia).
        destruct n' as [|n']; [lia|]. exists n'. split; [lia|]. split; [rewrite Ep; apply line_start_crlf | apply E]. }
  exists n. split; [unfold j; rewrite !length_app; simpl; lia|].
  unfold s, j. by rewrite loop_divider.
Qed.

(** C3: a text made of a preamble, dividers, parts and an epilogue
    is split into exactly these parts: [parseMultipart] has the effect of adding each
    part in order, numbered from 1, with the header made of the lines of the part and
    the body after its empty line, without the line break before the next divider.
    What follows the closing divider is ignored. *)
Theorem parseMultipart_parts n p d digest pre epilogue parts st :
  d ≠ [] → no_eol d → good_preamble d pre → Forall (good_part d) parts →
  parseMultipart (S n) p (pre ++ multipart_rest d epilogue parts) d digest st
  = add_parts (parseMultipart n) (parseBodypart n) p digest parts 1 st.
Proof.
  intros Hd He Hpre Hp. change (parseMultipart (S n)) with (multipart_with (parseMultipart n) (parseBodypart n)).
  destruct parts as [|x parts]; cbn [multipart_rest].
  - destruct (loop_preamble (parseMultipart n) (parseBodypart n) p d digest pre true epilogue st Hd He Hpre)
      as (n' & _ & E). cbn [closing] in E. rewrite E. apply loop_closed.
  - destruct (loop_preamble (parseMultipart n) (parseBodypart n) p d digest pre false
      (part_text x ++ crlf ++ multipart_rest d epilogue parts) st Hd He Hpre) as (n' & Hn & E).
    cbn [closing app] in E, Hn. rewrite E.
    pose proof (loop_parts (parseMultipart n) (parseBodypart n) p d digest Hd He parts epilogue x n'
      (pre ++ sep d ++ crlf) 1 st) as H.
    cbv zeta in H. rewrite <- !app_assoc in H. apply H; [by destruct pre | done | exact Hn].
Qed.
End Multiparts.

(** ** An example *)

#[local] Existing Instance ascii_only_case.
#[local] Existing Instance plain_charsets.
#[local] Existing Instance utc_only.
#[local] Existing Instance epoch_clock.

Definition two_parts : list part_source :=
  [([($"Content-Type", $"text/plain")], $"one" ++ crlf ++ $"-- "); ([], $"two")].

Lemma two_parts_good : Forall (good_part $"b") two_parts.
Proof.
  repeat constructor; try done; try (eexists; split; [vm_compute; reflexivity | done]);
    intros (a & b & E); pose proof (Contains_app a (sep $"b") b) as H; rewrite <- E in H; vm_compute in H; done.
Qed.

(** The numbers of the parts of part 0. *)
Definition numbers (st : Store) : list (option Z) :=
  match st_parts st !! O with
  | Some x => map (λ i, Number <$> st_parts st !! i) (p_parts x)
  | None => []
  end.

Lemma parseMultipart_parts_witness :
  ∃ st, parseMultipart 9 0 ($"preamble" ++ crlf ++ multipart_rest $"b" $"epilogue" two_parts) $"b" false
          (set_parts [new_part None None] empty_store) = Ret (tt, st)
    ∧ numbers st = [Some 1; Some 2].
Proof.
  eexists. split.
  - rewrite (parseMultipart_parts 8 0 $"b" false ($"preamble" ++ crlf) $"epilogue" two_parts).
    + vm_compute. reflexivity.
    + done.
    + by split; intros H%list_elem_of_In; destruct H as [|[]].
    + right. exists $"preamble". split; [done|]. intros (a & b & E).
      pose proof (Contains_app a (sep $"b") b) as H. rewrite <- E in H. done.
    + apply two_parts_good.
  - vm_compute. reflexivity.
Defined.
