(* ===== verification/NumberFacts.v ===== *)
(** * Theorems on part numbers: [parseMultipart] and [BodyPart] of [Parts]

    The parts of a message that has been read are numbered from 1 in their order
    and have a header, at every level, and [BodyPart] finds a part by the numbers
    on the way to it. *)

From S2P Require Import Prelude GoStrings GoTime Strings StringsFacts Codec Words WordsFacts.
From S2P Require Import Parser ParserFacts Address AddressFacts AddrParser AddrParserFacts.
From S2P Require Import Fields FieldsFacts MIMEFacts Header HeaderFacts ReadFacts Store Repair RepairFacts.
From S2P Require Import StoreFacts Parts PartsFacts MessageFacts MultipartFacts.
Open Scope nat_scope.

(** ** The tree of parts *)

Definition children (st : Store) (i : nat) : list nat := from_option p_parts [] (st_parts st !! i).
Definition number (st : Store) (i : nat) : Z := from_option Number 0%Z (st_parts st !! i).
Definition has_header (st : Store) (i : nat) : Prop := is_Some (st_parts st !! i ≫= p_header).

(** The children of each part are numbered from 1 and have headers. *)
Definition numbered (st : Store) : Prop := ∀ i j c,
  children st i !! j = Some c → c < parts_of st ∧ number st c = (Z.of_nat j + 1)%Z ∧ has_header st c.

Lemma children_none st i : parts_of st ≤ i → children st i = [].
Proof. intros H. unfold children. by rewrite lookup_ge_None_2. Qed.

Lemma numbered_child st i c : numbered st → c ∈ children st i → c < parts_of st.
Proof. intros Hn (j & Hj)%list_elem_of_lookup. by apply (Hn i j c). Qed.

Lemma has_header_lt st i : has_header st i → i < parts_of st.
Proof. intros [h Hh]. destruct (st_parts st !! i) eqn:E; [|done]. by eapply lookup_lt_Some. Qed.

(** ** Actions that leave the tree as it is *)

(** New parts have no children. *)
Record quiet (st st' : Store) : Prop := {
  q_parts : parts_of st ≤ parts_of st';
  q_children : ∀ i, children st' i = children st i;
  q_number : ∀ i, i < parts_of st → number st' i = number st i;
  q_header : ∀ i, has_header st i → has_header st' i;
  q_messages : ∀ m msg, st_messages st !! m = Some msg →
    ∃ msg', st_messages st' !! m = Some msg' ∧ m_part msg' = m_part msg
}.

#[global] Instance quiet_refl : Reflexive quiet.
Proof. intros st. split; eauto. Qed.

#[global] Instance quiet_trans : Transitive quiet.
Proof.
  intros a b c [H1 H2 H3 H4 H5] [G1 G2 G3 G4 G5]. split; [lia | | | auto |].
  - intros i. by rewrite G2.
  - intros i Hi. rewrite G3 by lia. auto.
  - intros m msg Hm. destruct (H5 m msg Hm) as (msg' & Hm' & <-). by apply G5.
Qed.

Definition quietly {A} (m : mm A) : Prop := ∀ st a st', m st = Ret (a, st') → quiet st st'.

Lemma qm_bind {A B} (m : mm A) (f : A → mm B) : quietly m → (∀ a, quietly (f a)) → quietly (m ≫= f).
Proof.
  intros Hm Hf st b st' E. unfold mbind, state_bind in E. destruct (m st) as [[a q]| |] eqn:Em; try done.
  trans q; [by eapply Hm | by eapply Hf].
Qed.

Lemma qm_same {A} (m : mm A) :
  (∀ st a st', m st = Ret (a, st') → st_parts st' = st_parts st ∧ st_messages st' = st_messages st) → quietly m.
Proof.
  intros H st a st' E. destruct (H _ _ _ E) as [Ep Em]. split; unfold children, number, has_header; rewrite ?Ep; auto.
  rewrite Em. eauto.
Qed.

Lemma qm_ret {A} (a : A) : quietly (mret a).
Proof. apply qm_same. by intros st b st' [= <- <-]. Qed.
Lemma qm_gets {A} (f : Store → A) : quietly (gets f).
Proof. apply qm_same. by intros st b st' [= <- <-]. Qed.
Lemma qm_fuel {A} : quietly (out_of_fuel : mm A).
Proof. by intros st b st'. Qed.
Lemma qm_lift {A} (m : outcome A) : quietly (lift m).
Proof. apply qm_same. intros st b st' E. unfold lift in E. destruct m; by simplify_eq/=. Qed.
Lemma qm_get_part p : quietly (get_part p).
Proof. apply qm_same. unfold get_part. intros st b st' E. case_match; by simplify_eq. Qed.
Lemma qm_get_header p : quietly (get_header p).
Proof. apply qm_same. unfold get_header. intros st b st' E. case_match; by simplify_eq. Qed.
Lemma qm_get_message p : quietly (get_message p).
Proof. apply qm_same. unfold get_message. intros st b st' E. case_match; by simplify_eq. Qed.
Lemma qm_deref {A} (x : option A) : quietly (deref x).
Proof. destruct x; [apply qm_ret | apply qm_lift]. Qed.
Lemma qm_on_header {A} h (m : hm A) : quietly (on_header h m).
Proof.
  apply qm_same. unfold on_header. intros st b st' E. destruct (_ !! h) as [x|]; [|done].
  destruct (m x) as [[a y]| |]; by simplify_eq/=.
Qed.
Lemma qm_new_Header h : quietly (new_Header h).
Proof. apply qm_same. unfold new_Header. by intros st b st' [= <- <-]. Qed.
Lemma qm_time_Now `{Clock} : quietly time_Now.
Proof. apply qm_same. unfold time_Now. by intros st b st' [= <- <-]. Qed.

(** *** Changes of one part *)

Section OnPart.
Context (p : nat) (f : Part → Part) (st st' : Store) (E : on_part p f st = Ret (tt, st')).

Lemma on_part_inv :
  ∃ x, st_parts st !! p = Some x ∧ st' = set_parts (<[p := f x]> (st_parts st)) st.
Proof.
  unfold on_part, get_part, mbind, state_bind in E. destruct (st_parts st !! p) as [x|]; [|done].
  unfold modify in E. injection E as <-. eauto.
Qed.

Lemma on_part_lt : p < parts_of st.
Proof. destruct on_part_inv as (x & Hx & _). by eapply lookup_lt_Some. Qed.

Lemma on_part_parts : parts_of st' = parts_of st.
Proof. destruct on_part_inv as (x & _ & ->). apply length_insert. Qed.

Lemma on_part_messages : st_messages st' = st_messages st.
Proof. by destruct on_part_inv as (x & _ & ->). Qed.

Lemma on_part_other i : i ≠ p → st_parts st' !! i = st_parts st !! i.
Proof. intros Hi. destruct on_part_inv as (x & _ & ->). by apply list_lookup_insert_ne. Qed.

Lemma on_part_at : st_parts st' !! p = f <$> st_parts st !! p.
Proof.
  destruct on_part_inv as (x & Hx & ->). rewrite Hx. cbn [set_parts st_parts].
  apply list_lookup_insert_eq. by eapply lookup_lt_Some.
Qed.

Lemma on_part_children i :
  (∀ x, p_parts (f x) = p_parts x) → children st' i = children st i.
Proof.
  intros Hf. unfold children. destruct (decide (i = p)) as [->|]; [|by rewrite on_part_other].
  rewrite on_part_at. destruct (_ !! p); [apply Hf | done].
Qed.

Lemma on_part_number i : (∀ x, Number (f x) = Number x) → number st' i = number st i.
Proof.
  intros Hf. unfold number. destruct (decide (i = p)) as [->|]; [|by rewrite on_part_other].
  rewrite on_part_at. destruct (_ !! p); [apply Hf | done].
Qed.

Lemma on_part_header i :
  (∀ x, is_Some (p_header x) → is_Some (p_header (f x))) → has_header st i → has_header st' i.
Proof.
  intros Hf. unfold has_header. destruct (decide (i = p)) as [->|]; [|by rewrite on_part_other].
  rewrite on_part_at. destruct (_ !! p); [apply Hf | done].
Qed.

Lemma on_part_quiet :
  (∀ x, p_parts (f x) = p_parts x) → (∀ x, Number (f x) = Number x) →
  (∀ x, is_Some (p_header x) → is_Some (p_header (f x))) → quiet st st'.
Proof.
  intros H1 H2 H3. split.
  - by rewrite on_part_parts.
  - intros i. by apply on_part_children.
  - intros i _. by apply on_part_number.
  - intros i. by apply on_part_header.
  - rewrite on_part_messages. eauto.
Qed.
End OnPart.

Lemma qm_on_part p f :
  (∀ x, p_parts (f x) = p_parts x) → (∀ x, Number (f x) = Number x) →
  (∀ x, is_Some (p_header x) → is_Some (p_header (f x))) → quietly (on_part p f).
Proof. intros H1 H2 H3 st [] st' E. by eapply on_part_quiet. Qed.

Lemma qm_on_message m f : (∀ x, m_part (f x) = m_part x) → quietly (on_message m f).
Proof.
  intros Hf st [] st' E. unfold on_message, get_message, mbind, state_bind in E.
  destruct (st_messages st !! m) as [x|] eqn:Hx; [|done]. unfold modify in E. injection E as <-.
  split; try done. intros k msg Hk. cbn [set_messages st_messages]. destruct (decide (k = m)) as [->|].
  - rewrite Hx in Hk. injection Hk as <-. exists (f x). split; [|done]. apply list_lookup_insert_eq. by eapply lookup_lt_Some.
  - exists msg. by rewrite list_lookup_insert_ne.
Qed.

Lemma new_Part_inv x st p st' :
  new_Part x st = Ret (p, st') → p = parts_of st ∧ st' = set_parts (st_parts st ++ [x]) st.
Proof. by intros [= <- <-]. Qed.

Lemma qm_new_Part x : p_parts x = [] → quietly (new_Part x).
Proof.
  intros Hx st p st' [-> ->]%new_Part_inv. split.
  - cbn [set_parts st_parts]. rewrite length_app. lia.
  - intros i. unfold children. cbn [set_parts st_parts]. destruct (decide (i < parts_of st)).
    + by rewrite lookup_app_l.
    + rewrite (lookup_ge_None_2 (st_parts st)) by lia. rewrite lookup_app_r by lia.
      by destruct (i - parts_of st) as [|?]; cbn.
  - intros i Hi. unfold number. cbn [set_parts st_parts]. by rewrite lookup_app_l.
  - intros i Hi. pose proof (has_header_lt _ _ Hi). unfold has_header. cbn [set_parts st_parts]. by rewrite lookup_app_l.
  - eauto.
Qed.

Lemma qm_NewMessage : quietly NewMessage.
Proof.
  apply qm_bind; [by apply qm_new_Part|]. intros p. apply qm_bind; [apply qm_gets|]. intros m.
  apply qm_bind; [|intros; apply qm_ret]. intros st [] st' [= <-]. split; eauto.
  intros k msg Hk. exists msg. cbn [set_messages st_messages]. split; [|done]. by apply lookup_app_l_Some.
Qed.

Create HintDb quiet discriminated.
#[export] Hint Resolve qm_ret qm_gets qm_fuel qm_lift qm_get_part qm_get_header qm_get_message qm_deref qm_on_header
  qm_new_Header qm_time_Now qm_NewMessage : quiet.

(** Goes through an action step by step. *)
Ltac quietly :=
  repeat match goal with
  | |- quietly (_ ≫= _) => apply qm_bind; [|intros]
  | |- quietly (let _ := _ in _) => cbv zeta
  | |- quietly (match ?x with _ => _ end) => destruct x
  | |- quietly (on_part _ _) => apply qm_on_part; intros; done
  | |- quietly (new_Part _) => by apply qm_new_Part
  | |- quietly (on_message _ _) => by apply qm_on_message
  | |- quietly _ => solve [auto with quiet nocore]
  end.

Section Quiet.
Context {U : UnicodeCase} {CS : Charset} {L : Local} {C : Clock}.

(** ** Printing *)

Lemma qm_header_of p : quietly (header_of p).
Proof. unfold header_of. quietly. Qed.
Hint Resolve qm_header_of : quiet.

Lemma qm_part_type p : quietly (part_type p).
Proof. unfold part_type. quietly. Qed.
Hint Resolve qm_part_type : quiet.

Lemma qm_part_encoding p : quietly (part_encoding p).
Proof. unfold part_encoding. quietly. Qed.
Hint Resolve qm_part_encoding : quiet.

Lemma qm_part_header_text a p : quietly (part_header_text a p).
Proof. unfold part_header_text. quietly. Qed.
Hint Resolve qm_part_header_text : quiet.

Lemma qm_appendTextPart p : quietly (appendTextPart p).
Proof. unfold appendTextPart. quietly. Qed.
Hint Resolve qm_appendTextPart : quiet.

(** A part whose type is known has a header. *)
Lemma part_type_header p st ct st' :
  part_type p st = Ret (ct, st') → st' = st ∧ ∃ x h, st_parts st !! p = Some x ∧ p_header x = Some h.
Proof.
  unfold part_type, header_of, get_part, get_header, mbind, state_bind. intros E.
  destruct (st_parts st !! p) as [x|]; [|done]. destruct (p_header x) as [h|] eqn:Hh; [|done]. cbn in E.
  destruct (st_headers st !! h) as [y|]; [|done]. unfold lift in E.
  destruct (Header_ContentType y); simplify_eq/=. eauto.
Qed.

Section Append.
Context (rfc822 : nat → mm str) (multipart : nat → mm str).
Context (Hr : ∀ m, quietly (rfc822 m)) (Hm : ∀ p, quietly (multipart p)).

Lemma qm_append_any p ct : quietly (append_any rfc822 multipart p ct).
Proof. unfold append_any. quietly. Qed.
Hint Resolve qm_append_any : quiet.

Lemma qm_append_children a delim ct cs : quietly (append_children rfc822 multipart a delim ct cs).
Proof. induction cs; cbn [append_children]; quietly. Qed.

Lemma qm_append_multipart a p : quietly (append_multipart rfc822 multipart a p).
Proof. unfold append_multipart. quietly. apply qm_append_children. Qed.

Lemma qm_message_body a m : quietly (message_body rfc822 multipart a m).
Proof.
  unfold message_body. apply qm_bind; [quietly|]. intros msg. cbv zeta. intros st s st' E.
  unfold mbind at 1, state_bind at 1 in E. destruct (part_type (m_part msg) st) as [[ct st1]| |] eqn:Et; try done.
  apply part_type_header in Et as (-> & x & h & Hx & Hh). case_if_in E; [by eapply qm_append_multipart|].
  unfold mbind at 1, state_bind at 1, get_part in E. rewrite Hx in E. destruct (p_parts x) as [|c cs]; [by eapply qm_ret|].
  revert E. apply qm_bind; [|intros; quietly]. apply qm_on_part; intros; [done..|]. cbn. by rewrite Hh.
Qed.

Lemma qm_message_rfc822 a m : quietly (message_rfc822 rfc822 multipart a m).
Proof. unfold message_rfc822. quietly. apply qm_message_body. Qed.
End Append.

Lemma qm_printers n : ∀ a, (∀ m, quietly (RFC822 n a m)) ∧ (∀ p, quietly (appendMultipart n a p)).
Proof.
  induction n as [|n IH]; intros a; [split; intros; cbn; quietly|]. destruct (IH a) as [H1 H2].
  split; intros; [by apply qm_message_rfc822 | by apply qm_append_multipart].
Qed.

Lemma qm_Message_RFC822 a m : quietly (Message_RFC822 a m).
Proof. unfold Message_RFC822, print_fuel. quietly. apply qm_printers. Qed.

(** ** Repairs *)

Lemma qm_parent_date n parent : quietly (parent_date n parent).
Proof. revert parent. induction n; intros [q|]; cbn [parent_date]; quietly. Qed.

Lemma qm_repair_date occ hp p : quietly (repair_date occ hp p).
Proof. unfold repair_date, part_fuel. quietly; apply qm_parent_date. Qed.

Lemma qm_author_loop n h head parent a : quietly (author_loop n h head parent a).
Proof. revert head parent a. induction n; intros; cbn [author_loop]; quietly; apply IHn. Qed.

Lemma qm_repair_from occ hp p : quietly (repair_from occ hp p).
Proof. unfold repair_from, part_fuel. quietly. apply qm_author_loop. Qed.

Lemma qm_report_parts ps : quietly (report_parts ps).
Proof. induction ps; cbn [report_parts]; quietly; done. Qed.

(** ** Reading *)

Lemma qm_leaf_part bp hp s start : quietly (leaf_part bp hp s start).
Proof. unfold leaf_part. quietly. Qed.

Lemma qm_link_header bp c : quietly (link_header bp c).
Proof. unfold link_header. quietly. Qed.
End Quiet.

(** ** Actions that add children *)

(** Only the parts of [X] and new ones get children, and the children they get are
    new. *)
Record grew (X : nat → Prop) (st st' : Store) : Prop := {
  g_parts : parts_of st ≤ parts_of st';
  g_number : ∀ i, i < parts_of st → number st' i = number st i;
  g_header : ∀ i, has_header st i → has_header st' i;
  g_same : ∀ i, i < parts_of st → ¬ X i → children st' i = children st i;
  g_new : ∀ i c, c ∈ children st' i → c ∈ children st i ∨ parts_of st ≤ c;
  g_messages : ∀ m msg, st_messages st !! m = Some msg →
    ∃ msg', st_messages st' !! m = Some msg' ∧ (m_part msg' = m_part msg ∨ parts_of st ≤ m_part msg');
  g_numbered : numbered st → numbered st'
}.

Definition nothing (i : nat) : Prop := False.

Lemma quiet_grew X st st' : quiet st st' → grew X st st'.
Proof.
  intros [H1 H2 H3 H4 H5]. split; try done.
  - intros i c. rewrite H2. auto.
  - intros m msg Hm. destruct (H5 m msg Hm) as (msg' & ? & ?). eauto.
  - intros Hn i j c Hc. rewrite H2 in Hc. destruct (Hn i j c Hc) as (Hlt & Hnum & Hh).
    split_and!; [lia | | auto]. by rewrite H3.
Qed.

Lemma grew_trans X Y a b c :
  grew X a b → grew Y b c → (∀ i, i < parts_of a → Y i → X i) → grew X a c.
Proof.
  intros [H1 H2 H3 H4 H5 H6 H7] [G1 G2 G3 G4 G5 G6 G7] HXY. split; [lia | | by auto | | | | by auto].
  - intros i Hi. rewrite G2 by lia. auto.
  - intros i Hi HX. rewrite G4; [by auto | lia | auto].
  - intros i e He. apply G5 in He as [He | He]; [auto | right; lia].
  - intros m msg Hm. destruct (H6 m msg Hm) as (m1 & Hm1 & E1). destruct (G6 m m1 Hm1) as (m2 & Hm2 & E2).
    exists m2. split; [done|]. destruct E1 as [E1|E1], E2 as [E2|E2]; rewrite ?E2, ?E1; auto with lia.
Qed.

Lemma grew_quiet X a b c : grew X a b → quiet b c → grew X a c.
Proof. intros H1 H2. eapply grew_trans; [exact H1 | apply (quiet_grew X), H2 | done]. Qed.

Lemma quiet_grew_trans X a b c : quiet a b → grew X b c → grew X a c.
Proof. intros H1 H2. eapply grew_trans; [apply quiet_grew, H1 | exact H2 | done]. Qed.

Lemma grew_kept st st' i : grew nothing st st' → i < parts_of st → children st' i = children st i.
Proof. intros G Hi. apply (g_same _ _ _ G i Hi). by intros []. Qed.

Lemma grew_any X st st' : grew nothing st st' → grew X st st'.
Proof. intros G. eapply grew_trans; [apply quiet_grew; reflexivity | exact G | by intros i _ []]. Qed.

(** The next step of the action run by [E]. *)
Tactic Notation "run" hyp(E) "as" simple_intropattern(a) simple_intropattern(st) simple_intropattern(H) :=
  apply bind_inv in E as (a & st & H & E); cbv zeta in E.

Section Grow.
Context {U : UnicodeCase} {CS : Charset} {L : Local} {C : Clock}.

(** ** What the parsers do to the tree *)

Definition multipart_grows (f : nat → str → str → bool → mm unit) : Prop := ∀ p s d digest st u st',
  f p s d digest st = Ret (u, st') → p < parts_of st → children st p = [] → grew (eq p) st st'.

Definition bodypart_grows (f : nat → str → nat → mm nat) : Prop := ∀ p s hp st bp st',
  f p s hp st = Ret (bp, st') →
  grew nothing st st' ∧ parts_of st ≤ bp < parts_of st' ∧ has_header st' bp
  ∧ (numbered st → ∀ i, bp ∉ children st' i).

Definition message_grows (f : nat → str → mm unit) : Prop := ∀ m s st u st' msg,
  f m s st = Ret (u, st') → st_messages st !! m = Some msg → m_part msg < parts_of st →
  children st (m_part msg) = [] → grew (eq (m_part msg)) st st'.

Section Steps.
Context (multipart : nat → str → str → bool → mm unit) (bodypart : nat → str → nat → mm nat).
Context (parse_message : nat → str → mm unit).
Context (Hmulti : multipart_grows multipart) (Hbody : bodypart_grows bodypart) (Hmessage : message_grows parse_message).

Lemma repair_report_grows hp body st u st' :
  repair_report multipart hp body st = Ret (u, st') → grew nothing st st'.
Proof.
  unfold repair_report. intros E. run E as h st1 H1. apply qm_get_header in H1.
  case_if_in E; [|apply qm_ret in E; apply quiet_grew; by trans st1].
  run E as ct st2 H2. apply qm_lift in H2. assert (quiet st st2) as Q by by trans st1. clear H1 H2.
  destruct ct as [[k f]|]; [|apply qm_ret in E; apply quiet_grew; by trans st2].
  case_if_in E; [|apply qm_ret in E; apply quiet_grew; by trans st2].
  run E as tmp st3 H3. pose proof (qm_new_Part (new_part None None) eq_refl _ _ _ H3) as Q3.
  apply new_Part_inv in H3 as [-> E3]. run E as [] st4 H4.
  assert (grew (eq (parts_of st2)) st3 st4) as G.
  { eapply Hmulti; [exact H4 | | rewrite (q_children _ _ Q3); by apply children_none].
    rewrite E3. cbn [set_parts st_parts]. rewrite length_app. simpl. lia. }
  run E as x st5 H5. apply qm_get_part in H5. apply qm_report_parts in E.
  eapply grew_quiet; [|trans st5; eassumption].
  eapply grew_trans; [apply quiet_grew; trans st2; eassumption | exact G |].
  intros i Hi <-. pose proof (q_parts _ _ Q). lia.
Qed.

Lemma RepairWithBody_grows hp p body st u st' :
  RepairWithBody multipart hp p body st = Ret (u, st') → grew nothing st st'.
Proof.
  unfold RepairWithBody. intros E. run E as v st1 H1. apply qm_on_header in H1.
  case_if_in E; [apply qm_ret in E; apply quiet_grew; by trans st1|].
  run E as h st2 H2. apply qm_get_header in H2. run E as [] st3 H3. apply qm_on_header in H3.
  run E as [] st4 H4. apply qm_repair_date in H4. run E as [] st5 H5. apply qm_repair_from in H5.
  run E as [] st6 H6. apply qm_on_header in H6. run E as [] st7 H7. apply repair_report_grows in H7.
  apply qm_on_header in E. eapply grew_quiet; [|exact E]. eapply quiet_grew_trans; [|exact H7].
  trans st1; [done|]. trans st2; [done|]. trans st3; [done|]. trans st4; [done|]. by trans st5.
Qed.

(** A part gets a number and becomes the next child. *)
Lemma append_child_tree p bp pn st st1 st2 :
  on_part bp (with_number pn) st = Ret (tt, st1) →
  on_part p (λ y, with_parts (p_parts y ++ [bp]) y) st1 = Ret (tt, st2) →
  (∀ i, i ≠ bp → number st2 i = number st i) ∧ number st2 bp = pn ∧ (∀ i, has_header st i → has_header st2 i)
  ∧ (∀ i, i ≠ p → children st2 i = children st i) ∧ children st2 p = children st p ++ [bp].
Proof.
  intros E1 E2. pose proof (on_part_lt _ _ _ _ E1) as L1. pose proof (on_part_lt _ _ _ _ E2) as L2. split_and!.
  - intros i Hi. rewrite (on_part_number _ _ _ _ E2) by done. unfold number. by rewrite (on_part_other _ _ _ _ E1).
  - rewrite (on_part_number _ _ _ _ E2) by done. unfold number. rewrite (on_part_at _ _ _ _ E1).
    by destruct (lookup_lt_is_Some_2 (st_parts st) bp L1) as [x ->].
  - intros i Hi. eapply (on_part_header _ _ _ _ E2); [done|]. by eapply (on_part_header _ _ _ _ E1).
  - intros i Hi. unfold children at 1. rewrite (on_part_other _ _ _ _ E2) by done. by apply (on_part_children _ _ _ _ E1).
  - rewrite <- (on_part_children _ _ _ _ E1 p) by done. unfold children. rewrite (on_part_at _ _ _ _ E2).
    by destruct (lookup_lt_is_Some_2 (st_parts st1) p L2) as [x ->].
Qed.

(** For a new part that is the next one this keeps the numbering. *)
Lemma append_child p bp pn st st1 st2 st3 :
  grew nothing st st1 → parts_of st ≤ bp < parts_of st1 → has_header st1 bp →
  (numbered st → ∀ i, bp ∉ children st1 i) → p < parts_of st → pn = (len (children st p) + 1)%Z →
  on_part bp (with_number pn) st1 = Ret (tt, st2) →
  on_part p (λ y, with_parts (p_parts y ++ [bp]) y) st2 = Ret (tt, st3) →
  grew (eq p) st st3 ∧ children st3 p = children st p ++ [bp].
Proof.
  intros G Hbp Hh Hfresh Hp Hpn E2 E3.
  pose proof (on_part_parts _ _ _ _ E2) as P2. pose proof (on_part_parts _ _ _ _ E3) as P3.
  destruct (append_child_tree _ _ _ _ _ _ E2 E3) as (N1 & N2 & Hd & C1 & C2).
  rewrite (grew_kept _ _ p G) in C2 by done. pose proof (λ i, grew_kept _ _ i G) as G0.
  split; [|done]. destruct G as [G1 G2 G3 G4 G5 G6 G7]. split; [lia | | by auto | | | |].
  - intros i Hi. rewrite N1 by lia. auto.
  - intros i Hi Hne. rewrite C1 by auto. by apply G0.
  - intros i c Hc. destruct (decide (i = p)) as [->|Hi]; [|rewrite C1 in Hc by done; by apply G5].
    rewrite C2 in Hc. apply elem_of_app in Hc as [Hc | ->%list_elem_of_singleton]; [by left | right; lia].
  - by rewrite (on_part_messages _ _ _ _ E3), (on_part_messages _ _ _ _ E2).
  - intros Hn i j c Hc. rewrite P3, P2. destruct (decide (c = bp)) as [->|Hne].
    + destruct (decide (i = p)) as [->|Hi].
      2:{ rewrite C1 in Hc by done. exfalso. eapply (Hfresh Hn), list_elem_of_lookup_2, Hc. }
      rewrite C2 in Hc. apply lookup_app_Some in Hc as [Hc | [Hj Hc]].
      * apply list_elem_of_lookup_2, (numbered_child _ _ _ Hn) in Hc. lia.
      * apply list_lookup_singleton_Some in Hc as [Hj' _]. split_and!; [lia | rewrite N2; lia | auto].
    + rewrite N1 by done. assert (children st1 i !! j = Some c) as Hc'.
      { destruct (decide (i = p)) as [->|Hi]; [|by rewrite <- C1]. rewrite C2 in Hc. rewrite G0 by done.
        apply lookup_app_Some in Hc as [Hc | [_ Hc]]; [done|]. by apply list_lookup_singleton_Some in Hc as [_ ->]. }
      destruct (G7 Hn i j c Hc') as (? & ? & ?). auto.
Qed.

(** The end of [read_part]. *)
Lemma child_grows p t hp pn st u st' :
  (bp ← bodypart p t hp;
   _ ← on_part bp (with_number pn);
   _ ← on_part p (λ y, with_parts (p_parts y ++ [bp]) y);
   RepairWithBody multipart hp (Some bp) []) st = Ret (u, st') →
  p < parts_of st → pn = (len (children st p) + 1)%Z →
  grew (eq p) st st' ∧ ∃ bp, children st' p = children st p ++ [bp].
Proof.
  intros E Hp Hpn. run E as bp st1 H1. apply Hbody in H1 as (G1 & Hbp & Hh & Hf).
  run E as [] st2 H2. run E as [] st3 H3. apply RepairWithBody_grows in E as G4.
  destruct (append_child p bp pn st st1 st2 st3) as [G3 C3]; try done.
  split; [eapply grew_trans; [exact G3 | exact G4 | done]|]. exists bp.
  pose proof (g_parts _ _ _ G3). by rewrite (grew_kept _ _ p G4), C3 by lia.
Qed.

Lemma read_part_grows p s digest start i j pn st u st' :
  read_part multipart bodypart p s digest start i j pn st = Ret (u, st') →
  p < parts_of st → pn = (len (children st p) + 1)%Z →
  grew (eq p) st st' ∧ ∃ bp, children st' p = children st p ++ [bp].
Proof.
  unfold read_part. intros E Hp Hpn. run E as t st1 H1. apply qm_lift in H1. run E as h st2 H2. apply qm_lift in H2.
  run E as hp st3 H3. apply qm_new_Header in H3. run E as [] st4 H4. apply qm_on_header in H4.
  run E as e st5 H5. apply qm_lift in H5. run E as b st6 H6. apply qm_lift in H6.
  assert (quiet st st6) as Q.
  { trans st1; [done|]. trans st2; [done|]. trans st3; [done|]. trans st4; [done|]. by trans st5. }
  clear H1 H2 H3 H4 H5 H6. pose proof (q_parts _ _ Q).
  apply child_grows in E as [G Hc]; [|lia | by rewrite (q_children _ _ Q)].
  rewrite (q_children _ _ Q) in Hc. split; [by eapply quiet_grew_trans | done].
Qed.

Lemma multipart_loop_grows n : ∀ p s d digest i start last pn st u st',
  multipart_loop multipart bodypart n p s d digest i start last pn st = Ret (u, st') →
  p < parts_of st → pn = (len (children st p) + 1)%Z → grew (eq p) st st'.
Proof.
  induction n as [|n IH]; intros p s d digest i start last pn st u st' E Hp Hpn; cbn [multipart_loop] in E.
  { case_if_in E; [done|]. apply qm_ret in E. by apply quiet_grew. }
  case_if_in E; [|apply qm_ret in E; by apply quiet_grew].
  assert (∀ i start last st1, quiet st st1 →
    multipart_loop multipart bodypart n p s d digest i start last pn st1 = Ret (u, st') → grew (eq p) st st') as Hq.
  { intros i' start' last' st1 Q E'. eapply quiet_grew_trans; [exact Q|]. pose proof (q_parts _ _ Q).
    eapply IH; [exact E' | lia | by rewrite (q_children _ _ Q)]. }
  run E as b st1 H1. assert (quiet st st1) as Q1 by (case_if_in H1; [by apply qm_ret in H1 | by apply qm_lift in H1]).
  case_if_in E; [by eapply Hq|]. run E as [j l] st2 H2. apply qm_lift in H2.
  assert (quiet st st2) as Q2 by by trans st1.
  case_if_in E; [|by eapply Hq]. case_if_in E; [|by eapply Hq].
  pose proof (q_parts _ _ Q2). run E as [] st3 H3.
  apply read_part_grows in H3 as [G3 [bp C3]]; [|lia | by rewrite (q_children _ _ Q2)].
  eapply quiet_grew_trans; [exact Q2|]. pose proof (g_parts _ _ _ G3).
  eapply grew_trans; [exact G3 | | done]. eapply IH; [exact E | lia|].
  rewrite C3, length_app, (q_children _ _ Q2). simpl. lia.
Qed.

Lemma multipart_with_grows : multipart_grows (multipart_with multipart bodypart).
Proof.
  intros p s d digest st u st' E Hp Hc. unfold multipart_with in E.
  eapply multipart_loop_grows; [exact E | done | by rewrite Hc].
Qed.

(** *** Messages inside messages *)

Lemma adopt_children bp ps st u st' :
  adopt bp ps st = Ret (u, st') → bp < parts_of st →
  parts_of st' = parts_of st ∧ st_messages st' = st_messages st ∧ (∀ i, number st' i = number st i)
  ∧ (∀ i, has_header st i → has_header st' i) ∧ children st' bp = children st bp ++ ps
  ∧ (∀ i, i ≠ bp → children st' i = children st i).
Proof.
  revert st. induction ps as [|c ps IH]; intros st E Hbp; cbn [adopt] in E.
  { injection E as _ <-. rewrite app_nil_r. auto 10. }
  run E as [] st1 E1. run E as [] st2 E2.
  pose proof (on_part_parts _ _ _ _ E1) as P1. pose proof (on_part_parts _ _ _ _ E2) as P2.
  destruct (IH st2 E ltac:(lia)) as (IP & IM & IN & IH1 & IC & IO). split_and!.
  - lia.
  - by rewrite IM, (on_part_messages _ _ _ _ E2), (on_part_messages _ _ _ _ E1).
  - intros i. by rewrite IN, (on_part_number _ _ _ _ E2), (on_part_number _ _ _ _ E1).
  - intros i Hi. apply IH1. eapply (on_part_header _ _ _ _ E2); [done|]. by eapply (on_part_header _ _ _ _ E1).
  - rewrite IC, (on_part_children _ _ _ _ E2) by done. unfold children. rewrite (on_part_at _ _ _ _ E1).
    destruct (lookup_lt_is_Some_2 (st_parts st) bp) as [x ->]; [done|]. cbn. by rewrite <- app_assoc.
  - intros i Hi. rewrite IO, (on_part_children _ _ _ _ E2) by done. unfold children.
    by rewrite (on_part_other _ _ _ _ E1).
Qed.

(** The children of a new part become children of [bp] too. *)
Lemma adopt_grows bp q st st1 u st' :
  grew nothing st st1 → bp < parts_of st → children st bp = [] → parts_of st ≤ q →
  adopt bp (children st1 q) st1 = Ret (u, st') → grew (eq bp) st st'.
Proof.
  intros G Hbp Hc Hq E. pose proof (g_parts _ _ _ G) as HP.
  destruct (adopt_children _ _ _ _ _ E) as (P & M & N & Hh & C1 & C2); [lia|].
  rewrite (grew_kept _ _ bp G), Hc in C1 by done. cbn [app] in C1.
  pose proof (λ i, grew_kept _ _ i G) as G0. destruct G as [G1 G2 G3 G4 G5 G6 G7]. split; [lia | | by auto | | | |].
  - intros i Hi. rewrite N. auto.
  - intros i Hi Hne. rewrite C2 by auto. by apply G0.
  - intros i c Hi. destruct (decide (i = bp)) as [->|]; [|rewrite C2 in Hi by done; by apply G5].
    rewrite C1 in Hi. apply G5 in Hi as [Hi|Hi]; [|by right]. rewrite children_none in Hi by done. by apply not_elem_of_nil in Hi.
  - by rewrite M.
  - intros Hn i j c Hi. rewrite P, N. specialize (G7 Hn).
    assert (∃ k, children st1 k !! j = Some c) as [k Hk].
    { destruct (decide (i = bp)) as [->|]; [exists q; by rewrite <- C1 | exists i; by rewrite <- C2]. }
    destruct (G7 k j c Hk) as (? & ? & ?). auto.
Qed.

Lemma NewMessage_inv st m st' :
  NewMessage st = Ret (m, st') →
  m = length (st_messages st) ∧ parts_of st' = S (parts_of st)
  ∧ st_messages st' = st_messages st ++ [{| m_part := parts_of st; RFC822Size := 0 |}].
Proof. intros [= <- <-]. cbn. split_and!; [done | rewrite length_app; simpl; lia | done]. Qed.

Lemma inner_message_grows bp s start st t st' :
  inner_message parse_message bp s start st = Ret (t, st') → bp < parts_of st → children st bp = [] →
  grew (eq bp) st st'.
Proof.
  unfold inner_message. intros E Hbp Hc. run E as k st0 H0. apply qm_lift in H0.
  rewrite <- (q_children _ _ H0) in Hc. pose proof (q_parts _ _ H0) as P0. eapply quiet_grew_trans; [exact H0|]. clear H0.
  run E as m st1 H1. pose proof (qm_NewMessage _ _ _ H1) as Q1. apply NewMessage_inv in H1 as (-> & P1 & M1).
  set (m := length (st_messages st0)) in *. set (q := parts_of st0) in *.
  assert (st_messages st1 !! m = Some {| m_part := q; RFC822Size := 0 |}) as L1
    by (rewrite M1; by apply list_lookup_middle).
  run E as msg st2 H2. unfold get_message in H2. rewrite L1 in H2. injection H2 as <- <-. cbn [m_part] in E.
  run E as [] st3 H3. pose proof (on_part_messages _ _ _ _ H3) as M3. pose proof (on_part_parts _ _ _ _ H3) as P3.
  assert (quiet st0 st3) as Q3 by (trans st1; [done | by apply qm_on_part in H3]).
  run E as body st4 H4. assert (st4 = st3) as -> by (unfold lift in H4; destruct (from_ s k); by simplify_eq/=). clear H4.
  run E as [] st5 H5. rewrite <- M3 in L1. assert (grew (eq q) st3 st5) as G5.
  { apply (Hmessage _ _ _ _ _ _ H5 L1); cbn [m_part]; [lia|]. rewrite (q_children _ _ Q3). by apply children_none. }
  assert (grew nothing st0 st5) as G.
  { eapply grew_trans; [apply quiet_grew, Q3 | exact G5 |]. intros i Hi <-. lia. }
  destruct (g_messages _ _ _ G5 m _ L1) as (msg & L5 & Hq).
  run E as msg' st6 H6. unfold get_message in H6. rewrite L5 in H6. injection H6 as <- <-.
  run E as x st7 H7. unfold get_part in H7. destruct (st_parts st5 !! m_part msg) as [y|] eqn:Ey; [|done].
  injection H7 as <- <-. replace (p_parts y) with (children st5 (m_part msg)) in E by (unfold children; by rewrite Ey).
  run E as [] st8 H8. assert (grew (eq bp) st0 st8) as G8 by (eapply adopt_grows; [exact G | lia | done | | exact H8]; cbn in Hq; lia).
  run E as [] st9 H9. apply qm_on_part in H9; [|done..]. apply qm_Message_RFC822 in E.
  eapply grew_quiet; [exact G8 | by trans st9].
Qed.

(** *** Body parts *)

Lemma bodypart_with_grows : bodypart_grows (bodypart_with multipart parse_message).
Proof.
  intros p s hp st bp st' E. unfold bodypart_with in E. run E as start st0 H0.
  assert (st0 = st) as -> by (unfold lift in H0; destruct (body_start s); by simplify_eq/=). clear H0.
  run E as b st1 H1. pose proof (qm_new_Part (new_part (Some p) (Some hp)) eq_refl _ _ _ H1) as Q1.
  apply new_Part_inv in H1 as [-> E1]. set (b := parts_of st) in *.
  assert (parts_of st1 = S b) as P1 by (rewrite E1; cbn [set_parts st_parts]; rewrite length_app; simpl; lia).
  assert (has_header st1 b) as Hh1.
  { unfold has_header. rewrite E1. cbn [set_parts st_parts]. rewrite list_lookup_middle by done. cbn. by eexists. }
  assert (children st1 b = []) as C1 by (rewrite (q_children _ _ Q1); by apply children_none). clear E1.
  run E as [[body f] cte] st2 H2. apply qm_leaf_part in H2. pose proof (q_parts _ _ H2).
  run E as body' st3 H3. assert (grew (eq b) st2 st3) as G3.
  { rewrite <- (q_children _ _ H2) in C1. case_if_in H3; [|case_if_in H3].
    - run H3 as t st4 H4. apply qm_lift in H4. pose proof (q_parts _ _ H4). run H3 as [] st5 H5. apply qm_ret in H3.
      eapply quiet_grew_trans; [exact H4|]. eapply grew_quiet; [|exact H3].
      eapply Hmulti; [exact H5 | lia | by rewrite (q_children _ _ H4)].
    - eapply inner_message_grows; [exact H3 | lia | done].
    - apply qm_ret in H3. by apply quiet_grew. }
  assert (bp = b ∧ quiet st3 st') as [-> Q3].
  { run E as e st4 H4. assert (quiet st3 st4) as Q4 by (destruct cte as [[k g]|]; [by apply qm_lift in H4 | by apply qm_ret in H4]).
    run E as x st5 H5. apply qm_get_part in H5. run E as [] st6 H6. apply qm_on_part in H6; [|done..].
    run E as [] st7 H7. apply qm_on_header in H7. injection E as -> ->. split; [done|].
    trans st4; [done|]. trans st5; [done|]. by trans st6. }
  assert (grew (eq b) st1 st') as G by (eapply quiet_grew_trans; [exact H2|]; by eapply grew_quiet).
  pose proof (g_parts _ _ _ G). split_and!; [|lia..| by apply (g_header _ _ _ G) |].
  - eapply grew_trans; [apply quiet_grew, Q1 | exact G |]. intros i Hi <-. lia.
  - intros Hn i Hi. apply (g_new _ _ _ G) in Hi as [Hi|Hi]; [|lia]. rewrite (q_children _ _ Q1) in Hi.
    apply (numbered_child _ _ _ Hn) in Hi. lia.
Qed.

(** *** Messages *)

(** The message gets a new part. *)
Lemma grew_on_message X m f st st1 st2 :
  grew X st st1 → (∀ x, parts_of st ≤ m_part (f x)) → on_message m f st1 = Ret (tt, st2) → grew X st st2.
Proof.
  intros [G1 G2 G3 G4 G5 G6 G7] Hf E. unfold on_message, get_message, mbind, state_bind in E.
  destruct (st_messages st1 !! m) as [x|] eqn:Hx; [|done]. unfold modify in E. injection E as <-. split; try done.
  intros k msg Hk. destruct (G6 k msg Hk) as (msg' & Hm & H). cbn [set_messages st_messages].
  destruct (decide (k = m)) as [->|]; [|exists msg'; by rewrite list_lookup_insert_ne].
  exists (f x). split; [|auto]. apply list_lookup_insert_eq. by eapply lookup_lt_Some.
Qed.

(** A message that is not a multipart. *)
Lemma single_grows p m hp body st u st' :
  (bp ← bodypart p body hp; on_message m (λ x, {| m_part := bp; RFC822Size := RFC822Size x |})) st = Ret (u, st') →
  grew nothing st st'.
Proof.
  intros E. run E as bp st1 H1. apply Hbody in H1 as (G1 & Hbp & _). destruct u.
  eapply grew_on_message; [exact G1 | | exact E]. intros x. cbn. lia.
Qed.

Lemma message_with_grows : message_grows (message_with multipart bodypart).
Proof.
  intros m s st u st' msg E Hm Hp Hc. unfold message_with in E.
  run E as h st1 H1. assert (st1 = st) as -> by (unfold lift in H1; destruct (ReadHeader _ _); by simplify_eq/=). clear H1.
  run E as hp st2 H2. pose proof (qm_new_Header _ _ _ _ H2) as Q2. injection H2 as _ E2.
  run E as msg' st3 H3. unfold get_message in H3. replace (st_messages st2) with (st_messages st) in H3 by by subst st2.
  rewrite Hm in H3. injection H3 as <- <-. clear E2. set (p := m_part msg) in *.
  run E as [] st4 H4. apply qm_on_part in H4; [|done..]. run E as [] st5 H5. apply qm_on_message in H5; [|done].
  run E as [] st6 H6. apply qm_on_header in H6. run E as body st7 H7. apply qm_lift in H7.
  assert (quiet st st7) as Q.
  { trans st2; [done|]. trans st4; [done|]. trans st5; [done|]. by trans st6. }
  clear Q2 H4 H5 H6 H7. run E as [] st8 H8. apply RepairWithBody_grows in H8.
  assert (grew nothing st st8) as G8 by by eapply quiet_grew_trans. clear Q H8.
  run E as h' st9 H9. apply qm_get_header in H9. run E as ct st10 H10. apply qm_lift in H10.
  assert (grew nothing st st10) as G10 by (eapply grew_quiet; [exact G8 | by trans st9]). clear G8 H9 H10.
  pose proof (g_parts _ _ _ G10). run E as [] st11 H11.
  assert (grew (eq p) st10 st11) as G11.
  { destruct ct as [[k f]|]; [case_if_in H11|].
    - eapply Hmulti; [exact H11 | lia | by rewrite (grew_kept _ _ p G10)].
    - by eapply grew_any, single_grows.
    - by eapply grew_any, single_grows. }
  eapply grew_quiet with st11.
  - eapply grew_trans; [apply grew_any, G10 | exact G11 | done].
  - run E as msg' st12 H12. apply qm_get_message in H12. run E as hp' st13 H13. apply qm_header_of in H13.
    apply qm_on_header in E. trans st12; [done|]. by trans st13.
Qed.
End Steps.

Lemma parsers_grow n : multipart_grows (parseMultipart n) ∧ bodypart_grows (parseBodypart n) ∧ message_grows (Parse n).
Proof.
  induction n as [|n (H1 & H2 & H3)]; [by split_and!; intros ?|]. split_and!.
  - by apply multipart_with_grows.
  - by apply bodypart_with_grows.
  - by apply message_with_grows.
Qed.
End Grow.

(** ** Looking up parts *)

Section Lookup.
Context {U : UnicodeCase} {CS : Charset} {L : Local} {C : Clock} {CL : CharsetLaws CS}.
Context (has_room : nat → bool).

Lemma qm_find_child n i cs found : quietly (find_child n i cs found).
Proof. revert i found. induction cs; intros; cbn [find_child]; quietly. Qed.

Lemma qm_BodyPart m s : quietly (BodyPart has_room m s false).
Proof.
  unfold BodyPart. generalize (S (length s)), 0%Z, (None : option nat). intros k.
  induction k as [|k IH]; intros b bp; cbn [bodypart_loop]; quietly; try apply qm_find_child; try apply qm_link_header.
Qed.

Lemma qm_Message_Body a m : quietly (Message_Body a m).
Proof. unfold Message_Body, print_fuel. quietly. apply qm_message_body; apply qm_printers. Qed.

Lemma qm_Part_AsText a p : quietly (Part_AsText a p).
Proof. unfold Part_AsText, print_fuel. quietly. apply qm_part_type. apply qm_printers. Qed.

Lemma Message_Parse_keeps_numbers m s msg st u st' :
  Message_Parse m s st = Ret (u, st') → st_messages st !! m = Some msg → m_part msg < parts_of st →
  children st (m_part msg) = [] → numbered st → numbered st'.
Proof.
  intros E Hm Hp Hc Hn. destruct (parsers_grow (parse_fuel s)) as (_ & _ & Hg).
  by apply (g_numbered _ _ _ (Hg _ _ _ _ _ _ E Hm Hp Hc)).
Qed.

Lemma ReadMessage_keeps_numbers s st m st' : ReadMessage s st = Ret (m, st') → numbered st → numbered st'.
Proof.
  unfold ReadMessage. intros E Hn. run E as k st1 H1. pose proof (qm_NewMessage _ _ _ H1) as Q1.
  apply NewMessage_inv in H1 as (-> & P1 & M1). run E as [] st2 H2. injection E as _ <-.
  eapply (Message_Parse_keeps_numbers _ s {| m_part := parts_of st; RFC822Size := 0 |}); [exact H2 | | cbn; lia | |].
  - rewrite M1. by apply list_lookup_middle.
  - cbn [m_part]. rewrite (q_children _ _ Q1). by apply children_none.
  - by apply (g_numbered nothing st st1), Hn; apply quiet_grew.
Qed.

(** The calls that do not make parts on demand and do not read a second text into
    a message that has parts. *)
Definition orderly (st : Store) (c : call) : Prop :=
  match c with
  | CBodyPart _ _ create => create = false
  | CParse m _ => ∀ msg, st_messages st !! m = Some msg → children st (m_part msg) = []
  | _ => True
  end.

Inductive observed : Store → Prop :=
| obs_start : observed empty_store
| obs_call st c st' : observed st → orderly st c → run_call has_room c st = Ret (tt, st') → observed st'.

Lemma observed_reachable st : observed st → reachable has_room st.
Proof. induction 1; [constructor | by eapply reach_call]. Qed.

(** [Parse] starts with the message. *)
Lemma Parse_message n m s st u st' : Parse n m s st = Ret (u, st') → is_Some (st_messages st !! m).
Proof.
  destruct n as [|n]; [done|]. cbn [Parse]. unfold message_with. intros E. run E as h st1 H1.
  unfold lift in H1. destruct (ReadHeader _ _) as [h'| |]; [|done..]. injection H1 as _ <-.
  run E as hp st2 H2. injection H2 as _ <-. run E as msg st3 H3. unfold get_message in H3.
  cbn [set_headers st_messages] in H3. by destruct (st_messages st !! m).
Qed.

Lemma qm_the_part p : quietly (the_part p).
Proof. unfold the_part. quietly. Qed.

Lemma run_call_numbered st c st' :
  wf_store K_any st → orderly st c → run_call has_room c st = Ret (tt, st') → numbered st → numbered st'.
Proof.
  intros Hw Hc E Hn. assert (∀ A (m : mm A) a, quietly m → m st = Ret (a, st') → numbered st') as Hq.
  { intros A m a Hm E'. apply (g_numbered nothing st st'); [|done]. by eapply quiet_grew, Hm. }
  destruct c; cbn [run_call orderly] in *; subst.
  - run E as m st1 H1. injection E as <-. by eapply ReadMessage_keeps_numbers.
  - eapply Hq, E. quietly.
  - destruct (Parse_message _ _ _ _ _ _ E) as [msg Hm].
    eapply Message_Parse_keeps_numbers; [exact E | exact Hm | by eapply (ws_messages _ _ Hw) | by apply Hc | done].
  - eapply Hq, E. quietly.
  - run E as [] st1 H1. apply qm_the_part in H1.
    apply RepairWithBody_grows in E; [|apply parsers_grow]. apply (g_numbered _ _ _ E), (g_numbered nothing st st1), Hn.
    by apply quiet_grew.
  - eapply Hq, E. quietly; apply qm_Message_RFC822.
  - eapply Hq, E. quietly; apply qm_Message_Body.
  - eapply Hq, E. quietly; apply qm_Part_AsText.
  - eapply Hq, E. quietly; apply qm_BodyPart.
  - eapply Hq, E. quietly.
Qed.

Lemma observed_numbered st : observed st → numbered st.
Proof.
  induction 1; [by intros i j c; unfold children; cbn|].
  eapply run_call_numbered; [by eapply reachable_wf_store, observed_reachable | done..].
Qed.

(** C8: in every state a program can reach with the exported functions
    and methods, as long as it does not make parts on demand ([BodyPart] with
    [create]) and does not call [Parse] on a message that has parts already, the
    children of each part, the parts of a message inside a message included, are
    numbered 1, 2, 3, ... in their order, and each of them has a header. *)
Theorem parts_numbered (st : Store) (Hst : observed st) : numbered st.
Proof. by apply observed_numbered. Qed.

(** The part with the number [n] on each level. *)
Fixpoint walk (st : Store) (p : nat) (ns : list Z) : option nat :=
  match ns with
  | [] => Some p
  | n :: ns' => c ← children st p !! Z.to_nat (n - 1); walk st c ns'
  end.

(** The digits [w] are a part number [n]. *)
Definition part_number (w : str) (n : Z) : Prop :=
  Forall (λ c, is_digit c = true) w ∧ Atoi w = Some n ∧ (0 < n)%Z.

Lemma find_child_numbered st n cs : ∀ i found,
  (Z.of_nat i < n)%Z →
  (∀ j c, cs !! j = Some c → c < parts_of st ∧ number st c = (Z.of_nat i + Z.of_nat j + 1)%Z) →
  ∃ r, find_child n i cs found st = Ret (r, st)
    ∧ match cs !! (Z.to_nat (n - 1) - i) with
      | Some c => r = Some (Z.to_nat (n - 1), c)
      | None => r = found ∨ ∃ k c, r = Some (k, c) ∧ c < parts_of st ∧ (number st c < n)%Z
      end.
Proof.
  induction cs as [|c cs IH]; intros i found Hi Hcs; cbn [find_child]; [by eexists; split; [|left]|].
  destruct (Hcs 0 c eq_refl) as [Hlt Hc]. destruct (lookup_lt_is_Some_2 _ _ Hlt) as [x Hx].
  assert (number st c = Number x) as Ex by (unfold number; by rewrite Hx).
  rewrite (pbind_ret (get_part c) _ st x st) by (unfold get_part; by rewrite Hx). case_if.
  - exists (Some (i, c)). split; [done|]. replace (Z.to_nat (n - 1) - i) with 0 by lia. cbn. do 2 f_equal. lia.
  - destruct (IH (S i) (Some (i, c))) as (r & E & Hr); [lia | |].
    { intros j e He. destruct (Hcs (S j) e He) as [? Hn]. split; [done | rewrite Hn; lia]. }
    exists r. split; [done|]. replace (Z.to_nat (n - 1) - i) with (S (Z.to_nat (n - 1) - S i)) by lia. cbn [lookup list_lookup].
    destruct (cs !! _) as [e|]; [done|]. right. destruct Hr as [-> | Hr]; [|done]. exists i, c. split_and!; [done | done | lia].
Qed.

(** What [BodyPart] finds for one number. *)
Lemma find_number st n p x :
  numbered st → (0 < n)%Z → st_parts st !! p = Some x →
  ∃ r, find_child n 0 (p_parts x) None st = Ret (r, st)
    ∧ match children st p !! Z.to_nat (n - 1) with
      | Some c => ∃ i y, r = Some (i, c) ∧ st_parts st !! c = Some y ∧ Number y = n ∧ is_Some (p_header y)
      | None => r = None ∨ ∃ i c y, r = Some (i, c) ∧ st_parts st !! c = Some y ∧ Number y ≠ n
      end.
Proof.
  intros Hn H0 Hx. assert (children st p = p_parts x) as Ec by (unfold children; by rewrite Hx). rewrite <- Ec.
  destruct (find_child_numbered st n (children st p) 0 None) as (r & E & Hr); [lia | |].
  { intros j c Hc. destruct (Hn p j c Hc) as (? & Hnum & _). split; [done | lia]. }
  exists r. split; [done|]. rewrite Nat.sub_0_r in Hr. destruct (children st p !! _) as [c|] eqn:Hc.
  - destruct (Hn p _ c Hc) as (Hlt & Hnum & Hh). destruct (lookup_lt_is_Some_2 _ _ Hlt) as [y Hy].
    unfold number in Hnum. unfold has_header in Hh. rewrite Hy in Hnum, Hh. cbn in Hnum, Hh.
    exists (Z.to_nat (n - 1)), y. split_and!; [done | done | lia | done].
  - destruct Hr as [-> | (i & c & -> & Hlt & Hnum)]; [by left|]. right.
    destruct (lookup_lt_is_Some_2 _ _ Hlt) as [y Hy]. unfold number in Hnum. rewrite Hy in Hnum. cbn in Hnum.
    exists i, c, y. split_and!; [done | done | lia].
Qed.

Section Path.
Context (st : Store) (Hst : numbered st) (m : nat) (msg : Message) (Hm : st_messages st !! m = Some msg).

(** One number of a path. *)
Lemma bodypart_step k pre w t bp n :
  let s := pre ++ w ++ t in
  let owner := default (m_part msg) bp in
  part_number w n → match t with [] => True | c :: _ => c = "."%byte end → owner < parts_of st →
  bodypart_loop has_room (S k) m s false (len pre) bp st
  = match children st owner !! Z.to_nat (n - 1) with
    | Some c => bodypart_loop has_room k m s false (len pre + len w + 1) (Some c) st
    | None => Ret (None, st)
    end.
Proof.
  intros s owner (Hw & Ha & Hn) Ht Ho. cbn [bodypart_loop].
  assert (skip_while is_digit s (len pre) = len pre + len w)%Z as He
    by (apply skip_while_at; [done | done | destruct t; [done | by subst]]).
  assert ((len pre <? len s)%Z = true) as Hlt.
  { apply Z.ltb_lt. unfold s. rewrite !length_app. destruct w; [by cbn in Ha | simpl; lia]. }
  rewrite Hlt, He. cbv zeta.
  replace ((len pre + len w <? len s)%Z && negb (is_at s (Z.to_nat (len pre + len w)) ".")) with false.
  2:{ unfold s. destruct t as [|c t].
      - rewrite app_nil_r, length_app. symmetry. apply andb_false_iff. left. lia.
      - rewrite app_assoc, is_at_app by (rewrite length_app; lia). rewrite Ht. by rewrite andb_false_r. }
  rewrite (pbind_ret (lift _) _ st w st) by (unfold lift, s; by rewrite slice_app).
  rewrite Ha. replace (n =? 0)%Z with false by lia.
  rewrite (pbind_ret (get_message m) _ st msg st) by (unfold get_message; by rewrite Hm).
  fold owner. destruct (lookup_lt_is_Some_2 _ _ Ho) as [x Hx].
  rewrite (pbind_ret (get_part owner) _ st x st) by (unfold get_part; by rewrite Hx).
  destruct (find_number st n owner x Hst Hn Hx) as (r & Er & Hr).
  rewrite (pbind_ret (find_child _ _ _ _) _ st r st Er). destruct (children st owner !! _) as [c|].
  - destruct Hr as (i & y & -> & Hy & Hnum & [h Hh]).
    rewrite (pbind_ret _ _ st n st) by (unfold mbind, state_bind, get_part; by rewrite Hy, <- Hnum).
    rewrite Z.eqb_refl. rewrite (pbind_ret _ _ st tt st); [done|]. case_if; [|done].
    unfold link_header, mbind, state_bind, get_part. by rewrite Hy, Hh.
  - destruct Hr as [-> | (i & c & y & -> & Hy & Hnum)]; [done|].
    rewrite (pbind_ret _ _ st (Number y) st) by (unfold mbind, state_bind, get_part; by rewrite Hy).
    by replace (Number y =? n)%Z with false by (symmetry; by apply Z.eqb_neq).
Qed.

Lemma bodypart_path ws ns : Forall2 part_number ws ns → ∀ k pre bp,
  ws ≠ [] → length ws ≤ k → default (m_part msg) bp < parts_of st →
  bodypart_loop has_room k m (pre ++ Join ws $".") false (len pre) bp st
  = Ret (walk st (default (m_part msg) bp) ns, st).
Proof.
  induction 1 as [|w n ws ns Hw Hws IH]; intros k pre bp Hne Hk Ho; [done|]. destruct k as [|k]; [simpl in Hk; lia|].
  cbn [walk]. destruct ws as [|w' ws].
  - apply Forall2_nil_inv_l in Hws as ->. cbn [Join]. pose proof (bodypart_step k pre w [] bp n Hw I Ho) as E.
    cbv zeta in E. rewrite app_nil_r in E. rewrite E. destruct (children st _ !! _) as [c|]; [|done]. cbn [mbind option_bind walk].
    destruct k; cbn [bodypart_loop]; by replace (_ <? _)%Z with false by (rewrite length_app; lia).
  - rewrite Join_cons by done. set (rest := Join (w' :: ws) $"."). change ($"." ++ rest) with ("."%byte :: rest).
    pose proof (bodypart_step k pre w ("."%byte :: rest) bp n Hw eq_refl Ho) as E. cbv zeta in E. rewrite E.
    destruct (children st _ !! _) as [c|] eqn:Hc; [|done]. cbn [mbind option_bind].
    destruct (Hst _ _ _ Hc) as (Hlt & _). pose proof (IH k (pre ++ w ++ $".") (Some c)) as H.
    replace ((pre ++ w ++ $".") ++ Join (w' :: ws) $".") with (pre ++ w ++ "."%byte :: rest) in H
      by (unfold rest; by rewrite <- !app_assoc).
    replace (len (pre ++ w ++ $".")) with (len pre + len w + 1)%Z in H by (rewrite !length_app; simpl; lia).
    apply H; [done | simpl in *; lia | done].
Qed.
End Path.

End Lookup.

(** ** Examples *)

#[local] Existing Instance ascii_only_case.
#[local] Existing Instance plain_charsets.
#[local] Existing Instance utc_only.
#[local] Existing Instance epoch_clock.

(** A multipart whose second part is a multipart of two parts. *)
Definition nested_message : str :=
  text_lines [$"From: a@example.com"; $"Content-Type: multipart/mixed; boundary=a"; [];
              $"--a"; $"Content-Type: text/plain"; []; $"one";
              $"--a"; $"Content-Type: multipart/mixed; boundary=b"; [];
              $"--b"; $"Content-Type: text/plain"; []; $"two";
              $"--b"; $"Content-Type: text/plain"; []; $"three";
              $"--b--"; $"--a--"].

Definition nested_store : Store :=
  match ReadMessage nested_message empty_store with Ret (_, st) => st | _ => empty_store end.

Lemma nested_observed : observed (λ _, true) nested_store.
Proof.
  apply (obs_call _ empty_store (CReadMessage nested_message)); [constructor | done|]. vm_compute. reflexivity.
Defined.

Lemma parts_numbered_witness : numbered nested_store ∧ length (children nested_store 0) = 2.
Proof. split; [apply (parts_numbered (λ _, true)), nested_observed | vm_compute; reflexivity]. Defined.


(** A second [Parse] of the same message adds the parts of the second text, numbered
    from 1 again; the third part cannot be looked up. *)
Lemma Parse_twice :
  match Message_Parse 0 nested_message nested_store with
  | Ret (_, st) =>
      map (number st) (children st 0) = [1; 2; 1; 2]%Z
      ∧ BodyPart (λ _, true) 0 $"3" false st = Ret (None, st)
  | _ => False
  end.
Proof. vm_compute. split; reflexivity. Qed.

(** A message that is not a multipart has no part 1. *)
Lemma BodyPart_single : BodyPart (λ _, true) 0 $"1" false sample_store = Ret (None, sample_store).
Proof. vm_compute. reflexivity. Qed.
